(* ===== verification/_CoqProject ===== *)
-Q . S2P
Prelude.v
Threads.v
Bufio.v
Wire.v
Packets.v
Receiver.v
Sender.v
Tunnel.v
TunnelFlow.v
TunnelSync.v
Limits.v
Quota.v
Topic.v
Requests.v
Tunnels.v
Connection.v
Events.v
EndToEnd.v
Service.v
Safety.v
System.v
Footprint.v
Memory.v
Answers.v
Subscribed.v
Making.v
Steady.v
Tunnelled.v
Listening.v
Receiving.v
Served.v
Log.v
