(* ===== verification/Prelude.v ===== *)
(** * A verification development for the Iris Go binding

    Iris is a messaging middleware; this repository is its Go binding. An
    application talks over one TCP connection to a relay on its own host, and
    through it broadcasts to clusters, sends requests and awaits replies,
    publishes and subscribes to topics, and opens tunnels, which are ordered and
    throttled streams of messages. An application may also register as a service,
    a member of a cluster, and then serves broadcasts, requests and tunnels.

    ** The program and its model

    Each file models a part of the program, definitions named after the source:

    - Prelude.v: Go's fixed-width integers, byte strings, errors (errors.go); the
      outcome of running code (return, error, panic, blocked goroutine, out of
      fuel) and the state monad over it; reachability; shared lemmas and tactics.
    - Threads.v: programs of a goroutine ([prog]): critical sections separated by
      points where the goroutine lets go ([Yield]) or waits in a [select]; [play]
      runs one on a script that says what the others do meanwhile, [resume] as part
      of an interleaving; the rules for showing a program safe among others.
    - Bufio.v: the socket and [bufio], both directions, with the buffer, partial
      writes and the sticky error.
    - Wire.v: the primitives of proto.go that send and receive bytes, booleans,
      variable-length integers, byte strings.
    - Packets.v: [sendPacket] with the lock and the counter of pending writes, and
      the thirteen send functions. [OutPacket] and [encode] are the abstract
      specification of what they put on the stream.
    - Sender.v: [sendPacket] run by any number of goroutines, an atomic operation
      a step.
    - Receiver.v: [procInit], the proc functions and the loop [process], against
      the class [Handlers] of what they call on the connection. [InPacket],
      [encode_in] and [deliver] are their abstract specification.
    - Tunnel.v: one end of a tunnel, tunnel.go but for its construction, as programs
      over the tunnel and the link; the theorems hold for every script.
    - TunnelFlow.v: two ends with chunks and allowances in flight between them.
    - TunnelSync.v: concurrent [Recv] and [Send] calls and the signal channels.
    - Limits.v: limits.go, and the completion of the user's limits.
    - Quota.v: the class [ThreadPool] for the pool of the Iris project, the
      accounting of queued memory, and its concurrent use.
    - Topic.v: topic.go, and the subscription table of a connection.
    - Requests.v: the result channels of requests, the calls in progress, the
      receiver and the relay as one transition system.
    - Tunnels.v: the tunnel table and the interleavings of what runs on it.
    - Connection.v: the [Connection] with all its parts, and connection.go's calls,
      tunnel construction included, as programs of Threads.v over it.
    - Events.v: events.go, the instance of [Handlers] for a connection, the jobs
      of the handler pools and the goroutines the receiver starts.
    - EndToEnd.v: the parts composed, from a call of one connection over the wire to
      the handlers of another and back.
    - Service.v: the handshake of [newConnection], [Connect], and service.go.
    - Safety.v: when a [Connection] is well-formed ([conn_ok]), and that every call,
      goroutine and job keeps it so at each of its stretches.
    - System.v: a connection in use: the receiver, the calls of the application, the
      goroutines and the workers of the pools as one transition system [sys_step];
      [history] keeps the packets that have arrived.
    - Footprint.v: the parts of a connection, and which of them each goroutine of the
      system can change at all.
    - Memory.v, Answers.v, Subscribed.v, Tunnelled.v: the memory accounts, the
      requests, the subscriptions and the tunnel table of a connection in use, each
      tied to the component that models it alone (Quota.v, Requests.v, Topic.v,
      Tunnels.v). Making.v holds what each goroutine does to the tunnel table, Steady.v
      what leaves a part of that table alone.
    - Listening.v: what the receiver waits for while it handles a packet, the call of
      [Tunnel] on the other side of it, and [Close].
    - Receiving.v: the calls of [Recv] among everything else.
    - Served.v: the way of an arrival through queues and goroutines to its handler.
    - Log.v: logger.go, and the formatting of [fmt] and [time] it uses.

    Pointers kept beyond a table (tunnels, subscriptions) are modelled by a store
    next to the table. Locks are modelled by the extent of a step: a critical
    section is one step of the transition systems and one uninterrupted stretch of
    the programs. Maps are finite maps; a send on a nil or full channel and
    a receive with nothing to come give [Block]; a dereferenced nil, a bad slice
    bound, a channel closed twice give [Panic].

    ** What is shown

    - Wire and packets: decoding inverts encoding; each send function refines its
      packet's encoding; no two sequences of packets have the same bytes; packets
      of concurrent senders are never mixed, none is left unflushed, the senders
      never deadlock, and what they leave is what sending one after the other does.
    - Receiving: every packet's handler runs, in order, on the values sent; a
      packet cut short is never delivered; the loop ends on every input.
    - Tunnels: [Send] sends exactly the chunks of its message or says why not; what
      arrives is what was sent, whole, in order, once; the receiver's buffer is
      never exceeded; everything is delivered when messages fit the buffer; the
      signals wake single callers exactly; from [Send] over the wire to the other
      application's [Recv] a message stays the same; closure happens once and nothing given
      to the application is left open.
    - Requests: a reply reaches the call it answers and no other; against a relay
      that answers once the receiver never blocks; what a service's handler returns
      is what the caller's [Request] returns. Broadcasts and events reach the
      handlers they are for, accounted for while they are queued.
    - Subscriptions, limits, memory accounts, handshake, service start-up and the
      shutdown of a connection, each on every branch.
    - The connection as a whole: against a relay that keeps to the protocol the
      state stays well-formed and nothing panics, however everything interleaves;
      the end of the connection lets every caller return; and what a call comes to
      in the system is what it comes to on a script, so that the theorems about
      scripts are theorems about the system.
    - The components in use: what happens in the system to the result channels of
      requests and to the tunnel table are runs of the protocols of Requests.v and
      Tunnels.v, with every call at its place in them. So a call of [Request] returns
      the answer to that very request; a tunnel is handed out once, is in the table or
      closed from then on, and none is left behind; a subscription takes events exactly
      as long as it is in the table; what waits for the workers of a service stays
      within its limits, with counters that never drift; and no handler is called
      with anything that has not arrived, or more often than it has.
    - Nothing is held up: where the relay sends the result of a construction once, the
      receiver is back in its loop a few steps after any packet, the connection can be
      ended at any time, and a call of [Close] can return. A [Recv] that is alone on its
      tunnel never panics, and can take a message that is there wherever it has got to.
    - Logging: what is shown of data identifies it up to the truncation.
    - Where the code falls short: concurrent receivers and senders of one tunnel,
      messages over the buffer, tunnels wedged by a timeout, memory limits under
      concurrent publishers or beyond 31 bits, packets a relay should not send.

    ** Parameters, fuel and limits of the model

    [GoRuntime] holds what the language leaves open (largest allocation, growth of
    slices, number of processors). The queue and the thread pool of the Iris
    project are the classes [Queue] and [ThreadPool], with the laws their
    documentation promises and list instances at which the theorems are
    evaluated. The user's handlers are given by what they return and their calls
    logged. Dialling is given by its outcome.

    Loops without a structural bound take fuel: [sendVarint] ten digits, which a
    64-bit number never exceeds; [process_loop] one more than the bytes of input,
    and each turn takes one at least; [Send_loop] one more than the bytes of the
    message, enough for any positive chunk limit; [sendChunk] one more than
    the entries of its script, each turn but the last using one. Running out is
    the outcome [Diverge], and the theorems exclude it or, for a chunk limit of 0,
    establish it. In System.v a [Send] is given any number of turns, so that every
    finite run of it is covered, and may end by having used them up.

    In System.v the relay is one whose packets are [expected]: nothing for a service
    to a client, one answer to a request in progress, no result for an unknown
    tunnel, no length beyond what can be allocated, no chunk limit that is negative
    or beyond 2^62. In Listening.v it is also [polite]: it sends the result of a
    construction only where a call has asked for it and had none. What happens
    otherwise is shown by [unexpected_packets_crash], [stray_reply_freezes],
    [late_result_freezes] and [oversized_length_crashes]; what several goroutines in
    [Recv] of one tunnel can come to, by [two_receivers_unsafe].
    The panic of [Recv] that [system_safe] therefore leaves possible is ruled out in
    Receiving.v for the runs of [orderly_step], in which one goroutine at a time receives
    on a tunnel and the relay sends no empty chunk.

    The theorems about a connection in use start from one that has just been made
    ([fresh], [newly_made]), which is what registration and [Connect] lead to. Those of
    Answers.v, Tunnelled.v, Listening.v and Receiving.v are for fewer than 2^63 goroutines, so that
    the 64-bit numbers of requests and tunnels do not come round; those of Memory.v are
    for limits below 2 GiB, the width of the counters, and a largest allocation of at most
    2^62 bytes; that of Subscribed.v lasts until the application ends the connection,
    when [Close] terminates the subscriptions and leaves them in the table.

    Not modelled: the log calls, which have no effect on the state, the rendering of
    error messages, memory exhaustion below the largest allocation, and the relay, of
    which only the bytes it sends are assumed. The relay is taken to forward a
    tunnel's chunks and allowances without loss in TunnelFlow.v, and the contents of
    packets unchanged in EndToEnd.v, and nothing else. *)

From Stdlib Require Import ZArith Lia Strings.Byte Strings.String.
From stdpp Require Import base gmap strings list.

Open Scope Z_scope.

(** ** Machine integers *)

(** Go's [uint64], [int64] (the platform [int]) and [int32] are integers of
    [Z] with the wrap-around written out: the conversion of any [Z] to the
    type. *)
Definition u64 (z : Z) : Z := z mod 2 ^ 64.
Definition i64 (z : Z) : Z := (z + 2 ^ 63) mod 2 ^ 64 - 2 ^ 63.
Definition i32 (z : Z) : Z := (z + 2 ^ 31) mod 2 ^ 32 - 2 ^ 31.

(** Go's [x << s] on a [uint64]: bits beyond the width are dropped and a shift
    count of 64 or more gives 0. *)
Definition shl64 (x s : Z) : Z := if 64 <=? s then 0 else u64 (Z.shiftl x s).

Lemma u64_range z : 0 <= u64 z < 2 ^ 64.
Proof. apply Z.mod_pos_bound. lia. Qed.

Lemma u64_id z : 0 <= z < 2 ^ 64 -> u64 z = z.
Proof. apply Z.mod_small. Qed.

Lemma i64_range z : - 2 ^ 63 <= i64 z < 2 ^ 63.
Proof. unfold i64. pose proof (Z.mod_pos_bound (z + 2 ^ 63) (2 ^ 64)). lia. Qed.

Lemma i64_id z : - 2 ^ 63 <= z < 2 ^ 63 -> i64 z = z.
Proof. intros H. unfold i64. rewrite Z.mod_small; lia. Qed.

Lemma i32_id z : - 2 ^ 31 <= z < 2 ^ 31 -> i32 z = z.
Proof. intros H. unfold i32. rewrite Z.mod_small; lia. Qed.

Lemma i32_range z : - 2 ^ 31 <= i32 z < 2 ^ 31.
Proof. unfold i32. pose proof (Z.mod_pos_bound (z + 2 ^ 31) (2 ^ 32)). lia. Qed.

(** Converting an [int] to [uint64] and back gives the [int]: this is what
    carries timeouts, allowances and chunk sizes over the wire. *)
Lemma i64_u64 z : - 2 ^ 63 <= z < 2 ^ 63 -> i64 (u64 z) = z.
Proof.
  intros H. unfold i64, u64.
  rewrite Zplus_mod_idemp_l, Z.mod_small; lia.
Qed.

Lemma u64_add_l a b : u64 (u64 a + b) = u64 (a + b).
Proof. apply Zplus_mod_idemp_l. Qed.

Lemma u64_add_r a b : u64 (a + u64 b) = u64 (a + b).
Proof. apply Zplus_mod_idemp_r. Qed.

(** ** Bytes and strings *)

(** A Go string is an immutable sequence of bytes, not of characters. *)
Abbreviation gostring := (list byte).

(** A [[]byte] value of the API, where [nil] is told from an empty slice. *)
Abbreviation slice := (option (list byte)).

Definition sbytes (s : slice) : list byte := default [] s.

Definition b2z (b : byte) : Z := Z.of_N (Byte.to_N b).

(** The conversion [byte(z)], which keeps the low eight bits. *)
Definition z2b (z : Z) : byte := default x00 (Byte.of_N (Z.to_N (z mod 256))).

Definition str (s : string) : gostring := list_byte_of_string s.

(** [len] of a string or slice, as an [int]. *)
Definition len {A} (l : list A) : Z := Z.of_nat (length l).

#[export] Instance byte_eq_dec : EqDecision byte := Byte.byte_eq_dec.

#[export] Instance byte_countable : Countable byte :=
  inj_countable Byte.to_N Byte.of_N Byte.of_to_N.

Lemma b2z_range b : 0 <= b2z b < 256.
Proof. unfold b2z. pose proof (Byte.to_N_bounded b). lia. Qed.

Lemma b2z_z2b z : b2z (z2b z) = z mod 256.
Proof.
  unfold b2z, z2b. pose proof (Z.mod_pos_bound z 256).
  destruct (Byte.of_N (Z.to_N (z mod 256))) as [b|] eqn:E; simpl.
  - apply Byte.to_of_N in E. lia.
  - apply Byte.of_N_None_iff in E. lia.
Qed.

Lemma b2z_z2b_small z : 0 <= z < 256 -> b2z (z2b z) = z.
Proof. intros. rewrite b2z_z2b. by apply Z.mod_small. Qed.

Lemma z2b_b2z b : z2b (b2z b) = b.
Proof. by destruct b. Qed.

Lemma b2z_inj a b : b2z a = b2z b -> a = b.
Proof. intros H. by rewrite <- (z2b_b2z a), H, z2b_b2z. Qed.

Lemma len_nil {A} : len (@nil A) = 0.
Proof. done. Qed.

Lemma len_cons {A} (x : A) l : len (x :: l) = 1 + len l.
Proof. unfold len. simpl length. lia. Qed.

Lemma len_app {A} (l k : list A) : len (l ++ k) = len l + len k.
Proof. unfold len. rewrite length_app. lia. Qed.

Lemma len_nonneg {A} (l : list A) : 0 <= len l.
Proof. unfold len. lia. Qed.

Lemma len_zero {A} (l : list A) : len l = 0 -> l = [].
Proof. destruct l; [done|]. rewrite len_cons. pose proof (len_nonneg l). lia. Qed.

(** How many elements of a list satisfy a test; how a point update changes it. *)
Fixpoint countb {A} (f : A -> bool) (l : list A) : Z :=
  match l with [] => 0 | x :: l => Z.b2z (f x) + countb f l end.

Lemma countb_nonneg {A} (f : A -> bool) l : 0 <= countb f l <= len l.
Proof. induction l as [|x l IH]; [done|]. simpl. rewrite len_cons. destruct (f x); simpl; lia. Qed.

Lemma countb_app {A} (f : A -> bool) l1 l2 : countb f (l1 ++ l2) = countb f l1 + countb f l2.
Proof. induction l1 as [|x l1 IH]; simpl; lia. Qed.

Lemma countb_insert {A} (f : A -> bool) (l : list A) i a b : l !! i = Some a ->
  countb f (<[i := b]> l) = countb f l - Z.b2z (f a) + Z.b2z (f b).
Proof.
  revert i. induction l as [|x l IH]; intros [|i] H; simplify_eq/=; [lia|].
  rewrite (IH i H). lia.
Qed.

Lemma countb_lookup {A} (f : A -> bool) (l : list A) i a :
  l !! i = Some a -> f a = true -> 1 <= countb f l.
Proof.
  revert i. induction l as [|x l IH]; intros [|i] H Hf; simplify_eq/=.
  - rewrite Hf. pose proof (countb_nonneg f l). simpl. lia.
  - specialize (IH i H Hf). destruct (f x); simpl; lia.
Qed.

Lemma countb_two {A} (f : A -> bool) (l : list A) i j a b :
  i <> j -> l !! i = Some a -> l !! j = Some b -> f a = true -> f b = true -> 2 <= countb f l.
Proof.
  revert i j. induction l as [|x l IH]; intros [|i] [|j] Hn Hi Hj Ha Hb; simplify_eq/=.
  - rewrite Ha. pose proof (countb_lookup f l j b Hj Hb). simpl. lia.
  - rewrite Hb. pose proof (countb_lookup f l i a Hi Ha). simpl. lia.
  - assert (2 <= countb f l) by (apply (IH i j); auto). destruct (f x); simpl; lia.
Qed.

Lemma countb_pos {A} (f : A -> bool) l : 0 < countb f l ->
  exists i a, l !! i = Some a /\ f a = true.
Proof.
  induction l as [|x l IH]; simpl; [lia|]. destruct (f x) eqn:E; intros H.
  - by exists 0%nat, x.
  - destruct IH as (i & a & ? & ?); [simpl in H; lia|]. by exists (S i), a.
Qed.

(** Sums of lists of integers. *)
Definition sumZ (l : list Z) : Z := foldr Z.add 0 l.

Lemma sumZ_app l k : sumZ (l ++ k) = sumZ l + sumZ k.
Proof. induction l as [|n l IH]; simpl; [done|]. unfold sumZ in *. simpl. lia. Qed.

Lemma sumZ_nonneg l : Forall (Z.le 0) l -> 0 <= sumZ l.
Proof. induction 1 as [|n l Hn _ IH]; [done|]. unfold sumZ in *. simpl. lia. Qed.

#[export] Instance sumZ_perm : Proper (Permutation ==> eq) sumZ.
Proof. intros l k Hp. unfold sumZ. induction Hp; simpl; lia. Qed.

(** The sum of a measure over a list, and how a point update changes it. *)
Definition zsum {A} (f : A -> Z) (l : list A) : Z := sumZ (map f l).

Lemma zsum_insert {A} (f : A -> Z) (l : list A) i a b : l !! i = Some a ->
  zsum f (<[i := b]> l) = zsum f l - f a + f b.
Proof.
  unfold zsum, sumZ. revert i.
  induction l as [|x l IH]; intros [|i] Hi; simplify_eq/=; [lia|]. rewrite (IH i Hi). lia.
Qed.

Lemma zsum_nonneg {A} (f : A -> Z) (l : list A) : (forall a, 0 <= f a) -> 0 <= zsum f l.
Proof. intros Hf. apply sumZ_nonneg, Forall_map, Forall_forall. intros a _. apply Hf. Qed.

(** ** Errors and outcomes *)

(** The argument of a formatted error message. *)
Inductive fmtarg := FBytes (s : gostring) | FNum (n : Z).

(** The values of Go's [error] interface the binding produces or forwards: the
    sentinels of [io] and of errors.go, the failure of the socket, messages
    made by [errors.New] and [fmt.Errorf] (the format and its argument, which
    the code never renders), the [RemoteError] wrapper, and an error of the
    user's own code with its message. *)
Inductive error :=
| EOF
| ErrUnexpectedEOF
| ErrSock
| ErrNetClosing
| ErrTimeout
| ErrClosed
| ErrorsNew (msg : string)
| Errorf (format : string) (arg : fmtarg)
| RemoteError (inner : gostring)
| UserError (msg : gostring).

#[export] Instance fmtarg_eq_dec : EqDecision fmtarg.
Proof. solve_decision. Defined.
#[export] Instance error_eq_dec : EqDecision error.
Proof. solve_decision. Defined.

(** What running a piece of code can come to: it returns, returns a non-nil
    error, panics, parks the goroutine on a lock or channel that cannot proceed
    in the present state, or has not finished within the fuel given. *)
Inductive outcome (A : Type) :=
| Ok (a : A)
| Err (e : error)
| Panic (why : string)
| Block
| Diverge.
Arguments Ok {A} a.
Arguments Err {A} e.
Arguments Panic {A} why.
Arguments Block {A}.
Arguments Diverge {A}.

(** Code over a state [S]: a function of the state to its outcome and the state
    it leaves. [mbind] is Go's [if err != nil { return err }]. *)
Definition M (S A : Type) : Type := S -> outcome A * S.

#[export] Instance M_ret S : MRet (M S) := λ A a s, (Ok a, s).
#[export] Instance M_bind S : MBind (M S) := λ A B k m s,
  match m s with
  | (Ok a, s') => k a s'
  | (Err e, s') => (Err e, s')
  | (Panic w, s') => (Panic w, s')
  | (Block, s') => (Block, s')
  | (Diverge, s') => (Diverge, s')
  end.

Definition fail {S A} (e : error) : M S A := λ s, (Err e, s).
Definition panic {S A} (why : string) : M S A := λ s, (Panic why, s).
Definition block {S A} : M S A := λ s, (Block, s).
Definition diverge {S A} : M S A := λ s, (Diverge, s).
Definition gets {S A} (f : S -> A) : M S A := λ s, (Ok (f s), s).
Definition modify {S} (f : S -> S) : M S unit := λ s, (Ok tt, f s).

#[global] Arguments fail {S A} e s /.
#[global] Arguments panic {S A} why s /.
#[global] Arguments block {S A} s /.
#[global] Arguments diverge {S A} s /.
#[global] Arguments gets {S A} f s /.
#[global] Arguments modify {S} f s /.

(** Run a computation whose error the code inspects instead of returning:
    [err := m()]. *)
Definition attempt {S A} (m : M S A) : M S (error + A) := λ s,
  match m s with
  | (Ok a, s') => (Ok (inr a), s')
  | (Err e, s') => (Ok (inl e), s')
  | (Panic w, s') => (Panic w, s')
  | (Block, s') => (Block, s')
  | (Diverge, s') => (Diverge, s')
  end.

Lemma bind_eq {S A B} (m : M S A) (k : A -> M S B) s :
  (x ← m; k x) s =
  match m s with
  | (Ok a, s') => k a s'
  | (Err e, s') => (Err e, s')
  | (Panic w, s') => (Panic w, s')
  | (Block, s') => (Block, s')
  | (Diverge, s') => (Diverge, s')
  end.
Proof. done. Qed.

Lemma ret_eq {S A} (a : A) (s : S) : mret (M := M S) a s = (Ok a, s).
Proof. done. Qed.

Lemma bind_Ok {S A B} (m : M S A) (k : A -> M S B) s a s' :
  m s = (Ok a, s') -> (x ← m; k x) s = k a s'.
Proof. intros H. by rewrite bind_eq, H. Qed.

Lemma bind_Err {S A B} (m : M S A) (k : A -> M S B) s e s' :
  m s = (Err e, s') -> (x ← m; k x) s = (Err e, s').
Proof. intros H. by rewrite bind_eq, H. Qed.

(** ** The Go runtime *)

(** The facts of the Go runtime the code depends on and the language leaves to
    the implementation: the largest byte slice [make] can allocate (a larger
    length panics), the capacity [append] chooses when it must reallocate (at
    least what is needed), and [runtime.NumCPU]. *)
Class GoRuntime := {
  maxAlloc : Z;
  growcap : Z -> Z -> Z;
  NumCPU : Z;
  maxAlloc_int : 0 <= maxAlloc < 2 ^ 63;
  growcap_enough : forall old need, need <= growcap old need;
  NumCPU_pos : 1 <= NumCPU < 2 ^ 20
}.

(** A concrete runtime, at which the theorems are evaluated. *)
Program Definition amd64 : GoRuntime := {|
  maxAlloc := 2 ^ 48;
  growcap old need := Z.max (2 * old) need;
  NumCPU := 4
|}.
Next Obligation. lia. Qed.
Next Obligation. intros old need. simpl. lia. Qed.
Next Obligation. lia. Qed.

(** ** Transition systems *)

Section transitions.
Context {A : Type} (step : A -> A -> Prop).

(** States reachable from [a], the last step at the end. *)
Inductive reach (a : A) : A -> Prop :=
| reach_refl : reach a a
| reach_step b c : reach a b -> step b c -> reach a c.

Lemma reach_trans a b c : reach a b -> reach b c -> reach a c.
Proof. intros Hab Hbc. induction Hbc; eauto using reach. Qed.

Lemma reach_one a b : step a b -> reach a b.
Proof. eauto using reach. Qed.

(** A property that holds at the start and that every step keeps holds at
    every reachable state. *)
Lemma reach_invariant (P : A -> Prop) a b :
  P a -> (forall x y, P x -> step x y -> P y) -> reach a b -> P b.
Proof. intros Ha Hstep Hr. induction Hr; eauto. Qed.
End transitions.

(** ** Automation *)

Create HintDb go.
Create Rewrite HintDb go.
#[export] Hint Resolve u64_range b2z_range len_nonneg : go.
#[export] Hint Rewrite @len_nil @len_cons @len_app : go.

(** Case analysis on the first undecided test of the goal or a hypothesis. *)
Ltac case_test :=
  match goal with
  | |- context [if Z.leb ?a ?b then _ else _] => destruct (Z.leb_spec a b)
  | |- context [if Z.ltb ?a ?b then _ else _] => destruct (Z.ltb_spec a b)
  | |- context [if Z.eqb ?a ?b then _ else _] => destruct (Z.eqb_spec a b)
  | H : context [if Z.leb ?a ?b then _ else _] |- _ => destruct (Z.leb_spec a b)
  | H : context [if Z.ltb ?a ?b then _ else _] |- _ => destruct (Z.ltb_spec a b)
  | H : context [if Z.eqb ?a ?b then _ else _] |- _ => destruct (Z.eqb_spec a b)
  end.

(** Run the head of a computation as far as it goes. *)
Ltac run := cbn; repeat ((rewrite bind_eq || rewrite ret_eq); cbn).

(** Split conjunctions only. *)
Ltac splits := repeat match goal with |- _ /\ _ => split end.

(** Linear arithmetic over [len]. *)
Ltac len_lia := autorewrite with go in *; unfold len in *; lia.
