(* ===== verification/Threads.v ===== *)
(** * Goroutines as programs over a shared state

    Code that several goroutines run on one state is a [prog]: a tree of atomic
    stretches, of points where it lets go of the state, and of [select]s. A
    program is run in two ways: [play] runs it alone against a script of what
    the others do whenever it lets go, [resume] is one step of it among other
    goroutines, and the two agree. [safe] is a rely-guarantee condition that makes
    a program keep an invariant under every interleaving. *)

From Stdlib Require Import ZArith Lia Strings.String.
From stdpp Require Import base list relations.
From S2P Require Import Prelude.

(** ** Programs *)

Section prog.
Context {S W : Type}.

(** [Act m k]: run [m] without interruption and go on with [k]; [Yield k]: let the
    others run, then go on with [k]; [Select alt k]: park until some case [w] is
    ready, that is, until [alt w] does not block, and take it. *)
Inductive prog (A : Type) : Type :=
| Ret (o : outcome A)
| Act {B : Type} (m : M S B) (k : outcome B -> prog A)
| Yield (k : prog A)
| Select {B : Type} (alt : W -> M S B) (k : outcome B -> prog A).
Arguments Ret {A} o.
Arguments Act {A B} m k.
Arguments Yield {A} k.
Arguments Select {A B} alt k.

(** What is left to do after an outcome. *)
Definition oseq {A B} (f : A -> prog B) (o : outcome A) : prog B :=
  match o with
  | Ok a => f a
  | Err e => Ret (Err e)
  | Panic y => Ret (Panic y)
  | Block => Ret Block
  | Diverge => Ret Diverge
  end.

Fixpoint pbind {A B} (f : A -> prog B) (p : prog A) : prog B :=
  match p with
  | Ret o => oseq f o
  | Act m k => Act m (λ o, pbind f (k o))
  | Yield k => Yield (pbind f k)
  | Select alt k => Select alt (λ o, pbind f (k o))
  end.

#[global] Instance prog_ret : MRet prog := λ A a, Ret (Ok a).
#[global] Instance prog_bind : MBind prog := λ A B f p, pbind f p.

(** An error as a value: Go code that looks at it instead of returning it. *)
Definition caught {A} (o : outcome A) : outcome (error + A) :=
  match o with
  | Ok a => Ok (inr a)
  | Err e => Ok (inl e)
  | Panic y => Panic y
  | Block => Block
  | Diverge => Diverge
  end.

Fixpoint catch {A} (p : prog A) : prog (error + A) :=
  match p with
  | Ret o => Ret (caught o)
  | Act m k => Act m (λ o, catch (k o))
  | Yield k => Yield (catch k)
  | Select alt k => Select alt (λ o, catch (k o))
  end.

Definition atomic {A} (m : M S A) : prog A := Act m Ret.
Definition yield : prog unit := Yield (Ret (Ok tt)).
Definition select {A} (alt : W -> M S A) : prog A := Select alt Ret.
Definition raise {A} (e : error) : prog A := Ret (Err e).
Definition crash {A} (why : string) : prog A := Ret (Panic why).

(** ** Against a script *)

(** A state, and what the others are going to do: each entry a change of the
    state while the program has let go of it, and the case of its [select] that is
    taken then. *)
Record script := CS { cs_conn : S; cs_env : list ((S -> S) * W) }.

(** With the script used up the others do nothing more: a [Yield] goes on, a
    [Select] stays parked. *)
Fixpoint play {A} (p : prog A) (s : script) : outcome A * script :=
  match p with
  | Ret o => (o, s)
  | Act m k =>
      let '(o, c) := m (cs_conn s) in
      match o with Block => (Block, CS c (cs_env s)) | _ => play (k o) (CS c (cs_env s)) end
  | Yield k =>
      match cs_env s with
      | [] => play k s
      | (f, _) :: env => play k (CS (f (cs_conn s)) env)
      end
  | Select alt k =>
      match cs_env s with
      | [] => (Block, s)
      | (f, w) :: env =>
          let '(o, c) := alt w (f (cs_conn s)) in
          match o with Block => (Block, CS c env) | _ => play (k o) (CS c env) end
      end
  end.

(** ** Among others *)

(** Run up to the next point where the program lets go or parks. *)
Fixpoint run_on {A} (p : prog A) (s : S) : prog A * S :=
  match p with
  | Act m k => let '(o, s') := m s in
      match o with Block => (p, s') | _ => run_on (k o) s' end
  | _ => (p, s)
  end.

(** A goroutine that has let go or parked goes on. *)
Definition resume {A} (p : prog A) (s : S) (q : prog A * S) : Prop :=
  match p with
  | Yield k => q = run_on k s
  | Select alt k => exists w, fst (alt w s) <> Block /\ q = run_on (k (fst (alt w s))) (snd (alt w s))
  | _ => False
  end.

(** A run of one goroutine among others: it starts at the state [s], goes on at
    the states [l], which the others have left for it, and returns [o] at [s']. *)
Inductive interleaved {A} : prog A * S -> list S -> outcome A -> S -> Prop :=
| il_done o s : interleaved (Ret o, s) [] o s
| il_resume p s s1 q l o s' : resume p s1 q -> interleaved q l o s' ->
    interleaved (p, s) (s1 :: l) o s'.
End prog.

Arguments prog : clear implicits.
Arguments script : clear implicits.
Arguments CS {S W} cs_conn cs_env.
Arguments Ret {S W A} o.
Arguments Act {S W A B} m k.
Arguments Yield {S W A} k.
Arguments Select {S W A B} alt k.
#[global] Arguments play {S W A} !p s /.
#[global] Arguments run_on {S W A} !p s /.

(** A program over a part of a larger state: its stretches by [run], its cases by
    those of the larger program that stand for one. *)
Section hoist.
Context {S W S' W' : Type} (run : forall B, M S B -> M S' B) (case : W' -> option W).

Fixpoint hoist {A} (p : prog S W A) : prog S' W' A :=
  match p with
  | Ret o => Ret o
  | Act m k => Act (run _ m) (λ o, hoist (k o))
  | Yield k => Yield (hoist k)
  | Select alt k =>
      Select (λ w, match case w with Some w => run _ (alt w) | None => block end) (λ o, hoist (k o))
  end.
End hoist.

(** ** Playing a script, a construct at a time *)

Section playing.
Context {S W : Type}.

Lemma play_bind {A B} (p : prog S W A) (f : A -> prog S W B) s :
  play (x ← p; f x) s =
  match play p s with
  | (Ok a, s') => play (f a) s'
  | (Err e, s') => (Err e, s')
  | (Panic y, s') => (Panic y, s')
  | (Block, s') => (Block, s')
  | (Diverge, s') => (Diverge, s')
  end.
Proof.
  change (x ← p; f x) with (pbind f p).
  revert s. induction p as [o|C m k IH|k IH|C alt k IH]; intros s.
  - by destruct o.
  - cbn. destruct (m (cs_conn s)) as [o c]. destruct o; try done; apply IH.
  - cbn. destruct (cs_env s) as [|[g w] env]; apply IH.
  - cbn. destruct (cs_env s) as [|[g w] env]; [done|].
    destruct (alt w (g (cs_conn s))) as [o c]. destruct o; try done; apply IH.
Qed.

Lemma play_catch {A} (p : prog S W A) s : play (catch p) s = (caught (fst (play p s)), snd (play p s)).
Proof.
  revert s. induction p as [o|C m k IH|k IH|C alt k IH]; intros s.
  - done.
  - cbn. destruct (m (cs_conn s)) as [o c]. destruct o; try done; apply IH.
  - cbn. destruct (cs_env s) as [|[g w] env]; apply IH.
  - cbn. destruct (cs_env s) as [|[g w] env]; [done|].
    destruct (alt w (g (cs_conn s))) as [o c]. destruct o; try done; apply IH.
Qed.

Lemma play_ret {A} (a : A) (s : script S W) : play (mret (M := prog S W) a) s = (Ok a, s).
Proof. done. Qed.

Lemma play_raise {A} e (s : script S W) : play (raise (A := A) e) s = (Err e, s).
Proof. done. Qed.

Lemma play_atomic {A} (m : M S A) (c : S) (env : list ((S -> S) * W)) :
  play (atomic m) (CS c env) = (fst (m c), CS (snd (m c)) env).
Proof. cbn. by destruct (m c) as [[]]. Qed.

Lemma play_yield (c : S) f (w : W) env : play yield (CS c ((f, w) :: env)) = (Ok tt, CS (f c) env).
Proof. done. Qed.

Lemma play_yield_nil (c : S) : play (yield (W := W)) (CS c []) = (Ok tt, CS c []).
Proof. done. Qed.

Lemma play_select {A} (alt : W -> M S A) (c : S) f w env :
  play (select alt) (CS c ((f, w) :: env)) = (fst (alt w (f c)), CS (snd (alt w (f c))) env).
Proof. cbn. by destruct (alt w (f c)) as [[]]. Qed.

(** The head of a program, and what is left of it. *)
Lemma play_do {A B} (m : M S A) (f : A -> prog S W B) c a c' (env : list ((S -> S) * W)) :
  m c = (Ok a, c') -> play (x ← atomic m; f x) (CS c env) = play (f a) (CS c' env).
Proof. intros E. by rewrite play_bind, play_atomic, E. Qed.

Lemma play_do_err {A B} (m : M S A) (f : A -> prog S W B) c e c' (env : list ((S -> S) * W)) :
  m c = (Err e, c') -> play (x ← atomic m; f x) (CS c env) = (Err e, CS c' env).
Proof. intros E. by rewrite play_bind, play_atomic, E. Qed.

Lemma run_on_do {A B} (m : M S A) (f : A -> prog S W B) c a c' :
  m c = (Ok a, c') -> run_on (x ← atomic m; f x) c = run_on (f a) c'.
Proof. intros E. cbn. by rewrite E. Qed.

Lemma run_on_atomic {A} (m : M S A) c : fst (m c) <> Block ->
  run_on (atomic (W := W) m) c = (Ret (fst (m c)), snd (m c)).
Proof. cbn. destruct (m c) as [o c']. by destruct o. Qed.

Lemma run_on_go {A} (p : prog S W A) c : run_on (yield;; p) c = (yield;; p, c).
Proof. done. Qed.

Lemma resume_go {A} (p : prog S W A) c q : run_on p c = q -> resume (yield;; p) c q.
Proof. by intros <-. Qed.

Lemma play_go {A} (p : prog S W A) (c : S) f (w : W) env :
  play (yield;; p) (CS c ((f, w) :: env)) = play p (CS (f c) env).
Proof. by rewrite play_bind, play_yield. Qed.
End playing.

#[global] Arguments pbind : simpl never.
#[global] Arguments catch : simpl never.
#[global] Arguments atomic : simpl never.
#[global] Arguments yield : simpl never.
#[global] Arguments select : simpl never.

(** ** A script is an interleaving *)

Section scripts.
Context {S W : Type}.
Implicit Types env : list ((S -> S) * W).

(** A [prog] whose stretches do not park on a lock: the stops of a run of it are
    where it lets go or waits. *)
Lemma play_interleaved {A} (p : prog S W A) s env o s' env' :
  play p (CS s env) = (o, CS s' env') -> o <> Block ->
  exists l, interleaved (run_on p s) l o s'.
Proof.
  intros Hp Ho. revert s env Hp. induction p as [r|C m k IH|k IH|C alt k IH]; intros s env; cbn.
  - intros [= -> -> ->]. exists []. constructor.
  - destruct (m s) as [r c]. destruct r; try (by intros Hp; eapply IH). by intros [= <- _ _].
  - destruct env as [|[g w] env]; intros Hp.
    + destruct (IH s [] Hp) as [l Hl]. exists (s :: l). by econstructor.
    + destruct (IH (g s) env Hp) as [l Hl]. exists (g s :: l). by econstructor.
  - destruct env as [|[g w] env]; [by intros [= <- _ _]|].
    destruct (alt w (g s)) as [r c] eqn:E. intros Hp.
    assert (r <> Block /\ play (k r) (CS c env) = (o, CS s' env')) as [Hr Hk]
      by (destruct r; [..|by simplify_eq|]; done).
    destruct (IH r c env Hk) as [l Hl].
    exists (g s :: l). econstructor; [|exact Hl]. exists w. by rewrite E.
Qed.

(** Running up to the next stop does not change what a script leads to. *)
Definition at_rest {A} (p : prog S W A) : Prop := match p with Act _ _ => False | _ => True end.

Lemma play_run_on {A} (p : prog S W A) s env : at_rest (fst (run_on p s)) ->
  play p (CS s env) = play (fst (run_on p s)) (CS (snd (run_on p s)) env).
Proof.
  revert s. induction p as [r|C m k IH|k IH|C alt k IH]; intros s; cbn; try done.
  destruct (m s) as [r c]. destruct r; try done; apply IH.
Qed.

(** A single stretch that has been run is over. *)
Lemma run_on_single {A} (m : M S A) s q s' : run_on (atomic (W := W) m) s = (q, s') -> at_rest q -> exists o, q = Ret o.
Proof. unfold atomic. simpl. destruct (m s) as [o s1]. destruct o; intros E Hq; simplify_eq/=; eauto; done. Qed.

(** One step of a goroutine is one entry of a script. *)
Lemma play_resume `{Inhabited W} {A} (p p' : prog S W A) s s' : resume p s (p', s') -> at_rest p' ->
  exists w, forall c env, play p (CS c (((λ _, s), w) :: env)) = play p' (CS s' env).
Proof.
  intros Hr Hp. destruct p as [o|C m k|k|C alt k]; try done; simpl in Hr.
  - exists inhabitant. intros c env. simpl. rewrite play_run_on; by rewrite <- Hr.
  - destruct Hr as (w & Hb & Hr). exists w. intros c env. simpl. destruct (alt w s) as [o s1].
    simpl in Hb, Hr. transitivity (play (k o) (CS s1 env)); [by destruct o|].
    rewrite play_run_on; by rewrite <- Hr.
Qed.

Lemma interleaved_play `{Inhabited W} {A} (p : prog S W A) s l o s' : interleaved (run_on p s) l o s' ->
  exists env, play p (CS s env) = (o, CS s' []) /\ length env = length l.
Proof.
  revert s l. induction p as [r|C m k IH|k IH|C alt k IH]; intros s l; cbn.
  - intros Hi. inversion Hi as [|? ? ? ? ? ? ? Hr]; subst; [by exists []|done].
  - destruct (m s) as [r c]. destruct r; try (intros Hi; by apply IH).
    intros Hi. inversion Hi as [|? ? ? ? ? ? ? Hr]; subst. done.
  - intros Hi. inversion Hi as [|? ? s1 q l' ? ? Hr Hi']; subst. simpl in Hr. subst q.
    destruct (IH s1 l' Hi') as (env & He & Hl).
    exists (((λ _, s1), inhabitant) :: env). split; [exact He|]. simpl. by rewrite Hl.
  - intros Hi. inversion Hi as [|? ? s1 q l' ? ? Hr Hi']; subst. destruct Hr as (w & Hb & ->).
    destruct (IH _ _ l' Hi') as (env & He & Hl).
    exists (((λ _, s1), w) :: env). simpl. rewrite Hl. split; [|done].
    destruct (alt w s1) as [[]]; done.
Qed.
End scripts.

(** ** Rely and guarantee *)

Section safe.
Context {S W : Type}.
Context (Inv : S -> Prop) (R G : S -> S -> Prop) (released : S -> Prop) (frees : Prop).

(** From [s] on, whatever the others do within [R] between the stretches of [p],
    every stretch keeps the invariant, stays within [G] and does not park; [p]
    ends with an outcome that [Q] accepts; and, if [frees], once the state is
    [released] some case of each [select] is ready. *)
Fixpoint safe {A} (Q : outcome A -> S -> Prop) (p : prog S W A) (s : S) : Prop :=
  match p with
  | Ret o => Q o s
  | Act m k => let '(o, s') := m s in
      o <> Block /\ G s s' /\ Inv s' /\ safe Q (k o) s'
  | Yield k => forall s1, R s s1 -> Inv s1 -> safe Q k s1
  | Select alt k => forall s1, R s s1 -> Inv s1 ->
      (forall w, let '(o, s') := alt w s1 in o <> Block -> G s1 s' /\ Inv s' /\ safe Q (k o) s') /\
      (frees -> released s1 -> exists w, fst (alt w s1) <> Block)
  end.

Lemma safe_mono {A} (Q Q' : outcome A -> S -> Prop) p s :
  (forall o s', Q o s' -> Q' o s') -> safe Q p s -> safe Q' p s.
Proof.
  intros HQ. revert s. induction p as [o|C m k IH|k IH|C alt k IH]; intros s; simpl; [auto| | |].
  - destruct (m s) as [o s']. intros (? & ? & ? & ?). auto.
  - intros Hs s1 Hr Hi. auto.
  - intros Hs s1 Hr Hi. destruct (Hs s1 Hr Hi) as [Ha Hf]. split; [|done].
    intros w. specialize (Ha w). destruct (alt w s1) as [o s']. intros Ho.
    destruct (Ha Ho) as (? & ? & ?). auto.
Qed.

(** What [f] is safe after. *)
Definition after {A B} (Q : outcome B -> S -> Prop) (f : A -> prog S W B) (o : outcome A) (s : S) : Prop :=
  safe Q (oseq f o) s.

Lemma safe_bind {A B} (Q : outcome B -> S -> Prop) (f : A -> prog S W B) p s :
  safe (after Q f) p s -> safe Q (x ← p; f x) s.
Proof.
  change (x ← p; f x) with (pbind f p).
  revert s. induction p as [o|C m k IH|k IH|C alt k IH]; intros s; simpl; [done| | |].
  - destruct (m s) as [o s']. intros (? & ? & ? & ?). auto.
  - intros Hs s1 Hr Hi. by apply IH, Hs.
  - intros Hs s1 Hr Hi. destruct (Hs s1 Hr Hi) as [Ha Hf]. split; [|done].
    intros w. specialize (Ha w). destruct (alt w s1) as [o s']. intros Ho.
    destruct (Ha Ho) as (? & ? & ?). auto.
Qed.

Lemma safe_catch {A} (Q : outcome (error + A) -> S -> Prop) p s :
  safe (λ o, Q (caught o)) p s -> safe Q (catch p) s.
Proof.
  revert s. induction p as [o|C m k IH|k IH|C alt k IH]; intros s; simpl; [done| | |].
  - destruct (m s) as [o s']. intros (? & ? & ? & ?). auto.
  - intros Hs s1 Hr Hi. by apply IH, Hs.
  - intros Hs s1 Hr Hi. destruct (Hs s1 Hr Hi) as [Ha Hf]. split; [|done].
    intros w. specialize (Ha w). destruct (alt w s1) as [o s']. intros Ho.
    destruct (Ha Ho) as (? & ? & ?). auto.
Qed.

(** Where it has let go, a safe program stays safe while the others run. *)
Lemma safe_rely `{!Transitive R} {A} (Q : outcome A -> Prop) (p : prog S W A) s s' :
  at_rest p -> R s s' -> safe (λ o _, Q o) p s -> safe (λ o _, Q o) p s'.
Proof.
  intros Hp Hr Hs. destruct p; try done; simpl in *; intros s1 Hr1 Hi1; apply Hs; [by etrans|done..|by etrans|done].
Qed.

Lemma safe_run `{!PreOrder G} {A} (Q : outcome A -> S -> Prop) (p : prog S W A) s :
  Inv s -> safe Q p s ->
  let '(p', s') := run_on p s in at_rest p' /\ Inv s' /\ G s s' /\ safe Q p' s'.
Proof.
  revert s. induction p as [o|C m k IH|k IH|C alt k IH]; intros s Hi Hs; [by split_and!|..].
  - simpl in *. destruct (m s) as [o s']. destruct Hs as (Ho & Hg & Hi' & Hs).
    specialize (IH o s' Hi' Hs). destruct (run_on (k o) s') as [p' s2] eqn:E.
    destruct IH as (? & ? & ? & ?). destruct o; try done; split_and!; try done; by etrans.
  - by split_and!.
  - by split_and!.
Qed.

(** A step of a safe program. *)
Lemma safe_resume `{!PreOrder G, !Reflexive R} {A} (Q : outcome A -> S -> Prop) (p : prog S W A) s p' s' :
  Inv s -> safe Q p s -> resume p s (p', s') ->
  at_rest p' /\ Inv s' /\ G s s' /\ safe Q p' s'.
Proof.
  intros Hi Hs Hr. destruct p as [o|C m k|k|C alt k]; try done; simpl in Hr, Hs.
  - pose proof (safe_run Q k s Hi (Hs s ltac:(done) Hi)) as H. by rewrite <- Hr in H.
  - destruct Hr as (w & Hb & Hr). destruct (Hs s ltac:(done) Hi) as [Ha _]. specialize (Ha w).
    destruct (alt w s) as [o s1]. destruct (Ha Hb) as (Hg & Hi1 & Hs1).
    pose proof (safe_run Q (k o) s1 Hi1 Hs1) as H. simpl in Hr. rewrite <- Hr in H.
    destruct H as (? & ? & ? & ?). split_and!; try done. by etrans.
Qed.

(** A goroutine left to run by the others. *)
Definition alone {A} (x y : prog S W A * S) : Prop := resume (fst x) (snd x) y.

(** Once released, a safe program that [frees] returns when it is left to run. *)
Lemma safe_returns `{!PreOrder G, !Reflexive R} {A} (Q : outcome A -> S -> Prop) (p : prog S W A) s :
  frees -> (forall s s', G s s' -> released s -> released s') -> Inv s -> released s -> safe Q p s ->
  exists o s', rtc alone (run_on p s) (Ret o, s') /\ Inv s' /\ G s s' /\ Q o s'.
Proof.
  intros Hf Hrel. revert s. induction p as [o|C m k IH|k IH|C alt k IH]; intros s Hi Hr Hs.
  - exists o, s. by split_and!.
  - simpl in *. destruct (m s) as [o s']. destruct Hs as (Ho & Hg & Hi' & Hs).
    destruct (IH o s' Hi' (Hrel _ _ Hg Hr) Hs) as (o2 & s2 & Hl & ? & ? & ?).
    exists o2, s2. split_and!; try done; [by destruct o|by etrans].
  - destruct (IH s Hi Hr (Hs s ltac:(done) Hi)) as (o2 & s2 & Hl & ? & ? & ?).
    exists o2, s2. split_and!; try done. by eapply rtc_l.
  - destruct (Hs s ltac:(done) Hi) as [Ha Hw]. destruct (Hw Hf Hr) as [w Hb]. specialize (Ha w).
    destruct (alt w s) as [o s1] eqn:E. simpl in Hb. destruct (Ha Hb) as (Hg & Hi1 & Hs1).
    destruct (IH o s1 Hi1 (Hrel _ _ Hg Hr) Hs1) as (o2 & s2 & Hl & ? & ? & ?).
    exists o2, s2. split_and!; try done; [|by etrans].
    eapply rtc_l; [|exact Hl]. unfold alone. simpl. exists w. by rewrite E.
Qed.

(** *** Safety of a program, from that of its parts *)

Definition returns {A} (o : outcome A) : Prop :=
  match o with Ok _ | Err _ => True | _ => False end.

(** Facts the others cannot take away. *)
Definition stable (F : S -> Prop) : Prop := forall s s', R s s' \/ G s s' -> F s -> F s'.

(** A stretch that, wherever [F] holds, returns, keeps the invariant and stays
    within [G]. *)
Definition stretch {A} (F : S -> Prop) (m : M S A) : Prop := forall s, Inv s -> F s ->
  returns (fst (m s)) /\ Inv (snd (m s)) /\ G s (snd (m s)).

(** Safe wherever [F] holds, and in the end it returns. *)
Definition safely {A} (F : S -> Prop) (p : prog S W A) : Prop := forall s, Inv s -> F s ->
  safe (λ o _, returns o) p s.

Lemma safely_weaken {A} (F F' : S -> Prop) (p : prog S W A) :
  (forall s, F' s -> F s) -> safely F p -> safely F' p.
Proof. intros HF Hp s Hi Hs. apply Hp; auto. Qed.

Lemma safely_ret {A} F (a : A) : safely F (mret a).
Proof. by intros s _. Qed.

Lemma safely_raise {A} F e : safely F (raise (A := A) e).
Proof. by intros s _. Qed.

Lemma safely_yield F : safely F yield.
Proof. by intros s Hi _ s1 Hr Hi1. Qed.

Lemma safely_atomic {A} F (m : M S A) : stretch F m -> safely F (atomic m).
Proof.
  intros Hm s Hi HF. simpl. destruct (Hm s Hi HF) as (Hr & Hi' & Hg). destruct (m s) as [o s'].
  split_and!; try done. by destruct o.
Qed.

(** What a stretch finds out is known from then on. *)
Lemma safely_do {A B} F (F' : A -> S -> Prop) (m : M S A) (f : A -> prog S W B) :
  stretch F m -> (forall s a, Inv s -> F s -> fst (m s) = Ok a -> F' a (snd (m s))) ->
  (forall a, safely (F' a) (f a)) -> safely F (x ← atomic m; f x).
Proof.
  intros Hm Hpost Hf s Hi HF. apply safe_bind. simpl. specialize (Hpost s).
  destruct (Hm s Hi HF) as (Hr & Hi' & Hg). destruct (m s) as [o s'].
  split_and!; try done; [by destruct o|]. unfold after. destruct o as [a|e|?| |]; try done.
  apply Hf; auto.
Qed.

Lemma safe_after {A B} F (f : A -> prog S W B) p s : stable F -> (forall a, safely F (f a)) ->
  Inv s -> F s -> safe (λ o _, returns o) p s -> safe (after (λ o _, returns o) f) p s.
Proof.
  intros HF Hf. revert s. induction p as [o|C m k IH|k IH|C alt k IH]; intros s Hi Hs; simpl.
  - unfold after. destruct o; try done. intros _. by apply Hf.
  - destruct (m s) as [o s']. intros (? & ? & ? & ?). split_and!; try done. apply IH; eauto.
  - intros Hk s1 Hr Hi1. apply IH; eauto.
  - intros Hk s1 Hr Hi1. destruct (Hk s1 Hr Hi1) as [Ha Hw]. split; [|done].
    intros w. specialize (Ha w). destruct (alt w s1) as [o s']. intros Ho.
    destruct (Ha Ho) as (? & ? & ?). split_and!; try done. apply IH; try done.
    eapply HF; [by right|]. eapply HF; [by left|]. done.
Qed.

Lemma safely_bind {A B} F (p : prog S W A) (f : A -> prog S W B) :
  stable F -> safely F p -> (forall a, safely F (f a)) -> safely F (x ← p; f x).
Proof. intros HF Hp Hf s Hi Hs. apply safe_bind. eapply safe_after; eauto. Qed.

Lemma safely_catch {A} F (p : prog S W A) : safely F p -> safely F (catch p).
Proof.
  intros Hp s Hi Hs. apply safe_catch. eapply safe_mono; [|by apply Hp]. by intros [] s'.
Qed.

(** What holds before the others run and they keep holds after. *)
Lemma safely_go {A} (F : S -> Prop) (p : prog S W A) : (forall s s', R s s' -> F s -> F s') ->
  safely F p -> safely F (yield;; p).
Proof. intros HF Hp s Hi Hs s1 Hr Hi1. apply Hp; eauto. Qed.

(** Each case of a [select] that is ready returns; once released one is. *)
Lemma safely_select {A} F (alt : W -> M S A) : stable F ->
  (forall w s, Inv s -> F s -> fst (alt w s) <> Block ->
     returns (fst (alt w s)) /\ Inv (snd (alt w s)) /\ G s (snd (alt w s))) ->
  (frees -> forall s, Inv s -> F s -> released s -> exists w, fst (alt w s) <> Block) ->
  safely F (select alt).
Proof.
  intros HF Ha Hf s _ Hs s1 Hr Hi. assert (F s1) as Hs1 by eauto. split; [|by intros; apply Hf].
  intros w. specialize (Ha w s1 Hi Hs1). destruct (alt w s1) as [o s']. simpl in Ha. intros Ho.
  by destruct (Ha Ho) as (? & ? & ?).
Qed.

Lemma stable_True : stable (λ _, True).
Proof. by intros s s'. Qed.

Lemma stretch_weaken {A} (F : S -> Prop) (m : M S A) : stretch (λ _, True) m -> stretch F m.
Proof. intros Hm s Hi _. by apply Hm. Qed.
End safe.

(** ** What a program can do at most *)

Section always.
Context {S W : Type} (T : S -> S -> Prop).

(** Every stretch of the program stays within [T], whatever state it finds and
    whatever the stretches before it came to. *)
Fixpoint always {A} (p : prog S W A) : Prop :=
  match p with
  | Ret _ => True
  | Act m k => (forall s, T s (snd (m s))) /\ forall o, always (k o)
  | Yield k => always k
  | Select alt k => (forall w s, T s (snd (alt w s))) /\ forall o, always (k o)
  end.

Lemma always_bind {A B} (p : prog S W A) (f : A -> prog S W B) :
  always p -> (forall a, always (f a)) -> always (x ← p; f x).
Proof.
  change (x ← p; f x) with (pbind f p). intros Hp Hf.
  induction p as [o|C m k IH|k IH|C alt k IH]; simpl in *; [|destruct Hp; auto|auto|destruct Hp; auto].
  destruct o; try done. apply Hf.
Qed.

Lemma always_catch {A} (p : prog S W A) : always p -> always (catch p).
Proof. induction p as [o|C m k IH|k IH|C alt k IH]; simpl; [done|intros []; auto|auto|intros []; auto]. Qed.

Lemma always_atomic {A} (m : M S A) : (forall s, T s (snd (m s))) -> always (atomic m).
Proof. done. Qed.

Lemma always_select {A} (alt : W -> M S A) : (forall w s, T s (snd (alt w s))) -> always (select alt).
Proof. done. Qed.

Lemma always_run_on `{!PreOrder T} {A} (p : prog S W A) s : always p ->
  T s (snd (run_on p s)) /\ always (fst (run_on p s)).
Proof.
  revert s. induction p as [o|C m k IH|k IH|C alt k IH]; intros s; simpl; try done.
  intros [Hm Hk]. pose proof (Hm s) as Hs. destruct (m s) as [o s']. simpl in Hs.
  destruct (IH o s' (Hk o)) as [? ?]. destruct o; try done; (split; [by etrans|done]).
Qed.

Lemma always_resume `{!PreOrder T} {A} (p p' : prog S W A) s s' : always p -> resume p s (p', s') ->
  T s s' /\ always p'.
Proof.
  intros Hp Hr. destruct p as [o|C m k|k|C alt k]; try done; simpl in Hp, Hr.
  - pose proof (always_run_on k s Hp) as H. by rewrite <- Hr in H.
  - destruct Hp as [Hm Hk]. destruct Hr as (w & _ & Hr).
    destruct (always_run_on (k (fst (alt w s))) (snd (alt w s)) (Hk _)) as [Ht Ha].
    rewrite <- Hr in Ht, Ha. split; [|done]. etrans; [apply Hm|exact Ht].
Qed.

End always.

Lemma always_mono {S W A} (T T' : S -> S -> Prop) (p : prog S W A) :
  (forall s s', T s s' -> T' s s') -> always T p -> always T' p.
Proof. intros HT. induction p as [o|C m k IH|k IH|C alt k IH]; simpl; [done|intros []; auto|auto|intros []; auto]. Qed.

(** Every way through the program ends with an outcome in [fin]. *)
Fixpoint ends {S W A} (fin : outcome A -> Prop) (p : prog S W A) : Prop :=
  match p with
  | Ret o => fin o
  | Act m k => forall o, ends fin (k o)
  | Yield k => ends fin k
  | Select alt k => forall o, ends fin (k o)
  end.

Section ends.
Context {S W : Type}.

Lemma ends_bind {A B} (fin : outcome B -> Prop) (p : prog S W A) (f : A -> prog S W B) :
  (forall a, ends fin (f a)) -> (forall o : outcome A, (forall a, o <> Ok a) -> ends fin (oseq f o)) ->
  ends fin (x ← p; f x).
Proof.
  change (x ← p; f x) with (pbind f p). intros Hf Ho.
  induction p as [o|C m k IH|k IH|C alt k IH]; simpl in *; [|auto|auto|auto].
  destruct o as [a|e|?| |]; [apply Hf|by apply Ho..].
Qed.

Lemma ends_run_on {A} (fin : outcome A -> Prop) (p : prog S W A) s : ends fin p -> ends fin (fst (run_on p s)).
Proof.
  revert s. induction p as [o|C m k IH|k IH|C alt k IH]; intros s Hp; simpl in *; try done.
  destruct (m s) as [o s']. destruct o; try done; by apply IH.
Qed.

Lemma ends_resume {A} (fin : outcome A -> Prop) (p p' : prog S W A) s s' : ends fin p -> resume p s (p', s') -> ends fin p'.
Proof.
  intros Hp Hr. destruct p as [o|C m k|k|C alt k]; try done; simpl in Hp, Hr.
  - pose proof (ends_run_on fin k s Hp) as H. by rewrite <- Hr in H.
  - destruct Hr as (w & _ & Hr). pose proof (ends_run_on fin _ (snd (alt w s)) (Hp (fst (alt w s)))) as H. by rewrite <- Hr in H.
Qed.
End ends.
