(* ===== verification/Bufio.v ===== *)
(** * The socket and Go's [bufio.ReadWriter]

    The standard library the wire protocol runs on: the TCP socket as the bytes
    it has accepted and the bytes it will deliver, [bufio.Writer] with its 4096
    byte buffer and its sticky error, [bufio.Reader] with [io.ReadFull]. The
    abstract promise of the writer is a byte stream: [emits m bs] says that [m]
    appends exactly [bs] to it or fails for good. *)

From Stdlib Require Import ZArith Lia Strings.Byte Strings.String.
From stdpp Require Import base gmap strings list.
From S2P Require Import Prelude.

Open Scope Z_scope.

(** ** The writing side *)

(** A socket: what it has accepted, how many more bytes it accepts before the
    link breaks ([None] is a link that never does), and whether this side has
    closed it. *)
Record socket := Socket {
  sk_sent : list byte;
  sk_room : option nat;
  sk_closed : bool
}.

(** [net.Conn.Write]: everything, or a part and an error. *)
Definition sock_write (p : list byte) (sk : socket) : nat * option error * socket :=
  if sk_closed sk then (0%nat, Some ErrNetClosing, sk)
  else match sk_room sk with
  | None => (length p, None, Socket (sk_sent sk ++ p) None false)
  | Some r =>
      if decide (length p <= r)%nat
      then (length p, None, Socket (sk_sent sk ++ p) (Some (r - length p)%nat) false)
      else (r, Some ErrSock, Socket (sk_sent sk ++ take r p) (Some 0%nat) false)
  end.

(** [bufio.Writer]. *)
Record writer := Writer {
  w_sock : socket;
  w_buf : list byte;
  w_err : option error
}.

Definition bufSize : nat := 4096.
Definition Available (w : writer) : nat := (bufSize - length (w_buf w))%nat.

Definition set_buf (b : list byte) (w : writer) : writer := Writer (w_sock w) b (w_err w).

Definition Flush : M writer unit := λ w,
  match w_err w with
  | Some e => (Err e, w)
  | None =>
      if decide (w_buf w = []) then (Ok tt, w) else
      let '(n, err, sk) := sock_write (w_buf w) (w_sock w) in
      match err with
      | Some e => (Err e, Writer sk (drop n (w_buf w)) (Some e))
      | None => (Ok tt, Writer sk [] None)
      end
  end.

Definition WriteByte (c : byte) : M writer unit := λ w,
  match w_err w with
  | Some e => (Err e, w)
  | None =>
      let put w := (Ok tt, set_buf (w_buf w ++ [c]) w) in
      if decide (Available w <= 0)%nat
      then match Flush w with
           | (Ok _, w') => put w'
           | (Err e, w') => (Err e, w')
           | (o, w') => (o, w')
           end
      else put w
  end.

(** The loop of [bufio.Writer.Write]: while the data does not fit, a full
    buffer is flushed, or, when nothing is buffered, the data goes straight to
    the socket. *)
Fixpoint Write_loop (fuel : nat) (p : list byte) : M writer (list byte) := λ w,
  match fuel with
  | O => (Diverge, w)
  | S fuel =>
      match w_err w with
      | Some e => (Err e, w)
      | None =>
          if decide (length p <= Available w)%nat then (Ok p, w)
          else if decide (w_buf w = [])
          then let '(n, err, sk) := sock_write p (w_sock w) in
               Write_loop fuel (drop n p) (Writer sk [] err)
          else let n := Available w in
               Write_loop fuel (drop n p)
                 (snd (Flush (set_buf (w_buf w ++ take n p) w)))
      end
  end.

(** Three turns are enough: one flushes a partly filled buffer, one writes
    through, one finds what is left fits. *)
Definition Write (p : list byte) : M writer unit := λ w,
  match Write_loop 3 p w with
  | (Ok rest, w') => (Ok tt, set_buf (w_buf w' ++ rest) w')
  | (Err e, w') => (Err e, w')
  | (Panic y, w') => (Panic y, w')
  | (Block, w') => (Block, w')
  | (Diverge, w') => (Diverge, w')
  end.

(** ** The reading side *)

(** What the relay will deliver and the error the socket reports after it. *)
Record reader := Reader { rd_data : list byte; rd_end : error }.

Definition ReadByte : M reader byte := λ r,
  match rd_data r with
  | [] => (Err (rd_end r), r)
  | b :: rest => (Ok b, Reader rest (rd_end r))
  end.

(** [io.ReadFull(r, make([]byte, n))]: exactly [n] bytes, or an error that is
    [io.ErrUnexpectedEOF] when the stream ends in the middle. *)
Definition ReadFull (n : Z) : M reader (list byte) := λ r,
  if n <=? len (rd_data r)
  then (Ok (take (Z.to_nat n) (rd_data r)), Reader (drop (Z.to_nat n) (rd_data r)) (rd_end r))
  else
    let err := if decide (rd_data r <> [] /\ rd_end r = EOF)
               then ErrUnexpectedEOF else rd_end r in
    (Err err, Reader [] (rd_end r)).

(** ** The stream a writer stands for *)

Definition stream (w : writer) : list byte := sk_sent (w_sock w) ++ w_buf w.

Record writer_ok (w : writer) : Prop := {
  wok_err : w_err w = None;
  wok_buf : (length (w_buf w) <= bufSize)%nat
}.

(** A link that does not fail. *)
Definition healthy (w : writer) : Prop :=
  sk_room (w_sock w) = None /\ sk_closed (w_sock w) = false.

(** The contract of code that writes: started with no error pending it either
    appends exactly [bs] to the stream, or ends with an error that is then
    pending, after a prefix of the intended stream has reached the socket; it
    never fails on a healthy link. *)
Definition emits {A} (m : M writer A) (bs : list byte) : Prop :=
  forall w, writer_ok w ->
  match m w with
  | (Ok _, w') => writer_ok w' /\ stream w' = stream w ++ bs /\ (healthy w -> healthy w')
      /\ sk_sent (w_sock w) `prefix_of` sk_sent (w_sock w')
  | (Err e, w') => w_err w' = Some e /\ ~ healthy w
      /\ sk_sent (w_sock w) `prefix_of` sk_sent (w_sock w')
      /\ sk_sent (w_sock w') `prefix_of` stream w ++ bs
  | _ => False
  end.

(** An error, once pending, answers every further write. *)
Definition sticky {A} (m : M writer A) : Prop :=
  forall w e, w_err w = Some e -> m w = (Err e, w).

Create HintDb emits.

Lemma prefix_trans' {A} (a b c : list A) : a `prefix_of` b -> b `prefix_of` c -> a `prefix_of` c.
Proof. intros; by etrans. Qed.

Lemma sent_prefix_stream w : sk_sent (w_sock w) `prefix_of` stream w.
Proof. by eexists. Qed.

Lemma emits_ret {A} (a : A) : emits (mret a) [].
Proof. intros w Hok. simpl. rewrite app_nil_r. splits; auto. Qed.

(** Sequencing appends the two contributions. *)
Lemma emits_bind {A B} (m : M writer A) (k : A -> M writer B) b1 b2 :
  emits m b1 -> (forall a, emits (k a) b2) -> emits (x ← m; k x) (b1 ++ b2).
Proof.
  intros Hm Hk w Hok. rewrite bind_eq. specialize (Hm w Hok).
  destruct (m w) as [[a|e|y| |] w1]; try done.
  - destruct Hm as (Hok1 & Hs1 & Hh1 & Hp1). specialize (Hk a w1 Hok1).
    destruct (k a w1) as [[b|e|y| |] w2]; try done.
    + destruct Hk as (Hok2 & Hs2 & Hh2 & Hp2). splits; eauto using prefix_trans'.
      by rewrite Hs2, Hs1, app_assoc.
    + destruct Hk as (He & Hn & Hp2 & Hp3). rewrite Hs1, <- app_assoc in Hp3.
      splits; eauto using prefix_trans'.
  - destruct Hm as (He & Hn & Hp2 & Hp3). splits; auto.
    rewrite app_assoc. by apply prefix_app_r.
Qed.

Lemma emits_seq {A B} (m : M writer A) (k : M writer B) b1 b2 :
  emits m b1 -> emits k b2 -> emits (m;; k) (b1 ++ b2).
Proof. intros. apply emits_bind; auto. Qed.

Lemma sticky_bind {A B} (m : M writer A) (k : A -> M writer B) :
  sticky m -> sticky (x ← m; k x).
Proof. intros Hm w e H. by rewrite bind_eq, (Hm w e H). Qed.

(** What one write to the socket does. *)
Lemma sock_write_spec p sk :
  match sock_write p sk with
  | (n, None, sk') => n = length p /\ sk_sent sk' = sk_sent sk ++ p
      /\ (sk_room sk = None -> sk_closed sk = false -> sk_room sk' = None /\ sk_closed sk' = false)
  | (n, Some e, sk') => sk_sent sk' = sk_sent sk ++ take n p
      /\ ~ (sk_room sk = None /\ sk_closed sk = false)
  end.
Proof.
  unfold sock_write. destruct (sk_closed sk) eqn:E; simpl.
  - rewrite take_0, app_nil_r. split; [done|]. by intros [_ ?].
  - destruct (sk_room sk) as [r|] eqn:Er; [case_decide|]; simpl; splits; auto; try done.
    by intros [? _].
Qed.

(** A successful flush leaves nothing buffered. *)
Lemma Flush_spec w : writer_ok w ->
  match Flush w with
  | (Ok _, w') => writer_ok w' /\ w_buf w' = [] /\ stream w' = stream w
      /\ (healthy w -> healthy w') /\ sk_sent (w_sock w) `prefix_of` sk_sent (w_sock w')
  | (Err e, w') => w_err w' = Some e /\ ~ healthy w
      /\ sk_sent (w_sock w) `prefix_of` sk_sent (w_sock w')
      /\ sk_sent (w_sock w') `prefix_of` stream w
  | _ => False
  end.
Proof.
  intros [He Hb]. unfold Flush. rewrite He. case_decide as Hn.
  - splits; auto. by split.
  - pose proof (sock_write_spec (w_buf w) (w_sock w)) as Hs.
    destruct (sock_write (w_buf w) (w_sock w)) as [[n [e|]] sk]; simpl.
    + destruct Hs as [Hs Hh]. rewrite Hs. splits; auto.
      * by eexists.
      * unfold stream. apply prefix_app. exists (drop n (w_buf w)). by rewrite take_drop.
    + destruct Hs as (-> & Hs & Hh). unfold stream, healthy. simpl. rewrite Hs, app_nil_r.
      splits; auto; [by split; simpl; [|lia] |naive_solver|by eexists].
Qed.

Lemma Flush_emits : emits Flush [].
Proof.
  intros w Hok. pose proof (Flush_spec w Hok) as H.
  destruct (Flush w) as [[?|e|?| |] w']; rewrite ?app_nil_r; tauto.
Qed.

Lemma put_ok bs w : writer_ok w -> (length bs <= Available w)%nat ->
  writer_ok (set_buf (w_buf w ++ bs) w)
  /\ stream (set_buf (w_buf w ++ bs) w) = stream w ++ bs.
Proof.
  intros [He Hb] Hl. unfold Available in Hl. splits.
  - split; simpl; [done|]. rewrite length_app. lia.
  - unfold stream. simpl. by rewrite app_assoc.
Qed.

Lemma WriteByte_emits c : emits (WriteByte c) [c].
Proof.
  intros w Hok. unfold WriteByte. rewrite (wok_err _ Hok). case_decide as Ha.
  - pose proof (Flush_spec w Hok) as H.
    destruct (Flush w) as [[?|e|?| |] w']; try tauto.
    + destruct H as (Hok' & Hb & Hs & Hh & Hp).
      destruct (put_ok [c] w' Hok') as (H1 & H2).
      { unfold Available. rewrite Hb. simpl. unfold bufSize. lia. }
      rewrite <- Hs. splits; auto.
    + destruct H as (? & ? & ? & ?). splits; auto. by apply prefix_app_r.
  - destruct (put_ok [c] w Hok) as (H1 & H2); [simpl; lia|].
    splits; auto.
Qed.

(** Whatever is already pending or fits, the rest of [Write] is one append. *)
Lemma Write_fits fuel p w : writer_ok w -> (length p <= Available w)%nat ->
  Write_loop (S fuel) p w = (Ok p, w).
Proof. intros [He _] Hl. simpl. rewrite He. by rewrite decide_True. Qed.

(** The contract of the loop: it leaves a remainder that fits, the rest being in
    the stream. *)
Definition drains (p : list byte) (w : writer) (r : outcome (list byte) * writer) : Prop :=
  match r with
  | (Ok q, w') => writer_ok w' /\ (length q <= Available w')%nat
      /\ stream w' ++ q = stream w ++ p /\ (healthy w -> healthy w')
      /\ sk_sent (w_sock w) `prefix_of` sk_sent (w_sock w')
  | (Err e, w') => w_err w' = Some e /\ ~ healthy w
      /\ sk_sent (w_sock w) `prefix_of` sk_sent (w_sock w')
      /\ sk_sent (w_sock w') `prefix_of` stream w ++ p
  | _ => False
  end.

Lemma drains_fits fuel p w : writer_ok w -> (length p <= Available w)%nat ->
  drains p w (Write_loop (S fuel) p w).
Proof. intros. rewrite Write_fits by done. simpl. splits; auto. Qed.

(** With an empty buffer two turns are enough. *)
Lemma drains_empty fuel p w : writer_ok w -> w_buf w = [] ->
  drains p w (Write_loop (S (S fuel)) p w).
Proof.
  intros Hok Hb. destruct (decide (length p <= Available w)%nat) as [|Hl];
    [by apply drains_fits|].
  cbn [Write_loop]. rewrite (wok_err _ Hok), decide_False, decide_True by done.
  pose proof (sock_write_spec p (w_sock w)) as Hs.
  destruct (sock_write p (w_sock w)) as [[n [e|]] sk]; unfold drains, stream; simpl;
    rewrite Hb, app_nil_r.
  - destruct Hs as [-> Hh]. splits; auto; [by eexists|].
    apply prefix_app. exists (drop n p). by rewrite take_drop.
  - destruct Hs as (-> & Hs & Hh). rewrite drop_all. rewrite decide_True by (simpl; lia).
    simpl. rewrite Hs, !app_nil_r. unfold healthy; simpl.
    splits; auto; [by split; simpl; [|unfold bufSize; lia]|lia|naive_solver|by eexists].
Qed.

Lemma drains_loop p w : writer_ok w -> drains p w (Write_loop 3 p w).
Proof.
  intros Hok. destruct (decide (length p <= Available w)%nat) as [|Hl];
    [by apply drains_fits|].
  destruct (decide (w_buf w = [])) as [|Hb]; [by apply drains_empty|].
  change (Write_loop 3 p w) with (match w_err w with Some e => (Err e, w) | None =>
    if decide (length p <= Available w)%nat then (Ok p, w)
    else if decide (w_buf w = []) then
      let '(n, err, sk) := sock_write p (w_sock w) in
      Write_loop 2 (drop n p) (Writer sk [] err)
    else Write_loop 2 (drop (Available w) p)
      (snd (Flush (set_buf (w_buf w ++ take (Available w) p) w))) end).
  rewrite (wok_err _ Hok), !decide_False by done.
  destruct (put_ok (take (Available w) p) w Hok) as (Hok1 & Hs1);
    [rewrite length_take; lia|].
  pose proof (Flush_spec _ Hok1) as HF.
  destruct (Flush (set_buf _ _)) as [[?|e|?| |] w1]; try done; cbn [snd].
  - destruct HF as (Hok2 & Hb2 & Hs2 & Hh2 & Hp2). simpl in Hp2.
    pose proof (drains_empty 0 (drop (Available w) p) w1 Hok2 Hb2) as HD.
    revert HD. destruct (Write_loop _ _ _) as [[q|e|?| |] w2]; simpl; try done;
      rewrite Hs2, Hs1, <- app_assoc, take_drop; intros; destruct_and!; splits;
      eauto using prefix_trans'.
  - destruct HF as (He2 & Hh2 & Hp2 & Hp3). simpl. rewrite He2. simpl.
    splits; auto. etrans; [done|]. rewrite Hs1. apply prefix_app.
    exists (drop (Available w) p). by rewrite take_drop.
Qed.

Lemma Write_emits p : emits (Write p) p.
Proof.
  intros w Hok. unfold Write. pose proof (drains_loop p w Hok) as HD.
  destruct (Write_loop 3 p w) as [[q|e|?| |] w']; try done.
  destruct HD as (Hok' & Hl & Hs & Hh & Hp). destruct (put_ok q w' Hok' Hl) as (H1 & H2).
  rewrite H2, Hs. splits; auto.
Qed.

Lemma Flush_sticky : sticky Flush.
Proof. intros w e H. unfold Flush. by rewrite H. Qed.

Lemma WriteByte_sticky c : sticky (WriteByte c).
Proof. intros w e H. unfold WriteByte. by rewrite H. Qed.

Lemma Write_sticky p : sticky (Write p).
Proof. intros w e H. unfold Write. simpl. by rewrite H. Qed.

#[export] Hint Resolve emits_ret emits_seq WriteByte_emits Write_emits : emits.
