(* ===== verification/Wire.v ===== *)
(** * Serialization primitives of the relay protocol (proto.go)

    The byte, boolean, base-128 integer and length-tagged blob codecs that every
    packet is made of, with the byte strings they stand for, their round trips,
    and what the decoders make of input no encoder produces. *)

From Stdlib Require Import ZArith Lia Strings.Byte Strings.String.
From stdpp Require Import base gmap strings list.
From S2P Require Import Prelude Bufio.

Open Scope Z_scope.

(** ** Writing *)

Definition sendByte (data : byte) : M writer unit := WriteByte data.

Definition sendBool (data : bool) : M writer unit :=
  if data then sendByte x01 else sendByte x00.

(** The loop of [sendVarint]; a [uint64] needs at most ten turns. *)
Fixpoint sendVarint_loop (fuel : nat) (data : Z) : M writer unit :=
  match fuel with
  | O => diverge
  | S fuel =>
      if 127 <? data
      then sendByte (z2b (128 + data mod 128));; sendVarint_loop fuel (data / 128)
      else sendByte (z2b data)
  end.

Definition sendVarint (data : Z) : M writer unit := sendVarint_loop 10 data.

Definition sendBinary (data : list byte) : M writer unit :=
  sendVarint (u64 (len data));; Write data.

Definition sendString (data : gostring) : M writer unit := sendBinary data.

(** ** Reading *)

Definition recvByte : M reader byte := ReadByte.

Definition recvBool : M reader bool :=
  b ← recvByte;
  match b with
  | x00 => mret false
  | x01 => mret true
  | _ => fail (Errorf "protocol violation: invalid boolean value: %v" (FNum (b2z b)))
  end.

(** The loop of [recvVarint], which ends with the data: the index [i] and the
    sum [num] are [uint] and [uint64]. *)
Fixpoint recvVarint_loop (data : list byte) (e : error) (i num : Z) : outcome Z * reader :=
  match data with
  | [] => (Err e, Reader [] e)
  | chunk :: data =>
      let num := u64 (num + shl64 (Z.land (b2z chunk) 127) (u64 (7 * i))) in
      if b2z chunk <=? 127 then (Ok num, Reader data e)
      else recvVarint_loop data e (u64 (i + 1)) num
  end.

Definition recvVarint : M reader Z := λ r, recvVarint_loop (rd_data r) (rd_end r) 0 0.

Section runtime.
Context `{GoRuntime}.

(** [make([]byte, size)] panics when the length is out of range. *)
Definition recvBinary : M reader (list byte) :=
  size ← recvVarint;
  if maxAlloc <? size then panic "makeslice: len out of range"
  else ReadFull size.

Definition recvString : M reader gostring := recvBinary.

End runtime.

(** ** The byte strings of the protocol *)

(** The base-128 digits of a number, least significant first, all but the last
    with the continuation flag. *)
Fixpoint varint_digits (fuel : nat) (n : Z) : list byte :=
  match fuel with
  | O => []
  | S fuel => if n <? 128 then [z2b n] else z2b (128 + n mod 128) :: varint_digits fuel (n / 128)
  end.

Definition varint (n : Z) : list byte := varint_digits 10 n.

Definition bool_bytes (b : bool) : list byte := [if b then x01 else x00].

Definition binary (p : list byte) : list byte := varint (len p) ++ p.

#[global] Arguments varint n : simpl never.
#[global] Arguments binary p : simpl never.
#[global] Arguments bool_bytes b : simpl never.

(** A length the protocol can carry: Go's [len] is an [int]. *)
Definition sized {A} (p : list A) : Prop := len p < 2 ^ 63.

(** ** The writers emit them *)

Lemma sendByte_emits b : emits (sendByte b) [b].
Proof. apply WriteByte_emits. Qed.

Lemma sendBool_emits b : emits (sendBool b) (bool_bytes b).
Proof. destruct b; apply WriteByte_emits. Qed.

Lemma sendVarint_loop_emits fuel n : 0 <= n < 128 ^ (Z.of_nat (S fuel)) ->
  emits (sendVarint_loop (S fuel) n) (varint_digits (S fuel) n).
Proof.
  revert n. induction fuel as [|fuel IH]; intros n Hn.
  - simpl in Hn. simpl. rewrite (proj2 (Z.ltb_ge 127 n)), (proj2 (Z.ltb_lt n 128)) by lia.
    apply sendByte_emits.
  - change (emits (if 127 <? n
      then sendByte (z2b (128 + n mod 128));; sendVarint_loop (S fuel) (n / 128)
      else sendByte (z2b n))
      (if n <? 128 then [z2b n] else [z2b (128 + n mod 128)] ++ varint_digits (S fuel) (n / 128))).
    destruct (Z.ltb_spec 127 n), (Z.ltb_spec n 128); try lia; [|apply sendByte_emits].
    apply emits_seq; [apply sendByte_emits|apply IH].
    rewrite (Nat2Z.inj_succ (S fuel)), Z.pow_succ_r in Hn by lia.
    split; [apply Z.div_pos; lia|apply Z.div_lt_upper_bound; lia].
Qed.

Lemma sendVarint_emits n : 0 <= n < 2 ^ 64 -> emits (sendVarint n) (varint n).
Proof. intros. apply sendVarint_loop_emits. lia. Qed.

Lemma sendBinary_emits p : sized p -> emits (sendBinary p) (binary p).
Proof.
  intros Hp. unfold sized in Hp. pose proof (len_nonneg p). unfold sendBinary.
  rewrite u64_id by lia. apply emits_seq; [apply sendVarint_emits; lia|apply Write_emits].
Qed.

Lemma sendString_emits p : sized p -> emits (sendString p) (binary p).
Proof. apply sendBinary_emits. Qed.

#[export] Hint Resolve sendByte_emits sendBool_emits sendVarint_emits sendBinary_emits
  sendString_emits : emits.

Lemma sendVarint_sticky n : sticky (sendVarint n).
Proof.
  unfold sendVarint. cbn [sendVarint_loop]. intros w e Hw. case_test.
  - rewrite (bind_Err _ _ w e w); [done|]. by apply WriteByte_sticky.
  - by apply WriteByte_sticky.
Qed.

(** ** The readers parse them *)

(** [m] reads exactly [bs] off the front of any input and returns [a]. *)
Definition parses {A} (m : M reader A) (bs : list byte) (a : A) : Prop :=
  forall rest e, m (Reader (bs ++ rest) e) = (Ok a, Reader rest e).

(** [m] answers every input that stops inside [bs] with an error. *)
Definition rejects_cut {A} (m : M reader A) (bs : list byte) : Prop :=
  forall cut tl e, bs = cut ++ tl -> tl <> [] ->
  exists err r, m (Reader cut e) = (Err err, r).

(** [m] only moves forward in the input. *)
Definition forward {A} (m : M reader A) : Prop :=
  forall r, exists used, rd_data r = used ++ rd_data (snd (m r)) /\ rd_end (snd (m r)) = rd_end r.

Create HintDb wire.

Lemma parses_ret {A} (a : A) : parses (mret a) [] a.
Proof. by intros rest e. Qed.

Lemma parses_bind {A B} (m : M reader A) (k : A -> M reader B) b1 b2 a b :
  parses m b1 a -> parses (k a) b2 b -> parses (x ← m; k x) (b1 ++ b2) b.
Proof. intros Hm Hk rest e. rewrite bind_eq, <- app_assoc, Hm. apply Hk. Qed.

Lemma rejects_cut_nil {A} (m : M reader A) : rejects_cut m [].
Proof. intros cut tl e Hc Ht. symmetry in Hc. by apply app_eq_nil in Hc as [_ ?]. Qed.

Lemma app_cut {A} (a b cut tl : list A) : a ++ b = cut ++ tl ->
  (exists t, a = cut ++ t /\ t <> []) \/ (exists c, cut = a ++ c /\ b = c ++ tl).
Proof.
  intros H. destruct (decide (length cut < length a)%nat) as [Hl|Hl].
  - left. exists (drop (length cut) a). split.
    + transitivity (take (length cut) a ++ drop (length cut) a); [by rewrite take_drop|].
      f_equal. apply (f_equal (take (length cut))) in H.
      rewrite take_app_le, take_app_length in H by lia. done.
    + intros E. apply (f_equal length) in E. rewrite length_drop in E. simpl in E. lia.
  - right. exists (drop (length a) cut). apply (f_equal (take (length a))) in H as H1.
    apply (f_equal (drop (length a))) in H as H2.
    rewrite take_app_length, take_app_le in H1 by lia.
    rewrite drop_app_length, drop_app_le in H2 by lia. split; [|done].
    rewrite H1 at 1. by rewrite take_drop.
Qed.

Lemma rejects_cut_bind {A B} (m : M reader A) (k : A -> M reader B) b1 b2 a :
  parses m b1 a -> rejects_cut m b1 -> rejects_cut (k a) b2 ->
  rejects_cut (x ← m; k x) (b1 ++ b2).
Proof.
  intros Hp Hm Hk cut tl e Hc Ht. rewrite bind_eq.
  apply app_cut in Hc as [(t & -> & Hn)|(c & -> & ->)].
  - destruct (Hm cut t e) as (err & r & ->); eauto.
  - rewrite Hp. eapply Hk; eauto.
Qed.

Lemma forward_bind {A B} (m : M reader A) (k : A -> M reader B) :
  forward m -> (forall a, forward (k a)) -> forward (x ← m; k x).
Proof.
  intros Hm Hk r. rewrite bind_eq. destruct (Hm r) as (u1 & Hu1 & He1).
  destruct (m r) as [[a|?|?| |] r1]; simpl in *; eauto.
  destruct (Hk a r1) as (u2 & Hu2 & He2). exists (u1 ++ u2).
  rewrite He2, <- app_assoc, <- Hu2. by split.
Qed.

Lemma forward_pure {A} (f : outcome A) : forward (λ r, (f, r)).
Proof. intros r. by exists []. Qed.

Lemma forward_recvByte : forward recvByte.
Proof. intros [[|b d] e]; [by exists []|by exists [b]]. Qed.

Lemma forward_recvVarint : forward recvVarint.
Proof.
  intros [d e]. unfold recvVarint. simpl. generalize 0 at 1 3; generalize 0.
  induction d as [|b d IH]; intros num i; [by exists []|]. simpl. case_test.
  - by exists [b].
  - destruct (IH (u64 (num + shl64 (Z.land (b2z b) 127) (u64 (7 * i)))) (u64 (i + 1)))
      as (u & Hu & He). exists (b :: u). rewrite He. split; [|done]. simpl. by f_equal.
Qed.

Lemma forward_ReadFull n : forward (ReadFull n).
Proof.
  intros [d e]. unfold ReadFull. simpl. case_test; simpl.
  - exists (take (Z.to_nat n) d). by rewrite take_drop.
  - exists d. by rewrite app_nil_r.
Qed.

Lemma forward_recvBinary `{GoRuntime} : forward recvBinary.
Proof.
  apply forward_bind; [apply forward_recvVarint|]. intros n.
  case_test; [apply forward_pure|apply forward_ReadFull].
Qed.

Lemma forward_recvBool : forward recvBool.
Proof. apply forward_bind; [apply forward_recvByte|]. intros []; apply forward_pure. Qed.

#[export] Hint Resolve forward_bind forward_pure forward_recvByte forward_recvVarint
  forward_recvBinary forward_recvBool : wire.

Lemma recvByte_parses b : parses recvByte [b] b.
Proof. by intros rest e. Qed.

Lemma recvByte_cut b : rejects_cut recvByte [b].
Proof.
  intros cut tl e H Ht. destruct cut as [|c cut]; [by do 2 eexists|].
  destruct tl; [done|]. injection H as -> H. by destruct cut.
Qed.

Lemma recvBool_parses b : parses recvBool (bool_bytes b) b.
Proof. intros rest e. by destruct b. Qed.

Lemma recvBool_cut b : rejects_cut recvBool (bool_bytes b).
Proof.
  unfold recvBool. change (bool_bytes b) with (bool_bytes b ++ []).
  eapply rejects_cut_bind; [apply recvByte_parses|apply recvByte_cut|apply rejects_cut_nil].
Qed.

(** ** Base-128 integers *)

(** The number a sequence of base-128 digits denotes, flags ignored. *)
Fixpoint base128 (ds : list byte) : Z :=
  match ds with
  | [] => 0
  | d :: ds => Z.land (b2z d) 127 + 128 * base128 ds
  end.

(** A byte with the continuation flag. *)
Definition cont (b : byte) : Prop := 128 <= b2z b.

Lemma land127 x : Z.land x 127 = x mod 128.
Proof. change 127 with (Z.ones 7). by rewrite Z.land_ones. Qed.

Lemma base128_range ds : 0 <= base128 ds < 128 ^ len ds.
Proof.
  induction ds as [|d ds IH]; [unfold len; simpl; lia|]. cbn [base128].
  rewrite len_cons, Z.pow_add_r, land127 by (pose proof (len_nonneg ds); lia).
  pose proof (Z.mod_pos_bound (b2z d) 128). lia.
Qed.

Lemma shl64_mul x s : 0 <= s -> shl64 x s = u64 (x * 2 ^ s).
Proof.
  intros Hs. unfold shl64. case_test; [|by rewrite Z.shiftl_mul_pow2].
  unfold u64. replace s with (s - 64 + 64) by lia.
  rewrite Z.pow_add_r, Z.mul_assoc, Z.mod_mul by lia. done.
Qed.

(** The decoder on any encoding, canonical or not: the digits' value, modulo
    the width. The bound keeps the shift count [7*i] of the code in a [uint]. *)
Lemma recvVarint_loop_value cs l rest e i num :
  Forall cont cs -> b2z l < 128 -> 0 <= i -> i + len cs < 2 ^ 60 ->
  recvVarint_loop (cs ++ l :: rest) e i num
  = (Ok (u64 (num + 2 ^ (7 * i) * base128 (cs ++ [l]))), Reader rest e).
Proof.
  revert i num. induction cs as [|c cs IH]; intros i num Hc Hl Hi Hlen.
  - simpl. rewrite (proj2 (Z.leb_le (b2z l) 127)) by lia.
    unfold len in Hlen; simpl in Hlen.
    rewrite (u64_id (7 * i)) by lia. rewrite shl64_mul, u64_add_r by lia. do 3 f_equal. lia.
  - inversion Hc as [|? ? Hc1 Hc2]; subst. rewrite len_cons in Hlen.
    pose proof (len_nonneg cs). simpl. unfold cont in Hc1.
    rewrite (proj2 (Z.leb_gt (b2z c) 127)) by lia.
    rewrite (u64_id (7 * i)), (u64_id (i + 1)) by lia.
    rewrite IH by (done || lia). rewrite shl64_mul, u64_add_r, u64_add_l by lia.
    do 2 f_equal. f_equal. replace (7 * (i + 1)) with (7 * i + 7) by lia.
    rewrite Z.pow_add_r by lia. lia.
Qed.

Lemma base128_app cs l : base128 (cs ++ [l]) = base128 cs + 128 ^ len cs * Z.land (b2z l) 127.
Proof.
  induction cs as [|c cs IH]; cbn [app base128].
  - change (len []) with 0. lia.
  - rewrite IH, len_cons, Z.pow_add_r by (pose proof (len_nonneg cs); lia). lia.
Qed.

(** What the encoder writes: continuation digits, one final digit, the number. *)
Lemma varint_digits_shape fuel n : 0 <= n < 128 ^ (Z.of_nat (S fuel)) ->
  exists cs l, varint_digits (S fuel) n = cs ++ [l] /\ Forall cont cs /\ b2z l < 128
    /\ base128 (cs ++ [l]) = n /\ len cs <= Z.of_nat fuel.
Proof.
  revert n. induction fuel as [|fuel IH]; intros n Hn.
  - change (128 ^ Z.of_nat 1) with 128 in Hn.
    exists [], (z2b n). simpl. rewrite (proj2 (Z.ltb_lt n 128)) by lia.
    rewrite land127, b2z_z2b_small, Z.mod_small by lia.
    splits; auto; len_lia.
  - assert (varint_digits (S (S fuel)) n = if n <? 128 then [z2b n]
      else z2b (128 + n mod 128) :: varint_digits (S fuel) (n / 128)) as -> by done.
    destruct (Z.ltb_spec n 128) as [Hs|Hs].
    + exists [], (z2b n). simpl. rewrite land127, b2z_z2b_small, Z.mod_small by lia.
      splits; auto; unfold len; simpl; lia.
    + rewrite (Nat2Z.inj_succ (S fuel)), Z.pow_succ_r in Hn by lia.
      pose proof (Z.mod_pos_bound n 128).
      destruct (IH (n / 128)) as (cs & l & E & Hc & Hl & Hv & Hlen).
      { split; [apply Z.div_pos; lia|apply Z.div_lt_upper_bound; lia]. }
      exists (z2b (128 + n mod 128) :: cs), l. rewrite E. simpl. rewrite Hv, land127.
      rewrite len_cons, b2z_z2b_small by lia. splits; auto; try lia.
      * constructor; [|done]. unfold cont. rewrite b2z_z2b_small; lia.
      * rewrite (Z.add_mod 128), Z_mod_same_full, Z.add_0_l, !Z.mod_mod by lia.
        pose proof (Z.div_mod n 128). lia.
Qed.

Lemma varint_shape n : 0 <= n < 2 ^ 64 ->
  exists cs l, varint n = cs ++ [l] /\ Forall cont cs /\ b2z l < 128
    /\ base128 (cs ++ [l]) = n /\ len cs <= 9.
Proof. intros. apply varint_digits_shape. lia. Qed.

Lemma recvVarint_parses n : 0 <= n < 2 ^ 64 -> parses recvVarint (varint n) n.
Proof.
  intros Hn rest e. destruct (varint_shape n Hn) as (cs & l & -> & Hc & Hl & Hv & Hlen).
  unfold recvVarint. simpl. rewrite <- app_assoc. simpl.
  rewrite recvVarint_loop_value by (done || lia). rewrite Hv. do 2 f_equal.
  change (2 ^ (7 * 0)) with 1. rewrite Z.mul_1_l. by apply u64_id.
Qed.

(** No digit before the last ends the number. *)
Lemma recvVarint_loop_cont cs e i num : Forall cont cs ->
  recvVarint_loop cs e i num = (Err e, Reader [] e).
Proof.
  intros Hc. revert i num. induction Hc as [|c cs Hc1 Hc2 IH]; intros i num; [done|].
  simpl. unfold cont in Hc1. rewrite (proj2 (Z.leb_gt (b2z c) 127)) by lia. apply IH.
Qed.

Lemma recvVarint_cut n : 0 <= n < 2 ^ 64 -> rejects_cut recvVarint (varint n).
Proof.
  intros Hn cut tl e Hc Ht. destruct (varint_shape n Hn) as (cs & l & E & Hcs & _).
  exists e, (Reader [] e). apply recvVarint_loop_cont. simpl.
  rewrite E in Hc. apply app_cut in Hc as [(t & -> & _)|(c & -> & Hc)].
  - by apply Forall_app in Hcs as [? _].
  - destruct c as [|c1 c]; [by rewrite app_nil_r|].
    injection Hc as _ Hc. symmetry in Hc. by apply app_eq_nil in Hc as [_ ?].
Qed.

Lemma ReadFull_parses p : parses (ReadFull (len p)) p p.
Proof.
  intros rest e. unfold ReadFull. simpl. rewrite (proj2 (Z.leb_le _ _)).
  - replace (Z.to_nat (len p)) with (length p) by (unfold len; lia).
    by rewrite take_app_length, drop_app_length.
  - rewrite len_app. pose proof (len_nonneg rest). lia.
Qed.

Lemma ReadFull_cut p : rejects_cut (ReadFull (len p)) p.
Proof.
  intros cut tl e -> Ht. unfold ReadFull. simpl. rewrite (proj2 (Z.leb_gt _ _)).
  - by do 2 eexists.
  - rewrite len_app. destruct tl; [done|]. rewrite len_cons. pose proof (len_nonneg tl). lia.
Qed.

Section blobs.
Context `{GoRuntime}.

(** Reading a number succeeds or reports the end of the input; reading a blob
    can also panic, in [make] and nowhere else. *)
Lemma recvVarint_outcome i :
  match recvVarint i with (Ok _, _) | (Err _, _) => True | _ => False end.
Proof.
  destruct i as [d e]. unfold recvVarint. simpl. generalize 0 at 1; generalize 0.
  induction d as [|b d IH]; intros num k; [done|]. simpl. case_test; [done|apply IH].
Qed.

Lemma recvBinary_outcome i :
  match recvBinary i with
  | (Ok _, _) | (Err _, _) => True
  | (Panic w, _) => w = "makeslice: len out of range"%string
  | _ => False
  end.
Proof.
  unfold recvBinary. rewrite bind_eq. pose proof (recvVarint_outcome i) as H1.
  destruct (recvVarint i) as [[n|?|?| |] r]; try done.
  case_test; [done|]. unfold ReadFull. by case_test.
Qed.

(** A blob this side can allocate. *)
Definition fits (p : list byte) : Prop := len p <= maxAlloc.

Lemma fits_range p : fits p -> 0 <= len p < 2 ^ 64.
Proof. unfold fits. pose proof maxAlloc_int. pose proof (len_nonneg p). lia. Qed.

Lemma fits_sized p : fits p -> sized p.
Proof. unfold fits, sized. pose proof maxAlloc_int. lia. Qed.

Lemma recvBinary_parses p : fits p -> parses recvBinary (binary p) p.
Proof.
  intros Hp. apply parses_bind with (len p); [by apply recvVarint_parses, fits_range|].
  rewrite (proj2 (Z.ltb_ge _ _)) by done. apply ReadFull_parses.
Qed.

Lemma recvBinary_cut p : fits p -> rejects_cut recvBinary (binary p).
Proof.
  intros Hp. apply fits_range in Hp as Hr. eapply rejects_cut_bind.
  - by apply recvVarint_parses.
  - by apply recvVarint_cut.
  - simpl. rewrite (proj2 (Z.ltb_ge _ _)) by done. apply ReadFull_cut.
Qed.

Lemma recvString_parses p : fits p -> parses recvString (binary p) p.
Proof. apply recvBinary_parses. Qed.

Lemma recvString_cut p : fits p -> rejects_cut recvString (binary p).
Proof. apply recvBinary_cut. Qed.

(** A length above what can be allocated crashes the process, before a byte of
    the blob is read. *)
Lemma recvBinary_panics n rest e : maxAlloc < n < 2 ^ 64 ->
  recvBinary (Reader (varint n ++ rest) e)
  = (Panic "makeslice: len out of range", Reader rest e).
Proof.
  intros Hn. unfold recvBinary. pose proof maxAlloc_int.
  erewrite bind_Ok by (apply recvVarint_parses; lia). simpl.
  by rewrite (proj2 (Z.ltb_lt _ _)) by lia.
Qed.
End blobs.

#[export] Hint Resolve parses_ret parses_bind recvByte_parses recvBool_parses recvVarint_parses
  recvBinary_parses recvString_parses rejects_cut_nil rejects_cut_bind recvByte_cut
  recvBool_cut recvVarint_cut recvBinary_cut recvString_cut forward_recvBinary
  fits_sized fits_range : wire.

(** ** Properties *)

(** C22: what [sendVarint] puts on the stream, [recvVarint] reads back as the
    same [uint64], consuming exactly those bytes whatever follows them. *)
Theorem varint_roundtrip n w : 0 <= n < 2 ^ 64 -> writer_ok w -> healthy w ->
  exists w' bs, sendVarint n w = (Ok tt, w') /\ stream w' = stream w ++ bs /\
    forall rest e, recvVarint (Reader (bs ++ rest) e) = (Ok n, Reader rest e).
Proof.
  intros Hn Hok Hh. pose proof (sendVarint_emits n Hn w Hok) as H.
  destruct (sendVarint n w) as [[[]|e|?| |] w']; try tauto.
  exists w', (varint n). destruct_and!. splits; auto. by apply recvVarint_parses.
Qed.

Definition fresh_writer : writer := Writer (Socket [] None false) [] None.

Lemma fresh_writer_ok : writer_ok fresh_writer.
Proof. split; [done|]. simpl. unfold bufSize. lia. Qed.

Lemma varint_roundtrip_witness :
  0 <= 624485 < 2 ^ 64 /\
  exists w' bs, sendVarint 624485 fresh_writer = (Ok tt, w') /\
    stream w' = stream fresh_writer ++ bs /\
    forall rest e, recvVarint (Reader (bs ++ rest) e) = (Ok 624485, Reader rest e).
Proof.
  split; [lia|]. apply (varint_roundtrip 624485 fresh_writer); [lia|apply fresh_writer_ok|].
  by split.
Defined.

(** On any digits a relay may send, canonical or not, [recvVarint] returns
    the number they denote modulo [2^64]: the shift drops what does not fit,
    silently. *)
Theorem recvVarint_value cs l rest e : Forall cont cs -> b2z l < 128 -> len cs < 2 ^ 60 ->
  recvVarint (Reader (cs ++ l :: rest) e) = (Ok (u64 (base128 (cs ++ [l]))), Reader rest e).
Proof.
  intros Hc Hl Hlen. unfold recvVarint. simpl. rewrite recvVarint_loop_value by (done || lia).
  change (2 ^ (7 * 0)) with 1. by rewrite Z.mul_1_l.
Qed.

(** Eleven digits: the value wraps to zero. *)
Lemma recvVarint_value_witness :
  base128 (repeat x80 10 ++ [x01]) = 2 ^ 70 /\
  recvVarint (Reader (repeat x80 10 ++ [x01]) EOF) = (Ok (u64 (2 ^ 70)), Reader [] EOF).
Proof.
  split; [reflexivity|].
  apply (recvVarint_value (repeat x80 10) x01 [] EOF).
  - repeat constructor; vm_compute; congruence.
  - reflexivity.
  - reflexivity.
Defined.

Lemma varint_digits_length fuel n k : 0 <= n < 128 ^ k -> 1 <= k ->
  len (varint_digits fuel n) <= k.
Proof.
  revert n k. induction fuel as [|fuel IH]; intros n k Hn Hk; [len_lia|].
  cbn [varint_digits]. case_test; [len_lia|]. rewrite len_cons.
  assert (1 < k). { destruct (Z.eq_dec k 1) as [->|]; lia. }
  replace k with (1 + (k - 1)) in Hn by lia. rewrite Z.pow_add_r in Hn by lia.
  specialize (IH (n / 128) (k - 1)). enough (len (varint_digits fuel (n / 128)) <= k - 1) by lia.
  apply IH; [|lia]. split; [apply Z.div_pos; lia|apply Z.div_lt_upper_bound; lia].
Qed.

Lemma varint_length n : 0 <= n < 2 ^ 64 -> 1 <= len (varint n) <= 10.
Proof.
  intros Hn. destruct (varint_shape n Hn) as (cs & l & E & _ & _ & _ & H). rewrite E.
  rewrite len_app. pose proof (len_nonneg cs). len_lia.
Qed.

(** The encoding is minimal, between one and ten bytes: no terminated
    digit sequence that [recvVarint] reads as [n] is shorter. *)
Theorem varint_minimal n cs l rest e r :
  0 <= n < 2 ^ 64 -> Forall cont cs -> b2z l < 128 -> len cs < 2 ^ 60 ->
  recvVarint (Reader (cs ++ l :: rest) e) = (Ok n, r) ->
  1 <= len (varint n) <= Z.min 10 (len (cs ++ [l])).
Proof.
  intros Hn Hc Hl Hlen Hr. pose proof (varint_length n Hn).
  assert (n = u64 (base128 (cs ++ [l]))) as Hv.
  { unfold recvVarint in Hr. simpl in Hr. rewrite recvVarint_loop_value in Hr by (done || lia).
    injection Hr as <- _. do 2 f_equal. change (2 ^ (7 * 0)) with 1. lia. }
  pose proof (base128_range (cs ++ [l])) as Hb.
  assert (1 <= len (cs ++ [l])) by (rewrite len_app; pose proof (len_nonneg cs); len_lia).
  destruct (Z.le_gt_cases 10 (len (cs ++ [l]))); [lia|].
  enough (len (varint n) <= len (cs ++ [l])) by lia. apply varint_digits_length; [|done].
  split; [lia|]. rewrite Hv. eapply Z.le_lt_trans; [|apply Hb]. unfold u64.
  apply Z.mod_le; lia.
Qed.

Lemma varint_minimal_witness :
  varint 300 = [xac; x02] /\ 1 <= len (varint 300) <= Z.min 10 (len [xac; x82; x00]).
Proof.
  split; [reflexivity|].
  apply (varint_minimal 300 [xac; x82] x00 [] EOF (Reader [] EOF)).
  - lia.
  - repeat constructor; vm_compute; congruence.
  - reflexivity.
  - reflexivity.
  - reflexivity.
Defined.
