(* ===== verification/Packets.v ===== *)
(** * Outbound packets (proto.go, sendPacket and the send functions)

    Every packet the binding sends: its construction inside [sendPacket]'s
    critical section, the bytes it stands for, and a reference decoder showing
    that the stream of packets can be read back in one way only. *)

From Stdlib Require Import ZArith Lia Strings.Byte Strings.String.
From stdpp Require Import base gmap strings list.
From S2P Require Import Prelude Bufio Wire.

Open Scope Z_scope.

(** ** Protocol constants *)

Definition opInit : byte := x00.
Definition opDeny : byte := x01.
Definition opClose : byte := x02.
Definition opBroadcast : byte := x03.
Definition opRequest : byte := x04.
Definition opReply : byte := x05.
Definition opSubscribe : byte := x06.
Definition opUnsubscribe : byte := x07.
Definition opPublish : byte := x08.
Definition opTunInit : byte := x09.
Definition opTunConfirm : byte := x0a.
Definition opTunAllow : byte := x0b.
Definition opTunTransfer : byte := x0c.
Definition opTunClose : byte := x0d.

Definition protoVersion : gostring := str "v1.0-draft2".
Definition clientMagic : gostring := str "iris-client-magic".
Definition relayMagic : gostring := str "iris-relay-magic".

#[global] Arguments protoVersion : simpl never.
#[global] Arguments clientMagic : simpl never.
#[global] Arguments relayMagic : simpl never.

(** ** The guarded socket *)

(** The sending half of a [Connection]: the buffered socket, the [int32]
    counter of pending writes and the state of [sockLock]. *)
Record link := Link {
  l_wr : writer;
  sockWait : Z;
  sockLocked : bool
}.

(** Run buffer code on a link. *)
Definition on_wr {A} (m : M writer A) : M link A := λ l,
  let '(o, w) := m (l_wr l) in (o, Link w (sockWait l) (sockLocked l)).

(** [atomic.AddInt32(&c.sockWait, d)], which returns the new count. *)
Definition addWait (d : Z) : M link Z := λ l,
  let n := i32 (sockWait l + d) in (Ok n, Link (l_wr l) n (sockLocked l)).

(** [c.sockLock.Lock()] parks the caller while another sender is inside. *)
Definition lockSock : M link unit := λ l,
  if sockLocked l then (Block, l) else (Ok tt, Link (l_wr l) (sockWait l) true).

Definition unlockSock : M link unit := modify (λ l, Link (l_wr l) (sockWait l) false).

(** What [sendPacket] does while it holds the lock. *)
Definition sendLocked (closure : M writer unit) : M link unit :=
  r ← attempt (on_wr closure);
  match r with
  | inl err => addWait (-1);; fail err
  | inr _ =>
      n ← addWait (-1);
      if n =? 0 then on_wr Flush else mret tt
  end.

Definition sendPacket (closure : M writer unit) : M link unit :=
  addWait 1;;
  lockSock;;
  r ← attempt (sendLocked closure);
  unlockSock;;
  match r with inl err => fail err | inr _ => mret tt end.

(** ** The send functions *)

Definition sendInit (cluster : gostring) : M link unit :=
  sendPacket (sendByte opInit;; sendString clientMagic;; sendString protoVersion;;
              sendString cluster).

Definition sendClose : M link unit := sendPacket (sendByte opClose).

Definition sendBroadcast (cluster : gostring) (message : slice) : M link unit :=
  sendPacket (sendByte opBroadcast;; sendString cluster;; sendBinary (sbytes message)).

Definition sendRequest (id : Z) (cluster : gostring) (request : slice) (timeout : Z)
  : M link unit :=
  sendPacket (sendByte opRequest;; sendVarint id;; sendString cluster;;
              sendBinary (sbytes request);; sendVarint (u64 timeout)).

Definition sendReply (id : Z) (reply : slice) (fault : gostring) : M link unit :=
  sendPacket (sendByte opReply;; sendVarint id;;
    let success := len fault =? 0 in
    sendBool success;;
    if success then sendBinary (sbytes reply) else sendString fault).

Definition sendSubscribe (topic : gostring) : M link unit :=
  sendPacket (sendByte opSubscribe;; sendString topic).

Definition sendUnsubscribe (topic : gostring) : M link unit :=
  sendPacket (sendByte opUnsubscribe;; sendString topic).

Definition sendPublish (topic : gostring) (event : slice) : M link unit :=
  sendPacket (sendByte opPublish;; sendString topic;; sendBinary (sbytes event)).

Definition sendTunnelInit (id : Z) (cluster : gostring) (timeout : Z) : M link unit :=
  sendPacket (sendByte opTunInit;; sendVarint id;; sendString cluster;;
              sendVarint (u64 timeout)).

Definition sendTunnelConfirm (buildId tunId : Z) : M link unit :=
  sendPacket (sendByte opTunConfirm;; sendVarint buildId;; sendVarint tunId).

Definition sendTunnelAllowance (id space : Z) : M link unit :=
  sendPacket (sendByte opTunAllow;; sendVarint id;; sendVarint (u64 space)).

Definition sendTunnelTransfer (id sizeOrCont : Z) (payload : list byte) : M link unit :=
  sendPacket (sendByte opTunTransfer;; sendVarint id;; sendVarint (u64 sizeOrCont);;
              sendBinary payload).

Definition sendTunnelClose (id : Z) : M link unit :=
  sendPacket (sendByte opTunClose;; sendVarint id).

(** ** The contract of [sendPacket] *)

Definition set_wait (n : Z) (l : link) : link := Link (l_wr l) n (sockLocked l).

(** [m] puts [bs] on the stream as one unit: with the lock free and [k] other
    writes pending it returns with the lock free and the counter back at [k]; if
    it was the last, nothing is left in the buffer. It fails only on a link
    that fails, and then what reached the socket is a prefix of the intended
    stream and the writer refuses everything after it. *)
Definition sends (m : M link unit) (bs : list byte) : Prop :=
  forall l, writer_ok (l_wr l) -> sockLocked l = false -> 0 <= sockWait l < 2 ^ 31 - 1 ->
  match m l with
  | (Ok _, l') => writer_ok (l_wr l') /\ sockLocked l' = false /\ sockWait l' = sockWait l
      /\ stream (l_wr l') = stream (l_wr l) ++ bs
      /\ (healthy (l_wr l) -> healthy (l_wr l'))
      /\ (sockWait l = 0 -> sk_sent (w_sock (l_wr l')) = stream (l_wr l) ++ bs)
  | (Err e, l') => w_err (l_wr l') = Some e /\ sockLocked l' = false
      /\ sockWait l' = sockWait l /\ ~ healthy (l_wr l)
      /\ sk_sent (w_sock (l_wr l')) `prefix_of` stream (l_wr l) ++ bs
  | _ => False
  end.

Lemma sent_stream w : w_buf w = [] -> sk_sent (w_sock w) = stream w.
Proof. intros H. unfold stream. by rewrite H, app_nil_r. Qed.

Lemma sendPacket_sends closure bs : emits closure bs -> sends (sendPacket closure) bs.
Proof.
  intros Hc [w k b] Hw Hl Hk. cbn in Hw, Hl, Hk. subst b.
  unfold sendPacket, sendLocked, addWait, lockSock, unlockSock, on_wr, attempt, modify.
  run. rewrite (i32_id (k + 1)) by lia.
  specialize (Hc w Hw). destruct (closure w) as [[a|e|y| |] w1]; try done;
    run; replace (k + 1 + -1) with k by lia; rewrite (i32_id k) by lia.
  - destruct Hc as (Hok & Hs & Hh & Hp). case_test; run; [|splits; auto; lia].
    pose proof (Flush_spec w1 Hok) as HF.
    destruct (Flush w1) as [[?|e2|?| |] w2]; try done; run.
    + destruct HF as (Hok2 & Hb2 & Hs2 & Hh2 & _).
      splits; auto; [congruence|]. intros _. rewrite sent_stream by done. congruence.
    + destruct HF as (He & Hn & _ & Hp2). splits; auto. by rewrite <- Hs.
  - destruct Hc as (He & Hn & _ & Hp). splits; auto.
Qed.

(** ** The packets as data *)

(** What each packet carries, as the relay sees it: a reply has either a result
    or a fault. *)
Inductive OutPacket :=
| OInit (cluster : gostring)
| OClose
| OBroadcast (cluster : gostring) (message : list byte)
| ORequest (id : Z) (cluster : gostring) (request : list byte) (timeout : Z)
| OReply (id : Z) (reply : list byte)
| OFault (id : Z) (fault : gostring)
| OSubscribe (topic : gostring)
| OUnsubscribe (topic : gostring)
| OPublish (topic : gostring) (event : list byte)
| OTunInit (id : Z) (cluster : gostring) (timeout : Z)
| OTunConfirm (buildId tunId : Z)
| OTunAllow (id space : Z)
| OTunTransfer (id sizeOrCont : Z) (payload : list byte)
| OTunClose (id : Z).

(** The bytes of a packet. *)
Definition encode (p : OutPacket) : list byte :=
  match p with
  | OInit c => [opInit] ++ binary clientMagic ++ binary protoVersion ++ binary c
  | OClose => [opClose]
  | OBroadcast c m => [opBroadcast] ++ binary c ++ binary m
  | ORequest id c r t => [opRequest] ++ varint id ++ binary c ++ binary r ++ varint t
  | OReply id r => [opReply] ++ varint id ++ bool_bytes true ++ binary r
  | OFault id f => [opReply] ++ varint id ++ bool_bytes false ++ binary f
  | OSubscribe t => [opSubscribe] ++ binary t
  | OUnsubscribe t => [opUnsubscribe] ++ binary t
  | OPublish t e => [opPublish] ++ binary t ++ binary e
  | OTunInit id c t => [opTunInit] ++ varint id ++ binary c ++ varint t
  | OTunConfirm b t => [opTunConfirm] ++ varint b ++ varint t
  | OTunAllow id s => [opTunAllow] ++ varint id ++ varint s
  | OTunTransfer id s p => [opTunTransfer] ++ varint id ++ varint s ++ binary p
  | OTunClose id => [opTunClose] ++ varint id
  end.

(** Values of the types the fields have in Go: [uint64] numbers, and lengths
    that are [int]s. *)
Definition isu64 (n : Z) : Prop := 0 <= n < 2 ^ 64.

Definition packet_ok (p : OutPacket) : Prop :=
  match p with
  | OInit c => sized c
  | OClose => True
  | OBroadcast c m => sized c /\ sized m
  | ORequest id c r t => isu64 id /\ sized c /\ sized r /\ isu64 t
  | OReply id r => isu64 id /\ sized r
  | OFault id f => isu64 id /\ sized f /\ f <> []
  | OSubscribe t | OUnsubscribe t => sized t
  | OPublish t e => sized t /\ sized e
  | OTunInit id c t => isu64 id /\ sized c /\ isu64 t
  | OTunConfirm b t => isu64 b /\ isu64 t
  | OTunAllow id s => isu64 id /\ isu64 s
  | OTunTransfer id s p => isu64 id /\ isu64 s /\ sized p
  | OTunClose id => isu64 id
  end.

(** The send call that produces a packet. *)
Definition send (p : OutPacket) : M link unit :=
  match p with
  | OInit c => sendInit c
  | OClose => sendClose
  | OBroadcast c m => sendBroadcast c (Some m)
  | ORequest id c r t => sendRequest id c (Some r) (i64 t)
  | OReply id r => sendReply id (Some r) []
  | OFault id f => sendReply id None f
  | OSubscribe t => sendSubscribe t
  | OUnsubscribe t => sendUnsubscribe t
  | OPublish t e => sendPublish t (Some e)
  | OTunInit id c t => sendTunnelInit id c (i64 t)
  | OTunConfirm b t => sendTunnelConfirm b t
  | OTunAllow id s => sendTunnelAllowance id (i64 s)
  | OTunTransfer id s p => sendTunnelTransfer id (i64 s) p
  | OTunClose id => sendTunnelClose id
  end.

(** ** Each send function implements its packet *)

Ltac sends_packet := intros; apply sendPacket_sends; cbn [encode]; eauto 12 with emits go.

Lemma sendInit_sends c : sized c -> sends (sendInit c) (encode (OInit c)).
Proof.
  assert (sized clientMagic /\ sized protoVersion) as [? ?] by done. sends_packet.
Qed.

Lemma sendClose_sends : sends sendClose (encode OClose).
Proof. sends_packet. Qed.

Lemma sendBroadcast_sends c m : sized c -> sized (sbytes m) ->
  sends (sendBroadcast c m) (encode (OBroadcast c (sbytes m))).
Proof. sends_packet. Qed.

Lemma sendRequest_sends id c r t : isu64 id -> sized c -> sized (sbytes r) ->
  sends (sendRequest id c r t) (encode (ORequest id c (sbytes r) (u64 t))).
Proof. sends_packet. Qed.

(** A reply is sent exactly when the fault is the empty string. *)
Lemma sendReply_sends id r f : isu64 id -> sized (sbytes r) -> sized f ->
  sends (sendReply id r f)
    (encode (match f with [] => OReply id (sbytes r) | _ => OFault id f end)).
Proof.
  intros. apply sendPacket_sends.
  assert ((len f =? 0) = match f with [] => true | _ => false end) as ->.
  { destruct f; [done|]. apply Z.eqb_neq. rewrite len_cons. pose proof (len_nonneg f). lia. }
  destruct f; cbn [encode]; eauto 12 with emits.
Qed.

Lemma sendSubscribe_sends t : sized t -> sends (sendSubscribe t) (encode (OSubscribe t)).
Proof. sends_packet. Qed.

Lemma sendUnsubscribe_sends t : sized t -> sends (sendUnsubscribe t) (encode (OUnsubscribe t)).
Proof. sends_packet. Qed.

Lemma sendPublish_sends t e : sized t -> sized (sbytes e) ->
  sends (sendPublish t e) (encode (OPublish t (sbytes e))).
Proof. sends_packet. Qed.

Lemma sendTunnelInit_sends id c t : isu64 id -> sized c ->
  sends (sendTunnelInit id c t) (encode (OTunInit id c (u64 t))).
Proof. sends_packet. Qed.

Lemma sendTunnelConfirm_sends b t : isu64 b -> isu64 t ->
  sends (sendTunnelConfirm b t) (encode (OTunConfirm b t)).
Proof. sends_packet. Qed.

Lemma sendTunnelAllowance_sends id s : isu64 id ->
  sends (sendTunnelAllowance id s) (encode (OTunAllow id (u64 s))).
Proof. sends_packet. Qed.

Lemma sendTunnelTransfer_sends id s p : isu64 id -> sized p ->
  sends (sendTunnelTransfer id s p) (encode (OTunTransfer id (u64 s) p)).
Proof. sends_packet. Qed.

Lemma sendTunnelClose_sends id : isu64 id -> sends (sendTunnelClose id) (encode (OTunClose id)).
Proof. sends_packet. Qed.

#[export] Hint Resolve sendInit_sends sendClose_sends sendBroadcast_sends sendRequest_sends
  sendReply_sends sendSubscribe_sends sendUnsubscribe_sends sendPublish_sends
  sendTunnelInit_sends sendTunnelConfirm_sends sendTunnelAllowance_sends
  sendTunnelTransfer_sends sendTunnelClose_sends : emits.

Lemma u64_i64 n : isu64 n -> u64 (i64 n) = n.
Proof.
  intros Hn. unfold u64, i64, isu64 in *.
  rewrite Zminus_mod_idemp_l. rewrite Z.add_simpl_r. apply Z.mod_small; lia.
Qed.

Lemma send_sends p : packet_ok p -> sends (send p) (encode p).
Proof.
  destruct p; cbn [packet_ok send]; intros; destruct_and?; try (auto with emits; fail).
  - rewrite <- (u64_i64 timeout) at 2 by done. auto with emits.
  - apply (sendReply_sends id (Some reply) []); done.
  - pose proof (sendReply_sends id None fault) as Hs. destruct fault; [congruence|by apply Hs].
  - rewrite <- (u64_i64 timeout) at 2 by done. auto with emits.
  - rewrite <- (u64_i64 space) at 2 by done. auto with emits.
  - rewrite <- (u64_i64 sizeOrCont) at 2 by done. auto with emits.
Qed.

(** ** Reading the stream back *)

Section decoder.
Context `{GoRuntime}.

(** A reference reading of the outbound protocol, made of the binding's own
    decoders: the far end of [send]. *)
Definition decode_out : M reader OutPacket :=
  op ← recvByte;
  match op with
  | x00 => magic ← recvString; version ← recvString; c ← recvString;
           if decide (magic = clientMagic /\ version = protoVersion)
           then mret (OInit c) else fail (ErrorsNew "bad init")
  | x02 => mret OClose
  | x03 => c ← recvString; m ← recvBinary; mret (OBroadcast c m)
  | x04 => id ← recvVarint; c ← recvString; r ← recvBinary; t ← recvVarint;
           mret (ORequest id c r t)
  | x05 => id ← recvVarint; success ← recvBool;
           if success : bool then r ← recvBinary; mret (OReply id r)
           else f ← recvString; mret (OFault id f)
  | x06 => t ← recvString; mret (OSubscribe t)
  | x07 => t ← recvString; mret (OUnsubscribe t)
  | x08 => t ← recvString; e ← recvBinary; mret (OPublish t e)
  | x09 => id ← recvVarint; c ← recvString; t ← recvVarint; mret (OTunInit id c t)
  | x0a => b ← recvVarint; t ← recvVarint; mret (OTunConfirm b t)
  | x0b => id ← recvVarint; s ← recvVarint; mret (OTunAllow id s)
  | x0c => id ← recvVarint; s ← recvVarint; p ← recvBinary; mret (OTunTransfer id s p)
  | x0d => id ← recvVarint; mret (OTunClose id)
  | _ => fail (ErrorsNew "bad opcode")
  end.

(** The blobs of a packet, which the reader must be able to allocate. *)
Definition blobs_fit (p : OutPacket) : Prop :=
  match p with
  | OInit c => fits c /\ fits clientMagic /\ fits protoVersion
  | OClose | OTunConfirm _ _ | OTunAllow _ _ | OTunClose _ => True
  | OBroadcast c m => fits c /\ fits m
  | ORequest _ c r _ => fits c /\ fits r
  | OReply _ r => fits r
  | OFault _ f => fits f
  | OSubscribe t | OUnsubscribe t => fits t
  | OPublish t e => fits t /\ fits e
  | OTunInit _ c _ => fits c
  | OTunTransfer _ _ p => fits p
  end.

(** The last value read may be returned with nothing more consumed. *)
Lemma parses_map {A B} (m : M reader A) (f : A -> B) bs a :
  parses m bs a -> parses (x ← m; mret (f x)) bs (f a).
Proof. intros Hm rest e. by rewrite bind_eq, Hm. Qed.

Ltac parse :=
  repeat (match goal with
  | |- parses (mbind (fun x => mret (@?k x)) _) _ _ => eapply parses_map
  | |- parses (mbind _ _) (_ ++ _) _ => eapply parses_bind; [solve [eauto with wire]|]
  end; cbn beta iota); eauto with wire.

Lemma decode_encode p : packet_ok p -> blobs_fit p -> parses decode_out (encode p) p.
Proof.
  intros Hp Hf. unfold decode_out.
  destruct p; cbn [encode packet_ok blobs_fit] in *; unfold isu64 in *; destruct_and?;
    try (eapply parses_bind; [apply recvByte_parses|cbn]; solve [parse]).
  - eapply parses_bind; [apply recvByte_parses|cbn].
    do 2 (eapply parses_bind; [eauto with wire|cbn beta]).
    rewrite <- (app_nil_r (binary cluster)). eapply parses_bind; [eauto with wire|].
    rewrite decide_True by done. apply parses_ret.
  - change [opClose] with ([opClose] ++ []).
    eapply parses_bind; [apply recvByte_parses|apply parses_ret].
Qed.
End decoder.

(** The largest runtime a length field can address. *)
Program Definition relayRuntime : GoRuntime := {|
  maxAlloc := 2 ^ 63 - 1;
  growcap old need := need;
  NumCPU := 1
|}.
Next Obligation. lia. Qed.
Next Obligation. simpl. lia. Qed.
Next Obligation. lia. Qed.

Lemma packet_blobs p : packet_ok p -> @blobs_fit relayRuntime p.
Proof.
  assert (forall q, sized q -> @fits relayRuntime q) as Hs.
  { intros q. unfold sized, fits. simpl. lia. }
  destruct p; simpl; intros; destruct_and?; auto; splits; auto; by apply Hs.
Qed.

Lemma encode_parses p : packet_ok p -> parses (@decode_out relayRuntime) (encode p) p.
Proof. intros. apply decode_encode; auto using packet_blobs. Qed.

(** Two readings by one parser agree. *)
Lemma parses_inj {A} (m : M reader A) b1 b2 a1 a2 r1 r2 :
  parses m b1 a1 -> parses m b2 a2 -> b1 ++ r1 = b2 ++ r2 -> a1 = a2 /\ r1 = r2.
Proof.
  intros H1 H2 He. specialize (H1 r1 EOF). specialize (H2 r2 EOF).
  rewrite He, H2 in H1. by simplify_eq.
Qed.

Lemma encode_nonempty p : encode p <> [].
Proof. by destruct p. Qed.

(** ** Properties *)

(** C3: every send function, given the lock and a pending count [k], puts the
    bytes of its packet on the stream as one block and nothing else; with no
    other sender pending they have all reached the socket when it returns. It
    fails only if the link fails, and then the relay has seen a prefix of the
    intended stream and the writer accepts nothing more. *)
Theorem send_refines_encode p : packet_ok p -> sends (send p) (encode p).
Proof. apply send_sends. Qed.

Definition idle_link : link := Link (Writer (Socket [] None false) [] None) 0 false.

Lemma send_refines_encode_witness :
  packet_ok (OTunTransfer 7 300 [x01; x02]) /\
  sends (send (OTunTransfer 7 300 [x01; x02])) [x0c; x07; xac; x02; x02; x01; x02].
Proof.
  split; [by vm_compute|].
  exact (send_refines_encode (OTunTransfer 7 300 [x01; x02]) ltac:(by vm_compute)).
Defined.

Lemma encode_all_inj ps qs :
  Forall packet_ok ps -> Forall packet_ok qs ->
  concat (map encode ps) = concat (map encode qs) -> ps = qs.
Proof.
  intros Hp. revert qs. induction Hp as [|p ps Hp1 Hp2 IH]; intros [|q qs] Hq He;
    inversion Hq; subst; simpl in He; auto.
  - symmetry in He. apply app_eq_nil in He as [He _]. by apply encode_nonempty in He.
  - apply app_eq_nil in He as [He _]. by apply encode_nonempty in He.
  - apply (parses_inj (@decode_out relayRuntime) _ _ p q) in He as [-> He];
      auto using encode_parses.
    f_equal. by apply IH.
Qed.

(** Send packets one after the other. *)
Fixpoint send_all (ps : list OutPacket) : M link unit :=
  match ps with
  | [] => mret tt
  | p :: ps => send p;; send_all ps
  end.

Lemma send_all_stream ps l l' : Forall packet_ok ps ->
  writer_ok (l_wr l) -> sockLocked l = false -> 0 <= sockWait l < 2 ^ 31 - 1 ->
  send_all ps l = (Ok tt, l') -> stream (l_wr l') = stream (l_wr l) ++ concat (map encode ps).
Proof.
  intros Hp. revert l. induction Hp as [|p ps Hp1 Hp2 IH]; intros l Hw Hl Hk Hs.
  - injection Hs as ->. by rewrite app_nil_r.
  - simpl in Hs. rewrite bind_eq in Hs. pose proof (send_sends p Hp1 l Hw Hl Hk) as H1.
    destruct (send p l) as [[[]|?|?| |] l1]; try done.
    destruct H1 as (Hw1 & Hl1 & Hk1 & Hs1 & _).
    rewrite (IH l1) by (done || congruence). simpl. by rewrite Hs1, <- app_assoc.
Qed.

(** The outbound stream is uniquely decodable: when two runs of send calls
    from one state leave the same stream, they were the same calls with the same
    arguments. A reader of the stream can never mistake one message for another
    or find a packet boundary elsewhere. *)
Theorem stream_unambiguous ps qs l l1 l2 :
  Forall packet_ok ps -> Forall packet_ok qs ->
  writer_ok (l_wr l) -> sockLocked l = false -> 0 <= sockWait l < 2 ^ 31 - 1 ->
  send_all ps l = (Ok tt, l1) -> send_all qs l = (Ok tt, l2) ->
  stream (l_wr l1) = stream (l_wr l2) -> ps = qs.
Proof.
  intros Hp Hq Hw Hl Hk H1 H2 He. apply encode_all_inj; auto.
  eapply app_inv_head. rewrite <- (send_all_stream ps l l1), <- (send_all_stream qs l l2); eauto.
Qed.

Definition sample_link : link :=
  Link (Writer (Socket [x02; x0d; xc8; x01] None false) [] None) 0 false.

Lemma stream_unambiguous_witness :
  send_all [OClose; OTunClose 200] idle_link = (Ok tt, sample_link) /\
  [OClose; OTunClose 200] = [OClose; OTunClose 200].
Proof.
  split; [by vm_compute|].
  apply (stream_unambiguous [OClose; OTunClose 200] [OClose; OTunClose 200]
    idle_link sample_link sample_link).
  - repeat constructor; vm_compute; congruence.
  - repeat constructor; vm_compute; congruence.
  - exact fresh_writer_ok.
  - reflexivity.
  - vm_compute. split; congruence.
  - by vm_compute.
  - by vm_compute.
  - reflexivity.
Defined.
