(* ===== verification/Receiver.v ===== *)
(** * Inbound packets and the receive loop (proto.go, the proc functions)

    The decoding of every packet the relay sends, the loop of [process], and the
    interface through which the loop reaches the event handlers: what the loop
    guarantees is proved for any handlers, Events.v provides the binding's. *)

From Stdlib Require Import ZArith Lia Strings.Byte Strings.String.
From stdpp Require Import base gmap strings list.
From S2P Require Import Prelude Bufio Wire Packets.

Open Scope Z_scope.

(** ** The interface to the event handlers *)

(** What [process] calls on the connection, over the connection's state [S]: the
    handlers of events.go (two of them started as goroutines of their own) and
    the four actions that follow the loop. *)
Class Handlers (S : Type) := {
  handleBroadcast : list byte -> M S unit;
  handleRequest : Z -> list byte -> Z -> M S unit;
  handleReply : Z -> slice -> gostring -> M S unit;
  go_handlePublish : gostring -> list byte -> M S unit;
  handleTunnelInit : Z -> Z -> M S unit;
  handleTunnelResult : Z -> Z -> M S unit;
  handleTunnelAllowance : Z -> Z -> M S unit;
  handleTunnelTransfer : Z -> Z -> list byte -> M S unit;
  go_handleTunnelClose : Z -> gostring -> M S unit;
  sockClose : M S unit;
  closeTerm : M S unit;
  handleClose : option error -> M S unit;
  syncQuit : option error -> M S unit
}.

(** The state of the receiver goroutine: the unread input and the connection. *)
Record rstate (S : Type) := RS { r_in : reader; r_st : S }.
Arguments RS {S} r_in r_st.
Arguments r_in {S} r.
Arguments r_st {S} r.

Definition on_in {S A} (m : M reader A) : M (rstate S) A := λ r,
  let '(o, i) := m (r_in r) in (o, RS i (r_st r)).

Definition on_st {S A} (m : M S A) : M (rstate S) A := λ r,
  let '(o, s) := m (r_st r) in (o, RS (r_in r) s).

(** [time.Duration(timeout)*time.Millisecond]. *)
Definition duration_ms (timeout : Z) : Z := i64 (i64 timeout * 1000000).

Section receiver.
Context `{GoRuntime} {S : Type} `{Handlers S}.

Definition procInit : M reader gostring :=
  op ← recvByte;
  (if decide (op = opInit \/ op = opDeny)
   then magic ← recvString;
        if decide (magic <> relayMagic)
        then fail (Errorf "protocol violation: invalid relay magic: %s" (FBytes magic))
        else mret tt
   else fail (Errorf "protocol violation: invalid init response opcode: %v" (FNum (b2z op))));;
  if decide (op = opInit) then recvString
  else if decide (op = opDeny)
  then reason ← recvString; fail (Errorf "connection denied: %s" (FBytes reason))
  else panic "unreachable code".

Definition procClose : M reader gostring := recvString.

Definition procBroadcast : M (rstate S) unit :=
  message ← on_in recvBinary;
  on_st (handleBroadcast message).

Definition procRequest : M (rstate S) unit :=
  id ← on_in recvVarint;
  request ← on_in recvBinary;
  timeout ← on_in recvVarint;
  on_st (handleRequest id request (duration_ms timeout)).

Definition procReply : M (rstate S) unit :=
  id ← on_in recvVarint;
  timeout ← on_in recvBool;
  if timeout : bool then on_st (handleReply id None [])
  else
    success ← on_in recvBool;
    if success : bool
    then reply ← on_in recvBinary; on_st (handleReply id (Some reply) [])
    else fault ← on_in recvString; on_st (handleReply id None fault).

Definition procPublish : M (rstate S) unit :=
  topic ← on_in recvString;
  event ← on_in recvBinary;
  on_st (go_handlePublish topic event).

Definition procTunnelInit : M (rstate S) unit :=
  id ← on_in recvVarint;
  chunkLimit ← on_in recvVarint;
  on_st (handleTunnelInit id (i64 chunkLimit)).

Definition procTunnelResult : M (rstate S) unit :=
  id ← on_in recvVarint;
  timeout ← on_in recvBool;
  if timeout : bool then on_st (handleTunnelResult id 0)
  else
    chunkLimit ← on_in recvVarint;
    on_st (handleTunnelResult id (i64 chunkLimit)).

Definition procTunnelAllowance : M (rstate S) unit :=
  id ← on_in recvVarint;
  space ← on_in recvVarint;
  on_st (handleTunnelAllowance id (i64 space)).

Definition procTunnelTransfer : M (rstate S) unit :=
  id ← on_in recvVarint;
  size ← on_in recvVarint;
  payload ← on_in recvBinary;
  on_st (handleTunnelTransfer id (i64 size) payload).

Definition procTunnelClose : M (rstate S) unit :=
  id ← on_in recvVarint;
  reason ← on_in recvString;
  on_st (go_handleTunnelClose id reason).

(** The body of the switch of [process]: whether the relay closed. *)
Definition procPacket (op : byte) : M (rstate S) bool :=
  if decide (op = opBroadcast) then procBroadcast;; mret false
  else if decide (op = opRequest) then procRequest;; mret false
  else if decide (op = opReply) then procReply;; mret false
  else if decide (op = opPublish) then procPublish;; mret false
  else if decide (op = opTunInit) then procTunnelInit;; mret false
  else if decide (op = opTunConfirm) then procTunnelResult;; mret false
  else if decide (op = opTunAllow) then procTunnelAllowance;; mret false
  else if decide (op = opTunTransfer) then procTunnelTransfer;; mret false
  else if decide (op = opTunClose) then procTunnelClose;; mret false
  else if decide (op = opClose) then
    reason ← on_in procClose;
    if 0 <? len reason then fail (Errorf "connection dropped: %s" (FBytes reason))
    else mret true
  else fail (Errorf "protocol violation: unknown opcode: %v" (FNum (b2z op))).

(** The loop: [None] when the relay closed, the error otherwise. *)
Fixpoint process_loop (fuel : nat) : M (rstate S) (option error) :=
  match fuel with
  | O => diverge
  | Datatypes.S fuel =>
      o ← attempt (on_in recvByte);
      match o with
      | inl err => mret (Some err)
      | inr op =>
          r ← attempt (procPacket op);
          match r with
          | inl err => mret (Some err)
          | inr true => mret None
          | inr false => process_loop fuel
          end
      end
  end.

(** Every turn of the loop takes at least the opcode off the input. *)
Definition process : M (rstate S) unit := λ r,
  (err ← process_loop (Datatypes.S (length (rd_data (r_in r))));
   on_st (sockClose;; closeTerm;; handleClose err;; syncQuit err)) r.

End receiver.

(** ** The packets as data *)

(** Every message of the inbound protocol but the closing one. *)
Inductive InPacket :=
| IBroadcast (message : list byte)
| IRequest (id : Z) (request : list byte) (timeout : Z)
| ITimeout (id : Z)
| IReply (id : Z) (reply : list byte)
| IFault (id : Z) (fault : gostring)
| IPublish (topic : gostring) (event : list byte)
| ITunInit (id chunkLimit : Z)
| ITunTimeout (id : Z)
| ITunResult (id chunkLimit : Z)
| ITunAllow (id space : Z)
| ITunTransfer (id size : Z) (payload : list byte)
| ITunClose (id : Z) (reason : gostring).

(** The bytes the relay sends for it. *)
Definition encode_in (p : InPacket) : list byte :=
  match p with
  | IBroadcast m => [opBroadcast] ++ binary m
  | IRequest id r t => [opRequest] ++ varint id ++ binary r ++ varint t
  | ITimeout id => [opReply] ++ varint id ++ bool_bytes true
  | IReply id r => [opReply] ++ varint id ++ bool_bytes false ++ bool_bytes true ++ binary r
  | IFault id f => [opReply] ++ varint id ++ bool_bytes false ++ bool_bytes false ++ binary f
  | IPublish t e => [opPublish] ++ binary t ++ binary e
  | ITunInit id c => [opTunInit] ++ varint id ++ varint c
  | ITunTimeout id => [opTunConfirm] ++ varint id ++ bool_bytes true
  | ITunResult id c => [opTunConfirm] ++ varint id ++ bool_bytes false ++ varint c
  | ITunAllow id s => [opTunAllow] ++ varint id ++ varint s
  | ITunTransfer id s p => [opTunTransfer] ++ varint id ++ varint s ++ binary p
  | ITunClose id r => [opTunClose] ++ varint id ++ binary r
  end.

(** The final message, with the reason for the closure. *)
Definition encode_close (reason : gostring) : list byte := [opClose] ++ binary reason.

Section packets.
Context `{GoRuntime} {S : Type} `{Handlers S}.

(** The handler call a packet stands for. *)
Definition deliver (p : InPacket) : M S unit :=
  match p with
  | IBroadcast m => handleBroadcast m
  | IRequest id r t => handleRequest id r (duration_ms t)
  | ITimeout id => handleReply id None []
  | IReply id r => handleReply id (Some r) []
  | IFault id f => handleReply id None f
  | IPublish t e => go_handlePublish t e
  | ITunInit id c => handleTunnelInit id (i64 c)
  | ITunTimeout id => handleTunnelResult id 0
  | ITunResult id c => handleTunnelResult id (i64 c)
  | ITunAllow id s => handleTunnelAllowance id (i64 s)
  | ITunTransfer id s p => handleTunnelTransfer id (i64 s) p
  | ITunClose id r => go_handleTunnelClose id r
  end.

Fixpoint deliver_all (ps : list InPacket) : M S unit :=
  match ps with
  | [] => mret tt
  | p :: ps => deliver p;; deliver_all ps
  end.

(** Numbers in range and blobs that can be allocated. *)
Definition in_ok (p : InPacket) : Prop :=
  match p with
  | IBroadcast m => fits m
  | IRequest id r t => isu64 id /\ fits r /\ isu64 t
  | ITimeout id | ITunTimeout id => isu64 id
  | IReply id r => isu64 id /\ fits r
  | IFault id f => isu64 id /\ fits f
  | IPublish t e => fits t /\ fits e
  | ITunInit id c | ITunResult id c => isu64 id /\ isu64 c
  | ITunAllow id s => isu64 id /\ isu64 s
  | ITunTransfer id s p => isu64 id /\ isu64 s /\ fits p
  | ITunClose id r => isu64 id /\ fits r
  end.

(** ** What receiver code makes of its input *)

(** [m] reads exactly [bs] and then does [h] on the connection; on input that
    stops inside [bs] it returns an error and leaves the connection alone. *)
Definition serves {A} (m : M (rstate S) A) (bs : list byte) (h : M S A) : Prop :=
  (forall rest e s, m (RS (Reader (bs ++ rest) e) s) = on_st h (RS (Reader rest e) s)) /\
  (forall cut tl e s, bs = cut ++ tl -> tl <> [] ->
     exists err r, m (RS (Reader cut e) s) = (Err err, RS r s)).

Lemma serves_st {A} (h : M S A) : serves (on_st h) [] h.
Proof.
  split; [done|]. intros cut tl e s Hc Ht. symmetry in Hc.
  by apply app_eq_nil in Hc as [_ ?].
Qed.

Lemma serves_read {A B} (m : M reader A) (k : A -> M (rstate S) B) b1 b2 a h :
  parses m b1 a -> rejects_cut m b1 -> serves (k a) b2 h ->
  serves (x ← on_in m; k x) (b1 ++ b2) h.
Proof.
  intros Hp Hc [Hk Hkc]. split.
  - intros rest e s. rewrite bind_eq. unfold on_in. simpl. rewrite <- app_assoc, Hp. apply Hk.
  - intros cut tl e s Hb Ht. rewrite bind_eq. unfold on_in. simpl.
    apply app_cut in Hb as [(t & -> & Hn)|(c & -> & ->)].
    + destruct (Hc cut t e) as (err & r & ->); eauto.
    + rewrite Hp. eapply Hkc; eauto.
Qed.

(** The last read of a packet, nothing following it. *)
Lemma serves_last {A B} (m : M reader A) (k : A -> M S B) bs a :
  parses m bs a -> rejects_cut m bs ->
  serves (x ← on_in m; on_st (k x)) bs (k a).
Proof.
  intros Hp Hc. rewrite <- (app_nil_r bs).
  eapply serves_read; eauto. apply serves_st.
Qed.

Ltac serve :=
  repeat (match goal with
  | |- serves (mbind (fun x => on_st (@?k x)) _) _ _ => eapply (serves_last _ k)
  | |- serves (mbind _ _) (_ ++ _) _ =>
      eapply serves_read; [solve [eauto with wire]|solve [eauto with wire]|]
  end; cbn beta iota); eauto with wire.

(** Each packet is served by the case of its opcode. *)
Lemma procPacket_serves p : in_ok p ->
  exists op bs, encode_in p = op :: bs /\
    exists proc : M (rstate S) unit,
      procPacket op = (proc;; mret false) /\ serves proc bs (deliver p).
Proof.
  intros Hp. destruct p; cbn [encode_in in_ok deliver app] in *; unfold isu64 in *; destruct_and?;
    do 2 eexists; (split; [reflexivity|]); eexists; (split; [reflexivity|]).
  - unfold procBroadcast. serve.
  - unfold procRequest. serve.
  - unfold procReply. serve. rewrite <- (app_nil_r (bool_bytes _)). serve. apply serves_st.
  - unfold procReply. serve.
  - unfold procReply. serve.
  - unfold procPublish. serve.
  - unfold procTunnelInit. serve.
  - unfold procTunnelResult. serve. rewrite <- (app_nil_r (bool_bytes _)). serve. apply serves_st.
  - unfold procTunnelResult. serve.
  - unfold procTunnelAllowance. serve.
  - unfold procTunnelTransfer. serve.
  - unfold procTunnelClose. serve.
Qed.

(** ** The loop *)

(** Handlers return no error in Go: a computation that never ends with one. *)
Definition no_error {A} (m : M S A) : Prop := forall s e s', m s <> (Err e, s').

Lemma on_st_eq {A} (h : M S A) i s : on_st h (RS i s) = (fst (h s), RS i (snd (h s))).
Proof. unfold on_st. simpl. by destruct (h s). Qed.

Lemma loop_S fuel r : process_loop (Datatypes.S fuel) r =
  (o ← attempt (on_in recvByte);
   match o with
   | inl err => mret (Some err)
   | inr op => r ← attempt (procPacket op);
       match r with
       | inl err => mret (Some err)
       | inr true => mret None
       | inr false => process_loop fuel
       end
   end) r.
Proof. done. Qed.

(** One turn on a packet: its handler runs and the loop goes on behind it. *)
Lemma loop_packet p fuel rest e s : in_ok p -> no_error (deliver p) ->
  process_loop (Datatypes.S fuel) (RS (Reader (encode_in p ++ rest) e) s) =
  match deliver p s with
  | (Ok _, s') => process_loop fuel (RS (Reader rest e) s')
  | (Err err, s') => (Ok (Some err), RS (Reader rest e) s')
  | (Panic w, s') => (Panic w, RS (Reader rest e) s')
  | (Block, s') => (Block, RS (Reader rest e) s')
  | (Diverge, s') => (Diverge, RS (Reader rest e) s')
  end.
Proof.
  intros Hp Hn. destruct (procPacket_serves p Hp) as (op & bs & Eb & proc & Ep & [Hs _]).
  rewrite loop_S, Eb. unfold on_in, recvByte, ReadByte, attempt. run. rewrite Ep. run.
  rewrite Hs, on_st_eq. by destruct (deliver p s) as [[[]|?|?| |] s'].
Qed.

(** One turn on a packet that breaks off: no handler runs, the loop ends. *)
Lemma loop_cut p cut tl fuel e s : in_ok p -> encode_in p = cut ++ tl -> cut <> [] -> tl <> [] ->
  exists err i, process_loop (Datatypes.S fuel) (RS (Reader cut e) s) = (Ok (Some err), RS i s).
Proof.
  intros Hp Hc Hn Ht. destruct (procPacket_serves p Hp) as (op & bs & Eb & proc & Ep & [_ Hs]).
  destruct cut as [|b cut]; [done|]. rewrite Eb in Hc. injection Hc as <- ->.
  destruct (Hs cut tl e s eq_refl Ht) as (err & r & Hr). exists err, r.
  rewrite loop_S. unfold on_in, recvByte, ReadByte, attempt. run. rewrite Ep. run. by rewrite Hr.
Qed.

Lemma loop_eof fuel e s :
  process_loop (Datatypes.S fuel) (RS (Reader [] e) s) = (Ok (Some e), RS (Reader [] e) s).
Proof. done. Qed.

Lemma loop_close reason fuel rest e s : fits reason ->
  process_loop (Datatypes.S fuel) (RS (Reader (encode_close reason ++ rest) e) s) =
  (Ok (match reason with [] => None | _ => Some (Errorf "connection dropped: %s" (FBytes reason)) end),
   RS (Reader rest e) s).
Proof.
  intros Hf. rewrite loop_S. unfold on_in, recvByte, ReadByte, attempt. run.
  unfold procPacket. do 9 (rewrite decide_False by done). rewrite decide_True by done.
  unfold on_in. run. unfold procClose. rewrite (recvString_parses reason Hf).
  destruct reason as [|b reason]; [done|]. rewrite (proj2 (Z.ltb_lt _ _)); [done|].
  rewrite len_cons. pose proof (len_nonneg reason). lia.
Qed.

(** Receiver code only consumes input, at least the opcode in a turn. *)
Definition consumes {A} (m : M (rstate S) A) : Prop :=
  forall r, (length (rd_data (r_in (snd (m r)))) <= length (rd_data (r_in r)))%nat.

Lemma consumes_bind {A B} (m : M (rstate S) A) (k : A -> M (rstate S) B) :
  consumes m -> (forall a, consumes (k a)) -> consumes (x ← m; k x).
Proof.
  intros Hm Hk r. rewrite bind_eq. specialize (Hm r).
  destruct (m r) as [[a|?|?| |] r1]; simpl in *; try done.
  specialize (Hk a r1). lia.
Qed.

Lemma consumes_in {A} (m : M reader A) : forward m -> consumes (on_in m).
Proof.
  intros Hm [i s]. destruct (Hm i) as (u & Hu & _). unfold on_in. simpl.
  destruct (m i) as [o i']. simpl in *. rewrite Hu, length_app. lia.
Qed.

Lemma consumes_st {A} (h : M S A) : consumes (on_st h).
Proof. intros [i s]. rewrite on_st_eq. simpl. lia. Qed.

Lemma consumes_const {A} (o : outcome A) : consumes (λ r, (o, r)).
Proof. by intros r. Qed.

Lemma consumes_if {A} (b : bool) (m k : M (rstate S) A) :
  consumes m -> consumes k -> consumes (if b then m else k).
Proof. by destruct b. Qed.

Lemma consumes_decide {A} P `{Decision P} (m k : M (rstate S) A) :
  consumes m -> consumes k -> consumes (if decide P then m else k).
Proof. by case_decide. Qed.

Lemma procPacket_consumes op : consumes (procPacket op).
Proof.
  unfold procPacket, procBroadcast, procRequest, procReply, procPublish, procTunnelInit,
    procTunnelResult, procTunnelAllowance, procTunnelTransfer, procTunnelClose, procClose.
  repeat first
    [ apply consumes_decide | apply consumes_if | apply consumes_bind; [|intros ?]
    | apply consumes_st | apply consumes_in; solve [auto with wire; apply forward_recvBinary]
    | apply consumes_const ].
Qed.

(** Code that finishes, whatever the outcome. *)
Definition settles {S' A} (m : M S' A) : Prop := forall r, fst (m r) <> Diverge.

Lemma settles_bind {S' A B} (m : M S' A) (k : A -> M S' B) :
  settles m -> (forall a, settles (k a)) -> settles (x ← m; k x).
Proof.
  intros Hm Hk r. rewrite bind_eq. specialize (Hm r).
  destruct (m r) as [[a|?|?| |] r1]; simpl in *; try done. apply Hk.
Qed.

Lemma settles_in {A} (m : M reader A) : settles m -> settles (on_in (S := S) m).
Proof. intros Hm [i s]. specialize (Hm i). unfold on_in. simpl. by destruct (m i). Qed.

Lemma settles_st {A} (h : M S A) : settles h -> settles (on_st h).
Proof. intros Hh [i s]. rewrite on_st_eq. apply Hh. Qed.

Lemma settles_const {S' A} (o : outcome A) : o <> Diverge -> settles (λ r : S', (o, r)).
Proof. by intros Ho r. Qed.

Lemma settles_if {S' A} (b : bool) (m k : M S' A) :
  settles m -> settles k -> settles (if b then m else k).
Proof. by destruct b. Qed.

Lemma settles_decide {S' A} P `{Decision P} (m k : M S' A) :
  settles m -> settles k -> settles (if decide P then m else k).
Proof. by case_decide. Qed.

Lemma settles_recvByte : settles recvByte.
Proof. by intros [[|] e]. Qed.

Lemma settles_recvBool : settles recvBool.
Proof. apply settles_bind; [apply settles_recvByte|]. by intros [] r. Qed.

Lemma settles_recvVarint : settles recvVarint.
Proof.
  intros [d e]. unfold recvVarint. simpl. generalize 0 at 1; generalize 0.
  induction d as [|b d IH]; intros num i; [done|]. simpl. case_test; [done|]. apply IH.
Qed.

Lemma settles_recvBinary : settles recvBinary.
Proof.
  apply settles_bind; [apply settles_recvVarint|]. intros n. apply settles_if; [done|].
  intros r. unfold ReadFull. by case_test.
Qed.

Lemma procPacket_settles op : (forall p, settles (deliver p)) -> settles (procPacket op).
Proof.
  intros Hd. unfold procPacket, procBroadcast, procRequest, procReply, procPublish,
    procTunnelInit, procTunnelResult, procTunnelAllowance, procTunnelTransfer,
    procTunnelClose, procClose.
  repeat first
    [ apply settles_decide | apply settles_if | apply settles_bind; [|intros ?]
    | apply settles_in; first [apply settles_recvBinary|apply settles_recvVarint|apply settles_recvBool]
    | by apply settles_const
    | apply settles_st ].
  - apply (Hd (IBroadcast _)).
  - apply (Hd (IRequest _ _ _)).
  - apply (Hd (ITimeout _)).
  - apply (Hd (IReply _ _)).
  - apply (Hd (IFault _ _)).
  - apply (Hd (IPublish _ _)).
  - apply (Hd (ITunInit _ _)).
  - apply (Hd (ITunTimeout _)).
  - apply (Hd (ITunResult _ _)).
  - apply (Hd (ITunAllow _ _)).
  - apply (Hd (ITunTransfer _ _ _)).
  - apply (Hd (ITunClose _ _)).
Qed.

(** Enough fuel for the input is enough fuel. *)
Lemma loop_settles fuel r : (forall p, settles (deliver p)) ->
  (length (rd_data (r_in r)) < fuel)%nat -> fst (process_loop fuel r) <> Diverge.
Proof.
  intros Hd. revert r. induction fuel as [|fuel IH]; intros [[d e] s] Hf; [simpl in Hf; lia|].
  rewrite loop_S. destruct d as [|op d]; [done|]. unfold on_in, recvByte, ReadByte, attempt. run.
  set (r1 := RS (Reader d e) s).
  pose proof (procPacket_settles op Hd r1) as Hs. pose proof (procPacket_consumes op r1) as Hc.
  destruct (procPacket op r1) as [[[]|?|?| |] r2]; simpl in *; try done.
  apply IH. simpl in Hf. lia.
Qed.

(** Any two sufficient amounts of fuel agree. *)
Lemma loop_fuel fuel fuel' r :
  (length (rd_data (r_in r)) < fuel)%nat -> (length (rd_data (r_in r)) < fuel')%nat ->
  process_loop fuel r = process_loop fuel' r.
Proof.
  revert fuel' r. induction fuel as [|fuel IH]; intros [|fuel'] [[d e] s] Hf Hf'; simpl in *;
    try lia.
  destruct d as [|op d]; [done|]. unfold on_in, recvByte, ReadByte, attempt. run.
  set (r1 := RS (Reader d e) s). pose proof (procPacket_consumes op r1) as Hc.
  destruct (procPacket op r1) as [[[]|?|?| |] r2]; simpl in *; try done.
  apply IH; lia.
Qed.

(** A run of packets: their handlers in the order of arrival, each on the state
    the one before left, until one of them does not return. *)
Lemma loop_packets ps fuel tail e s : Forall in_ok ps -> (forall p, no_error (deliver p)) ->
  let r := RS (Reader (concat (map encode_in ps) ++ tail) e) s in
  match deliver_all ps s with
  | (Ok _, s') => process_loop (length ps + fuel) r = process_loop fuel (RS (Reader tail e) s')
  | (Err _, _) => False
  | (Panic w, s') => exists i, process_loop (length ps + fuel) r = (Panic w, RS i s')
  | (Block, s') => exists i, process_loop (length ps + fuel) r = (Block, RS i s')
  | (Diverge, s') => exists i, process_loop (length ps + fuel) r = (Diverge, RS i s')
  end.
Proof.
  intros Hp Hn. revert s. induction Hp as [|p ps Hp1 Hp2 IH]; intros s; [done|]. cbn zeta.
  simpl deliver_all. rewrite bind_eq. simpl concat. rewrite <- app_assoc.
  change (length (p :: ps) + fuel)%nat with (Datatypes.S (length ps + fuel)).
  rewrite loop_packet by done. pose proof (Hn p s) as Hn1.
  destruct (deliver p s) as [[[]|err|?| |] s1]; eauto; [apply IH|]. by apply (Hn1 err s1).
Qed.
End packets.

(** ** Properties *)

(** A log of the calls, as handlers to run the loop against. *)
Inductive logged :=
| LCall (p : InPacket)
| LSockClose
| LTerm
| LClose (reason : option error)
| LQuit (reason : option error).

Definition log (x : logged) : M (list logged) unit := modify (λ l, l ++ [x]).

Definition log_handlers : Handlers (list logged) := {|
  handleBroadcast m := log (LCall (IBroadcast m));
  handleRequest id r t := log (LCall (IRequest id r t));
  handleReply id r f := log (LCall match r with Some r => IReply id r | None => IFault id f end);
  go_handlePublish t e := log (LCall (IPublish t e));
  handleTunnelInit id c := log (LCall (ITunInit id c));
  handleTunnelResult id c := log (LCall (ITunResult id c));
  handleTunnelAllowance id s := log (LCall (ITunAllow id s));
  handleTunnelTransfer id s p := log (LCall (ITunTransfer id s p));
  go_handleTunnelClose id r := log (LCall (ITunClose id r));
  sockClose := log LSockClose;
  closeTerm := log LTerm;
  handleClose e := log (LClose e);
  syncQuit e := log (LQuit e)
|}.

Section properties.
Context `{GoRuntime} {S : Type} `{Handlers S}.

(** The four actions after the loop. *)
Definition shutdown (err : option error) : M S unit :=
  sockClose;; closeTerm;; handleClose err;; syncQuit err.

(** A run of packets that all get handled, and then something that ends the loop. *)
Lemma process_packets ps tail s s' e err i :
  Forall in_ok ps -> (forall p, no_error (deliver p)) -> deliver_all ps s = (Ok tt, s') ->
  process_loop (Datatypes.S (length tail)) (RS (Reader tail e) s') = (Ok err, RS i s') ->
  process (RS (Reader (concat (map encode_in ps) ++ tail) e) s) = on_st (shutdown err) (RS i s').
Proof.
  intros Hp Hn Hd Hl. set (fuel := Datatypes.S (length tail + length (concat (map encode_in ps)))).
  pose proof (loop_packets ps fuel tail e s Hp Hn) as Hps. cbn zeta in Hps. rewrite Hd in Hps.
  unfold process. rewrite bind_eq. cbn [r_in rd_data].
  rewrite (loop_fuel _ (length ps + fuel)) by (cbn [r_in rd_data]; rewrite ?length_app; unfold fuel; lia).
  rewrite Hps, (loop_fuel _ (Datatypes.S (length tail))) by (cbn [r_in rd_data]; unfold fuel; lia).
  by rewrite Hl.
Qed.

(** C4: a session of any packets ended by a graceful closure runs the handler
    of each packet in the order of arrival, on the values that were sent, and
    then shuts the connection down with no error; what follows the closure is
    never read. *)
Theorem process_delivers ps s s' rest e :
  Forall in_ok ps -> (forall p, no_error (deliver p)) ->
  deliver_all ps s = (Ok tt, s') ->
  process (RS (Reader (concat (map encode_in ps) ++ encode_close [] ++ rest) e) s)
  = on_st (shutdown None) (RS (Reader rest e) s').
Proof.
  intros Hp Hn Hd. eapply process_packets; [done..|].
  by rewrite loop_close by apply maxAlloc_int.
Qed.

(** A packet that breaks off anywhere is never delivered, whole or in part:
    the handlers of the packets before it have run, its own has not, and the
    connection shuts down with an error. *)
Theorem process_truncated ps p cut tl s s' e :
  Forall in_ok ps -> in_ok p -> (forall q, no_error (deliver q)) ->
  deliver_all ps s = (Ok tt, s') -> encode_in p = cut ++ tl -> tl <> [] ->
  exists err i, process (RS (Reader (concat (map encode_in ps) ++ cut) e) s)
    = on_st (shutdown (Some err)) (RS i s').
Proof.
  intros Hp Hp1 Hn Hd Hc Ht.
  assert (exists err i, process_loop (Datatypes.S (length cut)) (RS (Reader cut e) s') = (Ok (Some err), RS i s'))
    as (err & i & Hl).
  { destruct cut as [|b cut]; [do 2 eexists; apply loop_eof|]. by eapply loop_cut. }
  exists err, i. by eapply process_packets.
Qed.

(** C29: the receiver goroutine terminates on every finite input, however
    malformed: if the handlers return, block or panic, so does [process]; no
    input makes the loop spin. *)
Theorem process_terminates r :
  (forall p, settles (deliver p)) -> (forall err, settles (shutdown err)) ->
  fst (process r) <> Diverge.
Proof.
  intros Hd Hs. unfold process. rewrite bind_eq.
  pose proof (loop_settles (Datatypes.S (length (rd_data (r_in r)))) r Hd) as Hl.
  destruct (process_loop _ r) as [[err|?|?| |] r1]; simpl in *; try done.
  - apply (settles_st (shutdown err)), Hs.
  - intros _. by apply Hl; [lia|].
Qed.

(** The handshake. [procInit] returns a version exactly when the relay
    answered with the init opcode and the relay's magic; a denial and a wrong
    magic or opcode are errors, and the case marked unreachable is. *)
Theorem procInit_spec r :
  match procInit r with
  | (Ok version, r') => exists d r1, rd_data r = opInit :: d
      /\ recvString (Reader d (rd_end r)) = (Ok relayMagic, r1)
      /\ recvString r1 = (Ok version, r')
  | (Err _, _) => True
  | (Panic why, _) => why = "makeslice: len out of range"%string
  | _ => False
  end.
Proof.
  destruct r as [[|op d] e]; [done|]. unfold procInit, recvByte, ReadByte. run.
  case_decide as Hop; [|done]. run.
  pose proof (recvBinary_outcome (Reader d e)) as Hm.
  change recvBinary with recvString in Hm.
  destruct (recvString (Reader d e)) as [[magic|?|?| |] r1] eqn:Em; try done.
  case_decide as Hmg; [done|]. run. case_decide as Hi; [subst op|].
  - pose proof (recvBinary_outcome r1) as Hv. change recvBinary with recvString in Hv. destruct (recvString r1) as [[v|?|?| |] r2] eqn:Ev; try done.
    exists d, r1. splits; auto. rewrite Em. do 2 f_equal.
    destruct (decide (magic = relayMagic)); [done|]. by destruct Hmg.
  - rewrite decide_True by tauto. run. pose proof (recvBinary_outcome r1) as Hv. change recvBinary with recvString in Hv.
    by destruct (recvString r1) as [[v|?|?| |] r2].
Qed.

(** A length field is trusted before anything is read: any length above
    the largest allocation crashes the whole process, though the relay has sent
    no more than a dozen bytes. *)
Theorem oversized_length_crashes n rest e s : maxAlloc < n < 2 ^ 64 ->
  process (RS (Reader ([opBroadcast] ++ varint n ++ rest) e) s)
  = (Panic "makeslice: len out of range", RS (Reader rest e) s).
Proof.
  intros Hn. unfold process. rewrite bind_eq, loop_S.
  unfold on_in, recvByte, ReadByte, attempt. run.
  unfold procPacket, procBroadcast. rewrite decide_True by done. unfold on_in. run.
  by rewrite recvBinary_panics.
Qed.
End properties.

(** A short session: one broadcast, one empty reply, one chunk. *)
Definition sample_session : list InPacket :=
  [IBroadcast [x61]; IReply 5 []; ITunTransfer 0 3 [x62; x63; x64]].

Lemma sample_session_ok : Forall (@in_ok amd64) sample_session.
Proof. repeat constructor; vm_compute; congruence. Qed.

Lemma log_no_error p : no_error (@deliver _ log_handlers p).
Proof. by destruct p. Qed.

Lemma log_settles p : settles (@deliver _ log_handlers p).
Proof. by destruct p. Qed.

Lemma process_delivers_witness :
  @process amd64 _ log_handlers
    (RS (Reader (concat (map encode_in sample_session) ++ encode_close [] ++ [xff]) EOF) [])
  = (Ok tt, RS (Reader [xff] EOF)
       (map LCall sample_session ++ [LSockClose; LTerm; LClose None; LQuit None])).
Proof.
  rewrite (@process_delivers amd64 _ log_handlers sample_session []
    (map LCall sample_session) [xff] EOF).
  - reflexivity.
  - exact sample_session_ok.
  - exact log_no_error.
  - reflexivity.
Defined.

Lemma process_truncated_witness :
  exists err i, @process amd64 _ log_handlers
    (RS (Reader (concat (map encode_in [IBroadcast [x61]]) ++ [x03; x02; x61]) EOF) [])
  = @on_st _ _ (@shutdown _ log_handlers (Some err)) (RS i [LCall (IBroadcast [x61])]).
Proof.
  apply (@process_truncated amd64 _ log_handlers [IBroadcast [x61]] (IBroadcast [x61; x62])
    [x03; x02; x61] [x62] [] [LCall (IBroadcast [x61])] EOF).
  - repeat constructor; vm_compute; congruence.
  - vm_compute; congruence.
  - exact log_no_error.
  - reflexivity.
  - reflexivity.
  - discriminate.
Defined.

Lemma process_terminates_witness :
  fst (@process amd64 _ log_handlers (RS (Reader (repeat xff 30) EOF) [])) <> Diverge.
Proof.
  apply (@process_terminates amd64 _ log_handlers).
  - exact log_settles.
  - intros err l. discriminate.
Defined.

Lemma oversized_length_crashes_witness :
  2 ^ 48 < 2 ^ 63 < 2 ^ 64 /\
  @process amd64 _ log_handlers (RS (Reader ([opBroadcast] ++ varint (2 ^ 63) ++ []) EOF) [])
  = (Panic "makeslice: len out of range", RS (Reader [] EOF) []).
Proof.
  split; [lia|]. apply (@oversized_length_crashes amd64 _ log_handlers (2 ^ 63) [] EOF []).
  simpl. lia.
Defined.
