(* ===== verification/Sender.v ===== *)
(** * Concurrent senders (proto.go, sendPacket)

    Any number of goroutines sending at once: the steps of [sendPacket] between
    which others can run, their interleavings, and what the lock and the counter
    of pending writes guarantee about the stream. *)

From Stdlib Require Import ZArith Lia Strings.Byte Strings.String.
From stdpp Require Import base gmap strings list.
From S2P Require Import Prelude Bufio Wire Packets.

Open Scope Z_scope.

(** ** Goroutines *)

(** Where a goroutine stands in [sendPacket]. *)
Inductive sp_pc :=
| SPStart                          (* before the counter is incremented *)
| SPBlocked                        (* before Lock *)
| SPHeld                           (* lock held, closure not run *)
| SPWritten                        (* closure returned nil *)
| SPFailed (e : error)             (* closure returned an error *)
| SPFlush                          (* the counter dropped to zero *)
| SPUnlock (r : option error)      (* before the deferred Unlock *)
| SPDone (r : option error).

#[export] Instance sp_pc_eq_dec : EqDecision sp_pc.
Proof. solve_decision. Defined.

(** One step of the goroutine with packet closure [code], by the operations
    [sendPacket] is made of. *)
Definition sp_next (code : M writer unit) (pc : sp_pc) (l : link) : option (sp_pc * link) :=
  match pc with
  | SPStart => Some (SPBlocked, snd (addWait 1 l))
  | SPBlocked =>
      match lockSock l with
      | (Ok _, l') => Some (SPHeld, l')
      | _ => None
      end
  | SPHeld =>
      match on_wr code l with
      | (Ok _, l') => Some (SPWritten, l')
      | (Err e, l') => Some (SPFailed e, l')
      | _ => None
      end
  | SPWritten =>
      match addWait (-1) l with
      | (Ok n, l') => Some (if n =? 0 then SPFlush else SPUnlock None, l')
      | _ => None
      end
  | SPFailed e => Some (SPUnlock (Some e), snd (addWait (-1) l))
  | SPFlush =>
      match on_wr Flush l with
      | (Ok _, l') => Some (SPUnlock None, l')
      | (Err e, l') => Some (SPUnlock (Some e), l')
      | _ => None
      end
  | SPUnlock r => Some (SPDone r, snd (unlockSock l))
  | SPDone _ => None
  end.

(** Run one goroutine alone for [n] steps. *)
Fixpoint sp_run (code : M writer unit) (n : nat) (pc : sp_pc) (l : link) : sp_pc * link :=
  match n with
  | O => (pc, l)
  | S n => match sp_next code pc l with
           | Some (pc', l') => sp_run code n pc' l'
           | None => (pc, l)
           end
  end.

(** A packet to send: its code and the bytes it stands for. *)
Record job := Job { j_code : M writer unit; j_bytes : list byte }.

Definition job_ok (j : job) : Prop := emits (j_code j) (j_bytes j) /\ sticky (j_code j).

(** The goroutines, the link they share, and the order in which their closures
    have run (for the specification only). *)
Record senders := Senders { s_link : link; s_pcs : list sp_pc; s_order : list nat }.

Inductive sp_step (jobs : list job) : senders -> senders -> Prop :=
| sp_step_intro l pcs order i j pc pc' l' :
    jobs !! i = Some j -> pcs !! i = Some pc -> sp_next (j_code j) pc l = Some (pc', l') ->
    sp_step jobs (Senders l pcs order)
      (Senders l' (<[i := pc']> pcs) (if decide (pc = SPHeld) then order ++ [i] else order)).

Definition sp_init (l : link) (jobs : list job) : senders :=
  Senders l (repeat SPStart (length jobs)) [].

(** ** The sequential function is one of the schedules *)

Lemma sp_run_sendPacket code l r l' : sockLocked l = false ->
  sendPacket code l = (r, l') -> (r = Ok tt \/ exists e, r = Err e) ->
  sp_run code 7 SPStart l = (SPDone (match r with Err e => Some e | _ => None end), l').
Proof.
  intros Hl Hs Hr. destruct l as [w k b]. simpl in Hl. subst b. revert Hs.
  cbn [sp_run]. unfold sp_next, sendPacket, sendLocked, attempt, addWait, lockSock, unlockSock, on_wr, modify. run.
  destruct (code w) as [[a|e|?| |] w1]; run; intros Hs.
  2: by simplify_eq.
  2-4: simplify_eq; by destruct Hr as [|[? ?]].
  revert Hs. case_test; run; [|intros; by simplify_eq].
  destruct (Flush w1) as [[?|?|?| |] w2]; run; intros; simplify_eq; try done;
    by destruct Hr as [|[? ?]].
Qed.

(** ** Invariant *)

(** Counted as pending, inside the critical section, past its closure. *)
Definition pending (pc : sp_pc) : bool :=
  match pc with SPBlocked | SPHeld | SPWritten | SPFailed _ => true | _ => false end.
Definition inside (pc : sp_pc) : bool :=
  match pc with SPHeld | SPWritten | SPFailed _ | SPFlush | SPUnlock _ => true | _ => false end.
Definition ran (pc : sp_pc) : bool :=
  match pc with SPStart | SPBlocked | SPHeld => false | _ => true end.
Definition flushing (pc : sp_pc) : bool :=
  match pc with SPFlush => true | _ => false end.

(** The bytes of the jobs of a list of goroutines, one after the other. *)
Definition bytes_of (jobs : list job) (order : list nat) : list byte :=
  concat (map (fun i => match jobs !! i with Some j => j_bytes j | None => [] end) order).

Record sp_inv (base : list byte) (jobs : list job) (s : senders) : Prop := {
  spi_len : length (s_pcs s) = length jobs;
  spi_wait : sockWait (s_link s) = countb pending (s_pcs s);
  spi_lock : countb inside (s_pcs s) = Z.b2z (sockLocked (s_link s));
  spi_nodup : NoDup (s_order s);
  spi_order : forall i, i ∈ s_order s <-> exists pc, s_pcs s !! i = Some pc /\ ran pc = true;
  spi_failed : forall i e, s_pcs s !! i = Some (SPFailed e) -> w_err (l_wr (s_link s)) <> None;
  spi_stream :
    match w_err (l_wr (s_link s)) with
    | None => writer_ok (l_wr (s_link s))
        /\ stream (l_wr (s_link s)) = base ++ bytes_of jobs (s_order s)
        /\ (w_buf (l_wr (s_link s)) = [] \/ 0 < countb pending (s_pcs s)
            \/ 0 < countb flushing (s_pcs s))
    | Some _ => exists order, order `prefix_of` s_order s
        /\ sk_sent (w_sock (l_wr (s_link s))) `prefix_of` base ++ bytes_of jobs order
    end
}.

Lemma bytes_of_app jobs o1 o2 : bytes_of jobs (o1 ++ o2) = bytes_of jobs o1 ++ bytes_of jobs o2.
Proof. unfold bytes_of. by rewrite map_app, concat_app. Qed.

Lemma bytes_of_one jobs i j : jobs !! i = Some j -> bytes_of jobs [i] = j_bytes j.
Proof. intros H. unfold bytes_of. simpl. by rewrite H, app_nil_r. Qed.

(** A step that does not run a closure keeps the record of those that have. *)
Lemma order_keep (pcs : list sp_pc) (i : nat) pc pc' (order : list nat) :
  pcs !! i = Some pc -> ran pc' = ran pc ->
  (forall k, k ∈ order <-> exists q, pcs !! k = Some q /\ ran q = true) ->
  forall k, k ∈ order <-> exists q, <[i := pc']> pcs !! k = Some q /\ ran q = true.
Proof.
  intros Hi Hr Ho k. rewrite Ho. destruct (decide (k = i)) as [->|Hn].
  - rewrite list_lookup_insert_eq by (by eapply lookup_lt_Some). split.
    + intros (q & Hq & ?). exists pc'. split; [done|]. congruence.
    + intros (q & Hq & ?). exists pc. split; [done|]. congruence.
  - by rewrite list_lookup_insert_ne.
Qed.

Lemma order_add (pcs : list sp_pc) (i : nat) pc pc' (order : list nat) :
  pcs !! i = Some pc -> ran pc = false -> ran pc' = true ->
  (forall k, k ∈ order <-> exists q, pcs !! k = Some q /\ ran q = true) ->
  (forall k, k ∈ order ++ [i] <-> exists q, <[i := pc']> pcs !! k = Some q /\ ran q = true)
  /\ i ∉ order.
Proof.
  intros Hi Hr Hr' Ho. split.
  - intros k. rewrite elem_of_app, Ho, list_elem_of_singleton.
    destruct (decide (k = i)) as [->|Hn].
    + rewrite list_lookup_insert_eq by (by eapply lookup_lt_Some). naive_solver.
    + rewrite list_lookup_insert_ne by done. naive_solver.
  - rewrite Ho. intros (q & Hq & ?). congruence.
Qed.

(** No step clears a pending error. *)
Lemma failed_keep (pcs : list sp_pc) (i : nat) pc' (err err' : option error) :
  (forall k e, pcs !! k = Some (SPFailed e) -> err <> None) ->
  (err <> None -> err' <> None) -> (forall e, pc' = SPFailed e -> err' <> None) ->
  forall k e, <[i := pc']> pcs !! k = Some (SPFailed e) -> err' <> None.
Proof.
  intros Hf Hm Hn k e Hk. apply list_lookup_insert_Some in Hk as [(-> & -> & _)|[_ Hk]]; eauto.
Qed.

(** The critical section admits one goroutine. *)
Lemma inside_only s base jobs i pc : sp_inv base jobs s -> s_pcs s !! i = Some pc ->
  inside pc = true -> sockLocked (s_link s) = true.
Proof.
  intros Hi Hp Hin. pose proof (countb_lookup inside _ _ _ Hp Hin).
  pose proof (spi_lock _ _ _ Hi). destruct (sockLocked (s_link s)); [done|]. simpl in *. lia.
Qed.

Ltac count_insert Hp :=
  rewrite ?(countb_insert pending _ _ _ _ Hp), ?(countb_insert inside _ _ _ _ Hp),
    ?(countb_insert flushing _ _ _ _ Hp); simpl.

(** Buffered bytes have someone left to flush them. *)
Ltac pend Hb := destruct Hb as [?|[?|?]]; [by left|right; left; lia|right; right; lia].

(** The counter, as long as the goroutines fit an [int32]. *)
Lemma wait_range base jobs s : sp_inv base jobs s -> len jobs < 2 ^ 31 - 1 ->
  0 <= sockWait (s_link s) < 2 ^ 31 - 1.
Proof.
  intros Hi Hj. rewrite (spi_wait _ _ _ Hi). pose proof (countb_nonneg pending (s_pcs s)) as H.
  unfold len in *. rewrite (spi_len _ _ _ Hi) in H. lia.
Qed.

Section preservation.
Context (base : list byte) (jobs : list job).
Hypothesis jobs_ok : Forall job_ok jobs.
Hypothesis jobs_few : len jobs < 2 ^ 31 - 1.

(** The invariant with the goroutine [i] of the state singled out. *)
Local Abbreviation inv := (sp_inv base jobs).

Lemma keep_start l pcs order i : inv (Senders l pcs order) -> pcs !! i = Some SPStart ->
  inv (Senders (snd (addWait 1 l)) (<[i := SPBlocked]> pcs) order).
Proof.
  intros Hi Hp. pose proof (wait_range _ _ _ Hi jobs_few) as Hw. simpl in Hw.
  destruct Hi as [Hlen Hwait Hlock Hnd Ho Hf Hs]. simpl in *.
  split; simpl; try done.
  - by rewrite length_insert.
  - count_insert Hp. rewrite i32_id by lia. lia.
  - count_insert Hp. lia.
  - by eapply order_keep.
  - by eapply failed_keep.
  - count_insert Hp. destruct (w_err (l_wr l)); [done|]. destruct Hs as (? & ? & Hb).
    splits; auto. pose proof (countb_nonneg pending pcs). pend Hb.
Qed.

Lemma keep_lock l l' pcs order i : inv (Senders l pcs order) -> pcs !! i = Some SPBlocked ->
  lockSock l = (Ok tt, l') -> inv (Senders l' (<[i := SPHeld]> pcs) order).
Proof.
  intros Hi Hp Hl. unfold lockSock in Hl. destruct (sockLocked l) eqn:E; simplify_eq.
  destruct Hi as [Hlen Hwait Hlock Hnd Ho Hf Hs]. simpl in *. rewrite E in Hlock. simpl in Hlock.
  split; simpl; try done.
  - by rewrite length_insert.
  - count_insert Hp. lia.
  - count_insert Hp. lia.
  - by eapply order_keep.
  - by eapply failed_keep.
  - count_insert Hp. destruct (w_err (l_wr l)); [done|]. destruct Hs as (? & ? & Hb).
    splits; auto. pend Hb.
Qed.

Lemma keep_run l pcs order i j : inv (Senders l pcs order) -> pcs !! i = Some SPHeld ->
  jobs !! i = Some j ->
  match on_wr (j_code j) l with
  | (Ok _, l') => inv (Senders l' (<[i := SPWritten]> pcs) (order ++ [i]))
  | (Err e, l') => inv (Senders l' (<[i := SPFailed e]> pcs) (order ++ [i]))
  | _ => False
  end.
Proof.
  intros Hi Hp Hj. destruct Hi as [Hlen Hwait Hlock Hnd Ho Hf Hs]. simpl in *.
  assert (job_ok j) as [Hem Hst] by (by eapply Forall_lookup_1).
  assert (forall pc', ran pc' = true -> pending pc' = true -> inside pc' = true ->
    flushing pc' = false -> forall w',
    (w_err (l_wr l) <> None -> w_err w' <> None) ->
    (forall e, pc' = SPFailed e -> w_err w' <> None) -> match w_err w' with
      | None => writer_ok w' /\ stream w' = base ++ bytes_of jobs (order ++ [i])
      | Some _ => exists o, o `prefix_of` order ++ [i]
          /\ sk_sent (w_sock w') `prefix_of` base ++ bytes_of jobs o end ->
    inv (Senders (Link w' (sockWait l) (sockLocked l)) (<[i := pc']> pcs) (order ++ [i]))) as Hk.
  { intros pc' Hr Hpd Hins Hfl w' Hf1 Hf2 Hw.
    destruct (order_add pcs i SPHeld pc' order Hp eq_refl Hr Ho) as [Ho' Hni].
    split; simpl; try done.
    - by rewrite length_insert.
    - rewrite (countb_insert _ _ _ _ _ Hp), Hpd. simpl. lia.
    - rewrite (countb_insert _ _ _ _ _ Hp), Hins. simpl. lia.
    - apply NoDup_app. splits; auto; [|apply NoDup_singleton]. set_solver.
    - by eapply failed_keep.
    - destruct (w_err w'); [done|]. destruct Hw as [? ?]. splits; auto. right. left.
      eapply (Z.lt_le_trans _ 1); [lia|]. eapply (countb_lookup _ _ i pc'); [|done].
      rewrite list_lookup_insert_eq; [done|]. by eapply lookup_lt_Some. }
  unfold on_wr. destruct (w_err (l_wr l)) as [e|] eqn:E.
  - rewrite (Hst _ _ E). apply Hk; try done; rewrite E; try done.
    destruct Hs as (o & Ho1 & Ho2). exists o. split; [|done]. by apply prefix_app_r.
  - destruct Hs as (Hok & Hstr & _). specialize (Hem _ Hok).
    rewrite Hstr, <- app_assoc in Hem. rewrite <- (bytes_of_one jobs i j Hj), <- bytes_of_app in Hem.
    destruct (j_code j (l_wr l)) as [[a|e|?| |] w']; try done.
    + destruct Hem as (Hok' & Hs' & _). apply Hk; try done. by rewrite (wok_err _ Hok').
    + destruct Hem as (He & _ & _ & Hpre). apply Hk; try done; rewrite He; eauto.
Qed.

Lemma keep_written l l' n pcs order i : inv (Senders l pcs order) ->
  pcs !! i = Some SPWritten -> addWait (-1) l = (Ok n, l') ->
  inv (Senders l' (<[i := if n =? 0 then SPFlush else SPUnlock None]> pcs) order).
Proof.
  intros Hi Hp Ha. unfold addWait in Ha. simplify_eq.
  pose proof (wait_range _ _ _ Hi jobs_few) as Hw. simpl in Hw.
  destruct Hi as [Hlen Hwait Hlock Hnd Ho Hf Hs]. simpl in *.
  pose proof (countb_lookup pending _ _ _ Hp eq_refl). rewrite i32_id by lia.
  split; simpl; try done.
  - by rewrite length_insert.
  - count_insert Hp. case_test; simpl; lia.
  - count_insert Hp. case_test; simpl; lia.
  - eapply order_keep; [done| |done]. by case_test.
  - eapply failed_keep; try done; by case_test.
  - count_insert Hp. destruct (w_err (l_wr l)); [done|]. destruct Hs as (? & ? & Hb).
    splits; auto. pose proof (countb_nonneg flushing pcs).
    case_test; simpl; [right; right; lia|right; left; lia].
Qed.

Lemma keep_failed l e pcs order i : inv (Senders l pcs order) -> pcs !! i = Some (SPFailed e) ->
  w_err (l_wr l) <> None ->
  inv (Senders (snd (addWait (-1) l)) (<[i := SPUnlock (Some e)]> pcs) order).
Proof.
  intros Hi Hp He. pose proof (wait_range _ _ _ Hi jobs_few) as Hw. simpl in Hw.
  destruct Hi as [Hlen Hwait Hlock Hnd Ho Hf Hs]. simpl in *.
  pose proof (countb_lookup pending _ _ _ Hp eq_refl).
  split; simpl; try done.
  - by rewrite length_insert.
  - count_insert Hp. rewrite i32_id by lia. lia.
  - count_insert Hp. lia.
  - by eapply order_keep.
  - by destruct (w_err (l_wr l)).
Qed.

Lemma keep_flush l pcs order i : inv (Senders l pcs order) -> pcs !! i = Some SPFlush ->
  match on_wr Flush l with
  | (Ok _, l') => inv (Senders l' (<[i := SPUnlock None]> pcs) order)
  | (Err e, l') => inv (Senders l' (<[i := SPUnlock (Some e)]> pcs) order)
  | _ => False
  end.
Proof.
  intros Hi Hp. destruct Hi as [Hlen Hwait Hlock Hnd Ho Hf Hs]. simpl in *.
  assert (forall r w', (w_err (l_wr l) <> None -> w_err w' <> None) -> match w_err w' with
      | None => writer_ok w' /\ stream w' = base ++ bytes_of jobs order /\ w_buf w' = []
      | Some _ => exists o, o `prefix_of` order
          /\ sk_sent (w_sock w') `prefix_of` base ++ bytes_of jobs o end ->
    inv (Senders (Link w' (sockWait l) (sockLocked l)) (<[i := SPUnlock r]> pcs) order)) as Hk.
  { intros r w' Hf1 Hw. split; simpl; try done.
    - by rewrite length_insert.
    - count_insert Hp. lia.
    - count_insert Hp. lia.
    - by eapply order_keep.
    - eapply failed_keep; eauto; done.
    - destruct (w_err w'); [done|]. destruct Hw as (? & ? & ?). splits; auto. }
  unfold on_wr. destruct (w_err (l_wr l)) as [e|] eqn:E.
  - rewrite (Flush_sticky _ _ E). apply Hk; by rewrite E.
  - destruct Hs as (Hok & Hstr & _). pose proof (Flush_spec _ Hok) as HF.
    rewrite Hstr in HF. destruct (Flush (l_wr l)) as [[a|e|?| |] w']; try done; apply Hk; try done.
    + destruct HF as (Hok' & ? & ? & _). by rewrite (wok_err _ Hok').
    + destruct HF as (-> & _ & _ & ?). by exists order.
Qed.

Lemma keep_unlock l r pcs order i : inv (Senders l pcs order) -> pcs !! i = Some (SPUnlock r) ->
  inv (Senders (snd (unlockSock l)) (<[i := SPDone r]> pcs) order).
Proof.
  intros Hi Hp. pose proof (inside_only _ _ _ _ _ Hi Hp eq_refl) as Hl. simpl in Hl.
  destruct Hi as [Hlen Hwait Hlock Hnd Ho Hf Hs]. simpl in *. rewrite Hl in Hlock. simpl in Hlock.
  split; simpl; try done.
  - by rewrite length_insert.
  - count_insert Hp. lia.
  - count_insert Hp. lia.
  - by eapply order_keep.
  - by eapply failed_keep.
  - count_insert Hp. destruct (w_err (l_wr l)); [done|]. destruct Hs as (? & ? & Hb).
    splits; auto. pend Hb.
Qed.

(** Every step of every goroutine keeps the invariant. *)
Lemma sp_step_inv s s' : inv s -> sp_step jobs s s' -> inv s'.
Proof.
  intros Hi Hst. destruct Hst as [l pcs order i j pc pc' l' Hj Hp Hn].
  destruct pc; unfold sp_next in Hn;
    try rewrite decide_False by done; try rewrite decide_True by done.
  - simplify_eq. by apply keep_start.
  - destruct (lockSock l) as [[[]|?|?| |] l1] eqn:E; simplify_eq. by eapply keep_lock.
  - pose proof (keep_run _ _ _ _ _ Hi Hp Hj) as Hk.
    by destruct (on_wr (j_code j) l) as [[?|?|?| |] l1]; simplify_eq.
  - destruct (addWait (-1) l) as [[n|?|?| |] l1] eqn:E; simplify_eq. by eapply keep_written.
  - simplify_eq. apply keep_failed; auto. by eapply (spi_failed _ _ _ Hi).
  - pose proof (keep_flush _ _ _ _ Hi Hp) as Hk.
    by destruct (on_wr Flush l) as [[?|?|?| |] l1]; simplify_eq.
  - simplify_eq. by apply keep_unlock.
  - done.
Qed.

Lemma sp_init_inv w : writer_ok w -> w_buf w = [] -> stream w = base ->
  inv (sp_init (Link w 0 false) jobs).
Proof.
  intros Hok Hb Hs.
  assert (forall f, f SPStart = false -> countb f (repeat SPStart (length jobs)) = 0) as Hc.
  { intros f Hf. generalize (length jobs). intros n. induction n as [|n IH]; [done|].
    simpl. by rewrite Hf, IH. }
  assert (forall (i : nat) pc, repeat SPStart (length jobs) !! i = Some pc -> pc = SPStart) as Hl.
  { intros i pc Hi. apply list_elem_of_lookup_2, list_elem_of_In, repeat_spec in Hi. done. }
  split; simpl.
  - by rewrite repeat_length.
  - by rewrite Hc.
  - by rewrite Hc.
  - apply NoDup_nil_2.
  - intros i. split; [set_solver|]. intros (pc & Hi & Hr). by apply Hl in Hi as ->.
  - intros i e Hi. by apply Hl in Hi.
  - rewrite (wok_err _ Hok). splits; auto. unfold bytes_of. simpl. by rewrite app_nil_r.
Qed.

Lemma sp_reach_inv w s : writer_ok w -> w_buf w = [] -> stream w = base ->
  reach (sp_step jobs) (sp_init (Link w 0 false) jobs) s -> inv s.
Proof.
  intros Hok Hb Hs Hr. eapply reach_invariant; [|intros ??; apply sp_step_inv|exact Hr].
  by apply sp_init_inv.
Qed.
End preservation.

(** ** Running a schedule *)

(** Let the goroutines of the list run one step each, in its order. *)
Definition sp_exec1 (jobs : list job) (i : nat) (s : senders) : option senders :=
  j ← jobs !! i;
  pc ← s_pcs s !! i;
  '(pc', l') ← sp_next (j_code j) pc (s_link s);
  Some (Senders l' (<[i := pc']> (s_pcs s))
         (if decide (pc = SPHeld) then s_order s ++ [i] else s_order s)).

Fixpoint sp_exec (jobs : list job) (sched : list nat) (s : senders) : option senders :=
  match sched with
  | [] => Some s
  | i :: sched => s' ← sp_exec1 jobs i s; sp_exec jobs sched s'
  end.

Lemma sp_exec_reach jobs sched s s' : sp_exec jobs sched s = Some s' -> reach (sp_step jobs) s s'.
Proof.
  revert s. induction sched as [|i sched IH]; intros s He; simplify_eq/=; [apply reach_refl|].
  destruct (sp_exec1 jobs i s) as [s1|] eqn:E; [|done]. simpl in He.
  eapply reach_trans; [apply reach_one|by apply IH].
  unfold sp_exec1 in E. destruct s as [l pcs order]. simpl in E.
  destruct (jobs !! i) as [j|] eqn:Ej; [|done]. destruct (pcs !! i) as [pc|] eqn:Ep; [|done].
  simpl in E. destruct (sp_next (j_code j) pc l) as [[pc' l']|] eqn:En; simplify_eq/=.
  by econstructor.
Qed.

(** ** Properties *)

Definition all_done (s : senders) : Prop :=
  forall i pc, s_pcs s !! i = Some pc -> exists r, pc = SPDone r.

Lemma all_done_count s f : all_done s -> (forall r, f (SPDone r) = false) -> countb f (s_pcs s) = 0.
Proof.
  intros Hd Hf. destruct (Z.lt_ge_cases 0 (countb f (s_pcs s))) as [H|H].
  - apply countb_pos in H as (i & pc & Hp & Hpc). apply Hd in Hp as [r ->]. by rewrite Hf in Hpc.
  - pose proof (countb_nonneg f (s_pcs s)). lia.
Qed.

(** When all senders have returned every closure has run, once. *)
Lemma all_done_order base jobs s : sp_inv base jobs s -> all_done s -> s_order s ≡ₚ seq 0 (length jobs).
Proof.
  intros [Hlen _ _ Hnd Ho _ _] Hd. apply NoDup_Permutation; [done|apply NoDup_seq|].
  intros i. rewrite Ho, elem_of_seq, <- Hlen. split.
  - intros (pc & Hp & _). apply lookup_lt_Some in Hp. lia.
  - intros Hi. destruct (lookup_lt_is_Some_2 (s_pcs s) i) as [pc Hp]; [lia|].
    exists pc. split; [done|]. by destruct (Hd _ _ Hp) as [r ->].
Qed.

(** However any number of senders interleave, when all of them have returned and no
    write failed, every byte has reached the socket: batching the flushes loses none. *)
Lemma quiescent_flushed base jobs s : sp_inv base jobs s -> all_done s ->
  w_err (l_wr (s_link s)) = None ->
  w_buf (l_wr (s_link s)) = [] /\ sk_sent (w_sock (l_wr (s_link s))) = base ++ bytes_of jobs (s_order s).
Proof.
  intros [_ _ _ _ _ _ Hs] Hd He. rewrite He in Hs. destruct Hs as (_ & Hs & Hbuf).
  rewrite !(all_done_count _ _ Hd) in Hbuf by done.
  assert (w_buf (l_wr (s_link s)) = []) as Hb' by (destruct Hbuf as [?|[?|?]]; [done|lia|lia]).
  split; [done|]. by rewrite (sent_stream _ Hb').
Qed.

(** *** Against sending one after the other *)

(** The packets of the goroutines [order] sent by [sendPacket], one call after the other. *)
Fixpoint send_jobs (jobs : list job) (order : list nat) : M link unit :=
  match order with
  | [] => mret tt
  | i :: order => match jobs !! i with
                  | Some j => sendPacket (j_code j);; send_jobs jobs order
                  | None => mret tt
                  end
  end.

(** A link that does not fail, with nobody sending and nothing buffered. *)
Definition settled (sent : list byte) : link := Link (Writer (Socket sent None false) [] None) 0 false.

Lemma settled_eq l : w_err (l_wr l) = None -> healthy (l_wr l) -> w_buf (l_wr l) = [] ->
  sockWait l = 0 -> sockLocked l = false -> l = settled (sk_sent (w_sock (l_wr l))).
Proof.
  destruct l as [[[sent room closed] buf err] k b]. unfold healthy. simpl. by intros -> [-> ->] -> -> ->.
Qed.

Lemma sendPacket_settled code bs sent : emits code bs ->
  sendPacket code (settled sent) = (Ok tt, settled (sent ++ bs)).
Proof.
  intros Hc. assert (writer_ok (l_wr (settled sent))) as Hok by (split; [done|simpl; lia]).
  pose proof (sendPacket_sends code bs Hc (settled sent) Hok eq_refl ltac:(simpl; lia)) as Hs.
  destruct (sendPacket code (settled sent)) as [[[]|e|?| |] l']; try done.
  - destruct Hs as ([He _] & Hlk & Hwt & Hst & Hh & Hsent). specialize (Hsent eq_refl).
    rewrite (settled_eq l'); [by rewrite Hsent; unfold stream; rewrite app_nil_r|done|by apply Hh| |done|done].
    unfold stream in Hst, Hsent. rewrite Hsent in Hst.
    apply (f_equal length) in Hst. rewrite !length_app in Hst. apply length_zero_iff_nil. lia.
  - by destruct Hs as (_ & _ & _ & [] & _).
Qed.

Lemma send_jobs_settled jobs order sent : Forall job_ok jobs -> Forall (λ i, (i < length jobs)%nat) order ->
  send_jobs jobs order (settled sent) = (Ok tt, settled (sent ++ bytes_of jobs order)).
Proof.
  intros Hj Ho. revert sent. induction Ho as [|i order Hi Ho IH]; intros sent.
  - by rewrite app_nil_r.
  - destruct (lookup_lt_is_Some_2 jobs i Hi) as [j Ej]. simpl. rewrite Ej, bind_eq.
    rewrite (sendPacket_settled _ (j_bytes j)) by apply (Forall_lookup_1 _ _ _ _ Hj Ej).
    rewrite IH, <- app_assoc. unfold bytes_of. simpl. by rewrite Ej.
Qed.

(** On a link that does not fail nobody fails. *)
Definition unfailed (pc : sp_pc) : Prop :=
  match pc with SPFailed _ | SPUnlock (Some _) | SPDone (Some _) => False | _ => True end.

Definition sound_link (s : senders) : Prop :=
  healthy (l_wr (s_link s)) /\ w_err (l_wr (s_link s)) = None /\ Forall unfailed (s_pcs s).

Lemma sound_link_step base jobs s s' : Forall job_ok jobs -> sp_inv base jobs s -> sound_link s ->
  sp_step jobs s s' -> sound_link s'.
Proof.
  intros Hjs Hi (Hh & He & Hf) Hst. destruct Hst as [l pcs order i j pc pc' l' Hj Hp Hn].
  simpl in *. pose proof (Forall_lookup_1 _ _ _ _ Hf Hp) as Hpc.
  pose proof (spi_stream _ _ _ Hi) as Hs. simpl in Hs. rewrite He in Hs. destruct Hs as (Hok & _ & _).
  assert (healthy (l_wr l') /\ w_err (l_wr l') = None /\ unfailed pc') as (? & ? & ?);
    [|split_and!; [done..|by apply Forall_insert]].
  destruct pc as [| | | |e| |r|]; unfold sp_next in Hn.
  - by simplify_eq.
  - unfold lockSock in Hn. by destruct (sockLocked l); simplify_eq.
  - pose proof (Forall_lookup_1 _ _ _ _ Hjs Hj) as [Hem _]. specialize (Hem _ Hok). unfold on_wr in Hn.
    destruct (j_code j (l_wr l)) as [[?|?|?| |] w']; try done; simplify_eq.
    + destruct Hem as ([? _] & _ & ? & _). simpl. auto.
    + by destruct Hem as (_ & ? & _).
  - unfold addWait in Hn. simplify_eq. split_and!; [done..|]. by case_test.
  - done.
  - pose proof (Flush_spec _ Hok) as HF. unfold on_wr in Hn.
    destruct (Flush (l_wr l)) as [[?|?|?| |] w']; try done; simplify_eq.
    + destruct HF as ([? _] & _ & _ & ? & _). simpl. auto.
    + by destruct HF as (_ & ? & _).
  - unfold unlockSock in Hn. simplify_eq. split_and!; [done..|]. by destruct r.
  - done.
Qed.

(** C12: concurrent senders are linearizable: on a link that does not fail, however any
    number of goroutines interleave in [sendPacket], when all have returned they have
    all returned [nil], and the link - the bytes on the socket, the empty buffer, the
    counter and the lock - is what the same calls leave when they are made one after
    the other, in the order in which they got the lock. *)
Theorem senders_linearizable jobs w s :
  Forall job_ok jobs -> len jobs < 2 ^ 31 - 1 -> writer_ok w -> w_buf w = [] -> healthy w ->
  reach (sp_step jobs) (sp_init (Link w 0 false) jobs) s -> all_done s ->
  Forall (λ pc, pc = SPDone None) (s_pcs s) /\
  exists order, order ≡ₚ seq 0 (length jobs) /\
    send_jobs jobs order (Link w 0 false) = (Ok tt, s_link s).
Proof.
  intros Hj Hn Hok Hb Hh Hr Hd.
  assert (sp_inv (stream w) jobs s /\ sound_link s) as [Hi (Hh' & He & Hf)].
  { eapply (reach_invariant _ (λ s, sp_inv (stream w) jobs s /\ sound_link s)); [| |exact Hr].
    - split; [by apply sp_init_inv|]. split; [done|]. split; [apply Hok|]. simpl.
      apply Forall_forall. intros pc Hpc%list_elem_of_In%repeat_spec. by subst.
    - intros s1 s2 [Hi Hs] Hst. split; [by eapply sp_step_inv|by eapply sound_link_step]. }
  pose proof (all_done_order _ _ _ Hi Hd) as Hperm. split.
  - apply Forall_forall. intros pc [k Hk]%list_elem_of_lookup_1.
    destruct (Hd _ _ Hk) as [[e|] ->]; [|done]. by destruct (Forall_lookup_1 _ _ _ _ Hf Hk).
  - exists (s_order s). split; [done|].
    destruct (quiescent_flushed _ _ _ Hi Hd He) as [Hb' Hs].
    rewrite (settled_eq (s_link s) He Hh' Hb'), Hs.
    + rewrite (settled_eq (Link w 0 false)) by (try done; apply Hok). rewrite send_jobs_settled; [|done|].
      * simpl. by rewrite (sent_stream w Hb).
      * apply Forall_forall. intros i. rewrite Hperm, elem_of_seq. lia.
    + rewrite (spi_wait _ _ _ Hi). by apply (all_done_count _ _ Hd).
    + pose proof (spi_lock _ _ _ Hi) as Hl. rewrite (all_done_count _ _ Hd) in Hl by done.
      by destruct (sockLocked (s_link s)).
Qed.

(** At every moment, failures included, what the socket has received is a
    prefix of whole packets of distinct senders, one after the other: packets of
    concurrent senders never mix. *)
Theorem socket_never_mixes jobs w s :
  Forall job_ok jobs -> len jobs < 2 ^ 31 - 1 -> writer_ok w -> w_buf w = [] ->
  reach (sp_step jobs) (sp_init (Link w 0 false) jobs) s ->
  exists order, NoDup order /\
    sk_sent (w_sock (l_wr (s_link s))) `prefix_of` sk_sent (w_sock w) ++ bytes_of jobs order.
Proof.
  intros Hj Hn Hok Hb Hr.
  pose proof (sp_reach_inv (stream w) jobs Hj Hn w s Hok Hb eq_refl Hr) as [_ _ _ Hnd _ _ Hs].
  rewrite (sent_stream w Hb). destruct (w_err (l_wr (s_link s))).
  - destruct Hs as (o & Ho & ?). exists o. split; [|done].
    destruct Ho as [k Hk]. rewrite Hk in Hnd. by apply NoDup_app in Hnd as [? _].
  - destruct Hs as (_ & Hs & _). exists (s_order s). split; [done|]. rewrite <- Hs.
    apply sent_prefix_stream.
Qed.

(** What a goroutine still has to do, in steps. *)
Definition sp_left (pc : sp_pc) : nat :=
  match pc with
  | SPStart => 6 | SPBlocked => 5 | SPHeld => 4 | SPWritten => 3 | SPFailed _ => 2
  | SPFlush => 2 | SPUnlock _ => 1 | SPDone _ => 0
  end.

Definition sp_measure (s : senders) : nat := sum_list (map sp_left (s_pcs s)).

Lemma measure_insert (pcs : list sp_pc) i pc pc' : pcs !! i = Some pc ->
  (sp_left pc' < sp_left pc)%nat ->
  (sum_list (map sp_left (<[i := pc']> pcs)) < sum_list (map sp_left pcs))%nat.
Proof.
  revert i. induction pcs as [|q pcs IH]; intros [|i] Hi Hl; simplify_eq/=; [lia|].
  specialize (IH i Hi Hl). lia.
Qed.

Lemma sp_next_left code pc l pc' l' :
  sp_next code pc l = Some (pc', l') -> (sp_left pc' < sp_left pc)%nat.
Proof.
  destruct pc; unfold sp_next; intros H; simplify_eq/=; try lia;
    repeat case_match; simplify_eq/=; lia.
Qed.

Definition busy (pc : sp_pc) : bool := match pc with SPDone _ => false | _ => true end.

Lemma job_at base jobs s i pc : sp_inv base jobs s -> s_pcs s !! i = Some pc ->
  exists j, jobs !! i = Some j.
Proof.
  intros Hi Hp. apply lookup_lt_is_Some_2. rewrite <- (spi_len _ _ _ Hi).
  by eapply lookup_lt_Some.
Qed.

(** The goroutine in the critical section can always go on. *)
Lemma holder_steps base jobs l pcs order i pc :
  Forall job_ok jobs -> len jobs < 2 ^ 31 - 1 ->
  sp_inv base jobs (Senders l pcs order) -> pcs !! i = Some pc -> inside pc = true ->
  exists s', sp_step jobs (Senders l pcs order) s'.
Proof.
  intros Hj Hn Hi Hp Hin. destruct (job_at _ _ _ _ _ Hi Hp) as [j Ej].
  assert (exists pc' l', sp_next (j_code j) pc l = Some (pc', l')) as (pc' & l' & E);
    [|eexists; by eapply sp_step_intro].
  destruct pc; try done; unfold sp_next; eauto.
  - pose proof (keep_run _ _ Hj Hn l pcs order i j Hi Hp Ej) as Hk.
    destruct (on_wr (j_code j) l) as [[?|?|?| |] ?]; simpl; eauto; done.
  - pose proof (keep_flush base jobs l pcs order i Hi Hp) as Hk.
    destruct (on_wr Flush l) as [[?|?|?| |] ?]; simpl; eauto; done.
Qed.

(** With the lock free, so can every other. *)
Lemma outsider_steps base jobs l pcs order i pc :
  sp_inv base jobs (Senders l pcs order) -> sockLocked l = false ->
  pcs !! i = Some pc -> inside pc = false -> busy pc = true ->
  exists s', sp_step jobs (Senders l pcs order) s'.
Proof.
  intros Hi Hl Hp Hin Hb. destruct (job_at _ _ _ _ _ Hi Hp) as [j Ej].
  destruct pc; try done; eexists; (eapply sp_step_intro; [done..|]); [done|].
  unfold sp_next, lockSock. by rewrite Hl.
Qed.

(** C37: senders cannot deadlock or run forever: while one has not returned,
    some goroutine can take a step, and every step brings all of them nearer to
    having returned. *)
Theorem senders_terminate jobs w s :
  Forall job_ok jobs -> len jobs < 2 ^ 31 - 1 -> writer_ok w -> w_buf w = [] ->
  reach (sp_step jobs) (sp_init (Link w 0 false) jobs) s ->
  (all_done s \/ exists s', sp_step jobs s s') /\
  (forall s', sp_step jobs s s' -> (sp_measure s' < sp_measure s)%nat).
Proof.
  intros Hj Hn Hok Hb Hr.
  pose proof (sp_reach_inv (stream w) jobs Hj Hn w s Hok Hb eq_refl Hr) as Hi. split.
  - destruct s as [l pcs order]. pose proof (countb_nonneg inside pcs) as Hc.
    destruct (Z.eq_dec (countb inside pcs) 0) as [H0|H0].
    + pose proof (countb_nonneg busy pcs) as Hc2.
      destruct (Z.eq_dec (countb busy pcs) 0) as [H1|H1].
      * left. intros i pc Hp. destruct pc; eauto;
          pose proof (countb_lookup busy _ _ _ Hp eq_refl) as Hle; simpl in Hle; lia.
      * right. destruct (countb_pos busy pcs) as (i & pc & Hp & Hpc); [lia|].
        eapply outsider_steps; eauto.
        -- pose proof (spi_lock _ _ _ Hi) as Hl. simpl in Hl. rewrite H0 in Hl.
           by destruct (sockLocked l).
        -- destruct (inside pc) eqn:E; [|done].
           pose proof (countb_lookup inside _ _ _ Hp E). lia.
    + right. destruct (countb_pos inside pcs) as (i & pc & Hp & Hin); [lia|].
      by eapply holder_steps.
  - intros s' Hs. destruct Hs as [l pcs order i j pc pc' l' _ Hp Hx].
    apply (measure_insert _ _ _ _ Hp). by eapply sp_next_left.
Qed.

(** Two senders: the second increments the counter while the first is inside,
    so the first leaves the flush to it. *)
Definition two_jobs : list job :=
  [Job (sendByte opClose) [opClose]; Job (sendByte x41) [x41]].

Lemma two_jobs_ok : Forall job_ok two_jobs.
Proof. repeat constructor; try apply sendByte_emits; apply WriteByte_sticky. Qed.

Definition two_sched : list nat := [0; 0; 0; 1; 0; 0; 1; 1; 1; 1; 1]%nat.

Definition two_end : senders :=
  Senders (Link (Writer (Socket [opClose; x41] None false) [] None) 0 false)
    [SPDone None; SPDone None] [0; 1]%nat.

Lemma two_reach : reach (sp_step two_jobs) (sp_init (Link fresh_writer 0 false) two_jobs) two_end.
Proof. apply (sp_exec_reach _ two_sched). reflexivity. Qed.

Lemma two_done : all_done two_end.
Proof. intros [|[|i]] pc H; simplify_eq/=; eauto. Qed.

Lemma senders_linearizable_witness :
  Forall (λ pc, pc = SPDone None) (s_pcs two_end) /\
  exists order, order ≡ₚ seq 0 2 /\
    send_jobs two_jobs order (Link fresh_writer 0 false) = (Ok tt, s_link two_end).
Proof.
  apply (senders_linearizable two_jobs fresh_writer two_end).
  - exact two_jobs_ok.
  - reflexivity.
  - exact fresh_writer_ok.
  - reflexivity.
  - split; reflexivity.
  - exact two_reach.
  - exact two_done.
Defined.

Lemma socket_never_mixes_witness :
  exists order, NoDup order /\
    sk_sent (w_sock (l_wr (s_link two_end))) `prefix_of` [] ++ bytes_of two_jobs order.
Proof.
  apply (socket_never_mixes two_jobs fresh_writer two_end).
  - exact two_jobs_ok.
  - reflexivity.
  - exact fresh_writer_ok.
  - reflexivity.
  - exact two_reach.
Defined.

Lemma senders_terminate_witness :
  (all_done two_end \/ exists s', sp_step two_jobs two_end s') /\
  (forall s', sp_step two_jobs two_end s' -> (sp_measure s' < sp_measure two_end)%nat).
Proof.
  apply (senders_terminate two_jobs fresh_writer two_end).
  - exact two_jobs_ok.
  - reflexivity.
  - exact fresh_writer_ok.
  - reflexivity.
  - exact two_reach.
Defined.
