(* ===== verification/Tunnel.v ===== *)
(** * The tunnel endpoint (tunnel.go)

    One end of a tunnel: message chunking, the space allowance, reassembly of
    arriving chunks, the message queue and its signal, closure. [Send], [Recv] and
    [Close] are programs of Threads.v over the tunnel and the link it sends on: the
    other goroutines may do anything whenever they let go. *)

From Stdlib Require Import ZArith Lia Strings.Byte Strings.String.
From stdpp Require Import base gmap strings list.
From S2P Require Import Prelude Threads Bufio Wire Packets.

Open Scope Z_scope.

(** ** The message queue *)

(** [container/queue] of the Iris project, by what its documentation promises:
    a first-in first-out queue. [queue_items] is the abstract content. *)
Class Queue (A Q : Type) := {
  queue_New : Q;
  queue_Push : A -> Q -> Q;
  queue_Pop : Q -> option (A * Q);
  queue_Empty : Q -> bool;
  queue_items : Q -> list A;
  queue_New_items : queue_items queue_New = [];
  queue_Push_items : forall x q, queue_items (queue_Push x q) = queue_items q ++ [x];
  queue_Pop_items : forall q, queue_Pop q =
    None <-> queue_items q = [];
  queue_Pop_cons : forall q x q', queue_Pop q = Some (x, q') ->
    queue_items q = x :: queue_items q';
  queue_Empty_items : forall q, queue_Empty q = bool_decide (queue_items q = [])
}.

(** A list is one. *)
#[export] Program Instance list_queue {A} `{EqDecision A} : Queue A (list A) := {|
  queue_New := [];
  queue_Push x q := q ++ [x];
  queue_Pop q := match q with [] => None | x :: q => Some (x, q) end;
  queue_Empty q := bool_decide (q = []);
  queue_items q := q
|}.
Next Obligation. done. Qed.
Next Obligation. done. Qed.
Next Obligation. intros A E [|x q]; simpl; split; congruence. Qed.
Next Obligation. intros A E [|y q] x q'; simpl; congruence. Qed.
Next Obligation. done. Qed.

(** ** State *)

(** The fields of a [Tunnel]. [t_chunkBuf] is a slice: [None] is nil, otherwise
    its content and capacity. The two signal channels have room for one token.
    The unbuffered [init] channel is in Tunnels.v, with the call waiting on it. *)
Record Tunnel (Q : Type) := mkTunnel {
  t_id : Z;
  t_chunkLimit : Z;
  t_chunkBuf : option (list byte * Z);
  t_itoaBuf : Q;
  t_itoaSign : bool;
  t_atoiSpace : Z;
  t_atoiSign : bool;
  t_term : bool;
  t_stat : option error
}.
Arguments mkTunnel {Q}.
Arguments t_id {Q}. Arguments t_chunkLimit {Q}. Arguments t_chunkBuf {Q}.
Arguments t_itoaBuf {Q}. Arguments t_itoaSign {Q}. Arguments t_atoiSpace {Q}.
Arguments t_atoiSign {Q}. Arguments t_term {Q}. Arguments t_stat {Q}.

Section setters.
Context {Q : Type}.
Implicit Types t : Tunnel Q.

Definition set_chunkLimit v t : Tunnel Q := mkTunnel (t_id t) v (t_chunkBuf t) (t_itoaBuf t)
  (t_itoaSign t) (t_atoiSpace t) (t_atoiSign t) (t_term t) (t_stat t).
Definition set_chunkBuf v t : Tunnel Q := mkTunnel (t_id t) (t_chunkLimit t) v (t_itoaBuf t)
  (t_itoaSign t) (t_atoiSpace t) (t_atoiSign t) (t_term t) (t_stat t).
Definition set_itoa q s t : Tunnel Q := mkTunnel (t_id t) (t_chunkLimit t) (t_chunkBuf t) q
  s (t_atoiSpace t) (t_atoiSign t) (t_term t) (t_stat t).
Definition set_atoi n s t : Tunnel Q := mkTunnel (t_id t) (t_chunkLimit t) (t_chunkBuf t) (t_itoaBuf t)
  (t_itoaSign t) n s (t_term t) (t_stat t).
Definition set_closed e t : Tunnel Q := mkTunnel (t_id t) (t_chunkLimit t) (t_chunkBuf t) (t_itoaBuf t)
  (t_itoaSign t) (t_atoiSpace t) (t_atoiSign t) true e.
End setters.

(** The case of a [select] that fires. *)
Inductive wake := WTerm | WTimeout | WSignal.

(** What tunnel code acts on: the tunnel, the link it sends over, and the allowance
    packets it leaves to new goroutines ([go t.conn.sendTunnelAllowance(id, n)]). *)
Record tstate (Q : Type) := TS {
  ts_tun : Tunnel Q;
  ts_link : link;
  ts_go : list (Z * Z)
}.
Arguments TS {Q}.
Arguments ts_tun {Q}. Arguments ts_link {Q}. Arguments ts_go {Q}.

Section tunnel.
Context `{GoRuntime} {Q : Type} `{Queue slice Q}.

Local Abbreviation code := (prog (tstate Q) wake).

Definition on_tun {A} (m : M (Tunnel Q) A) : M (tstate Q) A := λ s,
  let '(o, t) := m (ts_tun s) in (o, TS t (ts_link s) (ts_go s)).

Definition on_link {A} (m : M link A) : M (tstate Q) A := λ s,
  let '(o, l) := m (ts_link s) in (o, TS (ts_tun s) l (ts_go s)).

(** [go t.conn.sendTunnelAllowance(t.id, space)]. *)
Definition go_sendTunnelAllowance (space : Z) : M (tstate Q) unit :=
  modify (λ s, TS (ts_tun s) (ts_link s) (ts_go s ++ [(t_id (ts_tun s), space)])).

(** [<-t.term], [<-t.atoiSign] and [<-t.itoaSign]. *)
Definition recv_tunTerm : M (Tunnel Q) unit := λ t, (if t_term t then Ok tt else Block, t).

Definition take_atoiSign (t : Tunnel Q) : Tunnel Q := set_atoi (t_atoiSpace t) false t.
Definition recv_atoiSign : M (Tunnel Q) unit := λ t,
  if t_atoiSign t then (Ok tt, take_atoiSign t) else (Block, t).

Definition take_itoaSign (t : Tunnel Q) : Tunnel Q := set_itoa (t_itoaBuf t) false t.
Definition recv_itoaSign : M (Tunnel Q) unit := λ t,
  if t_itoaSign t then (Ok tt, take_itoaSign t) else (Block, t).

(** ** Sending *)

(** [drainAllowance]: under [atoiLock]. *)
Definition drainAllowance (need : Z) : M (Tunnel Q) bool := λ t,
  if need <=? t_atoiSpace t
  then (Ok true, set_atoi (i64 (t_atoiSpace t - need)) (t_atoiSign t) t)
  else (Ok false, set_atoi (t_atoiSpace t) false t).

(** [handleAllowance]: under [atoiLock]. *)
Definition handleAllowance (space : Z) : M (Tunnel Q) unit :=
  modify (λ t, set_atoi (i64 (t_atoiSpace t + space)) true t).

(** The [select] of [sendChunk]; [deadline] tells whether a timeout was set. *)
Definition sendChunk_select (deadline : bool) (w : wake) : M (tstate Q) unit :=
  match w with
  | WTerm => on_tun recv_tunTerm;; fail ErrClosed
  | WTimeout => if deadline then fail ErrTimeout else block
  | WSignal => on_tun recv_atoiSign
  end.

(** The loop of [sendChunk] for [fuel] turns; each but the last is woken by a grant. *)
Fixpoint sendChunk (fuel : nat) (chunk : list byte) (sizeOrCont : Z) (deadline : bool) : code unit :=
  match fuel with
  | O => Ret Diverge
  | S fuel =>
      ok ← atomic (on_tun (drainAllowance (len chunk)));
      if ok : bool
      then yield;; atomic (t ← gets ts_tun; on_link (sendTunnelTransfer (t_id t) sizeOrCont chunk))
      else select (sendChunk_select deadline);; yield;; sendChunk fuel chunk sizeOrCont deadline
  end.

(** The loop of [Send] from position [pos], [turns] the fuel of its chunks. Slicing
    [message[pos:end]] panics when the bounds are out of order. *)
Fixpoint Send_loop (fuel turns : nat) (message : list byte) (deadline : bool) (pos : Z) : code unit :=
  match fuel with
  | O => Ret Diverge
  | S fuel =>
      if pos <? len message then
        t ← atomic (gets ts_tun);
        let end0 := i64 (pos + t_chunkLimit t) in
        let end' := if len message <? end0 then len message else end0 in
        let sizeOrCont := if pos =? 0 then len message else 0 in
        (if (pos <? 0) || (end' <? pos) then crash "slice bounds out of range"
         else sendChunk turns (take (Z.to_nat (end' - pos)) (drop (Z.to_nat pos) message))
                sizeOrCont deadline);;
        t ← atomic (gets ts_tun);
        Send_loop fuel turns message deadline (i64 (pos + t_chunkLimit t))
      else mret tt
  end.

(** [Send]: a positive chunk limit takes at least a byte a turn. *)
Definition Send (turns : nat) (message : slice) (timeout : Z) : code unit :=
  if decide (sbytes message = []) then raise (ErrorsNew "nil or empty message")
  else Send_loop (S (length (sbytes message))) turns (sbytes message) (negb (timeout =? 0)) 0.

(** ** Receiving *)

(** [append(b, chunk...)], with the capacity. *)
Definition append (b : option (list byte * Z)) (chunk : list byte) : option (list byte * Z) :=
  match b with
  | None => match chunk with [] => None | _ => Some (chunk, growcap 0 (len chunk)) end
  | Some (d, c) =>
      let n := len d + len chunk in
      Some (d ++ chunk, if n <=? c then c else growcap c n)
  end.

Definition buf_len (b : option (list byte * Z)) : Z :=
  match b with None => 0 | Some (d, _) => len d end.
Definition buf_cap (b : option (list byte * Z)) : Z :=
  match b with None => 0 | Some (_, c) => c end.

(** [handleTransfer], called by the receiver goroutine only; the delivery is
    under [itoaLock]. *)
Definition handleTransfer (size : Z) (chunk : list byte) : M (tstate Q) unit :=
  (if negb (size =? 0) then
     t ← gets ts_tun;
     (match t_chunkBuf t with
      | Some (d, _) => go_sendTunnelAllowance (len d)
      | None => mret tt
      end);;
     if (size <? 0) || (maxAlloc <? size) then panic "makeslice: cap out of range"
     else on_tun (modify (set_chunkBuf (Some ([], size))))
   else mret tt);;
  on_tun (modify (λ t, set_chunkBuf (append (t_chunkBuf t) chunk) t));;
  t ← gets ts_tun;
  if buf_len (t_chunkBuf t) =? buf_cap (t_chunkBuf t) then
    on_tun (modify (λ t,
      set_chunkBuf None (set_itoa (queue_Push (fst <$> t_chunkBuf t) (t_itoaBuf t)) true t)))
  else mret tt.

(** [fetchMessage]: under [itoaLock]. *)
Definition fetchMessage : M (tstate Q) slice := λ s,
  let t := ts_tun s in
  if negb (queue_Empty (t_itoaBuf t)) then
    match queue_Pop (t_itoaBuf t) with
    | Some (message, q) =>
        (go_sendTunnelAllowance (len (sbytes message));; mret message)
          (TS (set_itoa q (t_itoaSign t) t) (ts_link s) (ts_go s))
    | None => (Panic "queue empty", s)
    end
  else (Ok None, TS (set_itoa (t_itoaBuf t) false t) (ts_link s) (ts_go s)).

(** The rest of [Recv] when nothing is buffered: wait for a message to arrive. *)
Definition Recv_select (timeout : Z) (w : wake) : M (tstate Q) unit :=
  match w with
  | WTerm => on_tun recv_tunTerm;; fail ErrClosed
  | WTimeout => if negb (timeout =? 0) then fail ErrTimeout else block
  | WSignal => on_tun recv_itoaSign
  end.

Definition Recv_wait (timeout : Z) : code slice :=
  select (Recv_select timeout);;
  yield;;
  msg ← atomic fetchMessage;
  match msg with
  | Some _ => mret msg
  | None => crash "signal raised but message unavailable"
  end.

Definition Recv (timeout : Z) : code slice :=
  msg ← atomic fetchMessage;
  match msg with
  | Some _ => mret msg
  | None => Recv_wait timeout
  end.

(** ** Construction and closure *)

(** [handleInitResult]: the value left for [init], which the receiver goroutine
    can hand over only while [initTunnel] waits for it. *)
Definition handleInitResult (chunkLimit : Z) : M (Tunnel Q) bool := λ t,
  (Ok (0 <? chunkLimit), if 0 <? chunkLimit then set_chunkLimit chunkLimit t else t).

(** [handleClose]: closing a closed channel panics. *)
Definition tun_handleClose (reason : gostring) : M (Tunnel Q) unit := λ t,
  let stat := match reason with
              | [] => t_stat t
              | _ => Some (Errorf "remote error: %s" (FBytes reason))
              end in
  (if t_term t then Panic "close of closed channel" else Ok tt, set_closed stat t).

(** [Close]: returns the failure recorded at closure, if any. *)
Definition tun_Close : code (option error) :=
  closed ← atomic (gets (λ s, t_term (ts_tun s)));
  if closed : bool then atomic (gets (λ s, t_stat (ts_tun s)))
  else
    yield;;
    atomic (t ← gets ts_tun; on_link (sendTunnelClose (t_id t)));;
    select (λ w, match w with WTerm => on_tun recv_tunTerm | _ => block end);;
    atomic (gets (λ s, t_stat (ts_tun s))).
End tunnel.

(** ** Chunks of a message *)

(** Cut a list into pieces of [limit], the last one possibly shorter. *)
Fixpoint split_chunks (fuel limit : nat) (m : list byte) : list (list byte) :=
  match fuel, m with
  | O, _ | _, [] => []
  | S fuel, _ => take limit m :: split_chunks fuel limit (drop limit m)
  end.

Definition chunks (limit : nat) (m : list byte) : list (list byte) :=
  split_chunks (length m) limit m.

(** The transfers [Send] makes from position [pos]: the first chunk of a message
    carries its length, the others 0. *)
Definition parts (limit : nat) (m : list byte) (pos : Z) : list (Z * list byte) :=
  match chunks limit (drop (Z.to_nat pos) m) with
  | [] => []
  | c :: cs => (if pos =? 0 then len m else 0, c) :: map (pair 0) cs
  end.

Lemma split_chunks_fuel f f' limit m : (0 < limit)%nat ->
  (length m <= f)%nat -> (length m <= f')%nat ->
  split_chunks f limit m = split_chunks f' limit m.
Proof.
  intros Hl. revert f' m. induction f as [|f IH]; intros [|f'] [|b m] Hf Hf'; try done;
    try (simpl in *; lia).
  cbn [split_chunks]. f_equal. apply IH; rewrite length_drop; simpl in *; lia.
Qed.

Lemma chunks_cons limit m : (0 < limit)%nat -> m <> [] ->
  chunks limit m = take limit m :: chunks limit (drop limit m).
Proof.
  intros Hl Hm. destruct m as [|b m]; [done|]. unfold chunks at 1. cbn [length split_chunks].
  f_equal. apply split_chunks_fuel; rewrite ?length_drop; simpl; lia.
Qed.

Lemma concat_chunks limit m : (0 < limit)%nat -> concat (chunks limit m) = m.
Proof.
  intros Hl. remember (length m) as n eqn:Hn. revert m Hn.
  induction n as [n IH] using lt_wf_ind. intros m Hn.
  destruct (decide (m = [])) as [->|Hm]; [done|].
  rewrite chunks_cons by done. simpl. rewrite (IH (length (drop limit m))); [|..|done].
  - by rewrite take_drop.
  - rewrite length_drop. destruct m; [done|]. simpl in *. lia.
Qed.

Lemma chunks_bounds limit m : (0 < limit)%nat ->
  Forall (λ c, c <> [] /\ (length c <= limit)%nat) (chunks limit m).
Proof.
  intros Hl. remember (length m) as n eqn:Hn. revert m Hn.
  induction n as [n IH] using lt_wf_ind. intros m Hn.
  destruct (decide (m = [])) as [->|Hm]; [constructor|].
  rewrite chunks_cons by done. constructor.
  - split; [|rewrite length_take; lia]. destruct m, limit; simpl; try done; lia.
  - apply (IH (length (drop limit m))); [|done].
    rewrite length_drop. destruct m; [done|]. simpl in *. lia.
Qed.

Lemma parts_done limit m pos : len m <= pos -> parts limit m pos = [].
Proof.
  intros Hp. unfold parts. rewrite drop_ge by (unfold len in Hp; lia). done.
Qed.

(** One turn of the loop of [Send]. *)
Lemma parts_cons limit m pos : (0 < limit)%nat -> 0 <= pos < len m ->
  parts limit m pos =
  (if pos =? 0 then len m else 0, take limit (drop (Z.to_nat pos) m))
  :: parts limit m (pos + Z.of_nat limit).
Proof.
  intros Hl Hp. unfold parts. unfold len in Hp.
  assert (drop (Z.to_nat pos) m <> []) as Hn.
  { intros E. apply (f_equal length) in E. rewrite length_drop in E. simpl in E. lia. }
  rewrite chunks_cons by done. f_equal. rewrite drop_drop.
  replace (Z.to_nat (pos + Z.of_nat limit)) with (Z.to_nat pos + limit)%nat by lia.
  destruct (chunks limit (drop (Z.to_nat pos + limit) m)); [done|].
  by rewrite (proj2 (Z.eqb_neq _ _)) by lia.
Qed.

Lemma parts_payload limit m : (0 < limit)%nat -> concat (map snd (parts limit m 0)) = m.
Proof.
  intros Hl. unfold parts. simpl. rewrite drop_0.
  transitivity (concat (chunks limit m)); [|by apply concat_chunks].
  destruct (chunks limit m) as [|c cs]; [done|]. simpl. f_equal.
  rewrite map_map. simpl. by rewrite map_id.
Qed.

(** Their tags and chunks are in range when the message is. *)
Lemma parts_bounds limit m : (0 < limit)%nat ->
  Forall (λ p, 0 <= fst p <= len m /\ len (snd p) <= len m) (parts limit m 0).
Proof.
  intros Hl. pose proof (concat_chunks limit m Hl) as Hc. unfold parts. simpl. rewrite drop_0.
  assert (forall (l : list (list byte)) k, len (concat l) <= k -> Forall (λ c, len c <= k) l) as Hall.
  { induction l as [|c l IH]; intros k Hk; [constructor|]. simpl in Hk. rewrite len_app in Hk.
    pose proof (len_nonneg c). pose proof (len_nonneg (concat l)). constructor; [lia|]. apply IH. lia. }
  specialize (Hall (chunks limit m) (len m)). rewrite Hc in Hall. specialize (Hall ltac:(lia)).
  pose proof (len_nonneg m). destruct Hall as [|c cs Hc1 Hcs]; [constructor|].
  constructor; [simpl; lia|]. apply Forall_map. eapply Forall_impl; [exact Hcs|]. simpl. lia.
Qed.

(** The bytes of a run of transfers. *)
Definition encode_parts (id : Z) (ps : list (Z * list byte)) : list byte :=
  concat (map (λ p, encode (OTunTransfer id (u64 (fst p)) (snd p))) ps).

Lemma encode_parts_app id ps qs :
  encode_parts id (ps ++ qs) = encode_parts id ps ++ encode_parts id qs.
Proof. unfold encode_parts. by rewrite map_app, concat_app. Qed.

(** ** A link that works *)

Record link_ready (l : link) : Prop := {
  lr_ok : writer_ok (l_wr l);
  lr_free : sockLocked l = false;
  lr_wait : 0 <= sockWait l < 2 ^ 31 - 1;
  lr_healthy : healthy (l_wr l)
}.

Lemma send_ready m bs l : sends m bs -> link_ready l ->
  exists l', m l = (Ok tt, l') /\ link_ready l' /\ stream (l_wr l') = stream (l_wr l) ++ bs.
Proof.
  intros Hm [Hw Hf Hk Hh]. specialize (Hm l Hw Hf Hk).
  destruct (m l) as [[[]|?|?| |] l']; try tauto.
  destruct Hm as (? & ? & ? & ? & Hh' & _). exists l'. splits; auto.
  split; auto. congruence.
Qed.

Section send.
Context `{GoRuntime} {Q : Type} `{Queue slice Q}.
Context (G : list byte -> list byte -> Prop) `{!PreOrder G}.
Implicit Types s : tstate Q.
Local Abbreviation code := (prog (tstate Q) wake).
Local Abbreviation env := (list ((tstate Q -> tstate Q) * wake)).

Definition out (s : tstate Q) : list byte := stream (l_wr (ts_link s)).

(** From the stream [a] to the stream [b] the transfers [ps] are made, each whole and
    in order; in between, before and after, others take the stream along [G]. *)
Inductive carries (id : Z) : list (Z * list byte) -> list byte -> list byte -> Prop :=
| carries_nil a b : G a b -> carries id [] a b
| carries_cons p ps a b c : G a b -> carries id ps (b ++ encode_parts id [p]) c -> carries id (p :: ps) a c.

Lemma carries_after id ps a b c : G a b -> carries id ps b c -> carries id ps a c.
Proof. intros Hg Hc. destruct Hc; [apply carries_nil; by etrans|eapply carries_cons; [by etrans|done]]. Qed.

Lemma carries_app id ps qs a b c : carries id ps a b -> carries id qs b c -> carries id (ps ++ qs) a c.
Proof.
  intros Hp Hq. induction Hp as [a b Hg|p ps a b b' Hg Hp IH]; [by eapply carries_after|].
  simpl. eapply carries_cons; eauto.
Qed.

(** What the others do to a tunnel in use and the link: anything but renaming the
    tunnel or changing the limit fixed at its construction, as long as the link goes
    on working. *)
Definition fair (f : tstate Q -> tstate Q) : Prop := forall s, link_ready (ts_link s) ->
  t_id (ts_tun (f s)) = t_id (ts_tun s) /\ t_chunkLimit (ts_tun (f s)) = t_chunkLimit (ts_tun s) /\
  link_ready (ts_link (f s)) /\ G (out s) (out (f s)).

Record send_state (id limit : Z) (s : tstate Q) : Prop := {
  ss_id : t_id (ts_tun s) = id;
  ss_limit : t_chunkLimit (ts_tun s) = limit;
  ss_link : link_ready (ts_link s)
}.

Lemma send_state_fair f id limit s : fair f -> send_state id limit s ->
  send_state id limit (f s) /\ G (out s) (out (f s)).
Proof. intros Hf [Hi Hl Hr]. destruct (Hf s Hr) as (Ei & El & ? & ?). split; [split|]; congruence. Qed.

Lemma fair_id : fair id.
Proof. by intros s Hs. Qed.

(** How sending code ends without having sent. *)
Definition stopped (deadline : bool) {A} (o : outcome A) : Prop :=
  o = Err ErrClosed \/ (deadline = true /\ o = Err ErrTimeout) \/ o = Block.

(** A script of fair changes; [shorter]: what is left of it. *)
Definition fair_env (e : env) : Prop := Forall (λ x, fair (fst x)) e.
Definition shorter (e' e : env) : Prop := fair_env e' /\ (length e' <= length e)%nat.

Lemma play_fair {A} (p : code A) id limit s e : fair_env e -> send_state id limit s ->
  exists s1 e1, play (yield;; p) (CS s e) = play p (CS s1 e1) /\ shorter e1 e /\
    send_state id limit s1 /\ G (out s) (out s1).
Proof.
  intros He Hs. destruct He as [|[f w] e Hf He].
  - exists s, []. split; [done|]. split; [by split; [constructor|]|by split].
  - destruct (send_state_fair f id limit s Hf Hs). exists (f s), e. rewrite play_go.
    split; [done|]. split; [split; [done|simpl; lia]|by split].
Qed.

(** The slice of a turn: its bounds are in order and it is the chunk. *)
Lemma Send_slice (m : list byte) pos limit : 0 <= pos < len m -> 0 < limit ->
  let e := if len m <? pos + limit then len m else pos + limit in
  (pos <? 0) || (e <? pos) = false /\
  take (Z.to_nat (e - pos)) (drop (Z.to_nat pos) m)
  = take (Z.to_nat limit) (drop (Z.to_nat pos) m).
Proof.
  intros Hp Hl. cbn zeta. unfold len in *. split.
  - apply orb_false_iff. rewrite !Z.ltb_ge. case_test; lia.
  - case_test; [|f_equal; lia]. rewrite !take_ge; rewrite ?length_drop; try done; lia.
Qed.

Lemma drain_keeps need s id limit : send_state id limit s ->
  exists b s1, on_tun (drainAllowance need) s = (Ok b, s1) /\ send_state id limit s1 /\ out s1 = out s.
Proof.
  intros [Hi Hl Hr]. destruct s as [t l g]. unfold on_tun, drainAllowance. simpl.
  destruct (need <=? t_atoiSpace t); do 2 eexists; (split; [done|]); by (split; [split|]).
Qed.

Lemma sendChunk_spec fuel c tag d id limit s e :
  isu64 id -> sized c -> fair_env e -> send_state id limit s -> (length e < fuel)%nat ->
  let '(o, CS s' e') := play (sendChunk fuel c tag d) (CS s e) in
  shorter e' e /\ send_state id limit s' /\
  ((o = Ok tt /\ carries id [(tag, c)] (out s) (out s')) \/ (stopped d o /\ G (out s) (out s'))).
Proof.
  intros Hid Hc. revert s e. induction fuel as [|fuel IH]; intros s e He Hs Hf; [lia|].
  cbn [sendChunk]. destruct (drain_keeps (len c) s id limit Hs) as (b & s1 & E & Hs1 & Ho).
  rewrite (play_do _ _ _ _ _ _ E). rewrite <- Ho. clear E Ho Hs s. destruct b.
  - destruct (play_fair (atomic (t ← gets ts_tun; on_link (sendTunnelTransfer (t_id t) tag c))) id limit s1 e He Hs1)
      as (s2 & e2 & -> & Hsh & [Hi Hl Hr] & Hg). rewrite play_atomic. destruct s2 as [t l g]. simpl in *.
    rewrite bind_eq. cbn [gets]. unfold on_link. simpl. rewrite Hi.
    destruct (send_ready _ _ l (sendTunnelTransfer_sends id tag c Hid Hc) Hr) as (l' & -> & Hr' & Hs').
    split_and!; [done|by split|]. left. split; [done|]. eapply carries_cons; [exact Hg|].
    apply carries_nil. unfold out, encode_parts in *. simpl. rewrite Hs', app_nil_r. reflexivity.
  - rewrite play_bind. destruct He as [|[f w] e Hfair He].
    + simpl. split_and!; [by split; [constructor|]|done|]. right. split; [by right; right|done].
    + rewrite play_select. destruct (send_state_fair f id limit s1 Hfair Hs1) as [Hs2 Hg].
      simpl in Hf. assert (shorter e ((f, w) :: e)) as Hsh by (split; [done|simpl; lia]).
      destruct (f s1) as [t l g] eqn:Ef. destruct w; cbn [sendChunk_select]; unfold on_tun, recv_tunTerm, recv_atoiSign.
      * rewrite bind_eq. simpl. destruct (t_term t); (split_and!; [done|done|]); right; (split; [|done]); unfold stopped; auto.
      * destruct d; simpl; (split_and!; [done|done|]); right; (split; [|done]); unfold stopped; auto.
      * cbn [ts_tun ts_link ts_go]. destruct (t_atoiSign t); cbn [fst snd];
          [|split_and!; [done|done|]; right; split; [by right; right|done]].
        assert (send_state id limit (TS (take_atoiSign t) l g)) as Hs3 by (by destruct Hs2).
        destruct (play_fair (sendChunk fuel c tag d) id limit _ e He Hs3) as (s4 & e4 & E & [He4 Hl4] & Hs4 & Hg4).
        rewrite E. specialize (IH s4 e4 He4 Hs4 ltac:(lia)).
        destruct (play (sendChunk fuel c tag d) (CS s4 e4)) as [o [s' e']]. destruct IH as ([? ?] & ? & Hr).
        assert (G (out s1) (out s4)) as Hg' by (etrans; [exact Hg|exact Hg4]).
        split_and!; [split; [done|simpl; lia]|done|].
        destruct Hr as [[-> Hr]|[? Hr]]; [left; split; [done|by eapply carries_after]|right; split; [done|by etrans]].
Qed.

(** [Send] from position [pos] makes the remaining transfers, all of them or a
    strict prefix. The bound on the message keeps [pos + chunkLimit] an [int]. *)
Lemma Send_loop_spec fuel turns m d pos id limit s e :
  isu64 id -> 0 < limit < 2 ^ 63 -> len m <= 2 ^ 62 -> 0 <= pos ->
  Z.max 0 (len m - pos) < Z.of_nat fuel -> (pos < len m -> limit < 2 ^ 62 \/ pos = 0) ->
  fair_env e -> (length e < turns)%nat -> send_state id limit s ->
  let ps := parts (Z.to_nat limit) m pos in
  let '(o, CS s' e') := play (Send_loop fuel turns m d pos) (CS s e) in
  (o = Ok tt /\ carries id ps (out s) (out s')) \/
  (stopped d o /\ exists k, (k < length ps)%nat /\ carries id (take k ps) (out s) (out s')).
Proof.
  intros Hid Hlim Hm. revert pos s e. induction fuel as [|fuel IH]; intros pos s e Hp Hf Hb He Ht Hs ps;
    [lia|]. cbn [Send_loop]. destruct (Z.ltb_spec pos (len m)) as [Hlt|Hge].
  2: { simpl. left. unfold ps. rewrite parts_done by done. split; [done|]. by apply carries_nil. }
  specialize (Hb Hlt). rewrite (play_do _ _ s (ts_tun s) s) by done. cbn zeta.
  rewrite (ss_limit _ _ _ Hs), i64_id by lia.
  destruct (Send_slice m pos limit) as [Hbnd Hsl]; [lia..|]. cbn zeta in Hbnd, Hsl.
  rewrite Hbnd, Hsl. unfold ps. rewrite parts_cons by lia. rewrite Z2Nat.id by lia.
  set (c := take _ _). set (tag := if pos =? 0 then len m else 0).
  assert (sized c) as Hsz.
  { unfold c, sized, len in *. rewrite length_take, length_drop. lia. }
  pose proof (sendChunk_spec turns c tag d id limit s e Hid Hsz He Hs Ht) as Hc.
  rewrite play_bind. destruct (play (sendChunk turns c tag d) (CS s e)) as [o [s1 e1]].
  destruct Hc as ([He1 Hl1] & Hs1 & [[-> Ho]|[Hst Ho]]).
  - rewrite (play_do _ _ s1 (ts_tun s1) s1) by done. rewrite (ss_limit _ _ _ Hs1), i64_id by lia.
    assert (pos + limit < len m -> limit < 2 ^ 62 \/ pos + limit = 0) as Hb' by lia.
    pose proof (IH (pos + limit) s1 e1 ltac:(lia) ltac:(lia) Hb' He1 ltac:(lia) Hs1) as IH'. cbn zeta in IH'.
    destruct (play (Send_loop fuel turns m d (pos + limit)) (CS s1 e1)) as [o2 [s2 e2]].
    destruct IH' as [[-> Ho2]|[Hst (k & Hk & Ho2)]].
    + left. split; [done|]. by apply (carries_app id [(tag, c)] _ _ (out s1)).
    + right. split; [done|]. exists (Datatypes.S k). split; [simpl; lia|].
      by apply (carries_app id [(tag, c)] (take k _) _ (out s1)).
  - destruct Hst as [-> | [[-> ->] | ->]]; right; (split; [unfold stopped; auto|]);
      exists 0%nat; (split; [simpl; lia|]); by apply carries_nil.
Qed.
End send.

(** Where nobody else sends these are the bytes on the stream. *)
Lemma carries_eq id ps a b : carries eq id ps a b -> b = a ++ encode_parts id ps.
Proof.
  induction 1 as [a b ->|p ps a b c -> _ ->]; [by rewrite app_nil_r|].
  rewrite <- app_assoc. f_equal. by rewrite <- (encode_parts_app id [p] ps).
Qed.

Section transfers.
Context `{GoRuntime} {Q : Type} `{Queue slice Q}.

(** ** Reassembly *)

(** The tunnel after a complete message has been queued. *)
Definition queued (m : slice) (t : Tunnel Q) : Tunnel Q :=
  set_chunkBuf None (set_itoa (queue_Push m (t_itoaBuf t)) true t).

(** The allowance given back when a new message cuts off a partial one. *)
Definition partial_grant (t : Tunnel Q) : list (Z * Z) :=
  match t_chunkBuf t with Some (d, _) => [(t_id t, len d)] | None => [] end.

(** A first chunk: an unfinished message is dropped, its bytes granted back. *)
Lemma handleTransfer_first size c (t : Tunnel Q) l g :
  0 < size <= maxAlloc -> len c <= size ->
  handleTransfer size c (TS t l g) =
  (Ok tt, TS (if len c =? size then queued (Some c) t else set_chunkBuf (Some (c, size)) t)
     l (g ++ partial_grant t)).
Proof.
  intros Hs Hc. unfold handleTransfer, on_tun, go_sendTunnelAllowance, partial_grant.
  rewrite (proj2 (Z.eqb_neq size 0)) by lia. run.
  destruct (t_chunkBuf t) as [[d cap]|]; run;
    rewrite (proj2 (Z.ltb_ge size 0)), (proj2 (Z.ltb_ge maxAlloc size)) by lia; run;
    rewrite (proj2 (Z.leb_le _ _)) by (rewrite len_nil; lia); rewrite ?app_nil_r; by case_test.
Qed.

(** A continuation chunk. *)
Lemma handleTransfer_next d c size (t : Tunnel Q) l g :
  t_chunkBuf t = Some (d, size) -> len d + len c <= size ->
  handleTransfer 0 c (TS t l g) =
  (Ok tt, TS (if len (d ++ c) =? size then queued (Some (d ++ c)) t
              else set_chunkBuf (Some (d ++ c, size)) t) l g).
Proof.
  intros Hb Hc. unfold handleTransfer, on_tun. run. rewrite Hb. run.
  rewrite (proj2 (Z.leb_le _ _)) by lia. by case_test.
Qed.

(** Apply arriving transfers in order. *)
Fixpoint transfer_all (ps : list (Z * list byte)) : M (tstate Q) unit :=
  match ps with
  | [] => mret tt
  | (size, c) :: ps => handleTransfer size c;; transfer_all ps
  end.

Lemma transfer_all_next cs d size (t : Tunnel Q) l g :
  t_chunkBuf t = Some (d, size) -> Forall (λ c, c <> []) cs -> cs <> [] ->
  len d + len (concat cs) = size ->
  transfer_all (map (pair 0) cs) (TS t l g)
  = (Ok tt, TS (queued (Some (d ++ concat cs)) t) l g).
Proof.
  revert d t. induction cs as [|c cs IH]; intros d t Hb Hc Hn Hl; [done|].
  apply Forall_cons in Hc as [Hc1 Hc2]. simpl in Hl |- *. rewrite len_app in Hl.
  pose proof (len_nonneg (concat cs)). rewrite bind_eq.
  rewrite (handleTransfer_next d c _ t l g Hb) by lia. rewrite len_app.
  destruct cs as [|c2 cs].
  - simpl in Hl. rewrite len_nil in Hl. rewrite (proj2 (Z.eqb_eq _ _)) by lia.
    simpl. by rewrite app_nil_r.
  - rewrite (proj2 (Z.eqb_neq _ _)).
    + rewrite (IH (d ++ c)); [|simpl; f_equal; lia|done|done|rewrite len_app; lia].
      unfold queued. simpl. by rewrite <- app_assoc.
    + apply Forall_cons in Hc2 as [Hc3 _]. simpl in Hl. rewrite len_app in Hl.
      destruct c2; [done|].
      rewrite len_cons in Hl. pose proof (len_nonneg c2). pose proof (len_nonneg (concat cs)). lia.
Qed.

(** The chunks of a message, arriving in order at any tunnel, queue exactly that
    message. *)
Lemma transfer_parts limit m (t : Tunnel Q) l g :
  (0 < limit)%nat -> m <> [] -> fits m ->
  transfer_all (parts limit m 0) (TS t l g)
  = (Ok tt, TS (queued (Some m) t) l (g ++ partial_grant t)).
Proof.
  intros Hl Hm Hf. unfold parts. simpl. rewrite drop_0.
  assert (0 < len m) by (destruct m; [done|rewrite len_cons; pose proof (len_nonneg m); lia]).
  pose proof (concat_chunks limit m Hl) as Hc. pose proof (chunks_bounds limit m Hl) as Hb.
  destruct (chunks limit m) as [|c cs]; simpl in Hc; [by subst m|].
  inversion Hb as [|? ? [Hb1 _] Hb2]; subst. rewrite len_app in *.
  pose proof (len_nonneg (concat cs)). simpl. rewrite bind_eq.
  unfold fits in Hf. rewrite len_app in Hf.
  rewrite handleTransfer_first by lia. destruct cs as [|c2 cs].
  - simpl. rewrite len_nil, app_nil_r, Z.add_0_r, Z.eqb_refl. done.
  - rewrite (proj2 (Z.eqb_neq _ _)).
    + rewrite (transfer_all_next (c2 :: cs) c (len c + len (concat (c2 :: cs)))); try done.
      eapply Forall_impl; [exact Hb2|]. by intros ? [? _].
    + inversion Hb2 as [|? ? [Hc2 _] _]; subst. simpl. rewrite len_app.
      destruct c2; [done|]. rewrite len_cons. pose proof (len_nonneg c2).
      pose proof (len_nonneg (concat cs)). lia.
Qed.
End transfers.

(** ** Properties *)

Section properties.
Context `{GoRuntime} {Q : Type} `{Queue slice Q}.
Implicit Types s : tstate Q.

(** C27: [Send], whatever the other goroutines do to the tunnel and the link while it
    has let go of them: it returns nil exactly when all the chunks of the message
    are on the stream, each whole and in order, the first tagged with the message's
    length and the others with 0; otherwise it has put a strict prefix of them there
    and returns [ErrClosed], [ErrTimeout] (only if a timeout was set), or is still
    parked. It neither panics nor loops. [G] is how others take the stream along. *)
Theorem Send_spec G `{!PreOrder G} turns m timeout id limit s e :
  isu64 id -> 0 < limit < 2 ^ 63 -> m <> [] -> len m <= 2 ^ 62 -> send_state id limit s ->
  fair_env G e -> (length e < turns)%nat ->
  let ps := parts (Z.to_nat limit) m 0 in
  let '(o, CS s' e') := play (Send turns (Some m) timeout) (CS s e) in
  (o = Ok tt /\ carries G id ps (out s) (out s')) \/
  (stopped (negb (timeout =? 0)) o /\
   exists k, (k < length ps)%nat /\ carries G id (take k ps) (out s) (out s')).
Proof.
  intros Hid Hl Hm Hlen Hs He Ht. unfold Send. change (sbytes (Some m)) with m. rewrite decide_False by done.
  apply Send_loop_spec; auto; unfold len; lia.
Qed.

(** A successful [Send] has put all the chunks on the stream. *)
Lemma Send_ok G `{!PreOrder G} turns m timeout id limit s e s' e' :
  isu64 id -> 0 < limit < 2 ^ 63 -> m <> [] -> len m <= 2 ^ 62 ->
  send_state id limit s -> fair_env G e -> (length e < turns)%nat ->
  play (Send turns (Some m) timeout) (CS s e) = (Ok tt, CS s' e') ->
  carries G id (parts (Z.to_nat limit) m 0) (out s) (out s').
Proof.
  intros Hid Hl Hm Hlen Hs He Ht HS.
  unfold Send in HS. change (sbytes (Some m)) with m in HS. rewrite decide_False in HS by done.
  pose proof (Send_loop_spec G (Datatypes.S (length m)) turns m (negb (timeout =? 0)) 0 id limit s e Hid Hl
    Hlen ltac:(lia) ltac:(unfold len; lia) ltac:(auto) He Ht Hs) as Hsp.
  cbn zeta in Hsp. rewrite HS in Hsp. destruct Hsp as [[_ ?]|[Hst _]]; [done|].
  by destruct Hst as [?|[[_ ?]|?]].
Qed.

(** With enough allowance a chunk goes out at once. *)
Lemma sendChunk_room turns c tag d (t : Tunnel Q) l g :
  isu64 (t_id t) -> sized c -> link_ready l -> len c <= t_atoiSpace t ->
  exists l', play (sendChunk (Datatypes.S turns) c tag d) (CS (TS t l g) [])
    = (Ok tt, CS (TS (set_atoi (i64 (t_atoiSpace t - len c)) (t_atoiSign t) t) l' g) [])
    /\ link_ready l'
    /\ stream (l_wr l') = stream (l_wr l) ++ encode (OTunTransfer (t_id t) (u64 tag) c).
Proof.
  intros Hid Hc Hl Hr. cbn [sendChunk]. set (t1 := set_atoi _ _ t).
  rewrite (play_do _ _ _ true (TS t1 l g)).
  2: { unfold on_tun, drainAllowance. simpl. by rewrite (proj2 (Z.leb_le _ _)). }
  destruct (send_ready _ _ l (sendTunnelTransfer_sends (t_id t) tag c Hid Hc) Hl) as (l' & E & Hl' & Hs).
  exists l'. split; [|done]. rewrite play_bind, play_yield_nil, play_atomic, bind_eq. cbn [gets].
  unfold on_link. simpl. by rewrite E.
Qed.

(** Nothing checks the chunk limit an inbound tunnel is given. With limit 0
    and no debt of allowance, [Send] never returns: it puts the same empty
    transfer on the stream again and again, however long it runs. *)
Theorem Send_zero_limit_diverges fuel turns m d id s :
  isu64 id -> m <> [] -> send_state id 0 s -> 0 <= t_atoiSpace (ts_tun s) < 2 ^ 63 ->
  exists s', play (Send_loop fuel (Datatypes.S turns) m d 0) (CS s []) = (Diverge, CS s' []) /\
    out s' = out s ++ encode_parts id (repeat (len m, []) fuel).
Proof.
  intros Hid Hm. revert s. induction fuel as [|fuel IH]; intros s Hs Hsp.
  { exists s. split; [done|]. by rewrite app_nil_r. }
  assert (0 < len m) by (destruct m; [done|rewrite len_cons; pose proof (len_nonneg m); lia]).
  destruct s as [t l g]. destruct Hs as [Hi Hlim Hl]. simpl in Hi, Hlim, Hl, Hsp.
  destruct (sendChunk_room turns [] (len m) d t l g) as (l' & Hc & Hl' & Ho);
    [by subst|done|done|rewrite (@len_nil byte); lia|].
  rewrite (@len_nil byte), Z.sub_0_r, i64_id in Hc by lia.
  destruct (IH (TS (set_atoi (t_atoiSpace t) (t_atoiSign t) t) l' g)) as (s2 & Hs2 & Ho2);
    [by split|done|].
  exists s2. split.
  - cbn [Send_loop]. rewrite (proj2 (Z.ltb_lt 0 _)) by done. rewrite (play_do _ _ _ t (TS t l g)) by done.
    cbn zeta. rewrite Hlim. change (i64 (0 + 0)) with 0.
    rewrite (proj2 (Z.ltb_ge (len m) 0)) by lia. change (Z.to_nat (0 - 0)) with 0%nat.
    rewrite take_0. cbn [orb]. change (0 <? 0) with false. change (0 =? 0) with true.
    cbn [orb]. rewrite play_bind, Hc. rewrite (play_do _ _ _ (set_atoi (t_atoiSpace t) (t_atoiSign t) t)
      (TS (set_atoi (t_atoiSpace t) (t_atoiSign t) t) l' g)) by done. simpl t_chunkLimit. rewrite Hlim. exact Hs2.
  - rewrite Ho2. unfold out. simpl ts_link. rewrite Ho, <- app_assoc, Hi. done.
Qed.

Lemma fetchMessage_cons t l g m rest : queue_items (t_itoaBuf t) = m :: rest ->
  exists q, queue_items q = rest /\
    fetchMessage (TS t l g) =
    (Ok m, TS (set_itoa q (t_itoaSign t) t) l (g ++ [(t_id t, len (sbytes m))])).
Proof.
  intros Hq. unfold fetchMessage, go_sendTunnelAllowance. simpl ts_tun.
  rewrite queue_Empty_items, bool_decide_eq_false_2 by (by rewrite Hq). simpl.
  destruct (queue_Pop (t_itoaBuf t)) as [[m' q]|] eqn:E.
  - apply queue_Pop_cons in E as E'. rewrite Hq in E'. simplify_eq. by exists q.
  - apply queue_Pop_items in E. congruence.
Qed.

Lemma fetchMessage_nil t l g : queue_items (t_itoaBuf t) = [] ->
  fetchMessage (TS t l g) = (Ok None, TS (set_itoa (t_itoaBuf t) false t) l g).
Proof.
  intros Hq. unfold fetchMessage. simpl ts_tun.
  by rewrite queue_Empty_items, bool_decide_eq_true_2.
Qed.

(** [Recv] on every branch. A queued message is returned at once, its bytes granted
    to the peer; a queued nil slice counts as none. With an empty queue the stale
    arrival signal is cleared and the call parks; closure and timeout end it with
    their errors, and an arrival signal with the message that is there when it looks
    again. *)
Theorem Recv_spec timeout (t : Tunnel Q) l g env :
  let run := play (Recv timeout) (CS (TS t l g) env) in
  match queue_items (t_itoaBuf t) with
  | Some m :: rest => exists q, queue_items q = rest /\
      run = (Ok (Some m), CS (TS (set_itoa q (t_itoaSign t) t) l (g ++ [(t_id t, len m)])) env)
  | None :: rest => exists q, queue_items q = rest /\
      run = play (Recv_wait timeout) (CS (TS (set_itoa q (t_itoaSign t) t) l (g ++ [(t_id t, 0)])) env)
  | [] =>
      let s := TS (set_itoa (t_itoaBuf t) false t) l g in
      match env with
      | [] => run = (Block, CS s [])
      | (f, WTerm) :: env => t_term (ts_tun (f s)) = true -> run = (Err ErrClosed, CS (f s) env)
      | (f, WTimeout) :: env => timeout <> 0 -> run = (Err ErrTimeout, CS (f s) env)
      | (f, WSignal) :: env => forall h w env' s1 t1 l1 g1 m rest, env = (h, w) :: env' ->
          on_tun recv_itoaSign (f s) = (Ok tt, s1) -> h s1 = TS t1 l1 g1 ->
          queue_items (t_itoaBuf t1) = Some m :: rest ->
          exists q, queue_items q = rest /\
            run = (Ok (Some m), CS (TS (set_itoa q (t_itoaSign t1) t1) l1 (g1 ++ [(t_id t1, len m)])) env')
      end
  end.
Proof.
  cbn zeta. unfold Recv. destruct (queue_items (t_itoaBuf t)) as [|[m|] rest] eqn:Hq.
  - rewrite (play_do _ _ _ _ _ _ (fetchMessage_nil t l g Hq)). set (s := TS _ l g). unfold Recv_wait.
    rewrite play_bind. destruct env as [|[f w] env]; [done|]. rewrite play_select.
    destruct (f s) as [t1 l1 g1] eqn:Ef. destruct w; cbn [Recv_select].
    + simpl. intros Ht. unfold on_tun, recv_tunTerm. rewrite bind_eq. simpl. by rewrite Ht.
    + intros Ht. by rewrite (proj2 (Z.eqb_neq timeout 0)).
    + intros h w env' s1 t2 l2 g2 m rest -> -> Eh Hm. cbn [fst snd]. rewrite play_go, Eh.
      destruct (fetchMessage_cons t2 l2 g2 (Some m) rest Hm) as (q & Hq' & E). exists q. split; [done|].
      by rewrite (play_do _ _ _ _ _ _ E).
  - destruct (fetchMessage_cons t l g (Some m) rest Hq) as (q & Hq' & E).
    exists q. split; [done|]. by rewrite (play_do _ _ _ _ _ _ E).
  - destruct (fetchMessage_cons t l g None rest Hq) as (q & Hq' & E).
    exists q. split; [done|]. by rewrite (play_do _ _ _ _ _ _ E).
Qed.

(** One empty continuation chunk from the network is enough to crash an
    application waiting in [Recv]: it completes an absent message, a nil slice
    is queued and the signal raised; [Recv] takes the nil for no message, waits,
    gets the signal and finds the queue empty. *)
Theorem empty_chunk_crashes_Recv (t : Tunnel Q) l g w : t_chunkBuf t = None ->
  queue_items (t_itoaBuf t) = [] ->
  exists t1, handleTransfer 0 [] (TS t l g) = (Ok tt, TS t1 l g) /\
  forall timeout, exists x, play (Recv timeout) (CS (TS t1 l g) [(id, WSignal); (id, w)])
    = (Panic "signal raised but message unavailable", x).
Proof.
  intros Hb Hq. exists (queued None t). split.
  - unfold handleTransfer, on_tun. run. by rewrite Hb.
  - intros tm. unfold Recv.
    assert (queue_items (t_itoaBuf (queued None t)) = [None]) as Hq1.
    { simpl. by rewrite queue_Push_items, Hq. }
    destruct (fetchMessage_cons (queued None t) l g None [] Hq1) as (q & Hq' & E).
    rewrite (play_do _ _ _ _ _ _ E). unfold Recv_wait. rewrite play_bind, play_select. cbn [Recv_select id].
    unfold on_tun, recv_itoaSign. cbn [ts_tun ts_link ts_go]. simpl t_itoaSign. cbn [fst snd]. rewrite play_go. simpl id.
    eexists. etrans; [eapply play_do, (fetchMessage_nil (take_itoaSign (set_itoa q true (queued None t))) l _ Hq')|].
    reflexivity.
Qed.

(** A tunnel closes once: the first [handleClose] records the reason and
    closes the termination channel, a second one panics; [Close] on a closed
    tunnel returns the recorded reason without touching the link, and on an open
    one it sends the request and waits for the closure. *)
Theorem close_spec (reason : gostring) (t : Tunnel Q) l g env w :
  t_term t = false -> isu64 (t_id t) -> link_ready l ->
  exists t', tun_handleClose reason t = (Ok tt, t') /\ t_term t' = true /\
    t_stat t' = (match reason with [] => t_stat t | _ => Some (Errorf "remote error: %s" (FBytes reason)) end) /\
    (forall again, fst (tun_handleClose again t') = Panic "close of closed channel") /\
    play tun_Close (CS (TS t' l g) env) = (Ok (t_stat t'), CS (TS t' l g) env) /\
    exists l', stream (l_wr l') = stream (l_wr l) ++ encode (OTunClose (t_id t)) /\
      play tun_Close (CS (TS t l g) [(id, w)]) = (Block, CS (TS t l' g) []) /\
      play tun_Close (CS (TS t l g) [(id, w); (snd ∘ on_tun (tun_handleClose reason), WTerm)])
      = (Ok (t_stat t'), CS (TS t' l' g) []).
Proof.
  intros Ht Hid Hl. unfold tun_handleClose at 1. rewrite Ht. eexists. split; [done|].
  split_and!; try done.
  destruct (send_ready _ _ l (sendTunnelClose_sends (t_id t) Hid) Hl) as (l' & E & _ & Ho).
  exists l'. split; [done|]. unfold tun_Close.
  rewrite !(play_do _ _ (TS t l g) false (TS t l g)) by (simpl; by rewrite Ht). rewrite !play_go. simpl id.
  rewrite !(play_do _ _ (TS t l g) tt (TS t l' g)) by (rewrite bind_eq; cbn [gets]; unfold on_link; simpl; by rewrite E).
  split; [done|]. rewrite play_bind, play_select. reflexivity.
Qed.
End properties.

(** ** The properties at concrete inputs *)

Definition sample_tunnel : Tunnel (list slice) :=
  mkTunnel 7 2 None [] false 100 false false None.

Definition sample_ts : tstate (list slice) := TS sample_tunnel idle_link [].

Lemma idle_link_ready : link_ready idle_link.
Proof. split; try done. apply fresh_writer_ok. Qed.

Lemma sample_send_state : send_state 7 2 sample_ts.
Proof. split; try done. apply idle_link_ready. Qed.

Definition abc : list byte := [x61; x62; x63].

(** A timeout after the first of two chunks. *)
Definition poor_ts : tstate (list slice) :=
  TS (mkTunnel 7 2 None [] false 2 false false None) idle_link [].
Definition poor_env : list ((tstate (list slice) -> tstate (list slice)) * wake) :=
  [(id, WTerm); (id, WTimeout)].

Lemma Send_spec_witness :
  fst (play (Send 3 (Some abc) 5) (CS poor_ts poor_env)) = Err ErrTimeout /\
  let '(o, CS s' e') := play (Send 3 (Some abc) 5) (CS poor_ts poor_env) in
  (o = Ok tt /\ carries eq 7 (parts 2 abc 0) (out poor_ts) (out s')) \/
  (stopped (negb (5 =? 0)) o /\
   exists k, (k < length (parts 2 abc 0))%nat /\
     carries eq 7 (take k (parts 2 abc 0)) (out poor_ts) (out s')).
Proof.
  split; [by vm_compute|]. apply (Send_spec eq 3 abc 5 7 2 poor_ts poor_env).
  - vm_compute. split; congruence.
  - lia.
  - discriminate.
  - vm_compute. congruence.
  - split; try done. apply idle_link_ready.
  - repeat (apply Forall_cons; split; [apply (fair_id eq)|]). by apply Forall_nil.
  - simpl. lia.
Defined.

(** A message is queued and another call asks for it. *)
Lemma Recv_spec_witness : exists q, queue_items q = [] /\
  play (Recv 0) (CS (TS (set_itoa [Some abc] true sample_tunnel) idle_link []) [])
  = (Ok (Some abc), CS (TS (set_itoa q true sample_tunnel) idle_link [(7, 3)]) []).
Proof. exact (Recv_spec 0 (set_itoa [Some abc] true sample_tunnel) idle_link [] []). Defined.

Definition zero_ts : tstate (list slice) :=
  TS (mkTunnel 7 0 None [] false 0 false false None) idle_link [].

Lemma Send_zero_limit_diverges_witness :
  exists s', play (Send_loop 3 1 abc true 0) (CS zero_ts []) = (Diverge, CS s' []) /\
    out s' = out zero_ts ++ encode_parts 7 (repeat (len abc, []) 3).
Proof.
  apply (Send_zero_limit_diverges 3 0 abc true 7 zero_ts).
  - vm_compute. split; congruence.
  - discriminate.
  - split; try done. apply idle_link_ready.
  - simpl. lia.
Defined.

Lemma empty_chunk_crashes_Recv_witness :
  exists t1, @handleTransfer amd64 _ _ 0 [] sample_ts = (Ok tt, TS t1 idle_link []) /\
  forall timeout, exists s, play (Recv timeout) (CS (TS t1 idle_link []) [(id, WSignal); (id, WSignal)])
    = (Panic "signal raised but message unavailable", s).
Proof.
  apply (@empty_chunk_crashes_Recv amd64 _ _ sample_tunnel idle_link [] WSignal).
  - reflexivity.
  - reflexivity.
Defined.

Lemma close_spec_witness :
  exists t', tun_handleClose (str "bye") sample_tunnel = (Ok tt, t') /\ t_term t' = true /\
    t_stat t' = Some (Errorf "remote error: %s" (FBytes (str "bye"))) /\
    (forall again, fst (tun_handleClose again t') = Panic "close of closed channel") /\
    play tun_Close (CS (TS t' idle_link []) []) = (Ok (t_stat t'), CS (TS t' idle_link []) []) /\
    exists l', stream (l_wr l') = stream (l_wr idle_link) ++ encode (OTunClose 7) /\
      play tun_Close (CS (TS sample_tunnel idle_link []) [(id, WSignal)]) = (Block, CS (TS sample_tunnel l' []) []) /\
      play tun_Close (CS (TS sample_tunnel idle_link [])
          [(id, WSignal); (snd ∘ on_tun (tun_handleClose (str "bye")), WTerm)])
      = (Ok (t_stat t'), CS (TS t' l' []) []).
Proof.
  apply (close_spec (str "bye") sample_tunnel idle_link [] [] WSignal).
  - reflexivity.
  - vm_compute. split; congruence.
  - exact idle_link_ready.
Defined.
