(* ===== verification/TunnelFlow.v ===== *)
(** * The flow of messages between two tunnel ends (tunnel.go)

    The operations of Tunnel.v put together: a sending end, a receiving end, the
    chunks in flight between them in order, and the allowances in flight the
    other way in any order (each is sent by a goroutine of its own). The relays
    in between are taken to forward both without loss. *)

From Stdlib Require Import ZArith Lia Strings.Byte Strings.String.
From stdpp Require Import base gmap strings list relations.
From S2P Require Import Prelude Threads Bufio Wire Packets Tunnel.

Open Scope Z_scope.

Section flow.
Context `{GoRuntime} {Q : Type} `{Queue slice Q}.

(** ** The system *)

(** [f_cur] is the message [Send] is at and its position in it; [f_todo] the
    messages still to be sent, [f_done] those for which [Send] returned nil;
    [f_recvd] what [Recv] has returned. *)
Record flow := Flow {
  f_src : Tunnel Q;
  f_cur : option (list byte * Z);
  f_todo : list (list byte);
  f_done : list (list byte);
  f_data : list (Z * list byte);
  f_dst : Tunnel Q;
  f_grants : list Z;
  f_recvd : list slice
}.

(** Run an operation of one end: its outcome, the tunnel after it and the
    allowances it sends. *)
Definition exec {A} (m : M (tstate Q) A) (t : Tunnel Q) : outcome A * Tunnel Q * list Z :=
  let '(o, s) := m (TS t idle_link []) in (o, ts_tun s, map snd (ts_go s)).

(** The message being sent after a chunk has gone out at [pos]. *)
Definition advance (limit : Z) (m : list byte) (pos : Z) (f : flow) : flow :=
  let pos' := i64 (pos + limit) in
  if pos' <? len m
  then Flow (f_src f) (Some (m, pos')) (f_todo f) (f_done f) (f_data f) (f_dst f)
         (f_grants f) (f_recvd f)
  else Flow (f_src f) None (f_todo f) (f_done f ++ [m]) (f_data f) (f_dst f)
         (f_grants f) (f_recvd f).

Definition set_src t d f := Flow t (f_cur f) (f_todo f) (f_done f) (f_data f ++ d) (f_dst f)
  (f_grants f) (f_recvd f).
Definition set_dst t ds g r f := Flow (f_src f) (f_cur f) (f_todo f) (f_done f) ds t
  (f_grants f ++ g) (f_recvd f ++ r).

(** One step. [tmo] tells whether [Send] is called with a timeout, which can end
    it whenever the allowance does not suffice for the next chunk. *)
Inductive flow_step (tmo : bool) : flow -> flow -> Prop :=
| step_start f m ms : f_cur f = None -> f_todo f = m :: ms ->
    flow_step tmo f (Flow (f_src f) (Some (m, 0)) ms (f_done f) (f_data f) (f_dst f)
      (f_grants f) (f_recvd f))
| step_chunk f m pos tag c ps src : f_cur f = Some (m, pos) ->
    parts (Z.to_nat (t_chunkLimit (f_src f))) m pos = (tag, c) :: ps ->
    drainAllowance (len c) (f_src f) = (Ok true, src) ->
    flow_step tmo f (advance (t_chunkLimit (f_src f)) m pos (set_src src [(tag, c)] f))
| step_timeout f m pos tag c ps src : tmo = true -> f_cur f = Some (m, pos) ->
    parts (Z.to_nat (t_chunkLimit (f_src f))) m pos = (tag, c) :: ps ->
    drainAllowance (len c) (f_src f) = (Ok false, src) ->
    flow_step tmo f (Flow src None (f_todo f) (f_done f) (f_data f) (f_dst f)
      (f_grants f) (f_recvd f))
| step_transfer f tag c ds dst g : f_data f = (tag, c) :: ds ->
    exec (handleTransfer tag c) (f_dst f) = (Ok tt, dst, g) ->
    flow_step tmo f (set_dst dst ds g [] f)
| step_recv f m dst g : exec fetchMessage (f_dst f) = (Ok (Some m), dst, g) ->
    flow_step tmo f (set_dst dst (f_data f) g [Some m] f)
| step_grant f n src g1 g2 : f_grants f = g1 ++ n :: g2 ->
    handleAllowance n (f_src f) = (Ok tt, src) ->
    flow_step tmo f (Flow src (f_cur f) (f_todo f) (f_done f) (f_data f) (f_dst f)
      (g1 ++ g2) (f_recvd f)).

(** The start: no allowance yet, the receiver's grant of its whole buffer on the
    way. *)
Definition flow_init (buffer : Z) (src dst : Tunnel Q) (ms : list (list byte)) : flow :=
  Flow src None ms [] [] dst [buffer] [].

Record fresh (limit : Z) (src dst : Tunnel Q) : Prop := {
  fr_limit : t_chunkLimit src = limit;
  fr_space : t_atoiSpace src = 0;
  fr_buf : t_chunkBuf dst = None;
  fr_queue : queue_items (t_itoaBuf dst) = []
}.

(** ** What is held where *)

Definition data_bytes (ds : list (Z * list byte)) : Z := sumZ (map (λ d, len (snd d)) ds).
Definition queue_bytes (q : Q) : Z := sumZ (map (λ m, len (sbytes m)) (queue_items q)).

(** Bytes the receiving end holds: the partial message and the queue. *)
Definition held (t : Tunnel Q) : Z := buf_len (t_chunkBuf t) + queue_bytes (t_itoaBuf t).

(** Reassembly of chunks from a state of the chunk buffer: the messages
    completed and the buffer left. *)
Fixpoint asm (b : option (list byte * Z)) (ds : list (Z * list byte))
  : list slice * option (list byte * Z) :=
  match ds with
  | [] => ([], b)
  | (tag, c) :: ds =>
      let b1 := append (if tag =? 0 then b else Some ([], tag)) c in
      if buf_len b1 =? buf_cap b1
      then let '(ms, b2) := asm None ds in ((fst <$> b1) :: ms, b2)
      else asm b1 ds
  end.

Lemma data_bytes_app a b : data_bytes (a ++ b) = data_bytes a + data_bytes b.
Proof. unfold data_bytes. by rewrite map_app, sumZ_app. Qed.

Lemma data_bytes_cons tag c ds : data_bytes ((tag, c) :: ds) = len c + data_bytes ds.
Proof. done. Qed.

Lemma data_bytes_nonneg ds : 0 <= data_bytes ds.
Proof.
  induction ds as [|[tag c] ds IH]; [done|]. rewrite data_bytes_cons.
  pose proof (len_nonneg c). lia.
Qed.

Lemma queue_bytes_push m q : queue_bytes (queue_Push m q) = queue_bytes q + len (sbytes m).
Proof.
  unfold queue_bytes. rewrite queue_Push_items, map_app, sumZ_app. simpl. lia.
Qed.

Lemma queue_bytes_nonneg q : 0 <= queue_bytes q.
Proof.
  unfold queue_bytes. induction (queue_items q) as [|m l IH]; [done|]. simpl.
  pose proof (len_nonneg (sbytes m)). unfold sumZ in *. simpl. lia.
Qed.

Lemma asm_app b ds es : asm b (ds ++ es) =
  let '(ms, b1) := asm b ds in let '(ns, b2) := asm b1 es in (ms ++ ns, b2).
Proof.
  revert b. induction ds as [|[tag c] ds IH]; intros b; simpl.
  - by destruct (asm b es).
  - set (b1 := append _ c). destruct (buf_len b1 =? buf_cap b1); rewrite IH; [|done].
    destruct (asm None ds) as [ms b2]. by destruct (asm b2 es).
Qed.

Lemma append_len b c : buf_len (append b c) = buf_len b + len c.
Proof. destruct b as [[d cap]|]; simpl; [by rewrite len_app|]. by destruct c. Qed.

Lemma buf_len_nonneg b : 0 <= buf_len b.
Proof. destruct b as [[d cap]|]; simpl; [apply len_nonneg|lia]. Qed.

(** What is assembled was in the buffer or in flight. *)
Lemma asm_bytes b ds : buf_len (snd (asm b ds)) <= buf_len b + data_bytes ds.
Proof.
  revert b. induction ds as [|[tag c] ds IH]; intros b; simpl; [unfold data_bytes; simpl; lia|].
  set (b1 := append _ c). rewrite data_bytes_cons. pose proof (len_nonneg c).
  assert (buf_len b1 <= buf_len b + len c).
  { unfold b1. rewrite append_len. pose proof (buf_len_nonneg b). case_test; simpl; rewrite ?len_nil; lia. }
  pose proof (buf_len_nonneg b). destruct (buf_len b1 =? buf_cap b1).
  - pose proof (IH None) as Hn. destruct (asm None ds) as [ms o]. cbn in Hn |- *. lia.
  - pose proof (IH b1). lia.
Qed.

(** ** [handleTransfer] and [fetchMessage] as functions *)

Definition transferred (tag : Z) (c : list byte) (t : Tunnel Q) : Tunnel Q :=
  let b1 := append (if tag =? 0 then t_chunkBuf t else Some ([], tag)) c in
  if buf_len b1 =? buf_cap b1 then queued (fst <$> b1) t else set_chunkBuf b1 t.

Definition refund (tag : Z) (t : Tunnel Q) : list Z :=
  if tag =? 0 then [] else match t_chunkBuf t with Some (d, _) => [len d] | None => [] end.

Lemma handleTransfer_eq tag c t l g : 0 <= tag <= maxAlloc ->
  handleTransfer tag c (TS t l g) = (Ok tt, TS (transferred tag c t) l (g ++ map (pair (t_id t)) (refund tag t))).
Proof.
  intros Ht. unfold handleTransfer, transferred, refund, on_tun, go_sendTunnelAllowance.
  destruct (Z.eqb_spec tag 0) as [->|Hn]; run.
  - rewrite app_nil_r. by destruct (_ =? _).
  - destruct (t_chunkBuf t) as [[d cap]|]; run;
      rewrite (proj2 (Z.ltb_ge tag 0)), (proj2 (Z.ltb_ge maxAlloc tag)) by lia; run; rewrite ?app_nil_r;
      by destruct (_ =? _).
Qed.

Lemma exec_transfer tag c t : 0 <= tag <= maxAlloc ->
  exec (handleTransfer tag c) t = (Ok tt, transferred tag c t, refund tag t).
Proof. intros Ht. unfold exec. rewrite handleTransfer_eq by done. simpl. by rewrite map_map, map_id. Qed.

Lemma exec_fetch t m rest : queue_items (t_itoaBuf t) = m :: rest ->
  exists q, queue_items q = rest /\
  exec fetchMessage t = (Ok m, set_itoa q (t_itoaSign t) t, [len (sbytes m)]).
Proof.
  intros Hq. destruct (fetchMessage_cons t idle_link [] m rest Hq) as (q & Hr & E).
  exists q. split; [done|]. unfold exec. by rewrite E.
Qed.

Lemma exec_fetch_nil t : queue_items (t_itoaBuf t) = [] ->
  exec fetchMessage t = (Ok None, set_itoa (t_itoaBuf t) false t, []).
Proof. intros Hq. unfold exec. by rewrite fetchMessage_nil. Qed.

(** Transfers and fetches move bytes, they neither create nor lose any. *)
Lemma transferred_held tag c t :
  held (transferred tag c t) + sumZ (refund tag t) = held t + len c.
Proof.
  unfold held, transferred, refund. set (b1 := append _ c).
  assert (buf_len b1 + sumZ (if tag =? 0 then [] else
      match t_chunkBuf t with Some (d, _) => [len d] | None => [] end)
    = buf_len (t_chunkBuf t) + len c) as Hb.
  { unfold b1. rewrite append_len. destruct (tag =? 0); simpl; [lia|].
    destruct (t_chunkBuf t) as [[d cap]|]; simpl; rewrite ?len_nil; lia. }
  destruct (buf_len b1 =? buf_cap b1); simpl; [|lia].
  rewrite queue_bytes_push. replace (len (sbytes (fst <$> b1))) with (buf_len b1); [lia|].
  by destruct b1 as [[d cap]|].
Qed.

Lemma transferred_asm tag c t ds :
  queue_items (t_itoaBuf t) ++ fst (asm (t_chunkBuf t) ((tag, c) :: ds))
  = queue_items (t_itoaBuf (transferred tag c t)) ++ fst (asm (t_chunkBuf (transferred tag c t)) ds)
  /\ snd (asm (t_chunkBuf t) ((tag, c) :: ds)) = snd (asm (t_chunkBuf (transferred tag c t)) ds).
Proof.
  unfold transferred. simpl. set (b1 := append _ c).
  destruct (buf_len b1 =? buf_cap b1); simpl; [|done].
  rewrite queue_Push_items. destruct (asm None ds). simpl. by rewrite <- app_assoc.
Qed.

Lemma held_set_itoa q s m rest t : queue_items (t_itoaBuf t) = m :: rest -> queue_items q = rest ->
  held (set_itoa q s t) + len (sbytes m) = held t.
Proof.
  intros Hq Hr. unfold held, queue_bytes. simpl. rewrite Hq, Hr. simpl.
  unfold sumZ. simpl. lia.
Qed.
End flow.

(** ** The invariant *)

Section invariant.
Context `{GoRuntime} {Q : Type} `{Queue slice Q}.
Context (tmo : bool) (buffer limit L : Z) (msgs : list (list byte)).
Context (buffer_ok : 0 < buffer < 2 ^ 63) (limit_ok : 0 < limit < 2 ^ 62).
Context (L_alloc : L <= maxAlloc) (L_ok : L < 2 ^ 62).
Implicit Types f : flow (Q := Q).

(** A chunk buffer between messages: empty, unless a timeout has left a part of
    an abandoned message there. *)
Definition partial (b : option (list byte * Z)) : Prop :=
  match b with None => True | Some (d, cap) => tmo = true /\ len d < cap <= L end.

(** [fin] is the chunk buffer once all the chunks in flight will have arrived. *)
Definition cur_ok (cur : option (list byte * Z)) (fin : option (list byte * Z)) : Prop :=
  match cur with
  | None => partial fin
  | Some (m, pos) => len m <= L /\ 0 <= pos < len m /\
      if pos =? 0 then partial fin else fin = Some (take (Z.to_nat pos) m, len m)
  end.

Definition cur_list (cur : option (list byte * Z)) : list (list byte) :=
  match cur with None => [] | Some (m, _) => [m] end.

Record flow_ok f : Prop := {
  fo_limit : t_chunkLimit (f_src f) = limit;
  fo_space : 0 <= t_atoiSpace (f_src f);
  fo_grants : Forall (Z.le 0) (f_grants f);
  fo_cons : t_atoiSpace (f_src f) + data_bytes (f_data f) + held (f_dst f)
            + sumZ (f_grants f) = buffer;
  fo_todo : Forall (λ m, 0 < len m <= L) (f_todo f);
  fo_tags : Forall (λ d, 0 <= fst d <= maxAlloc) (f_data f);
  fo_asm : f_recvd f ++ queue_items (t_itoaBuf (f_dst f))
           ++ fst (asm (t_chunkBuf (f_dst f)) (f_data f)) = map Some (f_done f);
  fo_cur : cur_ok (f_cur f) (snd (asm (t_chunkBuf (f_dst f)) (f_data f)));
  fo_msgs : f_done f ++ cur_list (f_cur f) ++ f_todo f `sublist_of` msgs;
  fo_all : tmo = false -> f_done f ++ cur_list (f_cur f) ++ f_todo f = msgs;
  fo_fit : Forall (λ m, len m <= buffer) (f_done f)
}.

(** The chunk sent from position [pos] continues the assembly. *)
Lemma asm_chunk m pos fin : cur_ok (Some (m, pos)) fin ->
  asm fin [(if pos =? 0 then len m else 0, take (Z.to_nat limit) (drop (Z.to_nat pos) m))]
  = if len m <=? pos + limit then ([Some m], None)
    else ([], Some (take (Z.to_nat (pos + limit)) m, len m)).
Proof.
  intros (HL & Hp & Hfin).
  assert (append (if (if pos =? 0 then len m else 0) =? 0 then fin
                  else Some ([], if pos =? 0 then len m else 0))
            (take (Z.to_nat limit) (drop (Z.to_nat pos) m))
          = Some (take (Z.to_nat (pos + limit)) m, len m)) as Hb.
  { rewrite Z2Nat.inj_add by lia. rewrite <- take_take_drop.
    assert (len (take (Z.to_nat pos) m) + len (take (Z.to_nat limit) (drop (Z.to_nat pos) m))
            <= len m) as Hl.
    { unfold len. rewrite !length_take, length_drop. unfold len in *. lia. }
    destruct (Z.eqb_spec pos 0) as [->|Hn].
    - rewrite (proj2 (Z.eqb_neq _ _)) by lia. simpl in *. rewrite (@len_nil byte) in *. pose proof (len_nonneg (take (Z.to_nat 0) m)).
      by rewrite (proj2 (Z.leb_le _ _)) by lia.
    - subst fin. simpl. by rewrite (proj2 (Z.leb_le _ _)) by lia. }
  simpl. rewrite Hb. simpl. unfold len in *. rewrite length_take. case_test.
  - rewrite (proj2 (Z.eqb_eq _ _)) by lia. rewrite take_ge by lia. done.
  - by rewrite (proj2 (Z.eqb_neq _ _)) by lia.
Qed.

Lemma asm_snoc b ds d : snd (asm b (ds ++ [d])) = snd (asm (snd (asm b ds)) [d]) /\
  fst (asm b (ds ++ [d])) = fst (asm b ds) ++ fst (asm (snd (asm b ds)) [d]).
Proof.
  rewrite asm_app. destruct (asm b ds) as [ms b1]. change (snd (ms, b1)) with b1.
  by destruct (asm b1 [d]).
Qed.

Lemma chunk_parts f m pos tag c ps : flow_ok f -> f_cur f = Some (m, pos) ->
  parts (Z.to_nat (t_chunkLimit (f_src f))) m pos = (tag, c) :: ps ->
  tag = (if pos =? 0 then len m else 0) /\
  c = take (Z.to_nat limit) (drop (Z.to_nat pos) m).
Proof.
  intros Hf Hc Hp. pose proof (fo_cur f Hf) as Hcur. rewrite Hc in Hcur.
  destruct Hcur as (_ & Hr & _). rewrite (fo_limit f Hf), parts_cons in Hp by lia.
  by simplify_eq.
Qed.

Lemma flow_ok_init src dst : fresh limit src dst -> Forall (λ m, 0 < len m <= L) msgs ->
  flow_ok (flow_init buffer src dst msgs).
Proof.
  intros [Hl Hs Hb Hq] Hm. split; simpl; auto.
  - lia.
  - constructor; [lia|constructor].
  - unfold held, queue_bytes, data_bytes. rewrite Hs, Hb, Hq. simpl. lia.
  - by rewrite Hq.
  - by rewrite Hb.
Qed.

Lemma flow_ok_chunk f m pos tag c ps src : flow_ok f -> f_cur f = Some (m, pos) ->
  parts (Z.to_nat (t_chunkLimit (f_src f))) m pos = (tag, c) :: ps ->
  drainAllowance (len c) (f_src f) = (Ok true, src) ->
  flow_ok (advance (t_chunkLimit (f_src f)) m pos (set_src src [(tag, c)] f)).
Proof.
  intros Hf Hc Hp Hd. destruct (chunk_parts _ _ _ _ _ _ Hf Hc Hp) as [-> ->].
  set (c := take _ _) in *. destruct Hf as [Hl Hs Hg Hcons Htd Htg Hasm Hcur Hms Hall Hfit].
  rewrite Hc in Hcur, Hms, Hall. pose proof (asm_chunk _ _ _ Hcur) as Hch.
  pose proof Hcur as (HL & Hpos & _).
  pose proof (asm_snoc (t_chunkBuf (f_dst f)) (f_data f) (if pos =? 0 then len m else 0, c)) as [Hs2 Hs1].
  fold c in Hch. rewrite Hch in Hs1, Hs2.
  unfold drainAllowance in Hd.
  destruct (Z.leb_spec (len c) (t_atoiSpace (f_src f))); [|congruence]. injection Hd as <-.
  pose proof (data_bytes_nonneg (f_data f)). pose proof (sumZ_nonneg _ Hg).
  pose proof (buf_len_nonneg (t_chunkBuf (f_dst f))).
  pose proof (queue_bytes_nonneg (t_itoaBuf (f_dst f))). pose proof (len_nonneg c).
  assert (i64 (t_atoiSpace (f_src f) - len c) = t_atoiSpace (f_src f) - len c) as Hi
    by (apply i64_id; unfold held in *; lia).
  assert (Forall (λ d, 0 <= fst d <= maxAlloc) (f_data f ++ [(if pos =? 0 then len m else 0, c)])).
  { apply Forall_app. split; [done|]. constructor; [|constructor]. simpl. case_test; lia. }
  assert (i64 (pos + limit) = pos + limit) as Hi2 by (apply i64_id; lia).
  unfold advance. rewrite Hl, Hi2. destruct (Z.ltb_spec (pos + limit) (len m)).
  - rewrite (proj2 (Z.leb_gt _ _)) in Hs1, Hs2 by lia. simpl in Hs1, Hs2. rewrite app_nil_r in Hs1.
    split; simpl; auto; try lia.
    + rewrite Hi, data_bytes_app, data_bytes_cons. unfold data_bytes at 2. simpl. lia.
    + by rewrite Hs1.
    + rewrite Hs2. splits; try lia. by rewrite (proj2 (Z.eqb_neq _ _)) by lia.
  - rewrite (proj2 (Z.leb_le _ _)) in Hs1, Hs2 by lia. simpl in Hs1, Hs2.
    split; simpl; auto; try lia.
    + rewrite Hi, data_bytes_app, data_bytes_cons. unfold data_bytes at 2. simpl. lia.
    + rewrite Hs1, map_app, <- Hasm. by rewrite <- !app_assoc.
    + by rewrite Hs2.
    + by rewrite <- app_assoc.
    + intros Ht. rewrite <- app_assoc. by apply Hall.
    + apply Forall_app. split; [done|]. constructor; [|constructor].
      pose proof (asm_bytes (t_chunkBuf (f_dst f)) (f_data f)) as Hab.
      unfold held in Hcons. unfold c, len in *. rewrite length_take, length_drop in *.
      destruct Hcur as (_ & _ & Hfin). destruct (Z.eqb_spec pos 0) as [->|Hn].
      * lia.
      * rewrite Hfin in Hab. simpl in Hab. unfold len in Hab. rewrite length_take in Hab. lia.
Qed.

Lemma flow_ok_transfer f tag c ds dst g : flow_ok f -> f_data f = (tag, c) :: ds ->
  exec (handleTransfer tag c) (f_dst f) = (Ok tt, dst, g) ->
  flow_ok (set_dst dst ds g [] f).
Proof.
  intros [Hl Hs Hg Hcons Htd Htg Hasm Hcur Hms Hall Hfit] Hd Hx. rewrite Hd in *.
  apply Forall_cons in Htg as [Ht Htg]. simpl in Ht. rewrite exec_transfer in Hx by done.
  injection Hx as <- <-. pose proof (transferred_held tag c (f_dst f)) as Hh.
  destruct (transferred_asm tag c (f_dst f) ds) as [Ha1 Ha2]. rewrite data_bytes_cons in Hcons.
  split; simpl; auto.
  - apply Forall_app. split; [done|]. unfold refund. case_test; [constructor|].
    destruct (t_chunkBuf (f_dst f)) as [[d cap]|]; constructor; [apply len_nonneg|constructor].
  - rewrite sumZ_app. lia.
  - by rewrite app_nil_r, <- Ha1.
  - by rewrite <- Ha2.
Qed.

Lemma flow_ok_recv f m dst g : flow_ok f ->
  exec fetchMessage (f_dst f) = (Ok (Some m), dst, g) ->
  flow_ok (set_dst dst (f_data f) g [Some m] f).
Proof.
  intros [Hl Hs Hg Hcons Htd Htg Hasm Hcur Hms Hall Hfit] Hx.
  destruct (queue_items (t_itoaBuf (f_dst f))) as [|m0 rest] eqn:Hq.
  { by rewrite exec_fetch_nil in Hx. }
  destruct (exec_fetch _ _ _ Hq) as (q & Hr & E). rewrite E in Hx. simplify_eq.
  pose proof (held_set_itoa q (t_itoaSign (f_dst f)) _ _ _ Hq eq_refl) as Hh. simpl in Hh.
  split; simpl; auto.
  - apply Forall_app. split; [done|]. constructor; [apply len_nonneg|constructor].
  - rewrite sumZ_app. simpl. lia.
  - by rewrite <- app_assoc.
Qed.

Lemma flow_ok_grant f n src g1 g2 : flow_ok f -> f_grants f = g1 ++ n :: g2 ->
  handleAllowance n (f_src f) = (Ok tt, src) ->
  flow_ok (Flow src (f_cur f) (f_todo f) (f_done f) (f_data f) (f_dst f) (g1 ++ g2) (f_recvd f)).
Proof.
  intros [Hl Hs Hg Hcons Htd Htg Hasm Hcur Hms Hall Hfit] Hx Hn. injection Hn as <-.
  rewrite Hx in *. apply Forall_app in Hg as [Hg1 Hg2]. apply Forall_cons in Hg2 as [Hn Hg2].
  rewrite sumZ_app in Hcons. simpl in Hcons.
  pose proof (sumZ_nonneg _ Hg1). pose proof (sumZ_nonneg _ Hg2).
  pose proof (data_bytes_nonneg (f_data f)). pose proof (buf_len_nonneg (t_chunkBuf (f_dst f))).
  pose proof (queue_bytes_nonneg (t_itoaBuf (f_dst f))). unfold held, sumZ in *.
  assert (i64 (t_atoiSpace (f_src f) + n) = t_atoiSpace (f_src f) + n) as Hi
    by (apply i64_id; lia).
  split; simpl; auto; rewrite ?Hi; [lia|by apply Forall_app|].
  unfold held. fold (sumZ (g1 ++ g2)). rewrite sumZ_app. unfold sumZ. lia.
Qed.

Lemma flow_ok_step f f' : flow_ok f -> flow_step tmo f f' -> flow_ok f'.
Proof.
  intros Hf Hst. destruct Hst.
  - destruct Hf as [? ? ? ? Htd ? ? Hcur Hms Hall ?]. rewrite H1 in Hcur, Hms, Hall.
    rewrite H2 in Htd, Hms, Hall. apply Forall_cons in Htd as [Hm Htd].
    split; simpl; auto. splits; try lia. done.
  - eauto using flow_ok_chunk.
  - pose proof (chunk_parts _ _ _ _ _ _ Hf H2 H3) as [-> ->].
    destruct Hf as [Hl ? ? ? Htd ? ? Hcur Hms Hall ?]. rewrite H2 in Hcur, Hms.
    unfold drainAllowance in H4. destruct (Z.leb _ _); [congruence|]. injection H4 as <-.
    split; simpl; auto.
    + destruct Hcur as (HL & Hp & Hfin). destruct (pos =? 0); [done|].
      rewrite Hfin. simpl. split; [done|]. unfold len in *. rewrite length_take. lia.
    + etransitivity; [|exact Hms]. simpl. apply sublist_app; [done|]. by constructor.
    + congruence.
  - eauto using flow_ok_transfer.
  - eauto using flow_ok_recv.
  - eauto using flow_ok_grant.
Qed.

Lemma flow_ok_reach src dst f : fresh limit src dst -> Forall (λ m, 0 < len m <= L) msgs ->
  reach (flow_step tmo) (flow_init buffer src dst msgs) f -> flow_ok f.
Proof.
  intros Hfr Hm. apply reach_invariant; [by apply flow_ok_init|]. apply flow_ok_step.
Qed.
End invariant.

(** ** Progress *)

Section progress.
Context `{GoRuntime} {Q : Type} `{Queue slice Q}.
Context (tmo : bool) (buffer limit L : Z) (msgs : list (list byte)).
Context (buffer_ok : 0 < buffer < 2 ^ 63) (limit_ok : 0 < limit < 2 ^ 62).
Context (L_alloc : L <= maxAlloc) (L_ok : L < 2 ^ 62).
Implicit Types f : flow (Q := Q).

(** Nothing more to send, and nothing left on the way. *)
Definition finished f : Prop :=
  f_cur f = None /\ f_todo f = [] /\ f_recvd f = map Some (f_done f).

Lemma asm_nil b : asm b [] = ([], b).
Proof. done. Qed.

(** The allowance suffices for the next chunk when everything else is at rest. *)
Lemma chunk_allowed f m pos : L + (if tmo then limit else 0) <= buffer ->
  flow_ok tmo buffer limit L msgs f -> f_cur f = Some (m, pos) ->
  f_data f = [] -> queue_items (t_itoaBuf (f_dst f)) = [] -> f_grants f = [] ->
  len (take (Z.to_nat limit) (drop (Z.to_nat pos) m)) <= t_atoiSpace (f_src f).
Proof.
  intros HB [_ Hs _ Hcons _ _ _ Hcur _ _ _] Hc Hd Hq Hg.
  rewrite Hc, Hd, asm_nil in Hcur. simpl in Hcur. destruct Hcur as (HL & Hp & Hfin).
  unfold held, queue_bytes in Hcons. rewrite Hd, Hq, Hg in Hcons. simpl in Hcons.
  unfold data_bytes in Hcons. simpl in Hcons.
  assert (len (take (Z.to_nat limit) (drop (Z.to_nat pos) m)) = Z.min limit (len m - pos)) as ->.
  { unfold len in *. rewrite length_take, length_drop. lia. }
  destruct (Z.eqb_spec pos 0) as [->|Hn].
  - destruct (t_chunkBuf (f_dst f)) as [[d cap]|]; simpl in *; [|destruct tmo; lia].
    destruct Hfin as (Ht & ?). rewrite Ht in HB. lia.
  - rewrite Hfin in Hcons. simpl in Hcons. unfold len in Hcons at 1.
    rewrite length_take in Hcons. unfold len in *. destruct tmo; lia.
Qed.

Lemma flow_progress f : L + (if tmo then limit else 0) <= buffer ->
  flow_ok tmo buffer limit L msgs f -> finished f \/ exists f', flow_step tmo f f'.
Proof.
  intros HB Hf. destruct (f_grants f) as [|n g] eqn:Hg.
  2: { right. eexists. by eapply (step_grant tmo f n _ [] g). }
  destruct (f_data f) as [|[tag c] ds] eqn:Hd.
  2: { right. pose proof (fo_tags _ _ _ _ _ _ Hf) as Ht. rewrite Hd in Ht.
       apply Forall_cons in Ht as [Ht _]. eexists. eapply step_transfer; [exact Hd|].
       by apply exec_transfer. }
  pose proof (fo_asm _ _ _ _ _ _ Hf) as Hasm. rewrite Hd, asm_nil in Hasm. simpl in Hasm.
  destruct (queue_items (t_itoaBuf (f_dst f))) as [|m q] eqn:Hq.
  2: { right. destruct (exec_fetch _ _ _ Hq) as (q' & _ & E).
       assert (m ∈ map Some (f_done f)) as Hm.
       { rewrite <- Hasm. apply elem_of_app. right. simpl. by left. }
       apply list_elem_of_fmap in Hm as (x & -> & _).
       eexists. eapply step_recv. exact E. }
  destruct (f_cur f) as [[m pos]|] eqn:Hc.
  - right. pose proof (chunk_allowed f m pos HB Hf Hc Hd Hq Hg) as Ha.
    pose proof (fo_cur _ _ _ _ _ _ Hf) as Hcur. rewrite Hc in Hcur. destruct Hcur as (_ & Hp & _).
    eexists. eapply step_chunk; [exact Hc| |].
    + rewrite (fo_limit _ _ _ _ _ _ Hf). apply parts_cons; lia.
    + unfold drainAllowance. by rewrite (proj2 (Z.leb_le _ _) Ha).
  - destruct (f_todo f) as [|m ms] eqn:Ht.
    + left. splits; auto. by rewrite !app_nil_r in Hasm.
    + right. eexists. by eapply step_start.
Qed.

(** ** Termination *)

Definition work_todo (ms : list (list byte)) : Z := sumZ (map (λ m, 5 * len m + 2) ms).

Definition work f : Z :=
  work_todo (f_todo f) + match f_cur f with None => 0 | Some (m, pos) => 5 * (len m - pos) + 1 end
  + 4 * len (f_data f) + 2 * len (queue_items (t_itoaBuf (f_dst f))) + len (f_grants f).

Lemma work_todo_nonneg ms : 0 <= work_todo ms.
Proof.
  unfold work_todo. induction ms as [|m ms IH]; [done|]. simpl. pose proof (len_nonneg m).
  unfold sumZ in *. simpl. lia.
Qed.

Lemma work_nonneg f : flow_ok tmo buffer limit L msgs f -> 0 <= work f.
Proof.
  intros Hf. pose proof (fo_cur _ _ _ _ _ _ Hf) as Hc. unfold work.
  pose proof (work_todo_nonneg (f_todo f)). pose proof (len_nonneg (f_data f)).
  pose proof (len_nonneg (queue_items (t_itoaBuf (f_dst f)))). pose proof (len_nonneg (f_grants f)).
  destruct (f_cur f) as [[m pos]|]; simpl in Hc; lia.
Qed.

Lemma work_step f f' : flow_ok tmo buffer limit L msgs f -> flow_step tmo f f' -> work f' < work f.
Proof.
  intros Hf Hst. pose proof (fo_cur _ _ _ _ _ _ Hf) as Hcur. unfold work. destruct Hst as
    [f m ms Hc Ht|f m pos tag c ps src Hc Hp Hd|f m pos tag c ps src Ht Hc Hp Hd
    |f tag c ds dst g Hd Hx|f m dst g Hx|f n src g1 g2 Hg Hx].
  - simpl. rewrite Hc, Ht. unfold work_todo. simpl. unfold sumZ. simpl. lia.
  - rewrite Hc in Hcur. destruct Hcur as (HL & Hr & _).
    unfold advance. rewrite (fo_limit _ _ _ _ _ _ Hf), i64_id by lia.
    destruct (Z.ltb_spec (pos + limit) (len m)); simpl; rewrite Hc; len_lia.
  - rewrite Hc in Hcur |- *. destruct Hcur as (HL & Hr & _). simpl.
    unfold drainAllowance in Hd. lia.
  - pose proof (fo_tags _ _ _ _ _ _ Hf) as Htg. rewrite Hd in Htg |- *.
    apply Forall_cons in Htg as [Htg _]. rewrite exec_transfer in Hx by done. simplify_eq. simpl.
    rewrite len_cons, len_app.
    assert (len (refund tag (f_dst f)) <= 1).
    { unfold refund. destruct (tag =? 0); [done|]. by destruct (t_chunkBuf (f_dst f)) as [[]|]. }
    assert (len (queue_items (t_itoaBuf (transferred tag c (f_dst f))))
      <= len (queue_items (t_itoaBuf (f_dst f))) + 1).
    { unfold transferred. destruct (_ =? buf_cap _); simpl; [|lia].
      rewrite queue_Push_items. len_lia. }
    lia.
  - destruct (queue_items (t_itoaBuf (f_dst f))) as [|m0 rest] eqn:Hq.
    { by rewrite exec_fetch_nil in Hx. }
    destruct (exec_fetch _ _ _ Hq) as (q & Hr & E). rewrite E in Hx. simplify_eq. simpl.
    len_lia.
  - rewrite Hg. simpl. len_lia.
Qed.

Lemma work_init src dst : fresh limit src dst ->
  work (flow_init buffer src dst msgs) = work_todo msgs + 1.
Proof. intros [_ _ _ Hq]. unfold work. simpl. rewrite Hq. unfold len. simpl. lia. Qed.

Lemma flow_steps_bounded src dst n f : fresh limit src dst ->
  Forall (λ m, 0 < len m <= L) msgs ->
  relations.nsteps (flow_step tmo) n (flow_init buffer src dst msgs) f ->
  Z.of_nat n <= work_todo msgs + 1.
Proof.
  intros Hfr Hm.
  assert (flow_ok tmo buffer limit L msgs (flow_init buffer src dst msgs)) as Hok
    by (eapply flow_ok_init; eauto).
  rewrite <- (work_init src dst Hfr). revert Hok. generalize (flow_init buffer src dst msgs) as f0.
  intros f0 Hok Hn. induction Hn as [|n f0 f1 f2 Hst Hn IH].
  - pose proof (work_nonneg _ Hok). lia.
  - pose proof (work_step _ _ Hok Hst).
    assert (flow_ok tmo buffer limit L msgs f1) as Hok1 by (eapply flow_ok_step; eauto).
    specialize (IH Hok1). lia.
Qed.
End progress.

(** ** Properties *)

Section properties.
Context `{GoRuntime} {Q : Type} `{Queue slice Q}.
Implicit Types f : flow (Q := Q).

(** Two fresh tunnel ends and messages of at most [L] bytes to send. *)
Record setup (buffer limit L : Z) (msgs : list (list byte)) (src dst : Tunnel Q) : Prop := {
  su_buffer : 0 < buffer < 2 ^ 63;
  su_limit : 0 < limit < 2 ^ 62;
  su_alloc : L <= maxAlloc;
  su_int : L < 2 ^ 62;
  su_msgs : Forall (λ m, 0 < len m <= L) msgs;
  su_fresh : fresh limit src dst
}.

Lemma setup_ok tmo buffer limit L msgs src dst f : setup buffer limit L msgs src dst ->
  reach (flow_step tmo) (flow_init buffer src dst msgs) f -> flow_ok tmo buffer limit L msgs f.
Proof. intros []. by apply flow_ok_reach. Qed.

(** C1: ordered, exactly-once delivery. At every moment [Recv] has returned an
    initial part of the messages for which [Send] returned nil, whole and in
    order, whatever is in flight and however the allowances are reordered. Those
    are an initial part of the messages given to [Send] if no call times out,
    and that list with the timed-out messages left out otherwise: an abandoned
    message is never delivered, in whole or in part. *)
Theorem flow_delivers tmo buffer limit L msgs src dst f : setup buffer limit L msgs src dst ->
  reach (flow_step tmo) (flow_init buffer src dst msgs) f ->
  f_recvd f `prefix_of` map Some (f_done f) /\
  f_done f `sublist_of` msgs /\
  (tmo = false -> f_done f `prefix_of` msgs).
Proof.
  intros Hs Hr. destruct (setup_ok _ _ _ _ _ _ _ _ Hs Hr) as [_ _ _ _ _ _ Ha _ Hm Hall _].
  splits.
  - eexists. by rewrite <- Ha.
  - etransitivity; [|exact Hm]. by apply sublist_inserts_r.
  - intros Ht. eexists. by rewrite <- Hall.
Qed.

(** C18: flow control. The sender's allowance, the bytes in flight, the bytes the
    receiver holds and the allowances on their way back always make up the
    buffer the receiver announced; so the receiver never holds more than its
    buffer, and the sender's counter never overflows or goes below zero. *)
Theorem flow_bounded tmo buffer limit L msgs src dst f : setup buffer limit L msgs src dst ->
  reach (flow_step tmo) (flow_init buffer src dst msgs) f ->
  t_atoiSpace (f_src f) + data_bytes (f_data f) + held (f_dst f) + sumZ (f_grants f) = buffer /\
  0 <= t_atoiSpace (f_src f) <= buffer /\ 0 <= held (f_dst f) <= buffer.
Proof.
  intros Hs Hr. destruct (setup_ok _ _ _ _ _ _ _ _ Hs Hr) as [_ Hsp Hg Hc _ _ _ _ _ _ _].
  pose proof (sumZ_nonneg _ Hg). pose proof (data_bytes_nonneg (f_data f)).
  assert (0 <= held (f_dst f)).
  { unfold held. pose proof (buf_len_nonneg (t_chunkBuf (f_dst f))).
    pose proof (queue_bytes_nonneg (t_itoaBuf (f_dst f))). lia. }
  lia.
Qed.

(** C17: liveness. A run has at most five steps for a byte and two for a message,
    so it ends; and it ends only when every message has been sent and received,
    provided no message exceeds the buffer, or, if calls can time out, provided
    there is room for a chunk beside the longest message. *)
Theorem flow_completes tmo buffer limit L msgs src dst : setup buffer limit L msgs src dst ->
  L + (if tmo : bool then limit else 0) <= buffer ->
  (forall n f, relations.nsteps (flow_step tmo) n (flow_init buffer src dst msgs) f ->
     Z.of_nat n <= work_todo msgs + 1) /\
  (forall f, reach (flow_step tmo) (flow_init buffer src dst msgs) f ->
     (forall f', ~ flow_step tmo f f') ->
     finished f /\ (tmo = false -> f_recvd f = map Some msgs)).
Proof.
  intros Hs HB. split.
  - intros n f. destruct Hs. eapply flow_steps_bounded; eauto.
  - intros f Hr Hst. pose proof (setup_ok _ _ _ _ _ _ _ _ Hs Hr) as Hok.
    destruct Hs. edestruct (flow_progress tmo buffer limit L msgs) as [Hf|[f' Hf]]; eauto.
    { split; [done|]. intros Ht. destruct Hf as (Hc & Htd & ->).
      pose proof (fo_all _ _ _ _ _ _ Hok Ht) as E. rewrite Hc, Htd, app_nil_r in E. by f_equal. }
    by destruct (Hst f').
Qed.

(** A message longer than the receiver's buffer hangs the tunnel. [Send]
    without a timeout never gets through it, nothing arrives, and the run stops
    with the sender waiting for an allowance nobody is left to give. *)
Theorem oversize_message_hangs buffer limit L m ms src dst :
  setup buffer limit L (m :: ms) src dst -> buffer < len m ->
  forall f, reach (flow_step false) (flow_init buffer src dst (m :: ms)) f ->
  f_done f = [] /\ f_recvd f = [] /\ ~ finished f.
Proof.
  intros Hs Hm f Hr. pose proof (setup_ok _ _ _ _ _ _ _ _ Hs Hr) as Hok.
  pose proof (fo_all _ _ _ _ _ _ Hok eq_refl) as Hall. pose proof (fo_fit _ _ _ _ _ _ Hok) as Hfit.
  assert (f_done f = []) as Hd.
  { destruct (f_done f) as [|d ds]; [done|]. simpl in Hall. simplify_eq.
    apply Forall_cons in Hfit as [? _]. lia. }
  pose proof (fo_asm _ _ _ _ _ _ Hok) as Ha. rewrite Hd in Ha. apply app_eq_nil in Ha as [Ha _].
  splits; try done. intros (Hc & Ht & _). rewrite Hd, Hc, Ht in Hall. done.
Qed.

(** C38: a timed-out message can wedge the tunnel for good. The chunks it left at
    the receiver are granted back only when the next message starts to arrive,
    and the allowance left may be too small for the first chunk of that: with
    nothing in flight, nothing queued and a short message to send, a call
    without a timeout waits forever. *)
Theorem timeout_wedges_tunnel buffer limit L msgs src dst f d cap m :
  setup buffer limit L msgs src dst ->
  reach (flow_step true) (flow_init buffer src dst msgs) f ->
  f_cur f = Some (m, 0) -> f_data f = [] -> f_grants f = [] ->
  queue_items (t_itoaBuf (f_dst f)) = [] -> t_chunkBuf (f_dst f) = Some (d, cap) ->
  buffer - len d < Z.min limit (len m) ->
  forall f', ~ flow_step false f f'.
Proof.
  intros Hs Hr Hc Hd Hg Hq Hb Hsp. pose proof (setup_ok _ _ _ _ _ _ _ _ Hs Hr) as Hok.
  pose proof (fo_cons _ _ _ _ _ _ Hok) as Hcons. unfold held, queue_bytes in Hcons.
  rewrite Hb, Hq, Hg, Hd in Hcons. unfold data_bytes in Hcons. simpl in Hcons.
  intros f' Hst. destruct Hst as
    [f m' ms Hc' Ht|f m' pos tag c ps src' Hc' Hp Ha|f m' pos tag c ps src' Ht Hc' Hp Ha
    |f tag c ds dst' g Hd' Hx|f m' dst' g Hx|f n src' g1 g2 Hg' Hx]; try congruence.
  - rewrite Hc in Hc'. simplify_eq.
    assert (c = take (Z.to_nat limit) (drop (Z.to_nat 0) m')) as ->
      by (destruct Hs; eapply chunk_parts; eauto).
    unfold drainAllowance in Ha. destruct (Z.leb_spec (len (take (Z.to_nat limit) (drop (Z.to_nat 0) m')))
      (t_atoiSpace (f_src f))); [|congruence].
    unfold len in *. rewrite length_take, length_drop in *. destruct Hs. lia.
  - by rewrite exec_fetch_nil in Hx.
  - rewrite Hg in Hg'. by destruct g1.
Qed.
End properties.

(** ** The system run by a schedule *)

Inductive action := AStart | AChunk | ATimeout | ATransfer | ARecv | AGrant (i : nat).

Section schedule.
Context `{GoRuntime} {Q : Type} `{Queue slice Q}.

Definition act (tmo : bool) (a : action) (f : flow (Q := Q)) : option flow :=
  match a with
  | AStart =>
      match f_cur f, f_todo f with
      | None, m :: ms => Some (Flow (f_src f) (Some (m, 0)) ms (f_done f) (f_data f) (f_dst f)
          (f_grants f) (f_recvd f))
      | _, _ => None
      end
  | AChunk | ATimeout =>
      match f_cur f with
      | Some (m, pos) =>
          match parts (Z.to_nat (t_chunkLimit (f_src f))) m pos with
          | (tag, c) :: _ =>
              match drainAllowance (len c) (f_src f), a with
              | (Ok true, src), AChunk =>
                  Some (advance (t_chunkLimit (f_src f)) m pos (set_src src [(tag, c)] f))
              | (Ok false, src), ATimeout =>
                  if tmo then Some (Flow src None (f_todo f) (f_done f) (f_data f) (f_dst f)
                    (f_grants f) (f_recvd f)) else None
              | _, _ => None
              end
          | [] => None
          end
      | None => None
      end
  | ATransfer =>
      match f_data f with
      | (tag, c) :: ds =>
          match exec (handleTransfer tag c) (f_dst f) with
          | (Ok _, dst, g) => Some (set_dst dst ds g [] f)
          | _ => None
          end
      | [] => None
      end
  | ARecv =>
      match exec fetchMessage (f_dst f) with
      | (Ok (Some m), dst, g) => Some (set_dst dst (f_data f) g [Some m] f)
      | _ => None
      end
  | AGrant i =>
      match f_grants f !! i, f_src f with
      | Some n, src => Some (Flow (snd (handleAllowance n src)) (f_cur f) (f_todo f) (f_done f)
          (f_data f) (f_dst f) (take i (f_grants f) ++ drop (S i) (f_grants f)) (f_recvd f))
      | None, _ => None
      end
  end.

Fixpoint acts (tmo : bool) (l : list action) (f : flow (Q := Q)) : option flow :=
  match l with
  | [] => Some f
  | a :: l => match act tmo a f with Some f => acts tmo l f | None => None end
  end.

Lemma act_step tmo a f f' : act tmo a f = Some f' -> flow_step tmo f f'.
Proof.
  destruct a; simpl.
  - destruct (f_cur f) eqn:?; [done|]. destruct (f_todo f) eqn:?; [done|]. intros; simplify_eq.
    by eapply step_start.
  - destruct (f_cur f) as [[m pos]|] eqn:?; [|done]. destruct (parts _ m pos) as [|[tag c] ps] eqn:?; [done|].
    destruct (drainAllowance (len c) (f_src f)) as [[[]|?|?| |] src] eqn:?; try done. intros; simplify_eq.
    by eapply step_chunk.
  - destruct (f_cur f) as [[m pos]|] eqn:?; [|done]. destruct (parts _ m pos) as [|[tag c] ps] eqn:?; [done|].
    destruct (drainAllowance (len c) (f_src f)) as [[[]|?|?| |] src] eqn:?; try done.
    destruct tmo; intros; simplify_eq. by eapply step_timeout.
  - destruct (f_data f) as [|[tag c] ds] eqn:?; [done|].
    destruct (exec _ _) as [[[[]|?|?| |] dst] g] eqn:?; try done. intros; simplify_eq.
    by eapply step_transfer.
  - destruct (exec _ _) as [[[[m|]|?|?| |] dst] g] eqn:?; try done. intros; simplify_eq.
    by eapply step_recv.
  - destruct (f_grants f !! i) as [n|] eqn:Hi; [|done]. intros; simplify_eq.
    eapply step_grant; [|done]. by rewrite take_drop_middle.
Qed.

Lemma acts_reach tmo l f f' : acts tmo l f = Some f' -> reach (flow_step tmo) f f'.
Proof.
  revert f. induction l as [|a l IH]; simpl; intros f Hl; [simplify_eq; constructor|].
  destruct (act tmo a f) as [f1|] eqn:E; [|done]. eapply reach_trans; [|by apply IH].
  eapply reach_one, act_step, E.
Qed.
End schedule.

(** ** The properties at concrete inputs *)

Definition src_end : Tunnel (list slice) := mkTunnel 7 4 None [] false 0 false false None.
Definition dst_end : Tunnel (list slice) := mkTunnel 9 4 None [] false 0 false false None.

Definition bytes (n : nat) : list byte := repeat x61 n.

Definition default_flow : flow (Q := list slice) := flow_init 0 src_end dst_end [].

Definition sample_flow (tmo : bool) (ms : list (list byte)) (l : list action) : flow (Q := list slice) :=
  default default_flow (@acts amd64 _ _ tmo l (flow_init 10 src_end dst_end ms)).

Lemma sample_setup L ms : L <= 100 -> Forall (λ m, 0 < len m <= L) ms ->
  @setup amd64 _ _ 10 4 L ms src_end dst_end.
Proof. intros HL Hm. split; simpl; try lia; [done|]. by split. Qed.

(** Five bytes in two chunks. *)
Definition sample_run : list action := [AStart; AGrant 0; AChunk; ATransfer; AChunk; ATransfer; ARecv].

Lemma sample_flow_reach tmo ms l f : @acts amd64 _ _ tmo l (flow_init 10 src_end dst_end ms) = Some f ->
  reach (@flow_step amd64 _ _ tmo) (flow_init 10 src_end dst_end ms) (sample_flow tmo ms l).
Proof. unfold sample_flow. intros E. rewrite E. by apply (@acts_reach amd64 _ _ tmo l). Qed.

Lemma flow_delivers_witness :
  f_recvd (sample_flow false [bytes 5; bytes 1] sample_run) = [Some (bytes 5)] /\
  f_recvd (sample_flow false [bytes 5; bytes 1] sample_run)
    `prefix_of` map Some (f_done (sample_flow false [bytes 5; bytes 1] sample_run)) /\
  f_done (sample_flow false [bytes 5; bytes 1] sample_run) `sublist_of` [bytes 5; bytes 1] /\
  (false = false -> f_done (sample_flow false [bytes 5; bytes 1] sample_run) `prefix_of` [bytes 5; bytes 1]).
Proof.
  split; [by vm_compute|].
  apply (@flow_delivers amd64 _ _ false 10 4 5 [bytes 5; bytes 1] src_end dst_end).
  - apply sample_setup; [lia|]. by repeat constructor.
  - eapply sample_flow_reach. by vm_compute.
Defined.

Lemma flow_bounded_witness :
  let f := sample_flow true [bytes 5; bytes 1] [AStart; AGrant 0; AChunk; ATransfer; AChunk] in
  held (f_dst f) = 4 /\
  t_atoiSpace (f_src f) + data_bytes (f_data f) + held (f_dst f) + sumZ (f_grants f) = 10 /\
  0 <= t_atoiSpace (f_src f) <= 10 /\ 0 <= held (f_dst f) <= 10.
Proof.
  split; [by vm_compute|].
  apply (@flow_bounded amd64 _ _ true 10 4 5 [bytes 5; bytes 1] src_end dst_end).
  - apply sample_setup; [lia|]. by repeat constructor.
  - eapply sample_flow_reach. by vm_compute.
Defined.

Lemma flow_completes_witness :
  (forall n f, relations.nsteps (@flow_step amd64 _ _ true) n
     (flow_init 10 src_end dst_end [bytes 6; bytes 3]) f -> Z.of_nat n <= 50) /\
  (forall f, reach (@flow_step amd64 _ _ true) (flow_init 10 src_end dst_end [bytes 6; bytes 3]) f ->
     (forall f', ~ @flow_step amd64 _ _ true f f') ->
     finished f /\ (true = false -> f_recvd f = map Some [bytes 6; bytes 3])).
Proof.
  apply (@flow_completes amd64 _ _ true 10 4 6 [bytes 6; bytes 3] src_end dst_end).
  - apply sample_setup; [lia|]. by repeat constructor.
  - simpl. lia.
Defined.

(** Two chunks of an eleven-byte message have arrived, three bytes are left and
    the allowance is two. *)
Definition oversized : flow (Q := list slice) :=
  sample_flow false [bytes 11] [AStart; AGrant 0; AChunk; AChunk; ATransfer; ATransfer].

Lemma oversize_message_hangs_witness :
  held (f_dst oversized) = 8 /\ f_done oversized = [] /\ f_recvd oversized = [] /\ ~ finished oversized.
Proof.
  split; [by vm_compute|].
  apply (@oversize_message_hangs amd64 _ _ 10 4 20 (bytes 11) [] src_end dst_end).
  - apply sample_setup; [lia|]. by repeat constructor.
  - vm_compute. reflexivity.
  - eapply sample_flow_reach. by vm_compute.
Defined.

(** A slow receiver: a byte is queued, a message of ten bytes times out two bytes
    short, the byte is fetched and its allowance returned, four bytes remain to
    be sent. *)
Definition wedging_run : list action :=
  [AStart; AGrant 0; AChunk; ATransfer; AStart; AChunk; AChunk; ATimeout; ATransfer; ATransfer;
   ARecv; AGrant 0; AStart].

Definition wedged : flow (Q := list slice) :=
  sample_flow true [bytes 1; bytes 10; bytes 4] wedging_run.

Lemma timeout_wedges_tunnel_witness :
  f_cur wedged = Some (bytes 4, 0) /\ forall f', ~ @flow_step amd64 _ _ false wedged f'.
Proof.
  split; [by vm_compute|].
  apply (@timeout_wedges_tunnel amd64 _ _ 10 4 10 [bytes 1; bytes 10; bytes 4] src_end dst_end
    wedged (bytes 8) 10 (bytes 4)).
  - apply sample_setup; [lia|]. by repeat constructor.
  - eapply sample_flow_reach. by vm_compute.
  - by vm_compute.
  - by vm_compute.
  - by vm_compute.
  - by vm_compute.
  - by vm_compute.
  - by vm_compute.
Defined.
