(* ===== verification/TunnelSync.v ===== *)
(** * The signals of a tunnel (tunnel.go)

    A message's arrival and a grant of allowance are signalled through channels
    with room for one token, and the operations of Tunnel.v set and clear the
    tokens under the tunnel's locks. Here the calls of [Recv], and those of
    [sendChunk], run as goroutines of their own, one critical section or channel
    operation a step, against arrivals and grants at any moment. *)

From Stdlib Require Import ZArith Lia Strings.Byte Strings.String.
From stdpp Require Import base gmap strings list.
From S2P Require Import Prelude Bufio Wire Packets Tunnel TunnelFlow.

Open Scope Z_scope.

Section sync.
Context `{GoRuntime} {Q : Type} `{Queue slice Q}.

(** ** Receivers *)

(** Where a goroutine in [Recv] is: about to fetch, in the [select], past it with
    the token in hand, or out. *)
Inductive rpc := RCall | RWait | RWoken | RGot (m : list byte) | RTimedOut | RPanicked.

Record rsys := RSys { rs_tun : Tunnel Q; rs_pcs : list rpc }.

Inductive rstep : rsys -> rsys -> Prop :=
| r_arrive t t' g l tag c : 0 <= tag <= maxAlloc -> c <> [] ->
    exec (handleTransfer tag c) t = (Ok tt, t', g) -> rstep (RSys t l) (RSys t' l)
| r_fetch t t' g l i m : l !! i = Some RCall ->
    exec fetchMessage t = (Ok (Some m), t', g) -> rstep (RSys t l) (RSys t' (<[i := RGot m]> l))
| r_empty t t' g l i : l !! i = Some RCall ->
    exec fetchMessage t = (Ok None, t', g) -> rstep (RSys t l) (RSys t' (<[i := RWait]> l))
| r_signal t l i : l !! i = Some RWait -> t_itoaSign t = true ->
    rstep (RSys t l) (RSys (take_itoaSign t) (<[i := RWoken]> l))
| r_timeout t l i : l !! i = Some RWait -> rstep (RSys t l) (RSys t (<[i := RTimedOut]> l))
| r_refetch t t' g l i m : l !! i = Some RWoken ->
    exec fetchMessage t = (Ok (Some m), t', g) -> rstep (RSys t l) (RSys t' (<[i := RGot m]> l))
| r_panic t t' g l i : l !! i = Some RWoken ->
    exec fetchMessage t = (Ok None, t', g) -> rstep (RSys t l) (RSys t' (<[i := RPanicked]> l))
| r_again t l i pc : l !! i = Some pc -> (pc = RTimedOut \/ exists m, pc = RGot m) ->
    rstep (RSys t l) (RSys t (<[i := RCall]> l)).

(** ** Senders *)

(** Where a goroutine in [sendChunk] is: about to drain [need] bytes, in the
    [select], or gone with the allowance. *)
Inductive spc := SCall (need : Z) | SWait (need : Z) | SGone.

Record ssys := SSys { ss_tun : Tunnel Q; ss_pcs : list spc }.

Inductive sstep : ssys -> ssys -> Prop :=
| s_grant t t' l n : 0 <= n -> t_atoiSpace t + n < 2 ^ 63 ->
    handleAllowance n t = (Ok tt, t') -> sstep (SSys t l) (SSys t' l)
| s_drain t t' l i n : l !! i = Some (SCall n) ->
    drainAllowance n t = (Ok true, t') -> sstep (SSys t l) (SSys t' (<[i := SGone]> l))
| s_short t t' l i n : l !! i = Some (SCall n) ->
    drainAllowance n t = (Ok false, t') -> sstep (SSys t l) (SSys t' (<[i := SWait n]> l))
| s_signal t l i n : l !! i = Some (SWait n) -> t_atoiSign t = true ->
    sstep (SSys t l) (SSys (take_atoiSign t) (<[i := SCall n]> l))
| s_timeout t l i n : l !! i = Some (SWait n) -> sstep (SSys t l) (SSys t (<[i := SGone]> l))
| s_again t l i n : l !! i = Some SGone -> 0 <= n -> sstep (SSys t l) (SSys t (<[i := SCall n]> l)).

(** ** One receiver *)

(** Only messages are queued, no nil slices. *)
Record messages_ok (t : Tunnel Q) : Prop := {
  mo_queue : Forall is_Some (queue_items (t_itoaBuf t))
}.

Definition one_receiver (s : rsys) : Prop :=
  messages_ok (rs_tun s) /\
  exists pc, rs_pcs s = [pc] /\
  match pc with
  | RWait => t_itoaSign (rs_tun s) = bool_decide (queue_items (t_itoaBuf (rs_tun s)) <> [])
  | RWoken => queue_items (t_itoaBuf (rs_tun s)) <> []
  | RPanicked => False
  | _ => True
  end.

Lemma transferred_queue tag c t : c <> [] ->
  queue_items (t_itoaBuf (transferred tag c t)) = queue_items (t_itoaBuf t) /\
    t_itoaSign (transferred tag c t) = t_itoaSign t \/
  exists m, queue_items (t_itoaBuf (transferred tag c t)) = queue_items (t_itoaBuf t) ++ [Some m] /\
    t_itoaSign (transferred tag c t) = true.
Proof.
  intros Hc. unfold transferred. destruct (buf_len _ =? _); [|by left]. right. simpl.
  assert (exists d cap, append (if tag =? 0 then t_chunkBuf t else Some ([], tag)) c = Some (d, cap))
    as (d & cap & ->).
  { destruct (tag =? 0); [destruct (t_chunkBuf t) as [[d cap]|]|]; destruct c; simpl; eauto; done. }
  exists d. split; [|done]. by rewrite queue_Push_items.
Qed.

Lemma fetch_cases t o t' g : exec fetchMessage t = (Ok o, t', g) -> messages_ok t ->
  messages_ok t' /\
  ((exists m rest, queue_items (t_itoaBuf t) = Some m :: rest /\ o = Some m) \/
   (queue_items (t_itoaBuf t) = [] /\ o = None /\
    queue_items (t_itoaBuf t') = [] /\ t_itoaSign t' = false)).
Proof.
  intros Hx [Hm]. destruct (queue_items (t_itoaBuf t)) as [|m rest] eqn:Hq.
  - rewrite exec_fetch_nil in Hx by done. simplify_eq. simpl. rewrite Hq.
    split; [split; simpl; by rewrite Hq|by right].
  - destruct (exec_fetch _ _ _ Hq) as (q & Hr & E). rewrite E in Hx. simplify_eq.
    apply Forall_cons in Hm as [[m' ->] Hm]. split; [by split|]. left. eauto.
Qed.

Lemma one_receiver_step s s' : one_receiver s -> rstep s s' -> one_receiver s'.
Proof.
  intros [Hm (pc & Hl & Hpc)] Hst. destruct Hst; simpl in *; subst l;
    try (destruct i; [|done]; simplify_eq/=).
  - rewrite exec_transfer in H3 by done. simplify_eq. destruct Hm as [Hm].
    destruct (transferred_queue tag c t H2) as [[Hq Hs]|(m & Hq & Hs)];
      (split; [split; simpl; rewrite Hq; rewrite ?Forall_app; auto|exists pc; split; [done|]]);
      simpl; rewrite ?Hs, ?Hq; try done; destruct pc; auto.
    + by rewrite bool_decide_eq_true_2 by by destruct (queue_items (t_itoaBuf t)).
    + by destruct (queue_items (t_itoaBuf t)).
  - destruct (fetch_cases _ _ _ _ H2 Hm) as [Hm' _]. by split; [|eexists].
  - destruct (fetch_cases _ _ _ _ H2 Hm) as [Hm' [(?&?&?&?)|(_ & _ & Hq & Hs)]]; [done|].
    split; [done|]. eexists. split; [done|]. simpl. rewrite Hs, bool_decide_eq_false_2; auto.
  - split; [by destruct Hm|]. eexists. split; [done|]. simpl in *.
    rewrite H2 in Hpc. symmetry in Hpc. by apply bool_decide_eq_true in Hpc.
  - by split; [|eexists].
  - destruct (fetch_cases _ _ _ _ H2 Hm) as [Hm' _]. by split; [|eexists].
  - destruct (fetch_cases _ _ _ _ H2 Hm) as [_ [(?&?&?&?)|(Hq & _)]]; done.
  - by split; [|eexists].
Qed.

(** ** One sender *)

Definition one_sender (s : ssys) : Prop :=
  0 <= t_atoiSpace (ss_tun s) < 2 ^ 63 /\
  exists pc, ss_pcs s = [pc] /\
  match pc with
  | SWait n => 0 <= n /\ (n <= t_atoiSpace (ss_tun s) -> t_atoiSign (ss_tun s) = true)
  | SCall n => 0 <= n
  | SGone => True
  end.

Lemma one_sender_step s s' : one_sender s -> sstep s s' -> one_sender s'.
Proof.
  intros [Hs (pc & Hl & Hpc)] Hst. destruct Hst; simpl in *; subst l;
    try (destruct i; [|done]; simplify_eq/=).
  - injection H3 as <-. rewrite i64_id by lia.
    split; [simpl; lia|]. exists pc. split; [done|]. by destruct pc; simpl; try split; try lia.
  - unfold drainAllowance in H2. destruct (Z.leb_spec n (t_atoiSpace t)); [|done].
    injection H2 as <-. split; [|by eexists]. simpl. rewrite i64_id; lia.
  - unfold drainAllowance in H2. destruct (Z.leb_spec n (t_atoiSpace t)); [done|].
    injection H2 as <-. split; [done|]. eexists. split; [done|]. simpl. lia.
  - split; [done|]. eexists. split; [done|]. simpl. lia.
  - by split; [|eexists].
  - by split; [|eexists].
Qed.

(** ** Properties *)

(** With one goroutine in [Recv] at a time the arrival signal is exact: while
    it waits, the token is there exactly when a message is queued, so it is
    neither left asleep nor woken for nothing, and the panic after the signal is
    unreachable. *)
Theorem one_receiver_signalled t t' pc : messages_ok t ->
  reach rstep (RSys t [RCall]) (RSys t' [pc]) ->
  pc <> RPanicked /\
  (pc = RWait -> t_itoaSign t' = bool_decide (queue_items (t_itoaBuf t') <> [])) /\
  (pc = RWait -> queue_items (t_itoaBuf t') <> [] ->
     exists m rest t2, queue_items (t_itoaBuf t') = Some m :: rest /\
       reach rstep (RSys t' [pc]) (RSys t2 [RGot m])).
Proof.
  intros Hm Hr. assert (one_receiver (RSys t' [pc])) as Hi.
  { eapply reach_invariant; [|apply one_receiver_step|exact Hr]. by split; [|eexists]. }
  destruct Hi as [[Hq] (pc' & Hl & Hpc)]. simpl in *. simplify_eq.
  splits; [by destruct pc'|by intros ->|]. intros -> Hne. rewrite bool_decide_eq_true_2 in Hpc by done.
  destruct (queue_items (t_itoaBuf t')) as [|[m|] rest] eqn:E; [done| |by apply Forall_cons in Hq as [[? ?] _]].
  destruct (exec_fetch (take_itoaSign t') (Some m) rest E) as (q & Hrest & Ex).
  exists m, rest. eexists. split; [done|].
  eapply reach_trans; [eapply reach_one, (r_signal t' [RWait] 0); done|].
  eapply reach_one, (r_refetch _ _ _ [RWoken] 0); [done|exact Ex].
Qed.

(** C36: with one goroutine in [sendChunk] at a time no grant is slept through:
    while it waits for an allowance that is there, the token is there too. *)
Theorem one_sender_signalled t t' n : 0 <= t_atoiSpace t < 2 ^ 63 ->
  reach sstep (SSys t [SGone]) (SSys t' [SWait n]) -> n <= t_atoiSpace t' ->
  t_atoiSign t' = true /\ exists t2, reach sstep (SSys t' [SWait n]) (SSys t2 [SGone]) /\
    t_atoiSpace t2 = t_atoiSpace t' - n.
Proof.
  intros Hs Hr Hn. assert (one_sender (SSys t' [SWait n])) as Hi.
  { eapply reach_invariant; [|apply one_sender_step|exact Hr]. by split; [|eexists]. }
  destruct Hi as [Hs' (pc & Hl & Hpc)]. simpl in *. simplify_eq. destruct Hpc as [Hn0 Hsg].
  split; [by apply Hsg|].
  exists (set_atoi (t_atoiSpace t' - n) false t'). split; [|done].
  eapply reach_trans; [eapply reach_one, (s_signal t' [SWait n] 0); [done|by apply Hsg]|].
  eapply reach_one, (s_drain _ _ [SCall n] 0 n); [done|]. unfold drainAllowance. simpl.
  rewrite (proj2 (Z.leb_le _ _)) by done. by rewrite i64_id by lia.
Qed.
End sync.

(** An idle tunnel. *)
Definition idle_tunnel : Tunnel (list slice) := mkTunnel 1 8 None [] false 0 false false None.

Definition with_queue (q : list slice) (sign : bool) : Tunnel (list slice) :=
  mkTunnel 1 8 None q sign 0 false false None.

(** Two goroutines in [Recv] of one tunnel defeat the signal in both ways: one
    of them can be woken by a token whose message the other has already fetched
    and panic; or, with two messages queued by the time the only token is taken,
    the other sleeps on although a message is there. *)
Theorem two_receivers_unsafe :
  (exists t, reach (@rstep amd64 _ _) (RSys idle_tunnel [RCall; RCall])
     (RSys t [RPanicked; RGot [x61]])) /\
  (exists t, reach (@rstep amd64 _ _) (RSys idle_tunnel [RCall; RCall])
     (RSys t [RWait; RGot [x61]]) /\
     queue_items (t_itoaBuf t) = [Some [x62]] /\ t_itoaSign t = false).
Proof.
  assert (reach (@rstep amd64 _ _) (RSys idle_tunnel [RCall; RCall]) (RSys idle_tunnel [RWait; RCall])) as Hw.
  { eapply reach_one, (@r_empty amd64 _ _ _ _ _ [RCall; RCall] 0); by vm_compute. }
  split; eexists.
  - eapply reach_trans; [exact Hw|].
    eapply reach_trans; [eapply reach_one, (@r_arrive amd64 _ _ _ (with_queue [Some [x61]] true) [] _ 1 [x61]);
      [by vm_compute|done|by vm_compute]|].
    eapply reach_trans; [eapply reach_one, (@r_fetch amd64 _ _ _ (with_queue [] true) [1] [RWait; RCall] 1 [x61]);
      by vm_compute|].
    eapply reach_trans; [eapply reach_one, (@r_signal amd64 _ _ _ _ 0); by vm_compute|].
    eapply reach_one, (@r_panic amd64 _ _ _ (with_queue [] false) [] [RWoken; RGot [x61]] 0); by vm_compute.
  - split; [|split].
    + eapply reach_trans; [exact Hw|].
      eapply reach_trans; [eapply reach_one, (@r_empty amd64 _ _ _ idle_tunnel [] [RWait; RCall] 1); by vm_compute|].
      eapply reach_trans; [eapply reach_one, (@r_arrive amd64 _ _ _ (with_queue [Some [x61]] true) [] _ 1 [x61]);
        [by vm_compute|done|by vm_compute]|].
      eapply reach_trans; [eapply reach_one, (@r_arrive amd64 _ _ _ (with_queue [Some [x61]; Some [x62]] true) [] _ 1 [x62]);
        [by vm_compute|done|by vm_compute]|].
      eapply reach_trans; [eapply reach_one, (@r_signal amd64 _ _ _ [RWait; RWait] 1); by vm_compute|].
      eapply reach_one, (@r_refetch amd64 _ _ _ (with_queue [Some [x62]] false) [1] [RWait; RWoken] 1 [x61]);
        by vm_compute.
    + done.
    + done.
Qed.

(** Two goroutines in [Send] of one tunnel can lose a grant: the only token
    wakes the one whose chunk does not fit, which clears the flag again, and the
    other sleeps on although its chunk would fit. *)
Theorem two_senders_lose_wakeup :
  exists t, reach (@sstep (list slice)) (SSys idle_tunnel [SCall 10; SCall 1]) (SSys t [SWait 10; SWait 1]) /\
    t_atoiSpace t = 5 /\ t_atoiSign t = false.
Proof.
  exists (set_atoi 5 false idle_tunnel). split; [|done].
  eapply reach_trans; [eapply reach_one, (s_short _ idle_tunnel [SCall 10; SCall 1] 0 10); by vm_compute|].
  eapply reach_trans; [eapply reach_one, (s_short _ idle_tunnel [SWait 10; SCall 1] 1 1); by vm_compute|].
  eapply reach_trans; [eapply reach_one, (s_grant _ (set_atoi 5 true idle_tunnel) _ 5); by vm_compute|].
  eapply reach_trans; [eapply reach_one, (s_signal _ [SWait 10; SWait 1] 0 10); by vm_compute|].
  eapply reach_one, (s_short _ (set_atoi 5 false idle_tunnel) [SCall 10; SWait 1] 0 10); by vm_compute.
Qed.

(** ** The properties at concrete inputs *)

Lemma one_receiver_signalled_witness :
  let t := with_queue [Some [x61]] true in
  RWait <> RPanicked /\
  (RWait = RWait -> t_itoaSign t = bool_decide (queue_items (t_itoaBuf t) <> [])) /\
  (RWait = RWait -> queue_items (t_itoaBuf t) <> [] ->
     exists m rest t2, queue_items (t_itoaBuf t) = Some m :: rest /\
       reach (@rstep amd64 _ _) (RSys t [RWait]) (RSys t2 [RGot m])).
Proof.
  apply (@one_receiver_signalled amd64 _ _ idle_tunnel (with_queue [Some [x61]] true) RWait).
  - split. constructor.
  - eapply reach_trans; [eapply reach_one, (@r_empty amd64 _ _ _ idle_tunnel [] [RCall] 0); by vm_compute|].
    eapply reach_one, (@r_arrive amd64 _ _ _ _ [] _ 1 [x61]); [by vm_compute|done|by vm_compute].
Defined.

Lemma one_sender_signalled_witness :
  t_atoiSign (set_atoi 5 true idle_tunnel) = true /\
  exists t2, reach sstep (SSys (set_atoi 5 true idle_tunnel) [SWait 3]) (SSys t2 [SGone]) /\
    t_atoiSpace t2 = 5 - 3.
Proof.
  apply (one_sender_signalled idle_tunnel (set_atoi 5 true idle_tunnel) 3).
  - simpl. lia.
  - eapply reach_trans; [eapply reach_one, (s_again _ [SGone] 0 3); [done|lia]|].
    eapply reach_trans; [eapply reach_one, (s_short _ idle_tunnel [SCall 3] 0 3); by vm_compute|].
    eapply reach_one, (s_grant _ _ [SWait 3] 5); by vm_compute.
  - simpl. lia.
Defined.
