(* ===== verification/Limits.v ===== *)
(** * Limits (limits.go, finalizeServiceLimits of service.go,
    finalizeTopicLimits of topic.go)

    The user's limits and their defaults. *)

From Stdlib Require Import ZArith Lia Strings.Byte Strings.String.
From stdpp Require Import base gmap strings list.
From S2P Require Import Prelude.

Open Scope Z_scope.

Record ServiceLimits := mkServiceLimits {
  BroadcastThreads : Z;
  BroadcastMemory : Z;
  RequestThreads : Z;
  RequestMemory : Z
}.

Record TopicLimits := mkTopicLimits {
  EventThreads : Z;
  EventMemory : Z
}.

(** [defaultTunnelBuffer]. *)
Definition defaultTunnelBuffer : Z := 64 * 1024 * 1024.

Section limits.
Context `{GoRuntime}.

Definition defaultServiceLimits : ServiceLimits := {|
  BroadcastThreads := 4 * NumCPU;
  BroadcastMemory := 64 * 1024 * 1024;
  RequestThreads := 4 * NumCPU;
  RequestMemory := 64 * 1024 * 1024
|}.

Definition defaultTopicLimits : TopicLimits := {|
  EventThreads := 4 * NumCPU;
  EventMemory := 64 * 1024 * 1024
|}.

Definition finalizeServiceLimits (user : option ServiceLimits) : ServiceLimits :=
  match user with
  | None => defaultServiceLimits
  | Some user => {|
      BroadcastThreads :=
        if BroadcastThreads user =? 0 then BroadcastThreads defaultServiceLimits
        else BroadcastThreads user;
      BroadcastMemory :=
        if BroadcastMemory user =? 0 then BroadcastMemory defaultServiceLimits
        else BroadcastMemory user;
      RequestThreads :=
        if RequestThreads user =? 0 then RequestThreads defaultServiceLimits
        else RequestThreads user;
      RequestMemory :=
        if RequestMemory user =? 0 then RequestMemory defaultServiceLimits
        else RequestMemory user
    |}
  end.

Definition finalizeTopicLimits (user : option TopicLimits) : TopicLimits :=
  match user with
  | None => defaultTopicLimits
  | Some user => {|
      EventThreads :=
        if EventThreads user =? 0 then EventThreads defaultTopicLimits else EventThreads user;
      EventMemory :=
        if EventMemory user =? 0 then EventMemory defaultTopicLimits else EventMemory user
    |}
  end.

(** The fields of a set of limits, in a list. *)
Definition service_fields (l : ServiceLimits) : list Z :=
  [BroadcastThreads l; BroadcastMemory l; RequestThreads l; RequestMemory l].
Definition topic_fields (l : TopicLimits) : list Z := [EventThreads l; EventMemory l].

(** [l] completes the fields [u] left at zero with those of [d]. *)
Definition completes (u d l : list Z) : Prop :=
  length l = length u /\
  forall i x, u !! i = Some x -> l !! i = if x =? 0 then d !! i else Some x.

Lemma default_fields_nonzero :
  Forall (λ x, x <> 0) (service_fields defaultServiceLimits) /\
  Forall (λ x, x <> 0) (topic_fields defaultTopicLimits).
Proof. pose proof NumCPU_pos. split; repeat constructor; simpl; lia. Qed.

Lemma service_completes u : completes (service_fields u) (service_fields defaultServiceLimits)
  (service_fields (finalizeServiceLimits (Some u))).
Proof.
  split; [done|]. intros [|[|[|[|i]]]] x Hi; simplify_eq/=; by destruct (_ =? 0).
Qed.

Lemma topic_completes u : completes (topic_fields u) (topic_fields defaultTopicLimits)
  (topic_fields (finalizeTopicLimits (Some u))).
Proof. split; [done|]. intros [|[|i]] x Hi; simplify_eq/=; by destruct (_ =? 0). Qed.

Lemma completes_nonzero u d l : completes u d l -> length u = length d ->
  Forall (λ x, x <> 0) d -> Forall (λ x, x <> 0) l.
Proof.
  intros [Hl Hc] Hlen Hd. apply Forall_lookup. intros i x Hi.
  destruct (lookup_lt_is_Some_2 u i) as [y Hy].
  { rewrite <- Hl. by apply lookup_lt_Some in Hi. }
  rewrite (Hc i y Hy) in Hi. destruct (Z.eqb_spec y 0); [|by simplify_eq].
    exact (proj1 (Forall_lookup _ d) Hd i x Hi).
Qed.

(** The limits a service or subscription ends up with have no field at zero,
    are the defaults where the user gave none or a zero and the user's own
    elsewhere, and completing them again changes nothing. *)
Theorem finalize_limits_spec :
  (forall u, Forall (λ x, x <> 0) (service_fields (finalizeServiceLimits u)) /\
     completes (service_fields (default (mkServiceLimits 0 0 0 0) u))
       (service_fields defaultServiceLimits) (service_fields (finalizeServiceLimits u)) /\
     finalizeServiceLimits (Some (finalizeServiceLimits u)) = finalizeServiceLimits u) /\
  (forall u, Forall (λ x, x <> 0) (topic_fields (finalizeTopicLimits u)) /\
     completes (topic_fields (default (mkTopicLimits 0 0) u))
       (topic_fields defaultTopicLimits) (topic_fields (finalizeTopicLimits u)) /\
     finalizeTopicLimits (Some (finalizeTopicLimits u)) = finalizeTopicLimits u).
Proof.
  destruct default_fields_nonzero as [Hs Ht].
  split; intros u.
  - assert (completes (service_fields (default (mkServiceLimits 0 0 0 0) u))
       (service_fields defaultServiceLimits) (service_fields (finalizeServiceLimits u))) as Hc.
    { destruct u as [u|]; [apply service_completes|].
      exact (service_completes (mkServiceLimits 0 0 0 0)). }
    assert (Forall (λ x, x <> 0) (service_fields (finalizeServiceLimits u))) as Hz
      by (eapply completes_nonzero; [exact Hc|done|done]).
    splits; [done..|]. destruct (finalizeServiceLimits u) as [a b c d]. unfold service_fields in Hz.
    rewrite !Forall_cons in Hz. simpl in *. by repeat rewrite (proj2 (Z.eqb_neq _ _)) by tauto.
  - assert (completes (topic_fields (default (mkTopicLimits 0 0) u))
       (topic_fields defaultTopicLimits) (topic_fields (finalizeTopicLimits u))) as Hc.
    { destruct u as [u|]; [apply topic_completes|]. exact (topic_completes (mkTopicLimits 0 0)). }
    assert (Forall (λ x, x <> 0) (topic_fields (finalizeTopicLimits u))) as Hz
      by (eapply completes_nonzero; [exact Hc|done|done]).
    splits; [done..|]. destruct (finalizeTopicLimits u) as [a b]. unfold topic_fields in Hz.
    rewrite !Forall_cons in Hz. simpl in *. by repeat rewrite (proj2 (Z.eqb_neq _ _)) by tauto.
Qed.
End limits.
