(* ===== verification/Quota.v ===== *)
(** * Handler queues and their memory accounts (events.go, topic.go)

    Arriving broadcasts, requests and events are queued in a thread pool of the
    Iris project and accounted for in a 32-bit counter: the arriving message is
    tested against the limit with an atomic load, added with an atomic add and
    scheduled; the handler subtracts it when it starts. The three operations are
    written out here, and run as concurrent goroutines: any number of publishers
    and of workers. *)

From Stdlib Require Import ZArith Lia Strings.Byte Strings.String.
From stdpp Require Import base gmap strings list.
From S2P Require Import Prelude.

Open Scope Z_scope.

(** ** The thread pool *)

(** [pool.ThreadPool] of the Iris project, for jobs of type [J]: what its
    documentation promises. [pool_queued] are the jobs not yet started,
    [pool_next] the ways the workers can start one. *)
Class ThreadPool (P : Type -> Type) := {
  NewThreadPool : forall {J}, Z -> P J;
  pool_Start : forall {J}, P J -> P J;
  pool_Schedule : forall {J}, J -> P J -> P J;
  pool_Terminate : forall {J}, bool -> P J -> P J;
  pool_next : forall {J}, P J -> list (J * P J);
  pool_queued : forall {J}, P J -> list J;
  pool_live : forall {J}, P J -> bool;
  pool_started : forall {J}, P J -> bool;
  New_queued : forall J n, pool_queued (NewThreadPool (J := J) n) = [];
  New_live : forall J n, pool_live (NewThreadPool (J := J) n) = true;
  New_started : forall J n, pool_started (NewThreadPool (J := J) n) = false;
  Start_queued : forall J (p : P J), pool_queued (pool_Start p) = pool_queued p;
  Start_live : forall J (p : P J), pool_live (pool_Start p) = pool_live p;
  Start_started : forall J (p : P J), pool_started (pool_Start p) = true;
  Schedule_queued : forall J (j : J) p, pool_queued (pool_Schedule j p) =
    if pool_live p then pool_queued p ++ [j] else pool_queued p;
  Schedule_live : forall J (j : J) p, pool_live (pool_Schedule j p) = pool_live p;
  Schedule_started : forall J (j : J) p, pool_started (pool_Schedule j p) = pool_started p;
  Terminate_live : forall J c (p : P J), pool_live (pool_Terminate c p) = false;
  Terminate_queued : forall J c (p : P J), pool_queued (pool_Terminate c p) =
    if c : bool then [] else pool_queued p;
  next_queued : forall J (p p' : P J) j, (j, p') ∈ pool_next p ->
    pool_queued p ≡ₚ j :: pool_queued p' /\ pool_live p' = pool_live p;
  next_started : forall J (p : P J), pool_started p = false -> pool_next p = []
}.

(** A pool that starts its jobs in order is one. *)
Record list_pool (J : Type) := ListPool { lp_jobs : list J; lp_live : bool; lp_started : bool }.
Arguments ListPool {J}.
Arguments lp_jobs {J}. Arguments lp_live {J}. Arguments lp_started {J}.

#[export] Instance fifo_pool : ThreadPool list_pool.
Proof.
  refine {|
    NewThreadPool J n := ListPool [] true false;
    pool_Start J p := ListPool (lp_jobs p) (lp_live p) true;
    pool_Schedule J j p :=
      if lp_live p then ListPool (lp_jobs p ++ [j]) true (lp_started p) else p;
    pool_Terminate J c p := ListPool (if c : bool then [] else lp_jobs p) false (lp_started p);
    pool_next J p :=
      match lp_started p, lp_jobs p with
      | true, j :: l => [(j, ListPool l (lp_live p) true)]
      | _, _ => []
      end;
    pool_queued J p := lp_jobs p;
    pool_live J p := lp_live p;
    pool_started J p := lp_started p
  |}; try done.
  - intros J j [l v st]. by destruct v.
  - intros J j [l v st]. by destruct v.
  - intros J j [l v st]. by destruct v.
  - intros J [l v st] p' j. simpl. destruct st, l; rewrite ?elem_of_nil, ?list_elem_of_singleton;
      try done. by intros [= -> ->].
  - intros J [l v st] Hs. simpl in *. by subst.
Defined.

(** ** The account *)

(** [int(atomic.LoadInt32(&used)) + len(message) <= limit]. *)
Definition quota_fits (used size limit : Z) : bool := i64 (used + size) <=? limit.

(** [atomic.AddInt32(&used, int32(len(message)))]. *)
Definition quota_add (used size : Z) : Z := i32 (used + i32 size).

(** [atomic.AddInt32(&used, -int32(len(message)))]. *)
Definition quota_sub (used size : Z) : Z := i32 (used + i32 (- i32 size)).

Lemma i32_mod a b : (a - b) mod 2 ^ 32 = 0 -> i32 a = i32 b.
Proof.
  intros Hm. unfold i32. f_equal.
  replace (a + 2 ^ 31) with ((a - b) + (b + 2 ^ 31)) by lia.
  by rewrite Zplus_mod, Hm, Z.add_0_l, Zmod_mod.
Qed.

Lemma i32_congr a : exists k, i32 a = a + k * 2 ^ 32.
Proof.
  unfold i32. exists (- ((a + 2 ^ 31) / 2 ^ 32)).
  pose proof (Z.div_mod (a + 2 ^ 31) (2 ^ 32)). lia.
Qed.

(** The counter is exact modulo 2^32. *)
Lemma quota_add_i32 m n : quota_add (i32 m) n = i32 (m + n).
Proof.
  unfold quota_add. destruct (i32_congr m) as [k ->], (i32_congr n) as [l ->].
  apply i32_mod. replace (_ - _) with ((k + l) * 2 ^ 32) by lia. by apply Z_mod_mult.
Qed.

Lemma quota_sub_i32 m n : quota_sub (i32 m) n = i32 (m - n).
Proof.
  unfold quota_sub. destruct (i32_congr (- i32 n)) as [j ->].
  destruct (i32_congr m) as [k ->], (i32_congr n) as [l ->].
  apply i32_mod. replace (_ - _) with ((k - l + j) * 2 ^ 32) by lia. by apply Z_mod_mult.
Qed.

(** Adding and subtracting the same size leaves the counter as it was. *)
Lemma quota_add_sub u n : quota_sub (quota_add u n) n = i32 u.
Proof.
  unfold quota_add. destruct (i32_congr n) as [k ->]. rewrite quota_sub_i32. apply i32_mod.
  replace (_ - _) with (k * 2 ^ 32) by lia. by apply Z_mod_mult.
Qed.

(** ** Publishers and workers *)

Section quota.
Context {P : Type -> Type} `{ThreadPool P}.
Context (limit : Z).

(** A goroutine that delivers messages (their sizes): between messages, after the
    load, or after the add. *)
Inductive qpc :=
| QIdle (todo : list Z)
| QLoaded (used size : Z) (todo : list Z)
| QAdded (size : Z) (todo : list Z).

(** [q_started] are the jobs whose worker has not got to the subtraction yet. *)
Record qsys := QSys {
  q_used : Z;
  q_pubs : list qpc;
  q_pool : P Z;
  q_started : list Z
}.

Inductive qstep : qsys -> qsys -> Prop :=
| q_load u l p st i n todo : l !! i = Some (QIdle (n :: todo)) ->
    qstep (QSys u l p st) (QSys u (<[i := QLoaded u n todo]> l) p st)
| q_refuse u l p st i v n todo : l !! i = Some (QLoaded v n todo) -> quota_fits v n limit = false ->
    qstep (QSys u l p st) (QSys u (<[i := QIdle todo]> l) p st)
| q_add u l p st i v n todo : l !! i = Some (QLoaded v n todo) -> quota_fits v n limit = true ->
    qstep (QSys u l p st) (QSys (quota_add u n) (<[i := QAdded n todo]> l) p st)
| q_schedule u l p st i n todo : l !! i = Some (QAdded n todo) ->
    qstep (QSys u l p st) (QSys u (<[i := QIdle todo]> l) (pool_Schedule n p) st)
| q_start u l p st n p' : (n, p') ∈ pool_next p ->
    qstep (QSys u l p st) (QSys u l p' (n :: st))
| q_sub u l p st1 n st2 :
    qstep (QSys u l p (st1 ++ n :: st2)) (QSys (quota_sub u n) l p (st1 ++ st2)).

Definition added (pc : qpc) : Z := match pc with QAdded n _ => n | _ => 0 end.

(** Bytes accounted for: about to be queued, queued, and just being started. *)
Definition memory (s : qsys) : Z :=
  zsum added (q_pubs s) + sumZ (pool_queued (q_pool s)) + sumZ (q_started s).

(** A publisher past a successful test. *)
Definition admitted (pc : qpc) : Z :=
  match pc with QLoaded v n _ => if quota_fits v n limit then n else 0 | _ => 0 end.

Definition sizes_ok (m : Z) (pc : qpc) : Prop :=
  match pc with
  | QIdle todo => Forall (λ n, 0 <= n <= m) todo
  | QLoaded v n todo => - 2 ^ 31 <= v < 2 ^ 31 /\ 0 <= n <= m /\ Forall (λ n, 0 <= n <= m) todo
  | QAdded n todo => 0 <= n <= m /\ Forall (λ n, 0 <= n <= m) todo
  end.

(** What every reachable state satisfies: the counter is the memory modulo 2^32,
    however the goroutines interleave. *)
Record quota_ok (m : Z) (s : qsys) : Prop := {
  qo_used : q_used s = i32 (memory s);
  qo_live : pool_live (q_pool s) = true;
  qo_pubs : Forall (sizes_ok m) (q_pubs s);
  qo_queued : Forall (Z.le 0) (pool_queued (q_pool s));
  qo_started : Forall (Z.le 0) (q_started s)
}.

Lemma memory_parts u l p st :
  memory (QSys u l p st) = zsum added l + sumZ (pool_queued p) + sumZ st.
Proof. done. Qed.

Lemma quota_ok_step m s s' : quota_ok m s -> qstep s s' -> quota_ok m s'.
Proof.
  intros [Hu Hl Hp Hq Hs] Hst. destruct Hst; simpl in *.
  - pose proof (Forall_lookup_1 _ _ _ _ Hp H0) as Hi. simpl in Hi. apply Forall_cons in Hi as [Hn Hi].
    split; simpl; auto.
    + by rewrite Hu, !memory_parts, (zsum_insert _ _ _ _ _ H0), Z.sub_0_r, Z.add_0_r.
    + apply Forall_insert; [done|]. split; [rewrite Hu; apply i32_range|done].
  - pose proof (Forall_lookup_1 _ _ _ _ Hp H0) as (_ & _ & Hi). split; simpl; auto.
    + by rewrite Hu, !memory_parts, (zsum_insert _ _ _ _ _ H0), Z.sub_0_r, Z.add_0_r.
    + by apply Forall_insert.
  - pose proof (Forall_lookup_1 _ _ _ _ Hp H0) as (_ & Hn & Hi). split; simpl; auto.
    + rewrite Hu, quota_add_i32, !memory_parts, (zsum_insert _ _ _ _ _ H0). f_equal. simpl. lia.
    + by apply Forall_insert.
  - pose proof (Forall_lookup_1 _ _ _ _ Hp H0) as [Hn Hi]. split; simpl; auto.
    + rewrite Hu, !memory_parts, (zsum_insert _ _ _ _ _ H0), Schedule_queued, Hl, sumZ_app.
      f_equal. unfold sumZ. simpl. lia.
    + by rewrite Schedule_live.
    + by apply Forall_insert.
    + rewrite Schedule_queued, Hl. apply Forall_app. split; [done|]. constructor; [lia|constructor].
  - destruct (next_queued _ _ _ _ H0) as [Hpm Hlv]. rewrite Hpm in Hq.
    apply Forall_cons in Hq as [Hn Hq]. split; simpl; auto.
    + rewrite Hu, !memory_parts, Hpm. f_equal. unfold sumZ. simpl. lia.
    + congruence.
  - apply Forall_app in Hs as [Hs1 Hs2]. apply Forall_cons in Hs2 as [Hn Hs2].
    split; simpl; auto; [|by apply Forall_app].
    rewrite Hu, quota_sub_i32, !memory_parts, !sumZ_app. f_equal. unfold sumZ. simpl. lia.
Qed.

Lemma memory_nonneg m s : quota_ok m s -> 0 <= memory s.
Proof.
  intros [_ _ Hp Hq Hs]. unfold memory.
  pose proof (sumZ_nonneg _ Hq). pose proof (sumZ_nonneg _ Hs).
  assert (0 <= zsum added (q_pubs s)); [|lia].
  apply sumZ_nonneg, Forall_map. eapply Forall_impl; [exact Hp|]. intros [] Hi; simpl in *; lia.
Qed.

Lemma zsum_bound {A} (f : A -> Z) m (l : list A) i a : 0 <= m ->
  Forall (λ a, f a <= m) l -> l !! i = Some a -> f a = 0 -> zsum f l <= (len l - 1) * m.
Proof.
  intros Hm. revert i. induction l as [|x l IH]; intros [|i] Hl Hi Ha; simplify_eq/=;
    apply Forall_cons in Hl as [Hx Hl]; rewrite len_cons; unfold zsum, sumZ in *; simpl.
  - assert (foldr Z.add 0 (map f l) <= len l * m); [|lia]. clear -Hm Hl.
    induction Hl as [|x l Hx _ IH]; [done|]. simpl. rewrite len_cons. lia.
  - specialize (IH i Hl Hi Ha). lia.
Qed.

Lemma admitted_le m pc : 0 <= m -> sizes_ok m pc -> 0 <= admitted pc <= m.
Proof. intros Hm. destruct pc as [| v n todo|]; simpl; try lia. destruct (quota_fits v n limit); lia. Qed.

(** What is accounted for and what has passed the test but is not added yet. *)
Definition claimed (s : qsys) : Z := memory s + zsum admitted (q_pubs s).

Lemma claimed_ge m s : 0 <= m -> quota_ok m s -> memory s <= claimed s.
Proof.
  intros Hm [_ _ Hp _ _]. unfold claimed.
  assert (0 <= zsum admitted (q_pubs s)); [|lia].
  apply sumZ_nonneg, Forall_map. eapply Forall_impl; [exact Hp|]. intros pc Hpc.
  by apply (admitted_le m pc Hm).
Qed.

(** A test only succeeds within the limit; what can come on top is what the other
    publishers had admitted before. *)
Lemma claimed_step m s s' : 0 <= limit -> 0 <= m < 2 ^ 62 ->
  limit + (len (q_pubs s) - 1) * m < 2 ^ 31 -> quota_ok m s ->
  claimed s <= limit + (len (q_pubs s) - 1) * m -> qstep s s' ->
  len (q_pubs s') = len (q_pubs s) /\ claimed s' <= limit + (len (q_pubs s) - 1) * m.
Proof.
  intros Hlim Hm Hk Hok Hc Hst. pose proof (claimed_ge m s (proj1 Hm) Hok) as Hge.
  pose proof (memory_nonneg m s Hok) as Hnn. destruct Hok as [Hu Hl Hp Hq Hs]. unfold claimed in *.
  destruct Hst; simpl in *;
    (split; [unfold len; by rewrite ?length_insert|]); rewrite !memory_parts in *.
  - rewrite !(zsum_insert _ _ _ _ _ H0). simpl. destruct (quota_fits u n limit) eqn:Hf; [|lia].
    unfold quota_fits in Hf. apply Z.leb_le in Hf. pose proof (Forall_lookup_1 _ _ _ _ Hp H0) as Hi.
    simpl in Hi. apply Forall_cons in Hi as [Hn _].
    assert (zsum admitted l <= (len l - 1) * m).
    { eapply (zsum_bound _ _ _ i); [lia| |exact H0|done]. eapply Forall_impl; [exact Hp|].
      intros pc Hpc. by apply (admitted_le m pc (proj1 Hm)). }
    rewrite i32_id in Hu by lia. rewrite Hu in Hf. rewrite i64_id in Hf by lia. lia.
  - rewrite !(zsum_insert _ _ _ _ _ H0). simpl. rewrite H1. lia.
  - rewrite !(zsum_insert _ _ _ _ _ H0). simpl. rewrite H1. lia.
  - rewrite !(zsum_insert _ _ _ _ _ H0), Schedule_queued, Hl, sumZ_app.
    unfold sumZ at 2. simpl. lia.
  - destruct (next_queued _ _ _ _ H0) as [Hpm _]. rewrite Hpm in Hc. unfold sumZ in *. simpl in *. lia.
  - apply Forall_app in Hs as [Hs1 Hs2]. apply Forall_cons in Hs2 as [Hn Hs2].
    rewrite !sumZ_app in *. unfold sumZ in *. simpl in *. lia.
Qed.

(** The start: nothing queued, a number of publishers with messages of at most
    [m] bytes. *)
Definition quota_init (threads : Z) (loads : list (list Z)) : qsys :=
  QSys 0 (map QIdle loads) (pool_Start (NewThreadPool threads)) [].

Lemma quota_init_ok m threads loads : Forall (Forall (λ n, 0 <= n <= m)) loads ->
  quota_ok m (quota_init threads loads) /\
  memory (quota_init threads loads) = 0 /\ claimed (quota_init threads loads) = 0.
Proof.
  intros Hl. assert (memory (quota_init threads loads) = 0) as Hm.
  { unfold quota_init. rewrite memory_parts, Start_queued, New_queued. unfold zsum, sumZ.
    induction loads as [|l loads IH]; [done|]. apply Forall_cons in Hl as [_ Hl]. simpl in *. auto. }
  splits; [|done|].
  - split; simpl.
    + by rewrite Hm.
    + by rewrite Start_live, New_live.
    + by apply Forall_map.
    + rewrite Start_queued, New_queued. constructor.
    + constructor.
  - unfold claimed. rewrite Hm. simpl. unfold zsum, sumZ. clear.
    induction loads as [|l loads IH]; [done|]. simpl. auto.
Qed.

(** C23: the account is exact and the limit holds up to concurrency. With [k]
    goroutines publishing messages of at most [m] bytes into one queue, and any
    number of workers, the counter is at every moment the number of bytes
    admitted and not yet started, and that exceeds the limit by at most [k - 1]
    messages: not at all with a single publisher, as for broadcasts and requests. *)
Theorem quota_bounded m threads loads s : 0 <= limit -> 0 <= m < 2 ^ 62 ->
  limit + (len loads - 1) * m < 2 ^ 31 -> Forall (Forall (λ n, 0 <= n <= m)) loads ->
  loads <> [] -> reach qstep (quota_init threads loads) s ->
  q_used s = memory s /\ 0 <= memory s <= limit + (len loads - 1) * m.
Proof.
  intros Hlim Hm Hk Hl Hne Hr. destruct (quota_init_ok m threads loads Hl) as (Hok & Hmem & Hcl).
  assert (1 <= len loads) by (destruct loads; [done|]; rewrite len_cons;
    pose proof (len_nonneg loads); lia).
  assert (quota_ok m s /\ len (q_pubs s) = len loads /\
    claimed s <= limit + (len loads - 1) * m) as (Hok' & Hlen & Hc).
  { eapply (reach_invariant qstep (λ s, quota_ok m s /\ len (q_pubs s) = len loads /\
      claimed s <= limit + (len loads - 1) * m)); [..|exact Hr].
    - splits; [done| |rewrite Hcl; nia]. simpl. unfold len. by rewrite length_map.
    - intros x y (Ho & Hx & Hcx) Hst. rewrite <- Hx in Hcx, Hk.
      destruct (claimed_step m x y Hlim Hm Hk Ho Hcx Hst) as [Hy Hcy].
      splits; [by eapply quota_ok_step|lia|by rewrite <- Hx]. }
  pose proof (memory_nonneg m s Hok'). pose proof (claimed_ge m s (proj1 Hm) Hok').
  split; [|lia]. rewrite (qo_used _ _ Hok'). apply i32_id. lia.
Qed.
End quota.

(** With two publishers the limit is exceeded: both load the counter before
    either adds. Events are published by a goroutine each, so this is their
    case, although the code calls the load safe because only one thread
    increments. *)
Theorem concurrent_publishers_exceed :
  exists s, reach (qstep (P := list_pool) 100) (quota_init 1 [[100]; [100]]) s /\
    memory s = 200 /\ q_used s = 200.
Proof.
  eexists. split.
  - eapply reach_trans; [eapply reach_one, (q_load _ _ _ _ _ 0); done|].
    eapply reach_trans; [eapply reach_one, (q_load _ _ _ _ _ 1); done|].
    eapply reach_trans; [eapply reach_one, (q_add _ _ _ _ _ 0); done|].
    eapply reach_one, (q_add _ _ _ _ _ 1); done.
  - done.
Qed.

(** A limit of 2 GiB or more is not enforced: the counter has 32 bits and
    wraps to a negative number, after which everything is admitted. *)
Theorem large_limit_not_enforced :
  exists s, reach (qstep (P := list_pool) (2 ^ 31)) (quota_init 1 [[2 ^ 30; 2 ^ 30; 2 ^ 30]]) s /\
    memory s = 3 * 2 ^ 30 /\ q_used s = - 2 ^ 30.
Proof.
  eexists. split.
  - eapply reach_trans; [eapply reach_one, (q_load _ _ _ _ _ 0); done|].
    eapply reach_trans; [eapply reach_one, (q_add _ _ _ _ _ 0); done|].
    eapply reach_trans; [eapply reach_one, (q_schedule _ _ _ _ _ 0); done|].
    eapply reach_trans; [eapply reach_one, (q_load _ _ _ _ _ 0); done|].
    eapply reach_trans; [eapply reach_one, (q_add _ _ _ _ _ 0); done|].
    eapply reach_trans; [eapply reach_one, (q_schedule _ _ _ _ _ 0); done|].
    eapply reach_trans; [eapply reach_one, (q_load _ _ _ _ _ 0); done|].
    eapply reach_one, (q_add _ _ _ _ _ 0); done.
  - done.
Qed.

(** Two publishers, the second admitted on top of the first. *)
Lemma quota_bounded_witness :
  let s := QSys (P := list_pool) 30 [QAdded 30 []; QIdle []] (pool_Start (NewThreadPool 1)) [] in
  q_used s = memory s /\ 0 <= memory s <= 100 + (len [[30]; []] - 1) * 40.
Proof.
  apply (quota_bounded 100 40 1 [[30]; []]).
  - lia.
  - lia.
  - by vm_compute.
  - repeat constructor; lia.
  - discriminate.
  - eapply reach_trans; [eapply reach_one, (q_load _ _ _ _ _ 0); done|].
    apply reach_one.
    exact (q_add 100 0 [QLoaded 0 30 []; QIdle []] _ [] 0 0 30 [] eq_refl eq_refl).
Defined.
