(* ===== verification/Topic.v ===== *)
(** * Topic subscriptions (topic.go, and the subscription table of connection.go)

    A subscription with its event queue, and the table of live subscriptions:
    every critical section the API calls and the event goroutines run on it. *)

From Stdlib Require Import ZArith Lia Strings.Byte Strings.String.
From stdpp Require Import base gmap strings list.
From S2P Require Import Prelude Limits Quota.

Open Scope Z_scope.

Section topic.
Context {P : Type -> Type} `{ThreadPool P} {TopicHandler : Type}.

(** ** A subscription *)

(** A scheduled event: its number and its data. *)
Definition event_job : Type := Z * list byte.

Record topic := mkTopic {
  top_handler : TopicHandler;
  top_limits : TopicLimits;
  eventIdx : Z;
  eventPool : P event_job;
  eventUsed : Z
}.

Definition newTopic (handler : TopicHandler) (limits : TopicLimits) : topic :=
  mkTopic handler limits 0 (pool_Start (NewThreadPool (EventThreads limits))) 0.

(** The stretches of [topic.handlePublish], which many goroutines may run at once:
    the event takes its number and the account is read and tested, ... *)
Definition top_admit (event : list byte) : M topic (option Z) := λ t,
  let id := u64 (eventIdx t + 1) in
  let used := eventUsed t in
  (Ok (if quota_fits used (len event) (EventMemory (top_limits t)) then Some (i64 id) else None),
   mkTopic (top_handler t) (top_limits t) id (eventPool t) used).

(** ... the event is added to the account, ... *)
Definition top_count (event : list byte) : M topic unit :=
  modify (λ t, mkTopic (top_handler t) (top_limits t) (eventIdx t) (eventPool t)
    (quota_add (eventUsed t) (len event))).

(** ... and scheduled. *)
Definition top_schedule (id : Z) (event : list byte) : M topic unit :=
  modify (λ t, mkTopic (top_handler t) (top_limits t) (eventIdx t)
    (pool_Schedule (id, event) (eventPool t)) (eventUsed t)).

(** The scheduled function, when a worker starts it: what it calls the user's
    handler with. *)
Definition run_event (job : event_job) : M topic (TopicHandler * list byte) := λ t,
  (Ok (top_handler t, snd job),
   mkTopic (top_handler t) (top_limits t) (eventIdx t) (eventPool t)
     (quota_sub (eventUsed t) (len (snd job)))).

(** [terminate]: no new events; the queued ones still run. *)
Definition top_terminate : M topic unit :=
  modify (λ t, mkTopic (top_handler t) (top_limits t) (eventIdx t)
    (pool_Terminate false (eventPool t)) (eventUsed t)).

(** ** The subscription table *)

(** The fields [subIdx] and [subLive] of a [Connection]. The map holds pointers:
    [topics] is the store of all subscriptions ever made, a pointer an index in
    it, because an event goroutine keeps the pointer after the lock is released. *)
Record subs := Subs {
  subIdx : Z;
  subLive : gmap gostring nat;
  topics : list topic
}.

Definition upd_topic {A} (p : nat) (m : M topic A) : M subs A := λ s,
  match topics s !! p with
  | Some t => let '(o, t') := m t in (o, Subs (subIdx s) (subLive s) (<[p := t']> (topics s)))
  | None => (Panic "invalid memory address or nil pointer dereference", s)
  end.

(** The critical section of [Subscribe]. *)
Definition sub_insert (name : gostring) (handler : TopicHandler) (limits : TopicLimits) : M subs unit :=
  λ s,
  match subLive s !! name with
  | Some _ => (Err (ErrorsNew "already subscribed"), s)
  | None => (Ok tt, Subs (u64 (subIdx s + 1)) (<[name := length (topics s)]> (subLive s))
               (topics s ++ [newTopic handler limits]))
  end.

(** [top.terminate(); delete(c.subLive, topic)]. *)
Definition sub_drop (name : gostring) (p : nat) : M subs unit :=
  upd_topic p top_terminate;;
  modify (λ s, Subs (subIdx s) (delete name (subLive s)) (topics s)).

(** The clean-up of [Subscribe] when the request could not be sent. *)
Definition sub_undo (name : gostring) : M subs unit := λ s,
  match subLive s !! name with
  | Some p => sub_drop name p s
  | None => (Ok tt, s)
  end.

(** The last critical section of [Unsubscribe]. *)
Definition sub_remove (name : gostring) : M subs unit := λ s,
  match subLive s !! name with
  | Some p => sub_drop name p s
  | None => (Err (ErrorsNew "not subscribed"), s)
  end.

(** [handlePublish] of events.go: the lookup under the read lock. The subscription
    it points to is used without the lock. *)
Definition sub_lookup (name : gostring) : M subs (option nat) := gets (λ s, subLive s !! name).

(** [Close] terminates every subscription and leaves the table as it is. *)
Fixpoint terminate_all (ps : list nat) : M subs unit :=
  match ps with
  | [] => mret tt
  | p :: ps => upd_topic p top_terminate;; terminate_all ps
  end.

Definition sub_close : M subs unit := λ s, terminate_all (map snd (map_to_list (subLive s))) s.

(** A worker starts an event of a subscription. *)
Inductive event_start (s : subs) : TopicHandler * list byte -> subs -> Prop :=
| event_start_intro p t job pool' call t' : topics s !! p = Some t ->
    (job, pool') ∈ pool_next (eventPool t) ->
    run_event job (mkTopic (top_handler t) (top_limits t) (eventIdx t) pool' (eventUsed t)) = (Ok call, t') ->
    event_start s call (Subs (subIdx s) (subLive s) (<[p := t']> (topics s))).

(** ** Interleavings of the critical sections *)

(** The critical sections the goroutines of a connection run on the table, in any
    order, as long as [Close] is not called; a publisher may hold a pointer from
    an earlier lookup, and be between any two of its stretches. *)
Inductive sub_step : subs -> subs -> Prop :=
| ss_insert s s' o name handler limits : sub_insert name handler limits s = (o, s') -> sub_step s s'
| ss_undo s s' o name : sub_undo name s = (o, s') -> sub_step s s'
| ss_remove s s' o name : sub_remove name s = (o, s') -> sub_step s s'
| ss_admit s s' o p event : (p < length (topics s))%nat -> upd_topic p (top_admit event) s = (o, s') -> sub_step s s'
| ss_count s s' o p event : (p < length (topics s))%nat -> upd_topic p (top_count event) s = (o, s') -> sub_step s s'
| ss_schedule s s' o p id event : (p < length (topics s))%nat ->
    upd_topic p (top_schedule id event) s = (o, s') -> sub_step s s'
| ss_start s s' call : event_start s call s' -> sub_step s s'.

Definition sub_init : subs := Subs 0 ∅ [].

(** A subscription in the table has a running pool; one that has left it, or was
    never there, accepts no events any more; no two names share one. *)
Record subs_ok (s : subs) : Prop := {
  so_live : forall name p, subLive s !! name = Some p ->
    exists t, topics s !! p = Some t /\ pool_live (eventPool t) = true;
  so_dead : forall p t, topics s !! p = Some t -> (forall name, subLive s !! name <> Some p) ->
    pool_live (eventPool t) = false;
  so_inj : forall n1 n2 p, subLive s !! n1 = Some p -> subLive s !! n2 = Some p -> n1 = n2
}.

Lemma upd_topic_eq {A} p (m : M topic A) s t : topics s !! p = Some t ->
  upd_topic p m s = (fst (m t), Subs (subIdx s) (subLive s) (<[p := snd (m t)]> (topics s))).
Proof. unfold upd_topic. intros ->. by destruct (m t). Qed.

(** Replacing a subscription by one whose pool is as live as before. *)
Lemma subs_ok_upd s p t t' : topics s !! p = Some t ->
  pool_live (eventPool t') = pool_live (eventPool t) -> subs_ok s ->
  subs_ok (Subs (subIdx s) (subLive s) (<[p := t']> (topics s))).
Proof.
  intros Hp Hl [Hlive Hdead Hinj]. split; simpl; [| |done].
  - intros name q Hq. destruct (Hlive name q Hq) as (u & Hu & Hul). destruct (decide (p = q)) as [<-|Hn].
    + exists t'. rewrite list_lookup_insert_eq by by eapply lookup_lt_Some. by simplify_eq; rewrite Hl.
    + exists u. by rewrite list_lookup_insert_ne.
  - intros q u [(<- & <- & _)|[_ Hq]]%list_lookup_insert_Some Hnone; [rewrite Hl|]; eauto.
Qed.

Lemma subs_ok_use {A} p (m : M topic A) s s' o : (forall t, pool_live (eventPool (snd (m t))) = pool_live (eventPool t)) ->
  (p < length (topics s))%nat -> upd_topic p m s = (o, s') -> subs_ok s -> subs_ok s'.
Proof.
  intros Hm Hp Hs Hok. destruct (lookup_lt_is_Some_2 _ _ Hp) as [t Ht].
  rewrite (upd_topic_eq _ _ _ _ Ht) in Hs. simplify_eq. by eapply subs_ok_upd.
Qed.

Lemma subs_ok_drop name p s : subs_ok s -> subLive s !! name = Some p ->
  exists s', sub_drop name p s = (Ok tt, s') /\ subs_ok s' /\
    subLive s' = delete name (subLive s) /\ length (topics s') = length (topics s).
Proof.
  intros Hok Hp. destruct (so_live _ Hok _ _ Hp) as (t & Ht & Hl). unfold sub_drop.
  rewrite bind_eq, (upd_topic_eq _ _ _ _ Ht). simpl. eexists. split; [done|].
  destruct Hok as [Hlive Hdead Hinj]. splits; [|done|by apply length_insert].
  split; simpl.
  - intros n q [Hn Hq]%lookup_delete_Some. destruct (Hlive n q Hq) as (u & Hu & ?). exists u.
    rewrite list_lookup_insert_ne; [done|]. intros <-. by apply Hn, (Hinj _ _ p).
  - intros q u [(<- & <- & _)|[Hn Hq]]%list_lookup_insert_Some Hnone; simpl.
    + apply Terminate_live.
    + apply (Hdead q u Hq). intros n Hnq. apply (Hnone n). rewrite lookup_delete_ne; [done|].
      intros <-. congruence.
  - intros n1 n2 q [_ H1]%lookup_delete_Some [_ H2]%lookup_delete_Some. eauto.
Qed.

Lemma subs_ok_step s s' : subs_ok s -> sub_step s s' -> subs_ok s'.
Proof.
  intros Hok Hst. destruct Hst as [s s' o name h l Hs|s s' o name Hs|s s' o name Hs
    |s s' o p ev Hp Hs|s s' o p ev Hp Hs|s s' o p id ev Hp Hs|s s' call Hs].
  - unfold sub_insert in Hs. destruct (subLive s !! name) as [p|] eqn:E; simplify_eq; [done|].
    destruct Hok as [Hlive Hdead Hinj].
    assert (forall n q, subLive s !! n = Some q -> (q < length (topics s))%nat) as Hlt.
    { intros n q Hq. destruct (Hlive n q Hq) as (u & Hu & _). by eapply lookup_lt_Some. }
    split; simpl.
    + intros n q [[<- <-]|[Hn Hq]]%lookup_insert_Some.
      * exists (newTopic h l). rewrite lookup_app_r, Nat.sub_diag by lia. split; [done|].
        simpl. by rewrite Start_live, New_live.
      * destruct (Hlive n q Hq) as (u & Hu & ?). exists u. split; [|done].
        by apply lookup_app_l_Some.
    + intros q u Hu Hnone. apply lookup_app_Some in Hu as [Hu|[Hge Hu]].
      * apply (Hdead q u Hu). intros n Hq. apply (Hnone n). rewrite lookup_insert_ne; [done|].
        intros <-. congruence.
      * apply list_lookup_singleton_Some in Hu as [Hz _]. exfalso. apply (Hnone name).
        rewrite lookup_insert_eq. f_equal. lia.
    + intros n1 n2 q [[<- <-]|[Hn1 H1]]%lookup_insert_Some [[<- E2]|[Hn2 H2]]%lookup_insert_Some;
        try done; [apply Hlt in H2; lia|subst; apply Hlt in H1; lia|eauto].
  - unfold sub_undo in Hs. destruct (subLive s !! name) as [p|] eqn:E; [|by simplify_eq].
    destruct (subs_ok_drop _ _ _ Hok E) as (s2 & E2 & Hok2 & _). rewrite E2 in Hs. by simplify_eq.
  - unfold sub_remove in Hs. destruct (subLive s !! name) as [p|] eqn:E; [|by simplify_eq].
    destruct (subs_ok_drop _ _ _ Hok E) as (s2 & E2 & Hok2 & _). rewrite E2 in Hs. by simplify_eq.
  - by eapply (subs_ok_use p (top_admit ev)).
  - by eapply (subs_ok_use p (top_count ev)).
  - eapply (subs_ok_use p (top_schedule id ev)); [|done..]. intros t. apply Schedule_live.
  - destruct Hs as [p t job pool' call t' Ht Hj Hr]. injection Hr as <- <-.
    eapply subs_ok_upd; [exact Ht| |done]. simpl. by destruct (next_queued _ _ _ _ Hj).
Qed.

(** ** Properties *)

(** The life of a subscription, however subscribing, unsubscribing, failed
    subscriptions, arriving events and event handlers interleave: each name in
    the table has a subscription of its own with a working pool, and a
    subscription that is in the table no more has a terminated one: none is
    leaked, none is terminated while it is live, and an event that still reaches
    it over an old pointer is queued nowhere. *)
Theorem subscription_lifecycle s : reach sub_step sub_init s ->
  (forall name p, subLive s !! name = Some p ->
     exists t, topics s !! p = Some t /\ pool_live (eventPool t) = true) /\
  (forall n1 n2 p, subLive s !! n1 = Some p -> subLive s !! n2 = Some p -> n1 = n2) /\
  (forall p t id event, topics s !! p = Some t -> (forall name, subLive s !! name <> Some p) ->
     pool_live (eventPool t) = false /\
     pool_queued (eventPool (snd (top_schedule id event t))) = pool_queued (eventPool t)).
Proof.
  intros Hr. assert (subs_ok s) as [Hlive Hdead Hinj].
  { eapply reach_invariant; [|apply subs_ok_step|exact Hr]. split; simpl.
    - by intros name p Hp.
    - intros p t Hp. by rewrite lookup_nil in Hp.
    - by intros n1 n2 p Hp. }
  splits; [done..|]. intros p t id event Hp Hn. pose proof (Hdead p t Hp Hn) as Hl. split; [done|].
  simpl. by rewrite (Schedule_queued event_job), Hl.
Qed.
End topic.

(** Subscribed, an event queued, unsubscribed. *)
Definition sample_subs : subs (P := list_pool) (TopicHandler := nat) :=
  Subs 1 ∅ [mkTopic 7%nat (mkTopicLimits 1 10) 1 (ListPool [(1, [x61])] false true) 1].

Lemma subscription_lifecycle_witness :
  (forall name p, subLive sample_subs !! name = Some p ->
     exists t, topics sample_subs !! p = Some t /\ pool_live (eventPool t) = true) /\
  (forall n1 n2 p, subLive sample_subs !! n1 = Some p -> subLive sample_subs !! n2 = Some p -> n1 = n2) /\
  (forall p t id event, topics sample_subs !! p = Some t -> (forall name, subLive sample_subs !! name <> Some p) ->
     pool_live (eventPool t) = false /\
     pool_queued (eventPool (snd (top_schedule id event t))) = pool_queued (eventPool t)).
Proof.
  apply (@subscription_lifecycle list_pool _ nat sample_subs).
  eapply reach_trans; [eapply reach_one, (ss_insert _ _ _ (str "news") 7%nat (mkTopicLimits 1 10)); reflexivity|].
  eapply reach_trans; [eapply reach_one, (ss_admit _ _ _ 0 [x61]); [by vm_compute|reflexivity]|].
  eapply reach_trans; [eapply reach_one, (ss_count _ _ _ 0 [x61]); [by vm_compute|reflexivity]|].
  eapply reach_trans; [eapply reach_one, (ss_schedule _ _ _ 0 1 [x61]); [by vm_compute|reflexivity]|].
  eapply reach_one, (ss_remove _ _ _ (str "news")). reflexivity.
Defined.
