(* ===== verification/Requests.v ===== *)
(** * Pending requests (connection.go, Request; events.go, handleReply)

    The result channels of the requests in progress and the three operations on
    them: registering a request, delivering a reply, cleaning up; and any number
    of goroutines in [Request] against the receiver goroutine and the relay. *)

From Stdlib Require Import ZArith Lia Strings.Byte Strings.String.
From stdpp Require Import base gmap strings list.
From S2P Require Import Prelude.

Open Scope Z_scope.

(** ** State and operations *)

(** The fields [reqIdx], [reqReps] and [reqErrs] of a [Connection]. A result
    channel has room for one value; the one held by the map is open, since it is
    closed and removed under the same lock. *)
Record reqs := Reqs {
  reqIdx : Z;
  reqReps : gmap Z (option (list byte));
  reqErrs : gmap Z (option error)
}.

(** The first critical section of [Request]. *)
Definition req_register : M reqs Z := λ s,
  let reqId := reqIdx s in
  (Ok reqId, Reqs (u64 (reqIdx s + 1)) (<[reqId := None]> (reqReps s)) (<[reqId := None]> (reqErrs s))).

(** Its deferred clean-up. *)
Definition req_cleanup (reqId : Z) : M reqs unit :=
  modify (λ s, Reqs (reqIdx s) (delete reqId (reqReps s)) (delete reqId (reqErrs s))).

(** [m[id] <- v]: sending on a full channel blocks, and so does sending on the nil
    channel a lookup of an unknown id gives. *)
Definition chan_send {A} (m : gmap Z (option A)) (id : Z) (v : A) : option (gmap Z (option A)) :=
  match m !! id with
  | Some None => Some (<[id := Some v]> m)
  | _ => None
  end.

(** [handleReply], under the read lock. *)
Definition req_handleReply (id : Z) (reply : slice) (fault : gostring) : M reqs unit := λ s,
  let errs e := match chan_send (reqErrs s) id e with
                | Some m => (Ok tt, Reqs (reqIdx s) (reqReps s) m)
                | None => (Block, s)
                end in
  match reply, fault with
  | None, [] => errs ErrTimeout
  | None, _ => errs (RemoteError fault)
  | Some reply, _ =>
      match chan_send (reqReps s) id reply with
      | Some m => (Ok tt, Reqs (reqIdx s) m (reqErrs s))
      | None => (Block, s)
      end
  end.

(** The [select] of [Request]: what it can take from the result channels. *)
Definition req_take_reply (id : Z) (s : reqs) : option (list byte * reqs) :=
  match reqReps s !! id with
  | Some (Some r) => Some (r, Reqs (reqIdx s) (<[id := None]> (reqReps s)) (reqErrs s))
  | _ => None
  end.
Definition req_take_err (id : Z) (s : reqs) : option (error * reqs) :=
  match reqErrs s !! id with
  | Some (Some e) => Some (e, Reqs (reqIdx s) (reqReps s) (<[id := None]> (reqErrs s)))
  | _ => None
  end.

(** ** The goroutines *)

(** What [Request] returns: the relay's answer, or its own failure to send or the
    end of the connection. *)
Inductive result := Reply (r : list byte) | Failed (e : error) | SendFailed (e : error) | Closed.

Inductive rqpc :=
| RqIdle
| RqSend (id : Z)
| RqWait (id : Z)
| RqClean (id : Z) (res : result)
| RqDone (id : Z) (res : result).

(** A reply as [procReply] passes it on. *)
Definition reply_msg : Type := Z * slice * gostring.

Definition msg_id (x : reply_msg) : Z := fst (fst x).

(** [rq_stuck] is the reply the receiver goroutine is blocked on, with the read
    lock held, so that the write lock cannot be taken. [rq_seen] are all the
    replies the relay has sent so far, [rq_inbox] those not handled yet. *)
Record rqsys := RqSys {
  rq_reqs : reqs;
  rq_pcs : list rqpc;
  rq_inbox : list reply_msg;
  rq_stuck : option reply_msg;
  rq_seen : list reply_msg;
  rq_term : bool
}.

Definition handle (x : reply_msg) : M reqs unit := let '(id, reply, fault) := x in req_handleReply id reply fault.

(** [honest] relays reply once to a request that has been sent, others send any
    replies at any time. The receiver goroutine stops when it closes [term]. *)
Inductive rqstep (honest : bool) : rqsys -> rqsys -> Prop :=
| rq_register s s' l b n h i id : l !! i = Some RqIdle -> req_register s = (Ok id, s') ->
    rqstep honest (RqSys s l b None n h) (RqSys s' (<[i := RqSend id]> l) b None n h)
| rq_sent s l b k n h i id : l !! i = Some (RqSend id) ->
    rqstep honest (RqSys s l b k n h) (RqSys s (<[i := RqWait id]> l) b k n h)
| rq_failed s l b k n h i id e : l !! i = Some (RqSend id) ->
    rqstep honest (RqSys s l b k n h) (RqSys s (<[i := RqClean id (SendFailed e)]> l) b k n h)
| rq_reply s s' l b k n h i id r : l !! i = Some (RqWait id) -> req_take_reply id s = Some (r, s') ->
    rqstep honest (RqSys s l b k n h) (RqSys s' (<[i := RqClean id (Reply r)]> l) b k n h)
| rq_err s s' l b k n h i id e : l !! i = Some (RqWait id) -> req_take_err id s = Some (e, s') ->
    rqstep honest (RqSys s l b k n h) (RqSys s' (<[i := RqClean id (Failed e)]> l) b k n h)
| rq_closed s l b k n i id : l !! i = Some (RqWait id) ->
    rqstep honest (RqSys s l b k n true) (RqSys s (<[i := RqClean id Closed]> l) b k n true)
| rq_cleaned s s' l b n h i id res : l !! i = Some (RqClean id res) -> req_cleanup id s = (Ok tt, s') ->
    rqstep honest (RqSys s l b None n h) (RqSys s' (<[i := RqDone id res]> l) b None n h)
| rq_relay s l b k n h x :
    (honest = true -> (exists i, l !! i = Some (RqWait (msg_id x))) /\ msg_id x ∉ map msg_id n) ->
    rqstep honest (RqSys s l b k n h) (RqSys s l (b ++ [x]) k (n ++ [x]) h)
| rq_receive s s' l x b n : handle x s = (Ok tt, s') ->
    rqstep honest (RqSys s l (x :: b) None n false) (RqSys s' l b None n false)
| rq_block s s' l x b n : handle x s = (Block, s') ->
    rqstep honest (RqSys s l (x :: b) None n false) (RqSys s' l b (Some x) n false)
| rq_unblock s s' l x b n h : handle x s = (Ok tt, s') ->
    rqstep honest (RqSys s l b (Some x) n h) (RqSys s' l b None n h)
| rq_terminate s l b n : rqstep honest (RqSys s l b None n false) (RqSys s l b None n true).

Definition rq_init (threads : nat) : rqsys :=
  RqSys (Reqs 0 ∅ ∅) (replicate threads RqIdle) [] None [] false.

(** ** The invariant *)

(** The id of a request in progress, and of any that has registered. *)
Definition active (pc : rqpc) : option Z :=
  match pc with RqSend id | RqWait id | RqClean id _ => Some id | _ => None end.
Definition rq_id (pc : rqpc) : option Z :=
  match pc with RqIdle => None | RqDone id _ => Some id | _ => active pc end.

(** The result a reply of the relay stands for. *)
Definition answer (x : reply_msg) : result :=
  match x with
  | (_, Some r, _) => Reply r
  | (_, None, []) => Failed ErrTimeout
  | (_, None, fault) => Failed (RemoteError fault)
  end.

(** A result is the relay's answer to that very request, or the connection's own. *)
Definition justified (n : list reply_msg) (h : bool) (id : Z) (res : result) : Prop :=
  match res with
  | Reply _ | Failed _ => exists x, x ∈ n /\ msg_id x = id /\ answer x = res
  | SendFailed _ => True
  | Closed => h = true
  end.

#[global] Arguments justified : simpl never.

Lemma handle_eq x s : handle x s =
  match answer x with
  | Reply r => match chan_send (reqReps s) (msg_id x) r with
               | Some m => (Ok tt, Reqs (reqIdx s) m (reqErrs s))
               | None => (Block, s)
               end
  | Failed e => match chan_send (reqErrs s) (msg_id x) e with
                | Some m => (Ok tt, Reqs (reqIdx s) (reqReps s) m)
                | None => (Block, s)
                end
  | _ => (Block, s)
  end.
Proof. by destruct x as [[id [r|]] [|b f]]. Qed.

Lemma chan_send_Some {A} (m m' : gmap Z (option A)) id v :
  chan_send m id v = Some m' -> m !! id = Some None /\ m' = <[id := Some v]> m.
Proof. unfold chan_send. destruct (m !! id) as [[|]|] eqn:E; intros; simplify_eq; done. Qed.

(** *** Identifiers *)

Definition registered (pc : rqpc) : bool := match pc with RqIdle => false | _ => true end.

Record ids_ok (l : list rqpc) (idx : Z) : Prop := {
  io_unique : forall i j a b id, l !! i = Some a -> l !! j = Some b ->
    rq_id a = Some id -> rq_id b = Some id -> i = j;
  io_range : forall i a id, l !! i = Some a -> rq_id a = Some id -> 0 <= id < idx;
  io_count : idx = countb registered l
}.

Lemma ids_ok_same l idx i a b : l !! i = Some a -> rq_id a = rq_id b ->
  registered a = registered b -> ids_ok l idx -> ids_ok (<[i := b]> l) idx.
Proof.
  intros Hi Hid Hreg [Hu Hr Hc]. split.
  - intros j k x y id [(<- & <- & _)|[_ Hj]]%list_lookup_insert_Some
      [(<- & <- & _)|[_ Hk]]%list_lookup_insert_Some Hx Hy; eauto; rewrite <- ?Hid in *; eauto.
  - intros j x id [(<- & <- & _)|[_ Hj]]%list_lookup_insert_Some Hx; eauto.
    rewrite <- Hid in Hx. eauto.
  - rewrite (countb_insert _ _ _ _ _ Hi), Hreg. lia.
Qed.

Lemma ids_ok_new l idx i b : l !! i = Some RqIdle -> rq_id b = Some idx -> registered b = true ->
  ids_ok l idx -> ids_ok (<[i := b]> l) (idx + 1).
Proof.
  intros Hi Hid Hreg [Hu Hr Hc]. pose proof (countb_nonneg registered l). split.
  - intros j k x y id [(<- & <- & _)|[_ Hj]]%list_lookup_insert_Some
      [(<- & <- & _)|[_ Hk]]%list_lookup_insert_Some Hx Hy; eauto; exfalso.
    + pose proof (Hr _ _ _ Hk Hy). simplify_eq. lia.
    + pose proof (Hr _ _ _ Hj Hx). simplify_eq. lia.
  - intros j x id [(<- & <- & _)|[_ Hj]]%list_lookup_insert_Some Hx; [simplify_eq; lia|].
    pose proof (Hr _ _ _ Hj Hx). lia.
  - rewrite (countb_insert _ _ _ _ _ Hi), Hreg. simpl. lia.
Qed.

Lemma active_rq_id a id : active a = Some id -> rq_id a = Some id.
Proof. by destruct a. Qed.

(** The maps hold exactly the requests in progress. *)
Definition dom_ok {A} (l : list rqpc) (m : gmap Z A) : Prop :=
  forall id, is_Some (m !! id) <-> exists i a, l !! i = Some a /\ active a = Some id.

Lemma dom_ok_same {A} l (m : gmap Z A) i a b : l !! i = Some a -> active a = active b ->
  dom_ok l m -> dom_ok (<[i := b]> l) m.
Proof.
  intros Hi Hab Hd id. rewrite (Hd id). split; intros (j & x & Hj & Hx).
  - destruct (decide (i = j)) as [<-|Hn].
    + exists i, b. simplify_eq. rewrite list_lookup_insert_eq by by eapply lookup_lt_Some. by rewrite <- Hab.
    + exists j, x. by rewrite list_lookup_insert_ne.
  - apply list_lookup_insert_Some in Hj as [(<- & <- & _)|[_ Hj]]; [exists i, a|exists j, x]; split; congruence.
Qed.

Lemma dom_ok_new {A} l (m : gmap Z A) i a b id v : l !! i = Some a -> active a = None ->
  active b = Some id -> dom_ok l m -> dom_ok (<[i := b]> l) (<[id := v]> m).
Proof.
  intros Hi Ha Hb Hd id'. rewrite lookup_insert_is_Some'. rewrite (Hd id'). split.
  - intros [<-|(j & x & Hj & Hx)].
    + exists i, b. by rewrite list_lookup_insert_eq by by eapply lookup_lt_Some.
    + exists j, x. rewrite list_lookup_insert_ne; [done|]. intros ->. congruence.
  - intros (j & x & [(<- & <- & _)|[_ Hj]]%list_lookup_insert_Some & Hx); [left; congruence|right; eauto].
Qed.

Lemma dom_ok_del {A} l (m : gmap Z A) idx i a b id : l !! i = Some a -> active a = Some id ->
  active b = None -> ids_ok l idx -> dom_ok l m -> dom_ok (<[i := b]> l) (delete id m).
Proof.
  intros Hi Ha Hb Hio Hd id'. rewrite lookup_delete_is_Some. rewrite (Hd id'). split.
  - intros [Hn (j & x & Hj & Hx)]. exists j, x.
    rewrite list_lookup_insert_ne; [done|]. intros ->. congruence.
  - intros (j & x & [(<- & <- & _)|[Hn Hj]]%list_lookup_insert_Some & Hx); [congruence|].
    split; [|eauto]. intros ->. apply Hn.
    by apply (io_unique _ _ Hio _ _ _ _ id' Hi Hj); apply active_rq_id.
Qed.

Lemma dom_ok_upd {A} l (m : gmap Z A) id v : is_Some (m !! id) -> dom_ok l m -> dom_ok l (<[id := v]> m).
Proof.
  intros Hs Hd id'. rewrite lookup_insert_is_Some', <- (Hd id'). split; [|auto].
  intros [<-|?]; auto.
Qed.

(** *** Any relay *)

Definition res_of (pc : rqpc) : option (Z * result) :=
  match pc with RqClean id res | RqDone id res => Some (id, res) | _ => None end.

Record rq_ok (s : rqsys) : Prop := {
  ro_len : len (rq_pcs s) < 2 ^ 63;
  ro_ids : ids_ok (rq_pcs s) (reqIdx (rq_reqs s));
  ro_reps : dom_ok (rq_pcs s) (reqReps (rq_reqs s));
  ro_errs : dom_ok (rq_pcs s) (reqErrs (rq_reqs s));
  ro_rep : forall id r, reqReps (rq_reqs s) !! id = Some (Some r) ->
    justified (rq_seen s) (rq_term s) id (Reply r);
  ro_err : forall id e, reqErrs (rq_reqs s) !! id = Some (Some e) ->
    justified (rq_seen s) (rq_term s) id (Failed e);
  ro_res : forall i pc id res, rq_pcs s !! i = Some pc -> res_of pc = Some (id, res) ->
    justified (rq_seen s) (rq_term s) id res;
  ro_seen : forall x, x ∈ rq_inbox s \/ rq_stuck s = Some x -> x ∈ rq_seen s
}.

Lemma justified_mono n h n' h' id res : (forall x, x ∈ n -> x ∈ n') -> (h = true -> h' = true) ->
  justified n h id res -> justified n' h' id res.
Proof. intros Hn Hh. unfold justified. destruct res; auto; intros (x & ? & ?); eauto. Qed.

(** A goroutine moves on without registering or cleaning up. *)
Lemma rq_ok_pc s l b k n h i a c : l !! i = Some a -> rq_id a = rq_id c -> active a = active c ->
  registered a = registered c ->
  (forall id res, res_of c = Some (id, res) -> justified n h id res) ->
  rq_ok (RqSys s l b k n h) -> rq_ok (RqSys s (<[i := c]> l) b k n h).
Proof.
  intros Hi Hid Hac Hreg Hres [? ? ? ? ? ? Hr ?]. split; simpl in *; eauto.
  - unfold len. by rewrite length_insert.
  - by eapply ids_ok_same.
  - by eapply dom_ok_same.
  - by eapply dom_ok_same.
  - intros j pc id res [(<- & <- & _)|[_ Hj]]%list_lookup_insert_Some; eauto.
Qed.

(** Taking a result from a channel leaves the channel open and empty. *)
Lemma rq_ok_empty_rep s l b k n h id r : reqReps s !! id = Some (Some r) ->
  rq_ok (RqSys s l b k n h) ->
  rq_ok (RqSys (Reqs (reqIdx s) (<[id := None]> (reqReps s)) (reqErrs s)) l b k n h).
Proof.
  intros Hid []. split; simpl in *; auto.
  - apply dom_ok_upd; eauto.
  - intros id' r' [[? ?]|[? ?]]%lookup_insert_Some; [done|eauto].
Qed.

Lemma rq_ok_empty_err s l b k n h id e : reqErrs s !! id = Some (Some e) ->
  rq_ok (RqSys s l b k n h) ->
  rq_ok (RqSys (Reqs (reqIdx s) (reqReps s) (<[id := None]> (reqErrs s))) l b k n h).
Proof.
  intros Hid []. split; simpl in *; auto.
  - apply dom_ok_upd; eauto.
  - intros id' r' [[? ?]|[? ?]]%lookup_insert_Some; [done|eauto].
Qed.

(** A delivered reply is the answer to its request. *)
Lemma rq_ok_handle x s s' l b k b' k' n h : handle x s = (Ok tt, s') -> x ∈ n ->
  (forall y, y ∈ b' \/ k' = Some y -> y ∈ b \/ k = Some y) ->
  rq_ok (RqSys s l b k n h) -> rq_ok (RqSys s' l b' k' n h).
Proof.
  intros Hh Hx Hsub []. rewrite handle_eq in Hh.
  destruct (answer x) as [r|e| |] eqn:Ha; try done;
    destruct (chan_send _ _ _) as [m|] eqn:E; simplify_eq;
    apply chan_send_Some in E as [E ->]; split; simpl in *; auto;
    try (apply dom_ok_upd; eauto);
    intros id v [[<- ?]|[? ?]]%lookup_insert_Some; eauto; simplify_eq; unfold justified; eauto.
Qed.

Lemma handle_Block x s s' : handle x s = (Block, s') -> s' = s.
Proof.
  rewrite handle_eq. destruct (answer x); try congruence;
    destruct (chan_send _ _ _); congruence.
Qed.

Lemma rq_ok_init threads : Z.of_nat threads < 2 ^ 63 -> rq_ok (rq_init threads).
Proof.
  intros Ht.
  assert (forall i a, replicate threads RqIdle !! i = Some a -> a = RqIdle) as Hl.
  { intros i a Ha. by apply lookup_replicate in Ha as [? _]. }
  assert (forall A, dom_ok (A := A) (replicate threads RqIdle) ∅) as Hd.
  { intros A id. rewrite lookup_empty. split; [by intros [? ?]|]. intros (i & a & Ha & Hx).
    by rewrite (Hl _ _ Ha) in Hx. }
  split; simpl; auto; try done.
  - unfold len. by rewrite length_replicate.
  - split.
    + intros i j a b id Ha _ Hx _. by rewrite (Hl _ _ Ha) in Hx.
    + intros i a id Ha Hx. by rewrite (Hl _ _ Ha) in Hx.
    + clear. induction threads; simpl; lia.
  - intros i pc id res Hi Hr. by rewrite (Hl _ _ Hi) in Hr.
  - intros x [Hx|Hx]; [by apply elem_of_nil in Hx|done].
Qed.

Lemma rq_ok_step honest s s' : rq_ok s -> rqstep honest s s' -> rq_ok s'.
Proof.
  intros Hok Hst. destruct Hst as
    [s s' l b n h i id Hi Hs|s l b k n h i id Hi|s l b k n h i id e Hi|s s' l b k n h i id r Hi Hs
    |s s' l b k n h i id e Hi Hs|s l b k n i id Hi|s s' l b n h i id res Hi Hs|s l b k n h x Hx
    |s s' l x b n Hs|s s' l x b n Hs|s s' l x b n h Hs|s l b n].
  - injection Hs as <- <-. destruct Hok as [Hlen Hids Hreps Herrs Hrep Herr Hres Hseen]. simpl in *.
    pose proof (io_count _ _ Hids) as Hc. pose proof (countb_nonneg registered l).
    rewrite u64_id by lia. split; simpl; auto.
    + unfold len. by rewrite length_insert.
    + by apply ids_ok_new.
    + by eapply dom_ok_new.
    + by eapply dom_ok_new.
    + intros id' r [[? ?]|[? ?]]%lookup_insert_Some; [done|eauto].
    + intros id' r [[? ?]|[? ?]]%lookup_insert_Some; [done|eauto].
    + intros j pc id' res [(<- & <- & _)|[_ Hj]]%list_lookup_insert_Some; eauto.
  - by eapply rq_ok_pc.
  - eapply rq_ok_pc; eauto. by intros ? ? [= <- <-].
  - unfold req_take_reply in Hs. destruct (reqReps s !! id) as [[r'|]|] eqn:E; simplify_eq.
    eapply rq_ok_pc; [done..| |by eapply rq_ok_empty_rep]. intros ? ? [= <- <-].
    by apply (ro_rep _ Hok).
  - unfold req_take_err in Hs. destruct (reqErrs s !! id) as [[r'|]|] eqn:E; simplify_eq.
    eapply rq_ok_pc; [done..| |by eapply rq_ok_empty_err]. intros ? ? [= <- <-].
    by apply (ro_err _ Hok).
  - eapply rq_ok_pc; eauto. by intros ? ? [= <- <-].
  - injection Hs as <-. destruct Hok as [Hlen Hids Hreps Herrs Hrep Herr Hres Hseen]. simpl in *.
    split; simpl; auto.
    + unfold len. by rewrite length_insert.
    + by eapply ids_ok_same.
    + by eapply dom_ok_del.
    + by eapply dom_ok_del.
    + intros id' r [_ ?]%lookup_delete_Some. eauto.
    + intros id' r [_ ?]%lookup_delete_Some. eauto.
    + intros j pc id' res' [(<- & <- & _)|[_ Hj]]%list_lookup_insert_Some Hr; [|eauto].
      simplify_eq/=. by eapply Hres.
  - destruct Hok as [? ? ? ? Hrep Herr Hres Hseen]. simpl in *.
    assert (forall y, y ∈ n -> y ∈ n ++ [x]) by (intros; apply elem_of_app; auto).
    split; simpl; auto; try (intros; eapply justified_mono; eauto; fail).
    intros y [Hy|Hy]; [|by auto]. apply elem_of_app in Hy as [Hy|Hy]; [by auto|].
    apply elem_of_app. by right.
  - eapply (rq_ok_handle x _ _ _ (x :: b) None); [exact Hs| | |exact Hok].
    + apply (ro_seen _ Hok). left. by left.
    + intros y [Hy|Hy]; [|done]. left. by right.
  - apply handle_Block in Hs as ->. destruct Hok as [? ? ? ? Hrep Herr Hres Hseen]. simpl in *.
    split; simpl; auto. intros y [Hy|Hy]; apply Hseen; left; [by right|]. simplify_eq. by left.
  - eapply (rq_ok_handle x _ _ _ b (Some x)); [exact Hs| | |exact Hok].
    + apply (ro_seen _ Hok). by right.
    + intros y [Hy|Hy]; [by left|done].
  - destruct Hok as [? ? ? ? Hrep Herr Hres Hseen]. simpl in *.
    split; simpl; auto; intros; apply (justified_mono n false n true); eauto.
Qed.

(** *** An honest relay *)

(** The answer [x] is in the result channel of its request. *)
Definition delivered (s : reqs) (x : reply_msg) : Prop :=
  match answer x with
  | Reply r => reqReps s !! msg_id x = Some (Some r)
  | Failed e => reqErrs s !! msg_id x = Some (Some e)
  | _ => False
  end.

(** A value in a channel is the answer of a handled reply. *)
Definition from_handled (done : list reply_msg) (s : reqs) : Prop :=
  (forall id r, reqReps s !! id = Some (Some r) ->
     exists x, x ∈ done /\ msg_id x = id /\ answer x = Reply r) /\
  (forall id e, reqErrs s !! id = Some (Some e) ->
     exists x, x ∈ done /\ msg_id x = id /\ answer x = Failed e).

Record rq_honest (done : list reply_msg) (s : rqsys) : Prop := {
  rh_stuck : rq_stuck s = None;
  rh_seen : rq_seen s = done ++ rq_inbox s;
  rh_nodup : NoDup (map msg_id (rq_seen s));
  rh_from : from_handled done (rq_reqs s);
  rh_delivered : forall x i, x ∈ done -> rq_pcs s !! i = Some (RqWait (msg_id x)) ->
    delivered (rq_reqs s) x;
  rh_inbox : rq_term s = false -> forall x, x ∈ rq_inbox s ->
    exists i, rq_pcs s !! i = Some (RqWait (msg_id x));
  rh_send : forall x i id, x ∈ rq_seen s -> rq_pcs s !! i = Some (RqSend id) -> msg_id x <> id;
  rh_idx : forall x, x ∈ rq_seen s -> msg_id x < reqIdx (rq_reqs s)
}.

Lemma nodup_ids done b x y : NoDup (map msg_id (done ++ b)) -> x ∈ done -> y ∈ b -> msg_id x <> msg_id y.
Proof.
  rewrite map_app. intros (_ & Hd & _)%NoDup_app Hx Hy E.
  apply (Hd (msg_id x)); [by apply list_elem_of_fmap_2|]. rewrite E. by apply list_elem_of_fmap_2.
Qed.

(** Which goroutine waits for a reply only depends on the others. *)
Lemma wait_kept (l : list rqpc) i c j id : c <> RqWait id ->
  <[i := c]> l !! j = Some (RqWait id) -> i <> j /\ l !! j = Some (RqWait id).
Proof. by intros Hc [(<- & ? & _)|[? ?]]%list_lookup_insert_Some. Qed.

Lemma wait_other (l : list rqpc) i a c j id : l !! i = Some a -> a <> RqWait id ->
  l !! j = Some (RqWait id) -> <[i := c]> l !! j = Some (RqWait id).
Proof. intros Hi Ha Hj. rewrite list_lookup_insert_ne; [done|]. intros ->. congruence. Qed.

(** A goroutine that is not waiting, before or after, moves on. *)
Lemma rq_honest_pc done s l b k n h i a c : l !! i = Some a ->
  (forall id, a <> RqWait id) -> (forall id, c <> RqWait id) -> (forall id, c <> RqSend id) ->
  rq_honest done (RqSys s l b k n h) -> rq_honest done (RqSys s (<[i := c]> l) b k n h).
Proof.
  intros Hi Ha Hc Hc2 [? ? ? ? Hd Hin Hsend ?]. split; simpl in *; auto.
  - intros x j Hx Hj. apply wait_kept in Hj as [_ Hj]; eauto.
  - intros Hh x Hx. destruct (Hin Hh x Hx) as [j Hj]. exists j. by eapply wait_other.
  - intros x j id Hx [(<- & ? & _)|[_ Hj]]%list_lookup_insert_Some; [|eauto]. by destruct (Hc2 id).
Qed.

(** A waiting goroutine takes its result: no reply to it is left to come. *)
Lemma rq_honest_take done s s' l b k n h i id res y :
  l !! i = Some (RqWait id) -> y ∈ done -> msg_id y = id -> from_handled done s' ->
  reqIdx s' = reqIdx s -> (forall x, msg_id x <> id -> delivered s x -> delivered s' x) ->
  ids_ok l (reqIdx s) ->
  rq_honest done (RqSys s l b k n h) ->
  rq_honest done (RqSys s' (<[i := RqClean id res]> l) b k n h).
Proof.
  intros Hi Hy Hyid Hfrom Hidx Hdel Hids [? Hseen Hnd ? Hd Hin Hsend Hlt]. split; simpl in *; auto.
  - intros x j Hx Hj. apply wait_kept in Hj as [Hn Hj]; [|done]. apply Hdel; [|eauto].
    intros E. apply Hn. by eapply (io_unique _ _ Hids i j _ _ id); [exact Hi|exact Hj|simpl|simpl; by rewrite E].
  - intros Hh x Hx. destruct (Hin Hh x Hx) as [j Hj]. exists j.
    rewrite list_lookup_insert_ne; [done|]. rewrite Hseen in Hnd. intros ->.
    assert (id = msg_id x) as E by congruence. rewrite <- Hyid in E. eapply nodup_ids; [exact Hnd|exact Hy|exact Hx|done].
  - intros x j id' Hx [(_ & ? & _)|[_ Hj]]%list_lookup_insert_Some; [done|eauto].
  - by rewrite Hidx.
Qed.

Lemma honest_handle done s l x b n : rq_ok (RqSys s l (x :: b) None n false) ->
  rq_honest done (RqSys s l (x :: b) None n false) ->
  exists s', handle x s = (Ok tt, s') /\ from_handled (done ++ [x]) s' /\ delivered s' x /\
    reqIdx s' = reqIdx s /\ (forall y, msg_id y <> msg_id x -> delivered s y -> delivered s' y).
Proof.
  intros [_ _ Hreps Herrs _ _ _ _] [_ Hseen Hnd [Hf1 Hf2] _ Hin _ _]. simpl in *.
  destruct (Hin eq_refl x) as [i Hi]; [by left|].
  assert (forall y, y ∈ done -> msg_id y <> msg_id x) as Hy.
  { intros y Hd. rewrite Hseen in Hnd. eapply nodup_ids; [exact Hnd|done|by left]. }
  assert (reqReps s !! msg_id x = Some None) as Hr.
  { destruct (proj2 (Hreps (msg_id x))) as [[r|] Hr]; [by eauto| |done].
    destruct (Hf1 _ _ Hr) as (y & Hd & E & _). by destruct (Hy y Hd). }
  assert (reqErrs s !! msg_id x = Some None) as He.
  { destruct (proj2 (Herrs (msg_id x))) as [[r|] Hr2]; [by eauto| |done].
    destruct (Hf2 _ _ Hr2) as (y & Hd & E & _). by destruct (Hy y Hd). }
  rewrite handle_eq. unfold chan_send. rewrite Hr, He.
  assert (forall y, y ∈ done -> y ∈ done ++ [x]) as Hmono by (intros; apply elem_of_app; auto).
  assert (x ∈ done ++ [x]) as Hx by (apply elem_of_app; right; by left).
  destruct (answer x) as [r|e| |] eqn:Ha; [..|by destruct x as [[? [|]] [|]]|by destruct x as [[? [|]] [|]]];
    (eexists; splits; [done| |unfold delivered; rewrite Ha; simpl; by rewrite lookup_insert_eq|done|]).
  - split; simpl; intros id v.
    + intros [[<- ?]|[_ Hv]]%lookup_insert_Some; [simplify_eq; eauto|].
      destruct (Hf1 _ _ Hv) as (y & ? & ? & ?); eauto.
    + intros Hv. destruct (Hf2 _ _ Hv) as (y & ? & ? & ?); eauto.
  - intros y Hn. unfold delivered. destruct (answer y); simpl; by rewrite ?lookup_insert_ne.
  - split; simpl; intros id v.
    + intros Hv. destruct (Hf1 _ _ Hv) as (y & ? & ? & ?); eauto.
    + intros [[<- ?]|[_ Hv]]%lookup_insert_Some; [simplify_eq; eauto|].
      destruct (Hf2 _ _ Hv) as (y & ? & ? & ?); eauto.
  - intros y Hn. unfold delivered. destruct (answer y); simpl; by rewrite ?lookup_insert_ne.
Qed.

Lemma rq_honest_step done s s' : rq_ok s -> rq_honest done s -> rqstep true s s' ->
  exists done', rq_honest done' s'.
Proof.
  intros Hok Hh Hst. destruct Hst as
    [s s' l b n h i id Hi Hs|s l b k n h i id Hi|s l b k n h i id e Hi|s s' l b k n h i id r Hi Hs
    |s s' l b k n h i id e Hi Hs|s l b k n i id Hi|s s' l b n h i id res Hi Hs|s l b k n h x Hx
    |s s' l x b n Hs|s s' l x b n Hs|s s' l x b n h Hs|s l b n].
  - exists done. injection Hs as <- <-.
    pose proof (io_count _ _ (ro_ids _ Hok)) as Hc. pose proof (ro_len _ Hok) as Hlen.
    simpl in Hc, Hlen. pose proof (countb_nonneg registered l).
    destruct Hh as [? Hseen Hnd [Hf1 Hf2] Hd Hin Hsend Hlt]. simpl in *.
    rewrite u64_id by lia.
    assert (forall x, x ∈ done -> msg_id x <> reqIdx s) as Hnew.
    { intros x Hx. assert (x ∈ n) as Hxn by (rewrite Hseen; apply elem_of_app; auto).
      specialize (Hlt x Hxn). lia. }
    split; simpl; auto.
    + split; simpl; intros id v [[? ?]|[_ Hv]]%lookup_insert_Some; eauto; done.
    + intros x j Hx Hj. apply wait_kept in Hj as [_ Hj]; [|done]. specialize (Hd x j Hx Hj).
      unfold delivered in *. destruct (answer x); simpl; auto;
        by rewrite lookup_insert_ne by (apply not_eq_sym; auto).
    + intros Ht x Hx. destruct (Hin Ht x Hx) as [j Hj]. exists j. by eapply wait_other.
    + intros x j id Hx [(_ & ? & _)|[_ Hj]]%list_lookup_insert_Some; [|eauto].
      simplify_eq. specialize (Hlt x Hx). lia.
    + intros x Hx. specialize (Hlt x Hx). lia.
  - exists done. destruct Hh as [? Hseen Hnd ? Hd Hin Hsend Hlt]. split; simpl in *; auto.
    + intros x j Hx [(_ & ? & _)|[_ Hj]]%list_lookup_insert_Some; [|eauto].
      assert (x ∈ n) as Hxn by (rewrite Hseen; apply elem_of_app; auto). simplify_eq.
      by destruct (Hsend x i (msg_id x)).
    + intros Ht x Hx. destruct (Hin Ht x Hx) as [j Hj]. exists j. by eapply wait_other.
    + intros x j id' Hx [(_ & ? & _)|[_ Hj]]%list_lookup_insert_Some; [done|eauto].
  - exists done. by eapply rq_honest_pc.
  - exists done. unfold req_take_reply in Hs. destruct (reqReps s !! id) as [[r'|]|] eqn:E; simplify_eq.
    destruct (rh_from _ _ Hh) as [Hf1 Hf2]. simpl in Hf1, Hf2. destruct (Hf1 _ _ E) as (y & Hy & Hyi & _).
    eapply (rq_honest_take done s _ l b k n h i id _ y); eauto; [| |by apply (ro_ids _ Hok)].
    + split; simpl; [|eauto]. intros id' v [[? ?]|[_ Hv]]%lookup_insert_Some; eauto; done.
    + intros x Hx Hdx. unfold delivered in *. destruct (answer x); simpl; auto; by rewrite lookup_insert_ne.
  - exists done. unfold req_take_err in Hs. destruct (reqErrs s !! id) as [[r'|]|] eqn:E; simplify_eq.
    destruct (rh_from _ _ Hh) as [Hf1 Hf2]. simpl in Hf1, Hf2. destruct (Hf2 _ _ E) as (y & Hy & Hyi & _).
    eapply (rq_honest_take done s _ l b k n h i id _ y); eauto; [| |by apply (ro_ids _ Hok)].
    + split; simpl; [eauto|]. intros id' v [[? ?]|[_ Hv]]%lookup_insert_Some; eauto; done.
    + intros x Hx Hdx. unfold delivered in *. destruct (answer x); simpl; auto; by rewrite lookup_insert_ne.
  - exists done. destruct Hh as [? Hseen Hnd ? Hd Hin Hsend Hlt]. split; simpl in *; auto; try done.
    + intros x j Hx Hj. apply wait_kept in Hj as [_ Hj]; eauto.
    + intros x j id' Hx [(_ & ? & _)|[_ Hj]]%list_lookup_insert_Some; [done|eauto].
  - exists done. injection Hs as <-. apply (rq_honest_pc _ _ _ _ _ _ _ _ _ (RqDone id res) Hi) in Hh; try done.
    destruct Hh as [? Hseen Hnd [Hf1 Hf2] Hd Hin Hsend Hlt]. split; simpl in *; auto.
    + split; simpl; intros id' v [_ Hv]%lookup_delete_Some; eauto.
    + intros x j Hx Hj. specialize (Hd x j Hx Hj). apply wait_kept in Hj as [Hn Hj]; [|done].
      assert (msg_id x <> id) as Hne.
      { intros E. apply Hn. by eapply (io_unique _ _ (ro_ids _ Hok) i j _ _ id);
          [exact Hi|exact Hj|simpl|simpl; rewrite E]. }
      unfold delivered in *. destruct (answer x); simpl; auto; by rewrite lookup_delete_ne.
  - exists done. destruct (Hx eq_refl) as [[i Hi] Hni].
    destruct Hh as [? Hseen Hnd ? Hd Hin Hsend Hlt]. split; simpl in *; auto.
    + rewrite Hseen. by rewrite <- app_assoc.
    + rewrite map_app. apply NoDup_app. splits; [done| |apply NoDup_singleton].
      intros y Hy Hyx. apply list_elem_of_singleton in Hyx. subst y. done.
    + intros Ht y Hy. apply elem_of_app in Hy as [Hy|Hy]; [eauto|].
      apply list_elem_of_singleton in Hy as ->. eauto.
    + intros y j id Hy Hj. apply elem_of_app in Hy as [Hy|Hy]; [eauto|].
      apply list_elem_of_singleton in Hy as ->. intros E.
      assert (i = j) as <-; [|congruence].
      by eapply (io_unique _ _ (ro_ids _ Hok) i j _ _ id); [exact Hi|exact Hj|simpl; rewrite E|].
    + intros y Hy. apply elem_of_app in Hy as [Hy|Hy]; [eauto|].
      apply list_elem_of_singleton in Hy as ->.
      by eapply (io_range _ _ (ro_ids _ Hok)); [exact Hi|].
  - exists (done ++ [x]). destruct (honest_handle _ _ _ _ _ _ Hok Hh) as (s2 & E & Hf & Hdx & Hidx & Hdo).
    rewrite E in Hs. simplify_eq. destruct Hh as [? Hseen Hnd _ Hd Hin Hsend Hlt]. split; simpl in *; auto.
    + rewrite Hseen. by rewrite <- app_assoc.
    + intros y j Hy Hj. apply elem_of_app in Hy as [Hy|Hy].
      * apply Hdo; [|eauto]. rewrite Hseen in Hnd. eapply nodup_ids; [exact Hnd|done|by left].
      * by apply list_elem_of_singleton in Hy as ->.
    + intros _ y Hy. apply Hin; [done|]. by right.
    + intros y Hy. rewrite Hidx. eauto.
  - destruct (honest_handle _ _ _ _ _ _ Hok Hh) as (s2 & E & _). by rewrite E in Hs.
  - by pose proof (rh_stuck _ _ Hh).
  - exists done. destruct Hh as [? Hseen Hnd ? Hd Hin Hsend Hlt]. by split; simpl in *.
Qed.

Lemma rq_honest_reach threads s : Z.of_nat threads < 2 ^ 63 ->
  reach (rqstep true) (rq_init threads) s -> rq_ok s /\ exists done, rq_honest done s.
Proof.
  intros Ht Hr. eapply (reach_invariant (rqstep true) (λ s, rq_ok s /\ exists done, rq_honest done s));
    [..|exact Hr].
  - split; [by apply rq_ok_init|]. exists []. split; simpl; try done.
    + constructor.
    + intros x i Hx. by apply elem_of_nil in Hx.
    + intros _ x Hx. by apply elem_of_nil in Hx.
    + intros x i id Hx. by apply elem_of_nil in Hx.
    + intros x Hx. by apply elem_of_nil in Hx.
  - intros x y [Hok [done Hh]] Hst. split; [by eapply rq_ok_step|by eapply rq_honest_step].
Qed.

(** ** Properties *)

(** Replies are not mixed up. Whatever the relay sends and however the calls
    interleave, a [Request] that returns a reply or a remote error returns one
    the relay sent for that request's own number, and it reports closure only
    after the connection has ended; and no two calls ever have the same number. *)
Theorem request_result_sound honest threads s i id res :
  Z.of_nat threads < 2 ^ 63 -> reach (rqstep honest) (rq_init threads) s ->
  rq_pcs s !! i = Some (RqDone id res) ->
  justified (rq_seen s) (rq_term s) id res /\
  forall j pc, rq_pcs s !! j = Some pc -> rq_id pc = Some id -> i = j.
Proof.
  intros Ht Hr Hi.
  assert (rq_ok s) as Hok.
  { eapply reach_invariant; [by apply rq_ok_init| |exact Hr]. apply rq_ok_step. }
  split.
  - by eapply (ro_res _ Hok); [exact Hi|].
  - intros j pc Hj Hid. by eapply (io_unique _ _ (ro_ids _ Hok)); [exact Hi|exact Hj| |].
Qed.

(** C26: against a relay that answers each request once, the receiver goroutine
    never blocks in [handleReply], and once it has handled the answer to a
    waiting request that request can take it and return it. *)
Theorem honest_relay_never_blocks threads s : Z.of_nat threads < 2 ^ 63 ->
  reach (rqstep true) (rq_init threads) s ->
  rq_stuck s = None /\
  (rq_term s = false -> forall x b, rq_inbox s = x :: b -> fst (handle x (rq_reqs s)) = Ok tt) /\
  (forall x i, x ∈ rq_seen s -> rq_pcs s !! i = Some (RqWait (msg_id x)) ->
     x ∈ rq_inbox s \/
     exists s', reach (rqstep true) s s' /\ rq_pcs s' !! i = Some (RqDone (msg_id x) (answer x))).
Proof.
  intros Ht Hr. destruct (rq_honest_reach _ _ Ht Hr) as [Hok [done Hh]].
  destruct s as [s l inb k n h]. pose proof (rh_stuck _ _ Hh) as Hk. simpl in Hk. subst k.
  splits; [done| |].
  - simpl. intros -> x b ->. destruct (honest_handle _ _ _ _ _ _ Hok Hh) as (s2 & E & _).
    by rewrite E.
  - simpl. intros x i Hx Hi. pose proof (rh_seen _ _ Hh) as Hs. simpl in Hs. rewrite Hs in Hx.
    apply elem_of_app in Hx as [Hx|Hx]; [|by left]. right.
    pose proof (rh_delivered _ _ Hh x i Hx Hi) as Hd. unfold delivered in Hd. simpl in Hd.
    assert (forall c, <[i := c]> l !! i = Some c) as Hins.
    { intros c. apply list_lookup_insert_eq. by eapply lookup_lt_Some. }
    assert (forall c c', <[i := c']> (<[i := c]> l) !! i = Some c') as Hins2.
    { intros c c'. rewrite list_lookup_insert_eq; [done|]. rewrite length_insert. by eapply lookup_lt_Some. }
    destruct (answer x) as [r|e| |] eqn:Ha; try done; eexists; split.
    + eapply reach_trans; eapply reach_one.
      * eapply rq_reply; [exact Hi|]. unfold req_take_reply. by rewrite Hd.
      * eapply rq_cleaned; [apply Hins|done].
    + simpl. apply Hins2.
    + eapply reach_trans; eapply reach_one.
      * eapply rq_err; [exact Hi|]. unfold req_take_err. by rewrite Hd.
      * eapply rq_cleaned; [apply Hins|done].
    + simpl. apply Hins2.
Qed.

(** One reply to an unknown number is enough to freeze the connection for
    good: the receiver goroutine blocks on a nil channel holding the read lock,
    so it handles nothing any more, no request can register, none can finish
    cleaning up, and the connection never ends. *)
Theorem stray_reply_freezes honest s l x b n s' :
  reqReps s !! msg_id x = None -> reqErrs s !! msg_id x = None ->
  reach (rqstep honest) (RqSys s l b (Some x) n false) s' ->
  rq_stuck s' = Some x /\ rq_term s' = false /\ reqIdx (rq_reqs s') = reqIdx s /\
  (forall i, rq_pcs s' !! i = Some RqIdle <-> l !! i = Some RqIdle) /\
  (forall i id res, l !! i = Some (RqClean id res) -> rq_pcs s' !! i = Some (RqClean id res)).
Proof.
  intros Hr He Hreach.
  enough (rq_stuck s' = Some x /\ rq_term s' = false /\ reqIdx (rq_reqs s') = reqIdx s /\
    (forall i, rq_pcs s' !! i = Some RqIdle <-> l !! i = Some RqIdle) /\
    (forall i id res, l !! i = Some (RqClean id res) -> rq_pcs s' !! i = Some (RqClean id res)) /\
    reqReps (rq_reqs s') !! msg_id x = None /\ reqErrs (rq_reqs s') !! msg_id x = None) by tauto.
  pattern s'. eapply reach_invariant; [|clear Hreach s'|exact Hreach]; [by splits|].
  intros t u (Hk & Hh & Hx & Hid & Hcl & Hr' & He') Hst.
  assert (forall (p : list rqpc) i a c, p !! i = Some a -> a <> RqIdle -> c <> RqIdle ->
    (forall j, p !! j = Some RqIdle <-> l !! j = Some RqIdle) ->
    forall j, <[i := c]> p !! j = Some RqIdle <-> l !! j = Some RqIdle) as Hidle.
  { intros p i a c Hi Ha Hc Hp j. rewrite <- Hp, list_lookup_insert_Some. split.
    - intros [(<- & ? & _)|[_ ?]]; done.
    - intros Hj. right. split; [|done]. intros ->. congruence. }
  assert (forall (p : list rqpc) i a c, p !! i = Some a -> (forall id res, a <> RqClean id res) ->
    (forall j id res, l !! j = Some (RqClean id res) -> p !! j = Some (RqClean id res)) ->
    forall j id res, l !! j = Some (RqClean id res) -> <[i := c]> p !! j = Some (RqClean id res)) as Hclean.
  { intros p i a c Hi Ha Hp j id res Hj. apply Hp in Hj. rewrite list_lookup_insert_ne; [done|].
    intros ->. rewrite Hi in Hj. simplify_eq. by destruct (Ha id res). }
  destruct Hst as
    [s1 s2 p c m h i id Hi Hs|s1 p c k m h i id Hi|s1 p c k m h i id e Hi|s1 s2 p c k m h i id r Hi Hs
    |s1 s2 p c k m h i id e Hi Hs|s1 p c k m i id Hi|s1 s2 p c m h i id res Hi Hs|s1 p c k m h y Hy
    |s1 s2 p y c m Hs|s1 s2 p y c m Hs|s1 s2 p y c m h Hs|s1 p c m]; simpl in *; try done.
  - splits; eauto.
  - splits; eauto.
  - unfold req_take_reply in Hs. destruct (reqReps s1 !! id) as [[r'|]|] eqn:E; simplify_eq. simpl.
    splits; eauto.
    rewrite lookup_insert_ne; [done|]. intros ->. congruence.
  - unfold req_take_err in Hs. destruct (reqErrs s1 !! id) as [[r'|]|] eqn:E; simplify_eq. simpl.
    splits; eauto.
    rewrite lookup_insert_ne; [done|]. intros ->. congruence.
  - simplify_eq. rewrite handle_eq in Hs. unfold chan_send in Hs. rewrite Hr', He' in Hs.
    by destruct (answer x).
Qed.

(** ** The properties at concrete inputs *)

(** Two goroutines; the second's request is answered. *)
Definition sample_seen : list reply_msg := [(1, Some [x61], [])].

Definition sample_done : rqsys :=
  RqSys (Reqs 2 {[0 := None]} {[0 := None]}) [RqSend 0; RqDone 1 (Reply [x61])] [] None sample_seen false.

Lemma sample_reach honest : reach (rqstep honest) (rq_init 2)
  (RqSys (Reqs 2 (<[1 := None]> (<[0 := None]> ∅)) (<[1 := None]> (<[0 := None]> ∅)))
     [RqSend 0; RqWait 1] sample_seen None sample_seen false).
Proof.
  eapply reach_trans; [eapply reach_one, (rq_register _ _ _ _ _ _ _ 0 0); reflexivity|].
  eapply reach_trans; [eapply reach_one, (rq_register _ _ _ _ _ _ _ 1 1); reflexivity|].
  eapply reach_trans; [eapply reach_one, (rq_sent _ _ _ _ _ _ _ 1 1); reflexivity|].
  eapply reach_one, (rq_relay _ _ [RqSend 0; RqWait 1] [] None [] false (1, Some [x61], [])).
  intros _. split; [by exists 1%nat|]. apply not_elem_of_nil.
Qed.

Lemma sample_reach_done honest : exists s, reach (rqstep honest) (rq_init 2) s /\
  rq_pcs s !! 1%nat = Some (RqDone 1 (Reply [x61])) /\ rq_seen s = sample_seen /\ rq_term s = false.
Proof.
  eexists. split.
  - eapply reach_trans; [apply sample_reach|].
    eapply reach_trans; [eapply reach_one, rq_receive; reflexivity|].
    eapply reach_trans; [eapply reach_one, (rq_reply _ _ _ _ _ _ _ _ 1 1); reflexivity|].
    eapply reach_one, (rq_cleaned _ _ _ _ _ _ _ 1 1); reflexivity.
  - done.
Qed.

Lemma request_result_sound_witness : exists s,
  rq_pcs s !! 1%nat = Some (RqDone 1 (Reply [x61])) /\
  justified (rq_seen s) (rq_term s) 1 (Reply [x61]) /\
  forall j pc, rq_pcs s !! j = Some pc -> rq_id pc = Some 1 -> 1%nat = j.
Proof.
  destruct (sample_reach_done false) as (s & Hr & Hi & _). exists s. split; [exact Hi|].
  apply (request_result_sound false 2 s 1 1 (Reply [x61])).
  - reflexivity.
  - exact Hr.
  - exact Hi.
Defined.

Lemma honest_relay_never_blocks_witness :
  let s := RqSys (Reqs 2 (<[1 := None]> (<[0 := None]> ∅)) (<[1 := None]> (<[0 := None]> ∅)))
     [RqSend 0; RqWait 1] sample_seen None sample_seen false in
  rq_stuck s = None /\
  (rq_term s = false -> forall x b, rq_inbox s = x :: b -> fst (handle x (rq_reqs s)) = Ok tt) /\
  (forall x i, x ∈ rq_seen s -> rq_pcs s !! i = Some (RqWait (msg_id x)) ->
     x ∈ rq_inbox s \/
     exists s', reach (rqstep true) s s' /\ rq_pcs s' !! i = Some (RqDone (msg_id x) (answer x))).
Proof.
  apply (honest_relay_never_blocks 2).
  - reflexivity.
  - apply sample_reach.
Defined.

Lemma stray_reply_freezes_witness :
  let x : reply_msg := (5, None, []) in
  let s := RqSys (Reqs 0 ∅ ∅) [RqIdle] [] (Some x) [x] false in
  rq_stuck s = Some x /\ rq_term s = false /\ reqIdx (rq_reqs s) = 0 /\
  (forall i, rq_pcs s !! i = Some RqIdle <-> [RqIdle] !! i = Some RqIdle) /\
  (forall i id res, [RqIdle] !! i = Some (RqClean id res) -> rq_pcs s !! i = Some (RqClean id res)).
Proof.
  apply (stray_reply_freezes false (Reqs 0 ∅ ∅) [RqIdle] (5, None, []) [] [(5, None, [])]).
  - reflexivity.
  - reflexivity.
  - constructor.
Defined.
