(* ===== verification/Tunnels.v ===== *)
(** * The tunnel table (tunnel.go, events.go)

    The table of live tunnels and the store of tunnels behind it: creating,
    removing and closing tunnels, the hand-over of a construction result, and
    every interleaving of these critical sections. *)

From Stdlib Require Import ZArith Lia Strings.Byte Strings.String.
From stdpp Require Import base gmap strings list.
From S2P Require Import Prelude Bufio Wire Packets Tunnel.

Open Scope Z_scope.

Section tunnels.
Context `{GoRuntime} {Q : Type} `{Queue slice Q}.

(** ** State and operations *)

(** The fields [tunIdx] and [tunLive] of a [Connection]; the map is nil once the
    connection has dropped. It holds pointers, which the application keeps after
    an entry is gone: [tunnels] is the store, a tunnel's number its address.
    [tunWait] are the tunnels whose [initTunnel] is in its [select], [tunInit]
    the values handed to it over their [init] channels. *)
Record tuns := Tuns {
  tunIdx : Z;
  tunLive : option (gset Z);
  tunnels : gmap Z (Tunnel Q);
  tunWait : gset Z;
  tunInit : gmap Z bool
}.

(** The tunnel made by [newTunnel]. *)
Definition fresh_tunnel (id : Z) : Tunnel Q := mkTunnel id 0 None queue_New false 0 false false None.

Definition newTunnel : M tuns Z := λ s,
  match tunLive s with
  | None => (Err ErrClosed, s)
  | Some live =>
      let tunId := tunIdx s in
      (Ok tunId, Tuns (u64 (tunIdx s + 1)) (Some ({[tunId]} ∪ live))
        (<[tunId := fresh_tunnel tunId]> (tunnels s)) (tunWait s) (tunInit s))
  end.

(** The clean-up of [initTunnel] and [acceptTunnel]; deleting from a nil map does
    nothing. *)
Definition tun_remove (id : Z) : M tuns unit :=
  modify (λ s, Tuns (tunIdx s) ((λ live, live ∖ {[id]}) <$> tunLive s) (tunnels s) (tunWait s) (tunInit s)).

Definition is_live (id : Z) (s : tuns) : bool :=
  match tunLive s with Some live => bool_decide (id ∈ live) | None => false end.

(** Run an operation on the tunnel a pointer leads to. *)
Definition upd_tunnel {A} (id : Z) (m : M (Tunnel Q) A) : M tuns A := λ s,
  match tunnels s !! id with
  | Some t => let '(o, t') := m t in
      (o, Tuns (tunIdx s) (tunLive s) (<[id := t']> (tunnels s)) (tunWait s) (tunInit s))
  | None => (Panic "invalid memory address or nil pointer dereference", s)
  end.

(** The store with another tunnel at an address. *)
Definition put_tunnel (id : Z) (t : Tunnel Q) (s : tuns) : tuns :=
  Tuns (tunIdx s) (tunLive s) (<[id := t]> (tunnels s)) (tunWait s) (tunInit s).

(** [initTunnel] enters and leaves its [select]. *)
Definition tun_wait (id : Z) : M tuns unit :=
  modify (λ s, Tuns (tunIdx s) (tunLive s) (tunnels s) ({[id]} ∪ tunWait s) (tunInit s)).
Definition tun_unwait (id : Z) : M tuns unit :=
  modify (λ s, Tuns (tunIdx s) (tunLive s) (tunnels s) (tunWait s ∖ {[id]}) (tunInit s)).

(** [t.init <- init]. *)
Definition tun_sendInit (id : Z) (init : bool) : M tuns unit := λ s,
  if decide (id ∈ tunWait s)
  then (Ok tt, Tuns (tunIdx s) (tunLive s) (tunnels s) (tunWait s ∖ {[id]}) (<[id := init]> (tunInit s)))
  else (Block, s).

(** [handleTunnelResult] of events.go, with [handleInitResult]: a tunnel not in
    the table is a nil pointer, and handing the result over on the unbuffered
    channel blocks unless [initTunnel] is waiting for it. *)
Definition tun_handleResult (id chunkLimit : Z) : M tuns unit :=
  live ← gets (is_live id);
  if live : bool then
    init ← upd_tunnel id (handleInitResult chunkLimit);
    tun_sendInit id init
  else panic "invalid memory address or nil pointer dereference".

(** [handleTunnelAllowance]. *)
Definition tun_handleAllowance (id space : Z) : M tuns unit :=
  live ← gets (is_live id);
  if live : bool then upd_tunnel id (handleAllowance space) else mret tt.

(** [handleTunnelClose], under the lock. *)
Definition tun_handleTunnelClose (id : Z) (reason : gostring) : M tuns unit :=
  live ← gets (is_live id);
  if live : bool then upd_tunnel id (tun_handleClose reason);; tun_remove id else mret tt.

(** The loop of [handleClose] over the table. *)
Fixpoint close_each (ids : list Z) : M tuns unit :=
  match ids with
  | [] => mret tt
  | id :: ids => upd_tunnel id (tun_handleClose (str "connection dropped"));; close_each ids
  end.

(** [handleClose]: every live tunnel is closed, and the table is gone. *)
Definition tun_closeAll : M tuns unit :=
  live ← gets tunLive;
  close_each (elements (default ∅ live));;
  modify (λ s, Tuns (tunIdx s) None (tunnels s) (tunWait s) (tunInit s)).

(** ** Interleavings *)

(** The critical sections in any order. [given] are the tunnels [initTunnel] and
    [acceptTunnel] have returned; [pend] those still under construction, the only
    ones they remove. Uses of a tunnel by the application and by arriving packets
    leave its closure alone. A result that arrives can be looked up in one stretch
    and handed over in another. *)
Record tsys := TSys { ts_tuns : tuns; ts_pend : gset Z; ts_given : gset Z }.

Definition keeps_term {A} (m : M (Tunnel Q) A) : Prop := forall t, t_term (snd (m t)) = t_term t.

Inductive tun_step : tsys -> tsys -> Prop :=
| ts_new s s' id p g : tunIdx s + 1 < 2 ^ 64 -> newTunnel s = (Ok id, s') -> tun_step (TSys s p g) (TSys s' ({[id]} ∪ p) g)
| ts_give s id p g : id ∈ p -> tun_step (TSys s p g) (TSys s (p ∖ {[id]}) ({[id]} ∪ g))
| ts_abandon s s' id p g o : id ∈ p -> tun_remove id s = (o, s') ->
    tun_step (TSys s p g) (TSys s' (p ∖ {[id]}) g)
| ts_use A (m : M (Tunnel Q) A) s s' id p g o : keeps_term m -> upd_tunnel id m s = (o, s') ->
    tun_step (TSys s p g) (TSys s' p g)
| ts_result s s' id limit p g o : tun_handleResult id limit s = (o, s') ->
    tun_step (TSys s p g) (TSys s' p g)
| ts_handover s s' id init p g o : tun_sendInit id init s = (o, s') -> tun_step (TSys s p g) (TSys s' p g)
| ts_allow s s' id space p g o : tun_handleAllowance id space s = (o, s') ->
    tun_step (TSys s p g) (TSys s' p g)
| ts_wait s s' id p g o : tun_wait id s = (o, s') -> tun_step (TSys s p g) (TSys s' p g)
| ts_unwait s s' id p g o : tun_unwait id s = (o, s') -> tun_step (TSys s p g) (TSys s' p g)
| ts_close s s' id reason p g o : tun_handleTunnelClose id reason s = (o, s') ->
    tun_step (TSys s p g) (TSys s' p g)
| ts_drop s s' p g o : tun_closeAll s = (o, s') -> tun_step (TSys s p g) (TSys s' p g).

Definition tuns_init : tuns := Tuns 0 (Some ∅) ∅ ∅ ∅.

(** Every live tunnel exists and is open; every tunnel given out is live or
    closed; numbers are below the next one. Fewer than 2^64 tunnels are made in all. *)
Record tuns_ok (s : tsys) : Prop := {
  tk_live : forall id, is_live id (ts_tuns s) = true ->
    exists t, tunnels (ts_tuns s) !! id = Some t /\ t_term t = false;
  tk_given : forall id, id ∈ ts_given s -> is_live id (ts_tuns s) = true \/
    exists t, tunnels (ts_tuns s) !! id = Some t /\ t_term t = true;
  tk_pend : forall id, id ∈ ts_pend s -> is_live id (ts_tuns s) = true \/
    exists t, tunnels (ts_tuns s) !! id = Some t /\ t_term t = true;
  tk_disj : forall id, id ∈ ts_pend s -> id ∉ ts_given s;
  tk_idx : forall id, is_Some (tunnels (ts_tuns s) !! id) -> 0 <= id < tunIdx (ts_tuns s);
  tk_idx0 : 0 <= tunIdx (ts_tuns s)
}.

(** *** Preservation *)

Lemma upd_tunnel_eq {A} id (m : M (Tunnel Q) A) s t : tunnels s !! id = Some t ->
  upd_tunnel id m s = (fst (m t), Tuns (tunIdx s) (tunLive s) (<[id := snd (m t)]> (tunnels s))
    (tunWait s) (tunInit s)).
Proof. unfold upd_tunnel. intros ->. by destruct (m t). Qed.

(** A change of the store that keeps what is open open and what is closed closed. *)
Lemma tuns_ok_store s s' p g : tuns_ok (TSys s p g) -> tunIdx s' = tunIdx s -> tunLive s' = tunLive s ->
  (forall id, t_term <$> tunnels s' !! id = t_term <$> tunnels s !! id) -> tuns_ok (TSys s' p g).
Proof.
  intros [Hl Hg Hp Hd Hi H0'] Hidx Hlive Hst. simpl in *.
  assert (forall id, is_live id s' = is_live id s) as Hil by (intros id; unfold is_live; by rewrite Hlive).
  assert (forall id b, (exists t, tunnels s !! id = Some t /\ t_term t = b) ->
    exists t, tunnels s' !! id = Some t /\ t_term t = b) as Hex.
  { intros id b (t & Ht & Hb). specialize (Hst id). rewrite Ht in Hst.
    destruct (tunnels s' !! id) as [t'|]; simplify_eq/=. eauto. }
  split; simpl; try done.
  - intros id. rewrite Hil. auto.
  - intros id Hid. rewrite Hil. destruct (Hg id Hid); auto.
  - intros id Hid. rewrite Hil. destruct (Hp id Hid); auto.
  - intros id [t Ht]. rewrite Hidx. apply Hi. specialize (Hst id). rewrite Ht in Hst.
    destruct (tunnels s !! id); [eauto|done].
  - by rewrite Hidx.
Qed.

Lemma tuns_ok_upd {A} id (m : M (Tunnel Q) A) s s' o p g : keeps_term m ->
  upd_tunnel id m s = (o, s') -> tuns_ok (TSys s p g) -> tuns_ok (TSys s' p g).
Proof.
  intros Hk Hu Hok. destruct (tunnels s !! id) as [t|] eqn:E.
  - rewrite (upd_tunnel_eq _ _ _ _ E) in Hu. simplify_eq. eapply tuns_ok_store; [exact Hok|done|done|].
    intros id'. simpl. destruct (decide (id = id')) as [<-|Hn].
    + rewrite lookup_insert_eq, E. simpl. by rewrite Hk.
    + by rewrite lookup_insert_ne.
  - unfold upd_tunnel in Hu. rewrite E in Hu. by simplify_eq.
Qed.

Lemma keeps_allowance n : keeps_term (handleAllowance (Q := Q) n).
Proof. done. Qed.

Lemma keeps_initResult n : keeps_term (handleInitResult (Q := Q) n).
Proof. intros t. unfold handleInitResult. simpl. by destruct (0 <? n). Qed.

Lemma is_live_remove id id' s : is_live id' (snd (tun_remove id s)) =
  is_live id' s && negb (bool_decide (id' = id)).
Proof.
  unfold is_live, tun_remove. simpl. destruct (tunLive s) as [live|]; simpl; [|done].
  repeat case_bool_decide; simpl; try done; set_solver.
Qed.

(** Closing a live tunnel succeeds, and leaves it closed. *)
Lemma close_live id reason s t : tunnels s !! id = Some t -> t_term t = false ->
  exists t', upd_tunnel id (tun_handleClose reason) s =
    (Ok tt, Tuns (tunIdx s) (tunLive s) (<[id := t']> (tunnels s)) (tunWait s) (tunInit s)) /\
    t_term t' = true.
Proof.
  intros Ht Hc. rewrite (upd_tunnel_eq _ _ _ _ Ht). unfold tun_handleClose. rewrite Hc. by eexists.
Qed.

(** A tunnel under the same number with the same limit. *)
Definition alike (t t' : Tunnel Q) : Prop := t_id t' = t_id t /\ t_chunkLimit t' = t_chunkLimit t.

Lemma close_each_spec ids s : NoDup ids ->
  (forall id, id ∈ ids -> exists t, tunnels s !! id = Some t /\ t_term t = false) ->
  exists ts, close_each ids s = (Ok tt, Tuns (tunIdx s) (tunLive s) ts (tunWait s) (tunInit s)) /\
    (forall id, id ∈ ids -> exists t, ts !! id = Some t /\ t_term t = true) /\
    (forall id, id ∉ ids -> ts !! id = tunnels s !! id) /\
    (forall id t', ts !! id = Some t' -> exists t, tunnels s !! id = Some t /\ alike t t').
Proof.
  revert s. induction ids as [|id ids IH]; intros s Hnd Hop.
  - exists (tunnels s). destruct s. splits; try done; [|intros id t' Ht'; by exists t']. intros id Hid. by apply elem_of_nil in Hid.
  - apply NoDup_cons in Hnd as [Hni Hnd]. destruct (Hop id) as (t & Ht & Hc); [by left|].
    simpl. rewrite bind_eq, (upd_tunnel_eq _ _ _ _ Ht). unfold tun_handleClose. rewrite Hc.
    set (t' := set_closed _ t).
    destruct (IH (put_tunnel id t' s) Hnd) as (ts & E2 & Hin & Hout & Hal).
    { intros i Hi. simpl. rewrite lookup_insert_ne by (by intros ->). apply Hop. by right. }
    exists ts. splits; [exact E2| | |].
    + intros i [->|Hi]%elem_of_cons; [|by apply Hin]. exists t'. rewrite Hout by done. simpl.
      by rewrite lookup_insert_eq.
    + intros i Hi. apply not_elem_of_cons in Hi as [Hn Hi]. rewrite Hout by done. simpl.
      by rewrite lookup_insert_ne.
    + intros i v Hv. destruct (Hal i v Hv) as (v0 & Hv0 & Ha). simpl in Hv0.
      apply lookup_insert_Some in Hv0 as [[<- <-]|[_ Hv0]]; [by exists t|by exists v0].
Qed.

(** Dropping the table, when the live tunnels are open. *)
Lemma closeAll_spec s :
  (forall id, is_live id s = true -> exists t, tunnels s !! id = Some t /\ t_term t = false) ->
  exists ts, tun_closeAll s = (Ok tt, Tuns (tunIdx s) None ts (tunWait s) (tunInit s)) /\
    (forall id, is_live id s = true -> exists t, ts !! id = Some t /\ t_term t = true) /\
    (forall id, is_live id s = false -> ts !! id = tunnels s !! id) /\
    (forall id t', ts !! id = Some t' -> exists t, tunnels s !! id = Some t /\ alike t t').
Proof.
  intros Hl.
  assert (forall id, id ∈ elements (default ∅ (tunLive s)) <-> is_live id s = true) as Hel.
  { intros id. rewrite elem_of_elements. unfold is_live. destruct (tunLive s); simpl; [|set_solver].
    by rewrite bool_decide_eq_true. }
  destruct (close_each_spec (elements (default ∅ (tunLive s))) s) as (ts & E & Hin & Hout & Hal).
  - apply NoDup_elements.
  - intros id Hid. by apply Hl, Hel.
  - exists ts. splits; [|intros id Hid; by apply Hin, Hel|intros id Hid; apply Hout; rewrite Hel; congruence|done].
    unfold tun_closeAll. run. by rewrite E.
Qed.

Lemma tunnelClose_spec s p g id reason : tuns_ok (TSys s p g) ->
  (is_live id s = false /\ tun_handleTunnelClose id reason s = (Ok tt, s)) \/
  exists t', t_term t' = true /\ is_live id s = true /\
    tun_handleTunnelClose id reason s =
    (Ok tt, snd (tun_remove id (Tuns (tunIdx s) (tunLive s) (<[id := t']> (tunnels s))
       (tunWait s) (tunInit s)))).
Proof.
  intros Hok. unfold tun_handleTunnelClose. run. destruct (is_live id s) eqn:Hl; [|by left].
  destruct (tk_live _ Hok id Hl) as (t & Ht & Hc). right.
  destruct (close_live id reason s t Ht Hc) as (t' & E & Hc'). exists t'. splits; [done..|].
  run. by rewrite E.
Qed.

Lemma tuns_ok_new s s' id p g : tunIdx s + 1 < 2 ^ 64 -> newTunnel s = (Ok id, s') ->
  tuns_ok (TSys s p g) -> tuns_ok (TSys s' ({[id]} ∪ p) g).
Proof.
  intros Hb Hn [Hl Hg Hp Hd Hi H0']. simpl in *. unfold newTunnel in Hn.
  destruct (tunLive s) as [live|] eqn:E; simplify_eq.
  set (s' := Tuns _ _ _ _ _). set (id := tunIdx s) in *.
  assert (tunnels s !! id = None) as Hnone.
  { destruct (tunnels s !! id) eqn:Ht; [|done]. assert (0 <= id < id) by (apply Hi; eauto). lia. }
  assert (forall i, is_live i s' = bool_decide (i = id) || is_live i s) as Hil.
  { intros i. unfold is_live. rewrite E. simpl. repeat case_bool_decide; simpl; try done; set_solver. }
  assert (forall i, i <> id -> tunnels s' !! i = tunnels s !! i) as Hother.
  { intros i Hni. simpl. by rewrite lookup_insert_ne. }
  assert (tunnels s' !! id = Some (fresh_tunnel id)) as Hself by (simpl; by rewrite lookup_insert_eq).
  assert (forall i, (is_live i s = true \/ exists t, tunnels s !! i = Some t /\ t_term t = true) ->
    is_live i s' = true \/ exists t, tunnels s' !! i = Some t /\ t_term t = true) as Hkeep.
  { intros i [Hli|(t & Ht & Hc)]; [left; by rewrite Hil, Hli, orb_true_r|].
    right. exists t. rewrite Hother; [done|]. intros ->. congruence. }
  split; cbn [ts_tuns ts_given ts_pend].
  - intros i. rewrite Hil. intros [Hii|Hli]%orb_true_iff.
    + apply bool_decide_eq_true in Hii as ->. eauto.
    + destruct (Hl i Hli) as (t & Ht & Hc). exists t. rewrite Hother; [done|]. intros ->. congruence.
  - auto.
  - intros i [Hii|Hip]%elem_of_union; [|auto]. apply elem_of_singleton in Hii as ->.
    left. by rewrite Hil, bool_decide_eq_true_2.
  - intros i [Hii|Hip]%elem_of_union; [|auto]. apply elem_of_singleton in Hii as ->. intros Hgi.
    destruct (Hg _ Hgi) as [Hli|(t & Ht & _)]; [|congruence].
    destruct (Hl _ Hli) as (t & Ht & _). congruence.
  - intros i [t Ht]. simpl tunIdx. rewrite u64_id by lia. destruct (decide (i = id)) as [->|Hni]; [lia|].
    rewrite Hother in Ht by done. assert (0 <= i < id) by (apply Hi; eauto). lia.
  - simpl. rewrite u64_id by lia. lia.
Qed.

Lemma tuns_ok_remove s id p g : (id ∈ p \/ exists t, tunnels s !! id = Some t /\ t_term t = true) ->
  (forall t, id ∈ g -> tunnels s !! id = Some t -> t_term t = true) ->
  tuns_ok (TSys s p g) -> tuns_ok (TSys (snd (tun_remove id s)) (p ∖ {[id]}) g).
Proof.
  intros Hid Hgt [Hl Hg Hp Hd Hi H0']. simpl in Hl, Hg, Hp, Hd, Hi, H0'.
  assert (forall i, i <> id -> (is_live i s = true \/ exists t, tunnels s !! i = Some t /\ t_term t = true) ->
    is_live i (snd (tun_remove id s)) = true \/ exists t, tunnels s !! i = Some t /\ t_term t = true) as Hk.
  { intros i Hn [Hli|Ht]; [left|by right]. by rewrite is_live_remove, Hli, bool_decide_eq_false_2. }
  split; cbn [ts_tuns ts_given ts_pend]; auto.
  - intros i. rewrite is_live_remove. intros [Hli _]%andb_true_iff. auto.
  - intros i Hgi. destruct (decide (i = id)) as [->|Hn]; [|auto]. right.
    destruct Hid as [Hip|(t & Ht & Hc)]; [by destruct (Hd _ Hip)|eauto].
  - intros i [Hip Hn]%elem_of_difference. apply Hk; [set_solver|auto].
  - intros i [Hip Hn]%elem_of_difference. auto.
Qed.

Lemma tuns_ok_step s s' : tuns_ok s -> tun_step s s' -> tuns_ok s'.
Proof.
  intros Hok Hst. destruct Hst as
    [s s' id p g Hb Hn|s id p g Hid|s s' id p g o Hid Hr|A m s s' id p g o Hk Hu|s s' id lim p g o Hr|s s' id b p g o Hr
    |s s' id sp p g o Hr|s s' id p g o Hr|s s' id p g o Hr|s s' id reason p g o Hr|s s' p g o Hr].
  - by eapply tuns_ok_new.
  - destruct Hok as [Hl Hg Hp Hd Hi H0']. split; simpl in *; auto.
    + intros i [->%elem_of_singleton|Hgi]%elem_of_union; auto.
    + intros i [Hip Hn]%elem_of_difference. auto.
    + intros i [Hip Hn]%elem_of_difference [?|Hgi]%elem_of_union; [done|]. by apply (Hd i).
  - injection Hr as <- <-. apply (tuns_ok_remove s id p g); [by left| |done].
    intros t Hg. by destruct (tk_disj _ Hok id Hid).
  - by eapply tuns_ok_upd.
  - unfold tun_handleResult in Hr. rewrite bind_eq in Hr. cbn [gets] in Hr.
    destruct (is_live id s); [|by simplify_eq/=]. rewrite bind_eq in Hr.
    destruct (upd_tunnel id (handleInitResult lim) s) as [o1 s1] eqn:Hu.
    pose proof (tuns_ok_upd id (handleInitResult lim) s s1 _ p g (keeps_initResult lim) Hu Hok) as Hok1.
    destruct o1; simplify_eq; try done. unfold tun_sendInit in Hr.
    destruct (decide (id ∈ tunWait s1)); simplify_eq; [|done]. by eapply tuns_ok_store.
  - unfold tun_sendInit in Hr. destruct (decide (id ∈ tunWait s)); simplify_eq; [|done]. by eapply tuns_ok_store.
  - unfold tun_handleAllowance in Hr. rewrite bind_eq in Hr. cbn [gets] in Hr.
    destruct (is_live id s); [|by injection Hr as <- <-].
    eapply (tuns_ok_upd id (handleAllowance sp)); [apply keeps_allowance|exact Hr|done].
  - injection Hr as <- <-. by eapply tuns_ok_store.
  - injection Hr as <- <-. by eapply tuns_ok_store.
  - destruct (tunnelClose_spec s p g id reason Hok) as [[_ E]|(t' & Hc & Hlv & E)]; rewrite E in Hr;
      simplify_eq; [done|].
    destruct (tk_live _ Hok id Hlv) as (t & Ht & _). simpl in Ht.
    destruct Hok as [Hl Hg Hp Hd Hi H0']. simpl in *.
    assert (forall i, is_live i (Tuns (tunIdx s) ((λ live, live ∖ {[id]}) <$> tunLive s)
      (<[id:=t']> (tunnels s)) (tunWait s) (tunInit s)) = is_live i s && negb (bool_decide (i = id))) as Hil.
    { intros i. rewrite <- (is_live_remove id i s). done. }
    assert (forall i, (is_live i s = true \/ exists t, tunnels s !! i = Some t /\ t_term t = true) ->
      is_live i s && negb (bool_decide (i = id)) = true \/
      exists t, <[id:=t']> (tunnels s) !! i = Some t /\ t_term t = true) as Hk.
    { intros i Hi'. destruct (decide (i = id)) as [->|Hn].
      - right. exists t'. by rewrite lookup_insert_eq.
      - rewrite bool_decide_eq_false_2, andb_true_r by done. by rewrite lookup_insert_ne. }
    split; simpl; auto.
    + intros i. rewrite Hil. intros [Hli Hne]%andb_true_iff. destruct (Hl i Hli) as (u & Hu & ?).
      exists u. rewrite lookup_insert_ne; [done|]. intros ->. by rewrite bool_decide_eq_true_2 in Hne.
    + intros i Hgi. rewrite Hil. auto.
    + intros i Hpi. rewrite Hil. auto.
    + intros i [u Hu]. apply Hi. destruct (decide (i = id)) as [->|Hn]; [eauto|].
      rewrite lookup_insert_ne in Hu by done. eauto.
  - destruct (closeAll_spec s (tk_live _ Hok)) as (ts & E & Hin & Hout & _). rewrite E in Hr. simplify_eq.
    destruct Hok as [Hl Hg Hp Hd Hi H0']. simpl in *.
    assert (forall i, (is_live i s = true \/ exists t, tunnels s !! i = Some t /\ t_term t = true) ->
      exists t, ts !! i = Some t /\ t_term t = true) as Hk.
    { intros i [Hli|Hti]; [auto|]. destruct (is_live i s) eqn:Hli; [auto|]. by rewrite Hout. }
    split; simpl; auto.
    + by intros i Hli.
    + intros i [u Hu]. apply Hi. destruct (is_live i s) eqn:Hli.
      * destruct (Hl i Hli) as (v & Hv & _). eauto.
      * rewrite Hout in Hu by done. eauto.
Qed.

Lemma tuns_ok_init : tuns_ok (TSys tuns_init ∅ ∅).
Proof. split; simpl; try set_solver. intros id [? Hid]. done. Qed.

(** ** Properties *)

(** Closure of tunnels, however construction, use, results, remote closures
    and the loss of the connection interleave. A tunnel is closed at most once,
    so the channel is never closed twice; and no tunnel the application was given
    is forgotten: it is in the table or closed, and when the connection goes down
    every one of them is closed and no new one can be made. *)
Theorem tunnels_closed_once pend given s : reach tun_step (TSys tuns_init ∅ ∅) (TSys s pend given) ->
  (forall id reason, fst (tun_handleTunnelClose id reason s) = Ok tt) /\
  (forall id, id ∈ given -> is_live id s = true \/ exists t, tunnels s !! id = Some t /\ t_term t = true) /\
  exists s', tun_closeAll s = (Ok tt, s') /\ newTunnel s' = (Err ErrClosed, s') /\
    forall id, id ∈ given -> exists t, tunnels s' !! id = Some t /\ t_term t = true.
Proof.
  intros Hr. pose proof (reach_invariant _ tuns_ok _ _ tuns_ok_init tuns_ok_step Hr) as Hok.
  splits.
  - intros id reason. destruct (tunnelClose_spec s pend given id reason Hok) as [[_ ->]|(t' & _ & _ & ->)]; done.
  - exact (tk_given _ Hok).
  - destruct (closeAll_spec s (tk_live _ Hok)) as (ts & E & Hin & Hout & _). eexists. splits; [exact E|done|].
    intros id Hid. simpl. destruct (is_live id s) eqn:Hl; [auto|]. rewrite Hout by done.
    by destruct (tk_given _ Hok id Hid) as [Hl'|]; [simpl in Hl'; congruence|].
Qed.
End tunnels.

(** A tunnel made, given to the application and closed by the relay. *)
Lemma tunnels_closed_once_witness : exists (s : tuns (Q := list slice)) (pend given : gset Z), 0 ∈ given /\
  (forall id reason, fst (tun_handleTunnelClose id reason s) = Ok tt) /\
  (forall id, id ∈ given -> is_live id s = true \/ exists t, tunnels s !! id = Some t /\ t_term t = true) /\
  exists s', tun_closeAll s = (Ok tt, s') /\ newTunnel s' = (Err ErrClosed, s') /\
    forall id, id ∈ given -> exists t, tunnels s' !! id = Some t /\ t_term t = true.
Proof.
  assert (exists (s : tuns (Q := list slice)) (pend given : gset Z), 0 ∈ given /\
    reach (@tun_step (list slice) _) (TSys tuns_init ∅ ∅) (TSys s pend given)) as (s & pend & given & Hg & Hr).
  { do 3 eexists. split; cycle 1.
    - eapply reach_trans; [eapply reach_one, (ts_new _ _ 0); reflexivity|].
      eapply reach_trans; [eapply reach_one, (ts_give _ 0); set_solver|].
      eapply reach_one, (ts_close _ _ 0 []). reflexivity.
    - set_solver. }
  exists s, pend, given. split; [exact Hg|]. apply (tunnels_closed_once pend given s). exact Hr.
Defined.
