(* ===== verification/Connection.v ===== *)
(** * The connection (connection.go, and the tunnel construction of tunnel.go)

    The state of a [Connection], assembled from its components, and the calls of
    the API, each a program of Threads.v. Wherever a call lets go of the connection,
    between two critical sections or in a [select], the next entry of a script says
    what the other goroutines do to it meanwhile. *)

From Stdlib Require Import ZArith Lia Strings.Byte Strings.String.
From stdpp Require Import base gmap strings list.
From S2P Require Import Prelude Threads Bufio Wire Packets Tunnel Limits Quota Topic Requests Tunnels.

Open Scope Z_scope.

(** ** State *)

(** The user's [ServiceHandler], as far as its results matter: the error of [Init]
    and what [HandleRequest] returns, its error by its message. What it is called
    with is logged. *)
Record ServiceHandler := mkServiceHandler {
  sh_Init : option error;
  sh_HandleRequest : list byte -> slice * option gostring
}.

Inductive call (TH : Type) :=
| CallInit
| CallBroadcast (message : list byte)
| CallRequest (request : list byte)
| CallTunnel (id : Z)
| CallDrop (reason : error)
| CallEvent (handler : TH) (event : list byte).
Arguments CallInit {TH}.
Arguments CallBroadcast {TH} message.
Arguments CallRequest {TH} request.
Arguments CallTunnel {TH} id.
Arguments CallDrop {TH} reason.
Arguments CallEvent {TH} handler event.

(** The goroutines the receiver starts: [go c.handlePublish], [go
    c.handleTunnelClose], the body of [handleTunnelInit], and the allowances of
    Tunnel.v. *)
Inductive goroutine :=
| GoPublish (topic : gostring) (event : list byte)
| GoTunnelClose (id : Z) (reason : gostring)
| GoTunnelInit (id chunkLimit : Z)
| GoAllowance (id space : Z).

(** A queued broadcast: its number and message. A queued request: its number, data
    and timeout. *)
Definition bcast_job : Type := Z * list byte.
Definition req_job : Type := Z * list byte * Z.

(** The quality of service fields; the limits and pools are nil for a client. *)
Record qos (P : Type -> Type) := Qos {
  limits : option ServiceLimits;
  bcastIdx : Z;
  bcastPool : option (P bcast_job);
  bcastUsed : Z;
  reqPool : option (P req_job);
  reqUsed : Z
}.
Arguments Qos {P}.
Arguments limits {P}. Arguments bcastIdx {P}. Arguments bcastPool {P}. Arguments bcastUsed {P}.
Arguments reqPool {P}. Arguments reqUsed {P}.

(** The [quit] channel: nobody there, [Close] waiting to hand over its error
    channel, the error channel handed over and filled by [process], or emptied by
    [Close]. With several calls of [Close] waiting, which of them is served is left
    open; the others wait for good. *)
Inductive quit := QuitIdle | QuitWaiting | QuitDone (err : option error) | QuitTaken.

Record Connection (Q : Type) (P : Type -> Type) (TH : Type) := Conn {
  c_handler : option ServiceHandler;
  c_reqs : reqs;
  c_subs : subs (P := P) (TopicHandler := TH);
  c_tuns : tuns (Q := Q);
  c_qos : qos P;
  c_link : link;
  c_quit : quit;
  c_term : bool;
  c_go : list goroutine;
  c_calls : list (call TH)
}.
Arguments Conn {Q P TH}.
Arguments c_handler {Q P TH}. Arguments c_reqs {Q P TH}. Arguments c_subs {Q P TH}.
Arguments c_tuns {Q P TH}. Arguments c_qos {Q P TH}. Arguments c_link {Q P TH}.
Arguments c_quit {Q P TH}. Arguments c_term {Q P TH}. Arguments c_go {Q P TH}.
Arguments c_calls {Q P TH}.

(** What can wake a call in a [select]. *)
Inductive cwake := WakeTerm | WakeReply | WakeErr | WakeInit | WakeQuit | WakeTunnel (w : wake).

Section connection.
Context `{GoRuntime} {Q : Type} `{Queue slice Q} {P : Type -> Type} `{ThreadPool P} {TH : Type}.
Local Abbreviation Connection := (Connection Q P TH).
Local Abbreviation code := (prog Connection cwake).

Definition set_reqs v (c : Connection) : Connection := Conn (c_handler c) v (c_subs c) (c_tuns c)
  (c_qos c) (c_link c) (c_quit c) (c_term c) (c_go c) (c_calls c).
Definition set_subs v (c : Connection) : Connection := Conn (c_handler c) (c_reqs c) v (c_tuns c)
  (c_qos c) (c_link c) (c_quit c) (c_term c) (c_go c) (c_calls c).
Definition set_tuns v (c : Connection) : Connection := Conn (c_handler c) (c_reqs c) (c_subs c) v
  (c_qos c) (c_link c) (c_quit c) (c_term c) (c_go c) (c_calls c).
Definition set_qos v (c : Connection) : Connection := Conn (c_handler c) (c_reqs c) (c_subs c) (c_tuns c)
  v (c_link c) (c_quit c) (c_term c) (c_go c) (c_calls c).
Definition set_link v (c : Connection) : Connection := Conn (c_handler c) (c_reqs c) (c_subs c) (c_tuns c)
  (c_qos c) v (c_quit c) (c_term c) (c_go c) (c_calls c).
Definition set_quit v (c : Connection) : Connection := Conn (c_handler c) (c_reqs c) (c_subs c) (c_tuns c)
  (c_qos c) (c_link c) v (c_term c) (c_go c) (c_calls c).
Definition set_term v (c : Connection) : Connection := Conn (c_handler c) (c_reqs c) (c_subs c) (c_tuns c)
  (c_qos c) (c_link c) (c_quit c) v (c_go c) (c_calls c).
Definition add_go g (c : Connection) : Connection := Conn (c_handler c) (c_reqs c) (c_subs c) (c_tuns c)
  (c_qos c) (c_link c) (c_quit c) (c_term c) (c_go c ++ g) (c_calls c).
Definition add_call x (c : Connection) : Connection := Conn (c_handler c) (c_reqs c) (c_subs c) (c_tuns c)
  (c_qos c) (c_link c) (c_quit c) (c_term c) (c_go c) (c_calls c ++ [x]).

(** Run code of a component. *)
Definition lift {S A} (get : Connection -> S) (set : S -> Connection -> Connection) (m : M S A)
  : M Connection A := λ c, let '(o, s) := m (get c) in (o, set s c).
Definition on_reqs {A} (m : M reqs A) : M Connection A := lift c_reqs set_reqs m.
Definition on_subs {A} (m : M subs A) : M Connection A := lift c_subs set_subs m.
Definition on_tuns {A} (m : M tuns A) : M Connection A := lift c_tuns set_tuns m.
Definition on_sock {A} (m : M link A) : M Connection A := lift c_link set_link m.

(** ** Messages *)

Definition Broadcast (cluster : gostring) (message : slice) : code unit :=
  if decide (cluster = []) then raise (ErrorsNew "empty cluster identifier")
  else if decide (sbytes message = []) then raise (ErrorsNew "nil or empty message")
  else atomic (on_sock (sendBroadcast cluster message)).

Definition Publish (topic : gostring) (event : slice) : code unit :=
  if decide (topic = []) then raise (ErrorsNew "empty topic identifier")
  else if decide (sbytes event = []) then raise (ErrorsNew "nil or empty event")
  else atomic (on_sock (sendPublish topic event)).

(** ** Requests *)

(** [int(timeout.Nanoseconds() / 1000000)]. *)
Definition timeout_ms (timeout : Z) : Z := Z.quot timeout 1000000.

(** [<-c.term]. *)
Definition recv_term : M Connection unit := λ c, (if c_term c then Ok tt else Block, c).

(** The [select] of [Request]; both result channels were empty when it registered. *)
Definition Request_select (reqId : Z) : code slice :=
  select (λ w,
    match w with
    | WakeTerm => recv_term;; fail ErrClosed
    | WakeReply =>
        r ← gets (λ c, req_take_reply reqId (c_reqs c));
        match r with
        | Some (reply, reqs) => modify (set_reqs reqs);; mret (Some reply)
        | None => block
        end
    | WakeErr =>
        r ← gets (λ c, req_take_err reqId (c_reqs c));
        match r with
        | Some (err, reqs) => modify (set_reqs reqs);; fail err
        | None => block
        end
    | _ => block
    end).

Definition Request (cluster : gostring) (request : slice) (timeout : Z) : code slice :=
  if decide (cluster = []) then raise (ErrorsNew "empty cluster identifier")
  else if decide (sbytes request = []) then raise (ErrorsNew "nil or empty request")
  else if timeout_ms timeout <? 1 then raise (Errorf "invalid timeout %v < 1ms" (FNum timeout))
  else
    reqId ← atomic (on_reqs req_register);
    yield;;
    res ← catch (atomic (on_sock (sendRequest reqId cluster request (timeout_ms timeout)));;
                 Request_select reqId);
    yield;;
    atomic (on_reqs (req_cleanup reqId));;
    match res with inl err => raise err | inr reply => mret reply end.

(** ** Subscriptions *)

Definition Subscribe (topic : gostring) (handler : option TH) (limits : option TopicLimits) : code unit :=
  if decide (topic = []) then raise (ErrorsNew "empty topic identifier")
  else match handler with
  | None => raise (ErrorsNew "nil subscription handler")
  | Some handler =>
      atomic (on_subs (sub_insert topic handler (finalizeTopicLimits limits)));;
      yield;;
      r ← catch (atomic (on_sock (sendSubscribe topic)));
      match r with
      | inl err => yield;; atomic (on_subs (sub_undo topic));; raise err
      | inr _ => mret tt
      end
  end.

Definition Unsubscribe (topic : gostring) : code unit :=
  if decide (topic = []) then raise (ErrorsNew "empty topic identifier")
  else
    atomic (on_sock (sendUnsubscribe topic));;
    yield;;
    atomic (on_subs (sub_remove topic)).

(** ** Tunnels *)

(** The cases of the [select] of [initTunnel]. A result that has been handed over is
    taken: the handing over is the taking. *)
Definition initTunnel_ready (id : Z) (w : cwake) : M Connection bool :=
  match w with
  | WakeInit =>
      init ← gets (λ c, tunInit (c_tuns c) !! id);
      match init with Some init => mret init | None => block end
  | WakeTerm =>
      init ← gets (λ c, tunInit (c_tuns c) !! id);
      match init with
      | Some _ => block
      | None => recv_term;; on_tuns (tun_unwait id);; fail ErrClosed
      end
  | _ => block
  end.

(** The [select] and what follows it. *)
Definition initTunnel_wait (id : Z) : code unit :=
  init ← select (initTunnel_ready id);
  if init : bool then yield;; atomic (on_sock (sendTunnelAllowance id defaultTunnelBuffer))
  else raise ErrTimeout.

Definition initTunnel_select (id : Z) : code unit :=
  atomic (on_tuns (tun_wait id));; initTunnel_wait id.

(** [initTunnel]: the result stands for the pointer to the tunnel. *)
Definition initTunnel (cluster : gostring) (timeout : Z) : code Z :=
  if decide (cluster = []) then raise (ErrorsNew "empty cluster identifier")
  else if timeout_ms timeout <? 1 then raise (Errorf "invalid timeout %v < 1ms" (FNum timeout))
  else
    id ← atomic (on_tuns newTunnel);
    yield;;
    r ← catch (atomic (on_sock (sendTunnelInit id cluster (timeout_ms timeout)));;
               yield;;
               initTunnel_select id);
    match r with
    | inr _ => mret id
    | inl err => yield;; atomic (on_tuns (tun_remove id));; raise err
    end.

Definition conn_Tunnel (cluster : gostring) (timeout : Z) : code Z := initTunnel cluster timeout.

Definition acceptTunnel (initId chunkLimit : Z) : code Z :=
  id ← atomic (on_tuns newTunnel);
  yield;;
  atomic (on_tuns (upd_tunnel id (modify (set_chunkLimit chunkLimit))));;
  yield;;
  r ← catch (atomic (on_sock (sendTunnelConfirm initId id));;
             yield;;
             atomic (on_sock (sendTunnelAllowance id defaultTunnelBuffer)));
  match r with
  | inr _ => mret id
  | inl err => yield;; atomic (on_tuns (tun_remove id));; raise err
  end.

(** ** Tear-down *)

(** [c.quit <- errc]: the call is ready to hand over its error channel, ... *)
Definition quit_offer : M Connection unit :=
  modify (λ c, match c_quit c with QuitIdle => set_quit QuitWaiting c | _ => c end).

(** ... and the error [process] put there. *)
Definition quit_take : M Connection (option error) := λ c,
  match c_quit c with QuitDone err => (Ok err, set_quit QuitTaken c) | _ => (Block, c) end.

(** [Close]: handing over the error channel blocks until [process] takes it. *)
Definition conn_Close : code unit :=
  atomic (on_sock sendClose);;
  yield;;
  atomic quit_offer;;
  err ← select (λ w, match w with WakeQuit => quit_take | _ => block end);
  yield;;
  atomic (on_subs sub_close);;
  match err with Some err => raise err | None => mret tt end.
End connection.

#[global] Arguments lift : simpl never.

(** ** Running the calls *)

Section running.
Context {Q : Type} {P : Type -> Type} `{ThreadPool P} {TH : Type}.
Local Abbreviation Connection := (Connection Q P TH).

Lemma lift_eq {S A} (get : Connection -> S) set (m : M S A) c :
  lift get set m c = (fst (m (get c)), set (snd (m (get c))) c).
Proof. unfold lift. by destruct (m (get c)). Qed.

End running.

(** Run the head of a call, which is connection code. *)
Ltac conn_run :=
  unfold on_reqs, on_subs, on_tuns; cbn;
  repeat ((rewrite play_bind || rewrite play_catch || rewrite play_ret || rewrite play_raise ||
           rewrite play_atomic || rewrite play_yield || rewrite play_yield_nil || rewrite play_select ||
           rewrite bind_eq || rewrite ret_eq || rewrite lift_eq); cbn).

(** ** Sending on a connection *)

(** A link in use: unlocked, and without a pending error. It may fail any time. *)
Record usable (l : link) : Prop := {
  us_ok : writer_ok (l_wr l);
  us_free : sockLocked l = false;
  us_wait : 0 <= sockWait l < 2 ^ 31 - 1
}.

Section properties.
Context `{GoRuntime} {Q : Type} `{Queue slice Q} {P : Type -> Type} `{ThreadPool P} {TH : Type}.
Local Abbreviation Connection := (Connection Q P TH).
Implicit Types c : Connection.

Definition sent c : list byte := stream (l_wr (c_link c)).

(** A send either puts its bytes on the stream or fails. *)
Lemma send_cases m bs c env : sends m bs -> usable (c_link c) ->
  (exists l', play (atomic (on_sock m)) (CS c env) = (Ok tt, CS (set_link l' c) (env : list ((_ -> _) * cwake))) /\
     m (c_link c) = (Ok tt, l') /\ stream (l_wr l') = sent c ++ bs) \/
  (exists e l', play (atomic (on_sock m)) (CS c env) = (Err e, CS (set_link l' c) env) /\
     m (c_link c) = (Err e, l') /\ ~ healthy (l_wr (c_link c))).
Proof.
  intros Hm [Ho Hf Hw]. specialize (Hm _ Ho Hf Hw). rewrite play_atomic. unfold on_sock.
  rewrite lift_eq. destruct (m (c_link c)) as [[[]|e|?| |] l']; try done; simpl.
  - left. exists l'. by destruct Hm as (_ & _ & _ & ? & _).
  - right. exists e, l'. by destruct Hm as (_ & _ & _ & ? & _).
Qed.

(** A send that succeeded leaves a link to go on with, no worse than before. *)
Definition as_good (l l' : link) : Prop := usable l' /\ (healthy (l_wr l) -> healthy (l_wr l')).

Lemma send_usable m bs l l' : sends m bs -> usable l -> m l = (Ok tt, l') -> as_good l l'.
Proof.
  intros Hm [Ho Hf Hw] E. specialize (Hm l Ho Hf Hw). rewrite E in Hm.
  destruct Hm as (Ho' & Hf' & Hw' & _ & Hh & _). split; [|done]. split; auto. by rewrite Hw'.
Qed.

Lemma timeout_range t : - 2 ^ 63 <= t < 2 ^ 63 -> 1 <= timeout_ms t -> - 2 ^ 63 <= timeout_ms t < 2 ^ 63.
Proof. unfold timeout_ms. Z.to_euclidean_division_equations. lia. Qed.

Lemma timeout_short t : t < 1000000 -> timeout_ms t < 1.
Proof. unfold timeout_ms. Z.to_euclidean_division_equations. lia. Qed.

Ltac reject := unfold Broadcast, Publish, Request, Subscribe, Unsubscribe, conn_Tunnel, initTunnel;
  repeat first [rewrite decide_True by done | rewrite decide_False by done];
  repeat match goal with |- context [timeout_ms ?t <? 1] =>
    rewrite (proj2 (Z.ltb_lt _ _)) by done end; done.

(** Every call checks its arguments before it does anything: an empty cluster
    or topic name, a nil or empty message, request or event, a missing handler
    and a timeout below a millisecond are refused with the connection untouched. *)
Theorem api_rejects (s : script Connection cwake) (name : gostring) (m : slice) h lim t :
  play (Broadcast [] m) s = (Err (ErrorsNew "empty cluster identifier"), s) /\
  play (Request [] m t) s = (Err (ErrorsNew "empty cluster identifier"), s) /\
  play (conn_Tunnel [] t) s = (Err (ErrorsNew "empty cluster identifier"), s) /\
  play (Publish [] m) s = (Err (ErrorsNew "empty topic identifier"), s) /\
  play (Subscribe [] h lim) s = (Err (ErrorsNew "empty topic identifier"), s) /\
  play (Unsubscribe []) s = (Err (ErrorsNew "empty topic identifier"), s) /\
  (name <> [] ->
    (sbytes m = [] ->
       play (Broadcast name m) s = (Err (ErrorsNew "nil or empty message"), s) /\
       play (Request name m t) s = (Err (ErrorsNew "nil or empty request"), s) /\
       play (Publish name m) s = (Err (ErrorsNew "nil or empty event"), s)) /\
    play (Subscribe name None lim) s = (Err (ErrorsNew "nil subscription handler"), s) /\
    (t < 1000000 ->
       play (conn_Tunnel name t) s = (Err (Errorf "invalid timeout %v < 1ms" (FNum t)), s) /\
       (sbytes m <> [] -> play (Request name m t) s = (Err (Errorf "invalid timeout %v < 1ms" (FNum t)), s)))).
Proof.
  splits; [reject..|]. intros Hn. splits; [|reject|].
  - intros Hm. splits; reject.
  - intros Hlt%timeout_short. splits; [reject|]. intros Hm. reject.
Qed.

(** A broadcast or an event goes out as the one packet of the protocol, and
    changes nothing but the link; on a link that has failed the call returns the
    link's error. *)
Theorem message_sent name m c env : name <> [] -> sbytes m <> [] -> sized name -> sized (sbytes m) ->
  usable (c_link c) ->
  (exists l o, play (Broadcast name m) (CS c env) = (o, CS (set_link l c) env) /\
     ((o = Ok tt /\ stream (l_wr l) = sent c ++ encode (OBroadcast name (sbytes m))) \/
      (exists e, o = Err e /\ ~ healthy (l_wr (c_link c))))) /\
  (exists l o, play (Publish name m) (CS c env) = (o, CS (set_link l c) env) /\
     ((o = Ok tt /\ stream (l_wr l) = sent c ++ encode (OPublish name (sbytes m))) \/
      (exists e, o = Err e /\ ~ healthy (l_wr (c_link c))))).
Proof.
  intros Hn Hm Hsn Hsm Hu. unfold Broadcast, Publish. rewrite !decide_False by done. split.
  - destruct (send_cases _ _ c env (sendBroadcast_sends name m Hsn Hsm) Hu)
      as [(l' & E & _ & Hs)|(e & l' & E & _ & Hh)]; rewrite E; eauto 10.
  - destruct (send_cases _ _ c env (sendPublish_sends name m Hsn Hsm) Hu)
      as [(l' & E & _ & Hs)|(e & l' & E & _ & Hh)]; rewrite E; eauto 10.
Qed.

(** The connection with a request registered, and cleaned up after. *)
Definition with_request c : Connection := set_reqs (snd (req_register (c_reqs c))) c.
Definition cleaned (id : Z) c : Connection := set_reqs (snd (req_cleanup id (c_reqs c))) c.

(** The connection when the call has taken its reply, or its error. *)
Definition reply_taken (id : Z) c : Connection := let r := c_reqs c in
  set_reqs (Reqs (reqIdx r) (<[id := None]> (reqReps r)) (reqErrs r)) c.
Definition err_taken (id : Z) c : Connection := let r := c_reqs c in
  set_reqs (Reqs (reqIdx r) (reqReps r) (<[id := None]> (reqErrs r))) c.

Lemma cleaned_gone id c : reqReps (c_reqs (cleaned id c)) !! id = None /\
  reqErrs (c_reqs (cleaned id c)) !! id = None.
Proof. split; apply lookup_delete_eq. Qed.

(** A request up to its registration. *)
Lemma Request_registered cluster request timeout c f w0 env :
  cluster <> [] -> request <> [] -> 1 <= timeout_ms timeout ->
  let id := reqIdx (c_reqs c) in
  play (Request cluster (Some request) timeout) (CS c ((f, w0) :: env)) =
  play (res ← catch (atomic (on_sock (sendRequest id cluster (Some request) (timeout_ms timeout)));;
                     Request_select id);
        yield;;
        atomic (on_reqs (req_cleanup id));;
        match res with inl err => raise err | inr reply => mret reply end) (CS (f (with_request c)) env).
Proof.
  intros Hc Hr Hms id. unfold Request.
  by rewrite !decide_False, (proj2 (Z.ltb_ge _ _)) by done.
Qed.

(** C30: a request, on every way through. It takes the next number and registers
    it; [f] is what the others do until it is sent, [g] while it waits, [h] until it
    cleans up. If the packet cannot be sent the link's error is returned; if it is
    sent, the call returns the reply or the error found in the channels of its own
    number, or [ErrClosed] once the connection has ended. On every return nothing is
    left in the tables under its number. *)
Theorem Request_spec cluster request timeout c f w0 g w h w2 env :
  cluster <> [] -> request <> [] -> sized cluster -> sized request ->
  - 2 ^ 63 <= timeout < 2 ^ 63 -> 1 <= timeout_ms timeout -> isu64 (reqIdx (c_reqs c)) ->
  usable (c_link (f (with_request c))) ->
  let id := reqIdx (c_reqs c) in
  let run := play (Request cluster (Some request) timeout) (CS c ((f, w0) :: (g, w) :: (h, w2) :: env)) in
  let c1 := f (with_request c) in
  (exists e l, run = (Err e, CS (cleaned id (g (set_link l c1))) ((h, w2) :: env)) /\
     ~ healthy (l_wr (c_link c1))) \/
  (exists l, stream (l_wr l) = sent c1 ++ encode (ORequest id cluster request (timeout_ms timeout)) /\
     let c2 := g (set_link l c1) in
     match w with
     | WakeReply => forall r, reqReps (c_reqs c2) !! id = Some (Some r) ->
         run = (Ok (Some r), CS (cleaned id (h (reply_taken id c2))) env)
     | WakeErr => forall e, reqErrs (c_reqs c2) !! id = Some (Some e) ->
         run = (Err e, CS (cleaned id (h (err_taken id c2))) env)
     | WakeTerm => c_term c2 = true -> run = (Err ErrClosed, CS (cleaned id (h c2)) env)
     | _ => True
     end).
Proof.
  intros Hc Hr Hsc Hsr Ht Hms Hid Hu id run c1. subst run.
  rewrite (Request_registered cluster request timeout c f w0 ((g, w) :: (h, w2) :: env) Hc Hr Hms). fold id c1.
  rewrite play_bind, play_catch, play_bind.
  pose proof (timeout_range timeout Ht Hms) as Htr.
  destruct (send_cases _ _ c1 ((g, w) :: (h, w2) :: env)
    (sendRequest_sends id cluster (Some request) (timeout_ms timeout) Hid Hsc Hsr) Hu)
    as [(l & E & _ & Hs)|(e & l & E & _ & Hh)]; rewrite E.
  - right. exists l. rewrite u64_id in Hs by lia. split; [exact Hs|].
    unfold Request_select. rewrite play_select. unfold recv_term, req_take_reply, req_take_err.
    destruct w; try done; [intros Hrep|intros r Hrep|intros e Hrep]; conn_run; rewrite Hrep; by conn_run.
  - left. exists e, l. split; [|done]. by conn_run.
Qed.

(** The connection with a new subscription in its table. *)
Definition with_topic (topic : gostring) (handler : TH) (limits : option TopicLimits) c : Connection :=
  set_subs (snd (sub_insert topic handler (finalizeTopicLimits limits) (c_subs c))) c.

(** Subscribing. A name in the table is refused and nothing sent; otherwise
    the table gets a fresh subscription with the completed limits, then the
    request goes out. If it cannot be sent the error is returned and the name is
    in the table no more, whatever the others did in the meantime. *)
Theorem Subscribe_spec topic handler lim c f w g w2 env : topic <> [] -> sized topic ->
  (forall p, subLive (c_subs c) !! topic = Some p ->
     play (Subscribe topic (Some handler) lim) (CS c ((f, w) :: (g, w2) :: env))
     = (Err (ErrorsNew "already subscribed"), CS c ((f, w) :: (g, w2) :: env))) /\
  (subLive (c_subs c) !! topic = None ->
     let c0 := with_topic topic handler lim c in
     let c1 := f c0 in
     subLive (c_subs c0) = <[topic := length (topics (c_subs c))]> (subLive (c_subs c)) /\
     topics (c_subs c0) = topics (c_subs c) ++ [newTopic handler (finalizeTopicLimits lim)] /\
     (usable (c_link c1) ->
      (exists l, stream (l_wr l) = sent c1 ++ encode (OSubscribe topic) /\
         play (Subscribe topic (Some handler) lim) (CS c ((f, w) :: (g, w2) :: env))
         = (Ok tt, CS (set_link l c1) ((g, w2) :: env))) \/
      (exists e l, ~ healthy (l_wr (c_link c1)) /\
         (subs_ok (c_subs (g (set_link l c1))) ->
          exists c', play (Subscribe topic (Some handler) lim) (CS c ((f, w) :: (g, w2) :: env)) = (Err e, CS c' env) /\
            subLive (c_subs c') = delete topic (subLive (c_subs (g (set_link l c1)))))))).
Proof.
  intros Ht Hst. unfold Subscribe. rewrite decide_False by done. split.
  - intros p Hp. unfold on_subs. conn_run. unfold sub_insert. rewrite Hp. simpl. by destruct c.
  - intros Hn. set (c0 := with_topic topic handler lim c). set (c1 := f c0).
    assert (sub_insert topic handler (finalizeTopicLimits lim) (c_subs c) = (Ok tt, c_subs c0)) as Hins.
    { unfold c0, with_topic. simpl. unfold sub_insert. by rewrite Hn. }
    splits; [unfold c0, with_topic, sub_insert; by rewrite Hn..|]. intros Hu.
    conn_run. rewrite Hins. conn_run. change (f (set_subs _ c)) with c1.
    destruct (send_cases _ _ c1 ((g, w2) :: env) (sendSubscribe_sends topic Hst) Hu)
      as [(l & E & El & Hs)|(e & l & E & El & Hh)]; unfold on_sock; conn_run; rewrite El; conn_run.
    + left. by exists l.
    + right. exists e, l. split; [exact Hh|]. intros Hok.
      set (c2 := g (set_link l c1)) in *. unfold sub_undo.
      destruct (subLive (c_subs c2) !! topic) as [p|] eqn:Ep.
      * destruct (subs_ok_drop _ _ _ Hok Ep) as (s' & Es & _ & Hl & _). rewrite Es. by eexists.
      * eexists. split; [done|]. simpl. by rewrite delete_id.
Qed.

(** Unsubscribing. The request goes out first, even for a name nobody
    subscribed to; then the name leaves the table and its subscription takes no
    more events, or the call reports that it was not there. If the request cannot
    be sent the subscription stays as it was. *)
Theorem Unsubscribe_spec topic c f w env : topic <> [] -> sized topic -> usable (c_link c) ->
  (exists l, stream (l_wr l) = sent c ++ encode (OUnsubscribe topic) /\
     let c1 := f (set_link l c) in
     (subLive (c_subs c1) !! topic = None ->
        play (Unsubscribe topic) (CS c ((f, w) :: env)) = (Err (ErrorsNew "not subscribed"), CS c1 env)) /\
     (forall p, subs_ok (c_subs c1) -> subLive (c_subs c1) !! topic = Some p ->
        exists s', play (Unsubscribe topic) (CS c ((f, w) :: env)) = (Ok tt, CS (set_subs s' c1) env) /\
          subs_ok s' /\ subLive s' = delete topic (subLive (c_subs c1)) /\
          forall t, topics s' !! p = Some t -> pool_live (eventPool t) = false)) \/
  (exists e l, play (Unsubscribe topic) (CS c ((f, w) :: env)) = (Err e, CS (set_link l c) ((f, w) :: env)) /\
     ~ healthy (l_wr (c_link c))).
Proof.
  intros Ht Hst Hu. unfold Unsubscribe. rewrite decide_False, play_bind by done.
  destruct (send_cases _ _ c ((f, w) :: env) (sendUnsubscribe_sends topic Hst) Hu)
    as [(l & E & _ & Hs)|(e & l & E & _ & Hh)]; rewrite E.
  - left. exists l. split; [exact Hs|]. conn_run.
    set (c1 := f (set_link l c)). unfold sub_remove. split.
    + intros ->. simpl. by destruct c1.
    + intros p Hok Hp. rewrite Hp. destruct (subs_ok_drop _ _ _ Hok Hp) as (s' & Es & Hok' & Hl & _).
      rewrite Es. exists s'. splits; [done..|]. intros t Htp. apply (so_dead _ Hok' p t Htp).
      intros n Hn. rewrite Hl in Hn. apply lookup_delete_Some in Hn as [Hne Hn].
      by apply Hne, (so_inj _ Hok _ _ p).
  - right. by exists e, l.
Qed.

(** The connection with a new tunnel in its table. *)
Definition with_tunnel c : Connection := set_tuns (snd (newTunnel (c_tuns c))) c.

(** The cleaned-up table does not have the tunnel. *)
Lemma removed_not_live id (s : tuns (Q := Q)) : is_live id (snd (tun_remove id s)) = false.
Proof. rewrite is_live_remove. by rewrite bool_decide_eq_true_2, andb_false_r. Qed.

(** The failure path of [initTunnel] and [acceptTunnel]. *)
Lemma tunnel_cleanup {A} id (e : error) (s : script Connection cwake) :
  exists c' env', play (yield;; atomic (on_tuns (tun_remove id));; raise (A := A) e) s = (Err e, CS c' env') /\
    is_live id (c_tuns c') = false.
Proof.
  destruct s as [c [|[f w] env]].
  - exists (set_tuns (snd (tun_remove id (c_tuns c))) c), []. split; [done|]. apply removed_not_live.
  - exists (set_tuns (snd (tun_remove id (c_tuns (f c)))) (f c)), env. split; [done|]. apply removed_not_live.
Qed.

Lemma new_tunnel_eq c : tunLive (c_tuns c) <> None ->
  newTunnel (c_tuns c) = (Ok (tunIdx (c_tuns c)), c_tuns (with_tunnel c)) /\
  is_live (tunIdx (c_tuns c)) (c_tuns (with_tunnel c)) = true.
Proof.
  intros Hl. unfold with_tunnel, is_live. simpl. unfold newTunnel. destruct (tunLive (c_tuns c)); [|done].
  split; [done|]. simpl. apply bool_decide_eq_true, elem_of_union. left. by apply elem_of_singleton.
Qed.

(** [initTunnel] once it has entered its [select]: what the script's next entry
    leads to. *)
Lemma initTunnel_selected id c g w k w2 env : isu64 id ->
  let c2 := g (set_tuns (snd (tun_wait id (c_tuns c))) c) in
  let run := play (initTunnel_select id) (CS c ((g, w) :: (k, w2) :: env)) in
  (w = WakeInit -> tunInit (c_tuns c2) !! id = Some false -> fst run = Err ErrTimeout) /\
  (w = WakeInit -> tunInit (c_tuns c2) !! id = Some true -> usable (c_link (k c2)) ->
     (exists l2, run = (Ok tt, CS (set_link l2 (k c2)) env) /\
        stream (l_wr l2) = sent (k c2) ++ encode (OTunAllow id defaultTunnelBuffer)) \/
     (exists e, ~ healthy (l_wr (c_link (k c2))) /\ fst run = Err e)) /\
  (w = WakeTerm -> tunInit (c_tuns c2) !! id = None -> c_term c2 = true -> fst run = Err ErrClosed).
Proof.
  intros Hid c2 run. subst run. unfold initTunnel_select, initTunnel_wait, initTunnel_ready. conn_run. change (g _) with c2. splits.
  - intros -> Hi. conn_run. rewrite Hi. by conn_run.
  - intros -> Hi Hu. conn_run. rewrite Hi. conn_run.
    destruct (send_cases _ _ (k c2) env (sendTunnelAllowance_sends id defaultTunnelBuffer Hid) Hu)
      as [(l2 & E2 & _ & Hs2)|(e & l2 & E2 & _ & Hh2)]; rewrite play_atomic in E2.
    + left. exists l2. by rewrite E2.
    + right. exists e. split; [done|]. by apply (f_equal fst) in E2.
  - intros -> Hi Ht. unfold recv_term. conn_run. rewrite Hi. conn_run. rewrite Ht. by conn_run.
Qed.

(** C31: opening a tunnel, on every way through. On a dropped connection it fails
    at once; otherwise a fresh tunnel enters the table and the request goes out.
    When the relay confirms, the tunnel's whole buffer is granted to the peer and
    the tunnel is returned; when the relay reports a timeout, the connection ends
    or a packet cannot be sent, the call fails with that reason and the tunnel is
    in the table no more. *)
Theorem initTunnel_spec cluster timeout c f w0 h w1 g w k w2 env :
  cluster <> [] -> sized cluster -> - 2 ^ 63 <= timeout < 2 ^ 63 -> 1 <= timeout_ms timeout ->
  isu64 (tunIdx (c_tuns c)) ->
  let s := CS c ((f, w0) :: (h, w1) :: (g, w) :: (k, w2) :: env) in
  let run := play (conn_Tunnel cluster timeout) s in
  let id := tunIdx (c_tuns c) in
  let fails e := exists c' env', run = (Err e, CS c' env') /\ is_live id (c_tuns c') = false in
  (tunLive (c_tuns c) = None -> run = (Err ErrClosed, s)) /\
  (tunLive (c_tuns c) <> None ->
     let c1 := f (with_tunnel c) in
     is_live id (c_tuns (with_tunnel c)) = true /\
     (usable (c_link c1) ->
      (exists e, ~ healthy (l_wr (c_link c1)) /\ fails e) \/
      (exists l, as_good (c_link c1) l /\
         stream (l_wr l) = sent c1 ++ encode (OTunInit id cluster (timeout_ms timeout)) /\
         let c2 := h (set_link l c1) in
         let c3 := g (set_tuns (snd (tun_wait id (c_tuns c2))) c2) in
         (w = WakeInit -> tunInit (c_tuns c3) !! id = Some false -> fails ErrTimeout) /\
         (w = WakeInit -> tunInit (c_tuns c3) !! id = Some true -> usable (c_link (k c3)) ->
            (exists l2, run = (Ok id, CS (set_link l2 (k c3)) env) /\
               stream (l_wr l2) = sent (k c3) ++ encode (OTunAllow id defaultTunnelBuffer)) \/
            (exists e, ~ healthy (l_wr (c_link (k c3))) /\ fails e)) /\
         (w = WakeTerm -> tunInit (c_tuns c3) !! id = None -> c_term c3 = true -> fails ErrClosed)))).
Proof.
  intros Hc Hsc Ht Hms Hid s run id fails. subst s run fails. unfold conn_Tunnel, initTunnel.
  rewrite decide_False, (proj2 (Z.ltb_ge _ _)) by done. split.
  { intros Hn. conn_run. unfold newTunnel. rewrite Hn. simpl. by destruct c. }
  intros Hlive. destruct (new_tunnel_eq c Hlive) as [Hnew Hl]. fold id in Hnew, Hl.
  set (c1 := f (with_tunnel c)). split; [exact Hl|].
  intros Hu. pose proof (timeout_range timeout Ht Hms) as Htr.
  rewrite (play_do _ _ _ id (with_tunnel c)) by (unfold on_tuns; by rewrite lift_eq, Hnew).
  rewrite play_go, play_bind, play_catch, play_bind. fold c1.
  destruct (send_cases _ _ c1 ((h, w1) :: (g, w) :: (k, w2) :: env)
    (sendTunnelInit_sends id cluster (timeout_ms timeout) Hid Hsc) Hu)
    as [(l & E & El & Hs)|(e & l & E & _ & Hh)]; rewrite E.
  2: { left. exists e. split; [done|]. apply tunnel_cleanup. }
  right. exists l. rewrite u64_id in Hs by lia.
  split; [exact (send_usable _ _ _ _ (sendTunnelInit_sends id cluster (timeout_ms timeout) Hid Hsc) Hu El)|].
  split; [exact Hs|]. cbn zeta. rewrite play_bind, play_yield.
  set (c2 := h (set_link l c1)). set (c3 := g _).
  destruct (initTunnel_selected id c2 g w k w2 env Hid) as (Hf & Ho & Hx). fold c3 in Hf, Ho, Hx.
  destruct (play (initTunnel_select id) _) as [o s]. simpl in Hf, Ho, Hx. splits.
  - intros -> Hi. rewrite (Hf eq_refl Hi). apply tunnel_cleanup.
  - intros -> Hi Hu3. destruct (Ho eq_refl Hi Hu3) as [(l2 & [= -> ->] & Hs2)|(e & Hh2 & ->)].
    + left. by exists l2.
    + right. exists e. split; [done|]. apply tunnel_cleanup.
  - intros -> Hi Htm. rewrite (Hx eq_refl Hi Htm). apply tunnel_cleanup.
Qed.

(** Accepting a tunnel, on every way through. *)
Lemma acceptTunnel_cases initId chunkLimit c f w0 g w1 k w2 env : isu64 initId ->
  isu64 (tunIdx (c_tuns c)) ->
  let s := CS c ((f, w0) :: (g, w1) :: (k, w2) :: env) in
  let run := play (acceptTunnel initId chunkLimit) s in
  let id := tunIdx (c_tuns c) in
  let fails l := ~ healthy (l_wr l) /\
    exists e c' env', run = (Err e, CS c' env') /\ is_live id (c_tuns c') = false in
  (tunLive (c_tuns c) = None -> run = (Err ErrClosed, s)) /\
  (tunLive (c_tuns c) <> None -> forall t,
     let c1 := f (with_tunnel c) in
     tunnels (c_tuns c1) !! id = Some t ->
     let c2 := g (set_tuns (put_tunnel id (set_chunkLimit chunkLimit t) (c_tuns c1)) c1) in
     usable (c_link c2) ->
     fails (c_link c2) \/
     (exists l, as_good (c_link c2) l /\ stream (l_wr l) = sent c2 ++ encode (OTunConfirm initId id) /\
        let c3 := k (set_link l c2) in
        usable (c_link c3) ->
        fails (c_link c3) \/
        exists l', run = (Ok id, CS (set_link l' c3) env) /\
          stream (l_wr l') = sent c3 ++ encode (OTunAllow id defaultTunnelBuffer))).
Proof.
  intros Hi Hid s run id fails. subst s run fails. unfold acceptTunnel. split.
  { intros Hn. conn_run. unfold newTunnel. rewrite Hn. simpl. by destruct c. }
  intros Hlive t. destruct (new_tunnel_eq c Hlive) as [Hnew _]. fold id in Hnew.
  set (c1 := f (with_tunnel c)). intros Ht. set (c2 := g _). intros Hu.
  rewrite (play_do _ _ _ id (with_tunnel c)) by (unfold on_tuns; by rewrite lift_eq, Hnew).
  rewrite play_go. fold c1.
  rewrite (play_do _ _ c1 tt (set_tuns (put_tunnel id (set_chunkLimit chunkLimit t) (c_tuns c1)) c1))
    by (unfold on_tuns; by rewrite lift_eq, (upd_tunnel_eq _ _ _ _ Ht)).
  rewrite play_go. fold c2. rewrite play_bind, play_catch, play_bind.
  destruct (send_cases _ _ c2 ((k, w2) :: env) (sendTunnelConfirm_sends initId id Hi Hid) Hu)
    as [(l & E & El & Hs)|(e & l & E & _ & Hh)]; rewrite E.
  2: { left. split; [done|]. exists e. apply tunnel_cleanup. }
  right. exists l. split; [exact (send_usable _ _ _ _ (sendTunnelConfirm_sends initId id Hi Hid) Hu El)|].
  split; [exact Hs|]. rewrite play_bind, play_yield. set (c3 := k (set_link l c2)). intros Hu3.
  destruct (send_cases _ _ c3 env (sendTunnelAllowance_sends id defaultTunnelBuffer Hid) Hu3)
    as [(l2 & E2 & _ & Hs2)|(e & l2 & E2 & _ & Hh2)]; rewrite E2.
  - right. by exists l2.
  - left. split; [done|]. exists e. apply tunnel_cleanup.
Qed.

(** ** Closing *)

Lemma terminate_all_spec ps s : (forall p, p ∈ ps -> (p < length (topics (TopicHandler := TH) s))%nat) ->
  exists s', terminate_all (P := P) ps s = (Ok tt, s') /\ subLive s' = subLive s /\
    length (topics s') = length (topics s) /\
    (forall p t', topics s' !! p = Some t' -> (p ∈ ps -> pool_live (eventPool t') = false) /\
       (p ∉ ps -> topics s !! p = Some t')).
Proof.
  revert s. induction ps as [|p ps IH]; intros s Hp.
  - exists s. splits; [done..|]. intros p t' Ht. split; [|done]. by intros ?%elem_of_nil.
  - destruct (lookup_lt_is_Some_2 (topics s) p) as [t Ht]; [apply Hp; by left|].
    simpl. rewrite bind_eq, (upd_topic_eq _ _ _ _ Ht). simpl.
    set (s1 := Subs _ _ _). destruct (IH s1) as (s' & E & Hl & Hlen & Hts).
    { intros q Hq. unfold s1. simpl. rewrite length_insert. apply Hp. by right. }
    exists s'. splits; [done|by rewrite Hl|rewrite Hlen; apply length_insert|].
    intros q t' Hq. destruct (Hts q t' Hq) as [Hin Hout].
    destruct (decide (q ∈ ps)) as [Hqs|Hqs].
    + split; [by intros _; apply Hin|]. intros Hn. exfalso. apply Hn. by right.
    + specialize (Hout Hqs). unfold s1 in Hout. simpl in Hout.
      apply list_lookup_insert_Some in Hout as [(<- & <- & _)|[Hne Hout]].
      * split; [intros _; simpl; apply Terminate_live|]. intros Hn. exfalso. apply Hn. by left.
      * split; [|done]. intros [->|?]%elem_of_cons; done.
Qed.

(** After [Close] no subscription takes events. *)
Lemma sub_close_spec (s : subs (P := P) (TopicHandler := TH)) : subs_ok s ->
  exists s', sub_close s = (Ok tt, s') /\ subLive s' = subLive s /\
    forall p t, topics s' !! p = Some t -> pool_live (eventPool t) = false.
Proof.
  intros Hok. unfold sub_close.
  assert (forall p, p ∈ map snd (map_to_list (subLive s)) <-> exists n, subLive s !! n = Some p) as Hin.
  { intros p. change (map snd) with (fmap (M := list) (@snd gostring nat)). rewrite list_elem_of_fmap. split.
    - intros ([n q] & -> & Hx). exists n. by apply elem_of_map_to_list in Hx.
    - intros [n Hn]. exists (n, p). split; [done|]. by apply elem_of_map_to_list. }
  destruct (terminate_all_spec (map snd (map_to_list (subLive s))) s) as (s' & E & Hl & Hlen & Hts).
  { intros p [n Hn]%Hin. destruct (so_live _ Hok _ _ Hn) as (t & Ht & _). by eapply lookup_lt_Some. }
  exists s'. splits; [done..|]. intros p t Ht. destruct (Hts p t Ht) as [Ha Hb].
  destruct (decide (p ∈ map snd (map_to_list (subLive s)))) as [Hp|Hp]; [auto|].
  apply (so_dead _ Hok p t (Hb Hp)). intros n Hn. apply Hp, Hin. eauto.
Qed.

(** Closing. The notice goes out and the call waits for the receiver to hand
    over the error the connection ended with, which it returns; by then no
    subscription takes events any more. If the notice cannot be sent the call
    returns that error at once, with the subscriptions still running. *)
Theorem Close_spec c h w0 f w k w2 env : usable (c_link c) ->
  let run := play conn_Close (CS c ((h, w0) :: (f, w) :: (k, w2) :: env)) in
  (exists l, stream (l_wr l) = sent c ++ encode OClose /\
     let c1 := f (snd (quit_offer (h (set_link l c)))) in
     let c2 := k (set_quit QuitTaken c1) in
     forall err, w = WakeQuit -> c_quit c1 = QuitDone err -> subs_ok (c_subs c2) ->
       exists s', run = (match err with Some e => Err e | None => Ok tt end, CS (set_subs s' c2) env) /\
         forall p t, topics s' !! p = Some t -> pool_live (eventPool t) = false) \/
  (exists e l, run = (Err e, CS (set_link l c) ((h, w0) :: (f, w) :: (k, w2) :: env)) /\
     ~ healthy (l_wr (c_link c))).
Proof.
  intros Hu run. subst run. unfold conn_Close. rewrite play_bind.
  destruct (send_cases _ _ c ((h, w0) :: (f, w) :: (k, w2) :: env) sendClose_sends Hu)
    as [(l & E & _ & Hs)|(e & l & E & _ & Hh)]; rewrite E.
  2: { right. by exists e, l. }
  left. exists l. split; [exact Hs|]. cbn zeta. set (c1 := f _). set (c2 := k _).
  intros err -> Hq Hok. destruct (sub_close_spec _ Hok) as (s' & Es & _ & Hd).
  exists s'. split; [|done].
  rewrite play_go, (play_do _ _ _ tt (snd (quit_offer (h (set_link l c))))) by done.
  rewrite play_bind, play_select. fold c1. unfold quit_take. rewrite Hq. cbn [fst snd].
  rewrite play_go. fold c2. rewrite (play_do _ _ c2 tt (set_subs s' c2)); [by destruct err|].
  unfold on_subs. by rewrite lift_eq, Es.
Qed.
End properties.

(** ** The properties at concrete inputs *)

(** A client connection just made. *)
Definition sample_conn : Connection (list slice) list_pool nat :=
  Conn None (Reqs 0 ∅ ∅) sub_init tuns_init (Qos None 0 None 0 None 0) idle_link QuitIdle false [] [].

Lemma sample_usable l' : l' = idle_link -> usable l'.
Proof. intros ->. split; try done. apply fresh_writer_ok. Qed.

Lemma idle_healthy : healthy (l_wr idle_link).
Proof. by split. Qed.

Lemma message_sent_witness :
  let r := play (Broadcast (str "cluster") (Some [x61])) (CS sample_conn []) in
  fst r = Ok tt /\ sent (cs_conn (snd r)) = encode (OBroadcast (str "cluster") [x61]).
Proof.
  destruct (message_sent (str "cluster") (Some [x61]) sample_conn [])
    as [(l & o & -> & [[-> Hs]|(e & _ & Hh)]) _].
  - discriminate.
  - discriminate.
  - reflexivity.
  - reflexivity.
  - apply sample_usable. reflexivity.
  - split; [reflexivity|]. exact Hs.
  - destruct Hh. apply idle_healthy.
Defined.

(** The relay answers while the call waits. *)
Definition reply_arrives (c : Connection (list slice) list_pool nat) : Connection (list slice) list_pool nat :=
  set_reqs (snd (req_handleReply 0 (Some [x62]) [] (c_reqs c))) c.

Lemma Request_spec_witness :
  fst (play (Request (str "cluster") (Some [x61]) 5000000)
    (CS sample_conn [(id, WakeTerm); (reply_arrives, WakeReply); (id, WakeTerm)])) = Ok (Some [x62]).
Proof.
  destruct (Request_spec (str "cluster") [x61] 5000000 sample_conn id WakeTerm reply_arrives WakeReply id WakeTerm [])
    as [(e & l & _ & Hh)|(l & _ & Hr)].
  - discriminate.
  - discriminate.
  - reflexivity.
  - reflexivity.
  - lia.
  - vm_compute. congruence.
  - vm_compute. split; congruence.
  - apply sample_usable. reflexivity.
  - destruct Hh. apply idle_healthy.
  - rewrite (Hr [x62]); reflexivity.
Defined.

Lemma Subscribe_spec_witness :
  exists l, play (Subscribe (H := amd64) (str "news") (Some 3%nat) None)
      (CS sample_conn [(id, WakeTerm); (id, WakeTerm)])
    = (Ok tt, CS (set_link l (with_topic (H := amd64) (str "news") 3%nat None sample_conn)) [(id, WakeTerm)]).
Proof.
  destruct (Subscribe_spec (H := amd64) (str "news") 3%nat None sample_conn id WakeTerm id WakeTerm [])
    as [_ Hn].
  - discriminate.
  - reflexivity.
  - destruct (Hn eq_refl) as (_ & _ & Hu). destruct Hu as [(l & _ & E)|(e & l & Hh & _)].
    + apply sample_usable. reflexivity.
    + exists l. exact E.
    + destruct Hh. apply idle_healthy.
Defined.

Lemma Unsubscribe_spec_witness :
  fst (play (Unsubscribe (str "news")) (CS sample_conn [(id, WakeTerm)])) = Err (ErrorsNew "not subscribed").
Proof.
  destruct (Unsubscribe_spec (str "news") sample_conn id WakeTerm []) as [(l & _ & Hn & _)|(e & l & _ & Hh)].
  - discriminate.
  - reflexivity.
  - apply sample_usable. reflexivity.
  - rewrite Hn; reflexivity.
  - destruct Hh. apply idle_healthy.
Defined.

(** The relay reports that nobody took the tunnel. *)
Definition result_arrives (c : Connection (list slice) list_pool nat) : Connection (list slice) list_pool nat :=
  set_tuns (snd (tun_handleResult 0 0 (c_tuns c))) c.

Lemma initTunnel_spec_witness :
  exists c' env', play (conn_Tunnel (str "cluster") 5000000)
      (CS sample_conn [(id, WakeTerm); (id, WakeTerm); (result_arrives, WakeInit); (id, WakeTerm)]) = (Err ErrTimeout, CS c' env') /\
    is_live 0 (c_tuns c') = false.
Proof.
  destruct (initTunnel_spec (str "cluster") 5000000 sample_conn id WakeTerm id WakeTerm
    result_arrives WakeInit id WakeTerm [])
    as [_ Hn].
  - discriminate.
  - reflexivity.
  - lia.
  - vm_compute. congruence.
  - vm_compute. split; congruence.
  - destruct Hn as [_ Hu]; [discriminate|]. destruct Hu as [(e & Hh & _)|(l & _ & _ & Hf & _)].
    + apply sample_usable. reflexivity.
    + destruct Hh. apply idle_healthy.
    + apply Hf; reflexivity.
Defined.

(** The receiver ends without an error while [Close] waits. *)
Definition receiver_ends (c : Connection (list slice) list_pool nat) : Connection (list slice) list_pool nat :=
  set_quit (QuitDone None) c.

Lemma Close_spec_witness :
  fst (play conn_Close (CS sample_conn [(id, WakeTerm); (receiver_ends, WakeQuit); (id, WakeTerm)])) = Ok tt.
Proof.
  destruct (Close_spec sample_conn id WakeTerm receiver_ends WakeQuit id WakeTerm []) as [(l & _ & Hc)|(e & l & _ & Hh)].
  - apply sample_usable. reflexivity.
  - destruct (Hc None eq_refl eq_refl) as (s' & -> & _); [|reflexivity].
    split; cbn; [by intros ? ? ?|by intros ? ? ?|by intros ? ? ? ?].
  - destruct Hh. apply idle_healthy.
Defined.

Lemma api_rejects_witness :
  play (Publish (str "t") None) (CS sample_conn []) = (Err (ErrorsNew "nil or empty event"), CS sample_conn []).
Proof.
  destruct (api_rejects (H := amd64) (CS sample_conn []) (str "t") None (Some 1%nat) None 0)
    as (_ & _ & _ & _ & _ & _ & Hn).
  destruct (Hn ltac:(discriminate)) as [Hm _]. apply Hm. reflexivity.
Defined.
