(* ===== verification/Events.v ===== *)
(** * Events from the relay (events.go)

    The handlers [process] calls, on the connection of Connection.v: the instance
    of the interface of Receiver.v, the jobs the handler pools run, and the
    goroutines the handlers start. Jobs and goroutines are programs of Threads.v;
    the receiver's own code runs on. *)

From Stdlib Require Import ZArith Lia Strings.Byte Strings.String.
From stdpp Require Import base gmap strings list.
From S2P Require Import Prelude Threads Bufio Wire Packets Receiver Tunnel Limits Quota Topic Requests Tunnels Connection.

Open Scope Z_scope.

Section events.
Context `{GoRuntime} {Q : Type} `{Queue slice Q} {P : Type -> Type} `{ThreadPool P} {TH : Type}.
Local Abbreviation Connection := (Connection Q P TH).
Local Abbreviation code := (prog Connection cwake).

Definition nil_deref : string := "invalid memory address or nil pointer dereference".

(** ** Broadcasts *)

(** [handleBroadcast]: a client has no limits. *)
Definition conn_handleBroadcast (message : list byte) : M Connection unit := λ c,
  let q := c_qos c in
  let id := u64 (bcastIdx q + 1) in
  let used := bcastUsed q in
  let counted := Qos (limits q) id (bcastPool q) used (reqPool q) (reqUsed q) in
  match limits q with
  | None => (Panic nil_deref, set_qos counted c)
  | Some lim =>
      if quota_fits used (len message) (BroadcastMemory lim) then
        let used' := quota_add used (len message) in
        match bcastPool q with
        | None => (Panic nil_deref, set_qos (Qos (limits q) id None used' (reqPool q) (reqUsed q)) c)
        | Some p => (Ok tt, set_qos (Qos (limits q) id (Some (pool_Schedule (i64 id, message) p)) used'
                                       (reqPool q) (reqUsed q)) c)
        end
      else (Ok tt, set_qos counted c)
  end.

(** A broadcast leaves the queue. *)
Definition broadcast_started (message : list byte) (c : Connection) : Connection :=
  let q := c_qos c in
  set_qos (Qos (limits q) (bcastIdx q) (bcastPool q) (quota_sub (bcastUsed q) (len message))
             (reqPool q) (reqUsed q)) c.

(** The scheduled function. *)
Definition run_broadcast (job : bcast_job) : code unit :=
  atomic (modify (broadcast_started (snd job)));;
  yield;;
  h ← atomic (gets c_handler);
  match h with
  | None => crash nil_deref
  | Some _ => atomic (modify (add_call (CallBroadcast (snd job))))
  end.

(** ** Requests *)

(** [handleRequest]; the expiration timer starts here. *)
Definition conn_handleRequest (id : Z) (request : list byte) (timeout : Z) : M Connection unit := λ c,
  let q := c_qos c in
  let used := reqUsed q in
  match limits q with
  | None => (Panic nil_deref, c)
  | Some lim =>
      if quota_fits used (len request) (RequestMemory lim) then
        let used' := quota_add used (len request) in
        match reqPool q with
        | None => (Panic nil_deref, set_qos (Qos (limits q) (bcastIdx q) (bcastPool q) (bcastUsed q) None used') c)
        | Some p => (Ok tt, set_qos (Qos (limits q) (bcastIdx q) (bcastPool q) (bcastUsed q)
                                       (Some (pool_Schedule (id, request, timeout) p)) used') c)
        end
      else (Ok tt, c)
  end.

(** A request leaves the queue. *)
Definition request_started (request : list byte) (c : Connection) : Connection :=
  let q := c_qos c in
  set_qos (Qos (limits q) (bcastIdx q) (bcastPool q) (bcastUsed q) (reqPool q)
             (quota_sub (reqUsed q) (len request))) c.

(** The scheduled function; [expired] tells whether the timer has fired. A reply
    that cannot be sent is only logged. *)
Definition run_request (expired : bool) (job : req_job) : code unit :=
  let '(id, request, timeout) := job in
  atomic (modify (request_started request));;
  if expired then mret tt
  else
    yield;;
    h ← atomic (gets c_handler);
    match h with
    | None => crash nil_deref
    | Some h =>
        atomic (modify (add_call (CallRequest request)));;
        yield;;
        let '(reply, err) := sh_HandleRequest h request in
        let fault := default [] err in
        catch (atomic (on_sock (sendReply id reply fault)));;
        mret tt
    end.

(** ** Replies and events *)

Definition conn_handleReply (id : Z) (reply : slice) (fault : gostring) : M Connection unit :=
  on_reqs (req_handleReply id reply fault).

(** [handlePublish], in a goroutine of its own: the lookup, then the subscription
    it found; anything else may happen in between. *)
Definition conn_handlePublish (topic : gostring) (event : list byte) : code unit :=
  p ← atomic (on_subs (sub_lookup topic));
  match p with
  | None => mret tt
  | Some p =>
      yield;;
      id ← atomic (on_subs (upd_topic p (top_admit event)));
      match id with
      | None => mret tt
      | Some id =>
          yield;;
          atomic (on_subs (upd_topic p (top_count event)));;
          yield;;
          atomic (on_subs (upd_topic p (top_schedule id event)))
      end
  end.

(** The scheduled function of an event of the subscription [p]. *)
Definition serve_event (p : nat) (job : event_job) : code unit :=
  call ← atomic (on_subs (upd_topic p (run_event job)));
  yield;;
  atomic (modify (add_call (CallEvent (fst call) (snd call)))).

(** ** Tunnels *)

Definition conn_handleTunnelInit (id chunkLimit : Z) : M Connection unit :=
  modify (add_go [GoTunnelInit id chunkLimit]).

(** The goroutine it starts. *)
Definition go_handleTunnelInit (id chunkLimit : Z) : code unit :=
  r ← catch (acceptTunnel id chunkLimit);
  match r with
  | inr tun =>
      yield;;
      h ← atomic (gets c_handler);
      match h with
      | Some _ => atomic (modify (add_call (CallTunnel tun)))
      | None => crash nil_deref
      end
  | inl _ => mret tt
  end.

Definition conn_handleTunnelResult (id chunkLimit : Z) : M Connection unit :=
  on_tuns (tun_handleResult id chunkLimit).

Definition conn_handleTunnelAllowance (id space : Z) : M Connection unit :=
  on_tuns (tun_handleAllowance id space).

(** Run tunnel code that sends, on the tunnel a pointer leads to. *)
Definition on_tunnel {A} (id : Z) (m : M (tstate Q) A) : M Connection A := λ c,
  match tunnels (c_tuns c) !! id with
  | None => (Panic nil_deref, c)
  | Some t =>
      let '(o, s) := m (TS t (c_link c) []) in
      let ts := c_tuns c in
      (o, add_go (map (λ g, GoAllowance (fst g) (snd g)) (ts_go s))
            (set_link (ts_link s)
              (set_tuns (Tuns (tunIdx ts) (tunLive ts) (<[id := ts_tun s]> (tunnels ts)) (tunWait ts)
                 (tunInit ts)) c)))
  end.

(** A call of the application on a tunnel it holds the pointer to. *)
Definition tunnel_case (w : cwake) : option wake := match w with WakeTunnel w => Some w | _ => None end.
Definition tunnel_call {A} (id : Z) (p : prog (tstate Q) wake A) : code A :=
  hoist (λ B, on_tunnel (A := B) id) tunnel_case p.

Definition conn_handleTunnelTransfer (id size : Z) (chunk : list byte) : M Connection unit :=
  live ← gets (λ c, is_live id (c_tuns c));
  if live : bool then on_tunnel id (handleTransfer size chunk) else mret tt.

Definition conn_handleTunnelClose (id : Z) (reason : gostring) : M Connection unit :=
  on_tuns (tun_handleTunnelClose id reason).

(** ** The end of the connection *)

(** The service hears of a drop; a client has no handler. *)
Definition conn_notifyDrop (reason : option error) : M Connection unit :=
  h ← gets c_handler;
  modify (match reason, h with Some err, Some _ => add_call (CallDrop err) | _, _ => id end).

Definition conn_handleClose (reason : option error) : M Connection unit :=
  conn_notifyDrop reason;;
  on_tuns tun_closeAll.

(** [c.sock.Close()]. *)
Definition conn_sockClose : M Connection unit :=
  modify (λ c, let w := l_wr (c_link c) in
    set_link (Link (Writer (Socket (sk_sent (w_sock w)) (sk_room (w_sock w)) true) (w_buf w) (w_err w))
                (sockWait (c_link c)) (sockLocked (c_link c))) c).

(** [close(c.term)]. *)
Definition conn_closeTerm : M Connection unit := λ c,
  if c_term c then (Panic "close of closed channel", c) else (Ok tt, set_term true c).

(** [errc := <-c.quit; errc <- err]. *)
Definition conn_syncQuit (err : option error) : M Connection unit := λ c,
  match c_quit c with
  | QuitWaiting => (Ok tt, set_quit (QuitDone err) c)
  | _ => (Block, c)
  end.

(** The handlers of a connection. *)
#[export] Instance conn_handlers : Handlers Connection := {|
  handleBroadcast := conn_handleBroadcast;
  handleRequest := conn_handleRequest;
  handleReply := conn_handleReply;
  go_handlePublish t e := modify (add_go [GoPublish t e]);
  handleTunnelInit := conn_handleTunnelInit;
  handleTunnelResult := conn_handleTunnelResult;
  handleTunnelAllowance := conn_handleTunnelAllowance;
  handleTunnelTransfer := conn_handleTunnelTransfer;
  go_handleTunnelClose id r := modify (add_go [GoTunnelClose id r]);
  sockClose := conn_sockClose;
  closeTerm := conn_closeTerm;
  handleClose := conn_handleClose;
  syncQuit := conn_syncQuit
|}.

(** A goroutine, when it runs. *)
Definition run_go (g : goroutine) : code unit :=
  match g with
  | GoPublish t e => conn_handlePublish t e
  | GoTunnelClose id r => atomic (conn_handleTunnelClose id r)
  | GoTunnelInit id c => go_handleTunnelInit id c
  | GoAllowance id n => catch (atomic (on_sock (sendTunnelAllowance id n)));; mret tt
  end.

(** ** Handlers return nothing *)

(** Code that returns, panics or blocks, without error. *)
Definition quiet {S A} (m : M S A) : Prop := forall s,
  match fst (m s) with Ok _ | Panic _ | Block => True | _ => False end.

Lemma quiet_bind {S A B} (m : M S A) (k : A -> M S B) :
  quiet m -> (forall a, quiet (k a)) -> quiet (x ← m; k x).
Proof.
  intros Hm Hk s. rewrite bind_eq. specialize (Hm s). destruct (m s) as [[a|?|?| |] s']; try done.
  apply Hk.
Qed.

Lemma quiet_lift {S A} (get : Connection -> S) set (m : M S A) : quiet m -> quiet (lift get set m).
Proof. intros Hm c. rewrite lift_eq. apply Hm. Qed.

Lemma quiet_upd {A} id (m : M (Tunnel Q) A) : quiet m -> quiet (upd_tunnel id m).
Proof.
  intros Hm s. unfold upd_tunnel. destruct (tunnels s !! id) as [t|]; [|done].
  specialize (Hm t). by destruct (m t).
Qed.

Lemma quiet_modify {S} (f : S -> S) : quiet (modify f).
Proof. by intros s. Qed.
Lemma quiet_gets {S A} (f : S -> A) : quiet (gets f).
Proof. by intros s. Qed.
Lemma quiet_ret {S A} (a : A) : quiet (mret (M := M S) a).
Proof. by intros s. Qed.

Lemma quiet_tun_close reason : quiet (tun_handleClose (Q := Q) reason).
Proof. intros t. unfold tun_handleClose. by destruct (t_term t). Qed.

Lemma quiet_transfer size chunk : quiet (handleTransfer (Q := Q) size chunk).
Proof.
  intros [t l g]. unfold handleTransfer, on_tun, go_sendTunnelAllowance.
  destruct (negb (size =? 0)); run.
  - destruct (t_chunkBuf t) as [[d n]|]; run; destruct (_ || _); run; by repeat case_match.
  - by repeat case_match.
Qed.

Lemma quiet_closeAll : quiet (tun_closeAll (Q := Q)).
Proof.
  apply quiet_bind; [apply quiet_gets|]. intros live. apply quiet_bind; [|intros; apply quiet_modify].
  induction (elements (default ∅ live)) as [|id ids IH]; [apply quiet_ret|].
  apply quiet_bind; [apply quiet_upd, quiet_tun_close|]. intros []. apply IH.
Qed.

Lemma deliver_quiet p : quiet (deliver (S := Connection) p).
Proof.
  destruct p as [m|id r t|id|id r|id f|t e|id n|id|id n|id n|id n d|id r]; cbn.
  - intros c. unfold conn_handleBroadcast. destruct (limits (c_qos c)); [|done].
    destruct (quota_fits _ _ _); [|done]. by destruct (bcastPool (c_qos c)).
  - intros c. unfold conn_handleRequest. destruct (limits (c_qos c)); [|done].
    destruct (quota_fits _ _ _); [|done]. by destruct (reqPool (c_qos c)).
  - apply quiet_lift. intros s. simpl. by destruct (chan_send _ _ _).
  - apply quiet_lift. intros s. simpl. by destruct (chan_send _ _ _).
  - apply quiet_lift. intros s. simpl. destruct f; by destruct (chan_send _ _ _).
  - apply quiet_modify.
  - apply quiet_modify.
  - apply quiet_lift, quiet_bind; [apply quiet_gets|]. intros []; [|by intros s].
    apply quiet_bind; [apply quiet_upd; by intros t|]. intros b s. unfold tun_sendInit.
    by destruct (decide _).
  - apply quiet_lift, quiet_bind; [apply quiet_gets|]. intros []; [|by intros s].
    apply quiet_bind; [apply quiet_upd; by intros t|]. intros b s. unfold tun_sendInit.
    by destruct (decide _).
  - apply quiet_lift, quiet_bind; [apply quiet_gets|]. intros []; [|apply quiet_ret].
    apply quiet_upd. by intros t.
  - apply quiet_bind; [apply quiet_gets|]. intros []; [|apply quiet_ret]. intros c. unfold on_tunnel.
    destruct (tunnels (c_tuns c) !! id) as [t|]; [|done].
    pose proof (quiet_transfer (i64 n) d (TS t (c_link c) [])) as Hq.
    by destruct (handleTransfer (i64 n) d (TS t (c_link c) [])).
  - apply quiet_modify.
Qed.

Lemma deliver_no_error p : no_error (deliver (S := Connection) p).
Proof. intros c e c' E. pose proof (deliver_quiet p c) as Hq. by rewrite E in Hq. Qed.

Lemma deliver_settles p : settles (deliver (S := Connection) p).
Proof. intros c E. pose proof (deliver_quiet p c) as Hq. by rewrite E in Hq. Qed.

(** ** Shutting down *)

(** [c'] is [c] after the connection went down with [err]: the socket and the
    termination channel are closed, every tunnel is, the service hears of an
    error and of an error only, and [Close] is handed the error. *)
Record went_down (err : option error) (c c' : Connection) : Prop := {
  wd_sock : sk_closed (w_sock (l_wr (c_link c'))) = true;
  wd_term : c_term c' = true;
  wd_calls : c_calls c' = c_calls c ++
    match err, c_handler c with Some e, Some _ => [CallDrop e] | _, _ => [] end;
  wd_live : tunLive (c_tuns c') = None;
  wd_closed : forall id, is_live id (c_tuns c) = true ->
    exists t, tunnels (c_tuns c') !! id = Some t /\ t_term t = true;
  wd_quit : c_quit c' = QuitDone err
}.

Lemma shutdown_spec err (c : Connection) pend given : c_term c = false -> c_quit c = QuitWaiting ->
  tuns_ok (TSys (c_tuns c) pend given) ->
  exists c', shutdown err c = (Ok tt, c') /\ went_down err c c'.
Proof.
  intros Ht Hq Hok. destruct (closeAll_spec _ (tk_live _ Hok)) as (ts & E & Hin & _).
  unfold shutdown. cbn [sockClose closeTerm handleClose syncQuit conn_handlers].
  unfold conn_sockClose, conn_closeTerm, conn_handleClose, conn_notifyDrop, conn_syncQuit, on_tuns.
  rewrite bind_eq. simpl modify. cbn beta iota. rewrite bind_eq. cbn [c_term set_link]. rewrite Ht.
  rewrite !bind_eq. cbn [gets modify]. cbn beta iota. rewrite lift_eq.
  destruct err as [err|], (c_handler c) as [h|] eqn:Eh; cbn; rewrite ?Eh; cbn; simpl in E; rewrite E; cbn; rewrite Hq;
    (eexists; split; [done|]); split; cbn; rewrite ?Eh, ?app_nil_r; auto.
Qed.

(** ** What a packet leaves alone *)

(** Arriving packets do not end the connection, and keep its tunnels in order. *)
Record framed (c c' : Connection) : Prop := {
  fr_term : c_term c' = c_term c;
  fr_quit : c_quit c' = c_quit c;
  fr_handler : c_handler c' = c_handler c;
  fr_tuns : forall pend given, tuns_ok (TSys (c_tuns c) pend given) -> tuns_ok (TSys (c_tuns c') pend given)
}.

Lemma framed_trans c1 c2 c3 : framed c1 c2 -> framed c2 c3 -> framed c1 c3.
Proof. intros [? ? ? ?] [? ? ? ?]. split; try congruence. auto. Qed.

Lemma framed_same (c c' : Connection) : c_term c' = c_term c -> c_quit c' = c_quit c ->
  c_handler c' = c_handler c -> c_tuns c' = c_tuns c -> framed c c'.
Proof. intros ? ? ? E. split; auto. by rewrite E. Qed.

Lemma transfer_term size chunk (s : tstate Q) :
  t_term (ts_tun (snd (handleTransfer size chunk s))) = t_term (ts_tun s).
Proof.
  destruct s as [t l g]. unfold handleTransfer, on_tun, go_sendTunnelAllowance.
  destruct (negb (size =? 0)); run.
  - destruct (t_chunkBuf t) as [[d n]|]; run; destruct (_ || _); run; by repeat case_match.
  - by repeat case_match.
Qed.

Lemma deliver_framed p (c : Connection) : framed c (snd (deliver p c)).
Proof.
  assert (forall A (m : M tuns A), (forall s pend given, tuns_ok (TSys s pend given) ->
    tuns_ok (TSys (snd (m s)) pend given)) -> framed c (snd (on_tuns m c))) as Htuns.
  { intros A m Hm. unfold on_tuns. rewrite lift_eq. split; simpl; auto. }
  assert (forall id n, framed c (snd (on_tuns (tun_handleResult id n) c))) as Hres.
  { intros id n. apply Htuns. intros s pend given Hok.
    eapply (tuns_ok_step _ (TSys _ pend given) Hok). eapply ts_result, surjective_pairing. }
  destruct p as [m|id r t|id|id r|id f|t e|id n|id|id n|id n|id n d|id r]; cbn.
  - unfold conn_handleBroadcast. destruct (limits (c_qos c)); [|by apply framed_same].
    destruct (quota_fits _ _ _); [|by apply framed_same]. by destruct (bcastPool (c_qos c)); apply framed_same.
  - unfold conn_handleRequest. destruct (limits (c_qos c)); [|by apply framed_same].
    destruct (quota_fits _ _ _); [|by apply framed_same]. by destruct (reqPool (c_qos c)); apply framed_same.
  - unfold conn_handleReply, on_reqs. rewrite lift_eq. by apply framed_same.
  - unfold conn_handleReply, on_reqs. rewrite lift_eq. by apply framed_same.
  - unfold conn_handleReply, on_reqs. rewrite lift_eq. by apply framed_same.
  - by apply framed_same.
  - by apply framed_same.
  - apply Hres.
  - apply Hres.
  - apply Htuns. intros s pend given Hok. eapply (tuns_ok_step _ (TSys _ pend given) Hok).
    eapply ts_allow, surjective_pairing.
  - unfold conn_handleTunnelTransfer. rewrite bind_eq. cbn [gets].
    destruct (is_live id (c_tuns c)); [|by apply framed_same]. unfold on_tunnel.
    destruct (tunnels (c_tuns c) !! id) as [t|] eqn:Et; [|by apply framed_same].
    pose proof (transfer_term (i64 n) d (TS t (c_link c) [])) as Htm.
    destruct (handleTransfer (i64 n) d (TS t (c_link c) [])) as [o s]. simpl in Htm |- *.
    split; simpl; auto. intros pend given Hok. eapply tuns_ok_store; [exact Hok|done|done|].
    intros i. simpl. destruct (decide (id = i)) as [<-|Hn].
    + rewrite lookup_insert_eq, Et. simpl. by rewrite Htm.
    + by rewrite lookup_insert_ne.
  - by apply framed_same.
Qed.

Lemma deliver_all_framed ps (c c' : Connection) : deliver_all ps c = (Ok tt, c') -> framed c c'.
Proof.
  revert c. induction ps as [|p ps IH]; intros c; simpl.
  - intros [= <-]. by apply framed_same.
  - rewrite bind_eq. pose proof (deliver_framed p c) as Hf. destruct (deliver p c) as [[[]|?|?| |] c1]; try done.
    intros Hd. eapply framed_trans; [exact Hf|by apply IH].
Qed.

(** ** Properties *)

(** C19: how a connection ends, whatever it received before. After a session of
    packets that all get handled, a graceful closure ends it without an error,
    and a packet that breaks off ends it with one. In both cases [process]
    returns once [Close] has been called; the socket and the termination channel
    are closed, every tunnel that was live is closed and no new one can be made,
    the service is told of the error if there was one, and [Close] gets it. *)
Theorem connection_ends ps (c c' : Connection) rest e pend given :
  Forall in_ok ps -> deliver_all ps c = (Ok tt, c') ->
  c_term c = false -> c_quit c = QuitWaiting -> tuns_ok (TSys (c_tuns c) pend given) ->
  (exists c2, process (RS (Reader (concat (map encode_in ps) ++ encode_close [] ++ rest) e) c)
     = (Ok tt, RS (Reader rest e) c2) /\ went_down None c' c2) /\
  (forall p cut tl, in_ok p -> encode_in p = cut ++ tl -> tl <> [] ->
     exists err i c2, process (RS (Reader (concat (map encode_in ps) ++ cut) e) c)
       = (Ok tt, RS i c2) /\ went_down (Some err) c' c2).
Proof.
  intros Hp Hd Ht Hq Hok. pose proof (deliver_all_framed _ _ _ Hd) as [Ht' Hq' _ Hok'].
  rewrite Ht in Ht'. rewrite Hq in Hq'. specialize (Hok' _ _ Hok). split.
  - destruct (shutdown_spec None _ _ _ Ht' Hq' Hok') as (c2 & E & Hw).
    exists c2. split; [|done]. rewrite (process_packets ps (encode_close [] ++ rest) c c' e None (Reader rest e) Hp deliver_no_error Hd)
      by by rewrite loop_close by apply maxAlloc_int.
    unfold on_st. simpl. by rewrite E.
  - intros p cut tl Hin Hc Htl.
    destruct (process_truncated ps p cut tl c c' e Hp Hin deliver_no_error Hd Hc Htl) as (err & i & Hpr).
    destruct (shutdown_spec (Some err) _ _ _ Ht' Hq' Hok') as (c2 & E & Hw).
    exists err, i, c2. split; [|done]. rewrite Hpr. unfold on_st. simpl. by rewrite E.
Qed.

(** What a service sends for what its handler returned. *)
Definition answer_out (id : Z) (reply : slice) (fault : gostring) : OutPacket :=
  match fault with [] => OReply id (sbytes reply) | _ => OFault id fault end.

(** A request started in time. *)
Lemma run_request_cases id request timeout (c : Connection) h reply err f w g w2 env : isu64 id ->
  sh_HandleRequest h request = (reply, err) -> sized (sbytes reply) -> sized (default [] err) ->
  let c1 := f (request_started request c) in
  let c2 := g (add_call (CallRequest request) c1) in
  c_handler c1 = Some h -> usable (c_link c2) ->
  exists l, play (run_request false (id, request, timeout)) (CS c ((f, w) :: (g, w2) :: env))
    = (Ok tt, CS (set_link l c2) env) /\
    (stream (l_wr l) = sent c2 ++ encode (answer_out id reply (default [] err)) \/ ~ healthy (l_wr (c_link c2))).
Proof.
  intros Hid Er Hsr Hse c1 c2 Hh Hu. unfold run_request.
  rewrite (play_do _ _ _ tt (request_started request c)) by done. rewrite play_go. fold c1.
  rewrite (play_do _ _ c1 (Some h) c1) by (by simpl; rewrite Hh).
  rewrite (play_do _ _ _ tt (add_call (CallRequest request) c1)) by done. rewrite play_go. fold c2.
  rewrite Er, play_bind, play_catch.
  destruct (send_cases _ _ c2 env (sendReply_sends id reply (default [] err) Hid Hsr Hse) Hu)
    as [(l & E & _ & Hs)|(e & l & E & _ & Hh')]; rewrite E; exists l; (split; [done|]).
  - by left.
  - by right.
Qed.

(** C32: serving a request. One that fits the memory allowance is queued and
    accounted for, any other leaves the queue alone. When a worker starts it in
    time, the service handles it once and exactly one packet answers it: the
    fault if there is a message in it, the reply otherwise, so an error with an
    empty message arrives as a success; an expired one is dropped unanswered. Its
    memory is given back either way, and a link failure is not reported. [f] and
    [g] are what the others do before the handler is called and while it runs. *)
Theorem request_served id request timeout (c : Connection) lim p h f w g w2 env :
  isu64 id -> limits (c_qos c) = Some lim -> reqPool (c_qos c) = Some p -> pool_live p = true ->
  (exists c1, conn_handleRequest id request timeout c = (Ok tt, c1) /\
     if quota_fits (reqUsed (c_qos c)) (len request) (RequestMemory lim)
     then reqUsed (c_qos c1) = quota_add (reqUsed (c_qos c)) (len request) /\
       exists p1, reqPool (c_qos c1) = Some p1 /\ pool_queued p1 = pool_queued p ++ [(id, request, timeout)]
     else c1 = c) /\
  let run expired := play (run_request expired (id, request, timeout)) (CS c ((f, w) :: (g, w2) :: env)) in
  let c1 := request_started request c in
  let c2 := g (add_call (CallRequest request) (f c1)) in
  reqUsed (c_qos c1) = quota_sub (reqUsed (c_qos c)) (len request) /\
  (c_handler (f c1) = Some h -> usable (c_link c2) ->
   let '(reply, err) := sh_HandleRequest h request in
   sized (sbytes reply) -> sized (default [] err) ->
   exists l, run false = (Ok tt, CS (set_link l c2) env) /\
     (stream (l_wr l) = sent c2 ++ encode (match default [] err with
        | [] => OReply id (sbytes reply) | _ => OFault id (default [] err) end) \/
      ~ healthy (l_wr (c_link c2)))) /\
  run true = (Ok tt, CS c1 ((f, w) :: (g, w2) :: env)).
Proof.
  intros Hid Hlim Hpool Hlive. split; [|cbn zeta; splits; [done| |done]].
  - unfold conn_handleRequest. rewrite Hlim, Hpool. destruct (quota_fits _ _ _); [|by eexists].
    eexists. split; [done|]. split; [done|]. eexists. split; [done|].
    by rewrite (Schedule_queued req_job), Hlive.
  - intros Hh Hu. destruct (sh_HandleRequest h request) as [reply err] eqn:Er. intros Hsr Hse.
    exact (run_request_cases id request timeout c h reply err f w g w2 env Hid Er Hsr Hse Hh Hu).
Qed.

(** The connection with another subscription at an address. *)
Definition put_topic (p : nat) (t : topic (P := P) (TopicHandler := TH)) (c : Connection) : Connection :=
  let s := c_subs c in set_subs (Subs (subIdx s) (subLive s) (<[p := t]> (topics s))) c.

Lemma on_topic {A} p (m : M (topic (P := P) (TopicHandler := TH)) A) (c : Connection) t :
  topics (c_subs c) !! p = Some t ->
  on_subs (upd_topic p m) c = (fst (m t), put_topic p (snd (m t)) c).
Proof. intros Ht. unfold on_subs. by rewrite lift_eq, (upd_topic_eq _ _ _ _ Ht). Qed.

(** An event that a worker starts. *)
Lemma serve_event_spec p n event (c : Connection) t f w env : topics (c_subs c) !! p = Some t ->
  exists t', play (serve_event p (n, event)) (CS c ((f, w) :: env))
    = (Ok tt, CS (add_call (CallEvent (top_handler t) event) (f (put_topic p t' c))) env) /\
    eventUsed t' = quota_sub (eventUsed t) (len event).
Proof.
  intros Ht. eexists. unfold serve_event.
  rewrite (play_do _ _ _ _ _ _ (on_topic p (run_event (n, event)) c t Ht)), play_go, play_atomic. by split.
Qed.

(** C28: an event, from the goroutine the receiver starts to the user's handler. A
    name without a subscription drops it. Otherwise it reaches the subscription the
    name had at the lookup, whatever happens in between ([f], [g], [h]): if it has
    the memory the event is accounted for and queued behind the earlier ones, unless
    the subscription has ended, otherwise it is dropped; and when a worker starts
    it, the subscription's own handler is called with the event as it arrived and
    its memory is given back. *)
Theorem event_delivered topic event (c : Connection) f w g w1 h w2 env :
  let run := play (run_go (GoPublish topic event)) (CS c ((f, w) :: (g, w1) :: (h, w2) :: env)) in
  (subLive (c_subs c) !! topic = None -> run = (Ok tt, CS c ((f, w) :: (g, w1) :: (h, w2) :: env))) /\
  (forall p t, subLive (c_subs c) !! topic = Some p -> topics (c_subs (f c)) !! p = Some t ->
   let c1 := put_topic p (snd (top_admit event t)) (f c) in
   if quota_fits (eventUsed t) (len event) (EventMemory (top_limits t)) then
     forall t2 t3, topics (c_subs (g c1)) !! p = Some t2 ->
     let c2 := h (put_topic p (snd (top_count event t2)) (g c1)) in topics (c_subs c2) !! p = Some t3 ->
     exists n t', run = (Ok tt, CS (put_topic p t' c2) env) /\
       pool_queued (eventPool t') = pool_queued (eventPool t3) ++ (if pool_live (eventPool t3) then [(n, event)] else []) /\
       eventUsed (snd (top_count event t2)) = quota_add (eventUsed t2) (len event) /\
       top_handler t' = top_handler t3 /\
       forall (d : Connection) t4 k w3 env', topics (c_subs d) !! p = Some t4 ->
         exists t5, play (serve_event p (n, event)) (CS d ((k, w3) :: env'))
           = (Ok tt, CS (add_call (CallEvent (top_handler t4) event) (k (put_topic p t5 d))) env') /\
           eventUsed t5 = quota_sub (eventUsed t4) (len event)
   else run = (Ok tt, CS c1 ((g, w1) :: (h, w2) :: env)) /\ eventPool (snd (top_admit event t)) = eventPool t).
Proof.
  intros run. subst run. cbn [run_go]. unfold conn_handlePublish.
  rewrite (play_do _ _ c (subLive (c_subs c) !! topic) c) by (unfold on_subs; rewrite lift_eq; by destruct c).
  split; [by intros ->|]. intros p t Hp Ht. rewrite Hp, play_go. cbn zeta.
  rewrite (play_do _ _ _ _ _ _ (on_topic p (top_admit event) (f c) t Ht)). set (c1 := put_topic _ _ (f c)).
  destruct (quota_fits _ _ _); [|done]. rewrite play_go. intros t2 t3 H2.
  rewrite (play_do _ _ _ _ _ _ (on_topic p (top_count event) (g c1) t2 H2)), play_go.
  set (c2 := h _). intros H3. rewrite play_atomic, (on_topic _ _ _ _ H3). do 2 eexists. splits; [done| |done|done|].
  - simpl. rewrite (Schedule_queued event_job). destruct (pool_live _); by rewrite ?app_nil_r.
  - intros d t4 k w3 env'. apply serve_event_spec.
Qed.

(** C39: an inbound tunnel, from the packet that announces it to the user's
    handler. On a dropped connection the goroutine ends without a trace;
    otherwise a fresh tunnel enters the table, gets the announced chunk limit, is
    confirmed to the relay and grants the peer its whole buffer, and then the
    handler is given it. If either packet cannot be sent the handler is not
    called and the tunnel is in the table no more. *)
Theorem inbound_tunnel initId chunkLimit (c : Connection) f w0 g w1 k w2 j w3 env : isu64 initId ->
  isu64 (tunIdx (c_tuns c)) ->
  let s := CS c ((f, w0) :: (g, w1) :: (k, w2) :: (j, w3) :: env) in
  let run := play (run_go (GoTunnelInit initId chunkLimit)) s in
  let id := tunIdx (c_tuns c) in
  let fails l := ~ healthy (l_wr l) /\
    exists c' env', run = (Ok tt, CS c' env') /\ is_live id (c_tuns c') = false in
  (tunLive (c_tuns c) = None -> run = (Ok tt, s)) /\
  (tunLive (c_tuns c) <> None -> forall t,
     let c1 := f (with_tunnel c) in
     tunnels (c_tuns c1) !! id = Some t ->
     let c2 := g (set_tuns (put_tunnel id (set_chunkLimit chunkLimit t) (c_tuns c1)) c1) in
     usable (c_link c2) ->
     fails (c_link c2) \/
     (exists l, as_good (c_link c2) l /\ stream (l_wr l) = sent c2 ++ encode (OTunConfirm initId id) /\
        let c3 := k (set_link l c2) in
        usable (c_link c3) ->
        fails (c_link c3) \/
        exists l', stream (l_wr l') = sent c3 ++ encode (OTunAllow id defaultTunnelBuffer) /\
          let c4 := j (set_link l' c3) in
          (is_Some (c_handler c4) -> run = (Ok tt, CS (add_call (CallTunnel id) c4) env)))).
Proof.
  intros Hi Hid s run id fails. subst s run fails. cbn [run_go].
  pose proof (acceptTunnel_cases initId chunkLimit c f w0 g w1 k w2 ((j, w3) :: env) Hi Hid) as [Hn Hs].
  unfold go_handleTunnelInit. rewrite play_bind, play_catch.
  split; [intros Hd; by rewrite (Hn Hd)|].
  intros Hd t Ht Hu. destruct (Hs Hd t Ht Hu) as [(Hh & e & c' & env' & E & Hl)|(l & Hg & Hl & Hs2)].
  - left. split; [done|]. rewrite E. eauto.
  - right. exists l. split; [exact Hg|]. split; [exact Hl|]. cbn zeta. intros Hu3.
    destruct (Hs2 Hu3) as [(Hh & e & c' & env' & E & Hl')|(l' & E & Hl')].
    + left. split; [done|]. rewrite E. eauto.
    + right. exists l'. split; [exact Hl'|]. set (c4 := j _). intros [h Hh4]. rewrite E. cbn [fst snd caught].
      rewrite play_go. fold c4. by rewrite (play_do _ _ c4 (Some h) c4) by (by simpl; rewrite Hh4).
Qed.

(** Packets the relay should not have sent crash the process. A broadcast or a
    request that reaches a client, which has no limits, and a construction result
    for a tunnel that is not in the table dereference nil. *)
Theorem unexpected_packets_crash p (c : Connection) rest e : in_ok p ->
  match p with
  | IBroadcast _ | IRequest _ _ _ => limits (c_qos c) = None
  | ITunTimeout id | ITunResult id _ => is_live id (c_tuns c) = false
  | _ => False
  end ->
  exists s, process (RS (Reader (encode_in p ++ rest) e) c) = (Panic nil_deref, s).
Proof.
  intros Hin Hp. assert (fst (deliver p c) = Panic nil_deref) as Hd.
  { destruct p; try done; cbn.
    - unfold conn_handleBroadcast. by rewrite Hp.
    - unfold conn_handleRequest. by rewrite Hp.
    - unfold conn_handleTunnelResult, on_tuns. rewrite lift_eq. unfold tun_handleResult. run. by rewrite Hp.
    - unfold conn_handleTunnelResult, on_tuns. rewrite lift_eq. unfold tun_handleResult. run. by rewrite Hp. }
  pose proof (loop_packets [p] (length (encode_in p ++ rest)) rest e c ltac:(by constructor) deliver_no_error)
    as Hl.
  cbn zeta in Hl. simpl concat in Hl. rewrite app_nil_r in Hl. simpl deliver_all in Hl.
  rewrite bind_eq in Hl. destruct (deliver p c) as [o c1]. simpl in Hd. subst o.
  destruct Hl as [i Hl]. exists (RS i c1). unfold process. rewrite bind_eq. cbn [r_in rd_data].
  change (length [p] + ?n)%nat with (S n) in Hl. by rewrite Hl.
Qed.
End events.

(** ** The properties at concrete inputs *)

(** A connection whose [Close] is waiting, and an event for it. *)
Definition closing_conn : Connection (list slice) list_pool nat := set_quit QuitWaiting sample_conn.

Definition sample_packets : list InPacket := [IPublish (str "news") [x61]; ITunAllow 9 5].

Lemma sample_packets_ok : Forall (@in_ok amd64) sample_packets.
Proof. repeat constructor; vm_compute; congruence. Qed.

Lemma sample_tuns_ok : tuns_ok (TSys (Q := list slice) tuns_init ∅ ∅).
Proof.
  split; simpl; try set_solver. by intros id [? Hid].
Qed.

Lemma connection_ends_witness :
  exists c2, @process amd64 _ (@conn_handlers amd64 _ _ _ _ _)
      (RS (Reader (concat (map encode_in sample_packets) ++ encode_close [] ++ []) EOF) closing_conn)
    = (Ok tt, RS (Reader [] EOF) c2) /\
    went_down None (add_go [GoPublish (str "news") [x61]] closing_conn) c2.
Proof.
  apply (@connection_ends amd64 _ _ _ _ _ sample_packets closing_conn
    (add_go [GoPublish (str "news") [x61]] closing_conn) [] EOF ∅ ∅).
  - exact sample_packets_ok.
  - reflexivity.
  - reflexivity.
  - reflexivity.
  - exact sample_tuns_ok.
Defined.

(** A service that answers every request with one byte. *)
Definition sample_service : Connection (list slice) list_pool nat :=
  Conn (Some (mkServiceHandler None (λ _, (Some [x62], None)))) (Reqs 0 ∅ ∅) sub_init tuns_init
    (Qos (Some (mkServiceLimits 1 100 1 100)) 0 (Some (pool_Start (NewThreadPool 1))) 0
       (Some (pool_Start (NewThreadPool 1))) 0)
    idle_link QuitIdle false [] [].

Lemma request_served_witness :
  exists l, play (run_request false (7, [x61], 1000000)) (CS sample_service [(id, WakeTerm); (id, WakeTerm)])
    = (Ok tt, CS (set_link l (add_call (CallRequest [x61]) (request_started [x61] sample_service))) []) /\
    stream (l_wr l) = encode (OReply 7 [x62]).
Proof.
  destruct (request_served 7 [x61] 1000000 sample_service (mkServiceLimits 1 100 1 100)
    (pool_Start (NewThreadPool 1)) (mkServiceHandler None (λ _, (Some [x62], None))) id WakeTerm id WakeTerm [])
    as (_ & _ & Hs & _).
  - vm_compute. split; congruence.
  - reflexivity.
  - reflexivity.
  - reflexivity.
  - destruct (Hs eq_refl (sample_usable _ eq_refl) eq_refl eq_refl) as (l & E & [Hl|Hn]).
    + exists l. split; [exact E|exact Hl].
    + destruct Hn. apply idle_healthy.
Defined.

(** A subscription gets its event. *)
Definition subscribed_conn : Connection (list slice) list_pool nat :=
  set_subs (snd (sub_insert (str "news") 3%nat (mkTopicLimits 1 100) sub_init)) sample_conn.

Lemma event_delivered_witness : exists t' c',
  play (run_go (GoPublish (str "news") [x61])) (CS subscribed_conn [(id, WakeTerm); (id, WakeTerm); (id, WakeTerm)])
    = (Ok tt, CS (put_topic 0 t' c') []) /\
  exists n, pool_queued (eventPool t') = [(n, [x61])].
Proof.
  destruct (event_delivered (str "news") [x61] subscribed_conn id WakeTerm id WakeTerm id WakeTerm []) as [_ Hp].
  specialize (Hp 0%nat (newTopic 3%nat (mkTopicLimits 1 100)) eq_refl eq_refl).
  destruct (Hp (mkTopic 3%nat (mkTopicLimits 1 100) 1 (ListPool [] true true) 0)
    (mkTopic 3%nat (mkTopicLimits 1 100) 1 (ListPool [] true true) 1) eq_refl eq_refl) as (n & t' & E & Hn & _).
  exists t'. eexists. split; [exact E|]. exists n. exact Hn.
Defined.

Lemma inbound_tunnel_witness :
  exists l', play (run_go (GoTunnelInit 3 1000))
      (CS sample_service [(id, WakeTerm); (id, WakeTerm); (id, WakeTerm); (id, WakeTerm)])
    = (Ok tt, CS (add_call (CallTunnel 0) (set_link l'
        (set_tuns (put_tunnel 0 (set_chunkLimit 1000 (fresh_tunnel 0)) (c_tuns (with_tunnel sample_service)))
           (with_tunnel sample_service)))) []).
Proof.
  destruct (inbound_tunnel 3 1000 sample_service id WakeTerm id WakeTerm id WakeTerm id WakeTerm [])
    as [_ Hs].
  - vm_compute. split; congruence.
  - vm_compute. split; congruence.
  - destruct (Hs ltac:(discriminate) (fresh_tunnel 0)) as [[Hh _]|(l & [Hg Hh] & _ & Hs2)].
    + reflexivity.
    + apply sample_usable. reflexivity.
    + destruct Hh. apply idle_healthy.
    + destruct (Hs2 Hg) as [[Hn _]|(l' & _ & E)].
      * destruct Hn. apply Hh, idle_healthy.
      * exists l'. apply E. by eexists.
Defined.

Lemma unexpected_packets_crash_witness :
  exists s, @process amd64 _ (@conn_handlers amd64 _ _ _ _ _)
    (RS (Reader (encode_in (IBroadcast [x61]) ++ []) EOF) sample_conn) = (Panic nil_deref, s).
Proof.
  apply (@unexpected_packets_crash amd64 _ _ _ _ _ (IBroadcast [x61]) sample_conn [] EOF).
  - vm_compute. congruence.
  - reflexivity.
Defined.
