(* ===== verification/EndToEnd.v ===== *)
(** * From one application to another

    The parts put together: what a call of one connection puts on the wire, what
    another connection makes of the packets a relay forwards, and what comes
    back. The relay itself is not modelled: each theorem names the packets it
    takes and the packets it is to deliver, which carry the same contents, with
    the numbers of the receiving side. *)

From Stdlib Require Import ZArith Lia Strings.Byte Strings.String.
From stdpp Require Import base gmap strings list.
From S2P Require Import Prelude Threads Bufio Wire Packets Receiver Tunnel Limits Quota Topic Requests Tunnels Connection Events.

Open Scope Z_scope.

Section endtoend.
Context `{GoRuntime} {Q : Type} `{Queue slice Q} {P : Type -> Type} `{ThreadPool P} {TH : Type}.
Local Abbreviation Connection := (Connection Q P TH).

(** The packets [ps] at the head of its input take the receiver's loop from the
    connection [d] to [d'], one turn each. *)
Definition arrive (ps : list InPacket) (d d' : Connection) : Prop := forall fuel rest e,
  process_loop (length ps + fuel) (RS (Reader (concat (map encode_in ps) ++ rest) e) d)
  = process_loop fuel (RS (Reader rest e) d').

Lemma arrive_all ps (d d' : Connection) : Forall in_ok ps -> deliver_all ps d = (Ok tt, d') -> arrive ps d d'.
Proof.
  intros Hp Hd fuel rest e. pose proof (loop_packets ps fuel rest e d Hp deliver_no_error) as Hl.
  cbn zeta in Hl. by rewrite Hd in Hl.
Qed.

Lemma arrive_one p (d d' : Connection) : in_ok p -> deliver p d = (Ok tt, d') -> arrive [p] d d'.
Proof.
  intros Hp Hd. apply arrive_all; [by constructor|]. simpl. by rewrite bind_eq, Hd.
Qed.

(** ** Broadcasts *)

(** C40: a broadcast, from the caller to the handler of a member. On a healthy link
    the call returns nil with the packet on the stream; when a member of the
    cluster that has the memory receives the message, it is queued behind the
    earlier ones and accounted for; and when a worker starts it, whatever the
    member has done since, the handler is called once, with the message as it
    was sent, and its memory is given back. *)
Theorem broadcast_end_to_end cluster m (c : Connection) env (d : Connection) lim p :
  cluster <> [] -> m <> [] -> sized cluster -> fits m -> usable (c_link c) -> healthy (l_wr (c_link c)) ->
  limits (c_qos d) = Some lim -> bcastPool (c_qos d) = Some p -> pool_live p = true ->
  quota_fits (bcastUsed (c_qos d)) (len m) (BroadcastMemory lim) = true ->
  (exists l, play (Broadcast cluster (Some m)) (CS c env) = (Ok tt, CS (set_link l c) env) /\
     stream (l_wr l) = sent c ++ encode (OBroadcast cluster m)) /\
  exists d1 p1 job, arrive [IBroadcast m] d d1 /\ bcastPool (c_qos d1) = Some p1 /\
    pool_queued p1 = pool_queued p ++ [job] /\
    bcastUsed (c_qos d1) = quota_add (bcastUsed (c_qos d)) (len m) /\
    forall (d2 : Connection) h f w env', let d3 := broadcast_started m d2 in
      bcastUsed (c_qos d3) = quota_sub (bcastUsed (c_qos d2)) (len m) /\
      (c_handler (f d3) = Some h ->
       play (run_broadcast job) (CS d2 ((f, w) :: env')) = (Ok tt, CS (add_call (CallBroadcast m) (f d3)) env')).
Proof.
  intros Hc Hm Hsc Hf Hu Hh Hlim Hp Hl Hq.
  assert (sized m) as Hsm by (unfold sized, fits in *; pose proof maxAlloc_int; lia).
  split.
  - unfold Broadcast. rewrite !decide_False by done.
    destruct (send_cases _ _ c env (sendBroadcast_sends cluster (Some m) Hsc Hsm) Hu)
      as [(l & E & _ & Hs)|(e & l & _ & _ & Hn)]; [by exists l|done].
  - assert (conn_handleBroadcast m d = conn_handleBroadcast m d) as E by done.
    unfold conn_handleBroadcast in E at 2. rewrite Hlim, Hq, Hp in E. do 3 eexists.
    split; [apply arrive_one; [exact Hf|exact E]|]. splits; [done| |done|].
    + rewrite (Schedule_queued bcast_job), Hl. done.
    + intros d2 h f w env' d3. split; [done|]. intros Hh2. unfold run_broadcast.
      rewrite (play_do _ _ _ tt d3), play_go by done.
      by rewrite (play_do _ _ _ (Some h) (f d3)) by (by simpl; rewrite Hh2).
Qed.

(** ** Requests *)

(** What the relay hands to the requester for a service's [answer_out]. *)
Definition answer_in (id : Z) (reply : slice) (fault : gostring) : InPacket :=
  match fault with [] => IReply id (sbytes reply) | _ => IFault id fault end.

(** What the call makes of it. *)
Definition answer_result (reply : slice) (fault : gostring) : outcome slice :=
  match fault with [] => Ok (Some (sbytes reply)) | _ => Err (RemoteError fault) end.
Definition answer_wake (fault : gostring) : cwake := match fault with [] => WakeReply | _ => WakeErr end.

(** An answer that arrives while the call waits is what it returns. *)
Lemma answer_returned cluster request timeout (c : Connection) f w0 g w2 env l reply fault :
  cluster <> [] -> request <> [] -> 1 <= timeout_ms timeout ->
  let id := reqIdx (c_reqs c) in
  let c1 := f (with_request c) in
  let arrives c := snd (deliver (answer_in id reply fault) c) in
  let env1 := (arrives, answer_wake fault) :: (g, w2) :: env in
  reqReps (c_reqs c1) !! id = Some None -> reqErrs (c_reqs c1) !! id = Some None ->
  play (atomic (on_sock (sendRequest id cluster (Some request) (timeout_ms timeout)))) (CS c1 env1)
    = (Ok tt, CS (set_link l c1) env1) ->
  deliver (answer_in id reply fault) (set_link l c1) = (Ok tt, arrives (set_link l c1)) /\
  exists c3, play (Request cluster (Some request) timeout) (CS c ((f, w0) :: env1))
    = (answer_result reply fault, CS c3 env) /\
    reqReps (c_reqs c3) !! id = None /\ reqErrs (c_reqs c3) !! id = None.
Proof.
  intros Hc Hr Hms id c1 arrives env1 Hrep Herr E.
  assert (exists r, deliver (answer_in id reply fault) (set_link l c1) = (Ok tt, set_reqs r (set_link l c1)) /\
    match fault with
    | [] => exists r', req_take_reply id r = Some (sbytes reply, r')
    | _ => exists r', req_take_err id r = Some (RemoteError fault, r')
    end) as (r & Ed & Htake).
  { unfold answer_in. destruct fault; cbn [deliver handleReply conn_handlers];
      unfold conn_handleReply, on_reqs; rewrite lift_eq; cbn; unfold chan_send; rewrite ?Hrep, ?Herr;
      (eexists; split; [done|]); eexists; unfold req_take_reply, req_take_err; simpl; by rewrite lookup_insert_eq. }
  assert (arrives (set_link l c1) = set_reqs r (set_link l c1)) as Ha by (unfold arrives; by rewrite Ed).
  split; [by rewrite Ha|].
  rewrite (Request_registered cluster request timeout c f w0 env1 Hc Hr Hms). fold id c1.
  rewrite play_bind, play_catch, play_bind, E. unfold Request_select, env1. rewrite play_select, Ha.
  unfold answer_wake, answer_result.
  destruct fault as [|b fault]; destruct Htake as [r' Htake]; conn_run; rewrite Htake; conn_run;
    eexists; (split; [done|]); apply cleaned_gone.
Qed.

(** C21: a request, from the caller to the service and back. The request goes out
    under a number of the caller's; a service with the memory queues what it
    receives; when a worker starts it in time the handler is called once with
    the request as it was sent, and its result is sent back under the number the
    service knows. Once the caller's connection receives that result under the
    caller's number, the call returns it: the reply's bytes, or the fault as a
    [RemoteError]. Nothing is left in the caller's tables. *)
Theorem request_end_to_end cluster request timeout (c : Connection) f w0 k w3 env
  (d : Connection) lim p h rid tmo reply err :
  cluster <> [] -> request <> [] -> sized cluster -> fits request ->
  - 2 ^ 63 <= timeout < 2 ^ 63 -> 1 <= timeout_ms timeout ->
  let id := reqIdx (c_reqs c) in
  let c1 := f (with_request c) in
  isu64 id -> usable (c_link c1) -> healthy (l_wr (c_link c1)) ->
  reqReps (c_reqs c1) !! id = Some None -> reqErrs (c_reqs c1) !! id = Some None ->
  limits (c_qos d) = Some lim -> reqPool (c_qos d) = Some p -> pool_live p = true ->
  quota_fits (reqUsed (c_qos d)) (len request) (RequestMemory lim) = true ->
  isu64 rid -> isu64 tmo -> sh_HandleRequest h request = (reply, err) ->
  let fault := default [] err in
  fits (sbytes reply) -> fits fault ->
  exists l, stream (l_wr l) = sent c1 ++ encode (ORequest id cluster request (timeout_ms timeout)) /\
    (exists d1 p1 job, arrive [IRequest rid request tmo] d d1 /\ reqPool (c_qos d1) = Some p1 /\
       pool_queued p1 = pool_queued p ++ [job] /\
       forall (d2 : Connection) f' w1 g' w2 env',
         let d3 := f' (request_started request d2) in
         let d4 := g' (add_call (CallRequest request) d3) in
         c_handler d3 = Some h -> usable (c_link d4) -> healthy (l_wr (c_link d4)) ->
         exists l', play (run_request false job) (CS d2 ((f', w1) :: (g', w2) :: env')) = (Ok tt, CS (set_link l' d4) env') /\
           stream (l_wr l') = sent d4 ++ encode (answer_out rid reply fault)) /\
    (let arrives c := snd (deliver (answer_in id reply fault) c) in
     arrive [answer_in id reply fault] (set_link l c1) (arrives (set_link l c1)) /\
     exists c3, play (Request cluster (Some request) timeout)
         (CS c ((f, w0) :: (arrives, answer_wake fault) :: (k, w3) :: env)) = (answer_result reply fault, CS c3 env) /\
       reqReps (c_reqs c3) !! id = None /\ reqErrs (c_reqs c3) !! id = None).
Proof.
  intros Hc Hr Hsc Hf Ht Hms id c1 Hid Hu Hh Hrep Herr Hlim Hp Hl Hq Hrid Htmo Hres fault Hfr Hff.
  assert (sized request) as Hsr by (unfold sized, fits in *; pose proof maxAlloc_int; lia).
  assert (sized (sbytes reply) /\ sized fault) as [Hsrep Hsf] by
    (unfold sized, fits in *; pose proof maxAlloc_int; lia).
  pose proof (timeout_range timeout Ht Hms) as Htr.
  set (arrives := fun c : Connection => snd (deliver (answer_in id reply fault) c)).
  destruct (send_cases _ _ c1 ((arrives, answer_wake fault) :: (k, w3) :: env)
    (sendRequest_sends id cluster (Some request) (timeout_ms timeout) Hid Hsc Hsr) Hu)
    as [(l & E & _ & Hs)|(e & l & _ & _ & Hn)]; [|done].
  rewrite u64_id in Hs by lia. exists l. splits; [exact Hs| |].
  - assert (conn_handleRequest rid request (duration_ms tmo) d = conn_handleRequest rid request (duration_ms tmo) d)
      as Eq by done.
    unfold conn_handleRequest in Eq at 2. rewrite Hlim, Hq, Hp in Eq. do 3 eexists.
    split; [apply arrive_one; [exact (conj Hrid (conj Hf Htmo))|exact Eq]|]. splits; [done| |].
    + rewrite (Schedule_queued req_job), Hl. done.
    + intros d2 f' w1 g' w2 env' d3 d4 Hh2 Hu2 Hl2.
      destruct (run_request_cases rid request (duration_ms tmo) d2 h reply err f' w1 g' w2 env'
        Hrid Hres Hsrep Hsf Hh2 Hu2) as (l' & Er & [Hsent|Hn]); [by exists l'|done].
  - cbn zeta. fold arrives. destruct (answer_returned cluster request timeout c f w0 k w3 env l reply fault
      Hc Hr Hms Hrep Herr E) as [Ed Hreq].
    split; [|exact Hreq]. apply arrive_one; [|exact Ed].
    unfold answer_in. destruct fault; by split.
Qed.

(** ** Tunnels *)

(** A transfer as the relay forwards it to the tunnel [id]. *)
Definition transfer_in (id : Z) (p : Z * list byte) : InPacket := ITunTransfer id (u64 (fst p)) (snd p).

(** What is due to be granted does not matter to a transfer, and it sends nothing. *)
Lemma handleTransfer_frame size chunk (t : Tunnel Q) l g :
  handleTransfer size chunk (TS t l g) =
  (fst (handleTransfer size chunk (TS t l [])),
   TS (ts_tun (snd (handleTransfer size chunk (TS t l [])))) l
     (g ++ ts_go (snd (handleTransfer size chunk (TS t l []))))).
Proof.
  unfold handleTransfer, on_tun, go_sendTunnelAllowance.
  destruct (negb (size =? 0)); run.
  - destruct (t_chunkBuf t) as [[d n]|]; run; destruct (_ || _); run; rewrite ?app_nil_r; try done;
      by case_match; rewrite ?app_nil_r.
  - by case_match; rewrite ?app_nil_r.
Qed.

(** Transfers for a live tunnel run on it one after the other. *)
Lemma deliver_transfers id ps (c : Connection) t t' g0 g :
  tunnels (c_tuns c) !! id = Some t -> is_live id (c_tuns c) = true ->
  Forall (λ p, - 2 ^ 63 <= fst p < 2 ^ 63) ps ->
  transfer_all ps (TS t (c_link c) g0) = (Ok tt, TS t' (c_link c) g) ->
  exists g1, g = g0 ++ g1 /\ deliver_all (map (transfer_in id) ps) c
    = (Ok tt, add_go (map (λ x, GoAllowance (fst x) (snd x)) g1) (set_tuns (put_tunnel id t' (c_tuns c)) c)).
Proof.
  revert c t g0. induction ps as [|[size chunk] ps IH]; intros c t g0 Ht Hl Hp; simpl.
  - intros [= -> ->]. exists []. rewrite app_nil_r. split; [done|].
    destruct c as [? ? ? [? ? ts ? ?] ? ? ? ? ? ?]. unfold add_go, set_tuns, put_tunnel. simpl in *.
    by rewrite app_nil_r, insert_id.
  - apply Forall_cons in Hp as [Hp1 Hp2]. rewrite bind_eq, handleTransfer_frame.
    unfold conn_handleTunnelTransfer. simpl in Hp1. rewrite i64_u64 by done.
    rewrite bind_eq. rewrite bind_eq. cbn [gets]. rewrite Hl. unfold on_tunnel. rewrite Ht.
    rewrite (handleTransfer_frame size chunk t (c_link c) []).
    destruct (handleTransfer size chunk (TS t (c_link c) [])) as [[[]|?|?| |] [t1 l1 g1]];
      cbn [fst snd ts_tun ts_go ts_link]; try done. intros Htr.
    set (c1 := add_go _ _).
    destruct (IH c1 t1 (g0 ++ g1)) as (g2 & -> & E); [by apply lookup_insert_eq|done|done|exact Htr|].
    exists (g1 ++ g2). split; [by rewrite app_assoc|]. rewrite E. f_equal.
    destruct c as [? ? ? [? ? ts ? ?] ? ? ? ? ? ?]. unfold c1, add_go, set_tuns, set_link, put_tunnel. simpl.
    by rewrite insert_insert_eq, map_app, app_assoc.
Qed.

(** C20: a message sent over a tunnel, from [Send] to the other application's [Recv].
    The transfers a successful [Send] put on the stream, forwarded to the other
    connection under its number for the tunnel, queue exactly that message at
    that tunnel, raise its signal, grant back only what an earlier unfinished
    message had left in its buffer, and touch no other tunnel; a [Recv] that finds
    nothing queued before it returns it as it was sent. *)
Theorem tunnel_end_to_end G `{!PreOrder G} turns m timeout id limit (s s' : tstate Q) e e' id' (d : Connection) t :
  isu64 id -> 0 < limit < 2 ^ 63 -> m <> [] -> len m <= 2 ^ 62 -> fits m ->
  send_state id limit s -> fair_env G e -> (length e < turns)%nat ->
  play (Send turns (Some m) timeout) (CS s e) = (Ok tt, CS s' e') ->
  isu64 id' -> is_live id' (c_tuns d) = true -> tunnels (c_tuns d) !! id' = Some t ->
  exists ps d' t',
    carries G id ps (out s) (out s') /\
    arrive (map (transfer_in id') ps) d d' /\
    tunnels (c_tuns d') = <[id' := t']> (tunnels (c_tuns d)) /\ tunLive (c_tuns d') = tunLive (c_tuns d) /\
    queue_items (t_itoaBuf t') = queue_items (t_itoaBuf t) ++ [Some m] /\ t_itoaSign t' = true /\
    c_go d' = c_go d ++ map (λ x, GoAllowance (fst x) (snd x)) (partial_grant t) /\
    (queue_items (t_itoaBuf t) = [] -> forall timeout' l g env, exists q, queue_items q = [] /\
       play (Recv timeout') (CS (TS t' l g) env)
       = (Ok (Some m), CS (TS (set_itoa q true t') l (g ++ [(t_id t', len m)])) env)).
Proof.
  intros Hid Hl Hm Hlen Hf Hs He Htu HS Hid' Hlive Ht.
  set (ps := parts (Z.to_nat limit) m 0). assert (0 < Z.to_nat limit)%nat as Hlim by lia.
  pose proof (parts_bounds (Z.to_nat limit) m Hlim) as Hb. fold ps in Hb.
  pose proof (transfer_parts (Z.to_nat limit) m t (c_link d) [] Hlim Hm Hf) as Htr. fold ps in Htr.
  assert (Forall (λ p, - 2 ^ 63 <= fst p < 2 ^ 63) ps) as Hr.
  { eapply Forall_impl; [exact Hb|]. intros p [? _]. lia. }
  destruct (deliver_transfers id' ps d t _ [] _ Ht Hlive Hr Htr) as (g1 & Eg & E).
  simpl in Eg. subst g1. do 3 eexists. split; [by eapply (Send_ok G turns)|].
  split; [apply arrive_all; [|exact E]|].
  { apply Forall_map. eapply Forall_impl; [exact Hb|]. intros p [_ Hsz].
    exact (conj Hid' (conj (u64_range (fst p)) (Z.le_trans _ _ _ Hsz Hf))). }
  splits; try done; [apply queue_Push_items|]. intros Hq timeout' l g env.
  assert (queue_items (t_itoaBuf (queued (Some m) t)) = [Some m]) as Hq1.
  { simpl. by rewrite queue_Push_items, Hq. }
  destruct (fetchMessage_cons (queued (Some m) t) l g (Some m) [] Hq1) as (q & Hq' & Ef).
  exists q. split; [done|]. unfold Recv. by rewrite (play_do _ _ _ _ _ _ Ef).
Qed.
End endtoend.

(** ** The properties at concrete inputs *)

(** A client, and a service that answers every request with one byte. *)
Lemma broadcast_end_to_end_witness :
  exists d1 p1 job, @arrive amd64 _ _ _ _ _ [IBroadcast [x61]] sample_service d1 /\
    bcastPool (c_qos d1) = Some p1 /\ pool_queued p1 = [job] /\
    play (run_broadcast job) (CS (set_qos (c_qos d1) sample_service) [(id, WakeTerm)])
      = (Ok tt, CS (add_call (CallBroadcast [x61]) (broadcast_started [x61] (set_qos (c_qos d1) sample_service))) []).
Proof.
  destruct (@broadcast_end_to_end amd64 _ _ _ _ _ (str "cluster") [x61] sample_conn [] sample_service
    (mkServiceLimits 1 100 1 100) (pool_Start (NewThreadPool 1))) as [_ (d1 & p1 & job & Ha & Hp & Hq & Hu & Hr)].
  - discriminate.
  - discriminate.
  - reflexivity.
  - vm_compute. congruence.
  - apply sample_usable. reflexivity.
  - apply idle_healthy.
  - reflexivity.
  - reflexivity.
  - reflexivity.
  - reflexivity.
  - exists d1, p1, job.
    destruct (Hr (set_qos (c_qos d1) sample_service) (mkServiceHandler None (λ _, (Some [x62], None)))
      id WakeTerm []) as [_ E].
    splits; [exact Ha|exact Hp|exact Hq|]. exact (E eq_refl).
Defined.

Lemma request_end_to_end_witness :
  let arrives c := snd (@deliver _ (@conn_handlers amd64 _ _ _ _ _) (answer_in 0 (Some [x62]) []) c) in
  exists c3, play (Request (str "cluster") (Some [x61]) 5000000)
      (CS sample_conn [(id, WakeTerm); (arrives, WakeReply); (id, WakeTerm)]) = (Ok (Some [x62]), CS c3 []).
Proof.
  destruct (@request_end_to_end amd64 _ _ _ _ _ (str "cluster") [x61] 5000000 sample_conn id WakeTerm id WakeTerm []
    sample_service (mkServiceLimits 1 100 1 100) (pool_Start (NewThreadPool 1))
    (mkServiceHandler None (λ _, (Some [x62], None))) 9 5 (Some [x62]) None) as (l & _ & _ & _ & c3 & E & _).
  - discriminate.
  - discriminate.
  - reflexivity.
  - vm_compute. congruence.
  - lia.
  - vm_compute. congruence.
  - vm_compute. split; congruence.
  - apply sample_usable. reflexivity.
  - apply idle_healthy.
  - reflexivity.
  - reflexivity.
  - reflexivity.
  - reflexivity.
  - reflexivity.
  - reflexivity.
  - vm_compute. split; congruence.
  - vm_compute. split; congruence.
  - reflexivity.
  - vm_compute. congruence.
  - vm_compute. congruence.
  - exists c3. exact E.
Defined.

(** Three bytes over a tunnel with chunks of two. *)
Lemma tunnel_end_to_end_witness : exists ps d' t',
  out (cs_conn (snd (play (Send 1 (Some abc) 0) (CS sample_ts [])))) = out sample_ts ++ encode_parts 7 ps /\
  @arrive amd64 _ _ _ _ _ (map (transfer_in 0) ps) (with_tunnel sample_service) d' /\
  tunnels (c_tuns d') = <[0 := t']> (tunnels (c_tuns (with_tunnel sample_service))) /\
  queue_items (t_itoaBuf t') = [Some abc] /\
  forall l, exists q, queue_items q = [] /\
    play (Recv 0) (CS (TS t' l []) []) = (Ok (Some abc), CS (TS (set_itoa q true t') l [(t_id t', 3)]) []).
Proof.
  destruct (@tunnel_end_to_end amd64 _ _ _ _ _ eq _ 1 abc 0 7 2 sample_ts (cs_conn (snd (play (Send 1 (Some abc) 0) (CS sample_ts [])))) [] [] 0
    (with_tunnel sample_service) (fresh_tunnel 0)) as (ps & d' & t' & Ho & Ha & Ht & _ & Hq & _ & _ & Hr).
  - vm_compute. split; congruence.
  - lia.
  - discriminate.
  - vm_compute. congruence.
  - vm_compute. congruence.
  - exact sample_send_state.
  - by apply Forall_nil.
  - simpl. lia.
  - by vm_compute.
  - vm_compute. split; congruence.
  - reflexivity.
  - reflexivity.
  - exists ps, d', t'. splits; [exact (carries_eq _ _ _ _ Ho)|exact Ha|exact Ht|exact Hq|].
    intros l. exact (Hr eq_refl 0 l [] []).
Defined.
