(* ===== verification/Service.v ===== *)
(** * Connecting and services (newConnection and Connect of connection.go,
    service.go)

    The handshake with the relay that makes a connection, the registration of a
    service and its end. *)

From Stdlib Require Import ZArith Lia Strings.Byte Strings.String.
From stdpp Require Import base gmap strings list.
From S2P Require Import Prelude Threads Bufio Wire Packets Receiver Tunnel Limits Quota Topic Requests Tunnels Connection Events.

Open Scope Z_scope.

Section service.
Context `{GoRuntime} {Q : Type} `{Queue slice Q} {P : Type -> Type} `{ThreadPool P} {TH : Type}.
Local Abbreviation Connection := (Connection Q P TH).
Local Abbreviation code := (prog Connection cwake).

(** ** The handshake *)

(** [newConnection], on a socket that has been dialled: its unread input and the
    buffered writer over it. What is left unread is for [process]. *)
Definition newConnection (cluster : gostring) (handler : option ServiceHandler)
  (lim : option ServiceLimits) : M (rstate link) Connection :=
  q ← (if decide (cluster <> []) then
         match lim with
         | None => panic nil_deref
         | Some l => mret (Qos lim 0 (Some (NewThreadPool (BroadcastThreads l))) 0
                             (Some (NewThreadPool (RequestThreads l))) 0)
         end
       else mret (Qos None 0 None 0 None 0));
  on_st (sendInit cluster);;
  on_in procInit;;
  l ← gets r_st;
  mret (Conn handler (Reqs 0 ∅ ∅) sub_init tuns_init q l QuitIdle false [] []).

(** A failure to resolve or dial is passed on. *)
Definition dialled {A} (dial : error + rstate link) (m : M (rstate link) A) : outcome A * option (rstate link) :=
  match dial with
  | inl err => (Err err, None)
  | inr s => let '(o, s) := m s in (o, Some s)
  end.

Definition Connect (dial : error + rstate link) : outcome Connection * option (rstate link) :=
  dialled dial (newConnection [] None None).

(** ** Services *)

(** [conn.bcastPool.Start()] and [conn.reqPool.Start()]. *)
Definition start_bcastPool (c : Connection) : Connection :=
  let q := c_qos c in
  set_qos (Qos (limits q) (bcastIdx q) (option_map pool_Start (bcastPool q)) (bcastUsed q) (reqPool q) (reqUsed q)) c.
Definition start_reqPool (c : Connection) : Connection :=
  let q := c_qos c in
  set_qos (Qos (limits q) (bcastIdx q) (bcastPool q) (bcastUsed q) (option_map pool_Start (reqPool q)) (reqUsed q)) c.

(** [Register] once connected: the receiver is running already, so anything may
    arrive before and during the user's [Init]. *)
Definition Register_init (h : ServiceHandler) : code unit :=
  yield;;
  atomic (modify (add_call CallInit));;
  yield;;
  match sh_Init h with
  | Some err => catch conn_Close;; raise err
  | None => atomic (modify start_bcastPool);; yield;; atomic (modify start_reqPool)
  end.

(** [Register]: the service is its connection. *)
Definition Register (dial : error + rstate link) (cluster : gostring) (handler : option ServiceHandler)
  (user : option ServiceLimits) (env : list ((Connection -> Connection) * cwake))
  : outcome unit * option (script Connection cwake) :=
  if decide (cluster = []) then (Err (ErrorsNew "empty cluster identifier"), None)
  else match handler with
  | None => (Err (ErrorsNew "nil service handler"), None)
  | Some h =>
      match fst (dialled dial (newConnection cluster (Some h) (Some (finalizeServiceLimits user)))) with
      | Ok conn => let '(o, s) := play (Register_init h) (CS conn env) in (o, Some s)
      | Err err => (Err err, None)
      | Panic why => (Panic why, None)
      | Block => (Block, None)
      | Diverge => (Diverge, None)
      end
  end.

(** [s.conn.reqPool.Terminate(true)] and [s.conn.bcastPool.Terminate(true)]: the
    queued work is dropped. *)
Definition drop_requests (c : Connection) : Connection :=
  let q := c_qos c in
  set_qos (Qos (limits q) (bcastIdx q) (bcastPool q) (bcastUsed q)
             (option_map (pool_Terminate true) (reqPool q)) (reqUsed q)) c.
Definition drop_broadcasts (c : Connection) : Connection :=
  let q := c_qos c in
  set_qos (Qos (limits q) (bcastIdx q) (option_map (pool_Terminate true) (bcastPool q)) (bcastUsed q)
             (reqPool q) (reqUsed q)) c.

Definition Unregister : code unit :=
  r ← catch conn_Close;
  yield;;
  atomic (modify drop_requests);;
  yield;;
  atomic (modify drop_broadcasts);;
  match r with inl err => raise err | inr _ => mret tt end.

(** ** Properties *)

(** The relay's answers to the handshake. *)
Definition accepted (version : gostring) : list byte := [opInit] ++ binary relayMagic ++ binary version.
Definition denied (reason : gostring) : list byte := [opDeny] ++ binary relayMagic ++ binary reason.

Lemma procInit_accepted version rest e : fits version -> fits relayMagic ->
  procInit (Reader (accepted version ++ rest) e) = (Ok version, Reader rest e).
Proof.
  intros Hv Hm. unfold procInit, accepted, recvByte, ReadByte. run. rewrite <- app_assoc.
  rewrite (decide_True _ _ (or_introl eq_refl)). run. rewrite (recvString_parses relayMagic Hm). run.
  rewrite decide_False by (intros Hn; by apply Hn). run. rewrite decide_True by done.
  by rewrite (recvString_parses version Hv).
Qed.

Lemma procInit_denied reason rest e : fits reason -> fits relayMagic ->
  procInit (Reader (denied reason ++ rest) e)
  = (Err (Errorf "connection denied: %s" (FBytes reason)), Reader rest e).
Proof.
  intros Hv Hm. unfold procInit, denied, recvByte, ReadByte. run. rewrite <- app_assoc.
  rewrite (decide_True _ _ (or_intror eq_refl)). run. rewrite (recvString_parses relayMagic Hm). run.
  rewrite decide_False by (intros Hn; by apply Hn). run. rewrite decide_False by done.
  rewrite decide_True by done. run. by rewrite (recvString_parses reason Hv).
Qed.

(** A connection as made for a service with limits [l], its pools not started. *)
Record new_service (l : ServiceLimits) (h : option ServiceHandler) (c : Connection) : Prop := {
  ns_handler : c_handler c = h;
  ns_limits : limits (c_qos c) = Some l;
  ns_used : bcastUsed (c_qos c) = 0 /\ reqUsed (c_qos c) = 0;
  ns_bcast : bcastPool (c_qos c) = Some (NewThreadPool (BroadcastThreads l));
  ns_req : reqPool (c_qos c) = Some (NewThreadPool (RequestThreads l));
  ns_open : c_term c = false /\ c_quit c = QuitIdle /\ c_calls c = [] /\ c_go c = [];
  ns_reqs : c_reqs c = Reqs 0 ∅ ∅;
  ns_tunnels : c_tuns c = tuns_init;
  ns_subs : c_subs c = sub_init;
  ns_tuns : tuns_ok (TSys (c_tuns c) ∅ ∅)
}.

Lemma sub_init_ok : subs_ok (sub_init (P := P) (TopicHandler := TH)).
Proof.
  split; simpl; [by intros ? ?|intros p t Hp; by rewrite lookup_nil in Hp|by intros ? ? ?].
Qed.

Lemma tuns_init_ok : tuns_ok (TSys (Q := Q) tuns_init ∅ ∅).
Proof. split; simpl; try set_solver. by intros id [? Hid]. Qed.

(** The handshake, answered. *)
Lemma newConnection_accepted cluster handler lim l e tail version :
  sized cluster -> cluster <> [] -> usable l -> healthy (l_wr l) -> fits relayMagic -> fits version ->
  exists l' c,
     newConnection cluster handler (Some lim) (RS (Reader (accepted version ++ tail) e) l)
     = (Ok c, RS (Reader tail e) l') /\ new_service lim handler c /\ c_link c = l' /\
     stream (l_wr l') = stream (l_wr l) ++ encode (OInit cluster) /\ as_good l l' /\ sockWait l' = sockWait l.
Proof.
  intros Hsc Hc Hu Hh Hm Hx. pose proof (sendInit_sends cluster Hsc) as Hsend.
  pose proof (Hsend l (us_ok _ Hu) (us_free _ Hu) (us_wait _ Hu)) as Hs.
  destruct (sendInit cluster l) as [[[]|err|?| |] l'] eqn:E; try done;
    [|by destruct Hs as (_ & _ & _ & Hn & _)].
  pose proof (send_usable _ _ _ _ Hsend Hu E) as Hg. destruct Hs as (_ & _ & Hwt & Hst & _).
  unfold newConnection. rewrite decide_True by done. unfold on_st, on_in.
  pose proof (procInit_accepted version tail e Hx Hm) as Hp. set (inp := Reader (accepted version ++ tail) e) in *.
  run. rewrite E. run. rewrite Hp. run. do 2 eexists. split; [done|]. splits; [|done..].
  split; try done; apply tuns_init_ok || apply sub_init_ok.
Qed.

Lemma newConnection_denied cluster handler lim l e tail reason :
  sized cluster -> cluster <> [] -> usable l -> healthy (l_wr l) -> fits relayMagic -> fits reason ->
  exists l', newConnection cluster handler (Some lim) (RS (Reader (denied reason ++ tail) e) l)
     = (Err (Errorf "connection denied: %s" (FBytes reason)), RS (Reader tail e) l') /\
     sk_closed (w_sock (l_wr l')) = false.
Proof.
  intros Hsc Hc [Ho Hf Hw] Hh Hm Hx. pose proof (sendInit_sends cluster Hsc l Ho Hf Hw) as Hs.
  destruct (sendInit cluster l) as [[[]|err|?| |] l'] eqn:E; try done;
    [|by destruct Hs as (_ & _ & _ & Hn & _)].
  destruct Hs as (_ & _ & _ & Hst & Hh' & _).
  unfold newConnection. rewrite decide_True by done. unfold on_st, on_in.
  pose proof (procInit_denied reason tail e Hx Hm) as Hp. set (inp := Reader (denied reason ++ tail) e) in *.
  run. rewrite E. run. rewrite Hp. exists l'. split; [done|]. by destruct (Hh' Hh).
Qed.

(** C33: the handshake. The call to the relay is the init packet with the cluster.
    If the relay accepts, the connection is up, with everything empty, for a
    service with its limits and pools that run nothing yet; what follows the
    answer on the socket is left for the receiver. If the relay denies, the
    reason is the error, and the socket is left open. *)
Theorem newConnection_spec cluster handler lim l e tail :
  sized cluster -> cluster <> [] -> usable l -> healthy (l_wr l) -> fits relayMagic ->
  (forall version, fits version -> exists l' c,
     newConnection cluster handler (Some lim) (RS (Reader (accepted version ++ tail) e) l)
     = (Ok c, RS (Reader tail e) l') /\ new_service lim handler c /\ c_link c = l' /\
     stream (l_wr l') = stream (l_wr l) ++ encode (OInit cluster)) /\
  (forall reason, fits reason -> exists l',
     newConnection cluster handler (Some lim) (RS (Reader (denied reason ++ tail) e) l)
     = (Err (Errorf "connection denied: %s" (FBytes reason)), RS (Reader tail e) l') /\
     sk_closed (w_sock (l_wr l')) = false).
Proof.
  intros Hsc Hc Hu Hh Hm. split; intros x Hx.
  - destruct (newConnection_accepted cluster handler lim l e tail x) as (l' & c & ? & ? & ? & ? & _); [done..|].
    by exists l', c.
  - by apply newConnection_denied.
Qed.

(** No job of the service can start. *)
Definition pools_idle (c : Connection) : Prop :=
  (forall p, bcastPool (c_qos c) = Some p -> pool_started p = false) /\
  (forall p, reqPool (c_qos c) = Some p -> pool_started p = false).

Lemma deliver_pools_idle p (c : Connection) : pools_idle c -> pools_idle (snd (deliver p c)).
Proof.
  intros [Hb Hr]. destruct p as [m|id r t|id|id r|id f|t e|id n|id|id n|id n|id n d|id r]; cbn.
  - unfold conn_handleBroadcast. destruct (limits (c_qos c)); [|by split].
    destruct (quota_fits _ _ _); [|by split]. destruct (bcastPool (c_qos c)) as [p|] eqn:E; [|by split].
    split; simpl; [|done]. intros p' [= <-]. rewrite Schedule_started. by apply Hb.
  - unfold conn_handleRequest. destruct (limits (c_qos c)); [|by split].
    destruct (quota_fits _ _ _); [|by split]. destruct (reqPool (c_qos c)) as [p|] eqn:E; [|by split].
    split; simpl; [done|]. intros p' [= <-]. rewrite Schedule_started. by apply Hr.
  - unfold conn_handleReply, on_reqs. rewrite lift_eq. by split.
  - unfold conn_handleReply, on_reqs. rewrite lift_eq. by split.
  - unfold conn_handleReply, on_reqs. rewrite lift_eq. by split.
  - by split.
  - by split.
  - unfold conn_handleTunnelResult, on_tuns. rewrite lift_eq. by split.
  - unfold conn_handleTunnelResult, on_tuns. rewrite lift_eq. by split.
  - unfold conn_handleTunnelAllowance, on_tuns. rewrite lift_eq. by split.
  - unfold conn_handleTunnelTransfer. rewrite bind_eq. cbn [gets].
    destruct (is_live id (c_tuns c)); [|by split]. unfold on_tunnel.
    destruct (tunnels (c_tuns c) !! id); [|by split]. by destruct (handleTransfer _ _ _).
  - by split.
Qed.

Lemma deliver_all_pools_idle ps (c : Connection) : pools_idle c -> pools_idle (snd (deliver_all ps c)).
Proof.
  revert c. induction ps as [|p ps IH]; intros c Hc; [done|]. simpl. rewrite bind_eq.
  pose proof (deliver_pools_idle p c Hc). destruct (deliver p c) as [[[]|?|?| |] c']; auto.
Qed.

(** C34: a service's broadcast and request handlers wait for [Init]. Whatever
    arrives before [Init] has returned is queued and no job of the service can
    start; if [Init] succeeds both pools start, with the queues as they are, and if
    it fails the connection is closed instead. *)
Theorem handlers_wait_for_Init lim h (c : Connection) ps qs w1 w2 k w3 env :
  new_service lim (Some h) c ->
  let c1 := snd (deliver_all ps c) in
  let c2 := snd (deliver_all qs (add_call CallInit c1)) in
  let env' := (k, w3) :: env in
  let run := play (Register_init h)
    (CS c (((λ c, snd (deliver_all ps c)), w1) :: ((λ c, snd (deliver_all qs c)), w2) :: env')) in
  pools_idle c1 /\ pools_idle c2 /\
  (forall p, bcastPool (c_qos c2) = Some p -> pool_next p = []) /\
  (forall p, reqPool (c_qos c2) = Some p -> pool_next p = []) /\
  match sh_Init h with
  | None => let c3 := k (start_bcastPool c2) in
      run = (Ok tt, CS (start_reqPool c3) env) /\
      bcastPool (c_qos (start_bcastPool c2)) = option_map pool_Start (bcastPool (c_qos c2)) /\
      reqPool (c_qos (start_reqPool c3)) = option_map pool_Start (reqPool (c_qos c3))
  | Some err => run = play (catch conn_Close;; raise err) (CS c2 env')
  end.
Proof.
  intros Hns c1 c2 env' run.
  assert (pools_idle c) as Hc.
  { split; intros p; [rewrite (ns_bcast _ _ _ Hns)|rewrite (ns_req _ _ _ Hns)]; intros [= <-]; apply New_started. }
  assert (pools_idle c1) as H1' by by apply deliver_all_pools_idle.
  assert (pools_idle c2) as H2' by by apply deliver_all_pools_idle.
  splits; try done.
  - intros p Hp. by apply next_started, H2'.
  - intros p Hp. by apply next_started, H2'.
  - subst run env'. unfold Register_init. rewrite play_go, (play_do _ _ _ tt (add_call CallInit c1)), play_go by done.
    destruct (sh_Init h) as [err|]; [done|].
    by rewrite (play_do _ _ _ tt (start_bcastPool c2)), play_go by done.
Qed.

(** C35: registering, on every branch. Missing arguments are refused, a failure to
    dial and the relay's refusal are passed on; otherwise the service is up with
    its limits completed, and [Init] runs while the receiver does ([f], [g]): if it
    fails the connection is closed and its error returned, whatever closing came
    to; if it succeeds both handler pools start ([k] may happen in between). *)
Theorem Register_spec cluster h user f w g w1 k w2 env l e tail :
  sized cluster -> cluster <> [] -> usable l -> healthy (l_wr l) -> fits relayMagic ->
  let env' := (f, w) :: (g, w1) :: (k, w2) :: env in
  let dialling input := inr (RS (Reader (input ++ tail) e) l) in
  Register (dialling []) [] (Some h) user env' = (Err (ErrorsNew "empty cluster identifier"), None) /\
  Register (dialling []) cluster None user env' = (Err (ErrorsNew "nil service handler"), None) /\
  (forall err, Register (inl err) cluster (Some h) user env' = (Err err, None)) /\
  (forall reason, fits reason -> Register (dialling (denied reason)) cluster (Some h) user env'
     = (Err (Errorf "connection denied: %s" (FBytes reason)), None)) /\
  (forall version, fits version -> exists c,
     new_service (finalizeServiceLimits user) (Some h) c /\
     sent c = stream (l_wr l) ++ encode (OInit cluster) /\
     let c2 := g (add_call CallInit (f c)) in
     let run := Register (dialling (accepted version)) cluster (Some h) user env' in
     match sh_Init h with
     | None => let c3 := k (start_bcastPool c2) in run = (Ok tt, Some (CS (start_reqPool c3) env))
     | Some err => forall o s, play conn_Close (CS c2 ((k, w2) :: env)) = (o, s) ->
         ((exists r, o = Ok r) \/ (exists err', o = Err err') -> run = (Err err, Some s)) /\
         (o = Block -> run = (Block, Some s))
     end).
Proof.
  intros Hsc Hc Hu Hh Hm env' dialling. splits.
  - done.
  - unfold Register. by rewrite decide_False.
  - intros err. unfold Register. by rewrite decide_False.
  - intros reason Hx. unfold Register, dialling, dialled. rewrite decide_False by done.
    destruct (newConnection_denied cluster (Some h) (finalizeServiceLimits user) l e tail reason)
      as (l' & E & _); [done..|]. by rewrite E.
  - intros version Hx.
    destruct (newConnection_accepted cluster (Some h) (finalizeServiceLimits user) l e tail version)
      as (l' & c & E & Hns & <- & Hst & _); [done..|].
    exists c. splits; [done|exact Hst|]. cbn zeta. unfold Register, dialling, dialled.
    rewrite decide_False, E by done. cbn [fst]. unfold Register_init, env'.
    rewrite play_go, (play_do _ _ _ tt (add_call CallInit (f c))), play_go by done.
    set (c2 := g _). destruct (sh_Init h) as [err|].
    + intros o s Ho. rewrite play_bind, play_catch, Ho. split; [|by intros ->].
      by intros [[r ->]|[err' ->]].
    + by rewrite (play_do _ _ _ tt (start_bcastPool c2)), play_go by done.
Qed.

(** A pool that runs nothing more and takes nothing more. *)
Definition stopped {J} (p : option (P J)) : Prop :=
  forall q, p = Some q -> pool_next q = [] /\ forall job, pool_queued (pool_Schedule job q) = [].

Lemma dropped_stopped {J} (p : option (P J)) : stopped (option_map (pool_Terminate true) p).
Proof.
  destruct p as [p|]; [|done]. intros q [= <-]. split.
  - destruct (pool_next (pool_Terminate true p)) as [|[j p'] l] eqn:En; [done|].
    assert ((j, p') ∈ pool_next (pool_Terminate true p)) as Hj by (rewrite En; by left).
    destruct (next_queued _ _ _ _ Hj) as [Hq _]. rewrite Terminate_queued in Hq.
    by apply Permutation_nil_cons in Hq.
  - intros job. by rewrite Schedule_queued, Terminate_live, Terminate_queued.
Qed.

(** Unregistering. Whatever [Close] came to is returned, and by then the
    queued requests and broadcasts have been dropped and neither pool takes more:
    none of them can start any more. While [Close] does not return nothing of the
    service is stopped. *)
Theorem Unregister_spec s o (c : Connection) f w g w1 env :
  play conn_Close s = (o, CS c ((f, w) :: (g, w1) :: env)) ->
  let c1 := drop_requests (f c) in
  let c2 := drop_broadcasts (g c1) in
  (o = Ok tt \/ (exists e, o = Err e) -> play Unregister s = (o, CS c2 env)) /\
  (o = Block -> play Unregister s = (Block, CS c ((f, w) :: (g, w1) :: env))) /\
  stopped (reqPool (c_qos c1)) /\ stopped (bcastPool (c_qos c2)).
Proof.
  intros E c1 c2. unfold Unregister. rewrite play_bind, play_catch, E.
  splits; [|by intros ->|apply dropped_stopped|apply dropped_stopped].
  intros [->|[e ->]]; cbn [fst snd caught];
    rewrite play_go, (play_do _ _ _ tt c1), play_go, (play_do _ _ _ tt c2) by done; done.
Qed.
End service.

(** ** The properties at concrete inputs *)

Definition sample_limits : ServiceLimits := mkServiceLimits 1 100 1 100.

Definition sample_handler : ServiceHandler := mkServiceHandler None (λ _, (Some [x62], None)).

Definition sample_new : Connection (list slice) list_pool nat :=
  Conn (Some sample_handler) (Reqs 0 ∅ ∅) sub_init tuns_init
    (Qos (Some sample_limits) 0 (Some (NewThreadPool 1)) 0 (Some (NewThreadPool 1)) 0)
    idle_link QuitIdle false [] [].

Lemma sample_new_service : new_service sample_limits (Some sample_handler) sample_new.
Proof. split; try done; apply tuns_init_ok || apply sub_init_ok. Qed.

Lemma newConnection_spec_witness : exists (l' : link) (c : Connection (list slice) list_pool nat),
  newConnection (H := amd64) (str "cluster") (Some sample_handler) (Some sample_limits)
    (RS (Reader (accepted (str "v1.0") ++ []) EOF) idle_link)
  = (Ok c, RS (Reader [] EOF) l') /\ new_service sample_limits (Some sample_handler) c /\ c_link c = l' /\
  stream (l_wr l') = stream (l_wr idle_link) ++ encode (OInit (str "cluster")).
Proof.
  apply (newConnection_spec (H := amd64) (str "cluster") (Some sample_handler) sample_limits idle_link EOF []).
  - reflexivity.
  - discriminate.
  - apply sample_usable. reflexivity.
  - apply idle_healthy.
  - vm_compute. congruence.
  - vm_compute. congruence.
Defined.

(** A broadcast arrives before [Init] is called. *)
Lemma handlers_wait_for_Init_witness :
  let c2 := snd (deliver_all (H0 := conn_handlers (H := amd64)) []
    (add_call CallInit (snd (deliver_all (H0 := conn_handlers (H := amd64)) [IBroadcast [x61]] sample_new)))) in
  option_map pool_queued (bcastPool (c_qos c2)) = Some [(1, [x61])] /\
  forall p, bcastPool (c_qos c2) = Some p -> pool_next p = [].
Proof.
  split; [reflexivity|].
  apply (handlers_wait_for_Init (H := amd64) sample_limits sample_handler sample_new
    [IBroadcast [x61]] [] WakeTerm WakeTerm id WakeTerm []).
  exact sample_new_service.
Defined.

Lemma Register_spec_witness : exists c : Connection (list slice) list_pool nat,
  sent c = encode (OInit (str "cluster")) /\
  Register (H := amd64) (inr (RS (Reader (accepted (str "v1.0") ++ []) EOF) idle_link)) (str "cluster")
    (Some sample_handler) (Some sample_limits) [(id, WakeTerm); (id, WakeTerm); (id, WakeTerm)]
  = (Ok tt, Some (CS (start_reqPool (start_bcastPool (add_call CallInit c))) [])).
Proof.
  destruct (Register_spec (H := amd64) (Q := list slice) (P := list_pool) (TH := nat) (str "cluster") sample_handler (Some sample_limits) id WakeTerm id WakeTerm
    id WakeTerm [] idle_link EOF []) as (_ & _ & _ & _ & Hok).
  - reflexivity.
  - discriminate.
  - apply sample_usable. reflexivity.
  - apply idle_healthy.
  - vm_compute. congruence.
  - destruct (Hok (str "v1.0")) as (c & _ & Hs & Hr); [vm_compute; congruence|].
    exists c. split; [exact Hs|exact Hr].
Defined.

(** The receiver ends while [Close] waits. *)
Lemma Unregister_spec_witness :
  fst (play Unregister (CS sample_new
    [(id, WakeTerm); (receiver_ends, WakeQuit); (id, WakeTerm); (id, WakeTerm); (id, WakeTerm)])) = Ok tt.
Proof.
  eassert (play conn_Close (CS sample_new
    [(id, WakeTerm); (receiver_ends, WakeQuit); (id, WakeTerm); (id, WakeTerm); (id, WakeTerm)])
    = (Ok tt, CS _ [(id, WakeTerm); (id, WakeTerm)])) as E by reflexivity.
  destruct (Unregister_spec _ _ _ _ _ _ _ _ E) as (Hr & _).
  rewrite (Hr (or_introl eq_refl)). reflexivity.
Defined.

(** Tunnels do not wait: the handler is given one before [Init] has been called. *)
Lemma tunnel_before_Init :
  c_calls (cs_conn (snd (play (Register_init sample_handler) (CS sample_new
    [((λ c, cs_conn (snd (play (run_go (GoTunnelInit 3 1000)) (CS c [])))), WakeTerm); (id, WakeTerm)]))))
  = [CallTunnel 0; CallInit].
Proof. reflexivity. Qed.
