(* ===== verification/Safety.v ===== *)
(** * What keeps a connection safe

    The invariant of a connection that its goroutines share, and the proof that
    every program they run (the calls of Connection.v and of Tunnel.v, the handlers,
    jobs and goroutines of Events.v, start-up and end of a service) is safe among others:
    whatever the others do, each of its stretches keeps the invariant and none
    panics or parks on a lock. *)

From Stdlib Require Import ZArith Lia Strings.Byte Strings.String.
From stdpp Require Import base gmap strings list.
From S2P Require Import Prelude Threads Bufio Wire Packets Receiver Tunnel Limits.
From S2P Require Import Quota Topic Requests Tunnels Connection Events Service.

Open Scope Z_scope.

Section safety.
Context `{GoRuntime} {Q : Type} `{Queue slice Q} {P : Type -> Type} `{ThreadPool P} {TH : Type}.
Local Abbreviation Connection := (Connection Q P TH).
Local Abbreviation code := (prog Connection cwake).
Implicit Types c : Connection.

(** ** The invariant *)

(** The socket is not in use, and either in order or failed for good. *)
Definition link_ok (l : link) : Prop :=
  sockLocked l = false /\ sockWait l = 0 /\ (w_err (l_wr l) = None -> writer_ok (l_wr l)).

(** Go slices and strings have a length below 2^63. *)
Definition handler_ok (h : ServiceHandler) : Prop := forall request,
  sized (sbytes (fst (sh_HandleRequest h request))) /\ sized (default [] (snd (sh_HandleRequest h request))).

(** A chunk limit that does not overflow in the arithmetic of [Send]; 0 before a
    tunnel is constructed. *)
Definition limit_ok (n : Z) : Prop := 0 <= n < 2 ^ 62.

Definition tun_ok (t : Tunnel Q) : Prop := isu64 (t_id t) /\ limit_ok (t_chunkLimit t).

(** A goroutine that can be started: only a service is offered tunnels. *)
Definition go_ok (h : option ServiceHandler) (g : goroutine) : Prop :=
  match g with
  | GoTunnelInit id n => (isu64 id /\ limit_ok n) /\ is_Some h
  | GoAllowance id _ => isu64 id
  | _ => True
  end.

Definition req_job_ok (j : req_job) : Prop := isu64 (fst (fst j)).

(** Live tunnels exist and are open. *)
Record tunnels_ok (s : tuns (Q := Q)) : Prop := {
  to_idx : isu64 (tunIdx s);
  to_live : forall id, is_live id s = true -> exists t, tunnels s !! id = Some t /\ t_term t = false;
  to_tun : forall id t, tunnels s !! id = Some t -> tun_ok t
}.

(** The table of subscriptions points to subscriptions. *)
Definition pointers_ok (s : subs (P := P) (TopicHandler := TH)) : Prop :=
  forall name p, subLive s !! name = Some p -> (p < length (topics s))%nat.

(** Limits, pools and a handler come together; queued requests have proper numbers. *)
Definition qos_ok (h : option ServiceHandler) (q : qos P) : Prop :=
  match limits q with
  | Some _ => is_Some h /\ is_Some (bcastPool q) /\ is_Some (reqPool q)
  | None => bcastPool q = None /\ reqPool q = None
  end /\
  (forall p, reqPool q = Some p -> Forall req_job_ok (pool_queued p)).

Record conn_ok c : Prop := {
  co_link : link_ok (c_link c);
  co_req : isu64 (reqIdx (c_reqs c));
  co_tuns : tunnels_ok (c_tuns c);
  co_subs : pointers_ok (c_subs c);
  co_qos : qos_ok (c_handler c) (c_qos c);
  co_handler : forall h, c_handler c = Some h -> handler_ok h;
  co_go : Forall (go_ok (c_handler c)) (c_go c)
}.

(** *** What the goroutines do to each other *)

(** What never goes away while a connection is in use. *)
Record grows c c' : Prop := {
  gr_handler : c_handler c' = c_handler c;
  gr_limits : limits (c_qos c') = limits (c_qos c);
  gr_tunnels : forall id, is_Some (tunnels (c_tuns c) !! id) -> is_Some (tunnels (c_tuns c') !! id);
  gr_topics : (length (topics (c_subs c)) <= length (topics (c_subs c')))%nat
}.

(** Only the receiver ends the connection. *)
Definition keeps c c' : Prop := grows c c' /\ c_term c' = c_term c.

#[global] Instance grows_preorder : PreOrder grows.
Proof.
  split; [by split|]. intros c1 c2 c3 [? ? H3 ?] [? ? H3' ?]. split; [congruence|congruence| |lia].
  intros id Hid. by apply H3', H3.
Qed.

#[global] Instance keeps_preorder : PreOrder keeps.
Proof.
  split; [by split|]. intros c1 c2 c3 [? ?] [? ?]. split; [by etrans|congruence].
Qed.

(** *** Changes of one part *)

Lemma conn_ok_link l c : conn_ok c -> link_ok l -> conn_ok (set_link l c).
Proof. intros [] ?. by split. Qed.
Lemma conn_ok_reqs r c : conn_ok c -> isu64 (reqIdx r) -> conn_ok (set_reqs r c).
Proof. intros [] ?. by split. Qed.
Lemma conn_ok_tuns s c : conn_ok c -> tunnels_ok s -> conn_ok (set_tuns s c).
Proof. intros [] ?. by split. Qed.
Lemma conn_ok_subs s c : conn_ok c -> pointers_ok s -> conn_ok (set_subs s c).
Proof. intros [] ?. by split. Qed.
Lemma conn_ok_qos q c : conn_ok c -> qos_ok (c_handler c) q -> conn_ok (set_qos q c).
Proof. intros [] ?. by split. Qed.
Lemma conn_ok_call x c : conn_ok c -> conn_ok (add_call x c).
Proof. intros []. by split. Qed.
Lemma conn_ok_quit x c : conn_ok c -> conn_ok (set_quit x c).
Proof. intros []. by split. Qed.
Lemma conn_ok_term x c : conn_ok c -> conn_ok (set_term x c).
Proof. intros []. by split. Qed.
Lemma conn_ok_go g c : conn_ok c -> Forall (go_ok (c_handler c)) g -> conn_ok (add_go g c).
Proof. intros [] ?. split; try done. by apply Forall_app. Qed.

Lemma keeps_tuns s c : (forall id, is_Some (tunnels (c_tuns c) !! id) -> is_Some (tunnels s !! id)) ->
  keeps c (set_tuns s c).
Proof. intros ?. split; [|done]. by split. Qed.
Lemma keeps_subs s c : (length (topics (c_subs c)) <= length (topics s))%nat -> keeps c (set_subs s c).
Proof. intros ?. split; [|done]. by split. Qed.
Lemma keeps_qos q c : limits q = limits (c_qos c) -> keeps c (set_qos q c).
Proof. intros ?. split; [|done]. by split. Qed.
End safety.

Create HintDb safe.
#[export] Hint Resolve conn_ok_link conn_ok_reqs conn_ok_tuns conn_ok_subs conn_ok_qos conn_ok_call
  conn_ok_quit conn_ok_term conn_ok_go keeps_tuns keeps_subs keeps_qos : safe.

(** ** Sending *)

(** A send on a link that nobody uses returns and leaves it so. *)
Definition tamed (m : M link unit) : Prop := forall l, link_ok l -> returns (fst (m l)) /\ link_ok (snd (m l)).

Lemma packet_tamed closure bs : emits closure bs -> sticky closure -> tamed (sendPacket closure).
Proof.
  intros He Hs [w k b] (Hl & Hk & Ho). simpl in Hl, Hk, Ho. subst b k.
  destruct (w_err w) as [e|] eqn:E.
  - unfold sendPacket, sendLocked, addWait, lockSock, unlockSock, on_wr, attempt, modify. run.
    rewrite (Hs w e E). run. split; [done|]. unfold link_ok. simpl. by rewrite E.
  - pose proof (sendPacket_sends closure bs He (Link w 0 false) (Ho eq_refl) eq_refl ltac:(simpl; lia)) as Hp.
    destruct (sendPacket closure (Link w 0 false)) as [[[]|e|?| |] l']; try done.
    + destruct Hp as (? & ? & ? & _). by split_and!.
    + destruct Hp as (He' & ? & ? & _). split; [done|]. simpl. unfold link_ok. by rewrite He'.
Qed.

Ltac tame := eapply packet_tamed; [eauto 12 with emits go|repeat apply sticky_bind; apply WriteByte_sticky].

Lemma sendClose_tamed : tamed sendClose.
Proof. tame. Qed.
Lemma sendBroadcast_tamed c m : sized c -> sized (sbytes m) -> tamed (sendBroadcast c m).
Proof. intros. tame. Qed.
Lemma sendRequest_tamed id c r t : isu64 id -> sized c -> sized (sbytes r) -> tamed (sendRequest id c r t).
Proof. intros. tame. Qed.
Lemma sendReply_tamed id r f : isu64 id -> sized (sbytes r) -> sized f -> tamed (sendReply id r f).
Proof. intros. unfold sendReply. destruct (len f =? 0); tame. Qed.
Lemma sendSubscribe_tamed t : sized t -> tamed (sendSubscribe t).
Proof. intros. tame. Qed.
Lemma sendUnsubscribe_tamed t : sized t -> tamed (sendUnsubscribe t).
Proof. intros. tame. Qed.
Lemma sendPublish_tamed t e : sized t -> sized (sbytes e) -> tamed (sendPublish t e).
Proof. intros. tame. Qed.
Lemma sendTunnelInit_tamed id c t : isu64 id -> sized c -> tamed (sendTunnelInit id c t).
Proof. intros. tame. Qed.
Lemma sendTunnelConfirm_tamed b t : isu64 b -> isu64 t -> tamed (sendTunnelConfirm b t).
Proof. intros. tame. Qed.
Lemma sendTunnelAllowance_tamed id s : isu64 id -> tamed (sendTunnelAllowance id s).
Proof. intros. tame. Qed.
Lemma sendTunnelTransfer_tamed id s p : isu64 id -> sized p -> tamed (sendTunnelTransfer id s p).
Proof. intros. tame. Qed.
Lemma sendTunnelClose_tamed id : isu64 id -> tamed (sendTunnelClose id).
Proof. intros. tame. Qed.

#[export] Hint Resolve sendClose_tamed sendBroadcast_tamed sendRequest_tamed sendReply_tamed
  sendSubscribe_tamed sendUnsubscribe_tamed sendPublish_tamed sendTunnelInit_tamed sendTunnelConfirm_tamed
  sendTunnelAllowance_tamed sendTunnelTransfer_tamed sendTunnelClose_tamed : safe.

(** ** Stretches *)

Section stretches.
Context `{GoRuntime} {Q : Type} `{Queue slice Q} {P : Type -> Type} `{ThreadPool P} {TH : Type}.
Local Abbreviation Connection := (Connection Q P TH).
Local Abbreviation code := (prog Connection cwake).
Implicit Types (c : Connection) (F : Connection -> Prop).

Local Abbreviation stretch := (Threads.stretch conn_ok keeps).

Lemma stretch_gets {A} F (f : Connection -> A) : stretch F (gets f).
Proof. intros c Hc _. by split_and!. Qed.

Lemma stretch_modify F (f : Connection -> Connection) :
  (forall c, conn_ok c -> conn_ok (f c) /\ keeps c (f c)) -> stretch F (modify f).
Proof. intros Hf c Hc _. simpl. by destruct (Hf c Hc). Qed.

Lemma stretch_call F x : stretch F (modify (add_call x)).
Proof. apply stretch_modify. intros c Hc. split; [by apply conn_ok_call|by split]. Qed.

Lemma stretch_sock F m : tamed m -> stretch F (on_sock m).
Proof.
  intros Hm c Hc _. unfold on_sock. rewrite lift_eq. destruct (Hm _ (co_link _ Hc)) as [Hr Hl].
  split_and!; [exact Hr|by apply conn_ok_link|by split; [split|]].
Qed.

Lemma stretch_reqs {A} F (m : M reqs A) :
  (forall r, isu64 (reqIdx r) -> returns (fst (m r)) /\ isu64 (reqIdx (snd (m r)))) -> stretch F (on_reqs m).
Proof.
  intros Hm c Hc _. unfold on_reqs. rewrite lift_eq. destruct (Hm _ (co_req _ Hc)) as [Hr Hl].
  split_and!; [exact Hr|by apply conn_ok_reqs|by split; [split|]].
Qed.

Lemma stretch_register F : stretch F (on_reqs req_register).
Proof. apply stretch_reqs. intros r Hr. split; [done|]. apply u64_range. Qed.

Lemma stretch_cleanup F id : stretch F (on_reqs (req_cleanup id)).
Proof. by apply stretch_reqs. Qed.

(** *** Subscriptions *)

(** Code on the subscriptions that runs where [F] holds of them. *)
Lemma stretch_subs {A} F (m : M subs A) :
  (forall c, conn_ok c -> F c -> let s := c_subs c in returns (fst (m s)) /\ pointers_ok (snd (m s)) /\
     (length (topics s) <= length (topics (snd (m s))))%nat) -> stretch F (on_subs m).
Proof.
  intros Hm c Hc HF. unfold on_subs. rewrite lift_eq. destruct (Hm c Hc HF) as (Hr & Hp & Hl).
  split_and!; [exact Hr|by apply conn_ok_subs|by apply keeps_subs].
Qed.

Implicit Types s : subs (P := P) (TopicHandler := TH).

Lemma upd_topic_ok {A} p (m : M (topic (P := P) (TopicHandler := TH)) A) s :
  (forall t, returns (fst (m t))) -> (p < length (topics s))%nat -> pointers_ok s ->
  let s' := snd (upd_topic p m s) in
  returns (fst (upd_topic p m s)) /\ pointers_ok s' /\ length (topics s') = length (topics s) /\
  subLive s' = subLive s.
Proof.
  intros Hm Hp Hs. destruct (lookup_lt_is_Some_2 _ _ Hp) as [t Ht]. rewrite (upd_topic_eq _ _ _ _ Ht).
  split_and!; [apply Hm| |apply length_insert|done]. intros name q Hq. simpl. rewrite length_insert. by eapply Hs.
Qed.

Lemma stretch_topic {A} F p (m : M (topic (P := P) (TopicHandler := TH)) A) : (forall t, returns (fst (m t))) ->
  (forall c, F c -> (p < length (topics (c_subs c)))%nat) -> stretch F (on_subs (upd_topic p m)).
Proof.
  intros Hm HF. apply stretch_subs. intros c Hc Hp. cbn zeta.
  destruct (upd_topic_ok p m (c_subs c) Hm (HF c Hp) (co_subs _ Hc)) as (? & ? & Hl & _).
  split_and!; [done..|]. lia.
Qed.

Lemma drop_ok name p s : pointers_ok s -> subLive s !! name = Some p ->
  let s' := snd (sub_drop name p s) in
  fst (sub_drop name p s) = Ok tt /\ pointers_ok s' /\ length (topics s') = length (topics s).
Proof.
  intros Hs Hp. unfold sub_drop. destruct (lookup_lt_is_Some_2 _ _ (Hs _ _ Hp)) as [t Ht].
  rewrite bind_eq, (upd_topic_eq _ _ _ _ Ht). split_and!; [done| |apply length_insert].
  intros n q Hq. simpl in *. rewrite length_insert. apply lookup_delete_Some in Hq as [_ Hq]. by eapply Hs.
Qed.

Lemma stretch_insert F name h lim : stretch F (on_subs (sub_insert name h lim)).
Proof.
  apply stretch_subs. intros c Hc _. cbn zeta. pose proof (co_subs _ Hc) as Hs. unfold sub_insert.
  destruct (subLive (c_subs c) !! name); [done|]. cbn [fst snd topics]. split_and!; [done| |].
  - intros n q Hq. cbn [subLive topics] in *. rewrite length_app. simpl.
    apply lookup_insert_Some in Hq as [[_ <-]|[_ Hq]]; [lia|]. specialize (Hs _ _ Hq). lia.
  - rewrite length_app. lia.
Qed.

Lemma stretch_undo F name : stretch F (on_subs (sub_undo name)).
Proof.
  apply stretch_subs. intros c Hc _. cbn zeta. pose proof (co_subs _ Hc) as Hs. unfold sub_undo.
  destruct (subLive (c_subs c) !! name) as [p|] eqn:E; [|done].
  destruct (drop_ok _ _ _ Hs E) as (-> & Hp & Hl). split_and!; [done..|]. lia.
Qed.

Lemma stretch_remove F name : stretch F (on_subs (sub_remove name)).
Proof.
  apply stretch_subs. intros c Hc _. cbn zeta. pose proof (co_subs _ Hc) as Hs. unfold sub_remove.
  destruct (subLive (c_subs c) !! name) as [p|] eqn:E; [|done].
  destruct (drop_ok _ _ _ Hs E) as (-> & Hp & Hl). split_and!; [done..|]. lia.
Qed.

Lemma terminate_all_ok ps s : (forall p, p ∈ ps -> (p < length (topics s))%nat) -> pointers_ok s ->
  let s' := snd (terminate_all ps s) in
  fst (terminate_all ps s) = Ok tt /\ pointers_ok s' /\ length (topics s') = length (topics s).
Proof.
  revert s. induction ps as [|p ps IH]; intros s Hp Hs; [done|]. cbn [terminate_all]. rewrite bind_eq.
  destruct (lookup_lt_is_Some_2 (topics s) p) as [t Ht]; [apply Hp; by left|].
  rewrite (upd_topic_eq _ _ _ _ Ht). cbn [fst snd top_terminate modify].
  set (s1 := Subs _ _ _). assert (length (topics s1) = length (topics s)) as Hlen by apply length_insert.
  destruct (IH s1) as (E & Hok & Hl).
  - intros q Hq. rewrite Hlen. apply Hp. by right.
  - intros n q Hq. rewrite Hlen. by eapply Hs.
  - split_and!; [done..|]. by rewrite Hl.
Qed.

Lemma sub_close_ok s : pointers_ok s ->
  fst (sub_close s) = Ok tt /\ pointers_ok (snd (sub_close s)) /\ length (topics (snd (sub_close s))) = length (topics s).
Proof.
  intros Hs. apply terminate_all_ok; [|done]. intros p Hp. change (map snd) with (fmap (M := list) (@snd gostring nat)) in Hp.
  apply list_elem_of_fmap in Hp as ([n q] & -> & Hx). apply elem_of_map_to_list in Hx. by eapply Hs.
Qed.

Lemma stretch_sub_close F : stretch F (on_subs sub_close).
Proof.
  apply stretch_subs. intros c Hc _. cbn zeta. destruct (sub_close_ok _ (co_subs _ Hc)) as (-> & Hp & Hl).
  split_and!; [done..|]. lia.
Qed.

(** *** Tunnels *)

Implicit Types u : tuns (Q := Q).

Lemma stretch_tuns {A} F (m : M tuns A) :
  (forall c, conn_ok c -> F c -> let u := c_tuns c in returns (fst (m u)) /\ tunnels_ok (snd (m u)) /\
     (forall id, is_Some (tunnels u !! id) -> is_Some (tunnels (snd (m u)) !! id))) -> stretch F (on_tuns m).
Proof.
  intros Hm c Hc HF. unfold on_tuns. rewrite lift_eq. destruct (Hm c Hc HF) as (Hr & Hp & Hl).
  split_and!; [exact Hr|by apply conn_ok_tuns|by apply keeps_tuns].
Qed.

Lemma insert_known id (t : Tunnel Q) u id' : is_Some (tunnels u !! id') -> is_Some (<[id := t]> (tunnels u) !! id').
Proof. intros Hi. destruct (decide (id = id')) as [->|Hn]; [rewrite lookup_insert_eq|rewrite lookup_insert_ne]; eauto. Qed.

(** Replacing a tunnel by one that is as open as it was. *)
Lemma tunnels_ok_insert id t t' u : tunnels_ok u -> tunnels u !! id = Some t -> t_term t' = t_term t ->
  tun_ok t' -> tunnels_ok (put_tunnel id t' u).
Proof.
  intros [Hx Hl Hi] Ht Hc Hd. split; [done| |].
  - intros i Hlv. destruct (Hl i Hlv) as (v & Hv & Ho). simpl. destruct (decide (id = i)) as [<-|Hn].
    + rewrite lookup_insert_eq. exists t'. split; [done|]. congruence.
    + rewrite lookup_insert_ne by done. eauto.
  - intros i v. simpl. intros [[<- <-]|[_ Hv]]%lookup_insert_Some; eauto.
Qed.

(** Code on a tunnel that leaves its closure and its number alone. *)
Definition plain {A} (m : M (Tunnel Q) A) : Prop := forall t, tun_ok t ->
  returns (fst (m t)) /\ t_term (snd (m t)) = t_term t /\ tun_ok (snd (m t)).

Lemma upd_tunnel_ok {A} id (m : M (Tunnel Q) A) u : plain m -> is_Some (tunnels u !! id) -> tunnels_ok u ->
  let u' := snd (upd_tunnel id m u) in
  returns (fst (upd_tunnel id m u)) /\ tunnels_ok u' /\
  (forall i, is_Some (tunnels u !! i) -> is_Some (tunnels u' !! i)).
Proof.
  intros Hm [t Ht] Hu. rewrite (upd_tunnel_eq _ _ _ _ Ht). destruct (Hm t (to_tun _ Hu id t Ht)) as (Hr & Hc & Hd).
  split_and!; [exact Hr|by eapply tunnels_ok_insert|by apply insert_known].
Qed.

Lemma stretch_tunnel {A} F id (m : M (Tunnel Q) A) : plain m ->
  (forall c, F c -> is_Some (tunnels (c_tuns c) !! id)) -> stretch F (on_tuns (upd_tunnel id m)).
Proof.
  intros Hm HF. apply stretch_tuns. intros c Hc Hid. apply upd_tunnel_ok; [done|auto|apply co_tuns, Hc].
Qed.

Lemma stretch_newTunnel F : stretch F (on_tuns newTunnel).
Proof.
  apply stretch_tuns. intros c Hc _. cbn zeta. pose proof (co_tuns _ Hc) as [Hx Hl Hi].
  unfold newTunnel. destruct (tunLive (c_tuns c)) as [live|] eqn:E; [|done].
  split_and!; [done| |intros i; apply insert_known]. split; simpl.
  - apply u64_range.
  - intros i. unfold is_live. simpl. intros Hid%bool_decide_eq_true. destruct (decide (i = tunIdx (c_tuns c))) as [->|Hn].
    + rewrite lookup_insert_eq. by eexists.
    + rewrite lookup_insert_ne by done. apply Hl. unfold is_live. rewrite E. apply bool_decide_eq_true. set_solver.
  - intros i t [[_ <-]|[_ Ht]]%lookup_insert_Some; [|by eapply Hi]. split; [exact Hx|]. by split.
Qed.

Lemma tunnels_ok_same u u' : tunnels_ok u -> tunIdx u' = tunIdx u -> tunnels u' = tunnels u ->
  (forall id, is_live id u' = true -> is_live id u = true) -> tunnels_ok u'.
Proof. intros [Hx Hl Hi] E1 E2 E3. split; [by rewrite E1| |]; rewrite E2; eauto. Qed.

Lemma tunnels_ok_remove id u : tunnels_ok u -> tunnels_ok (snd (tun_remove id u)).
Proof.
  intros Hu. eapply tunnels_ok_same; [exact Hu|done..|]. intros i. rewrite is_live_remove.
  by intros [? _]%andb_true_iff.
Qed.

Lemma stretch_tun_remove F id : stretch F (on_tuns (tun_remove id)).
Proof. apply stretch_tuns. intros c Hc _. split_and!; [done|by apply tunnels_ok_remove, co_tuns|done]. Qed.

Lemma stretch_tun_wait F id : stretch F (on_tuns (tun_wait id)).
Proof.
  apply stretch_tuns. intros c Hc _. split_and!; [done| |done].
  by eapply tunnels_ok_same; [exact (co_tuns _ Hc)|..].
Qed.

Lemma tun_unwait_ok id u : tunnels_ok u -> tunnels_ok (snd (tun_unwait id u)).
Proof. intros Hu. by eapply tunnels_ok_same; [exact Hu|..]. Qed.

(** Closing a tunnel takes it out of the table. *)
Lemma tunnelClose_ok id reason u : tunnels_ok u ->
  let r := tun_handleTunnelClose id reason u in
  fst r = Ok tt /\ tunnels_ok (snd r) /\ (forall i, is_Some (tunnels u !! i) -> is_Some (tunnels (snd r) !! i)).
Proof.
  intros Hu. unfold tun_handleTunnelClose. cbn zeta. rewrite !bind_eq. cbn [gets].
  destruct (is_live id u) eqn:Hl; [|done]. destruct (to_live _ Hu id Hl) as (t & Ht & Ho).
  rewrite bind_eq, (upd_tunnel_eq _ _ _ _ Ht). unfold tun_handleClose. rewrite Ho.
  split_and!; [done| |by apply insert_known]. destruct Hu as [Hx Hlv Hi]. set (u' := snd _).
  assert (forall i, is_live i u' = true -> is_live i u = true /\ i <> id) as Hlive.
  { intros i. subst u'. cbn [fst snd]. rewrite is_live_remove. intros [Hi1 Hi2]%andb_true_iff.
    apply negb_true_iff, bool_decide_eq_false in Hi2. by split. }
  split; [done| |].
  - intros i [Hi1 Hn]%Hlive. destruct (Hlv i Hi1) as (v & Hv & ?). exists v. split; [|done].
    subst u'. simpl. by rewrite lookup_insert_ne.
  - intros i v. subst u'. simpl. intros [[<- <-]|[_ Hv]]%lookup_insert_Some; [exact (Hi _ _ Ht)|eauto].
Qed.

Lemma stretch_tunnelClose F id reason : stretch F (conn_handleTunnelClose id reason).
Proof.
  apply stretch_tuns. intros c Hc _. cbn zeta.
  destruct (tunnelClose_ok id reason _ (co_tuns _ Hc)) as (-> & ? & ?). done.
Qed.
End stretches.

(** ** Programs *)

Section programs.
Context `{GoRuntime} {Q : Type} `{Queue slice Q} {P : Type -> Type} `{ThreadPool P} {TH : Type}.
Local Abbreviation Connection := (Connection Q P TH).
Local Abbreviation code := (prog Connection cwake).
Implicit Types (c : Connection) (F : Connection -> Prop).

(** The others may grow the connection and end it, a goroutine but the receiver
    may not end it. [frees]: once the connection has ended, some case of each
    [select] is ready. *)
Context (frees : Prop).
Local Abbreviation safely := (Threads.safely conn_ok grows keeps (λ c, c_term c = true) frees).
Local Abbreviation stable := (Threads.stable grows keeps).
Local Abbreviation any := (λ _ : Connection, True).

Lemma stable_grows F : (forall c c', grows c c' -> F c -> F c') -> stable F.
Proof. intros HF c c' [Hg|[Hg _]]; eauto. Qed.

Lemma safely_pure {A} (φ : Prop) F (p : code A) : (φ -> safely F p) -> safely (λ c, φ /\ F c) p.
Proof. intros Hp c Hc [Hφ HF]. by apply Hp. Qed.

(** The steps of a proof that a program is safe. *)
Hint Resolve safely_ret safely_raise safely_yield safely_catch safely_atomic stable_True : safe.
Hint Resolve stretch_gets stretch_call stretch_sock stretch_register stretch_cleanup stretch_insert stretch_undo
  stretch_remove stretch_sub_close stretch_newTunnel stretch_tun_remove stretch_tun_wait stretch_tunnelClose : safe.

Ltac safe := first [apply safely_bind; [done|eauto 6 with safe|intros ?]|eauto 6 with safe].

Ltac on_result :=
  match goal with
  | r : sum _ _ |- _ => destruct r
  | r : option _ |- _ => destruct r
  | r : bool |- _ => destruct r
  end.

Lemma Broadcast_safely cluster m : sized cluster -> sized (sbytes m) -> safely any (Broadcast cluster m).
Proof. intros. unfold Broadcast. repeat case_decide; eauto 6 with safe. Qed.

Lemma Publish_safely topic e : sized topic -> sized (sbytes e) -> safely any (Publish topic e).
Proof. intros. unfold Publish. repeat case_decide; eauto 6 with safe. Qed.

Lemma recv_term_returns {A} (m : M Connection A) c :
  fst ((recv_term;; m) c) <> Block -> c_term c = true /\ (recv_term;; m) c = m c.
Proof. unfold recv_term. rewrite bind_eq. by destruct (c_term c). Qed.

Lemma Request_select_safely id : safely any (Request_select id).
Proof.
  apply safely_select; [done| |].
  - intros w c Hc _. assert (keeps c c) as Hk by done. destruct w; try done.
    + intros Hb. by destruct (recv_term_returns _ _ Hb) as [_ ->].
    + rewrite bind_eq. cbn [gets]. unfold req_take_reply. destruct (reqReps (c_reqs c) !! id) as [[r|]|]; try done.
      intros _. rewrite bind_eq. cbn. split_and!; [done|by apply conn_ok_reqs, co_req|by split; [split|]].
    + rewrite bind_eq. cbn [gets]. unfold req_take_err. destruct (reqErrs (c_reqs c) !! id) as [[r|]|]; try done.
      intros _. rewrite bind_eq. cbn. split_and!; [done|by apply conn_ok_reqs, co_req|by split; [split|]].
  - intros _ c _ _ Ht. exists WakeTerm. unfold recv_term. by rewrite bind_eq, Ht.
Qed.

Lemma Request_safely cluster m t : sized cluster -> sized (sbytes m) -> safely any (Request cluster m t).
Proof.
  intros. unfold Request. repeat (case_decide || case_test); eauto 6 with safe.
  eapply (safely_do _ _ _ _ _ _ (λ id _, isu64 id /\ True)); [eauto with safe| |].
  { intros c id Hc _ [= <-]. split; [apply co_req, Hc|done]. }
  intros id. apply safely_pure. intros Hid. safe. safe.
  - apply safely_catch. safe. apply Request_select_safely.
  - safe. safe. on_result; eauto with safe.
Qed.

Lemma Subscribe_safely topic h lim : sized topic -> safely any (Subscribe topic h lim).
Proof.
  intros. unfold Subscribe. case_decide; [eauto with safe|]. destruct h as [h|]; [|eauto with safe].
  safe. safe. safe. on_result; [|eauto with safe]. safe. safe. eauto with safe.
Qed.

Lemma Unsubscribe_safely topic : sized topic -> safely any (Unsubscribe topic).
Proof. intros. unfold Unsubscribe. case_decide; [eauto with safe|]. safe. safe. eauto with safe. Qed.

(** *** Tunnels *)

Lemma initTunnel_select_safely id : isu64 id -> safely any (initTunnel_select id).
Proof.
  intros Hid. unfold initTunnel_select, initTunnel_wait, initTunnel_ready. safe. safe; [|on_result; [safe|]; eauto 6 with safe].
  apply safely_select; [done| |].
  - intros w c Hc _. assert (keeps c c) as Hk by done. destruct w; try done.
    + rewrite bind_eq. cbn [gets]. destruct (tunInit (c_tuns c) !! id); [done|]. intros Hb.
      destruct (recv_term_returns _ _ Hb) as [_ ->]. unfold on_tuns. rewrite bind_eq, lift_eq. cbn [fst snd].
      split_and!; [done| |by apply keeps_tuns]. apply conn_ok_tuns; [done|]. apply tun_unwait_ok, co_tuns, Hc.
    + rewrite bind_eq. cbn [gets]. by destruct (tunInit (c_tuns c) !! id).
  - intros _ c _ _ Ht. destruct (tunInit (c_tuns c) !! id) as [b|] eqn:E.
    + exists WakeInit. rewrite bind_eq. cbn [gets]. by rewrite E.
    + exists WakeTerm. rewrite bind_eq. cbn [gets]. rewrite E. unfold recv_term. rewrite bind_eq, Ht.
      unfold on_tuns. by rewrite bind_eq, lift_eq.
Qed.

Lemma newTunnel_known c id : conn_ok c -> fst (on_tuns newTunnel c) = Ok id ->
  isu64 id /\ is_Some (tunnels (c_tuns (snd (on_tuns newTunnel c))) !! id).
Proof.
  intros Hc. unfold on_tuns. rewrite lift_eq. simpl. unfold newTunnel.
  destruct (tunLive (c_tuns c)); [|done]. intros [= <-]. split; [apply (to_idx _ (co_tuns _ Hc))|].
  simpl. rewrite lookup_insert_eq. by eexists.
Qed.

Lemma initTunnel_safely cluster t : sized cluster -> safely any (initTunnel cluster t).
Proof.
  intros. unfold initTunnel. repeat (case_decide || case_test); eauto 6 with safe.
  eapply (safely_do _ _ _ _ _ _ (λ id _, isu64 id /\ True)); [eauto with safe| |].
  { intros c id Hc _ E. by destruct (newTunnel_known c id Hc E). }
  intros id. apply safely_pure. intros Hid. safe. safe.
  - apply safely_catch. safe. safe. by apply initTunnel_select_safely.
  - on_result; [safe; safe|]; eauto with safe.
Qed.

Lemma acceptTunnel_safely initId chunkLimit : isu64 initId -> limit_ok chunkLimit -> safely any (acceptTunnel initId chunkLimit).
Proof.
  intros. unfold acceptTunnel.
  eapply (safely_do _ _ _ _ _ _ (λ id c, isu64 id /\ is_Some (tunnels (c_tuns c) !! id))); [eauto with safe| |].
  { intros c id Hc _. by apply newTunnel_known. }
  intros id. apply safely_pure. intros Hid.
  assert (stable (λ c, is_Some (tunnels (c_tuns c) !! id))) as Hs.
  { apply stable_grows. intros c c' Hg. apply (gr_tunnels _ _ Hg). }
  apply safely_bind; [done|eauto with safe|intros _].
  apply safely_bind; [done|apply safely_atomic, stretch_tunnel; [by intros t [? _]|done]|intros _].
  eapply safely_weaken; [|instantiate (1 := any)]; [done|]. safe. safe.
  - apply safely_catch. safe. safe. eauto with safe.
  - on_result; [safe; safe|]; eauto with safe.
Qed.

(** *** Events *)

Lemma serve_event_safely p job : safely (λ c, (p < length (topics (c_subs c)))%nat) (serve_event p job).
Proof.
  assert (stable (λ c, (p < length (topics (c_subs c)))%nat)) as Hs.
  { apply stable_grows. intros c c' Hg Hp. pose proof (gr_topics _ _ Hg). lia. }
  apply safely_bind; [done|by apply safely_atomic, stretch_topic|intros call].
  eapply safely_weaken; [|instantiate (1 := any)]; [done|]. safe. eauto with safe.
Qed.

Lemma handlePublish_safely topic event : safely any (conn_handlePublish topic event).
Proof.
  unfold conn_handlePublish.
  eapply (safely_do _ _ _ _ _ _ (λ p c, forall q, p = Some q -> (q < length (topics (c_subs c)))%nat)).
  - apply stretch_subs. intros c Hc _. split_and!; [done|apply co_subs, Hc|done].
  - intros c p Hc _. unfold on_subs. rewrite lift_eq. intros [= <-] q Hq. by eapply (co_subs _ Hc).
  - intros [p|]; [|apply safely_ret].
    assert (stable (λ c, (p < length (topics (c_subs c)))%nat)) as Hs.
    { apply stable_grows. intros c c' Hg Hp. pose proof (gr_topics _ _ Hg). lia. }
    eapply safely_weaken; [intros c Hp; exact (Hp p eq_refl)|].
    apply safely_bind; [done|eauto with safe|intros _].
    apply safely_bind; [done|by apply safely_atomic, stretch_topic|intros [id|]; [|apply safely_ret]].
    apply safely_bind; [done|eauto with safe|intros _].
    apply safely_bind; [done|by apply safely_atomic, stretch_topic|intros _].
    apply safely_bind; [done|eauto with safe|intros _]. by apply safely_atomic, stretch_topic.
Qed.

(** *** Goroutines and jobs of a service *)

Lemma stable_handler : stable (λ c, is_Some (c_handler c)).
Proof. apply stable_grows. intros c c' Hg. by rewrite (gr_handler _ _ Hg). Qed.

(** Code that calls the service's handler. *)
Lemma with_handler {A} (f : ServiceHandler -> code A) (g : code A) : (forall h, handler_ok h -> safely any (f h)) ->
  safely (λ c, is_Some (c_handler c)) (h ← atomic (gets c_handler); match h with Some h => f h | None => g end).
Proof.
  intros Hf. eapply (safely_do _ _ _ _ _ _ (λ h _, exists h', h = Some h' /\ handler_ok h')); [eauto with safe| |].
  - intros c h Hc [h' Hh] [= <-]. exists h'. split; [done|]. by apply (co_handler _ Hc).
  - intros h c Hc (h' & -> & Hok). by apply Hf.
Qed.

Lemma handleTunnelInit_safely id n : isu64 id -> limit_ok n -> safely (λ c, is_Some (c_handler c)) (go_handleTunnelInit id n).
Proof.
  intros Hid Hn. unfold go_handleTunnelInit. apply safely_bind; [apply stable_handler| |].
  - apply safely_catch. eapply safely_weaken; [|by apply acceptTunnel_safely]. done.
  - intros [err|tun]; [apply safely_ret|]. apply safely_bind; [apply stable_handler|eauto with safe|intros _].
    eapply with_handler. eauto with safe.
Qed.

Lemma run_go_safely g : safely (λ c, go_ok (c_handler c) g) (run_go g).
Proof.
  destruct g as [t e|id r|id n|id n]; cbn [run_go].
  - eapply safely_weaken; [|apply handlePublish_safely]. done.
  - eauto with safe.
  - cbn [go_ok]. apply safely_pure. intros [Hid Hn]. by apply handleTunnelInit_safely.
  - intros c Hc Hid. cbn [go_ok] in Hid. revert c Hc Hid.
    intros c Hc Hid. eapply (safely_bind _ _ _ _ _ any); eauto 6 with safe.
Qed.

Lemma qos_ok_pools h (q q' : qos P) : limits q' = limits q ->
  (is_Some (bcastPool q) <-> is_Some (bcastPool q')) -> (is_Some (reqPool q) <-> is_Some (reqPool q')) ->
  (forall p', reqPool q' = Some p' -> exists p, reqPool q = Some p /\ pool_queued p' ⊆ pool_queued p) ->
  qos_ok h q -> qos_ok h q'.
Proof.
  intros El Hb Hr Hq [Hl Hj]. split.
  - rewrite El. destruct (limits q); [tauto|]. destruct Hl as [E1 E2].
    rewrite E1 in Hb. rewrite E2 in Hr. split; apply eq_None_not_Some; [rewrite <- Hb|rewrite <- Hr]; by intros [].
  - intros p' Hp'. destruct (Hq p' Hp') as (p & Hp & Hsub). specialize (Hj p Hp).
    rewrite !Forall_forall in *. auto.
Qed.

(** The accounts of the queues are of no consequence here. *)
Lemma stretch_account F (f : Connection -> Connection) : (forall c, exists n m k, f c =
    let q := c_qos c in set_qos (Qos (limits q) n (bcastPool q) m (reqPool q) k) c) -> stretch conn_ok keeps F (modify f).
Proof.
  intros Hf. apply stretch_modify. intros c Hc. destruct (Hf c) as (n & m & k & ->). split; [|by apply keeps_qos].
  apply conn_ok_qos; [done|]. eapply qos_ok_pools; [..|apply (co_qos _ Hc)]; try done. simpl. eauto.
Qed.

Lemma run_broadcast_safely job : safely (λ c, is_Some (c_handler c)) (run_broadcast job).
Proof.
  apply safely_bind; [apply stable_handler| |intros _].
  - apply safely_atomic, stretch_account. intros c. by do 3 eexists.
  - apply safely_bind; [apply stable_handler|eauto with safe|intros _]. apply with_handler. eauto with safe.
Qed.

Lemma run_request_safely expired job : req_job_ok job ->
  safely (λ c, is_Some (c_handler c)) (run_request expired job).
Proof.
  destruct job as [[id request] timeout]. cbn. intros Hid. unfold run_request.
  apply safely_bind; [apply stable_handler| |intros _].
  - apply safely_atomic, stretch_account. intros c. by do 3 eexists.
  - destruct expired; [apply safely_ret|].
    apply safely_bind; [apply stable_handler|eauto with safe|intros _]. apply with_handler. intros h Hh.
    specialize (Hh request). destruct (sh_HandleRequest h request) as [reply err]. simpl in Hh. destruct Hh.
    safe. safe. safe. eauto with safe.
Qed.

(** *** The end *)

Lemma Close_safely : (frees -> False) -> safely any conn_Close.
Proof.
  intros Hf. unfold conn_Close. safe. safe. safe.
  { apply safely_atomic, stretch_modify. intros c Hc.
    destruct (c_quit c); (split; [try done; by apply conn_ok_quit|by split; [split|]]). }
  safe.
  - apply safely_select; [done| |by intros ?%Hf].
    intros w c Hc _. destruct w; try done. unfold quit_take. destruct (c_quit c); try done. intros _.
    split_and!; [done|by apply conn_ok_quit|by split; [split|]].
  - safe. safe. on_result; eauto with safe.
Qed.

(** Pools replaced by others with no more in them. *)
Lemma stretch_pools F (f : Connection -> Connection) :
  (forall c, exists b r, f c = (let q := c_qos c in set_qos (Qos (limits q) (bcastIdx q) b (bcastUsed q) r (reqUsed q)) c) /\
     (is_Some (bcastPool (c_qos c)) <-> is_Some b) /\ (is_Some (reqPool (c_qos c)) <-> is_Some r) /\
     (forall p', r = Some p' -> exists p, reqPool (c_qos c) = Some p /\ pool_queued p' ⊆ pool_queued p)) ->
  stretch conn_ok keeps F (modify f).
Proof.
  intros Hf. apply stretch_modify. intros c Hc. destruct (Hf c) as (b & r & -> & Hb & Hr & Hq).
  split; [|by apply keeps_qos]. apply conn_ok_qos; [done|].
  by eapply qos_ok_pools; [..|apply (co_qos _ Hc)].
Qed.

Lemma start_bcastPool_safely : safely any (atomic (modify start_bcastPool) : code unit).
Proof.
  apply safely_atomic, stretch_pools. intros c. do 2 eexists. split_and!; [done| |done|eauto].
  by destruct (bcastPool (c_qos c)); split; intros [].
Qed.

Lemma start_reqPool_safely : safely any (atomic (modify start_reqPool) : code unit).
Proof.
  apply safely_atomic, stretch_pools. intros c. do 2 eexists. split_and!; [done|done| |].
  - by destruct (reqPool (c_qos c)); split; intros [].
  - destruct (reqPool (c_qos c)) as [p|]; [|done]. intros p' [= <-]. exists p. by rewrite Start_queued.
Qed.

Lemma drop_broadcasts_safely : safely any (atomic (modify drop_broadcasts) : code unit).
Proof.
  apply safely_atomic, stretch_pools. intros c. do 2 eexists. split_and!; [done| |done|eauto].
  by destruct (bcastPool (c_qos c)); split; intros [].
Qed.

Lemma drop_requests_safely : safely any (atomic (modify drop_requests) : code unit).
Proof.
  apply safely_atomic, stretch_pools. intros c. do 2 eexists. split_and!; [done|done| |].
  - by destruct (reqPool (c_qos c)); split; intros [].
  - destruct (reqPool (c_qos c)) as [p|]; [|done]. intros p' [= <-]. exists p. rewrite Terminate_queued.
    split; [done|]. by intros j ?%elem_of_nil.
Qed.

Lemma Unregister_safely : (frees -> False) -> safely any Unregister.
Proof.
  intros Hf. unfold Unregister. safe; [by apply safely_catch, Close_safely|]. safe.
  safe; [apply drop_requests_safely|]. safe. safe; [apply drop_broadcasts_safely|]. on_result; eauto with safe.
Qed.

Lemma Register_init_safely h : (frees -> False) -> safely any (Register_init h).
Proof.
  intros Hf. unfold Register_init. safe. safe. safe. destruct (sh_Init h) as [err|].
  - safe; [by apply safely_catch, Close_safely|]. eauto with safe.
  - safe; [apply start_bcastPool_safely|]. safe. apply start_reqPool_safely.
Qed.
End programs.

(** ** Calls on a tunnel *)

Section tunnel_calls.
Context `{GoRuntime} {Q : Type} `{Queue slice Q} {P : Type -> Type} `{ThreadPool P} {TH : Type}.
Local Abbreviation Connection := (Connection Q P TH).
Local Abbreviation tcode := (prog (tstate Q) wake).
Implicit Types c : Connection.

(** What a stretch may do to the tunnel [t] and the link: goroutines it leaves behind
    send allowances for the tunnel. *)
Definition runs_ok (t : Tunnel Q) (s : tstate Q) : Prop :=
  link_ok (ts_link s) /\ t_term (ts_tun s) = t_term t /\ t_id (ts_tun s) = t_id t /\ tun_ok (ts_tun s) /\
  Forall (λ g, fst g = t_id t) (ts_go s).

(** A program on a tunnel that, whatever states it finds the tunnel and the link in,
    does no more than that and ends with an outcome in [rets]; its [select]s are
    ready when the tunnel is closed. *)
Fixpoint tame {A} (rets : outcome A -> Prop) (p : tcode A) : Prop :=
  match p with
  | Ret o => rets o
  | Act m k => forall t l, tun_ok t -> link_ok l ->
      let '(o, s) := m (TS t l []) in o <> Block /\ runs_ok t s /\ tame rets (k o)
  | Yield k => tame rets k
  | Select alt k => forall t l, tun_ok t -> link_ok l ->
      (forall w, let '(o, s) := alt w (TS t l []) in o <> Block -> runs_ok t s /\ tame rets (k o)) /\
      (t_term t = true -> exists w, fst (alt w (TS t l [])) <> Block)
  end.

Lemma tame_bind {A B} rets (f : A -> tcode B) (p : tcode A) :
  tame (λ o, tame rets (oseq f o)) p -> tame rets (x ← p; f x).
Proof.
  change (x ← p; f x) with (pbind f p).
  induction p as [o|C m k IH|k IH|C alt k IH]; simpl; [done| |by auto|].
  - intros Hm t l Ht Hl. specialize (Hm t l Ht Hl). destruct (m (TS t l [])) as [o s].
    destruct Hm as (? & ? & ?). auto.
  - intros Hm t l Ht Hl. destruct (Hm t l Ht Hl) as [Ha Hf]. split; [|done]. intros w. specialize (Ha w).
    destruct (alt w (TS t l [])) as [o s]. intros Ho. destruct (Ha Ho). auto.
Qed.

Lemma tame_mono {A} (rets rets' : outcome A -> Prop) (p : tcode A) : (forall o, rets o -> rets' o) ->
  tame rets p -> tame rets' p.
Proof.
  intros Hr. induction p as [o|C m k IH|k IH|C alt k IH]; simpl; [auto| |by auto|].
  - intros Hm t l Ht Hl. specialize (Hm t l Ht Hl). destruct (m (TS t l [])) as [o s].
    destruct Hm as (? & ? & ?). auto.
  - intros Hm t l Ht Hl. destruct (Hm t l Ht Hl) as [Ha Hf]. split; [|done]. intros w. specialize (Ha w).
    destruct (alt w (TS t l [])) as [o s]. intros Ho. destruct (Ha Ho). auto.
Qed.

Lemma tame_go {A} rets (p : tcode A) : tame rets p -> tame rets (yield;; p).
Proof. intros Hp. by apply tame_bind. Qed.

Lemma runs_intro t t' l g : tun_ok t -> link_ok l -> t_term t' = t_term t -> alike t t' ->
  Forall (λ x, fst x = t_id t) g -> runs_ok t (TS t' l g).
Proof. intros [Hi Hl] ? ? [Ei El] ?. split_and!; try done. split; simpl; congruence. Qed.

Lemma runs_same t l : tun_ok t -> link_ok l -> runs_ok t (TS t l []).
Proof. intros. by apply runs_intro. Qed.

(** Reading a field. *)
Lemma tame_gets {A B} rets (f : tstate Q -> A) (g : A -> tcode B) :
  (forall t l, tun_ok t -> tame rets (g (f (TS t l [])))) -> tame rets (x ← atomic (gets f); g x).
Proof. intros Hg. apply tame_bind. intros t l Ht Hl. split; [done|]. split; [by apply runs_same|by apply Hg]. Qed.

(** Sending a packet that names the tunnel. *)
Lemma tame_send rets (m : Z -> M link unit) : (forall id, isu64 id -> tamed (m id)) -> (forall o, returns o -> rets o) ->
  tame rets (atomic (t ← gets ts_tun; on_link (m (t_id t)))).
Proof.
  intros Hm Hr t l [Hid Hlim] Hl. rewrite bind_eq. cbn [gets ts_tun]. unfold on_link. cbn [ts_link].
  destruct (Hm (t_id t) Hid l Hl) as [Hret Hl'].
  destruct (m (t_id t) l) as [o l']. simpl in *. split; [by destruct o|]. split; [by apply runs_same|by apply Hr].
Qed.

(** A closed tunnel lets the [select]s of [Send] and [Recv] go. *)
Lemma closed_ready (t : Tunnel Q) l : t_term t = true ->
  fst ((on_tun recv_tunTerm;; fail (A := unit) ErrClosed) (TS t l [])) <> Block.
Proof. intros Ht. unfold on_tun, recv_tunTerm. rewrite bind_eq. simpl. by rewrite Ht. Qed.

Lemma closed_runs (Φ : outcome unit -> Prop) (t : Tunnel Q) l : tun_ok t -> link_ok l -> Φ (Err ErrClosed) ->
  let '(o, s) := (on_tun recv_tunTerm;; fail ErrClosed) (TS t l []) in o <> Block -> runs_ok t s /\ Φ o.
Proof.
  intros Ht Hl HΦ. unfold on_tun, recv_tunTerm. rewrite bind_eq. simpl.
  destruct (t_term t) eqn:E; [|done]. intros _. split; [by apply runs_same|done].
Qed.

Lemma drain_tame rets need (g : bool -> tcode unit) : (forall b, tame rets (g b)) ->
  tame rets (ok ← atomic (on_tun (drainAllowance need)); g ok).
Proof.
  intros Hg. apply tame_bind. intros t l Ht Hl. unfold on_tun, drainAllowance. simpl.
  destruct (need <=? t_atoiSpace t); (split; [done|split; [by apply runs_intro|apply Hg]]).
Qed.

Lemma sendChunk_tame turns chunk tag d : sized chunk ->
  tame (λ o, returns o \/ o = Diverge) (sendChunk turns chunk tag d).
Proof.
  intros Hc. induction turns as [|turns IH]; [by right|]. cbn [sendChunk]. apply drain_tame. intros [].
  - apply tame_go, (tame_send _ (λ id, sendTunnelTransfer id tag chunk)); [|by left].
    intros id Hid. by apply sendTunnelTransfer_tamed.
  - apply tame_bind. simpl. intros t l Ht Hl. split; [|exists WTerm; by apply closed_ready].
    intros [| |]; cbn [sendChunk_select].
    + apply (closed_runs (λ o, _) t l Ht Hl). by left.
    + destruct d; simpl; [|done]. intros _. split; [by apply runs_same|by left].
    + unfold on_tun, recv_atoiSign. simpl. destruct (t_atoiSign t); [|done]. intros _.
      split; [by apply runs_intro|]. by apply tame_go.
Qed.

Lemma Send_loop_tame fuel turns m d pos : len m <= 2 ^ 62 -> 0 <= pos ->
  tame (λ o, returns o \/ o = Diverge) (Send_loop fuel turns m d pos).
Proof.
  intros Hm. revert pos. induction fuel as [|fuel IH]; intros pos Hp; [by right|]. cbn [Send_loop].
  destruct (Z.ltb_spec pos (len m)) as [Hlt|]; [|by left].
  apply tame_gets. intros t l [_ Hlim]. cbn zeta. unfold limit_ok in Hlim. cbn [ts_tun]. rewrite i64_id by lia.
  set (e := if len m <? pos + t_chunkLimit t then len m else pos + t_chunkLimit t).
  assert (pos <= e) as He by (subst e; case_test; lia).
  rewrite (proj2 (Z.ltb_ge pos 0)), (proj2 (Z.ltb_ge e pos)) by lia. cbn [orb].
  apply tame_bind. eapply tame_mono; [|apply sendChunk_tame].
  - intros o [Ho| ->]; [|by right]. destruct o as [[]|err|?| |]; try done; [|by left].
    apply tame_gets. intros t' l' [_ Hlim']. cbn [ts_tun]. unfold limit_ok in Hlim'. apply IH.
    rewrite i64_id by lia. lia.
  - unfold sized, len in *. rewrite length_take, length_drop. lia.
Qed.

Lemma Send_tame turns m timeout : len (sbytes m) <= 2 ^ 62 ->
  tame (λ o, returns o \/ o = Diverge) (Send turns m timeout).
Proof.
  intros Hm. unfold Send. case_decide; [by left|]. by apply Send_loop_tame.
Qed.

Lemma fetch_tame {A} rets (g : slice -> tcode A) : (forall m, tame rets (g m)) ->
  tame rets (msg ← atomic fetchMessage; g msg).
Proof.
  intros Hg. apply tame_bind. intros t l Ht Hl.
  destruct (queue_items (t_itoaBuf t)) as [|m rest] eqn:Hq.
  - rewrite fetchMessage_nil by done. split; [done|]. split; [by apply runs_intro|apply Hg].
  - destruct (fetchMessage_cons t l [] m rest Hq) as (q & _ & ->). split; [done|].
    split; [|apply Hg]. apply runs_intro; try done. by constructor.
Qed.

(** With several goroutines in [Recv] its own panic is possible; TunnelSync.v. *)
Lemma Recv_tame timeout :
  tame (λ o, returns o \/ o = Panic "signal raised but message unavailable") (Recv timeout).
Proof.
  unfold Recv. apply fetch_tame. intros [m|]; [by left|]. unfold Recv_wait.
  apply tame_bind. simpl. intros t l Ht Hl. split; [|exists WTerm; by apply closed_ready].
  intros [| |]; cbn [Recv_select].
  - apply (closed_runs (λ o, _) t l Ht Hl). by left.
  - destruct (negb (timeout =? 0)); simpl; [|done]. intros _. split; [by apply runs_same|by left].
  - unfold on_tun, recv_itoaSign. simpl. destruct (t_itoaSign t); [|done]. intros _.
    split; [by apply runs_intro|]. apply tame_go, fetch_tame.
    intros [m|]; [by left|by right].
Qed.

Lemma tun_Close_tame : tame returns (tun_Close (Q := Q)).
Proof.
  unfold tun_Close. apply tame_gets. intros t l Ht. cbn [ts_tun]. destruct (t_term t).
  - intros t' l' Ht' Hl'. split; [done|]. split; [by apply runs_same|done].
  - apply tame_go, tame_bind, (tame_send _ sendTunnelClose).
    { intros id Hid. by apply sendTunnelClose_tamed. }
    intros o Ho. destruct o as [[]|err|?| |]; try done. cbn [oseq]. apply tame_bind.
    intros t' l' Ht' Hl'. unfold on_tun, recv_tunTerm. split.
    + intros [| |]; simpl; try done. destruct (t_term t'); [|done]. intros _. split; [by apply runs_same|].
      intros t2 l2 Ht2 Hl2. split; [done|]. split; [by apply runs_same|done].
    + intros E. exists WTerm. simpl. by rewrite E.
Qed.

(** *** On a connection *)

Definition closed (id : Z) c : Prop := exists t, tunnels (c_tuns c) !! id = Some t /\ t_term t = true.

(** A call on a tunnel leaves its closure alone. *)
Definition uses (id : Z) c c' : Prop := keeps c c' /\ (closed id c -> closed id c').

#[global] Instance uses_preorder id : PreOrder (uses id).
Proof. split; [by split|]. intros c1 c2 c3 [? ?] [? ?]. split; [by etrans|auto]. Qed.

Lemma on_tunnel_runs {A} id (m : M (tstate Q) A) c t : conn_ok c -> tunnels (c_tuns c) !! id = Some t ->
  let r := m (TS t (c_link c) []) in runs_ok t (snd r) ->
  fst (on_tunnel id m c) = fst r /\ conn_ok (snd (on_tunnel id m c)) /\ uses id c (snd (on_tunnel id m c)).
Proof.
  intros Hc Ht r. subst r. unfold on_tunnel. rewrite Ht. destruct (m _) as [o s].
  intros (Hl & Hcl & Hd & Hok & Hg). cbn [fst snd].
  pose proof (co_tuns _ Hc) as Hto. split_and!; [done| |split; [split; [split|]|]]; try done.
  - apply conn_ok_go.
    + apply conn_ok_link; [|done]. apply conn_ok_tuns; [done|]. by eapply tunnels_ok_insert.
    + apply Forall_map. eapply Forall_impl; [exact Hg|]. intros g Hgi. simpl. rewrite Hgi. by apply (to_tun _ Hto id).
  - cbn. apply insert_known.
  - intros (t' & Ht' & Hc'). assert (t' = t) as -> by congruence.
    exists (ts_tun s). cbn. rewrite lookup_insert_eq. split; [done|]. simpl in Hcl. by rewrite Hcl.
Qed.

Lemma tunnel_call_safe frees {A} (rets : outcome A -> Prop) id p c :
  conn_ok c -> is_Some (tunnels (c_tuns c) !! id) -> tame rets p ->
  safe conn_ok grows (uses id) (closed id) frees (λ o _, rets o) (tunnel_call id p) c.
Proof.
  unfold tunnel_call. revert c. induction p as [o|C m k IH|k IH|C alt k IH]; intros c Hc Hid Hp; simpl in *; [done| | |].
  - destruct Hid as [t Ht]. specialize (Hp t (c_link c) (to_tun _ (co_tuns _ Hc) id t Ht) (co_link _ Hc)).
    pose proof (on_tunnel_runs id m c t Hc Ht) as Hon. cbn zeta in Hon.
    destruct (m (TS t (c_link c) [])) as [o s]. destruct Hp as (Ho & Hr & Hk). destruct (Hon Hr) as (Eo & Hc' & Hu).
    destruct (on_tunnel id m c) as [o' c']. simpl in *. subst o'. split_and!; [done..|].
    apply IH; [done| |done]. eapply (gr_tunnels _ _ (proj1 (proj1 Hu))). by eexists.
  - intros c1 Hg Hc1. apply IH; [done|by apply (gr_tunnels _ _ Hg)|done].
  - intros c1 Hg Hc1. assert (is_Some (tunnels (c_tuns c1) !! id)) as [t Ht] by by apply (gr_tunnels _ _ Hg).
    destruct (Hp t (c_link c1) (to_tun _ (co_tuns _ Hc1) id t Ht) (co_link _ Hc1)) as [Ha Hf]. split.
    + intros w. destruct (tunnel_case w) as [w'|]; [|done]. specialize (Ha w').
      pose proof (on_tunnel_runs id (alt w') c1 t Hc1 Ht) as Hon. cbn zeta in Hon. revert Ha Hon.
      destruct (alt w' (TS t (c_link c1) [])) as [o s] eqn:E. intros Ha Hon.
      assert (o <> Block -> fst (on_tunnel id (alt w') c1) = o /\ conn_ok (snd (on_tunnel id (alt w') c1)) /\
        uses id c1 (snd (on_tunnel id (alt w') c1)) /\ tame rets (k o)) as Hgo.
      { intros Ho. destruct (Ha Ho) as [Hr Hk]. destruct (Hon Hr) as (? & ? & ?). done. }
      assert (fst (on_tunnel id (alt w') c1) = o) as Eo by (unfold on_tunnel; by rewrite Ht, E).
      destruct (on_tunnel id (alt w') c1) as [o' c']. simpl in *. subst o'. intros Ho.
      destruct (Hgo Ho) as (_ & Hc' & Hu & Hk). split_and!; [done..|]. apply IH; [done| |done].
      eapply (gr_tunnels _ _ (proj1 (proj1 Hu))). by eexists.
    + intros _ (t' & Ht' & Hcl). assert (t' = t) as -> by congruence. destruct (Hf Hcl) as [w Hw].
      exists (WakeTunnel w). simpl. unfold on_tunnel. rewrite Ht.
      by destruct (alt w (TS t (c_link c1) [])) as [o s].
Qed.
End tunnel_calls.
