(* ===== verification/System.v ===== *)
(** * A connection in use

    The whole connection as one transition system: the receiver, the calls of the
    application (those on a tunnel included), the goroutines and the jobs of the
    handler pools, a stretch of one of them a step, with the packets of a relay
    that keeps to the protocol. No goroutine ever panics, none is left waiting for
    a dead connection, and what a call returns here is what it returns on some
    script of Connection.v. *)

From Stdlib Require Import ZArith Lia Strings.Byte Strings.String.
From stdpp Require Import base gmap strings list relations.
From S2P Require Import Prelude Threads Bufio Wire Packets Receiver Tunnel Limits Quota.
From S2P Require Import Topic Requests Tunnels Connection Events Service Safety.

Open Scope Z_scope.

Section system.
Context `{GoRuntime} {Q : Type} `{Queue slice Q} {P : Type -> Type} `{ThreadPool P} {TH : Type}.
Local Abbreviation Connection := (Connection Q P TH).
Local Abbreviation code := (prog Connection cwake).
Implicit Types c : Connection.

(** ** The receiver *)

(** [handleTunnelResult] up to [t.init <- init]. *)
Definition tun_lookupResult (id chunkLimit : Z) : M (tuns (Q := Q)) bool :=
  live ← gets (is_live id);
  if live : bool then upd_tunnel id (handleInitResult chunkLimit)
  else panic "invalid memory address or nil pointer dereference".

(** The receiver waits until [initTunnel] takes the result. *)
Definition receive_result (id chunkLimit : Z) : code unit :=
  init ← atomic (on_tuns (tun_lookupResult id chunkLimit));
  select (λ _, on_tuns (tun_sendInit id init)).

(** A turn of the loop of [process]: the handler of a packet. *)
Definition receive (p : InPacket) : code unit :=
  match p with
  | ITunTimeout id => receive_result id 0
  | ITunResult id n => receive_result id (i64 n)
  | _ => atomic (deliver p)
  end.

(** What [process] does when its loop has ended. *)
Definition go_down (err : option error) : code unit :=
  atomic conn_sockClose;;
  yield;;
  atomic conn_closeTerm;;
  yield;;
  atomic (conn_notifyDrop err);;
  yield;;
  atomic (on_tuns tun_closeAll);;
  yield;;
  select (λ _, conn_syncQuit err).

(** Left to itself the receiver does what [deliver] and [shutdown] do. *)
Lemma receive_deliver p c c' w : deliver p c = (Ok tt, c') ->
  exists env, play (receive p) (CS c env) = (Ok tt, CS c' []) /\ Forall (λ x, x = (id, w)) env.
Proof.
  assert (forall i n, on_tuns (tun_handleResult i n) c = (Ok tt, c') ->
    play (receive_result i n) (CS c [(id, w)]) = (Ok tt, CS c' [])) as Hres.
  { intros i n. unfold on_tuns. rewrite lift_eq. unfold tun_handleResult. rewrite bind_eq. cbn [gets].
    unfold receive_result, on_tuns. rewrite play_bind, play_atomic, lift_eq. unfold tun_lookupResult.
    rewrite bind_eq. cbn [gets]. destruct (is_live i (c_tuns c)); [|done]. rewrite bind_eq.
    destruct (upd_tunnel i (handleInitResult n) (c_tuns c)) as [[b|?|?| |] s]; try done.
    cbn [fst snd]. rewrite play_select, lift_eq. cbn [id c_tuns set_tuns].
    destruct (tun_sendInit i b s) as [o s']. cbn [fst snd]. by intros [= -> <-]. }
  intros E. destruct p; try (exists []; split; [|constructor]; cbn [receive]; by rewrite play_atomic, E).
  - exists [(Datatypes.id, w)]. split; [by apply Hres|by repeat constructor].
  - exists [(Datatypes.id, w)]. split; [by apply Hres|by repeat constructor].
Qed.

Lemma go_down_shutdown err c c' w : shutdown err c = (Ok tt, c') ->
  play (go_down err) (CS c (replicate 5 (id, w))) = (Ok tt, CS c' []).
Proof.
  unfold shutdown, go_down. cbn [sockClose closeTerm handleClose syncQuit conn_handlers replicate].
  unfold conn_handleClose. rewrite !bind_eq.
  destruct (conn_sockClose c) as [[[]|?|?| |] c1] eqn:E1; try done. rewrite (play_do _ _ _ _ _ _ E1), play_go.
  rewrite bind_eq. cbn [id].
  destruct (conn_closeTerm c1) as [[[]|?|?| |] c2] eqn:E2; try done. rewrite (play_do _ _ _ _ _ _ E2), play_go.
  rewrite !bind_eq. cbn [id].
  destruct (conn_notifyDrop err c2) as [[[]|?|?| |] c3] eqn:E3; try done. rewrite (play_do _ _ _ _ _ _ E3), play_go.
  cbn [id].
  destruct (on_tuns tun_closeAll c3) as [[[]|?|?| |] c4] eqn:E4; try done. rewrite (play_do _ _ _ _ _ _ E4), play_go.
  cbn [id]. rewrite play_select. cbn [id]. by intros ->.
Qed.

(** ** What the receiver does is safe *)

(** The packets of a relay that keeps to the protocol: broadcasts, requests and
    inbound tunnels only to a service, one answer to a request in progress, the
    result of a construction only while its tunnel is in the table, no transfer
    that announces more than can be allocated, chunk limits that are not negative
    and below 2^62. *)
Definition expected (p : InPacket) c : Prop :=
  match p with
  | IBroadcast _ | IRequest _ _ _ => is_Some (limits (c_qos c))
  | IReply id _ => reqReps (c_reqs c) !! id = Some None
  | ITimeout id | IFault id _ => reqErrs (c_reqs c) !! id = Some None
  | ITunInit _ n => limit_ok (i64 n) /\ is_Some (c_handler c)
  | ITunTimeout id => is_live id (c_tuns c) = true
  | ITunResult id n => is_live id (c_tuns c) = true /\ i64 n < 2 ^ 62
  | ITunTransfer id n _ => is_live id (c_tuns c) = true -> 0 <= i64 n <= maxAlloc
  | _ => True
  end.

Local Abbreviation stretch := (Threads.stretch conn_ok keeps).

Lemma stretch_go F g : (forall c, F c -> go_ok (c_handler c) g) -> stretch F (modify (add_go [g])).
Proof.
  intros Hg c Hc HF. split_and!; [done| |by split; [split|]]. apply conn_ok_go; [done|]. constructor; [auto|constructor].
Qed.

Lemma broadcast_stretch m : stretch (λ c, is_Some (limits (c_qos c))) (conn_handleBroadcast m).
Proof.
  intros c Hc [lim Hlim]. unfold conn_handleBroadcast. rewrite Hlim.
  pose proof (co_qos _ Hc) as Hq. pose proof (proj1 Hq) as H3. rewrite Hlim in H3.
  destruct H3 as (_ & [p Hp] & _).
  assert (forall i p' n, conn_ok (set_qos (Qos (limits (c_qos c)) i (Some p') n (reqPool (c_qos c)) (reqUsed (c_qos c))) c)) as Hk.
  { intros i p' n. apply conn_ok_qos; [done|]. apply (qos_ok_pools _ (c_qos c)); try done; cbn; rewrite ?Hp; eauto. }
  rewrite Hp. destruct (quota_fits _ _ _); cbn [fst snd]; rewrite <- Hlim; (split_and!; [done|apply Hk|by apply keeps_qos]).
Qed.

Lemma request_stretch id r t : isu64 id -> stretch (λ c, is_Some (limits (c_qos c))) (conn_handleRequest id r t).
Proof.
  intros Hid c Hc [lim Hlim]. unfold conn_handleRequest. rewrite Hlim.
  pose proof (co_qos _ Hc) as Hq. destruct Hq as [H3 Hj]. rewrite Hlim in H3.
  destruct H3 as (Hh & Hb & [p Hp]). specialize (Hj p Hp).
  destruct (quota_fits _ _ _); [rewrite Hp|done]. cbn [fst snd].
  split_and!; [done|apply conn_ok_qos; [done|]|by apply keeps_qos]. split; cbn; [by eauto|].
  intros p' [= <-]. rewrite (Schedule_queued req_job). destruct (pool_live p); [|done].
  apply Forall_app. split; [done|]. by constructor.
Qed.

Lemma reply_stretch id (reply : slice) fault :
  stretch (λ c, match reply with
                | Some _ => reqReps (c_reqs c) !! id = Some None
                | None => reqErrs (c_reqs c) !! id = Some None
                end) (conn_handleReply id reply fault).
Proof.
  intros c Hc HF. unfold conn_handleReply, on_reqs. rewrite lift_eq. unfold req_handleReply, chan_send.
  assert (forall m m', conn_ok (set_reqs (Reqs (reqIdx (c_reqs c)) m m') c) /\
    keeps c (set_reqs (Reqs (reqIdx (c_reqs c)) m m') c)) as Hk.
  { intros m m'. split; [by apply conn_ok_reqs, co_req|by split; [split|]]. }
  destruct reply as [r|]; [|destruct fault]; rewrite HF; by split; [|apply Hk].
Qed.

Lemma allowance_stretch id n (F : Connection -> Prop) : stretch F (conn_handleTunnelAllowance id n).
Proof.
  apply stretch_tuns. intros c Hc _. cbn zeta. unfold tun_handleAllowance. rewrite !bind_eq. cbn [gets].
  destruct (is_live id (c_tuns c)) eqn:Hl; [|split_and!; [done|apply co_tuns, Hc|done]].
  destruct (to_live _ (co_tuns _ Hc) id Hl) as (t & Ht & _).
  apply upd_tunnel_ok; [by intros t' [? ?]|by eexists|apply co_tuns, Hc].
Qed.

Lemma transfer_runs size chunk (t : Tunnel Q) l : 0 <= size <= maxAlloc -> tun_ok t -> link_ok l ->
  fst (handleTransfer size chunk (TS t l [])) = Ok tt /\ runs_ok t (snd (handleTransfer size chunk (TS t l []))).
Proof.
  intros Hs Ht Hl. unfold handleTransfer, on_tun, go_sendTunnelAllowance.
  destruct (Z.eqb_spec size 0) as [->|Hz]; cbn [negb]; run.
  - destruct (_ =? _); (split; [done|by apply runs_intro]).
  - rewrite (proj2 (Z.ltb_ge _ _)), (proj2 (Z.ltb_ge _ _)) by lia. cbn [orb].
    destruct (t_chunkBuf t) as [[d n]|]; run; destruct (_ =? _); (split; [done|apply runs_intro; try done; by constructor]).
Qed.

Lemma deliver_stretch p : in_ok p -> (forall id n, p <> ITunTimeout id /\ p <> ITunResult id n) ->
  stretch (expected p) (deliver p).
Proof.
  intros Hp Hn. destruct p as [m|id r t|id|id r|id f|t e|id n|id|id n|id n|id n d|id r]; cbn [deliver].
  - apply broadcast_stretch.
  - apply request_stretch, Hp.
  - apply (reply_stretch id None []).
  - apply (reply_stretch id (Some r) []).
  - apply (reply_stretch id None f).
  - by apply stretch_go.
  - apply stretch_go. intros c [Hn' Hc]. split; [split; [apply Hp|exact Hn']|exact Hc].
  - by destruct (Hn id 0).
  - by destruct (Hn id n) as [_ ?].
  - apply allowance_stretch.
  - intros c Hc Hex. cbn [handleTunnelTransfer conn_handlers]. unfold conn_handleTunnelTransfer. rewrite bind_eq. cbn [gets].
    destruct (is_live id (c_tuns c)) eqn:Hl; [|by split_and!].
    destruct (to_live _ (co_tuns _ Hc) id Hl) as (t & Ht & _).
    destruct (transfer_runs (i64 n) d t (c_link c) (Hex Hl) (to_tun _ (co_tuns _ Hc) id t Ht) (co_link _ Hc)) as [Eo Hr].
    destruct (on_tunnel_runs id _ c t Hc Ht Hr) as (Er & Hc' & Hk & _). split_and!; [by rewrite Er, Eo|done|apply Hk..].
  - by apply stretch_go.
Qed.

(** Among goroutines that do not end the connection the receiver ends none of its
    turns badly. Its [select]s may wait for good: [False]. *)
Local Abbreviation receives := (safely conn_ok keeps keeps (λ c, c_term c = true) False).

Lemma lookup_stretch id n : n < 2 ^ 62 ->
  stretch (λ c, is_live id (c_tuns c) = true) (on_tuns (tun_lookupResult id n)).
Proof.
  intros Hlim.
  apply stretch_tuns. intros c Hc Hl. cbn zeta. unfold tun_lookupResult. rewrite !bind_eq. cbn [gets]. rewrite Hl.
  destruct (to_live _ (co_tuns _ Hc) id Hl) as (t & Ht & _).
  apply upd_tunnel_ok; [|by eexists|apply co_tuns, Hc].
  intros t' [Hi Hl']. unfold handleInitResult, tun_ok, limit_ok in *.
  destruct (Z.ltb_spec 0 n); simpl; split_and!; try done; lia.
Qed.

Lemma receive_result_safely id n : n < 2 ^ 62 ->
  receives (λ c, is_live id (c_tuns c) = true) (receive_result id n).
Proof.
  intros Hn. eapply (safely_do _ _ _ _ _ _ (λ _ _, True)); [by apply lookup_stretch|done|]. intros init.
  apply safely_select; [done| |done]. intros w c Hc _. unfold on_tuns. rewrite lift_eq. unfold tun_sendInit.
  destruct (decide (id ∈ tunWait (c_tuns c))); [|done]. intros _. cbn [fst snd].
  split_and!; [done|apply conn_ok_tuns; [done|]|by apply keeps_tuns].
  by eapply tunnels_ok_same; [exact (co_tuns _ Hc)|..].
Qed.

Lemma receive_safely p : in_ok p -> receives (expected p) (receive p).
Proof.
  intros Hp. destruct p; cbn [receive];
    try (apply safely_atomic, deliver_stretch; [exact Hp|by intros]).
  - apply receive_result_safely. lia.
  - intros c Hc [Hl Hn]. by apply receive_result_safely.
Qed.

(** Ending, it changes [c_term], but takes nothing else away. *)
Local Abbreviation ends := (safely conn_ok keeps grows (λ c, c_term c = true) False).

Lemma keeps_grows c c' : keeps c c' -> grows c c'.
Proof. by intros []. Qed.

Lemma closeAll_ok (u : tuns (Q := Q)) : tunnels_ok u ->
  fst (tun_closeAll u) = Ok tt /\ tunnels_ok (snd (tun_closeAll u)) /\
  (forall i, is_Some (tunnels u !! i) -> is_Some (tunnels (snd (tun_closeAll u)) !! i)) /\
  (forall i, is_live i u = true -> exists t, tunnels (snd (tun_closeAll u)) !! i = Some t /\ t_term t = true).
Proof.
  intros [Hx Hl Hi]. destruct (closeAll_spec u Hl) as (ts & -> & Hin & Hout & Hal). cbn [fst snd].
  split_and!; [done|split; [done|done|]| |exact Hin].
  - intros i t Ht. destruct (Hal i t Ht) as (t0 & Ht0 & Ei & El). destruct (Hi i t0 Ht0). split; simpl; congruence.
  - intros i Hs. destruct (is_live i u) eqn:E; [destruct (Hin i E) as (t & Ht & _); by exists t|]. simpl. by rewrite (Hout i E).
Qed.

Lemma go_down_safely err : ends (λ c, c_term c = false) (go_down err).
Proof.
  assert (forall c c', keeps c c' -> c_term c = false -> c_term c' = false) as Hkt by (intros c c' [_ ->]; done).
  unfold go_down. eapply (safely_do _ _ _ _ _ _ (λ _ c, c_term c = false)).
  { intros c Hc _. cbn [conn_sockClose modify fst snd]. pose proof (co_link _ Hc) as (? & ? & Hw).
    split_and!; [done|apply conn_ok_link; [done|]|by split]. split_and!; [done..|].
    cbn. intros He. destruct (Hw He). by split. }
  { by intros c a _ Ht _. }
  intros _. apply safely_go; [done|]. eapply (safely_do _ _ _ _ _ _ (λ _ _, True)); [|done|intros _].
  { intros c Hc Ht. unfold conn_closeTerm. rewrite Ht. cbn. split_and!; [done|by apply conn_ok_term|by split]. }
  apply safely_go; [done|]. eapply (safely_do _ _ _ _ _ _ (λ _ _, True)); [|done|intros _].
  { intros c Hc _. unfold conn_notifyDrop. rewrite bind_eq. cbn [gets modify fst snd].
    destruct err, (c_handler c); (split_and!; [done|by try apply conn_ok_call|by split]). }
  apply safely_go; [done|]. eapply (safely_do _ _ _ _ _ _ (λ _ _, True)); [|done|intros _].
  { intros c Hc _. unfold on_tuns. rewrite lift_eq. destruct (closeAll_ok _ (co_tuns _ Hc)) as (-> & Ho & Hk & _).
    split_and!; [done|by apply conn_ok_tuns|by apply keeps_grows, keeps_tuns]. }
  apply safely_go; [done|]. apply safely_select; [done| |done].
  intros w c Hc _. unfold conn_syncQuit. destruct (c_quit c); try done. intros _.
  split_and!; [done|by apply conn_ok_quit|by split].
Qed.

(** ** The goroutines *)

(** The calls of the application. *)
Inductive api :=
| ABroadcast (cluster : gostring) (message : slice)
| APublish (topic : gostring) (event : slice)
| ARequest (cluster : gostring) (request : slice) (timeout : Z)
| ASubscribe (topic : gostring) (handler : option TH) (limits : option TopicLimits)
| AUnsubscribe (topic : gostring)
| ATunnel (cluster : gostring) (timeout : Z)
| AClose
| AUnregister
| ASend (id : Z) (message : slice) (timeout : Z) (turns : nat)
| ARecv (id : Z) (timeout : Z)
| ACloseTunnel (id : Z).

(** The tunnel a call is made on. *)
Definition on_which (a : api) : option Z :=
  match a with ASend id _ _ _ | ARecv id _ | ACloseTunnel id => Some id | _ => None end.

(** Strings and slices have a length below 2^63, a message one of at most 2^62. *)
Definition api_ok (a : api) : Prop :=
  match a with
  | ASend _ m _ _ => len (sbytes m) <= 2 ^ 62
  | ARecv _ _ | ACloseTunnel _ => True
  | ABroadcast x m | APublish x m | ARequest x m _ => sized x /\ sized (sbytes m)
  | ASubscribe x _ _ | AUnsubscribe x | ATunnel x _ => sized x
  | AClose | AUnregister => True
  end.

(** Where a goroutine comes from: the application, the receiver, a worker of a
    pool, or the registration of the service. *)
Inductive origin :=
| OApi (a : api)
| OGo (g : goroutine)
| OBroadcast (job : bcast_job)
| ORequest (expired : bool) (job : req_job)
| OEvent (p : nat) (job : event_job)
| OInit (h : ServiceHandler).

(** What a call can return. *)
Inductive value := VUnit | VBytes (reply : slice) | VTunnel (id : Z).

Definition run_api (a : api) : code value :=
  match a with
  | ABroadcast x m => Broadcast x m;; mret VUnit
  | APublish x m => Publish x m;; mret VUnit
  | ARequest x m t => r ← Request x m t; mret (VBytes r)
  | ASubscribe x h l => Subscribe x h l;; mret VUnit
  | AUnsubscribe x => Unsubscribe x;; mret VUnit
  | ATunnel x t => id ← conn_Tunnel x t; mret (VTunnel id)
  | AClose => conn_Close;; mret VUnit
  | AUnregister => Unregister;; mret VUnit
  | ASend id m t turns => tunnel_call id (Send turns m t);; mret VUnit
  | ARecv id t => r ← tunnel_call id (Recv t); mret (VBytes r)
  | ACloseTunnel id =>
      r ← tunnel_call id tun_Close;
      match r with Some err => raise err | None => mret VUnit end
  end.

Definition start (o : origin) : code value :=
  match o with
  | OApi a => run_api a
  | OGo g => run_go g;; mret VUnit
  | OBroadcast job => run_broadcast job;; mret VUnit
  | ORequest e job => run_request e job;; mret VUnit
  | OEvent p job => serve_event p job;; mret VUnit
  | OInit h => Register_init h;; mret VUnit
  end.

Definition spawn (o : origin) : origin * code value := (o, Yield (start o)).

(** [Close] waits for the receiver to stop; nothing else does. *)
Definition waits_for_receiver (o : origin) : bool :=
  match o with OApi AClose | OApi AUnregister | OInit _ => true | _ => false end.

(** A goroutine is over when it has returned. [Send] may also have used up the turns it
    was given, which stand for its waits and can be any number; and [Recv] can end in
    its panic when several goroutines receive on one tunnel. *)
Definition over (o : origin) (r : outcome value) : Prop :=
  returns r \/
  match o with
  | OApi (ASend _ _ _ _) => r = Diverge
  | OApi (ARecv _ _) => r = Panic "signal raised but message unavailable"
  | _ => False
  end.

(** What lets a goroutine return: the end of the connection, or of its tunnel. *)
Definition released (o : origin) : Connection -> Prop :=
  match o with
  | OApi a => match on_which a with Some id => closed id | None => λ c, c_term c = true end
  | _ => λ c, c_term c = true
  end.

(** ** The system *)

(** The receiver: between two packets, handling one, or past its loop. *)
Inductive receiver := Listening | Handling (p : code unit) | Ending (p : code unit).

Record sys := Sys {
  s_conn : Connection;
  s_recv : receiver;
  s_threads : list (origin * code value)
}.

Definition set_go g c : Connection := Conn (c_handler c) (c_reqs c) (c_subs c) (c_tuns c)
  (c_qos c) (c_link c) (c_quit c) (c_term c) g (c_calls c).

(** A worker has taken a job from a pool. *)
Definition with_bcastPool p c : Connection := let q := c_qos c in
  set_qos (Qos (limits q) (bcastIdx q) (Some p) (bcastUsed q) (reqPool q) (reqUsed q)) c.
Definition with_reqPool p c : Connection := let q := c_qos c in
  set_qos (Qos (limits q) (bcastIdx q) (bcastPool q) (bcastUsed q) (Some p) (reqUsed q)) c.
Definition with_eventPool i (t : topic (P := P) (TopicHandler := TH)) p c : Connection :=
  put_topic i (mkTopic (top_handler t) (top_limits t) (eventIdx t) p (eventUsed t)) c.

(** A step: a goroutine is started, a goroutine or the receiver goes on up to the
    next point where it lets go, a packet arrives (which is the label), or the
    receiver's loop ends. *)
Inductive sys_act : option InPacket -> sys -> sys -> Prop :=
| sy_call a c r ts : api_ok a -> (forall id, on_which a = Some id -> is_Some (tunnels (c_tuns c) !! id)) ->
    sys_act None (Sys c r ts) (Sys c r (ts ++ [spawn (OApi a)]))
| sy_go g l1 l2 c r ts : c_go c = l1 ++ g :: l2 ->
    sys_act None (Sys c r ts) (Sys (set_go (l1 ++ l2) c) r (ts ++ [spawn (OGo g)]))
| sy_broadcast job p p' c r ts : bcastPool (c_qos c) = Some p -> (job, p') ∈ pool_next p ->
    sys_act None (Sys c r ts) (Sys (with_bcastPool p' c) r (ts ++ [spawn (OBroadcast job)]))
| sy_request expired job p p' c r ts : reqPool (c_qos c) = Some p -> (job, p') ∈ pool_next p ->
    sys_act None (Sys c r ts) (Sys (with_reqPool p' c) r (ts ++ [spawn (ORequest expired job)]))
| sy_event i t job p' c r ts : topics (c_subs c) !! i = Some t -> (job, p') ∈ pool_next (eventPool t) ->
    sys_act None (Sys c r ts) (Sys (with_eventPool i t p' c) r (ts ++ [spawn (OEvent i job)]))
| sy_run i o p p' c c' r ts : ts !! i = Some (o, p) -> resume p c (p', c') ->
    sys_act None (Sys c r ts) (Sys c' r (<[i := (o, p')]> ts))
| sy_receive p q c c' ts : in_ok p -> expected p c -> run_on (receive p) c = (q, c') ->
    sys_act (Some p) (Sys c Listening ts) (Sys c' (Handling q) ts)
| sy_handle q q' c c' ts : resume q c (q', c') -> sys_act None (Sys c (Handling q) ts) (Sys c' (Handling q') ts)
| sy_handled c ts : sys_act None (Sys c (Handling (Ret (Ok tt))) ts) (Sys c Listening ts)
| sy_end err c ts : sys_act None (Sys c Listening ts) (Sys c (Ending (Yield (go_down err))) ts)
| sy_down q q' c c' ts : resume q c (q', c') -> sys_act None (Sys c (Ending q) ts) (Sys c' (Ending q') ts).

Definition sys_step (s s' : sys) : Prop := exists l, sys_act l s s'.

Lemma reach_act l s s' : sys_act l s s' -> reach sys_step s s'.
Proof. intros Hs. apply reach_one. by exists l. Qed.

(** The states that can be reached from one, with the packets that have arrived. *)
Inductive history (s0 : sys) : list InPacket -> sys -> Prop :=
| hist_start : history s0 [] s0
| hist_act h l s s' : history s0 h s -> sys_act l s s' -> history s0 (h ++ option_list l) s'.

Lemma history_reach s0 h s : history s0 h s -> reach sys_step s0 s.
Proof. induction 1 as [|h l s s' _ IH Hs]; [constructor|]. eapply reach_step; [exact IH|]. by exists l. Qed.

Lemma reach_history s0 s : reach sys_step s0 s -> exists h, history s0 h s.
Proof. induction 1 as [|s s' _ [h Hh] [l Hl]]; eexists; by econstructor. Qed.

Lemma hist_quiet s0 h s s' : history s0 h s -> sys_act None s s' -> history s0 h s'.
Proof. intros Hh Hs. pose proof (hist_act s0 h None s s' Hh Hs) as H'. simpl in H'. by rewrite app_nil_r in H'. Qed.

(** *** Running it *)

(** A call is made; goroutine [i] goes on, with the case [w] of its [select]; a
    packet arrives and is handled. *)
Definition call (a : api) (s : sys) : sys := Sys (s_conn s) (s_recv s) (s_threads s ++ [spawn (OApi a)]).

Definition advance (w : cwake) (i : nat) (s : sys) : sys :=
  match s_threads s !! i with
  | Some (o, Yield k) =>
      let '(p, c) := run_on k (s_conn s) in Sys c (s_recv s) (<[i := (o, p)]> (s_threads s))
  | Some (o, Select alt k) =>
      match alt w (s_conn s) with
      | (Block, _) => s
      | (r, c) => let '(p, c) := run_on (k r) c in Sys c (s_recv s) (<[i := (o, p)]> (s_threads s))
      end
  | _ => s
  end.

Definition arrive (p : InPacket) (s : sys) : sys :=
  let '(q, c) := run_on (receive p) (s_conn s) in
  Sys c (match q with Ret (Ok tt) => Listening | _ => Handling q end) (s_threads s).

(** The first goroutine the receiver has left behind starts. *)
Definition begin (s : sys) : sys :=
  match c_go (s_conn s) with
  | g :: l => Sys (set_go l (s_conn s)) (s_recv s) (s_threads s ++ [spawn (OGo g)])
  | [] => s
  end.

(** The receiver, parked in the handler of a packet, finishes. *)
Definition finish_packet (w : cwake) (s : sys) : sys :=
  match s_recv s with
  | Handling (Select alt k) =>
      match alt w (s_conn s) with
      | (Block, _) => s
      | (r, c) => let '(q, c) := run_on (k r) c in
          Sys c (match q with Ret (Ok tt) => Listening | _ => Handling q end) (s_threads s)
      end
  | _ => s
  end.

(** Steps at which no packet arrives. *)
Definition quietly : sys -> sys -> Prop := reach (sys_act None).

Lemma quietly_history s0 h s s' : quietly s s' -> history s0 h s -> history s0 h s'.
Proof. induction 1 as [|s1 s2 _ IH Hs]; [done|]. intros Hh. eapply hist_quiet; [by apply IH|exact Hs]. Qed.

Lemma quietly_reach s s' : quietly s s' -> reach sys_step s s'.
Proof. induction 1 as [|s1 s2 _ IH Hs]; [constructor|]. eapply reach_step; [exact IH|by eexists]. Qed.

Lemma call_quietly a s : api_ok a -> on_which a = None -> quietly s (call a s).
Proof. intros Ha Hw. destruct s. apply reach_one, sy_call; [done|]. by rewrite Hw. Qed.

Lemma advance_quietly w i s : quietly s (advance w i s).
Proof.
  destruct s as [c r ts]. unfold advance. simpl.
  destruct (ts !! i) as [[o [| |k|B alt k]]|] eqn:Ei; try constructor.
  - destruct (run_on k c) as [p c'] eqn:E. apply reach_one. by eapply sy_run.
  - destruct (alt w c) as [x c1] eqn:Ea. assert (x = Block \/ x <> Block) as [->|Hx] by (destruct x; auto); [constructor|].
    assert (quietly (Sys c r ts) (let '(p, c2) := run_on (k x) c1 in Sys c2 r (<[i := (o, p)]> ts))) as Hn; [|by destruct x].
    destruct (run_on (k x) c1) as [p c2] eqn:E. apply reach_one. eapply sy_run; [done|]. exists w. by rewrite Ea.
Qed.

Lemma begin_quietly s : quietly s (begin s).
Proof.
  destruct s as [c r ts]. unfold begin. simpl. destruct (c_go c) as [|g l] eqn:E; [constructor|].
  apply reach_one. by apply (sy_go g [] l).
Qed.

Lemma handled_quietly q c ts : quietly (Sys c (Handling q) ts) (Sys c (match q with Ret (Ok tt) => Listening | _ => Handling q end) ts).
Proof. destruct q as [[[]|?|?| |]| | |]; try constructor. apply reach_one. constructor. Qed.

Lemma finish_quietly w s : quietly s (finish_packet w s).
Proof.
  destruct s as [c [|[| | |B alt k]|] ts]; try constructor. unfold finish_packet. simpl.
  destruct (alt w c) as [x c1] eqn:Ea. assert (x = Block \/ x <> Block) as [->|Hx] by (destruct x; auto); [constructor|].
  assert (quietly (Sys c (Handling (Select alt k)) ts) (let '(q, c2) := run_on (k x) c1 in
    Sys c2 (match q with Ret (Ok tt) => Listening | _ => Handling q end) ts)) as Hn; [|by destruct x].
  destruct (run_on (k x) c1) as [q c2] eqn:E. eapply reach_trans; [|apply handled_quietly].
  apply reach_one. eapply sy_handle. exists w. by rewrite Ea.
Qed.

Lemma arrive_acts p s : s_recv s = Listening -> in_ok p -> expected p (s_conn s) ->
  exists s', sys_act (Some p) s s' /\ quietly s' (arrive p s).
Proof.
  intros Hl Hp He. destruct s as [c r ts]. simpl in *. subst r. unfold arrive. simpl.
  destruct (run_on (receive p) c) as [q c'] eqn:E. eexists. split; [by apply sy_receive|]. apply handled_quietly.
Qed.

Lemma arrive_history s0 h p s : s_recv s = Listening -> in_ok p -> expected p (s_conn s) -> history s0 h s ->
  history s0 (h ++ [p]) (arrive p s).
Proof.
  intros Hl Hp He Hh. destruct (arrive_acts p s Hl Hp He) as (s' & Ha & Hq).
  eapply quietly_history; [exact Hq|]. exact (hist_act s0 h (Some p) _ _ Hh Ha).
Qed.

Lemma call_history s0 h a s : api_ok a -> on_which a = None -> history s0 h s -> history s0 h (call a s).
Proof. intros Ha Hw. by apply quietly_history, call_quietly. Qed.
Lemma advance_history s0 h w i s : history s0 h s -> history s0 h (advance w i s).
Proof. apply quietly_history, advance_quietly. Qed.
Lemma begin_history s0 h s : history s0 h s -> history s0 h (begin s).
Proof. apply quietly_history, begin_quietly. Qed.
Lemma finish_history s0 h w s : history s0 h s -> history s0 h (finish_packet w s).
Proof. apply quietly_history, finish_quietly. Qed.

(** A connection whose receiver has just been started: a client's, or that of a
    service which is about to be initialized. *)
Definition fresh (s : sys) : Prop :=
  conn_ok (s_conn s) /\ c_term (s_conn s) = false /\ s_recv s = Listening /\
  (s_threads s = [] \/ exists h, s_threads s = [spawn (OInit h)]).

(** As [newConnection] makes it, apart from the handler, the limits and the link. *)
Record newly_made c : Prop := {
  nm_reqs : c_reqs c = Reqs 0 ∅ ∅;
  nm_subs : c_subs c = sub_init;
  nm_tuns : c_tuns c = tuns_init;
  nm_used : bcastUsed (c_qos c) = 0 /\ reqUsed (c_qos c) = 0;
  nm_bcast : forall p, bcastPool (c_qos c) = Some p -> pool_queued p = [];
  nm_req : forall p, reqPool (c_qos c) = Some p -> pool_queued p = [];
  nm_go : c_go c = [];
  nm_calls : c_calls c = []
}.

(** Registration leads to one: the connection [newConnection] returns, when the
    receiver has been started and before [Init] is called. *)
Lemma registered_fresh cluster h lim l e tail version :
  sized cluster -> cluster <> [] -> usable l -> healthy (l_wr l) -> sockWait l = 0 -> fits relayMagic ->
  fits version -> handler_ok h ->
  exists l' c, newConnection cluster (Some h) (Some lim) (RS (Reader (accepted version ++ tail) e) l)
      = (Ok c, RS (Reader tail e) l') /\
    fresh (Sys c Listening [spawn (OInit h)]) /\ newly_made c.
Proof.
  intros Hsc Hc Hu Hh Hw Hm Hv Hok.
  destruct (newConnection_accepted (Q := Q) (P := P) (TH := TH) cluster (Some h) lim l e tail version Hsc Hc Hu Hh Hm Hv)
    as (l' & c & E & Hn & Hl & _ & [[Hwo Hf _] _] & Hw'). exists l', c. split; [exact E|].
  destruct Hn as [Hnh Hnl Hnu Hnb Hnr (Ht & _ & Hca & Hg) Hrq Htn Hsb _].
  split; [|split; [done|..|by rewrite Hnb; intros p [= <-]; rewrite New_queued|by rewrite Hnr; intros p [= <-]; rewrite New_queued|done|done]; done].
  split; [|split; [done|split; [done|right; by eexists]]]. simpl. split.
  - rewrite Hl. split; [done|]. split; [by rewrite Hw'|done].
  - rewrite Hrq. by split; vm_compute.
  - rewrite Htn. split; [by split; vm_compute|by intros i|by intros i t].
  - rewrite Hsb. by intros n p.
  - split; [rewrite Hnl, Hnh, Hnb, Hnr; split_and!; by eexists|].
    intros p. rewrite Hnr. intros [= <-]. by rewrite New_queued.
  - intros h'. rewrite Hnh. by intros [= <-].
  - by rewrite Hg.
Qed.

(** ** The invariant of the system *)

(** What a goroutine may do to the others. *)
Definition within (o : origin) : Connection -> Connection -> Prop :=
  match o with
  | OApi a => match on_which a with Some id => uses id | None => keeps end
  | _ => keeps
  end.

#[local] Instance within_preorder o : PreOrder (within o).
Proof. destruct o as [a| | | | |]; simpl; try apply _. destruct (on_which a); apply _. Qed.

Lemma within_keeps o c c' : within o c c' -> keeps c c'.
Proof. destruct o as [a| | | | |]; simpl; try done. destruct (on_which a); [by intros []|done]. Qed.

Lemma within_released o c c' : within o c c' -> released o c -> released o c'.
Proof.
  assert (keeps c c' -> c_term c = true -> c_term c' = true) as Hk by (by intros [_ ->]).
  destruct o as [a| | | | |]; simpl; auto. destruct (on_which a); [|auto]. intros [_ Hc]. exact Hc.
Qed.

(** A goroutine at rest is safe from here on; unless it waits for the receiver it
    can end once it is released. *)
Local Abbreviation runs_safe o :=
  (safe conn_ok grows (within o) (released o) (waits_for_receiver o = false) (λ r _, over o r)).

Definition thread_ok c (x : origin * code value) : Prop := at_rest (snd x) /\ runs_safe (fst x) (snd x) c.

Definition receiver_ok c (r : receiver) : Prop :=
  match r with
  | Listening => c_term c = false
  | Handling q => c_term c = false /\ at_rest q /\
      safe conn_ok keeps keeps (λ c, c_term c = true) False (λ o _, returns o) q c
  | Ending q => at_rest q /\ safe conn_ok keeps grows (λ c, c_term c = true) False (λ o _, returns o) q c
  end.

Record sys_ok (s : sys) : Prop := {
  sk_conn : conn_ok (s_conn s);
  sk_recv : receiver_ok (s_conn s) (s_recv s);
  sk_threads : Forall (thread_ok (s_conn s)) (s_threads s)
}.

(** What the others do leaves a goroutine and the receiver as safe as they were. *)
Lemma threads_rely c c' ts : grows c c' -> Forall (thread_ok c) ts -> Forall (thread_ok c') ts.
Proof.
  intros Hg Hts. eapply Forall_impl; [exact Hts|]. intros x [Hr Hs]. split; [done|].
  by apply (safe_rely _ _ _ _ _ (over (fst x)) _ c).
Qed.

Lemma receiver_rely c c' r : keeps c c' -> receiver_ok c r -> receiver_ok c' r.
Proof.
  intros Hk. destruct r as [|q|q]; simpl.
  - by rewrite (proj2 Hk).
  - intros (Ht & Hr & Hs). rewrite (proj2 Hk). split_and!; [done..|].
    by apply (safe_rely _ _ _ _ _ (λ o, returns o) _ c).
  - intros (Hr & Hs). split; [done|]. by apply (safe_rely _ _ _ _ _ (λ o, returns o) _ c).
Qed.

(** A goroutine is safe from the start wherever its program is. *)
Lemma spawn_safe o c : (forall c1, grows c c1 -> conn_ok c1 -> runs_safe o (start o) c1) -> thread_ok c (spawn o).
Proof. intros Hs. split; [done|]. intros c1 Hg Hc1. by apply Hs. Qed.

Lemma spawn_ok (F : Connection -> Prop) o c : within o = keeps -> released o = (λ c, c_term c = true) ->
  stable grows keeps F -> F c ->
  safely conn_ok grows keeps (λ c, c_term c = true) (waits_for_receiver o = false) F (start o) ->
  thread_ok c (spawn o).
Proof.
  intros Hw Hrel HF Hc Hs. apply spawn_safe. intros c1 Hg Hc1. rewrite Hw, Hrel.
  eapply safe_mono; [|apply Hs; eauto]. intros r c2 Hr. by left.
Qed.

Lemma unit_safely (frees : Prop) F (p : code unit) : safely conn_ok grows keeps (λ c, c_term c = true) frees F p ->
  stable grows keeps F -> safely conn_ok grows keeps (λ c, c_term c = true) frees F (p;; mret VUnit).
Proof. intros Hp HF. apply safely_bind; [done..|]. intros _. apply safely_ret. Qed.

(** A call on a tunnel, and what it does with the result. *)
Lemma tunnel_spawn_ok {A} a id (p : prog (tstate Q) wake A) (f : A -> code value) rets c :
  on_which a = Some id -> run_api a = (x ← tunnel_call id p; f x) -> tame rets p ->
  (forall o, rets o -> forall c, runs_safe (OApi a) (oseq f o) c) ->
  is_Some (tunnels (c_tuns c) !! id) -> thread_ok c (spawn (OApi a)).
Proof.
  intros Hw Hr Hp Hf Hid. apply spawn_safe. intros c1 Hg Hc1. cbn [start]. rewrite Hr.
  assert (within (OApi a) = uses id) as Ew by (simpl; by rewrite Hw).
  assert (released (OApi a) = closed id) as El by (simpl; by rewrite Hw).
  apply safe_bind. apply (safe_mono _ _ _ _ _ (λ o _, rets o)); [intros o c2 Ho; by apply Hf|].
  rewrite Ew, El. apply tunnel_call_safe; [done|by apply (gr_tunnels _ _ Hg)|done].
Qed.

Lemma api_spawn_ok a c : api_ok a -> conn_ok c -> (forall id, on_which a = Some id -> is_Some (tunnels (c_tuns c) !! id)) ->
  thread_ok c (spawn (OApi a)).
Proof.
  intros Ha Hc Hid. destruct a as [x m|x e|x m t|x h l|x|x t| | |id m t turns|id t|id]; cbn in Ha, Hid;
    try (apply (spawn_ok (λ _, True)); [done..|]; cbn [start run_api]).
  - destruct Ha. by apply unit_safely; [apply Broadcast_safely|].
  - destruct Ha. by apply unit_safely; [apply Publish_safely|].
  - destruct Ha. apply safely_bind; [done|by apply Request_safely|]. intros r. apply safely_ret.
  - by apply unit_safely; [apply Subscribe_safely|].
  - by apply unit_safely; [apply Unsubscribe_safely|].
  - apply safely_bind; [done|by apply initTunnel_safely|]. intros r. apply safely_ret.
  - by apply unit_safely; [apply Close_safely|].
  - by apply unit_safely; [apply Unregister_safely|].
  - eapply tunnel_spawn_ok; [done|done|by apply Send_tame| |by apply Hid].
    intros o [Ho| ->] c'; [|by right]. destruct o; try done; by left.
  - eapply tunnel_spawn_ok; [done|done|apply Recv_tame| |by apply Hid].
    intros o [Ho| ->] c'; [|by right]. destruct o; try done; by left.
  - eapply tunnel_spawn_ok; [done|done|apply tun_Close_tame| |by apply Hid].
    intros o Ho c'. destruct o as [[err|]|err|?| |]; try done; by left.
Qed.

Lemma stable_go_ok g : stable grows keeps (λ c : Connection, go_ok (c_handler c) g).
Proof. apply stable_grows. intros c c' Hg. by rewrite (gr_handler _ _ Hg). Qed.

Lemma keeps_same c c' : c_handler c' = c_handler c -> c_qos c' = c_qos c -> c_tuns c' = c_tuns c ->
  c_subs c' = c_subs c -> c_term c' = c_term c -> keeps c c'.
Proof. intros E1 E2 E3 E4 E5. split; [split|done]; by rewrite ?E1, ?E2, ?E3, ?E4. Qed.

(** A service with limits has a handler. *)
Lemma pooled_handler c : conn_ok c -> is_Some (bcastPool (c_qos c)) \/ is_Some (reqPool (c_qos c)) ->
  is_Some (c_handler c).
Proof.
  intros Hc Hp. destruct (co_qos _ Hc) as [Hq _]. destruct (limits (c_qos c)); [by destruct Hq|].
  destruct Hq as [E1 E2]. rewrite E1, E2 in Hp. by destruct Hp as [[]|[]].
Qed.

(** What a step does. *)
Definition leads (s s' : sys) : Prop := sys_ok s' /\ grows (s_conn s) (s_conn s').

(** A step of the environment that starts a goroutine. *)
Lemma started_ok c c' r ts o : sys_ok (Sys c r ts) -> conn_ok c' -> keeps c c' -> thread_ok c' (spawn o) ->
  leads (Sys c r ts) (Sys c' r (ts ++ [spawn o])).
Proof.
  intros [Hc Hr Ht] Hc' Hk Ho. split; [|apply Hk]. split; simpl in *; [done|by eapply receiver_rely|].
  apply Forall_app. split; [|by constructor]. eapply threads_rely; [|exact Ht]. apply Hk.
Qed.

Lemma act_leads l s s' : sys_ok s -> sys_act l s s' -> leads s s'.
Proof.
  intros Hok Hst. pose proof Hok as [Hc Hr Ht].
  destruct Hst as [a c r ts Ha Hid|g l1 l2 c r ts Eg|job p p' c r ts Ep Ej|e job p p' c r ts Ep Ej
    |i t job p' c r ts Et Ej|i o p p' c c' r ts Ei Er
    |p q c c' ts Hp He Er|q q' c c' ts Er|c ts|err c ts|q q' c c' ts Er]; simpl in Hc, Hr, Ht.
  - eapply started_ok; [exact Hok|done|done|by apply api_spawn_ok].
  - pose proof (co_go _ Hc) as Hg. rewrite Eg in Hg. apply Forall_app in Hg as [Hg1 Hg].
    apply Forall_cons in Hg as [Hg Hg2]. eapply started_ok; [exact Hok| |by apply keeps_same|].
    + destruct Hc. split; try done. by apply Forall_app.
    + apply (spawn_ok (λ c, go_ok (c_handler c) g)); [done|done|apply stable_go_ok|exact Hg|].
      apply unit_safely; [apply run_go_safely|apply stable_go_ok].
  - eapply started_ok; [exact Hok| |by apply keeps_qos|].
    + apply conn_ok_qos; [done|]. apply (qos_ok_pools _ (c_qos c)); try apply (co_qos _ Hc); try done; cbn; rewrite ?Ep; eauto.
    + apply (spawn_ok (λ c, is_Some (c_handler c))); [done|done|apply stable_handler| |].
      * apply (pooled_handler c Hc). left. by eexists.
      * apply unit_safely; [apply run_broadcast_safely|apply stable_handler].
  - destruct (next_queued _ _ _ _ Ej) as [Hq _]. pose proof (proj2 (co_qos _ Hc) p Ep) as Hjobs.
    rewrite Hq in Hjobs. apply Forall_cons in Hjobs as [Hj _].
    eapply started_ok; [exact Hok| |by apply keeps_qos|].
    + apply conn_ok_qos; [done|]. apply (qos_ok_pools _ (c_qos c)); try apply (co_qos _ Hc); try done; cbn; rewrite ?Ep; eauto.
      intros p2 [= <-]. exists p. split; [done|]. rewrite Hq. by apply list_subseteq_cons.
    + apply (spawn_ok (λ c, is_Some (c_handler c))); [done|done|apply stable_handler| |].
      * apply (pooled_handler c Hc). right. by eexists.
      * apply unit_safely; [by apply run_request_safely|apply stable_handler].
  - pose proof (lookup_lt_Some _ _ _ Et) as Hlt. eapply started_ok; [exact Hok| | |].
    + apply conn_ok_subs; [done|]. intros n q Hq. cbn. rewrite length_insert. by eapply (co_subs _ Hc).
    + apply keeps_subs. cbn. by rewrite length_insert.
    + assert (stable grows keeps (λ c, (i < length (topics (c_subs c)))%nat)) as Hs.
      { apply stable_grows. intros c1 c2 Hg Hi. pose proof (gr_topics _ _ Hg). lia. }
      apply (spawn_ok _ (OEvent i job) _ eq_refl eq_refl Hs); [cbn; by rewrite length_insert|].
      apply unit_safely; [apply serve_event_safely|done].
  - pose proof (Forall_lookup_1 _ _ _ _ Ht Ei) as [Hrest Hsafe]. simpl in Hrest, Hsafe.
    destruct (safe_resume _ _ _ _ _ _ _ _ _ _ Hc Hsafe Er) as (Hrest' & Hc' & Hk%within_keeps & Hsafe').
    split; [|apply Hk]. split; simpl; [done|by eapply receiver_rely|]. apply Forall_insert; [|by split].
    eapply threads_rely; [|exact Ht]. apply Hk.
  - pose proof (safe_run _ _ _ _ _ _ _ _ Hc (receive_safely p Hp c Hc He)) as Hrun. rewrite Er in Hrun.
    destruct Hrun as (Hrest' & Hc' & Hk & Hsafe'). split; [|apply Hk]. split; simpl; [done| |].
    + rewrite (proj2 Hk). by split_and!.
    + eapply threads_rely; [|exact Ht]. apply Hk.
  - destruct Hr as (Htm & Hrest & Hsafe).
    destruct (safe_resume _ _ _ _ _ _ _ _ _ _ Hc Hsafe Er) as (Hrest' & Hc' & Hk & Hsafe').
    split; [|apply Hk]. split; simpl; [done| |].
    + rewrite (proj2 Hk). by split_and!.
    + eapply threads_rely; [|exact Ht]. apply Hk.
  - split; [|done]. split; [done|apply Hr|done].
  - split; [|done]. split; [done| |done]. split; [done|]. intros c1 Hk Hc1. apply go_down_safely; [done|]. by rewrite (proj2 Hk).
  - destruct Hr as (Hrest & Hsafe).
    destruct (safe_resume _ _ _ _ _ _ _ _ _ _ Hc Hsafe Er) as (Hrest' & Hc' & Hg & Hsafe').
    split; [|done]. split; simpl; [done|by split|]. by eapply threads_rely.
Qed.

Lemma sys_ok_act l s s' : sys_ok s -> sys_act l s s' -> sys_ok s'.
Proof. intros Hok Hs. by destruct (act_leads l s s' Hok Hs). Qed.

Lemma sys_ok_step s s' : sys_ok s -> sys_step s s' -> sys_ok s'.
Proof. intros Hok [l Hs]. by eapply sys_ok_act. Qed.

Lemma fresh_ok s : fresh s -> sys_ok s.
Proof.
  intros (Hc & Ht & Hr & Hts). split; [done|by rewrite Hr|]. destruct Hts as [->|[h ->]]; [done|].
  constructor; [|done]. apply (spawn_ok (λ _, True)); [done..|]. by apply unit_safely; [apply Register_init_safely|].
Qed.

Lemma reach_ok s0 s : fresh s0 -> reach sys_step s0 s -> sys_ok s.
Proof. intros Hf Hr. eapply reach_invariant; [by apply fresh_ok|apply sys_ok_step|exact Hr]. Qed.

(** ** Properties *)

(** C25: the state of a connection is well-formed and every expected packet keeps
    it so: its handler does not panic and returns no error, and it blocks only on a
    construction result that nobody waits for yet. *)
Theorem packets_keep_conn_ok p c : in_ok p -> conn_ok c -> expected p c ->
  let '(o, c') := deliver p c in
  conn_ok c' /\ grows c c' /\ c_term c' = c_term c /\
  (o = Ok tt \/ o = Block /\ exists id n, (p = ITunTimeout id \/ p = ITunResult id n) /\ id ∉ tunWait (c_tuns c)).
Proof.
  intros Hp Hc He.
  assert (forall id n, is_live id (c_tuns c) = true -> n < 2 ^ 62 -> let '(o, c') := on_tuns (tun_handleResult id n) c in
    conn_ok c' /\ grows c c' /\ c_term c' = c_term c /\ (o = Ok tt \/ o = Block /\ id ∉ tunWait (c_tuns c))) as Hres.
  { intros id n Hl Hn. destruct (lookup_stretch id n Hn c Hc Hl) as (Hr & Hc1 & Hk1). revert Hr Hc1 Hk1.
    unfold on_tuns. rewrite !lift_eq. cbn [fst snd].
    assert (tun_handleResult id n (c_tuns c) = (init ← tun_lookupResult id n; tun_sendInit id init) (c_tuns c)) as ->.
    { unfold tun_handleResult, tun_lookupResult. rewrite !bind_eq. cbn [gets]. by rewrite Hl. }
    assert (tunWait (snd (tun_lookupResult id n (c_tuns c))) = tunWait (c_tuns c)) as Hw.
    { unfold tun_lookupResult. rewrite bind_eq. cbn [gets]. rewrite Hl. unfold upd_tunnel.
      destruct (tunnels (c_tuns c) !! id); [|done]. by destruct (handleInitResult n t). }
    rewrite bind_eq. destruct (to_live _ (co_tuns _ Hc) id Hl) as (t & Ht & _).
    assert (exists b, fst (tun_lookupResult id n (c_tuns c)) = Ok b) as [b Hb].
    { unfold tun_lookupResult. rewrite bind_eq. cbn [gets]. rewrite Hl, (upd_tunnel_eq _ _ _ _ Ht). by eexists. }
    destruct (tun_lookupResult id n (c_tuns c)) as [o s1]. simpl in Hb, Hw |- *. subst o. intros _ Hc1 [Hg1 Ht1].
    unfold tun_sendInit. destruct (decide (id ∈ tunWait s1)) as [Hin|Hnw]; cbn [fst snd].
    - split_and!; [|destruct Hg1; by split|done|by left]. pose proof (co_tuns _ Hc1) as Hto. destruct Hc1. split; try done.
      by eapply tunnels_ok_same; [exact Hto|..].
    - split_and!; [done..|]. right. by rewrite Hw in Hnw. }
  destruct p as [m|id r t|id|id r|id f|t e|id n|id|id n|id n|id n d|id r]; cbn in He;
    try match goal with |- context [deliver ?q c] =>
      destruct (deliver_stretch q Hp ltac:(by intros) c Hc He) as (Hr & Hc' & Hg & Ht);
      pose proof (deliver_quiet q c) as Hq; destruct (deliver q c) as [o c']; cbn [fst snd] in *;
      split_and!; [done..|]; left; by destruct o as [[]| | | |]
    end.
  - specialize (Hres id 0 He ltac:(lia)). cbn. change (conn_handleTunnelResult id 0 c) with (on_tuns (tun_handleResult id 0) c).
    destruct (on_tuns (tun_handleResult id 0) c) as [o c']. destruct Hres as (? & ? & ? & [?|[? ?]]); eauto 10.
  - specialize (Hres id (i64 n) (proj1 He) (proj2 He)). cbn.
    change (conn_handleTunnelResult id (i64 n) c) with (on_tuns (tun_handleResult id (i64 n)) c).
    destruct (on_tuns (tun_handleResult id (i64 n)) c) as [o c']. destruct Hres as (? & ? & ? & [?|[? ?]]); eauto 10.
  Unshelve. all: exact 0.
Qed.


(** A goroutine that runs while the others stand still. *)
Lemma alone_reach p c p' c' r ts i o : rtc alone (p, c) (p', c') -> ts !! i = Some (o, p) ->
  reach sys_step (Sys c r ts) (Sys c' r (<[i := (o, p')]> ts)).
Proof.
  intros Hr. remember (p, c) as x eqn:Ex. remember (p', c') as y eqn:Ey. revert p c ts Ex.
  induction Hr as [x|x [p1 c1] y Hx Hr IH]; intros p c ts ->; simplify_eq.
  - intros Hi. rewrite list_insert_id by done. constructor.
  - intros Hi. eapply reach_trans; [eapply reach_act, sy_run; [exact Hi|exact Hx]|].
    specialize (IH eq_refl p1 c1 (<[i := (o, p1)]> ts) eq_refl). rewrite list_insert_insert_eq in IH.
    apply IH. apply list_lookup_insert_eq. by eapply lookup_lt_Some.
Qed.

Lemma rest_run {A} (p : code A) c : at_rest p -> run_on p c = (p, c).
Proof. by destruct p. Qed.

(** What has been released can return without any other goroutine's help. *)
Lemma can_return s i o p : sys_ok s -> s_threads s !! i = Some (o, p) -> waits_for_receiver o = false ->
  released o (s_conn s) -> exists c r, over o r /\
    reach sys_step s (Sys c (s_recv s) (<[i := (o, Ret r)]> (s_threads s))).
Proof.
  destruct s as [c r ts]. intros [Hc Hrv Hts]. simpl in *. intros Hi Hw Hrel.
  pose proof (Forall_lookup_1 _ _ _ _ Hts Hi) as [Hrest Hsafe]. simpl in Hrest, Hsafe.
  destruct (safe_returns _ _ _ _ _ _ p c Hw (within_released o) Hc Hrel Hsafe) as (ro & c' & Hal & _ & _ & Hov).
  rewrite rest_run in Hal by done. exists c', ro. split; [exact Hov|]. by eapply alone_reach.
Qed.

(** The receiver on its way out, up to the wait for [Close]. *)
Lemma can_end s (err : option error) : sys_ok s -> s_recv s = Listening -> exists s', reach sys_step s s' /\
  c_term (s_conn s') = true /\ s_threads s' = s_threads s /\
  (forall id, is_live id (c_tuns (s_conn s)) = true -> closed id (s_conn s')) /\
  c_quit (s_conn s') = c_quit (s_conn s) /\ s_recv s' = Ending (yield;; select (λ _, conn_syncQuit err)).
Proof.
  destruct s as [c r ts]. intros [Hc Hr _]. simpl in *. intros ->. simpl in Hr.
  set (c1 := snd (conn_sockClose c)). set (c2 := set_term true c1). set (c3 := snd (conn_notifyDrop err c2)).
  assert (c_tuns c3 = c_tuns c /\ c_term c3 = true /\ c_quit c3 = c_quit c) as (Et & Etm & Eq).
  { subst c3. unfold conn_notifyDrop. rewrite bind_eq. cbn [gets modify fst snd].
    by destruct err, (c_handler c2). }
  destruct (closeAll_ok _ (co_tuns _ Hc)) as (Eo & _ & _ & Hcl). rewrite <- Et in Eo, Hcl.
  set (c4 := snd (on_tuns tun_closeAll c3)).
  assert (on_tuns tun_closeAll c3 = (Ok tt, c4)) as E4 by (unfold c4, on_tuns; rewrite lift_eq; by rewrite Eo).
  exists (Sys c4 (Ending (yield;; select (λ _, conn_syncQuit err))) ts). split_and!; simpl.
  - eapply reach_trans; [eapply reach_act, (sy_end err)|].
    eapply reach_trans; [eapply reach_act, sy_down|eapply reach_trans; [eapply reach_act, sy_down|
      eapply reach_trans; [eapply reach_act, sy_down|eapply reach_act, sy_down]]].
    + refine (resume_go (go_down err) c _ _). unfold go_down. rewrite (run_on_do _ _ c tt c1) by done. by rewrite run_on_go.
    + apply resume_go. rewrite (run_on_do _ _ c1 tt c2); [by rewrite run_on_go|]. unfold conn_closeTerm. simpl. by rewrite Hr.
    + apply resume_go. rewrite (run_on_do _ _ c2 tt c3); [by rewrite run_on_go|]. by destruct err.
    + apply resume_go. rewrite (run_on_do _ _ c3 tt c4 E4). by rewrite run_on_go.
  - unfold c4, on_tuns. by rewrite lift_eq.
  - done.
  - intros id Hl. rewrite <- Et in Hl. destruct (Hcl id Hl) as (t & Ht & ?). exists t.
    unfold c4, on_tuns. by rewrite lift_eq.
  - unfold c4, on_tuns. by rewrite lift_eq.
  - done.
Qed.


(** *** A goroutine of the system follows a script *)

(** An entry of a script that puts a well-formed state in the place of another. *)
Definition entry_ok (x : (Connection -> Connection) * cwake) : Prop :=
  exists d, conn_ok d /\ fst x = λ _, d.

(** How far a goroutine has got, as the beginning of a script. *)
Definition traced (x : origin * code value) : Prop :=
  snd x = Yield (start (fst x)) \/
  exists c env c1, conn_ok c /\ Forall entry_ok env /\
    forall rest, play (start (fst x)) (CS c (env ++ rest)) = play (snd x) (CS c1 rest).

#[local] Instance cwake_inhabited : Inhabited cwake := populate WakeTerm.

Lemma traced_step s s' : sys_ok s -> sys_ok s' -> Forall traced (s_threads s) -> sys_step s s' ->
  Forall traced (s_threads s').
Proof.
  intros [Hc _ _] Hok' Ht [l Hst]. destruct Hst as [| | | | |i o p p' c c' r ts Hi Hr| | | | |]; simpl in *; try done;
    try (apply Forall_app; split; [done|]; constructor; [by left|constructor]).
  apply Forall_insert; [done|]. pose proof (lookup_lt_Some _ _ _ Hi) as Hlt.
  assert (at_rest p') as Hrest.
  { apply (Forall_lookup_1 _ _ i (o, p') (sk_threads _ Hok')). simpl. by apply list_lookup_insert_eq. }
  right. simpl. pose proof (Forall_lookup_1 _ _ _ _ Ht Hi) as [Hs|(c0 & env & c1 & Hc0 & Henv & Hp)]; simpl in *.
  - subst p. simpl in Hr. exists c, [], c'. split_and!; [done|constructor|]. intros rest. simpl.
    rewrite play_run_on; by rewrite <- Hr.
  - destruct (play_resume p p' c c' Hr Hrest) as [w Hw]. exists c0, (env ++ [((λ _, c), w)]), c'.
    split_and!; [done| |].
    + apply Forall_app. split; [done|]. constructor; [|constructor]. by exists c.
    + intros rest. rewrite <- app_assoc, Hp. apply Hw.
Qed.


(** A script and an interleaving are the same thing: what a call can return on
    some script, and the connection it leaves, is what it can return when the other
    goroutines' stretches come between its own in any way. *)
Theorem scripts_are_interleavings a c r c' : r <> Block ->
  (exists env env', play (run_api a) (CS c env) = (r, CS c' env')) <->
  (exists l, interleaved (run_on (run_api a) c) l r c').
Proof.
  intros Hr. split.
  - intros (env & env' & E). by apply (play_interleaved (run_api a) c env r c' env' E).
  - intros [l Hl]. destruct (interleaved_play (run_api a) c l r c' Hl) as (env & E & _). by exists env, [].
Qed.
End system.

(** ** The properties at concrete inputs *)

Lemma sample_conn_ok : conn_ok sample_conn.
Proof.
  split; [split; [done|split; [done|intros _; apply fresh_writer_ok]]|split; vm_compute; congruence| | |
    split; [done|]; by intros p|by intros h|constructor].
  - split; [split; vm_compute; congruence|by intros i|by intros i t].
  - by intros n p.
Qed.

Lemma sample_made : newly_made sample_conn.
Proof. by split. Qed.

(** A service that is about to be initialized. *)
Definition sample_service_sys : sys (Q := list slice) (P := list_pool) (TH := nat) :=
  Sys sample_new Listening [spawn (H := amd64) (OInit sample_handler)].

Lemma sample_service_fresh : @fresh amd64 _ _ _ _ _ sample_service_sys /\ newly_made sample_new.
Proof.
  split; [|split; try done; by intros p [= <-]]. split; [|split; [done|split; [done|right; by eexists]]]. split.
  - split; [done|split; [done|intros _; apply fresh_writer_ok]].
  - split; vm_compute; congruence.
  - split; [split; vm_compute; congruence|by intros i|by intros i t].
  - by intros n p.
  - split; [split_and!; by eexists|]. by intros p [= <-].
  - intros h [= <-] request. split; vm_compute; congruence.
  - constructor.
Qed.

(** An event arrives at a client. *)
Lemma packets_keep_conn_ok_witness :
  conn_ok (snd (@deliver _ (@conn_handlers amd64 _ _ _ _ _) (IPublish (str "news") [x61]) sample_conn)).
Proof.
  apply (@packets_keep_conn_ok amd64 _ _ _ _ _ (IPublish (str "news") [x61]) sample_conn).
  - vm_compute. split; congruence.
  - apply sample_conn_ok.
  - exact I.
Defined.

(** A client, and the same after the application has published an event. *)
Definition publishes : origin (TH := nat) := OApi (APublish (str "news") (Some [x61])).
Definition sample_sys : sys (Q := list slice) (P := list_pool) (TH := nat) := Sys sample_conn Listening [].
Definition sample_published : sys (Q := list slice) (P := list_pool) (TH := nat) :=
  Sys (snd (run_on (@start amd64 _ _ _ _ _ publishes) sample_conn)) Listening [(publishes, Ret (Ok VUnit))].

Lemma sample_fresh : @fresh amd64 _ _ _ _ _ sample_sys.
Proof. split; [apply sample_conn_ok|]. split; [done|]. split; [done|by left]. Qed.

(** A call has started and has let go for the first time. *)
Lemma sample_runs o c1 p1 : match o with OApi a => api_ok a /\ on_which a = None | _ => False end ->
  run_on (@start amd64 _ _ _ _ _ o) sample_conn = (p1, c1) ->
  reach (@sys_step amd64 _ _ _ _ _) sample_sys (Sys c1 Listening [(o, p1)]).
Proof.
  intros Ho E. destruct o as [a| | | | |]; try done. destruct Ho as [Ho Hw].
  eapply reach_trans; [eapply reach_act, (sy_call a); [done|by rewrite Hw]|].
  eapply reach_act.
  by apply (sy_run (H := amd64) 0%nat (OApi a) (Yield (start (H := amd64) (OApi a))) p1 sample_conn c1 Listening [spawn (H := amd64) (OApi a)]).
Qed.

Lemma sample_published_reach : reach (@sys_step amd64 _ _ _ _ _) sample_sys sample_published.
Proof. apply sample_runs; [split; [split; vm_compute; congruence|done]|reflexivity]. Qed.


(** The connection ends while a request waits for its reply. *)
Definition asks : origin (TH := nat) := OApi (ARequest (str "cluster") (Some [x61]) 5000000).

Definition sample_asked : sys (Q := list slice) (P := list_pool) (TH := nat) :=
  let q := run_on (@start amd64 _ _ _ _ _ asks) sample_conn in Sys (snd q) Listening [(asks, fst q)].

Lemma sample_asked_reach : reach (@sys_step amd64 _ _ _ _ _) sample_sys sample_asked.
Proof. apply sample_runs; [split; [split; vm_compute; congruence|done]|apply surjective_pairing]. Qed.



Lemma scripts_are_interleavings_witness : exists l c',
  interleaved (run_on (@run_api amd64 _ _ _ _ _ (APublish (str "news") (Some [x61]))) sample_conn) l (Ok VUnit) c'.
Proof.
  destruct (@scripts_are_interleavings amd64 _ _ _ _ _ (APublish (str "news") (Some [x61])) sample_conn (Ok VUnit)
    (s_conn sample_published)) as [Hl _]; [discriminate|].
  destruct Hl as [l Hl]; [exists [], []; reflexivity|]. exists l, (s_conn sample_published). exact Hl.
Defined.
