(* ===== verification/Footprint.v ===== *)
(** * What a goroutine touches

    The parts of a connection, and which of them each goroutine of System.v can
    change: everything else it leaves as it is in every one of its stretches,
    whatever state it finds. What concerns one part only has to look at the few
    goroutines that touch it. *)

From Stdlib Require Import ZArith Lia Strings.Byte Strings.String.
From stdpp Require Import base gmap strings list relations.
From S2P Require Import Prelude Threads Bufio Wire Packets Receiver Tunnel Limits Quota.
From S2P Require Import Topic Requests Tunnels Connection Events Service Safety System.

Open Scope Z_scope.

(** ** Parts *)

(** The last is the tunnels that the service's handler has been given. *)
Inductive part := PReqs | PSubs | PTuns | PQos | PTerm | PGiven.

#[export] Instance part_eq_dec : EqDecision part.
Proof. solve_decision. Defined.

Section footprint.
Context `{GoRuntime} {Q : Type} `{Queue slice Q} {P : Type -> Type} `{ThreadPool P} {TH : Type}.
Local Abbreviation Connection := (Connection Q P TH).
Local Abbreviation code := (prog Connection cwake).
Local Abbreviation origin := (origin (TH := TH)).
Implicit Types c : Connection.

Definition same (x : part) c c' : Prop :=
  match x with
  | PReqs => c_reqs c' = c_reqs c
  | PSubs => c_subs c' = c_subs c
  | PTuns => c_tuns c' = c_tuns c
  | PQos => c_qos c' = c_qos c
  | PTerm => c_term c' = c_term c
  | PGiven => forall id, CallTunnel id ∈ c_calls c' <-> CallTunnel id ∈ c_calls c
  end.

(** A change of the parts [ps] and of the link, the goroutines and the calls. *)
Definition touches (ps : list part) c c' : Prop := forall x, x ∈ ps \/ same x c c'.

#[export] Instance same_preorder x : PreOrder (same x).
Proof.
  split; [by intros c; destruct x|]. intros c1 c2 c3. destruct x; simpl; try congruence.
  intros H12 H23 id. by rewrite H23, H12.
Qed.

#[export] Instance touches_preorder ps : PreOrder (touches ps).
Proof.
  split; [by intros c x; right|]. intros c1 c2 c3 H12 H23 x.
  destruct (H12 x); [by left|]. destruct (H23 x); [by left|]. right. by etrans.
Qed.

Lemma touches_same ps x c c' : touches ps c c' -> x ∉ ps -> same x c c'.
Proof. intros Ht Hx. by destruct (Ht x). Qed.

Lemma touches_mono ps ps' c c' : ps ⊆ ps' -> touches ps c c' -> touches ps' c c'.
Proof. intros Hs Ht x. destruct (Ht x); auto. Qed.

(** ** Stretches *)

(** A stretch that only touches [ps]. *)
Definition stays {A} (ps : list part) (m : M Connection A) : Prop := forall c, touches ps c (snd (m c)).

Lemma stays_gets {A} ps (f : Connection -> A) : stays ps (gets f).
Proof. by intros c x; right. Qed.

Lemma stays_bind {A B} ps (m : M Connection A) (k : A -> M Connection B) :
  stays ps m -> (forall a, stays ps (k a)) -> stays ps (x ← m; k x).
Proof.
  intros Hm Hk c. rewrite bind_eq. specialize (Hm c). destruct (m c) as [[a|?|?| |] c']; try done.
  etrans; [exact Hm|apply Hk].
Qed.

Lemma stays_fail {A} ps e : stays ps (fail (A := A) e).
Proof. by intros c x; right. Qed.
Lemma stays_ret {A} ps (a : A) : stays ps (mret (M := M Connection) a).
Proof. by intros c x; right. Qed.
Lemma stays_block {A} ps : stays ps (block (A := A)).
Proof. by intros c x; right. Qed.
Lemma stays_recv_term ps : stays ps recv_term.
Proof. by intros c x; right. Qed.
Lemma stays_call ps x : (forall id, x <> CallTunnel id) -> stays ps (modify (add_call x)).
Proof.
  intros Hx c y. right. destruct y; try done. simpl. intros id. rewrite elem_of_app, list_elem_of_singleton.
  split; [|by left]. intros [Hi|<-]; [done|by destruct (Hx id)].
Qed.
Lemma stays_given ps id : PGiven ∈ ps -> stays ps (modify (add_call (CallTunnel id))).
Proof. intros Hp c x. destruct x; first [by left|right; by simpl; auto]. Qed.
Lemma stays_quit_offer ps : stays ps quit_offer.
Proof. intros c x. right. unfold quit_offer. simpl. destruct (c_quit c), x; simpl; auto. Qed.
Lemma stays_quit_take ps : stays ps quit_take.
Proof. intros c x. right. unfold quit_take. destruct (c_quit c), x; simpl; auto. Qed.
Lemma stays_sock {A} ps (m : M link A) : stays ps (on_sock m).
Proof. intros c x. right. unfold on_sock. rewrite lift_eq. destruct x; simpl; auto. Qed.

Lemma stays_reqs {A} ps (m : M reqs A) : PReqs ∈ ps -> stays ps (on_reqs m).
Proof. intros Hp c x. unfold on_reqs. rewrite lift_eq. destruct x; first [by left|right; by simpl; auto]. Qed.
Lemma stays_set_reqs ps r : PReqs ∈ ps -> stays ps (modify (set_reqs r)).
Proof. intros Hp c x. destruct x; first [by left|right; by simpl; auto]. Qed.
Lemma stays_subs {A} ps (m : M subs A) : PSubs ∈ ps -> stays ps (on_subs m).
Proof. intros Hp c x. unfold on_subs. rewrite lift_eq. destruct x; first [by left|right; by simpl; auto]. Qed.
Lemma stays_tuns {A} ps (m : M tuns A) : PTuns ∈ ps -> stays ps (on_tuns m).
Proof. intros Hp c x. unfold on_tuns. rewrite lift_eq. destruct x; first [by left|right; by simpl; auto]. Qed.
Lemma stays_tunnel {A} ps id (m : M (tstate Q) A) : PTuns ∈ ps -> stays ps (on_tunnel id m).
Proof.
  intros Hp c x. unfold on_tunnel. destruct (tunnels (c_tuns c) !! id) as [t|]; [|by right].
  destruct (m _). destruct x; first [by left|right; by simpl; auto].
Qed.
Lemma stays_qos ps (f : Connection -> Connection) : PQos ∈ ps -> (forall c, exists q, f c = set_qos q c) ->
  stays ps (modify f).
Proof. intros Hp Hf c x. simpl. destruct (Hf c) as [q ->]. destruct x; first [by left|right; by simpl; auto]. Qed.

(** ** Programs *)

Local Abbreviation within ps := (always (touches ps)).

Lemma within_atomic {A} ps (m : M Connection A) : stays ps m -> within ps (atomic m : code A).
Proof. done. Qed.

Lemma within_select {A} ps (alt : cwake -> M Connection A) : (forall w, stays ps (alt w)) -> within ps (select alt).
Proof. intros Ha. apply always_select. intros w c. apply Ha. Qed.

Lemma within_tunnel_call {A} ps id (p : prog (tstate Q) wake A) : PTuns ∈ ps -> within ps (tunnel_call id p).
Proof.
  intros Hp. unfold tunnel_call. induction p as [o|C m k IH|k IH|C alt k IH]; simpl; [done| |done|].
  - split; [by apply stays_tunnel|done].
  - split; [|done]. intros w. destruct (tunnel_case w) as [w'|]; [by apply stays_tunnel|apply stays_block].
Qed.
End footprint.

Create HintDb foot.
#[export] Hint Resolve stays_gets stays_fail stays_ret stays_block stays_recv_term stays_call stays_quit_offer
  stays_quit_take stays_sock stays_reqs stays_set_reqs stays_subs stays_tuns stays_tunnel within_tunnel_call : foot.
#[export] Hint Resolve stays_given list_elem_of_here list_elem_of_further : foot.
#[export] Hint Extern 1 (forall id, _ <> CallTunnel id) => discriminate : foot.

(** Go through a program, or through a stretch. *)
Ltac foot :=
  repeat (intros; first
    [ apply always_bind | apply always_catch | apply within_atomic | apply within_select | apply stays_bind
    | exact I | solve [eauto with foot]
    | match goal with
      | |- context [match ?x with _ => _ end] => destruct x
      end ]).

(** A part is not among those listed. *)
Ltac not_in := apply (bool_decide_unpack _); vm_compute; exact I.

(** ** The goroutines *)

Section programs.
Context `{GoRuntime} {Q : Type} `{Queue slice Q} {P : Type -> Type} `{ThreadPool P} {TH : Type}.
Local Abbreviation Connection := (Connection Q P TH).
Local Abbreviation code := (prog Connection cwake).
Local Abbreviation origin := (origin (TH := TH)).
Implicit Types c : Connection.
Local Abbreviation within ps := (always (touches ps)).

(** The parts a goroutine can change. *)
Definition footprint (o : origin) : list part :=
  match o with
  | OApi (ARequest _ _ _) => [PReqs]
  | OApi (ASubscribe _ _ _) | OApi (AUnsubscribe _) | OApi AClose => [PSubs]
  | OApi (ATunnel _ _) | OApi (ASend _ _ _ _) | OApi (ARecv _ _) | OApi (ACloseTunnel _) => [PTuns]
  | OApi AUnregister | OInit _ => [PSubs; PQos]
  | OApi (ABroadcast _ _) | OApi (APublish _ _) => []
  | OGo (GoPublish _ _) => [PSubs]
  | OGo (GoTunnelClose _ _) => [PTuns]
  | OGo (GoTunnelInit _ _) => [PTuns; PGiven]
  | OGo (GoAllowance _ _) => []
  | OBroadcast _ | ORequest _ _ => [PQos]
  | OEvent _ _ => [PSubs]
  end.

Lemma conn_Close_within ps : PSubs ∈ ps -> within ps (conn_Close : code unit).
Proof. intros Hp. unfold conn_Close. foot. Qed.

Lemma run_go_within ps g : footprint (OGo g) ⊆ ps -> within ps (run_go g : code unit).
Proof.
  intros Hp. destruct g as [t e|id r|id n|id n]; cbn [run_go footprint] in *.
  - assert (PSubs ∈ ps) by set_solver. unfold conn_handlePublish. foot.
  - assert (PTuns ∈ ps) by set_solver. unfold conn_handleTunnelClose. foot.
  - assert (PTuns ∈ ps) by set_solver. assert (PGiven ∈ ps) by set_solver.
    unfold go_handleTunnelInit, acceptTunnel. foot.
  - foot.
Qed.

Lemma qos_stretches ps (stays := stays (Q := Q) (P := P) (TH := TH) ps) : PQos ∈ ps ->
  stays (modify start_bcastPool) /\ stays (modify start_reqPool) /\
  stays (modify drop_requests) /\ stays (modify drop_broadcasts) /\
  (forall m, stays (modify (broadcast_started m))) /\ (forall m, stays (modify (request_started m))).
Proof. intros Hp. split_and!; intros; apply stays_qos; try done; intros c; by eexists. Qed.

(** The footprint of a goroutine is right. *)
Lemma footprint_ok o : within (footprint o) (start o).
Proof.
  destruct o as [a|g|job|e job|p job|h]; cbn [start footprint].
  - destruct a as [x m|x e|x m t|x h l|x|x t| | |id m t turns|id t|id]; cbn [run_api];
      try (unfold Broadcast, Publish, Request, Request_select, Subscribe, Unsubscribe, conn_Tunnel, initTunnel,
        initTunnel_select, initTunnel_wait, initTunnel_ready, conn_Close; foot; fail).
    destruct (qos_stretches [PSubs; PQos]) as (_ & _ & Hd1 & Hd2 & _); [by right; left|].
    unfold Unregister, conn_Close. foot.
  - apply always_bind; [by apply run_go_within|foot].
  - destruct (qos_stretches [PQos]) as (_ & _ & _ & _ & Hb & _); [by left|]. unfold run_broadcast. foot.
  - destruct (qos_stretches [PQos]) as (_ & _ & _ & _ & _ & Hr); [by left|]. unfold run_request. foot.
  - unfold serve_event. foot.
  - destruct (qos_stretches [PSubs; PQos]) as (Hs1 & Hs2 & _); [by right; left|].
    unfold Register_init, conn_Close. foot.
Qed.

(** The parts a packet concerns. *)
Definition concerns (p : InPacket) : list part :=
  match p with
  | IBroadcast _ | IRequest _ _ _ => [PQos]
  | IReply _ _ | ITimeout _ | IFault _ _ => [PReqs]
  | ITunTimeout _ | ITunResult _ _ | ITunAllow _ _ | ITunTransfer _ _ _ => [PTuns]
  | IPublish _ _ | ITunInit _ _ | ITunClose _ _ => []
  end.

Lemma stays_go ps g : stays ps (modify (add_go (Q := Q) (P := P) (TH := TH) g)).
Proof. intros c x. right. destruct x; simpl; auto. Qed.

Lemma stays_broadcast ps m : PQos ∈ ps -> stays ps (conn_handleBroadcast m : M Connection unit).
Proof.
  intros Hp c x. unfold conn_handleBroadcast. destruct (limits (c_qos c)) as [lim|].
  - destruct (quota_fits _ _ _); [destruct (bcastPool (c_qos c))|]; destruct x; first [by left|right; by simpl; auto].
  - destruct x; first [by left|right; by simpl; auto].
Qed.
Lemma stays_request ps id m t : PQos ∈ ps -> stays ps (conn_handleRequest id m t : M Connection unit).
Proof.
  intros Hp c x. unfold conn_handleRequest. destruct (limits (c_qos c)); [|by right].
  destruct (quota_fits _ _ _); [|by right]. destruct (reqPool (c_qos c)); destruct x; first [by left|right; by simpl; auto].
Qed.

Lemma receive_within p : within (concerns p) (receive p : code unit).
Proof.
  assert (forall i n, within [PTuns] (receive_result i n : code unit)) as Hres.
  { intros i n. unfold receive_result. foot. }
  destruct p as [m|id r t|id|id r|id f|t e|id n|id|id n|id n|id n d|id r]; cbn [receive concerns deliver];
    try apply Hres; apply within_atomic.
  - apply stays_broadcast. by left.
  - apply stays_request. by left.
  - apply stays_reqs. by left.
  - apply stays_reqs. by left.
  - apply stays_reqs. by left.
  - apply stays_go.
  - apply stays_go.
  - apply stays_tuns. by left.
  - cbn [handleTunnelTransfer conn_handlers]. unfold conn_handleTunnelTransfer. foot.
  - apply stays_go.
Qed.

Lemma stays_sockClose ps : stays ps (conn_sockClose : M Connection unit).
Proof. intros c x. right. destruct x; simpl; auto. Qed.

Lemma stays_notifyDrop ps err : stays ps (conn_notifyDrop err : M Connection unit).
Proof.
  intros c x. right. unfold conn_notifyDrop. rewrite bind_eq. simpl.
  assert (forall e, stays [] (modify (add_call (CallDrop e)) : M Connection unit)) as Hd by (intros e; by apply stays_call).
  destruct err as [e|], (c_handler c); [|destruct x; simpl; auto..]. by destruct (Hd e c x) as [Hi%elem_of_nil|].
Qed.

Lemma stays_syncQuit ps err : stays ps (conn_syncQuit err : M Connection unit).
Proof. intros c x. right. unfold conn_syncQuit. destruct (c_quit c), x; simpl; auto. Qed.

Hint Resolve stays_sockClose stays_notifyDrop stays_syncQuit : foot.

Lemma go_down_within err : within [PTuns; PTerm] (go_down err : code unit).
Proof.
  assert (stays [PTuns; PTerm] (conn_closeTerm : M Connection unit)) as Ht.
  { intros c x. unfold conn_closeTerm. destruct (c_term c), x; first [by right|by right; simpl; auto|left; set_solver]. }
  unfold go_down. foot.
Qed.

(** ** In the system *)

Definition within_footprint (x : origin * code value) : Prop := within (footprint (fst x)) (snd x).

Lemma spawn_within o : within_footprint (spawn o).
Proof. exact (footprint_ok o). Qed.

Lemma footprints_act l s s' : Forall within_footprint (s_threads s) -> sys_act l s s' ->
  Forall within_footprint (s_threads s').
Proof.
  intros Ht Hst. destruct Hst as [| | | | |i o p p' c c' r ts Hi Hr| | | | |]; simpl in *; try done;
    try (apply Forall_app; split; [done|]; constructor; [apply spawn_within|constructor]).
  apply Forall_insert; [done|]. pose proof (Forall_lookup_1 _ _ _ _ Ht Hi) as Hp.
  by apply (always_resume _ _ _ _ _ Hp Hr).
Qed.

Lemma footprints s0 s : fresh s0 -> reach sys_step s0 s -> Forall within_footprint (s_threads s).
Proof.
  intros Hf. eapply (reach_invariant _ (λ s, Forall within_footprint (s_threads s))).
  - destruct Hf as (_ & _ & _ & [->|[h ->]]); constructor; [apply spawn_within|constructor].
  - intros s1 s2 H1' [l Hl]. by eapply footprints_act.
Qed.
End programs.

#[export] Hint Resolve stays_sockClose stays_notifyDrop stays_syncQuit : foot.
