(* ===== verification/Memory.v ===== *)
(** * The memory of a service in use

    The accounts of queued broadcasts and requests in the system of System.v, with
    everything else going on: the counter never passes the limit, never falls below
    the bytes that are queued, and as long as the pool works it is exact. *)

From Stdlib Require Import ZArith Lia Strings.Byte Strings.String.
From stdpp Require Import base gmap strings list relations.
From S2P Require Import Prelude Threads Bufio Wire Packets Receiver Tunnel Limits Quota.
From S2P Require Import Topic Requests Tunnels Connection Events Service Safety System Footprint.

Open Scope Z_scope.

(** ** A counter and a pool *)

Section balance.
Context {P : Type -> Type} `{ThreadPool P} {J : Type} (size : J -> Z).
Hypothesis size_nonneg : forall j, 0 <= size j.

Definition bytes_in (p : P J) : Z := zsum size (pool_queued p).
Definition bytes (p : option (P J)) : Z := match p with Some p => bytes_in p | None => 0 end.
Definition works (p : option (P J)) : bool := match p with Some p => pool_live p | None => true end.

Lemma bytes_nonneg p : 0 <= bytes p.
Proof. destruct p as [p|]; [by apply zsum_nonneg|done]. Qed.

(** The counter [u] covers what is queued, what the workers [ns] have taken and not
    subtracted yet, and what was lost when the pool was terminated. *)
Record balance (cap u : Z) (p : option (P J)) (ns : list Z) : Prop := {
  ba_shares : Forall (Z.le 0) ns;
  ba_cover : bytes p + sumZ ns <= u;
  ba_exact : works p = true -> u = bytes p + sumZ ns;
  ba_limit : u <= Z.max 0 cap
}.

Lemma balance_range cap u p ns : cap < 2 ^ 31 -> balance cap u p ns -> 0 <= u < 2 ^ 31.
Proof. intros Hc [Hs Hv _ Hl]. pose proof (bytes_nonneg p). pose proof (sumZ_nonneg _ Hs). lia. Qed.

(** The pool starts, or is terminated, perhaps with its jobs. *)
Definition lessens (p p' : option (P J)) : Prop :=
  bytes p' <= bytes p /\ (works p' = true -> works p = true /\ bytes p' = bytes p).

#[export] Instance lessens_preorder : PreOrder lessens.
Proof.
  split; [by split|]. intros p1 p2 p3 [H12 E12] [H23 E23]. split; [lia|]. intros Hw.
  destruct (E23 Hw) as [Hw2 ?]. destruct (E12 Hw2). split; [done|lia].
Qed.

Lemma balance_lessens cap u p p' ns : lessens p p' -> balance cap u p ns -> balance cap u p' ns.
Proof. intros [Hb Hw] [Hs Hv He Hl]. split; [done|lia| |done]. intros Hw'. destruct (Hw Hw'). rewrite He by done. lia. Qed.

(** A worker takes a job. *)
Lemma balance_take cap u p ns j p' : (j, p') ∈ pool_next p -> balance cap u (Some p) ns ->
  balance cap u (Some p') (ns ++ [size j]).
Proof.
  intros [Hq Hl]%next_queued [Hs Hv He Hlim]. pose proof (size_nonneg j).
  assert (bytes (Some p) = size j + bytes (Some p')) as Hb.
  { unfold bytes, bytes_in, zsum. rewrite Hq. done. }
  assert (sumZ (ns ++ [size j]) = sumZ ns + size j) as Hn by (rewrite sumZ_app; unfold sumZ at 2; simpl; lia).
  split; [apply Forall_app; split; [done|by constructor]|lia| |done].
  intros Hw. assert (works (Some p) = true) as Hw' by (simpl in *; congruence). specialize (He Hw'). lia.
Qed.

(** It gets to the subtraction. *)
Lemma balance_begin cap u p ns i n : cap < 2 ^ 31 -> ns !! i = Some n -> balance cap u p ns ->
  balance cap (quota_sub u n) p (<[i := 0]> ns).
Proof.
  intros Hc Hi Hb. pose proof (balance_range _ _ _ _ Hc Hb) as Hu. destruct Hb as [Hs Hv He Hl].
  pose proof (Forall_lookup_1 _ _ _ _ Hs Hi) as Hn. pose proof (bytes_nonneg p) as Hp.
  assert (sumZ (<[i := 0]> ns) = sumZ ns - n) as Hsum.
  { pose proof (zsum_insert id ns i n 0 Hi) as Hz. unfold zsum in Hz.
    change (map id) with (fmap (M := list) (@id Z)) in Hz. rewrite !list_fmap_id in Hz. simpl in Hz. lia. }
  assert (Forall (Z.le 0) (<[i := 0]> ns)) as Hs' by by apply Forall_insert.
  pose proof (sumZ_nonneg _ Hs').
  assert (quota_sub u n = u - n) as ->.
  { rewrite <- (i32_id u) at 1 by lia. rewrite quota_sub_i32. apply i32_id. lia. }
  split; [done|lia| |lia]. intros Hw. rewrite (He Hw) in *. lia.
Qed.

(** A message arrives that fits. *)
Lemma balance_arrive cap u p ns j : cap < 2 ^ 31 -> size j <= 2 ^ 62 -> quota_fits u (size j) cap = true ->
  balance cap u (Some p) ns -> balance cap (quota_add u (size j)) (Some (pool_Schedule j p)) ns.
Proof.
  intros Hc Hj Hf Hb. pose proof (balance_range _ _ _ _ Hc Hb) as Hu. destruct Hb as [Hs Hv He Hl].
  pose proof (size_nonneg j). unfold quota_fits in Hf. apply Z.leb_le in Hf. rewrite i64_id in Hf by lia.
  assert (quota_add u (size j) = u + size j) as ->.
  { rewrite <- (i32_id u) at 1 by lia. rewrite quota_add_i32. apply i32_id. lia. }
  assert (bytes (Some (pool_Schedule j p)) = bytes (Some p) + (if pool_live p then size j else 0)) as Hq.
  { unfold bytes, bytes_in, zsum. rewrite Schedule_queued. destruct (pool_live p); [|lia].
    rewrite map_app, sumZ_app. unfold sumZ at 2. simpl. lia. }
  split; [done| | |lia].
  - rewrite Hq. destruct (pool_live p); lia.
  - simpl works. rewrite Schedule_live. intros Hw. specialize (He Hw). rewrite Hw in Hq. lia.
Qed.
End balance.

(** ** An account of a connection *)

Section accounts.
Context `{GoRuntime} {Q : Type} `{Queue slice Q} {P : Type -> Type} `{ThreadPool P} {TH : Type}.
Local Abbreviation Connection := (Connection Q P TH).
Local Abbreviation code := (prog Connection cwake).
Local Abbreviation origin := (origin (TH := TH)).
Implicit Types c : Connection.

(** A counter, the pool it is kept for, its limit, and the goroutines that run the
    pool's jobs, with their size. *)
Class Account (J : Type) := {
  acc_size : J -> Z;
  acc_used : qos P -> Z;
  acc_pool : qos P -> option (P J);
  acc_cap : ServiceLimits -> Z;
  acc_job : origin -> option Z
}.

Section account.
Context {J : Type} {acc : Account J}.

Definition cap_of (lim : option ServiceLimits) : Z := default 0 (acc_cap <$> lim).

(** What the rest of the connection may do to the account. *)
Definition minds c c' : Prop :=
  limits (c_qos c') = limits (c_qos c) /\ acc_used (c_qos c') = acc_used (c_qos c) /\
  lessens acc_size (acc_pool (c_qos c)) (acc_pool (c_qos c')).

#[export] Instance minds_preorder : PreOrder minds.
Proof.
  split; [by intros c|]. intros c1 c2 c3 (? & ? & ?) (? & ? & ?). split_and!; [congruence|congruence|by etrans].
Qed.

(** A worker takes a job of [n] bytes; a message of [n] bytes arrives. *)
Definition takes (n : Z) c c' : Prop :=
  limits (c_qos c') = limits (c_qos c) /\ acc_used (c_qos c') = acc_used (c_qos c) /\
  exists p j p', acc_pool (c_qos c) = Some p /\ (j, p') ∈ pool_next p /\ acc_pool (c_qos c') = Some p' /\
    acc_size j = n.

Definition admits c c' : Prop :=
  limits (c_qos c') = limits (c_qos c) /\
  exists p j, acc_pool (c_qos c) = Some p /\ acc_pool (c_qos c') = Some (pool_Schedule j p) /\
    acc_size j <= maxAlloc /\ quota_fits (acc_used (c_qos c)) (acc_size j) (cap_of (limits (c_qos c))) = true /\
    acc_used (c_qos c') = quota_add (acc_used (c_qos c)) (acc_size j).

(** A goroutine that runs a job of [n] bytes: it subtracts them in its first stretch. *)
Definition subtracts (n : Z) (p : code value) : Prop :=
  exists f k, p = Act (modify f) k /\ (forall r, always minds (k r)) /\
    forall c, limits (c_qos (f c)) = limits (c_qos c) /\ acc_pool (c_qos (f c)) = acc_pool (c_qos c) /\
      acc_used (c_qos (f c)) = quota_sub (acc_used (c_qos c)) n.

(** What makes it an account: apart from arriving messages and the workers that
    start jobs nobody touches it, except to start or to end the pool. *)
Class AccountLaws := {
  acc_size_nonneg : forall j, 0 <= acc_size j;
  acc_init : forall h, acc_job (OInit h) = None;
  acc_start : forall o, match acc_job o with Some n => subtracts n (start o) | None => always minds (start o) end;
  acc_spawn : forall c c' r ts o, sys_act None (Sys c r ts) (Sys c' r (ts ++ [spawn o])) ->
    match acc_job o with Some n => takes n c c' | None => minds c c' end;
  acc_receive : forall p c q c', conn_ok c -> in_ok p -> expected p c -> run_on (receive p) c = (q, c') ->
    always minds q /\ (minds c c' \/ admits c c');
  acc_down : forall err, always minds (go_down (TH := TH) err)
}.

Context `{!AccountLaws}.
Hypothesis memory_fits : maxAlloc <= 2 ^ 62.

(** What a goroutine has taken from the pool and not subtracted yet. *)
Definition share (x : origin * code value) (n : Z) : Prop :=
  acc_job (fst x) = Some n /\ snd x = Yield (start (fst x)) \/ n = 0 /\ always minds (snd x).

Definition receiver_minds (r : receiver) : Prop :=
  match r with Listening => True | Handling q | Ending q => always minds q end.

(** The limits never change. *)
Record acc_ok (lim : option ServiceLimits) (s : sys) : Prop := {
  ao_limits : limits (c_qos (s_conn s)) = lim;
  ao_recv : receiver_minds (s_recv s);
  ao_balance : exists ns, Forall2 share (s_threads s) ns /\
    let q := c_qos (s_conn s) in balance acc_size (cap_of lim) (acc_used q) (acc_pool q) ns
}.

Lemma balance_minds cap c c' ns : minds c c' -> balance acc_size cap (acc_used (c_qos c)) (acc_pool (c_qos c)) ns ->
  balance acc_size cap (acc_used (c_qos c')) (acc_pool (c_qos c')) ns.
Proof. intros (El & Eu & Hl). rewrite Eu. by apply balance_lessens. Qed.

Lemma balance_zero cap u p ns : balance acc_size cap u p ns -> balance acc_size cap u p (ns ++ [0]).
Proof.
  intros [Hs Hv He Hl]. assert (sumZ (ns ++ [0]) = sumZ ns) as E by (rewrite sumZ_app; unfold sumZ at 2; simpl; lia).
  split; [apply Forall_app; split; [done|by constructor]|rewrite E..|]; done.
Qed.

(** The goroutines and the receiver as they were, on a connection that is minded. *)
Lemma acc_ok_minds lim c c' r r' ts : minds c c' -> receiver_minds r' -> acc_ok lim (Sys c r ts) -> acc_ok lim (Sys c' r' ts).
Proof.
  intros Hm Hr' [Hl _ (ns & Hns & Hb)]. simpl in *. split; simpl; [by rewrite (proj1 Hm)|done|].
  exists ns. split; [done|]. by apply (balance_minds _ _ _ _ Hm).
Qed.

Lemma acc_ok_spawn lim c c' r ts o : sys_act None (Sys c r ts) (Sys c' r (ts ++ [spawn o])) ->
  acc_ok lim (Sys c r ts) -> acc_ok lim (Sys c' r (ts ++ [spawn o])).
Proof.
  intros Ha [Hlim Hr (ns & Hns & Hb)]. pose proof (acc_spawn _ _ _ _ _ Ha) as Hsp. pose proof (acc_start o) as Hso.
  simpl in *. destruct (acc_job o) as [n|] eqn:Ej.
  - destruct Hsp as (El & Eu & p & j & p' & Ep & Hj & Ep' & <-). split; simpl; [congruence|done|].
    exists (ns ++ [acc_size j]). split.
    + apply Forall2_app; [done|]. constructor; [by left|constructor].
    + rewrite Eu, Ep'. rewrite Ep in Hb. eapply balance_take; [apply acc_size_nonneg|done..].
  - split; simpl; [by rewrite (proj1 Hsp)|done|]. exists (ns ++ [0]). split.
    + apply Forall2_app; [done|]. constructor; [by right|constructor].
    + by apply balance_zero, (balance_minds _ _ _ _ Hsp).
Qed.

(** A goroutine goes on. *)
Lemma acc_ok_run lim c c' r ts i o p p' : cap_of lim < 2 ^ 31 -> ts !! i = Some (o, p) -> resume p c (p', c') ->
  acc_ok lim (Sys c r ts) -> acc_ok lim (Sys c' r (<[i := (o, p')]> ts)).
Proof.
  intros Hcap Ei Er [Hlim Hr (ns & Hns & Hb)]. simpl in *.
  destruct (Forall2_lookup_l _ _ _ _ _ Hns Ei) as (n & En & [[Ej E]|[-> Hm]]); simpl in *.
  - pose proof (acc_start o) as Hso. rewrite Ej in Hso. destruct Hso as (f & k & Es & Hk & Hf). subst p. simpl in Er.
    rewrite Es in Er. simpl in Er. destruct (Hf c) as (El & Epl & Eu).
    destruct (always_run_on minds (k (Ok tt)) (f c) (Hk _)) as [Hm Hal]. rewrite <- Er in Hm, Hal. simpl in Hm, Hal.
    split; simpl; [by rewrite (proj1 Hm), El|done|].
    exists (<[i := 0]> ns). split; [apply Forall2_insert; [done|by right]|].
    apply (balance_minds _ _ _ _ Hm). rewrite Eu, Epl. by apply balance_begin; [apply acc_size_nonneg|..].
  - destruct (always_resume _ _ _ _ _ Hm Er) as [Hmm Hal]. split; simpl; [by rewrite (proj1 Hmm)|done|].
    exists ns. split; [|by apply (balance_minds _ _ _ _ Hmm)].
    rewrite <- (list_insert_id ns i 0 En). apply Forall2_insert; [done|by right].
Qed.

Lemma acc_ok_act lim l s s' : cap_of lim < 2 ^ 31 -> sys_ok s -> acc_ok lim s -> sys_act l s s' -> acc_ok lim s'.
Proof.
  intros Hcap [Hc _ _] Hok Hst. pose proof Hok as [Hlim Hr (ns & Hns & Hb)].
  destruct Hst as [a c r ts Ha Hid|g l1 l2 c r ts Eg|job p p' c r ts Ep Ej|e job p p' c r ts Ep Ej
    |i t job p' c r ts Et Ej|i o p p' c c' r ts Ei Er
    |p q c c' ts Hp He Er|q q' c c' ts Er|c ts|err c ts|q q' c c' ts Er]; simpl in Hlim, Hr, Hns, Hb, Hc;
    try (eapply acc_ok_spawn; [by econstructor|exact Hok]).
  - by eapply acc_ok_run.
  - destruct (acc_receive p c q c' Hc Hp He Er) as [Hal [Hm|(El & pl & j & Ep & Ep' & Hj & Hf & Eu)]].
    + by eapply acc_ok_minds.
    + split; simpl; [congruence|done|]. exists ns. split; [done|]. rewrite Eu, Ep'. rewrite Ep in Hb. rewrite Hlim in Hf.
      apply balance_arrive; [apply acc_size_nonneg|done|lia|done..].
  - destruct (always_resume _ _ _ _ _ Hr Er) as [Hmm Hal]. by eapply acc_ok_minds.
  - by eapply acc_ok_minds.
  - eapply acc_ok_minds; [done|apply acc_down|exact Hok].
  - destruct (always_resume _ _ _ _ _ Hr Er) as [Hmm Hal]. by eapply acc_ok_minds.
Qed.

(** A queue that starts empty. *)
Lemma acc_ok_reach s0 s : fresh s0 -> acc_used (c_qos (s_conn s0)) = 0 ->
  (forall p, acc_pool (c_qos (s_conn s0)) = Some p -> pool_queued p = []) ->
  cap_of (limits (c_qos (s_conn s0))) < 2 ^ 31 -> reach sys_step s0 s ->
  acc_ok (limits (c_qos (s_conn s0))) s.
Proof.
  intros Hf Hu Hq Hcap Hr. eapply (reach_invariant sys_step (λ s, sys_ok s /\ acc_ok _ s)); [| |exact Hr].
  - split; [by apply fresh_ok|]. destruct Hf as (_ & _ & Hrv & Hts).
    assert (forall ns, Forall2 share (s_threads s0) ns -> Forall (λ n, n = 0) ns -> acc_ok (limits (c_qos (s_conn s0))) s0) as Hns.
    { intros ns Hns Hz. split; [done|by rewrite Hrv|]. exists ns. split; [done|]. cbn zeta. rewrite Hu.
      assert (bytes acc_size (acc_pool (c_qos (s_conn s0))) = 0) as Hb.
      { destruct (acc_pool _) as [p|] eqn:Ep; [|done]. simpl. unfold bytes_in. by rewrite (Hq p eq_refl). }
      assert (sumZ ns = 0) as Hs by (clear -Hz; induction Hz as [|n ns -> _ IH]; [done|unfold sumZ in *; simpl; lia]).
      split; [eapply Forall_impl; [exact Hz|by intros n ->]|lia|lia|lia]. }
    destruct Hts as [E|[h E]]; rewrite E in Hns; [by apply (Hns []); constructor|].
    apply (Hns [0]); [|by constructor]. constructor; [|constructor]. right. split; [done|].
    pose proof (acc_start (OInit h)) as Hst. by rewrite acc_init in Hst.
  - intros s1 s2 [H1' H2'] [l Hl]. split; [by eapply sys_ok_act|by eapply acc_ok_act].
Qed.
End account.
End accounts.

(** ** Broadcasts and requests *)

Section service.
Context `{GoRuntime} {Q : Type} `{Queue slice Q} {P : Type -> Type} `{ThreadPool P} {TH : Type}.
Local Abbreviation Connection := (Connection Q P TH).
Local Abbreviation code := (prog Connection cwake).
Local Abbreviation origin := (origin (TH := TH)).
Implicit Types c : Connection.

Definition broadcasts : Account (P := P) (TH := TH) bcast_job := {|
  acc_size j := len (snd j);
  acc_used := bcastUsed;
  acc_pool := bcastPool;
  acc_cap := BroadcastMemory;
  acc_job o := match o with OBroadcast job => Some (len (snd job)) | _ => None end
|}.

Definition requests : Account (P := P) (TH := TH) req_job := {|
  acc_size j := len (snd (fst j));
  acc_used := reqUsed;
  acc_pool := reqPool;
  acc_cap := RequestMemory;
  acc_job o := match o with ORequest _ job => Some (len (snd (fst job))) | _ => None end
|}.

(** How a goroutine is started. *)
Lemma spawned c c' r ts o : sys_act None (Sys c r ts) (Sys c' r (ts ++ [spawn o])) ->
  match o with
  | OBroadcast job => exists p p', bcastPool (c_qos c) = Some p /\ (job, p') ∈ pool_next p /\ c' = with_bcastPool p' c
  | ORequest _ job => exists p p', reqPool (c_qos c) = Some p /\ (job, p') ∈ pool_next p /\ c' = with_reqPool p' c
  | _ => c_qos c' = c_qos c
  end.
Proof.
  intros Ha. remember (ts ++ [spawn o]) as ts' eqn:Ets. remember (Sys c r ts) as s eqn:Es.
  remember (Sys c' r ts') as s' eqn:Es'. destruct Ha; simplify_eq/=; eauto 10.
  all: try (apply app_inj_2 in Ets as [_ [= ->]]; [|done]; eauto 10; fail).
  all: exfalso; match goal with E : _ = _ ++ [_] |- _ => apply (f_equal length) in E | E : _ ++ [_] = _ |- _ => apply (f_equal length) in E end;
    rewrite ?length_insert, length_app in *; simpl in *; lia.
Qed.

(** Programs that leave the queues alone. *)
Lemma touches_minds {J} {acc : Account (P := P) (TH := TH) J} ps c c' : PQos ∉ ps -> touches ps c c' -> minds c c'.
Proof. intros Hp Ht. pose proof (touches_same _ PQos _ _ Ht Hp) as E. simpl in E. unfold minds. by rewrite E. Qed.

Lemma within_minds {J} {acc : Account (P := P) (TH := TH) J} {A} ps (p : code A) : PQos ∉ ps ->
  always (touches ps) p -> always minds p.
Proof. intros Hp. apply always_mono. intros c c'. by apply touches_minds. Qed.

(** A pool is replaced by one with no more in it. *)
Lemma lessens_same {J} (size : J -> Z) (p : option (P J)) : lessens size p p.
Proof. by split. Qed.

Lemma lessens_start {J} (size : J -> Z) (p : option (P J)) : lessens size p (option_map pool_Start p).
Proof. destruct p as [p|]; [|done]. unfold lessens, bytes, bytes_in, works. simpl. by rewrite Start_queued, Start_live. Qed.

Lemma lessens_drop {J} (size : J -> Z) (p : option (P J)) : (forall j, 0 <= size j) ->
  lessens size p (option_map (pool_Terminate true) p).
Proof.
  intros Hs. destruct p as [p|]; [|done]. unfold lessens, bytes, bytes_in, works. simpl.
  rewrite Terminate_queued, Terminate_live. split; [|done]. by apply zsum_nonneg.
Qed.

(** Unregistering and registering end and start the pools. *)
Lemma service_minds {J} {acc : Account (P := P) (TH := TH) J} o :
  (forall c, minds c (start_bcastPool c)) -> (forall c, minds c (start_reqPool c)) ->
  (forall c, minds c (drop_requests c)) -> (forall c, minds c (drop_broadcasts c)) ->
  match o with OApi AUnregister | OInit _ => always minds (start o) | _ => True end.
Proof.
  intros Hs1 Hs2 Hd1 Hd2.
  assert (always minds (conn_Close : code unit)) as Hc.
  { eapply within_minds; [|apply (conn_Close_within [PSubs]); by left]. set_solver. }
  destruct o as [[]| | | | |h]; try done; cbn [start run_api].
  - apply always_bind; [|done]. unfold Unregister. apply always_bind; [by apply always_catch|]. intros x.
    apply always_bind; [done|intros _]. apply always_bind; [by apply always_atomic|intros _].
    apply always_bind; [done|intros _]. apply always_bind; [by apply always_atomic|intros _]. by destruct x.
  - apply always_bind; [|done]. unfold Register_init. apply always_bind; [done|intros _].
    apply always_bind; [apply always_atomic; intros c|intros _].
    { eapply (touches_minds []); [set_solver|]. by apply stays_call. }
    apply always_bind; [done|intros _]. destruct (sh_Init h).
    + apply always_bind; [by apply always_catch|done].
    + apply always_bind; [by apply always_atomic|intros _]. apply always_bind; [done|intros _]. by apply always_atomic.
Qed.

Lemma start_minds {J} {acc : Account (P := P) (TH := TH) J} o : PQos ∉ footprint o -> always minds (start o).
Proof. intros Hp. eapply within_minds; [exact Hp|apply footprint_ok]. Qed.

(** What a packet that concerns neither does. *)
Lemma receive_minds {J} {acc : Account (P := P) (TH := TH) J} p c q c' : PQos ∉ concerns p ->
  run_on (receive p) c = (q, c') -> always minds q /\ minds c c'.
Proof.
  intros Hp E. pose proof (within_minds (concerns p) (receive p) Hp (receive_within p)) as Hm.
  destruct (always_run_on minds _ c Hm) as [Hc Hq]. by rewrite E in Hc, Hq.
Qed.

Lemma down_minds {J} {acc : Account (P := P) (TH := TH) J} err : always minds (go_down err : code unit).
Proof. eapply within_minds; [|apply go_down_within]. set_solver. Qed.

(** The handlers of a service whose queues exist. *)
Lemma handleBroadcast_eq m c lim p : limits (c_qos c) = Some lim -> bcastPool (c_qos c) = Some p ->
  let q := c_qos c in let id := u64 (bcastIdx q + 1) in
  conn_handleBroadcast m c = (Ok tt, set_qos
    (if quota_fits (bcastUsed q) (len m) (BroadcastMemory lim)
     then Qos (limits q) id (Some (pool_Schedule (i64 id, m) p)) (quota_add (bcastUsed q) (len m)) (reqPool q) (reqUsed q)
     else Qos (limits q) id (Some p) (bcastUsed q) (reqPool q) (reqUsed q)) c).
Proof. intros El Ep. unfold conn_handleBroadcast. cbn zeta. rewrite El, Ep. by destruct (quota_fits _ _ _). Qed.

Lemma handleRequest_eq id r t c lim p : limits (c_qos c) = Some lim -> reqPool (c_qos c) = Some p ->
  let q := c_qos c in
  conn_handleRequest id r t c = (Ok tt,
    if quota_fits (reqUsed q) (len r) (RequestMemory lim)
    then set_qos (Qos (limits q) (bcastIdx q) (bcastPool q) (bcastUsed q) (Some (pool_Schedule (id, r, t) p))
           (quota_add (reqUsed q) (len r))) c
    else c).
Proof. intros El Ep. unfold conn_handleRequest. cbn zeta. rewrite El, Ep. by destruct (quota_fits _ _ _). Qed.

Lemma service_pools c lim : conn_ok c -> limits (c_qos c) = Some lim ->
  is_Some (bcastPool (c_qos c)) /\ is_Some (reqPool (c_qos c)).
Proof. intros Hc Hlim. pose proof (proj1 (co_qos _ Hc)) as Hq. rewrite Hlim in Hq. by destruct Hq. Qed.

Lemma broadcast_arrives m c q c' : conn_ok c -> len m <= maxAlloc -> is_Some (limits (c_qos c)) ->
  run_on (receive (IBroadcast m)) c = (q, c') ->
  always (minds (acc := broadcasts)) q /\ (minds (acc := broadcasts) c c' \/ admits (acc := broadcasts) c c').
Proof.
  intros Hc Hm [lim Hlim]. destruct (service_pools c lim Hc Hlim) as [[p Hp] _].
  pose proof (handleBroadcast_eq m c lim p Hlim Hp) as E.
  cbn [receive deliver handleBroadcast conn_handlers]. rewrite run_on_atomic; rewrite E; [|done].
  intros [= <- <-]. split; [done|]. destruct (quota_fits _ _ _) eqn:Hf.
  - right. split; [done|]. exists p, (i64 (u64 (bcastIdx (c_qos c) + 1)), m). split_and!; try done.
    cbn. unfold cap_of. by rewrite Hlim.
  - left. split; [done|split; [done|]]. cbn. by rewrite Hp.
Qed.

Lemma request_arrives id r t c q c' : conn_ok c -> len r <= maxAlloc -> is_Some (limits (c_qos c)) ->
  run_on (receive (IRequest id r t)) c = (q, c') ->
  always (minds (acc := requests)) q /\ (minds (acc := requests) c c' \/ admits (acc := requests) c c').
Proof.
  intros Hc Hm [lim Hlim]. destruct (service_pools c lim Hc Hlim) as [_ [p Hp]].
  pose proof (handleRequest_eq id r (duration_ms t) c lim p Hlim Hp) as E.
  cbn [receive deliver handleRequest conn_handlers]. rewrite run_on_atomic; rewrite E; [|done].
  intros [= <- <-]. split; [done|]. destruct (quota_fits _ _ _) eqn:Hf; [right|by left].
  split; [done|]. exists p, (id, r, duration_ms t). split_and!; try done. cbn. unfold cap_of. by rewrite Hlim.
Qed.

(** A job subtracts its bytes and does not touch the queues again. *)
Lemma job_parts o : match o with
  | OBroadcast job => exists k, start o = Act (modify (broadcast_started (snd job))) k /\
      forall r, always (touches (P := P) (TH := TH) []) (k r)
  | ORequest _ job => exists k, start o = Act (modify (request_started (snd (fst job)))) k /\
      forall r, always (touches (P := P) (TH := TH) []) (k r)
  | _ => True
  end.
Proof.
  destruct o as [a|g|job|e [[id request] t]|p job|h]; try done.
  - eexists. split; [reflexivity|]. intros r. apply always_bind; [|foot]. destruct r; try exact I. cbn [oseq]. foot.
  - eexists. split; [reflexivity|]. intros r. apply always_bind; [|foot]. destruct r; try exact I. cbn [oseq]. foot.
Qed.

Lemma start_job {J} {acc : Account (P := P) (TH := TH) J} o : match o with
  | OBroadcast job => (forall c, minds c (broadcast_started (snd job) c)) -> always minds (start o)
  | ORequest _ job => (forall c, minds c (request_started (snd (fst job)) c)) -> always minds (start o)
  | _ => True
  end.
Proof.
  pose proof (job_parts o) as Hj. destruct o as [a|g|job|e job|p job|h]; try done;
    destruct Hj as (k & -> & Hk); intros Hm; (split; [done|]); intros r; (apply (within_minds []); [apply not_elem_of_nil|apply Hk]).
Qed.

#[export] Instance broadcasts_laws : AccountLaws (acc := broadcasts).
Proof.
  assert (forall c b, lessens (acc_size (Account := broadcasts)) (bcastPool (c_qos c)) b -> forall r u,
    let q := c_qos c in minds (acc := broadcasts) c (set_qos (Qos (limits q) (bcastIdx q) b (bcastUsed q) r u) c)) as Hset.
  { intros c b Hb r u q. done. }
  assert (forall j : bcast_job, 0 <= acc_size (Account := broadcasts) j) as Hn by (intros j; apply len_nonneg).
  split; [done|done|..].
  - intros o. destruct o as [[]|[]|job|e job|p job|h]; cbn [acc_job broadcasts];
      try (apply start_minds; not_in).
    + apply (service_minds (OApi AUnregister)); intros c; apply Hset; first [by apply lessens_start|by apply lessens_same|by apply lessens_drop].
    + destruct (job_parts (OBroadcast job)) as (k & E & Hk). exists (broadcast_started (snd job)), k.
      split_and!; [exact E| |by intros c]. intros r. apply (within_minds []); [apply not_elem_of_nil|apply Hk].
    + apply (start_job (ORequest e job)). intros c. apply Hset, lessens_same.
    + apply (service_minds (OInit h)); intros c; apply Hset; first [by apply lessens_start|by apply lessens_same|by apply lessens_drop].
  - intros c c' r ts o Ha. pose proof (spawned _ _ _ _ _ Ha) as Hs.
    assert (c_qos c' = c_qos c -> minds (acc := broadcasts) c c') as Heq by (unfold minds; by intros ->).
    destruct o as [a|g|job|e job|p job|h]; cbn [acc_job broadcasts]; auto.
    + destruct Hs as (p & p' & Ep & Hj & ->). split_and!; [done..|]. by exists p, job, p'.
    + destruct Hs as (p & p' & _ & _ & ->). apply Hset, lessens_same.
  - intros p c q c' Hc Hp He E.
    assert (PQos ∉ concerns p -> always (minds (acc := broadcasts)) q /\ (minds (acc := broadcasts) c c' \/ admits (acc := broadcasts) c c')) as Hother.
    { intros Hn'. destruct (receive_minds (acc := broadcasts) p c q c' Hn' E). auto. }
    destruct p; try (apply Hother; not_in); [by eapply broadcast_arrives|].
    destruct He as [lim Hlim]. destruct (service_pools c lim Hc Hlim) as [_ [p Ep]].
    pose proof (handleRequest_eq id request (duration_ms timeout) c lim p Hlim Ep) as Eh.
    cbn [receive deliver handleRequest conn_handlers] in E. rewrite run_on_atomic, Eh in E by by rewrite Eh.
    injection E as <- <-. split; [done|]. left. destruct (quota_fits _ _ _); [|done]. apply Hset, lessens_same.
  - intros err. apply down_minds.
Qed.

#[export] Instance requests_laws : AccountLaws (acc := requests).
Proof.
  assert (forall c r, lessens (acc_size (Account := requests)) (reqPool (c_qos c)) r -> forall i b u,
    let q := c_qos c in minds (acc := requests) c (set_qos (Qos (limits q) i b u r (reqUsed q)) c)) as Hset.
  { intros c r Hr i b u q. done. }
  assert (forall j : req_job, 0 <= acc_size (Account := requests) j) as Hn by (intros j; apply len_nonneg).
  split; [done|done|..].
  - intros o. destruct o as [[]|[]|job|e job|p job|h]; cbn [acc_job requests];
      try (apply start_minds; not_in).
    + apply (service_minds (OApi AUnregister)); intros c; apply Hset; first [by apply lessens_start|by apply lessens_same|by apply lessens_drop].
    + apply (start_job (OBroadcast job)). intros c. apply Hset, lessens_same.
    + destruct (job_parts (ORequest e job)) as (k & E & Hk). exists (request_started (snd (fst job))), k.
      split_and!; [exact E| |by intros c]. intros r. apply (within_minds []); [apply not_elem_of_nil|apply Hk].
    + apply (service_minds (OInit h)); intros c; apply Hset; first [by apply lessens_start|by apply lessens_same|by apply lessens_drop].
  - intros c c' r ts o Ha. pose proof (spawned _ _ _ _ _ Ha) as Hs.
    assert (c_qos c' = c_qos c -> minds (acc := requests) c c') as Heq by (unfold minds; by intros ->).
    destruct o as [a|g|job|e job|p job|h]; cbn [acc_job requests]; auto.
    + destruct Hs as (p & p' & _ & _ & ->). apply Hset, lessens_same.
    + destruct Hs as (p & p' & Ep & Hj & ->). split_and!; [done..|]. by exists p, job, p'.
  - intros p c q c' Hc Hp He E.
    assert (PQos ∉ concerns p -> always (minds (acc := requests)) q /\ (minds (acc := requests) c c' \/ admits (acc := requests) c c')) as Hother.
    { intros Hn'. destruct (receive_minds (acc := requests) p c q c' Hn' E). auto. }
    destruct p; try (apply Hother; not_in).
    + destruct He as [lim Hlim]. destruct (service_pools c lim Hc Hlim) as [[p Ep] _].
      pose proof (handleBroadcast_eq message c lim p Hlim Ep) as Eh.
      cbn [receive deliver handleBroadcast conn_handlers] in E. rewrite run_on_atomic, Eh in E by by rewrite Eh.
      injection E as <- <-. split; [done|]. left. destruct (quota_fits _ _ _); apply Hset, lessens_same.
    + destruct Hp as (_ & Hf & _). by eapply request_arrives.
  - intros err. apply down_minds.
Qed.

(** ** The bound *)

(** The counter is never below the bytes that are queued nor above the limit, so a
    service never holds more; and unless the pool has been terminated it has not
    leaked either: with every job that was started returned, it is what is queued. *)
Definition kept_within {J} (acc : Account (P := P) (TH := TH) J) (lim : ServiceLimits)
  (s : sys (Q := Q) (P := P) (TH := TH)) : Prop :=
  let q := c_qos (s_conn s) in
  0 <= bytes acc_size (acc_pool q) <= acc_used q /\ acc_used q <= Z.max 0 (acc_cap lim) /\
  (works (acc_pool q) = true ->
   (forall i o p n, s_threads s !! i = Some (o, p) -> acc_job o = Some n -> exists r, p = Ret r) ->
   acc_used q = bytes acc_size (acc_pool q)).

Lemma acc_ok_kept {J} (acc : Account (P := P) (TH := TH) J) `{!AccountLaws (Q := Q)} lim (s : sys (Q := Q)) :
  acc_ok (Some lim) s -> kept_within acc lim s.
Proof.
  intros [_ _ (ns & Hns & [Hs Hv He Hl])]. pose proof (bytes_nonneg acc_size acc_size_nonneg (acc_pool (c_qos (s_conn s)))).
  pose proof (sumZ_nonneg _ Hs). split_and!; [done|lia|exact Hl|]. intros Hw Hover. rewrite (He Hw).
  assert (sumZ ns = 0); [|lia]. clear -Hns Hover. revert Hover. induction Hns as [|x n ts ns Hx Hns IH]; intros Hover; [done|].
  unfold sumZ in *. simpl. rewrite IH; [|intros i; exact (Hover (S i))].
  destruct Hx as [[Ej E]|[-> _]]; [|done]. destruct x as [o p]. simpl in *. subst p.
  by destruct (Hover 0%nat o _ n eq_refl Ej).
Qed.

(** C7: the memory of a service is bounded. Whatever the application, the relay and
    the workers do, and however it all interleaves, the broadcasts that wait for a
    worker never take more than [BroadcastMemory] and the requests never more than
    [RequestMemory]; the counters do not drift, and a service that has handled
    everything has its whole allowance back. For limits below 2 GiB, the width of
    the counters. *)
Theorem memory_bounded lim (s0 s : sys (Q := Q) (P := P) (TH := TH)) : maxAlloc <= 2 ^ 62 -> fresh s0 -> newly_made (s_conn s0) ->
  limits (c_qos (s_conn s0)) = Some lim -> BroadcastMemory lim < 2 ^ 31 -> RequestMemory lim < 2 ^ 31 ->
  reach sys_step s0 s -> kept_within broadcasts lim s /\ kept_within requests lim s.
Proof.
  intros Hm Hf Hn Hlim Hb Hq Hr. destruct (nm_used _ Hn) as [Hub Huq].
  split; apply acc_ok_kept; try apply _; rewrite <- Hlim; apply acc_ok_reach; try done; try (by rewrite Hlim).
  - apply nm_bcast, Hn.
  - apply nm_req, Hn.
Qed.
End service.

(** A broadcast of a byte has arrived at a service that is being initialized. *)
Lemma memory_bounded_witness :
  let s := Sys (snd (run_on (receive (H := amd64) (IBroadcast [x61])) sample_new)) (Handling (Ret (Ok tt)))
             [spawn (H := amd64) (OInit sample_handler)] in
  bcastUsed (c_qos (s_conn s)) = 1 /\
  kept_within broadcasts sample_limits s /\ kept_within requests sample_limits s.
Proof.
  split; [reflexivity|]. destruct sample_service_fresh as [Hf Hn].
  apply (@memory_bounded amd64 _ _ _ _ nat sample_limits sample_service_sys); try done.
  eapply reach_act, (sy_receive (H := amd64) (IBroadcast [x61])); [vm_compute; congruence|by eexists|reflexivity].
Defined.
