(* ===== verification/Answers.v ===== *)
(** * The requests of a connection in use

    The calls of [Request] in the system of System.v follow the protocol of
    Requests.v: however they interleave with everything else, the result channels
    and the place each call has got to are those of a run of [rqstep]. So a call
    only ever returns an answer to its own request. *)

From Stdlib Require Import ZArith Lia Strings.Byte Strings.String.
From stdpp Require Import base gmap strings list relations.
From S2P Require Import Prelude Threads Bufio Wire Packets Receiver Tunnel Limits Quota.
From S2P Require Import Topic Requests Tunnels Connection Events Service Safety System Footprint.

Open Scope Z_scope.

Section answers.
Context `{GoRuntime} {Q : Type} `{Queue slice Q} {P : Type -> Type} `{ThreadPool P} {TH : Type}.
Local Abbreviation Connection := (Connection Q P TH).
Local Abbreviation code := (prog Connection cwake).
Local Abbreviation origin := (origin (TH := TH)).
Local Abbreviation sys := (sys (Q := Q) (P := P) (TH := TH)).
Implicit Types c : Connection.

(** ** Where a request is *)

(** What [Request] returns for a result. *)
Definition value_of (res : result) : error + slice :=
  match res with
  | Reply r => inr (Some r)
  | Failed e | SendFailed e => inl e
  | Closed => inl ErrClosed
  end.

Definition returned (res : result) : outcome value :=
  match value_of res with inl e => Err e | inr r => Ok (VBytes r) end.

(** What is left of [Request] after its [select], before its [select], and before
    it sends. *)
Definition clean_at (id : Z) (res : error + slice) : code value :=
  r ← (atomic (on_reqs (req_cleanup id));;
       match res with inl err => raise err | inr reply => mret reply end);
  mret (VBytes r).

Definition finish (id : Z) (p : code slice) : code value :=
  r ← (res ← catch p;
       yield;;
       atomic (on_reqs (req_cleanup id));;
       match res with inl err => raise err | inr reply => mret reply end);
  mret (VBytes r).

Definition send_at (x : gostring) (m : slice) (t id : Z) : code value :=
  finish id (atomic (on_sock (sendRequest id x m (timeout_ms t)));; Request_select id).

Inductive request_at (x : gostring) (m : slice) (t : Z) : code value -> rqpc -> Prop :=
| ra_start : request_at x m t (Yield (start (OApi (ARequest x m t)))) RqIdle
| ra_refused e : request_at x m t (Ret (Err e)) RqIdle
| ra_send id : request_at x m t (Yield (send_at x m t id)) (RqSend id)
| ra_wait id : request_at x m t (finish id (Request_select id)) (RqWait id)
| ra_clean id res : request_at x m t (Yield (clean_at id (value_of res))) (RqClean id res)
| ra_done id res : request_at x m t (Ret (returned res)) (RqDone id res).

(** A goroutine and its place in the protocol: the others have none. *)
Definition place (y : origin * code value) (pc : rqpc) : Prop :=
  match fst y with
  | OApi (ARequest x m t) => request_at x m t (snd y) pc
  | _ => pc = RqIdle
  end.

(** ** One step of a request *)

(** A step of a request is at most a step of the protocol. *)
Lemma request_act x m t p c p' c' pc : request_at x m t p pc -> resume p c (p', c') ->
  at_rest p' -> (forall r, p' = Ret r -> returns r) ->
  exists pc', request_at x m t p' pc' /\ c_term c' = c_term c /\
    forall l i b n, l !! i = Some pc ->
      reach (rqstep false) (RqSys (c_reqs c) l b None n (c_term c))
        (RqSys (c_reqs c') (<[i := pc']> l) b None n (c_term c)).
Proof.
  intros Hat Hr Hrest Hret. destruct Hat as [|e|id|id|id res|id res]; simpl in Hr; try done.
  - (* the arguments are looked at and a number is taken *)
    cbn [start run_api] in Hr. unfold Request in Hr.
    assert (forall e, (p', c') = (Ret (Err e), c) -> exists pc', request_at x m t p' pc' /\ c_term c' = c_term c /\
      forall l i b n, l !! i = Some RqIdle ->
      reach (rqstep false) (RqSys (c_reqs c) l b None n (c_term c))
        (RqSys (c_reqs c') (<[i := pc']> l) b None n (c_term c))) as Hno.
    { intros e [= -> ->]. exists RqIdle. split_and!; [constructor|done|]. intros l i b n Hi. rewrite list_insert_id by done. constructor. }
    repeat (case_decide || case_test); try (eapply Hno; exact Hr).
    injection Hr as -> ->. set (id := reqIdx (c_reqs c)). exists (RqSend id). split_and!; [apply (ra_send x m t id)|done|].
    intros l i b n Hi. apply reach_one. by apply rq_register.
  - (* the request is sent *)
    simpl in Hr. unfold on_sock in Hr. rewrite lift_eq in Hr.
    destruct (sendRequest id x m (timeout_ms t) (c_link c)) as [[[]|e|why| |] l']; simpl in Hr; injection Hr as -> ->.
    + exists (RqWait id). split_and!; [constructor|done|]. intros l i b n Hi. apply reach_one. by apply rq_sent.
    + exists (RqClean id (SendFailed e)). split_and!; [apply (ra_clean x m t id (SendFailed e))|done|].
      intros l i b n Hi. apply reach_one. by apply rq_failed.
    + by destruct (Hret _ eq_refl).
    + done.
    + by destruct (Hret _ eq_refl).
  - (* it waits *)
    destruct Hr as (w & Hb & Hr). destruct w; try done.
    + unfold recv_term in Hb, Hr. rewrite bind_eq in Hb, Hr. destruct (c_term c) eqn:Ht; [|done]. simpl in Hr. injection Hr as -> ->.
      exists (RqClean id Closed). split_and!; [apply (ra_clean x m t id Closed)|done|].
      intros l i b n Hi. apply reach_one. by apply rq_closed.
    + rewrite bind_eq in Hb, Hr. cbn [gets] in Hb, Hr.
      destruct (req_take_reply id (c_reqs c)) as [[r s]|] eqn:E; [|done]. rewrite bind_eq in Hr. simpl in Hr. injection Hr as -> ->.
      exists (RqClean id (Reply r)). split_and!; [apply (ra_clean x m t id (Reply r))|done|].
      intros l i b n Hi. apply reach_one. by eapply rq_reply.
    + rewrite bind_eq in Hb, Hr. cbn [gets] in Hb, Hr.
      destruct (req_take_err id (c_reqs c)) as [[e s]|] eqn:E; [|done]. rewrite bind_eq in Hr. simpl in Hr. injection Hr as -> ->.
      exists (RqClean id (Failed e)). split_and!; [apply (ra_clean x m t id (Failed e))|done|].
      intros l i b n Hi. apply reach_one. by eapply rq_err.
  - (* it cleans up *)
    simpl in Hr.
    assert ((p', c') = (Ret (returned res), set_reqs (snd (req_cleanup id (c_reqs c))) c)) as [= -> ->].
    { rewrite Hr. by destruct res. }
    exists (RqDone id res). split_and!; [constructor|done|]. intros l i b n Hi. apply reach_one. by eapply rq_cleaned.
Qed.
(** ** The rest of the system *)

(** The reply a packet is. *)
Definition reply_of (p : InPacket) : option reply_msg :=
  match p with
  | IReply id r => Some (id, Some r, [])
  | ITimeout id => Some (id, None, [])
  | IFault id f => Some (id, None, f)
  | _ => None
  end.

Definition replies (h : list InPacket) : list reply_msg := omap reply_of h.

(** What all the others do: nothing to the requests, and only the receiver ends the
    connection. *)
Definition aside c c' : Prop := c_reqs c' = c_reqs c /\ (c_term c = true -> c_term c' = true).

#[export] Instance aside_preorder : PreOrder aside.
Proof. split; [by split|]. intros c1 c2 c3 [E1 T1] [E2 T2]. split; [congruence|auto]. Qed.

Lemma touches_aside ps c c' : PReqs ∉ ps -> PTerm ∉ ps -> touches ps c c' -> aside c c'.
Proof.
  intros Hr Ht Hp. pose proof (touches_same _ _ _ _ Hp Hr) as E1. pose proof (touches_same _ _ _ _ Hp Ht) as E2.
  simpl in *. split; congruence.
Qed.

Lemma go_down_aside err : always aside (go_down err : code unit).
Proof.
  assert (forall m : M Connection unit, (forall ps, stays ps m) -> forall c, aside c (snd (m c))) as Hs.
  { intros m Hm c. apply (touches_aside []); [not_in..|apply Hm]. }
  unfold go_down. repeat (apply always_bind; [|intros _]); try done; try apply always_atomic.
  - intros c. unfold conn_closeTerm. by destruct (c_term c).
  - apply Hs. intros ps. apply stays_notifyDrop.
  - intros c. unfold on_tuns. rewrite lift_eq. by split.
  - apply always_select. intros _. apply Hs. intros ps. apply stays_syncQuit.
Qed.

Definition receiver_aside (r : receiver) : Prop :=
  match r with
  | Listening => True
  | Handling q => always (touches [PTuns]) q
  | Ending q => always aside q
  end.

Record follows (h : list InPacket) (s : sys) : Prop := {
  fo_recv : receiver_aside (s_recv s);
  fo_run : exists pcs, Forall2 place (s_threads s) pcs /\ forall extra : nat,
    reach (rqstep false) (rq_init (length (s_threads s) + extra))
      (RqSys (c_reqs (s_conn s)) (pcs ++ replicate extra RqIdle) [] None (replies h) (c_term (s_conn s)))
}.

(** Goroutines that are no requests. *)
Lemma place_other o p p' pc : PReqs ∉ footprint o -> place (o, p) pc -> place (o, p') pc.
Proof. unfold place. simpl. destruct o as [[]| | | | |]; simpl; try done. set_solver. Qed.

Lemma spawn_place o : place (spawn o) RqIdle.
Proof. unfold place. destruct o as [[]| | | | |]; simpl; try done. constructor. Qed.

Lemma term_never_touched o : PTerm ∉ footprint (TH := TH) o.
Proof. destruct o as [[]|[]| | | |]; not_in. Qed.

(** A goroutine starts. *)
Lemma follows_spawn h c c' r ts o : c_reqs c' = c_reqs c -> c_term c' = c_term c ->
  follows h (Sys c r ts) -> follows h (Sys c' r (ts ++ [spawn o])).
Proof.
  intros Er Et [Hr (pcs & Hp & Hrun)]. split; [done|]. exists (pcs ++ [RqIdle]). simpl in *. split.
  - apply Forall2_app; [done|]. constructor; [apply spawn_place|constructor].
  - intros extra. rewrite Er, Et, length_app. specialize (Hrun (S extra)).
    rewrite <- app_assoc. simpl in *. by rewrite <- Nat.add_assoc.
Qed.

(** A goroutine or the receiver leaves the requests alone, and perhaps ends the connection. *)
Lemma follows_aside h c c' r r' ts ts' : aside c c' -> receiver_aside r' -> length ts' = length ts ->
  (forall pcs, Forall2 place ts pcs -> Forall2 place ts' pcs) ->
  follows h (Sys c r ts) -> follows h (Sys c' r' ts').
Proof.
  intros [Er Et] Hr' Hl Hp' [Hr (pcs & Hp & Hrun)]. split; [done|]. exists pcs. simpl in *. split; [auto|].
  intros extra. rewrite Er, Hl. specialize (Hrun extra).
  destruct (c_term c) eqn:E; [by rewrite (Et eq_refl)|]. destruct (c_term c'); [|done].
  eapply reach_step; [exact Hrun|constructor].
Qed.

(** A reply is delivered. *)
Lemma reply_received x p c q c' : reply_of p = Some x -> expected p c -> run_on (receive p) c = (q, c') ->
  q = Ret (Ok tt) /\ handle x (c_reqs c) = (Ok tt, c_reqs c') /\ c_term c' = c_term c.
Proof.
  intros Hx He Er.
  assert (fst (deliver p c) = Ok tt /\ handle x (c_reqs c) = (Ok tt, c_reqs (snd (deliver p c))) /\
    c_term (snd (deliver p c)) = c_term c) as (Eo & Eh & Et).
  { destruct p as [| |id|id r|id [|b f]| | | | | | |]; try done; simpl in Hx; injection Hx as <-; cbn in He |- *;
      unfold conn_handleReply, on_reqs; rewrite lift_eq; cbn; unfold chan_send; by rewrite He. }
  assert ((receive p : code unit) = atomic (deliver p)) as E by by destruct p.
  rewrite E, run_on_atomic in Er by by rewrite Eo. injection Er as <- <-. by rewrite Eo.
Qed.

(** A packet that is none. *)
Lemma other_received p c q c' : reply_of p = None -> at_rest q -> run_on (receive p) c = (q, c') ->
  always (touches [PTuns]) q /\ aside c c'.
Proof.
  intros Hx Hq Er. destruct (always_run_on (touches (concerns p)) (receive p) c (receive_within p)) as [Ht Hal].
  rewrite Er in Ht, Hal. simpl in Ht, Hal.
  split; [|by eapply touches_aside; [..|exact Ht]; destruct p; try done; not_in].
  assert (forall m : M Connection unit, receive p = atomic m -> always (touches [PTuns]) q) as Hat.
  { intros m Em. rewrite Em in Er. by destruct (run_on_single _ _ _ _ Er Hq) as [o ->]. }
  destruct p; try done; by eapply Hat.
Qed.

Lemma follows_act h l s s' : sys_ok s -> sys_ok s' -> Forall within_footprint (s_threads s) ->
  follows h s -> sys_act l s s' -> follows (h ++ option_list l) s'.
Proof.
  intros Hok Hok' Hfp Hfo Hst. pose proof (sk_recv _ Hok) as Hrv. pose proof (sk_recv _ Hok') as Hrv'.
  pose proof Hfo as [Hr (pcs & Hp & Hrun)]. destruct Hst as [a c r ts Ha Hid|g l1 l2 c r ts Eg|job p p' c r ts Ep Ej|e job p p' c r ts Ep Ej
    |i t job p' c r ts Et Ej|i o p p' c c' r ts Ei Er
    |p q c c' ts Hin He Er|q q' c c' ts Er|c ts|err c ts|q q' c c' ts Er]; unfold option_list, option_rect; rewrite ?app_nil_r;
    try (by apply (follows_spawn h c)); simpl in Hr, Hp, Hrun, Hrv, Hrv', Hfp.
  - pose proof (Forall_lookup_1 _ _ _ _ Hfp Ei) as Hw. unfold within_footprint in Hw. simpl in Hw.
    destruct (Forall2_lookup_l _ _ _ _ _ Hp Ei) as (pc & Hpc & Hat).
    destruct (decide (PReqs ∈ footprint o)) as [Hin|Hout].
    + assert (exists x m t, o = OApi (ARequest x m t)) as (x & m & t & ->).
      { destruct o as [[]|[]| | | |]; cbn in Hin; try (exfalso; revert Hin; not_in); eauto. }
      pose proof (Forall_lookup_1 _ _ i (OApi (ARequest x m t), p') (sk_threads _ Hok')) as Hth. simpl in Hth.
      destruct Hth as [Hrest Hsafe]; [by apply list_lookup_insert_eq; eapply lookup_lt_Some|]. simpl in Hrest, Hsafe.
      destruct (request_act x m t p c p' c' pc Hat Er Hrest) as (pc' & Hat' & Et & Hreach).
      { intros r0 ->. by destruct Hsafe. }
      split; [done|]. exists (<[i := pc']> pcs). simpl. split; [by apply Forall2_insert|].
      intros extra. rewrite length_insert, Et. eapply reach_trans; [exact (Hrun extra)|].
      rewrite <- insert_app_l by by eapply lookup_lt_Some. apply Hreach. by apply lookup_app_l_Some.
    + eapply follows_aside; [|done|by rewrite length_insert| |exact Hfo].
      * destruct (always_resume _ _ _ _ _ Hw Er) as [Ht _]. by eapply touches_aside; [..|exact Ht]; [|apply term_never_touched].
      * intros pcs' Hp'. destruct (Forall2_lookup_l _ _ _ _ _ Hp' Ei) as (pc' & Hpc' & Hat').
        rewrite <- (list_insert_id pcs' i pc' Hpc'). apply Forall2_insert; [done|]. by eapply place_other.
  - destruct (reply_of p) as [x|] eqn:Ex.
    + destruct (reply_received x p c q c' Ex He Er) as (-> & Eh & Et). split; [done|]. exists pcs. simpl.
      split; [done|]. intros extra. unfold replies. rewrite omap_app. cbn. rewrite Ex. cbn. rewrite Et, Hrv in *.
      eapply reach_trans; [exact (Hrun extra)|]. eapply reach_trans; [apply reach_one, rq_relay with (x := x); done|].
      apply reach_one. by apply rq_receive.
    + destruct Hrv' as (_ & Hrest & _). destruct (other_received p c q c' Ex Hrest Er) as [Hal Has].
      assert (replies (h ++ [p]) = replies h) as Eh by (unfold replies; rewrite omap_app; cbn; by rewrite Ex, app_nil_r).
      destruct (follows_aside h c c' Listening (Handling q) ts ts Has Hal eq_refl (λ _ Hx, Hx) Hfo) as [? Hf].
      split; [done|]. simpl in *. by rewrite Eh.
  - destruct (always_resume _ _ _ _ _ Hr Er) as [Ht Hal]. eapply follows_aside; [|done|done|auto|exact Hfo].
    eapply touches_aside; [..|exact Ht]; not_in.
  - split; [done|]. by exists pcs.
  - split; [apply go_down_aside|]. by exists pcs.
  - destruct (always_resume _ _ _ _ _ Hr Er) as [Ht Hal]. eapply follows_aside; [exact Ht|done|done|auto|exact Hfo].
Qed.
Lemma follows_history s0 h s : fresh s0 -> newly_made (s_conn s0) -> history s0 h s ->
  sys_ok s /\ Forall within_footprint (s_threads s) /\ follows h s.
Proof.
  intros Hf Hn. induction 1 as [|h l s s' _ (Hok & Hfp & IH) Hst].
  - split; [by apply fresh_ok|]. split; [apply (footprints s0); [done|constructor]|].
    destruct Hf as (_ & Ht & Hr & Hts). split; [by rewrite Hr|]. rewrite (nm_reqs _ Hn), Ht. cbn.
    destruct Hts as [->|[h ->]].
    + exists []. split; constructor.
    + exists [RqIdle]. split; [constructor; [apply spawn_place|constructor]|]. constructor.
  - pose proof (sys_ok_act _ _ _ Hok Hst) as Hok'. split; [done|split; [by eapply footprints_act|]].
    exact (follows_act h l s s' Hok Hok' Hfp IH Hst).
Qed.

(** ** Properties *)

(** C9: the requests of a connection in use refine their protocol. However the
    calls of the application, the handlers and the receiver interleave, the result
    channels are those of a run of [rqstep] over the replies that have arrived, with
    each call at its place in it. What is shown of that protocol holds in the system. *)
Theorem requests_refine s0 h s : fresh s0 -> newly_made (s_conn s0) -> history s0 h s ->
  exists pcs, Forall2 place (s_threads s) pcs /\
    reach (rqstep false) (rq_init (length (s_threads s)))
      (RqSys (c_reqs (s_conn s)) pcs [] None (replies h) (c_term (s_conn s))).
Proof.
  intros Hf Hn Hh. destruct (follows_history s0 h s Hf Hn Hh) as (_ & _ & [_ (pcs & Hp & Hrun)]).
  exists pcs. split; [done|]. specialize (Hrun 0%nat). by rewrite Nat.add_0_r, app_nil_r in Hrun.
Qed.

(** A result is an answer that has arrived for that number, or the connection's own. *)
Definition rightful (h : list InPacket) (ended : bool) (id : Z) (res : result) : Prop :=
  match res with
  | Reply r => IReply id r ∈ h
  | Failed e => ITimeout id ∈ h /\ e = ErrTimeout \/
      exists f, IFault id f ∈ h /\ e = match f with [] => ErrTimeout | _ => RemoteError f end
  | SendFailed _ => True
  | Closed => ended = true
  end.

Lemma justified_rightful h b id res : justified (replies h) b id res -> rightful h b id res.
Proof.
  assert (forall x, x ∈ replies h -> exists p, p ∈ h /\ reply_of p = Some x) as Hx.
  { intros x. unfold replies. by intros (p & ? & ?)%list_elem_of_omap; exists p. }
  unfold justified. destruct res as [r|e|e|]; try done.
  - intros (x & (p & Hp & E)%Hx & Hid & Ha). destruct p as [| |i|i r'|i f| | | | | | |]; try done; simplify_eq/=; [done|].
    by destruct f.
  - intros (x & (p & Hp & E)%Hx & Hid & Ha). destruct p as [| |i|i r'|i f| | | | | | |]; try done; simplify_eq/=; [by left|].
    right. exists f. by destruct f; simplify_eq/=.
Qed.

End answers.

(** ** The properties at concrete inputs *)

(** A request is sent, its reply arrives, and the call returns it. *)
Definition reply_to (id : Z) : InPacket := IReply id [x62].

Definition sample_answered : sys (Q := list slice) (P := list_pool) (TH := nat) :=
  advance WakeReply 0%nat (advance WakeReply 0%nat (arrive (H := amd64) (reply_to 0)
    (advance WakeReply 0%nat (advance WakeReply 0%nat
      (call (H := amd64) (ARequest (str "cluster") (Some [x61]) 5000000) sample_sys))))).

Lemma sample_answered_history : history (H := amd64) sample_sys [reply_to 0] sample_answered.
Proof.
  apply advance_history, advance_history. apply (arrive_history (H := amd64) sample_sys []); [done|by split; vm_compute|done|].
  apply advance_history, advance_history, call_history; [by split; vm_compute|done|constructor].
Qed.

Lemma requests_refine_witness : exists pcs, Forall2 (place (H := amd64)) (s_threads sample_answered) pcs /\
  reach (rqstep false) (rq_init 1) (RqSys (c_reqs (s_conn sample_answered)) pcs [] None [(0, Some [x62], [])] false).
Proof. apply (@requests_refine amd64 _ _ _ _ _ sample_sys [reply_to 0] sample_answered sample_fresh sample_made sample_answered_history). Defined.

