(* ===== verification/Subscribed.v ===== *)
(** * The subscriptions of a connection in use

    The table of Topic.v in the system of System.v: until the application ends the
    connection, each name in it has a subscription of its own that takes events, and
    a subscription that has left it takes none, whatever subscribing, unsubscribing,
    events, their handlers and all else on the connection are at. *)

From Stdlib Require Import ZArith Lia Strings.Byte Strings.String.
From stdpp Require Import base gmap strings list relations.
From S2P Require Import Prelude Threads Bufio Wire Packets Receiver Tunnel Limits Quota.
From S2P Require Import Topic Requests Tunnels Connection Events Service Safety System Footprint.

Open Scope Z_scope.

Section subscribed.
Context `{GoRuntime} {Q : Type} `{Queue slice Q} {P : Type -> Type} `{ThreadPool P} {TH : Type}.
Local Abbreviation Connection := (Connection Q P TH).
Local Abbreviation code := (prog Connection cwake).
Local Abbreviation origin := (origin (TH := TH)).
Local Abbreviation sys := (sys (Q := Q) (P := P) (TH := TH)).
Implicit Types c : Connection.

(** A goroutine that may run [Close], which terminates every subscription and
    leaves the table as it is. *)
Definition closes (o : origin) : bool :=
  match o with
  | OApi AClose | OApi AUnregister => true
  | OInit h => bool_decide (sh_Init h <> None)
  | _ => false
  end.

Definition nobody_closes (s : sys) : Prop := Forall (λ x, closes (fst x) = false) (s_threads s).

(** ** What keeps the table in order *)

Definition tidy c c' : Prop := subs_ok (c_subs c) -> subs_ok (c_subs c').

#[export] Instance tidy_preorder : PreOrder tidy.
Proof. unfold tidy. split; [by intros c ?|]. intros c1 c2 c3. auto. Qed.

Lemma touches_tidy ps c c' : PSubs ∉ ps -> touches ps c c' -> tidy c c'.
Proof. intros Hp Ht. pose proof (touches_same _ _ _ _ Ht Hp) as E. simpl in E. unfold tidy. by rewrite E. Qed.

Lemma tidy_step {A} (m : M (subs (P := P) (TopicHandler := TH)) A) : (forall s, sub_step s (snd (m s))) ->
  forall c, tidy c (snd (on_subs m c)).
Proof. intros Hm c Hok. unfold on_subs. rewrite lift_eq. by eapply subs_ok_step. Qed.

(** Over an old pointer, or over none. *)
Lemma tidy_topic {A} p (m : M (topic (P := P) (TopicHandler := TH)) A) :
  (forall t, pool_live (eventPool (snd (m t))) = pool_live (eventPool t)) -> forall c, tidy c (snd (on_subs (upd_topic p m) c)).
Proof.
  intros Hm c Hok. unfold on_subs. rewrite lift_eq. simpl. destruct (topics (c_subs c) !! p) as [t|] eqn:Ht.
  - rewrite (upd_topic_eq _ _ _ _ Ht). by eapply subs_ok_upd.
  - unfold upd_topic. by rewrite Ht.
Qed.

Lemma tidy_quiet ps {A} (m : M Connection A) : PSubs ∉ ps -> stays ps m -> forall c, tidy c (snd (m c)).
Proof. intros Hp Hm c. by eapply touches_tidy. Qed.

Lemma stays_tidy {A} ps (m : M Connection A) : PSubs ∉ ps -> stays ps m -> always tidy (atomic m : code A).
Proof. intros Hp Hm. by apply always_atomic, (tidy_quiet ps). Qed.

Ltac tidy :=
  repeat (intros; first
    [ apply always_bind | apply always_catch | exact I
    | apply (stays_tidy []); [not_in|solve [eauto with foot]]
    | apply always_atomic, tidy_topic; solve [done|intros; apply Schedule_live]
    | match goal with |- context [match ?x with _ => _ end] => destruct x end ]).

Lemma start_tidy o : closes o = false -> always tidy (start o).
Proof.
  intros Hc. destruct (decide (PSubs ∈ footprint o)) as [Hin|Hout].
  2: { eapply always_mono; [|apply footprint_ok]. intros c c'. by apply touches_tidy. }
  destruct o as [[]|[]|job|e job|p job|h]; try discriminate; try (exfalso; revert Hin; not_in); cbn [start run_api run_go].
  - unfold Subscribe. tidy.
    + intros. apply always_atomic, tidy_step. intros s. by eapply (ss_insert s _ _ _ _ _), surjective_pairing.
    + intros. apply always_atomic, tidy_step. intros s. by eapply (ss_undo s _ _ _), surjective_pairing.
  - unfold Unsubscribe. tidy. intros. apply always_atomic, tidy_step. intros s. by eapply (ss_remove s _ _ _), surjective_pairing.
  - unfold conn_handlePublish. tidy.
  - unfold serve_event. tidy.
  - unfold Register_init. cbn [closes] in Hc. destruct (sh_Init h); [done|].
    destruct (qos_stretches (Q := Q) (P := P) (TH := TH) [PQos]) as (Hs1 & Hs2 & _); [by left|].
    tidy; intros; (apply (stays_tidy [PQos]); [not_in|done]).
Qed.

(** ** In the system *)

Record kept_tidy (s : sys) : Prop := {
  kt_subs : subs_ok (c_subs (s_conn s));
  kt_threads : Forall (λ x, always tidy (snd x)) (s_threads s);
  kt_recv : match s_recv s with Listening => True | Handling q | Ending q => always tidy q end
}.

Lemma receive_tidy p : always tidy (receive p : code unit).
Proof. eapply always_mono; [|apply receive_within]. intros c c'. apply touches_tidy. destruct p; not_in. Qed.

Lemma go_down_tidy err : always tidy (go_down err : code unit).
Proof. eapply always_mono; [|apply go_down_within]. intros c c'. apply touches_tidy. not_in. Qed.

Lemma kept_tidy_act l s s' : nobody_closes s' -> kept_tidy s -> sys_act l s s' -> kept_tidy s'.
Proof.
  intros Hn [Hs Ht Hr] Hst.
  assert (forall c c' r ts o, s' = Sys c' r (ts ++ [spawn o]) -> s = Sys c r ts -> c_subs c' = c_subs c \/ tidy c c' -> kept_tidy s') as Hspawn.
  { intros c c' r ts o -> -> E. split; simpl in *; [destruct E as [->|E]; auto| |done].
    apply Forall_app. split; [done|]. constructor; [|constructor]. apply start_tidy.
    apply Forall_app in Hn as [_ Hn]. by apply Forall_cons in Hn as [Hn _]. }
  destruct Hst as [a c r ts Ha Hid|g l1 l2 c r ts Eg|job p p' c r ts Ep Ej|e job p p' c r ts Ep Ej
    |i t job p' c r ts Et Ej|i o p p' c c' r ts Ei Er
    |p q c c' ts Hin He Er|q q' c c' ts Er|c ts|err c ts|q q' c c' ts Er]; try (eapply Hspawn; [done|done|by left]); simpl in Hs, Ht, Hr.
  - eapply Hspawn; [done|done|]. right. intros Hok. eapply subs_ok_upd; [exact Et| |done]. simpl. by apply (next_queued _ _ _ _ Ej).
  - destruct (always_resume _ _ _ _ _ (Forall_lookup_1 _ _ _ _ Ht Ei) Er) as [Hc Hp].
    split; simpl; [auto|by apply Forall_insert|done].
  - destruct (always_run_on tidy (receive p) c (receive_tidy p)) as [Hc Hq]. rewrite Er in Hc, Hq. split; simpl; auto.
  - destruct (always_resume _ _ _ _ _ Hr Er) as [Hc Hq]. split; simpl; auto.
  - by split.
  - split; [done|done|apply go_down_tidy].
  - destruct (always_resume _ _ _ _ _ Hr Er) as [Hc Hq]. split; simpl; auto.
Qed.

(** Once somebody closes the connection somebody always has. *)
Lemma nobody_closed_before l s s' : sys_act l s s' -> nobody_closes s' -> nobody_closes s.
Proof.
  unfold nobody_closes. intros Hst Hn. destruct Hst as [| | | | |i o p p' c c' r ts Ei Er| | | | |]; simpl in *; try done;
    try (by apply Forall_app in Hn as [Hn _]).
  apply Forall_lookup_2. intros j [o' q] Hj. destruct (decide (i = j)) as [<-|Hne].
  - simplify_eq. apply (Forall_lookup_1 _ _ i (o, p') Hn), list_lookup_insert_eq. by eapply lookup_lt_Some.
  - apply (Forall_lookup_1 _ _ j (o', q) Hn). by rewrite list_lookup_insert_ne.
Qed.

Lemma kept_tidy_reach s0 s : fresh s0 -> newly_made (s_conn s0) -> reach sys_step s0 s -> nobody_closes s -> kept_tidy s.
Proof.
  intros (_ & _ & Hr & Hts) Hm. induction 1 as [|s s' _ IH [l Hl]]; intros Hn.
  - split; [rewrite (nm_subs _ Hm); apply sub_init_ok| |by rewrite Hr].
    destruct Hts as [E|[h E]]; rewrite E; [constructor|]. constructor; [|constructor]. apply (start_tidy (OInit h)).
    unfold nobody_closes in Hn. rewrite E in Hn. by apply Forall_cons in Hn as [Hn _].
  - eapply kept_tidy_act; [exact Hn| |exact Hl]. apply IH. by eapply nobody_closed_before.
Qed.

(** C11: the subscriptions of a connection in use. As long as nobody closes the
    connection, and however everything on it interleaves: each name in the table has
    a subscription of its own with a working pool; and a subscription that is in the
    table no more, unsubscribed or never announced to the relay, has a terminated
    pool, and an event that still reaches it over an old pointer is queued nowhere. *)
Theorem subscriptions_in_order s0 s : fresh s0 -> newly_made (s_conn s0) -> reach sys_step s0 s -> nobody_closes s ->
  let t := c_subs (s_conn s) in
  (forall name p, subLive t !! name = Some p ->
     exists top, topics t !! p = Some top /\ pool_live (eventPool top) = true) /\
  (forall n1 n2 p, subLive t !! n1 = Some p -> subLive t !! n2 = Some p -> n1 = n2) /\
  (forall p top id event, topics t !! p = Some top -> (forall name, subLive t !! name <> Some p) ->
     pool_live (eventPool top) = false /\
     pool_queued (eventPool (snd (top_schedule id event top))) = pool_queued (eventPool top)).
Proof.
  intros Hf Hm Hr Hn t. destruct (kept_tidy_reach s0 s Hf Hm Hr Hn) as [[Hlive Hdead Hinj] _ _].
  split_and!; [done..|]. intros p top id event Hp Hno. pose proof (Hdead p top Hp Hno) as Hl. split; [done|].
  simpl. by rewrite (Schedule_queued event_job), Hl.
Qed.
End subscribed.

(** A client subscribes, and the subscription is sent. *)
Definition sample_subscribed : sys (Q := list slice) (P := list_pool) (TH := nat) :=
  advance WakeTerm 0%nat (advance WakeTerm 0%nat (call (H := amd64) (ASubscribe (str "news") (Some 3%nat) None) sample_sys)).

Lemma subscriptions_in_order_witness :
  s_threads sample_subscribed = [(OApi (ASubscribe (str "news") (Some 3%nat) None), Ret (Ok VUnit))] /\
  exists top, topics (c_subs (s_conn sample_subscribed)) !! 0%nat = Some top /\ pool_live (eventPool top) = true.
Proof.
  split; [reflexivity|].
  apply (@subscriptions_in_order amd64 _ _ _ _ _ sample_sys sample_subscribed sample_fresh sample_made) with (name := str "news").
  - apply (history_reach (H := amd64) _ []). apply advance_history, advance_history, call_history; [vm_compute; congruence|done|constructor].
  - constructor; [reflexivity|constructor].
  - reflexivity.
Defined.
