(* ===== verification/Making.v ===== *)
(** * What goroutines do to the tunnel table

    Which of them leave the table of Tunnels.v alone, what a call of [Tunnel] and the
    acceptance of a tunnel do to it, step by step, and where in this each of them
    is. *)

From Stdlib Require Import ZArith Lia Strings.Byte Strings.String.
From stdpp Require Import base gmap strings list relations.
From S2P Require Import Prelude Threads Bufio Wire Packets Receiver Tunnel Limits Quota.
From S2P Require Import Topic Requests Tunnels Connection Events Service Safety System Footprint.

Open Scope Z_scope.

Section making.
Context `{GoRuntime} {Q : Type} `{Queue slice Q} {P : Type -> Type} `{ThreadPool P} {TH : Type}.
Local Abbreviation Connection := (Connection Q P TH).
Local Abbreviation code := (prog Connection cwake).
Local Abbreviation origin := (origin (TH := TH)).
Local Abbreviation sys := (sys (Q := Q) (P := P) (TH := TH)).
Implicit Types (c : Connection) (s : tuns (Q := Q)).

(** ** What everybody may do to the table *)

(** No tunnel is made, none is put into the table, and what happens are critical
    sections of Tunnels.v that concern no tunnel under construction. *)
Record calm s s' : Prop := {
  ca_idx : tunIdx s' = tunIdx s;
  ca_live : forall id, is_live id s' = true -> is_live id s = true;
  ca_run : forall p g, reach tun_step (TSys s p g) (TSys s' p g)
}.

(** ... and no tunnel is handed to the service. *)
Definition mild c c' : Prop := calm (c_tuns c) (c_tuns c') /\ same PGiven c c'.

#[export] Instance calm_preorder : PreOrder calm.
Proof.
  split; [by split; [done|done|constructor]|]. intros s1 s2 s3 [] []. split; [congruence|auto|].
  intros p g. by eapply reach_trans.
Qed.

#[export] Instance mild_preorder : PreOrder mild.
Proof. split; [by split|]. intros c1 c2 c3 [H12 G12] [H23 G23]. split; [by etrans|]. by etrans. Qed.

Lemma touches_mild ps c c' : PTuns ∉ ps -> PGiven ∉ ps -> touches ps c c' -> mild c c'.
Proof.
  intros Hp Hg Ht. pose proof (touches_same _ _ _ _ Ht Hp) as E. simpl in E.
  split; [by rewrite E|]. by apply (touches_same _ _ _ _ Ht Hg).
Qed.

Lemma within_mild ps {A} (p : code A) : PTuns ∉ ps -> PGiven ∉ ps -> always (touches ps) p -> always mild p.
Proof. intros Hp Hg. apply always_mono. intros c c'. by apply touches_mild. Qed.

Lemma mild_stays {A} (m : M Connection A) c : (forall ps, stays ps m) -> mild c (snd (m c)).
Proof. intros Hm. by apply (touches_mild []); [not_in..|apply Hm]. Qed.

(** *** Critical sections *)

Lemma calm_step s s' : tunIdx s' = tunIdx s -> (forall id, is_live id s' = true -> is_live id s = true) ->
  (forall p g, tun_step (TSys s p g) (TSys s' p g)) -> calm s s'.
Proof. intros Hi Hl Hs. split; [done|done|]. intros p g. apply reach_one, Hs. Qed.

Lemma upd_tunnel_live {A} id (m : M (Tunnel Q) A) s : tunLive (snd (upd_tunnel id m s)) = tunLive s /\
  tunIdx (snd (upd_tunnel id m s)) = tunIdx s.
Proof. unfold upd_tunnel. destruct (tunnels s !! id) as [t|]; [|done]. by destruct (m t). Qed.

Lemma calm_upd {A} id (m : M (Tunnel Q) A) s : keeps_term m -> calm s (snd (upd_tunnel id m s)).
Proof.
  intros Hm. destruct (upd_tunnel_live id m s) as [El Ei]. apply calm_step; [done| |].
  - intros i. unfold is_live. by rewrite El.
  - intros p g. by eapply ts_use, surjective_pairing.
Qed.

Lemma calm_wait id s : calm s (snd (tun_wait id s)).
Proof. apply calm_step; [done|done|]. intros p g. by eapply ts_wait, surjective_pairing. Qed.

Lemma calm_unwait id s : calm s (snd (tun_unwait id s)).
Proof. apply calm_step; [done|done|]. intros p g. by eapply ts_unwait, surjective_pairing. Qed.

Lemma calm_sendInit id b s : calm s (snd (tun_sendInit id b s)).
Proof.
  apply calm_step; [by unfold tun_sendInit; case_decide..|]. intros p g. by eapply ts_handover, surjective_pairing.
Qed.

Lemma calm_lookup id n s : calm s (snd (tun_lookupResult id n s)).
Proof.
  unfold tun_lookupResult. rewrite bind_eq. cbn [gets]. destruct (is_live id s); [|done]. by apply calm_upd, keeps_initResult.
Qed.

Lemma calm_allow id n s : calm s (snd (tun_handleAllowance id n s)).
Proof.
  unfold tun_handleAllowance. rewrite bind_eq. cbn [gets]. destruct (is_live id s); [|done]. by apply calm_upd, keeps_allowance.
Qed.

Lemma calm_tunnelClose id r s : calm s (snd (tun_handleTunnelClose id r s)).
Proof.
  assert (tunIdx (snd (tun_handleTunnelClose id r s)) = tunIdx s /\
    forall i, is_live i (snd (tun_handleTunnelClose id r s)) = true -> is_live i s = true) as [Hi Hl].
  { unfold tun_handleTunnelClose. rewrite bind_eq. cbn [gets]. destruct (is_live id s); [|done].
    rewrite bind_eq. destruct (upd_tunnel_live id (tun_handleClose r) s) as [El Ei].
    destruct (upd_tunnel id (tun_handleClose r) s) as [[[]|?|?| |] s1]; simpl in El, Ei;
      (split; [done|]); intros i; try (cbn [snd]; unfold is_live; rewrite El; done).
    rewrite is_live_remove. intros [Hl _]%andb_true_iff. revert Hl. unfold is_live. by rewrite El. }
  apply calm_step; [done|done|]. intros p g. by eapply ts_close, surjective_pairing.
Qed.

Lemma close_each_live ids s : tunLive (snd (close_each ids s)) = tunLive s /\ tunIdx (snd (close_each ids s)) = tunIdx s.
Proof.
  revert s. induction ids as [|id ids IH]; intros s; [done|]. cbn [close_each]. rewrite bind_eq.
  destruct (upd_tunnel_live id (tun_handleClose (str "connection dropped")) s) as [El Ei].
  destruct (upd_tunnel id _ s) as [[[]|?|?| |] s1]; simpl in El, Ei; try done.
  destruct (IH s1) as [-> ->]. done.
Qed.

Lemma calm_closeAll s : calm s (snd (tun_closeAll s)).
Proof.
  assert (tunIdx (snd (tun_closeAll s)) = tunIdx s /\ forall i, is_live i (snd (tun_closeAll s)) = true -> is_live i s = true) as [Hi Hl].
  { unfold tun_closeAll. rewrite bind_eq. cbn [gets]. rewrite bind_eq.
    destruct (close_each_live (elements (default ∅ (tunLive s))) s) as [El Ei].
    destruct (close_each _ s) as [[[]|?|?| |] s1]; simpl in El, Ei; (split; [done|]); intros i; unfold is_live; simpl; rewrite ?El; done. }
  apply calm_step; [done|done|]. intros p g. by eapply ts_drop, surjective_pairing.
Qed.

Lemma mild_tuns {A} (m : M tuns A) : (forall s, calm s (snd (m s))) -> forall c, mild c (snd (on_tuns m c)).
Proof. intros Hm c. unfold on_tuns. rewrite lift_eq. split; [apply Hm|by intros id]. Qed.

(** *** Code on a tunnel *)

(** What leaves some aspect of the tunnel alone, one that allowances do not change. *)
Section blind.
Context {X : Type} (view : Tunnel Q -> X) (Hatoi : forall n b t, view (set_atoi n b t) = view t).

Definition unseen (x x' : tstate Q) : Prop := view (ts_tun x') = view (ts_tun x).
Definition blind {A} (m : M (tstate Q) A) : Prop := forall x, unseen x (snd (m x)).

#[export] Instance unseen_preorder : PreOrder unseen.
Proof. split; [by intros x|]. unfold unseen. intros x1 x2 x3. congruence. Qed.

Lemma blind_bind {A B} (m : M (tstate Q) A) (k : A -> M (tstate Q) B) : blind m -> (forall a, blind (k a)) -> blind (x ← m; k x).
Proof.
  intros Hm Hk x. rewrite bind_eq. specialize (Hm x). destruct (m x) as [[a|?|?| |] x']; try done.
  etrans; [exact Hm|apply Hk].
Qed.
Lemma blind_link {A} (m : M link A) : blind (on_link m).
Proof. intros x. unfold on_link. by destruct (m (ts_link x)). Qed.
Lemma blind_tun {A} (m : M (Tunnel Q) A) : (forall t, view (snd (m t)) = view t) -> blind (on_tun m).
Proof. intros Hm [t l g]. unfold on_tun, unseen. cbn [ts_tun]. specialize (Hm t). by destruct (m t). Qed.
Lemma blind_gets {A} (f : tstate Q -> A) : blind (gets f).
Proof. by intros x. Qed.
Lemma blind_fail {A} e : blind (fail (A := A) e).
Proof. by intros x. Qed.
Lemma blind_block {A} : blind (block (A := A)).
Proof. by intros x. Qed.
Lemma blind_term : blind (on_tun recv_tunTerm).
Proof. by apply blind_tun. Qed.
Lemma blind_atoi : blind (on_tun recv_atoiSign).
Proof. apply blind_tun. intros t. unfold recv_atoiSign. destruct (t_atoiSign t); [apply Hatoi|done]. Qed.
Lemma blind_drain n : blind (on_tun (drainAllowance n)).
Proof. apply blind_tun. intros t. unfold drainAllowance. destruct (n <=? t_atoiSpace t); apply Hatoi. Qed.

Lemma blind_atomic {A} (m : M (tstate Q) A) : blind m -> always unseen (atomic (W := wake) m).
Proof. done. Qed.
Lemma blind_select {A} (alt : wake -> M (tstate Q) A) : (forall w, blind (alt w)) -> always unseen (select alt).
Proof. intros Ha. apply always_select. intros w x. apply Ha. Qed.
End blind.

Create HintDb blind.
Hint Extern 1 (always _ (Ret _)) => exact I : blind.
Hint Extern 1 (always _ (crash _)) => exact I : blind.
Hint Extern 1 (always _ yield) => exact I : blind.
Hint Extern 1 (always _ (mret _)) => exact I : blind.
Hint Resolve blind_link blind_gets blind_fail blind_block blind_term blind_atoi blind_drain : blind.

Ltac blind :=
  repeat (intros; first
    [ apply always_bind | apply blind_atomic | apply blind_select | apply blind_bind | solve [eauto with blind]
    | match goal with |- context [match ?x with _ => _ end] => destruct x end ]).

(** *** Calls on a tunnel *)

Section calls.
Context {X : Type} (view : Tunnel Q -> X) (Hatoi : forall n b t, view (set_atoi n b t) = view t).

Lemma sendChunk_blind fuel chunk n d : always (unseen view) (sendChunk fuel chunk n d : prog (tstate Q) wake unit).
Proof. induction fuel as [|fuel IH]; cbn [sendChunk]; [done|]. unfold sendChunk_select. blind. Qed.

Hint Resolve sendChunk_blind : blind.

Lemma Send_blind turns m t : always (unseen view) (Send turns m t : prog (tstate Q) wake unit).
Proof.
  unfold Send. case_decide; [done|]. generalize (negb (t =? 0)). intros d. generalize (S (length (sbytes m))), 0.
  intros fuel. induction fuel as [|fuel IH]; intros pos; cbn [Send_loop]; [done|]. cbv zeta. blind.
Qed.

Lemma Close_blind : always (unseen view) (tun_Close : prog (tstate Q) wake (option error)).
Proof. unfold tun_Close. blind. Qed.
End calls.

(** A receiver changes the messages, but does not close the tunnel either. *)
Lemma fetch_blind : blind t_term fetchMessage.
Proof.
  intros x. unfold fetchMessage. destruct (queue_Empty _); [done|]. simpl. by destruct (queue_Pop _) as [[m q]|].
Qed.
Lemma itoa_blind : blind t_term (on_tun recv_itoaSign).
Proof. apply blind_tun. intros t. unfold recv_itoaSign. by destruct (t_itoaSign t). Qed.

Hint Resolve fetch_blind itoa_blind : blind.

Lemma Recv_blind t : always (unseen t_term) (Recv t : prog (tstate Q) wake slice).
Proof. unfold Recv, Recv_wait, Recv_select, crash. blind. Qed.

Lemma mild_tunnel {A} id (m : M (tstate Q) A) : blind t_term m -> forall c, mild c (snd (on_tunnel id m c)).
Proof.
  intros Hm c. unfold on_tunnel. destruct (tunnels (c_tuns c) !! id) as [t|] eqn:Et; [|done].
  pose proof (Hm (TS t (c_link c) [])) as E. unfold unseen in E. destruct (m _) as [o x]. simpl in E.
  split; [|by intros i]. apply calm_step; [done|done|]. intros p g.
  apply (ts_use _ (λ u, (Ok tt, if bool_decide (t_term u = t_term t) then ts_tun x else u)) _ _ id p g (Ok tt)).
  - intros u. simpl. case_bool_decide; congruence.
  - rewrite (upd_tunnel_eq _ _ _ t) by done. simpl. by rewrite bool_decide_eq_true_2.
Qed.

(** On the connection it leaves the table alone. *)
Lemma tunnel_call_mild {A} id (p : prog (tstate Q) wake A) : always (unseen t_term) p -> always mild (tunnel_call id p).
Proof.
  unfold tunnel_call. induction p as [o|C m k IH|k IH|C alt k IH]; simpl; [done| |done|].
  - intros [Hm Hk]. split; [by apply mild_tunnel|auto].
  - intros [Ha Hk]. split; [|auto]. intros w. destruct (tunnel_case w) as [w'|]; [|done]. apply mild_tunnel. intros x. apply Ha.
Qed.

(** *** The receiver *)

Lemma transfer_blind n d : blind t_term (handleTransfer n d).
Proof.
  assert (forall n, blind t_term (go_sendTunnelAllowance (Q := Q) n)) as Hgo by (by intros k x).
  assert (forall {A} (a : A), blind t_term (mret a)) as Hret by (by intros A a x).
  assert (forall {A} y, blind t_term (panic (A := A) y)) as Hpanic by (by intros A y x).
  unfold handleTransfer. blind; try (by apply blind_tun); auto.
Qed.

Lemma receive_mild p : always mild (receive p : code unit).
Proof.
  assert (forall i n, always mild (receive_result i n : code unit)) as Hres.
  { intros i n. unfold receive_result. apply always_bind; [apply always_atomic, mild_tuns, calm_lookup|intros b].
    apply always_select. intros _. apply mild_tuns. intros s. apply calm_sendInit. }
  destruct p; try (eapply within_mild; [| |apply receive_within]; not_in); cbn [receive]; try apply Hres; apply always_atomic.
  - apply mild_tuns. intros s. apply calm_allow.
  - intros c. cbn [deliver handleTunnelTransfer conn_handlers]. unfold conn_handleTunnelTransfer. rewrite bind_eq. cbn [gets].
    destruct (is_live _ _); [apply mild_tunnel, transfer_blind|done].
Qed.

Lemma go_down_mild err : always mild (go_down err : code unit).
Proof.
  unfold go_down. repeat (apply always_bind; [|intros _]); try done; try apply always_atomic.
  - intros c. unfold conn_closeTerm. by destruct (c_term c).
  - intros c. apply mild_stays. intros ps. apply stays_notifyDrop.
  - apply mild_tuns, calm_closeAll.
  - apply always_select. intros _ c. apply mild_stays. intros ps. apply stays_syncQuit.
Qed.

(** ** Goroutines *)

(** Makes no tunnel and hands none out. *)
Definition no_tunnel (o : outcome value) : Prop := match o with Ok (VTunnel _) => False | _ => True end.
Definition quiet (p : code value) : Prop := always mild p /\ ends no_tunnel p.

(** The goroutines that make tunnels. *)
Definition maker (o : origin) : bool :=
  match o with OApi (ATunnel _ _) | OGo (GoTunnelInit _ _) => true | _ => false end.

Lemma then_quiet {A} (p : code A) (f : A -> code value) : always mild p -> (forall a, quiet (f a)) -> quiet (x ← p; f x).
Proof.
  intros Hp Hf. split; [apply always_bind; [done|apply Hf]|]. apply ends_bind; [apply Hf|].
  intros [a|e|y| |] Ho; try done. by destruct (Ho a).
Qed.

Lemma ret_quiet o : no_tunnel o -> quiet (Ret o).
Proof. by split. Qed.

Lemma start_quiet o : maker o = false -> quiet (start o).
Proof.
  intros Hm. split.
  - destruct (decide (PTuns ∈ footprint o)) as [Hin|Hout].
    2: { eapply within_mild; [exact Hout| |apply footprint_ok]. destruct o as [[]|[]| | | |]; try done; not_in. }
    destruct o as [[]|[]| | | |]; try discriminate; try (exfalso; revert Hin; not_in); cbn [start run_api run_go].
    + apply always_bind; [by apply tunnel_call_mild, Send_blind|done].
    + apply always_bind; [apply tunnel_call_mild, Recv_blind|done].
    + apply always_bind; [by apply tunnel_call_mild, Close_blind|]. by intros [].
    + apply always_bind; [|done]. apply always_atomic, mild_tuns. intros s. apply calm_tunnelClose.
  - assert (forall A (p : code A) (f : A -> code value), (forall a, ends no_tunnel (f a)) -> ends no_tunnel (x ← p; f x)) as Hb.
    { intros A p f Hf. apply ends_bind; [done|]. intros [a|e|y| |] Ho; try done. by destruct (Ho a). }
    destruct o as [[]| | | | |]; try discriminate; cbn [start run_api]; apply Hb; try done. by intros [].
Qed.

(** *** Making a tunnel *)

Definition by_api (o : origin) : bool := match o with OApi _ => true | _ => false end.

(** The tunnel is taken out of the table; it is handed to the service. *)
Definition drops (id : Z) c c' : Prop := c_tuns c' = snd (tun_remove id (c_tuns c)) /\ same PGiven c c'.
Definition hands (id : Z) c c' : Prop :=
  c_tuns c' = c_tuns c /\ forall i, CallTunnel i ∈ c_calls c' <-> i = id \/ CallTunnel i ∈ c_calls c.

(** What settles the fate of a tunnel under construction, besides that [Tunnel]
    returns it. *)
Definition settles (api : bool) (id : Z) c c' : Prop := drops id c c' \/ (api = false /\ hands id c c').

(** Leaves the table alone and ends in one of these ways. *)
Definition mildly {A} (fin : outcome A -> Prop) (p : code A) : Prop := always mild p /\ ends fin p.

(** A goroutine that is constructing the tunnel [id]: it ends with [undecided] while
    the fate of the tunnel is not settled, and settles it at most once; after that
    it leaves the table alone and ends with [settled]. *)
Fixpoint pending (api : bool) (id : Z) {A} (undecided settled : outcome A -> Prop) (p : code A) : Prop :=
  match p with
  | Ret o => undecided o
  | Act m k =>
      (forall c, mild c (snd (m c)) /\ pending api id undecided settled (k (fst (m c)))) \/
      ((forall c, fst (m c) <> Block /\ settles api id c (snd (m c))) /\ forall o, mildly settled (k o))
  | Yield k => pending api id undecided settled k
  | Select alt k => (forall w c, mild c (snd (alt w c))) /\ forall o, pending api id undecided settled (k o)
  end.

Lemma mild_sock {A} (m : M link A) c : mild c (snd (on_sock m c)).
Proof. apply mild_stays. intros ps. apply stays_sock. Qed.

Lemma mildly_bind {A B} fin fin' (p : code A) (f : A -> code B) : mildly fin p ->
  (forall o, fin o -> mildly fin' (oseq f o)) -> mildly fin' (x ← p; f x).
Proof.
  change (x ← p; f x) with (pbind f p). intros [Hp He] Hf. unfold mildly.
  induction p as [o|C m k IH|k IH|C alt k IH]; simpl in *; [by apply Hf| |auto|].
  - destruct Hp as [Hm Hk]. split; [split; [done|]|]; intros o; by apply IH.
  - destruct Hp as [Hm Hk]. split; [split; [done|]|]; intros o; by apply IH.
Qed.

Lemma mildly_catch {A} fin (p : code A) : mildly (λ o, fin (caught o)) p -> mildly fin (catch p).
Proof.
  intros [Hp He]. split; [by apply always_catch|]. clear Hp.
  induction p as [o|C m k IH|k IH|C alt k IH]; simpl in *; auto.
Qed.

Lemma mildly_pending {A} api id (u v : outcome A -> Prop) (p : code A) : mildly u p -> pending api id u v p.
Proof.
  intros [Hp He]. induction p as [o|C m k IH|k IH|C alt k IH]; simpl in *; [done| |auto|].
  - left. destruct Hp; auto.
  - destruct Hp; auto.
Qed.

Lemma pending_go {A} api id (u v : outcome A -> Prop) (p : code A) : pending api id u v p -> pending api id u v (yield;; p).
Proof. done. Qed.

Lemma pending_bind {A B} api id (u v : outcome A -> Prop) (u' v' : outcome B -> Prop) (p : code A) (f : A -> code B) :
  pending api id u v p -> (forall o, u o -> pending api id u' v' (oseq f o)) ->
  (forall o, v o -> mildly v' (oseq f o)) -> pending api id u' v' (x ← p; f x).
Proof.
  change (x ← p; f x) with (pbind f p). intros Hp Hu Hv.
  induction p as [o|C m k IH|k IH|C alt k IH]; simpl in *; [by apply Hu| |auto|destruct Hp; auto].
  destruct Hp as [Hm|[Hm Hk]]; [left; intros c; destruct (Hm c); auto|right]. split; [done|]. intros o. exact (mildly_bind _ _ _ f (Hk o) Hv).
Qed.

Lemma pending_catch {A} api id (u v : outcome (error + A) -> Prop) (p : code A) :
  pending api id (λ o, u (caught o)) (λ o, v (caught o)) p -> pending api id u v (catch p).
Proof.
  intros Hp. induction p as [o|C m k IH|k IH|C alt k IH]; simpl in *; [done| |auto|destruct Hp; auto].
  destruct Hp as [Hm|[Hm Hk]]; [left; intros c; destruct (Hm c); auto|right]. split; [done|]. intros o. exact (mildly_catch _ _ (Hk o)).
Qed.

Lemma ends_all {A} (fin : outcome A -> Prop) (p : code A) : (forall o, fin o) -> ends fin p.
Proof. intros Hf. induction p; simpl; auto. Qed.

Definition broken {A} (o : outcome A) : Prop := match o with Ok _ | Err _ => False | _ => True end.

Lemma remove_drops api id c : fst (on_tuns (tun_remove id) c) <> Block /\ settles api id c (snd (on_tuns (tun_remove id) c)).
Proof. unfold on_tuns. rewrite lift_eq. split; [done|left]. by split. Qed.

(** The construction of a tunnel that is in the table: it is the tunnel, or an error
    after the tunnel has been taken out again. *)
Definition is_tunnel (id : Z) (o : outcome Z) : Prop := o = Ok id \/ broken o.
Definition unfailing {A} (o : outcome A) : Prop := match o with Err _ => False | _ => True end.
Definition is_error {A} (o : outcome A) : Prop := match o with Ok _ => False | _ => True end.

Lemma construct api id (u v : outcome Z -> Prop) (p : code unit) : always mild p ->
  (forall o, is_tunnel id o -> u o) -> (forall o, is_error o -> v o) ->
  pending api id u v
    (r ← catch p;
     match r with
     | inr _ => mret id
     | inl err => yield;; atomic (on_tuns (tun_remove id));; raise err
     end).
Proof.
  intros Hp Hu Hv. eapply (pending_bind _ _ unfailing (λ _, False)); [|intros [[e|[]]|e|y| |] Ho; try done; simpl|done].
  - apply pending_catch, mildly_pending. split; [done|]. apply ends_all. by intros [].
  - right. split; [intros c; apply remove_drops|]. intros o. split; [by destruct o|destruct o; by apply Hv].
  - apply Hu. by left.
  - apply Hu. by right.
  - apply Hu. by right.
  - apply Hu. by right.
Qed.

Lemma mild_select id : always mild (initTunnel_select id : code unit).
Proof.
  unfold initTunnel_select, initTunnel_wait, initTunnel_ready. apply always_bind; [apply always_atomic, mild_tuns, calm_wait|intros _].
  apply always_bind; [|intros []; [|done]].
  - apply always_select. intros [] c; try done.
    + unfold recv_term. rewrite !bind_eq. cbn [gets]. destruct (tunInit _ !! _); [done|].
      rewrite bind_eq. destruct (c_term c); [|done]. rewrite bind_eq.
      pose proof (mild_tuns (tun_unwait id) (calm_unwait id) c) as Hm. by destruct (on_tuns _ c) as [[] c'].
    + rewrite bind_eq. cbn [gets]. by destruct (tunInit _ !! _).
  - apply always_bind; [done|intros _]. apply always_atomic. intros c. apply mild_sock.
Qed.

(** How the program of a goroutine that makes a tunnel ends before the tunnel's fate
    is settled: [Tunnel] returns it, and this settles it. *)
Definition at_last (api : bool) (id : Z) (r : outcome value) : Prop := (api = true /\ r = Ok (VTunnel id)) \/ broken r.
Definition making (o : origin) (id : Z) : code value -> Prop := pending (by_api o) id (at_last (by_api o) id) no_tunnel.

Lemma Tunnel_makes cluster t id : pending true id (at_last true id) no_tunnel
  (tun ← (yield;;
          r ← catch (atomic (on_sock (sendTunnelInit id cluster t));; yield;; initTunnel_select id);
          match r with
          | inr _ => mret id
          | inl err => yield;; atomic (on_tuns (tun_remove id));; raise err
          end);
   mret (VTunnel tun) : code value).
Proof.
  eapply (pending_bind _ _ (is_tunnel id) is_error).
  - apply pending_go, construct; [|done|done]. apply always_bind; [apply always_atomic; intros c; apply mild_sock|intros _].
    apply always_bind; [done|intros _; apply mild_select].
  - intros o [->|Hb]; [simpl; left; by split|]. destruct o; try done; by right.
  - intros [] Hb; by split.
Qed.

Lemma accept_makes initId id n : pending false id (at_last false id) no_tunnel
  ((r ← catch (yield;; atomic (on_tuns (upd_tunnel id (modify (set_chunkLimit n))));; yield;;
      (r ← catch (atomic (on_sock (sendTunnelConfirm initId id));;
                  yield;;
                  atomic (on_sock (sendTunnelAllowance id defaultTunnelBuffer)));
       match r with
       | inr _ => mret id
       | inl err => yield;; atomic (on_tuns (tun_remove id));; raise err
       end));
    match r with
    | inr tun =>
        yield;;
        h ← atomic (gets c_handler);
        match h with
        | Some _ => atomic (modify (add_call (CallTunnel tun)))
        | None => crash nil_deref
        end
    | inl _ => mret tt
    end);; mret VUnit : code value).
Proof.
  eapply (pending_bind _ _ broken (λ _, True)); [|intros [] Ho; try done; by right|by intros []; split].
  eapply (pending_bind _ _ (λ o, o = Ok (inr id) \/ broken o) (λ o, forall i, o <> Ok (inr i))).
  - apply pending_catch, pending_go. eapply (pending_bind _ _ (λ o, broken o \/ o = Ok tt) (λ _, False)); [| |done].
    + left. intros c. split; [apply mild_tuns; intros s; by apply calm_upd|]. unfold on_tuns. rewrite lift_eq. unfold upd_tunnel.
      destruct (tunnels (c_tuns c) !! id); simpl; [by right|by left].
    + assert (always mild (atomic (on_sock (sendTunnelConfirm initId id));; yield;;
        atomic (on_sock (sendTunnelAllowance id defaultTunnelBuffer)) : code unit)) as Hm.
      { apply always_bind; [apply always_atomic; intros c; apply mild_sock|intros _].
        apply always_bind; [done|intros _]. apply always_atomic. intros c. apply mild_sock. }
      intros o [Ho| ->].
      * destruct o; try done; by right.
      * apply pending_go, construct; [exact Hm| |].
        -- intros o [->|Ho]; [by left|right]. by destruct o.
        -- intros [] Ho i; try done.
  - intros o [->|Ho]; [|destruct o; try done; by right].
    simpl. left. intros c. split; [done|]. destruct (c_handler c); simpl; [|done].
    right. split; [|by intros []]. intros d. split; [done|right]. split; [done|]. split; [done|].
    intros i. simpl. rewrite elem_of_app, list_elem_of_singleton. split; [intros [?|[=]]|intros [->|?]]; auto.
  - intros [[]| | | |] Ho; try (by destruct (Ho _ eq_refl)); by repeat split.
Qed.


Lemma newTunnel_cases c :
  (exists id s', newTunnel (c_tuns c) = (Ok id, s') /\ on_tuns newTunnel c = (Ok id, set_tuns s' c)) \/
  on_tuns newTunnel c = (Err ErrClosed, c).
Proof.
  unfold on_tuns. rewrite lift_eq. unfold newTunnel. destruct (tunLive (c_tuns c)); [left; eauto|right]. by destruct c.
Qed.

(** A goroutine that makes a tunnel begins with putting it into the table, unless it
    refuses or cannot. *)
Lemma making_starts o c p' c' : maker o = true -> run_on (start o) c = (p', c') ->
  (c' = c /\ quiet p') \/
  exists id s', newTunnel (c_tuns c) = (Ok id, s') /\ c' = set_tuns s' c /\ making o id p' /\ forall r, p' <> Ret r.
Proof.
  intros Hm Hr. destruct o as [[]|[]| | | |]; try discriminate; cbn [start run_api run_go] in Hr.
  - unfold conn_Tunnel, initTunnel in Hr.
    repeat (case_decide || case_test); try (left; by injection Hr as <- <-).
    cbv [run_on mbind prog_bind pbind atomic] in Hr.
    destruct (newTunnel_cases c) as [(i & s' & En & E)|E]; rewrite E in Hr; [right|left; by injection Hr as <- <-].
    exists i, s'. injection Hr as <- <-. split_and!; [done..|exact (Tunnel_makes cluster (timeout_ms timeout) i)|by intros r].
  - unfold go_handleTunnelInit, acceptTunnel in Hr. cbv [run_on mbind prog_bind pbind atomic catch] in Hr.
    destruct (newTunnel_cases c) as [(i & s' & En & E)|E]; rewrite E in Hr; [right|left; by injection Hr as <- <-].
    exists i, s'. injection Hr as <- <-. split_and!; [done..|exact (accept_makes id i chunkLimit)|by intros r].
Qed.

(** A step of it. *)
Definition advances (api : bool) (id : Z) {A} (u v : outcome A -> Prop) c (q : code A * Connection) : Prop :=
  (mild c (snd q) /\ pending api id u v (fst q)) \/
  exists c1 c2, mild c c1 /\ settles api id c1 c2 /\ mild c2 (snd q) /\ mildly v (fst q).

Lemma advances_after {A} api id (u v : outcome A -> Prop) c c1 q : mild c c1 -> advances api id u v c1 q -> advances api id u v c q.
Proof.
  intros Hm [[Hm1 Hp]|(c2 & c3 & Hm1 & ?)]; [left; split; [by etrans|done]|right]. exists c2, c3. split; [by etrans|done].
Qed.

Lemma mildly_run {A} (v : outcome A -> Prop) p c : mildly v p -> mild c (snd (run_on p c)) /\ mildly v (fst (run_on p c)).
Proof.
  intros [Hp He]. destruct (always_run_on mild p c Hp). split; [done|]. split; [done|]. by apply ends_run_on.
Qed.

Lemma mildly_resume {A} (v : outcome A -> Prop) p c p' c' : mildly v p -> resume p c (p', c') -> mild c c' /\ mildly v p'.
Proof.
  intros [Hp He] Hr. destruct (always_resume mild _ _ _ _ Hp Hr). split; [done|]. split; [done|]. by eapply ends_resume.
Qed.

Lemma pending_run {A} api id (u v : outcome A -> Prop) p c : pending api id u v p -> advances api id u v c (run_on p c).
Proof.
  revert c. induction p as [o|C m k IH|k IH|C alt k IH]; intros c Hp; try (by left). simpl.
  destruct Hp as [Hm|[Hm Hk]].
  - destruct (Hm c) as [Hmc Hk]. pose proof (IH (fst (m c)) (snd (m c)) Hk) as Hi. destruct (m c) as [o c1]. simpl in *.
    destruct o; try (by eapply advances_after). by left; split; [|left].
  - destruct (Hm c) as [Hb Hs]. destruct (mildly_run _ _ (snd (m c)) (Hk (fst (m c)))) as [Hr Hv].
    right. exists c, (snd (m c)). destruct (m c) as [o c1]. simpl in *. by destruct o.
Qed.

Lemma pending_resume {A} api id (u v : outcome A -> Prop) p c p' c' : pending api id u v p -> resume p c (p', c') ->
  advances api id u v c (p', c').
Proof.
  intros Hp Hr. destruct p as [o|C m k|k|C alt k]; try done; simpl in Hr.
  - rewrite Hr. by apply pending_run.
  - destruct Hr as (w & _ & ->). destruct Hp as [Hm Hk]. eapply advances_after; [apply (Hm w)|]. by apply pending_run.
Qed.

(** ** Where a goroutine is *)

Inductive tunpc := TunStart | TunPend (id : Z) | TunGiven (id : Z) | TunOver.

(** The tunnel it constructs, and the tunnel it has constructed and handed out; both. *)
Definition pend_id (pc : tunpc) : option Z := match pc with TunPend id => Some id | _ => None end.
Definition given_id (pc : tunpc) : option Z := match pc with TunGiven id => Some id | _ => None end.
Definition own_id (pc : tunpc) : option Z := match pc with TunPend id | TunGiven id => Some id | _ => None end.

Inductive tunnel_at (o : origin) : code value -> tunpc -> Prop :=
| ta_start : maker o = true -> tunnel_at o (Yield (start o)) TunStart
| ta_pend id p : maker o = true -> making o id p -> p <> Ret (Ok (VTunnel id)) -> tunnel_at o p (TunPend id)
| ta_returned id : maker o = true -> by_api o = true -> tunnel_at o (Ret (Ok (VTunnel id))) (TunGiven id)
| ta_handed id p : by_api o = false -> quiet p -> tunnel_at o p (TunGiven id)
| ta_over p : quiet p -> tunnel_at o p TunOver.

(** What a goroutine does to the table, as its place changes. *)
Inductive effect (api : bool) : tunpc -> tunpc -> Connection -> Connection -> Prop :=
| ef_mild pc c c' : mild c c' -> effect api pc pc c c'
| ef_none c : effect api TunStart TunOver c c
| ef_new id s' c : newTunnel (c_tuns c) = (Ok id, s') -> effect api TunStart (TunPend id) c (set_tuns s' c)
| ef_drop id c c' : drops id c c' -> effect api (TunPend id) TunOver c c'
| ef_hand id c c' : api = false -> hands id c c' -> effect api (TunPend id) (TunGiven id) c c'
| ef_return id c : api = true -> effect api (TunPend id) (TunGiven id) c c.

(** A step of a goroutine is a few of these. *)
Lemma tunnel_act o p c p' c' pc : tunnel_at o p pc -> resume p c (p', c') ->
  exists pc' c1 c2, tunnel_at o p' pc' /\ mild c c1 /\ effect (by_api o) pc pc' c1 c2 /\ mild c2 c'.
Proof.
  intros Hat Hr. destruct Hat as [Hm|id p Hm Hp Hn|id Hm Ha|id p Ha Hq|p Hq].
  - destruct (making_starts o c p' c' Hm (eq_sym Hr)) as [[-> Hq]|(id & s' & En & -> & Hp & Hn)].
    + exists TunOver, c, c. split_and!; [by constructor|done|constructor|done].
    + exists (TunPend id), c, (set_tuns s' c). split_and!; [by constructor|done|by constructor|done].
  - destruct (pending_resume _ _ _ _ _ _ _ _ Hp Hr) as [[Hc Hp']|(c1 & c2 & Hc1 & Hs & Hc2 & Hq)]; simpl in *.
    + assert ((p' = Ret (Ok (VTunnel id)) /\ by_api o = true) \/ p' <> Ret (Ok (VTunnel id))) as [[-> Ha]|Hn'].
      { destruct p' as [[[]| | | |]| | |]; try (by right). destruct Hp' as [[Ha [= ->]]|[]]. by left. }
      * exists (TunGiven id), c', c'. split_and!; [by constructor|done|by constructor|done].
      * exists (TunPend id), c', c'. split_and!; [by constructor|done|by constructor|done].
    + destruct Hs as [Hd|[Ha Hh]].
      * exists TunOver, c1, c2. split_and!; [by constructor|done|by constructor|done].
      * exists (TunGiven id), c1, c2. split_and!; [by constructor|done|by constructor|done].
  - done.
  - destruct (mildly_resume _ _ _ _ _ Hq Hr) as [Hc Hq']. exists (TunGiven id), c', c'.
    split_and!; [by constructor|done|by constructor|done].
  - destruct (mildly_resume _ _ _ _ _ Hq Hr) as [Hc Hq']. exists TunOver, c', c'.
    split_and!; [by constructor|done|by constructor|done].
Qed.
End making.
