(* ===== verification/Steady.v ===== *)
(** * What leaves an aspect of the tunnel table alone

    A part of the tunnel table that does not depend on which tunnels are live, and
    of the tunnels only on the messages that have arrived on them: nearly everything
    on a connection leaves it as it is. Listening.v and Receiving.v look at two such
    parts, the hand-over of construction results and the messages themselves. *)

From Stdlib Require Import ZArith Lia Strings.Byte Strings.String.
From stdpp Require Import base gmap strings list relations.
From S2P Require Import Prelude Threads Bufio Wire Packets Receiver Tunnel Limits Quota.
From S2P Require Import Topic Requests Tunnels Connection Events Service Safety System Footprint Making.

Open Scope Z_scope.

Section steady.
Context `{GoRuntime} {Q : Type} `{Queue slice Q} {P : Type -> Type} `{ThreadPool P} {TH : Type}.
Local Abbreviation Connection := (Connection Q P TH).
Local Abbreviation code := (prog Connection cwake).
Local Abbreviation origin := (origin (TH := TH)).
Implicit Types (c : Connection) (s : tuns (Q := Q)) (t : Tunnel Q).

(** ** Calls and goroutines by their origin *)

(** The calls of [Tunnel], and those of [Recv]. *)
Definition opener (o : origin) : bool := match o with OApi (ATunnel _ _) => true | _ => false end.
Definition recv_of (o : origin) : option Z := match o with OApi (ARecv id _) => Some id | _ => None end.

(** The tunnel whose construction a packet ends; packets with data. *)
Definition result_of (p : InPacket) : option Z :=
  match p with ITunTimeout id | ITunResult id _ => Some id | _ => None end.
Definition is_transfer (p : InPacket) : bool := match p with ITunTransfer _ _ _ => true | _ => false end.

(** What is left of a call of [Tunnel] once the tunnel [id] has been made: [p], and the
    clean-up when that fails. *)
Definition conclude (id : Z) (p : code unit) : code value :=
  tun ← (r ← catch p;
         match r with
         | inr _ => mret id
         | inl err => yield;; atomic (on_tuns (tun_remove id));; raise err
         end);
  mret (VTunnel tun).

(** The messages that have arrived on a tunnel, and the signal. *)
Definition inbox t : Q * bool := (t_itoaBuf t, t_itoaSign t).

(** ** The table *)

Section aspect.
Context {X : Type} (look : tuns (Q := Q) -> X).

Definition unmoved s s' : Prop := look s' = look s.
Definition steady c c' : Prop := unmoved (c_tuns c) (c_tuns c').

#[export] Instance unmoved_preorder : PreOrder unmoved.
Proof. split; [by intros s|]. unfold unmoved. intros s1 s2 s3. congruence. Qed.
#[export] Instance steady_preorder : PreOrder steady.
Proof. split; [by intros c|]. unfold steady. intros c1 c2 c3 H12 H23. by etrans. Qed.

Lemma steady_same c c' : c_tuns c' = c_tuns c -> steady c c'.
Proof. intros E. unfold steady. by rewrite E. Qed.

Lemma steady_tuns {A} (m : M tuns A) : (forall s, unmoved s (snd (m s))) -> forall c, steady c (snd (on_tuns m c)).
Proof. intros Hm c. unfold on_tuns. rewrite lift_eq. apply Hm. Qed.

Lemma touches_steady ps c c' : PTuns ∉ ps -> touches ps c c' -> steady c c'.
Proof. intros Hp Ht. apply steady_same. exact (touches_same _ _ _ _ Ht Hp). Qed.

Lemma within_steady ps {A} (p : code A) : PTuns ∉ ps -> always (touches ps) p -> always steady p.
Proof. intros Hp. apply always_mono. intros c c'. by apply touches_steady. Qed.

Lemma steady_stays {A} (m : M Connection A) c : (forall ps, stays ps m) -> steady c (snd (m c)).
Proof. intros Hm. apply (touches_steady []); [not_in|apply Hm]. Qed.

Lemma steady_sock {A} (m : M link A) c : steady c (snd (on_sock m c)).
Proof. apply steady_stays. intros ps. apply stays_sock. Qed.

(** What the aspect does not depend on. *)
Context (Hlive : forall s l, look (Tuns (tunIdx s) l (tunnels s) (tunWait s) (tunInit s)) = look s)
  (Hput : forall id t t' s, tunnels s !! id = Some t -> inbox t' = inbox t -> look (put_tunnel id t' s) = look s).

Lemma unmoved_remove id s : unmoved s (snd (tun_remove id s)).
Proof. apply Hlive. Qed.

Lemma unmoved_upd {A} id (m : M (Tunnel Q) A) s : (forall t, inbox (snd (m t)) = inbox t) -> unmoved s (snd (upd_tunnel id m s)).
Proof.
  intros Hm. destruct (tunnels s !! id) as [t|] eqn:Et; [|unfold upd_tunnel; by rewrite Et].
  rewrite (upd_tunnel_eq _ _ _ t Et). by apply (Hput id t).
Qed.

Lemma inbox_init n t : inbox (snd (handleInitResult n t)) = inbox t.
Proof. unfold handleInitResult. simpl. by destruct (0 <? n). Qed.

Lemma unmoved_lookup id n s : unmoved s (snd (tun_lookupResult id n s)).
Proof.
  unfold tun_lookupResult. rewrite bind_eq. cbn [gets]. destruct (is_live id s); [|done]. by apply unmoved_upd, inbox_init.
Qed.

Lemma unmoved_allow id n s : unmoved s (snd (tun_handleAllowance id n s)).
Proof. unfold tun_handleAllowance. rewrite bind_eq. cbn [gets]. destruct (is_live id s); [by apply unmoved_upd|done]. Qed.

Lemma unmoved_tunnelClose id r s : unmoved s (snd (tun_handleTunnelClose id r s)).
Proof.
  unfold tun_handleTunnelClose. rewrite bind_eq. cbn [gets]. destruct (is_live id s); [|done]. rewrite bind_eq.
  pose proof (unmoved_upd id (tun_handleClose r) s ltac:(done)) as Hu. destruct (upd_tunnel id _ s) as [[[]| | | |] s1]; try done.
  etrans; [exact Hu|apply unmoved_remove].
Qed.

Lemma unmoved_closeAll s : unmoved s (snd (tun_closeAll s)).
Proof.
  assert (forall ids s, unmoved s (snd (close_each ids s))) as Heach.
  { intros ids. induction ids as [|id ids IH]; intros s1; [done|]. cbn [close_each]. rewrite bind_eq.
    pose proof (unmoved_upd id (tun_handleClose (str "connection dropped")) s1 ltac:(done)) as Hu.
    destruct (upd_tunnel id _ s1) as [[[]| | | |] s2]; try done. etrans; [exact Hu|apply IH]. }
  unfold tun_closeAll. rewrite bind_eq. cbn [gets]. rewrite bind_eq.
  specialize (Heach (elements (default ∅ (tunLive s))) s). destruct (close_each _ s) as [[[]| | | |] s1]; try done.
  etrans; [exact Heach|apply Hlive].
Qed.

(** Code on a tunnel that does not look at its messages. *)
Lemma steady_tunnel {A} id (m : M (tstate Q) A) : blind inbox m -> forall c, steady c (snd (on_tunnel id m c)).
Proof.
  intros Hm c. unfold on_tunnel. destruct (tunnels (c_tuns c) !! id) as [t|] eqn:Et; [|done].
  pose proof (Hm (TS t (c_link c) [])) as E. destruct (m _) as [o x]. by apply (Hput id t).
Qed.

Lemma tunnel_call_steady {A} id (p : prog (tstate Q) wake A) : always (unseen inbox) p -> always steady (tunnel_call id p).
Proof.
  unfold tunnel_call. induction p as [o|C m k IH|k IH|C alt k IH]; simpl; [done| |done|].
  - intros [Hm Hk]. split; [by apply steady_tunnel|auto].
  - intros [Ha Hk]. split; [|auto]. intros w. destruct (tunnel_case w) as [w'|]; [|done]. apply steady_tunnel. intros x. apply Ha.
Qed.

(** ** Goroutines *)

Lemma start_steady o : maker o = false -> recv_of o = None -> always steady (start o).
Proof.
  intros Hm Hr. destruct (decide (PTuns ∈ footprint o)) as [Hin|Hout]; [|eapply within_steady; [exact Hout|apply footprint_ok]].
  destruct o as [[]|[]| | | |]; try discriminate; try (exfalso; revert Hin; not_in); cbn [start run_api run_go].
  - apply always_bind; [by apply tunnel_call_steady, Send_blind|done].
  - apply always_bind; [by apply tunnel_call_steady, Close_blind|]. by intros [].
  - apply always_bind; [|done]. apply always_atomic, steady_tuns. intros s. apply unmoved_tunnelClose.
Qed.

Lemma remove_steady {A} id (o : outcome A) : always steady (yield;; atomic (on_tuns (tun_remove id));; Ret o : code A).
Proof. split; [|by intros []]. apply steady_tuns. intros s. apply unmoved_remove. Qed.

Lemma conclude_steady id p : always steady p -> always steady (conclude id p).
Proof.
  intros Hp. apply always_bind; [|done].
  apply always_bind; [by apply always_catch|]. intros [e|_]; [apply (remove_steady id (Err e))|done].
Qed.

(** An inbound tunnel, when it is in the table. *)
Definition accepting (i id n : Z) : code Z :=
  yield;; atomic (on_tuns (upd_tunnel id (modify (set_chunkLimit n))));; yield;;
  r ← catch (atomic (on_sock (sendTunnelConfirm i id));; yield;; atomic (on_sock (sendTunnelAllowance id defaultTunnelBuffer)));
  match r with inr _ => mret id | inl err => yield;; atomic (on_tuns (tun_remove id));; raise err end.

Definition serving (p : code Z) : code value :=
  (r ← catch p;
   match r with
   | inr tun =>
       yield;;
       h ← atomic (gets c_handler);
       match h with
       | Some _ => atomic (modify (add_call (CallTunnel tun)))
       | None => crash nil_deref
       end
   | inl _ => mret tt
   end);; mret VUnit.

Lemma accept_serving i n : start (OGo (GoTunnelInit i n)) = serving (id ← atomic (on_tuns newTunnel); accepting i id n).
Proof. reflexivity. Qed.

Lemma accepting_steady i id n : always steady (accepting i id n).
Proof.
  apply always_bind; [done|intros _]. apply always_bind; [apply always_atomic, steady_tuns; intros s; by apply unmoved_upd|intros _].
  apply always_bind; [done|intros _]. apply always_bind; [|intros [e|_]; [apply (remove_steady id (Err e))|done]].
  apply always_catch, always_bind; [apply always_atomic; intros c; apply steady_sock|intros _].
  apply always_bind; [done|intros _]. apply always_atomic. intros c. apply steady_sock.
Qed.

Lemma serving_steady p : always steady p -> always steady (serving p).
Proof.
  intros Hp. apply always_bind; [|done]. apply always_bind; [by apply always_catch|]. intros [e|tun]; [done|].
  apply always_bind; [done|intros _]. apply always_bind; [done|]. by intros [].
Qed.

(** ** The receiver *)

Lemma receive_steady p : result_of p = None -> is_transfer p = false -> always steady (receive p : code unit).
Proof.
  intros Hp Ht. destruct p; try discriminate; try (eapply within_steady; [|apply receive_within]; not_in); cbn [receive].
  apply always_atomic, steady_tuns. intros s. apply unmoved_allow.
Qed.

Lemma go_down_steady err : always steady (go_down err : code unit).
Proof.
  unfold go_down. repeat (apply always_bind; [|intros _]); try done; try apply always_atomic.
  - intros c. unfold conn_closeTerm. by destruct (c_term c).
  - intros c. apply steady_stays. intros ps. apply stays_notifyDrop.
  - apply steady_tuns. intros s. apply unmoved_closeAll.
  - apply always_select. intros _ c. apply steady_stays. intros ps. apply stays_syncQuit.
Qed.
End aspect.
End steady.
