(* ===== verification/Tunnelled.v ===== *)
(** * The tunnels of a connection in use

    The table of Tunnels.v in the system of System.v: a tunnel the application has
    been given is in the table or closed, no two calls are given the same one, and
    nothing stays in the table that neither belongs to somebody nor is still being
    made. *)

From Stdlib Require Import ZArith Lia Strings.Byte Strings.String.
From stdpp Require Import base gmap strings list relations.
From S2P Require Import Prelude Threads Bufio Wire Packets Receiver Tunnel Limits Quota.
From S2P Require Import Topic Requests Tunnels Connection Events Service Safety System Footprint Making.

Open Scope Z_scope.

Section tunnelled.
Context `{GoRuntime} {Q : Type} `{Queue slice Q} {P : Type -> Type} `{ThreadPool P} {TH : Type}.
Local Abbreviation Connection := (Connection Q P TH).
Local Abbreviation code := (prog Connection cwake).
Local Abbreviation origin := (origin (TH := TH)).
Local Abbreviation sys := (sys (Q := Q) (P := P) (TH := TH)).
Implicit Types (c : Connection) (s : tuns (Q := Q)).

(** ** The table and the goroutines *)

(** Some goroutine, and some other than the one at [i], is at such a place. *)
Definition somewhere (pcs : list tunpc) (R : nat -> tunpc -> Prop) : Prop := exists j pc, pcs !! j = Some pc /\ R j pc.
Definition elsewhere (i : nat) (pcs : list tunpc) (R : nat -> tunpc -> Prop) : Prop :=
  exists j pc, j <> i /\ pcs !! j = Some pc /\ R j pc.

Lemma somewhere_at pcs i a R : pcs !! i = Some a -> somewhere pcs R <-> R i a \/ elsewhere i pcs R.
Proof.
  intros Hi. split.
  - intros (j & pc & Hj & HR). destruct (decide (j = i)) as [->|Hn]; [left; congruence|right; by exists j, pc].
  - intros [HR|(j & pc & _ & Hj & HR)]; eexists _, _; eauto.
Qed.

Lemma somewhere_insert pcs i a b R : pcs !! i = Some a -> somewhere (<[i := b]> pcs) R <-> R i b \/ elsewhere i pcs R.
Proof.
  intros Hi. assert (<[i := b]> pcs !! i = Some b) as Hb by (apply list_lookup_insert_eq; by eapply lookup_lt_Some).
  rewrite (somewhere_at _ i b R Hb). apply or_iff_compat_l. unfold elsewhere.
  split; intros (j & pc & Hn & Hj & HR); exists j, pc; (split; [done|]); [rewrite list_lookup_insert_ne in Hj by done|rewrite list_lookup_insert_ne by done]; done.
Qed.

(** A goroutine that has begun, and so has made a tunnel if it makes one at all. *)
Definition begun (pc : tunpc) : bool := match pc with TunStart => false | _ => true end.

(** The table as a state of Tunnels.v: under construction are the tunnels of the
    goroutines that construct one, given are those of the goroutines that have
    handed theirs out; each is that of one goroutine, and there is no other in the
    table. [apis] are the goroutines that are calls. *)
Record ledger c (apis : list bool) (pcs : list tunpc) (pend given : gset Z) : Prop := {
  le_run : reach tun_step (TSys tuns_init ∅ ∅) (TSys (c_tuns c) pend given);
  le_pend : forall id, id ∈ pend <-> somewhere pcs (λ _ pc, pend_id pc = Some id);
  le_given : forall id, id ∈ given <-> somewhere pcs (λ _ pc, given_id pc = Some id);
  le_calls : forall id, CallTunnel id ∈ c_calls c <-> somewhere pcs (λ j pc, apis !! j = Some false /\ given_id pc = Some id);
  le_ids : forall i j a b id, pcs !! i = Some a -> pcs !! j = Some b -> own_id a = Some id -> own_id b = Some id -> i = j;
  le_live : forall id, is_live id (c_tuns c) = true -> id ∈ pend ∪ given;
  le_idx : tunIdx (c_tuns c) <= countb begun pcs
}.

Lemma ledger_ok c apis pcs pend given : ledger c apis pcs pend given -> tuns_ok (TSys (c_tuns c) pend given).
Proof. intros Hl. exact (reach_invariant _ tuns_ok _ _ tuns_ok_init tuns_ok_step (le_run _ _ _ _ _ Hl)). Qed.

Lemma ledger_mild c c' apis pcs pend given : mild c c' -> ledger c apis pcs pend given -> ledger c' apis pcs pend given.
Proof.
  intros [[Ei Hl Hr] Hg] []. split; try done.
  - by eapply reach_trans.
  - intros id. by rewrite (Hg id).
  - auto.
  - by rewrite Ei.
Qed.

Lemma own_of_pend pc id : pend_id pc = Some id -> own_id pc = Some id.
Proof. by destruct pc. Qed.
Lemma own_of_given pc id : given_id pc = Some id -> own_id pc = Some id.
Proof. by destruct pc. Qed.

Lemma owned_or_free c apis pcs pend given j x id : ledger c apis pcs pend given ->
  pcs !! j = Some x -> own_id x = Some id -> id ∈ pend \/ id ∈ given.
Proof.
  intros Hl Hj Hx. destruct x as [|i|i|]; try done; [left; apply (le_pend _ _ _ _ _ Hl)|right; apply (le_given _ _ _ _ _ Hl)];
    by eexists _, _.
Qed.

(** One goroutine moves on: its entries change in each column, nobody else's do. *)
Lemma ledger_move c c' apis api pcs i pc pc' pend given pend' given' :
  ledger c apis pcs pend given -> pcs !! i = Some pc -> apis !! i = Some api ->
  reach tun_step (TSys (c_tuns c) pend given) (TSys (c_tuns c') pend' given') ->
  (forall id, id ∈ pend' <-> pend_id pc' = Some id \/ (id ∈ pend /\ pend_id pc <> Some id)) ->
  (forall id, id ∈ given' <-> given_id pc' = Some id \/ (id ∈ given /\ given_id pc <> Some id)) ->
  (forall id, CallTunnel id ∈ c_calls c' <-> (api = false /\ given_id pc' = Some id) \/ (CallTunnel id ∈ c_calls c /\ given_id pc <> Some id)) ->
  (forall id, own_id pc' = Some id -> own_id pc = Some id \/ ((id ∉ pend) /\ (id ∉ given))) ->
  (forall id, is_live id (c_tuns c') = true -> id ∈ pend' ∪ given') ->
  tunIdx (c_tuns c') + Z.b2z (begun pc) <= tunIdx (c_tuns c) + Z.b2z (begun pc') ->
  ledger c' apis (<[i := pc']> pcs) pend' given'.
Proof.
  intros Hl Hi Ha Hrun Hp Hg Hc Ho Hlive Hidx.
  assert (forall (R : nat -> tunpc -> Prop) id, (forall j x, R j x -> own_id x = Some id) -> own_id pc = Some id -> ~ elsewhere i pcs R) as Hone.
  { intros R id HR Hown (j & x & Hn & Hj & Hx). by destruct Hn, (le_ids _ _ _ _ _ Hl j i x pc id Hj Hi (HR _ _ Hx) Hown). }
  assert (forall j x id, pcs !! j = Some x -> own_id x = Some id -> own_id pc' = Some id -> i = j) as Hnew.
  { intros j x id Hj Hx Hown. destruct (Ho id Hown) as [Hpc|[Hn1 Hn2]]; [by apply (le_ids _ _ _ _ _ Hl i j pc x id)|].
    by destruct (owned_or_free _ _ _ _ _ j x id Hl Hj Hx). }
  pose proof (countb_insert begun pcs i pc pc' Hi). pose proof (le_idx _ _ _ _ _ Hl). split.
  - eapply reach_trans; [apply Hl|done].
  - intros id. rewrite Hp, (le_pend _ _ _ _ _ Hl), (somewhere_at _ _ _ _ Hi), (somewhere_insert _ _ _ _ _ Hi).
    specialize (Hone (λ _ x, pend_id x = Some id) id (λ _ x, own_of_pend x id)). pose proof (own_of_pend pc id). tauto.
  - intros id. rewrite Hg, (le_given _ _ _ _ _ Hl), (somewhere_at _ _ _ _ Hi), (somewhere_insert _ _ _ _ _ Hi).
    specialize (Hone (λ _ x, given_id x = Some id) id (λ _ x, own_of_given x id)). pose proof (own_of_given pc id). tauto.
  - intros id. rewrite Hc, (le_calls _ _ _ _ _ Hl), (somewhere_at _ _ _ _ Hi), (somewhere_insert _ _ _ _ _ Hi), Ha.
    specialize (Hone (λ j x, apis !! j = Some false /\ given_id x = Some id) id (λ _ x E, own_of_given x id (proj2 E))).
    pose proof (own_of_given pc id). assert (Some api = Some false <-> api = false) by (split; congruence). tauto.
  - intros j k x y id [(<- & <- & _)|[_ Hj]]%list_lookup_insert_Some [(<- & <- & _)|[_ Hk]]%list_lookup_insert_Some Hx Hy;
      [done|by eapply Hnew|by symmetry; eapply Hnew|by apply (le_ids _ _ _ _ _ Hl j k x y id)].
  - done.
  - lia.
Qed.

Lemma newTunnel_made s id s' : newTunnel s = (Ok id, s') -> id = tunIdx s /\ tunIdx s' = u64 (tunIdx s + 1) /\
  forall i, is_live i s' = bool_decide (i = id) || is_live i s.
Proof.
  unfold newTunnel. destruct (tunLive s) as [live|] eqn:E; intros [= <- <-]. split_and!; [done..|].
  intros i. unfold is_live. simpl. rewrite E. repeat case_bool_decide; simpl; try done; set_solver.
Qed.

(** What the table refers to has a number below the next one. *)
Lemma ledger_below c apis pcs pend given id : ledger c apis pcs pend given ->
  id ∈ pend \/ id ∈ given -> 0 <= id < tunIdx (c_tuns c).
Proof.
  intros Hl Hid. pose proof (ledger_ok _ _ _ _ _ Hl) as Hok.
  assert (is_live id (c_tuns c) = true \/ exists t, tunnels (c_tuns c) !! id = Some t /\ t_term t = true) as Hx
    by (destruct Hid as [Hid|Hid]; [exact (tk_pend _ Hok id Hid)|exact (tk_given _ Hok id Hid)]).
  apply (tk_idx _ Hok). destruct Hx as [Hx|(t & Ht & _)]; [destruct (tk_live _ Hok id Hx) as (t & Ht & _)|]; by eexists.
Qed.

Lemma ledger_new c apis api pcs i id s' pend given : ledger c apis pcs pend given -> pcs !! i = Some TunStart ->
  apis !! i = Some api -> newTunnel (c_tuns c) = (Ok id, s') -> tunIdx (c_tuns c) + 1 < 2 ^ 64 ->
  ledger (set_tuns s' c) apis (<[i := TunPend id]> pcs) ({[id]} ∪ pend) given.
Proof.
  intros Hl Hi Ha En Hb. destruct (newTunnel_made _ _ _ En) as (Ei & Hx & Hli).
  assert ((id ∉ pend) /\ (id ∉ given)) as [Hnp Hng].
  { split; intros Hin; pose proof (ledger_below _ _ _ _ _ id Hl ltac:(auto)); lia. }
  pose proof (tk_idx0 _ (ledger_ok _ _ _ _ _ Hl)) as H0'. simpl in H0'. rewrite u64_id in Hx by lia.
  eapply (ledger_move c (set_tuns s' c)); try done; simpl.
  - apply reach_one. by apply ts_new.
  - set_solver.
  - set_solver.
  - set_solver.
  - intros i' [= <-]. by right.
  - intros i'. rewrite Hli. intros [->%bool_decide_eq_true_1|Hl']%orb_true_iff; [set_solver|].
    pose proof (le_live _ _ _ _ _ Hl _ Hl'). set_solver.
  - lia.
Qed.

(** An effect other than a mild one, by what it does to the ledger's columns. *)
Lemma ledger_effect c c' apis api pcs i pc pc' pend given : ledger c apis pcs pend given ->
  pcs !! i = Some pc -> apis !! i = Some api -> effect api pc pc' c c' -> tunIdx (c_tuns c) + 1 < 2 ^ 64 ->
  exists pend' given', ledger c' apis (<[i := pc']> pcs) pend' given'.
Proof.
  intros Hl Hi Ha He Hb.
  pose proof (le_live _ _ _ _ _ Hl) as Hlive.
  assert (forall id, pc = TunPend id -> id ∈ pend) as Hpend.
  { intros id ->. apply (le_pend _ _ _ _ _ Hl). by eexists _, _. }
  destruct He as [pc c c' Hm|c|id s' c En|id c c' [Et Hg]|id c c' Hf [Et Hh]|id c Ht].
  - exists pend, given. rewrite list_insert_id by done. by eapply ledger_mild.
  - exists pend, given. eapply (ledger_move c c); try done; simpl; try constructor; try set_solver. lia.
  - exists ({[id]} ∪ pend), given. by apply (ledger_new c apis api).
  - exists (pend ∖ {[id]}), given. eapply (ledger_move c c'); try done; simpl.
    + apply reach_one. eapply ts_abandon; [by apply Hpend|]. rewrite Et. apply surjective_pairing.
    + set_solver.
    + set_solver.
    + intros i'. rewrite (Hg i'). set_solver.
    + intros i'. rewrite Et, is_live_remove. intros [Hli Hn%negb_true_iff%bool_decide_eq_false_1]%andb_true_iff.
      specialize (Hlive _ Hli). set_solver.
    + rewrite Et. simpl. lia.
  - exists (pend ∖ {[id]}), ({[id]} ∪ given). eapply (ledger_move c c'); try done; simpl.
    + rewrite Et. by apply reach_one, ts_give, Hpend.
    + set_solver.
    + set_solver.
    + intros i'. rewrite Hh. set_solver.
    + by left.
    + intros i'. rewrite Et. intros Hli. specialize (Hlive _ Hli). destruct (decide (i' = id)); set_solver.
    + rewrite Et. lia.
  - exists (pend ∖ {[id]}), ({[id]} ∪ given). eapply (ledger_move c c); try done; simpl.
    + by apply reach_one, ts_give, Hpend.
    + set_solver.
    + set_solver.
    + intros i'. rewrite Ht. set_solver.
    + by left.
    + intros i' Hli. specialize (Hlive _ Hli). destruct (decide (i' = id)); set_solver.
Qed.

(** ** In the system *)

Definition receiver_mild (r : receiver (Q := Q) (P := P) (TH := TH)) : Prop := match r with Listening => True | Handling q | Ending q => always mild q end.

Definition apis (ts : list (origin * code value)) : list bool := (λ x, by_api (fst x)) <$> ts.

Record accounted (s : sys) (pcs : list tunpc) (pend given : gset Z) : Prop := {
  ac_recv : receiver_mild (s_recv s);
  ac_at : Forall2 (λ x, tunnel_at (fst x) (snd x)) (s_threads s) pcs;
  ac_ledger : ledger (s_conn s) (apis (s_threads s)) pcs pend given
}.

Definition in_account (s : sys) : Prop := exists pcs pend given, accounted s pcs pend given.

Lemma spawn_at (o : origin) : exists pc, tunnel_at o (snd (spawn o)) pc /\ own_id pc = None.
Proof.
  destruct (maker o) eqn:Hm; [exists TunStart|exists TunOver]; (split; [constructor|done]); [done|by apply (start_quiet o)].
Qed.

(** One more goroutine, which has nothing yet. *)
Lemma ledger_start c l api pcs pc pend given : length l = length pcs -> own_id pc = None ->
  ledger c l pcs pend given -> ledger c (l ++ [api]) (pcs ++ [pc]) pend given.
Proof.
  intros Hlen Hno [Hrun Hp Hg Hc Hi Hlive Hx].
  assert (forall R R' : nat -> tunpc -> Prop, (forall j, ~ R' j pc) -> (forall j x, pcs !! j = Some x -> R j x <-> R' j x) ->
    somewhere pcs R <-> somewhere (pcs ++ [pc]) R') as Hsome.
  { intros R R' Hn HR. split.
    - intros (j & x & Hj & Hr). exists j, x. split; [by apply lookup_app_l_Some|by apply (HR j x)].
    - intros (j & x & [Hj|[Hge Hj]]%lookup_app_Some & Hr); [exists j, x; split; [done|by apply (HR j x)]|].
      destruct (j - length pcs)%nat; simplify_eq/=. by destruct (Hn j). }
  assert (forall id, pend_id pc <> Some id /\ given_id pc <> Some id) as Hnone by (intros id; by destruct pc).
  split; [done|..|done|].
  - intros id. rewrite Hp. apply Hsome; [|done]. intros _. apply Hnone.
  - intros id. rewrite Hg. apply Hsome; [|done]. intros _. apply Hnone.
  - intros id. rewrite Hc. apply Hsome; [intros j [_ ?]; by apply (Hnone id)|]. intros j x Hj.
    rewrite lookup_app_l; [done|]. rewrite Hlen. by eapply lookup_lt_Some.
  - intros i j a b id [Ha|[_ Ha]]%lookup_app_Some [Hb|[_ Hb]]%lookup_app_Some Hoa Hob; [by eapply Hi|..];
      match goal with E : [pc] !! _ = Some ?x |- _ => apply list_lookup_singleton_Some in E as [_ <-] end; congruence.
  - rewrite countb_app. pose proof (countb_nonneg begun [pc]). lia.
Qed.

Lemma accounted_spawn c c' r ts o : mild c c' -> in_account (Sys c r ts) -> in_account (Sys c' r (ts ++ [spawn o])).
Proof.
  intros Hm (pcs & pend & given & [Hr Ha Hl]). destruct (spawn_at o) as (pc & Hat & Hno).
  exists (pcs ++ [pc]), pend, given. simpl in *. split; [done|simpl..].
  - apply Forall2_app; [done|]. by constructor.
  - unfold apis. rewrite fmap_app. apply ledger_start; [rewrite length_fmap; by eapply Forall2_length|done|].
    by eapply ledger_mild.
Qed.

Lemma accounted_mild c c' r r' ts : mild c c' -> receiver_mild r' -> in_account (Sys c r ts) -> in_account (Sys c' r' ts).
Proof. intros Hm Hr' (pcs & pend & given & [Hr Ha Hl]). exists pcs, pend, given. split; [done..|]. by eapply ledger_mild. Qed.

Lemma accounted_act l (s s' : sys) : Z.of_nat (length (s_threads s)) < 2 ^ 63 -> in_account s -> sys_act l s s' -> in_account s'.
Proof.
  intros Hb Hin Hst. destruct Hst as [a c r ts Ha Hid|g l1 l2 c r ts Eg|job p p' c r ts Ep Ej|e job p p' c r ts Ep Ej
    |i t job p' c r ts Et Ej|i o p p' c c' r ts Ei Er
    |p q c c' ts Hp He Er|q q' c c' ts Er|c ts|err c ts|q q' c c' ts Er]; try (by apply (accounted_spawn c)).
  - destruct Hin as (pcs & pend & given & [Hr Hat Hl]). simpl in *.
    destruct (Forall2_lookup_l _ _ _ _ _ Hat Ei) as (pc & Hpc & Hpl). simpl in Hpl.
    destruct (tunnel_act _ _ _ _ _ _ Hpl Er) as (pc' & c1 & c2 & Hpl' & H1' & He & H2').
    pose proof (ledger_mild _ _ _ _ _ _ H1' Hl) as Hl1.
    destruct (ledger_effect c1 c2 (apis ts) (by_api o) pcs i pc pc' pend given Hl1 Hpc) as (pend' & given' & Hl2); [|done| |].
    { unfold apis. by rewrite list_lookup_fmap, Ei. }
    { pose proof (le_idx _ _ _ _ _ Hl1). pose proof (countb_nonneg begun pcs). apply Forall2_length in Hat. unfold len in *. lia. }
    exists (<[i := pc']> pcs), pend', given'. split; simpl; [done|by apply Forall2_insert|].
    unfold apis. rewrite list_fmap_insert, list_insert_id by (by rewrite list_lookup_fmap, Ei). by eapply ledger_mild.
  - destruct (always_run_on mild (receive p) c (receive_mild p)) as [Hm Hq]. rewrite Er in Hm, Hq. by eapply accounted_mild.
  - destruct Hin as (? & ? & ? & [Hr ? ?]). destruct (always_resume mild _ _ _ _ Hr Er) as [Hm Hq].
    eapply accounted_mild; [done|done|]. by eexists _, _, _.
  - by eapply accounted_mild.
  - eapply accounted_mild; [done|apply go_down_mild|done].
  - destruct Hin as (? & ? & ? & [Hr ? ?]). destruct (always_resume mild _ _ _ _ Hr Er) as [Hm Hq].
    eapply accounted_mild; [done|done|]. by eexists _, _, _.
Qed.

Lemma accounted_fresh (s : sys) : fresh s -> newly_made (s_conn s) -> in_account s.
Proof.
  intros (_ & _ & Hr & Hts) Hm. destruct s as [c r ts]. simpl in *. subst r.
  assert (in_account (Sys c Listening [])) as Hnil.
  { exists [], ∅, ∅. split; [done|constructor|]. unfold apis. simpl.
    assert (forall R, ~ somewhere [] R) as Hno by (by intros R (j & x & Hj & _)).
    split; rewrite ?(nm_tuns _ Hm); try done; [constructor|..].
    - intros id. split; [set_solver|by intros ?%Hno].
    - intros id. split; [set_solver|by intros ?%Hno].
    - intros id. rewrite (nm_calls _ Hm). split; [set_solver|by intros ?%Hno]. }
  destruct Hts as [->|[h ->]]; [done|]. by apply (accounted_spawn c c Listening [] (OInit h)).
Qed.

(** Goroutines are only ever added. *)
Lemma more_threads l (s s' : sys) : sys_act l s s' -> (length (s_threads s) <= length (s_threads s'))%nat.
Proof. intros Hst. destruct Hst; simpl; rewrite ?length_app, ?length_insert; simpl; lia. Qed.

Lemma accounted_reach (s0 s : sys) : fresh s0 -> newly_made (s_conn s0) -> reach sys_step s0 s ->
  Z.of_nat (length (s_threads s)) < 2 ^ 63 -> in_account s.
Proof.
  intros Hf Hm. induction 1 as [|s s' _ IH [l Hl]]; intros Hb; [by apply accounted_fresh|].
  pose proof (more_threads _ _ _ Hl). eapply accounted_act; [|apply IH|exact Hl]; lia.
Qed.

(** A tunnel that has been made; the next one has not been yet. *)
Definition known (id : Z) c : Prop := is_Some (tunnels (c_tuns c) !! id).

Lemma in_account_fresh (s : sys) : in_account s -> ~ known (tunIdx (c_tuns (s_conn s))) (s_conn s).
Proof.
  intros (pcs & pend & given & Hac) Hk. pose proof (tk_idx _ (ledger_ok _ _ _ _ _ (ac_ledger _ _ _ _ Hac)) _ Hk). simpl in *. lia.
Qed.

(** ** Properties *)

(** [Tunnel] has returned the tunnel in the goroutine [i]; the handler has been
    given it. *)
Definition returned_at (i : nat) (id : Z) (s : sys) : Prop :=
  exists x t, s_threads s !! i = Some (OApi (ATunnel x t), Ret (Ok (VTunnel id))).
Definition served (id : Z) (s : sys) : Prop := CallTunnel id ∈ c_calls (s_conn s).
Definition handed_out (id : Z) (s : sys) : Prop := (exists i, returned_at i id s) \/ served id s.

(** A goroutine that makes a tunnel and has not ended. *)
Definition under_way (s : sys) : Prop :=
  exists i o p, s_threads s !! i = Some (o, p) /\ maker o = true /\ forall r, p <> Ret r.

Lemma returned_given (s : sys) pcs pend given i id : accounted s pcs pend given -> returned_at i id s -> pcs !! i = Some (TunGiven id).
Proof.
  intros [_ Hat _] (x & t & Hi). destruct (Forall2_lookup_l _ _ _ _ _ Hat Hi) as (pc & Hpc & Hpl). rewrite Hpc. simpl in Hpl.
  inversion Hpl as [|i' ? ? Hmk Hne| |? ? ? [_ Hq]|? [_ Hq]]; subst; try done.
  unfold making in Hmk. simpl in Hmk. destruct Hmk as [[_ [= ->]]|[]]. done.
Qed.

Lemma given_handed (s : sys) pcs pend given id : accounted s pcs pend given -> id ∈ given <-> handed_out id s.
Proof.
  intros Hac. pose proof Hac as [_ Hat Hl]. rewrite (le_given _ _ _ _ _ Hl). unfold handed_out, served. rewrite (le_calls _ _ _ _ _ Hl). split.
  - intros (i & pc & Hpc & E). destruct pc as [| |id'|]; simplify_eq/=.
    destruct (Forall2_lookup_r _ _ _ _ _ Hat Hpc) as ([o p] & Hi & Hpl). simpl in Hpl.
    inversion Hpl as [| |? Hm Ha|? ? Ha Hq|]; subst.
    + left. exists i. destruct o as [[]|[]| | | |]; try done. by eexists _, _.
    + right. exists i, (TunGiven id). split; [done|]. unfold apis. rewrite list_lookup_fmap, Hi. by split; [rewrite <- Ha|].
  - intros [[i Hret]|(i & pc & Hpc & _ & E)]; [|by exists i, pc].
    exists i, (TunGiven id). split; [by eapply returned_given|done].
Qed.

Lemma pending_under_way (s : sys) pcs pend given id : sys_ok s -> accounted s pcs pend given -> id ∈ pend -> under_way s.
Proof.
  intros Hok [_ Hat Hl]. rewrite (le_pend _ _ _ _ _ Hl). intros (i & pc & Hpc & E). destruct pc as [|id'| |]; simplify_eq/=.
  destruct (Forall2_lookup_r _ _ _ _ _ Hat Hpc) as ([o p] & Hi & Hpl). simpl in Hpl.
  inversion Hpl as [|? ? Hm Hmk Hn| | |]; subst. exists i, o, p. split_and!; [done..|]. intros r ->.
  destruct (Forall_lookup_1 _ _ _ _ (sk_threads _ Hok) Hi) as [_ Hov]. simpl in Hov.
  unfold making in Hmk. simpl in Hmk. destruct Hmk as [[_ ->]|Hbr]; [done|].
  destruct o as [[]|[]| | | |]; try done; destruct Hov as [Hov|Hov]; try done; by destruct r.
Qed.

(** C10: the tunnel table of a connection in use refines that of Tunnels.v. However
    calls, handlers and the receiver interleave, what happens to it is a run of
    [tun_step], in which the tunnels given out are those that [Tunnel] has returned and
    those the service's handler has been called with, and those under construction
    belong to goroutines that are still at it. *)
Theorem tunnels_refine (s0 s : sys) : fresh s0 -> newly_made (s_conn s0) -> reach sys_step s0 s ->
  Z.of_nat (length (s_threads s)) < 2 ^ 63 ->
  exists pend given, reach tun_step (TSys tuns_init ∅ ∅) (TSys (c_tuns (s_conn s)) pend given) /\
    (forall id, id ∈ given <-> handed_out id s) /\ (forall id, id ∈ pend -> under_way s).
Proof.
  intros Hf Hm Hr Hb. destruct (accounted_reach s0 s Hf Hm Hr Hb) as (pcs & pend & given & Hac).
  exists pend, given. split_and!; [apply Hac|intros id; by eapply given_handed|intros id].
  apply (pending_under_way s pcs pend given); [exact (reach_ok _ _ Hf Hr)|done].
Qed.

(** C6: the tunnels of a connection in use. No tunnel is handed out twice, neither by
    two calls of [Tunnel] nor by one and the handler; every tunnel that has been handed
    out is in the table or closed, so the relay's packets find it or its calls
    return; and none is left behind in the table: each one in it has been handed out,
    unless some goroutine is making a tunnel still. *)
Theorem tunnels_in_use (s0 s : sys) : fresh s0 -> newly_made (s_conn s0) -> reach sys_step s0 s ->
  Z.of_nat (length (s_threads s)) < 2 ^ 63 ->
  (forall i j id, returned_at i id s -> returned_at j id s -> i = j) /\
  (forall i id, returned_at i id s -> ~ served id s) /\
  (forall id, handed_out id s -> is_live id (c_tuns (s_conn s)) = true \/ closed id (s_conn s)) /\
  (forall id, is_live id (c_tuns (s_conn s)) = true -> handed_out id s \/ under_way s).
Proof.
  intros Hf Hm Hr Hb. pose proof (reach_ok _ _ Hf Hr) as Hok.
  destruct (accounted_reach s0 s Hf Hm Hr Hb) as (pcs & pend & given & Hac). pose proof (ac_ledger _ _ _ _ Hac) as Hl.
  split_and!.
  - intros i j id Hi Hj. pose proof (returned_given _ _ _ _ _ _ Hac Hi). pose proof (returned_given _ _ _ _ _ _ Hac Hj).
    by apply (le_ids _ _ _ _ _ Hl i j (TunGiven id) (TunGiven id) id).
  - intros i id Hi Hs. pose proof (returned_given _ _ _ _ _ _ Hac Hi) as Hpc.
    apply (le_calls _ _ _ _ _ Hl) in Hs as (j & x & Hj & Ha & Hx).
    assert (i = j) as <- by (apply (le_ids _ _ _ _ _ Hl i j (TunGiven id) x id); [done..|by apply own_of_given]).
    destruct Hi as (y & t & Hi). unfold apis in Ha. by rewrite list_lookup_fmap, Hi in Ha.
  - intros id Hid. apply (given_handed _ _ _ _ _ Hac) in Hid. exact (tk_given _ (ledger_ok _ _ _ _ _ Hl) id Hid).
  - intros id Hid. apply (le_live _ _ _ _ _ Hl) in Hid as [Hid|Hid]%elem_of_union; [|left; by apply (given_handed _ _ _ _ _ Hac)].
    right. exact (pending_under_way _ _ _ _ _ Hok Hac Hid).
Qed.
End tunnelled.

(** A tunnel is asked for, confirmed by the relay and returned. *)
Definition sample_tunnelled : sys (Q := list slice) (P := list_pool) (TH := nat) :=
  advance WakeInit 0%nat (advance WakeInit 0%nat (finish_packet WakeInit (arrive (H := amd64) (ITunResult 0 1024)
    (advance WakeInit 0%nat (advance WakeInit 0%nat (advance WakeInit 0%nat
      (call (H := amd64) (ATunnel (str "cluster") 5000000) sample_sys))))))).

Lemma sample_tunnelled_returned : returned_at 0 0 sample_tunnelled.
Proof. eexists _, _. reflexivity. Qed.

Lemma sample_tunnelled_history : history (H := amd64) sample_sys [ITunResult 0 1024] sample_tunnelled.
Proof.
  apply advance_history, advance_history, finish_history.
  apply (arrive_history (H := amd64) sample_sys []); [done|by split; vm_compute|by split; vm_compute|].
  apply advance_history, advance_history, advance_history, call_history; [vm_compute; congruence|done|constructor].
Qed.

Lemma tunnels_refine_witness : exists pend given,
  reach (@tun_step (list slice) _) (TSys tuns_init ∅ ∅) (TSys (c_tuns (s_conn sample_tunnelled)) pend given) /\ 0 ∈ given.
Proof.
  destruct (@tunnels_refine amd64 _ _ _ _ _ sample_sys sample_tunnelled sample_fresh sample_made
    (history_reach (H := amd64) _ _ _ sample_tunnelled_history) ltac:(vm_compute; reflexivity)) as (pend & given & Hr & Hg & _).
  exists pend, given. split; [exact Hr|]. apply Hg. left. eexists. apply sample_tunnelled_returned.
Defined.

Lemma tunnels_in_use_witness : returned_at 0 0 sample_tunnelled /\
  (is_live 0 (c_tuns (s_conn sample_tunnelled)) = true \/ closed 0 (s_conn sample_tunnelled)).
Proof.
  split; [apply sample_tunnelled_returned|].
  destruct (@tunnels_in_use amd64 _ _ _ _ _ sample_sys sample_tunnelled sample_fresh sample_made
    (history_reach (H := amd64) _ _ _ sample_tunnelled_history) ltac:(vm_compute; reflexivity)) as (_ & _ & Hl & _).
  apply Hl. left. eexists. apply sample_tunnelled_returned.
Defined.
