(* ===== verification/Listening.v ===== *)
(** * The receiver always gets back to its loop

    The one thing the receiver waits for while it handles a packet is that
    [initTunnel] takes the result of a construction. Where the relay answers each
    construction once, the call it answers is on its way to its [select] or in it, so
    that the receiver is never held up for good. *)

From Stdlib Require Import ZArith Lia Strings.Byte Strings.String.
From stdpp Require Import base gmap strings list relations.
From S2P Require Import Prelude Threads Bufio Wire Packets Receiver Tunnel Limits Quota.
From S2P Require Import Topic Requests Tunnels Connection Events Service Safety System Footprint Making Steady Tunnelled.

Open Scope Z_scope.

Section listening.
Context `{GoRuntime} {Q : Type} `{Queue slice Q} {P : Type -> Type} `{ThreadPool P} {TH : Type}.
Local Abbreviation Connection := (Connection Q P TH).
Local Abbreviation code := (prog Connection cwake).
Local Abbreviation origin := (origin (TH := TH)).
Local Abbreviation sys := (sys (Q := Q) (P := P) (TH := TH)).
Implicit Types (c : Connection) (s : tuns (Q := Q)).

(** ** Who takes part in the hand-over *)

(** The calls that are in the [select] of [initTunnel], and what has been handed over. *)
Definition handover s : gset Z * gmap Z bool := (tunWait s, tunInit s).
Definition still c c' : Prop := steady handover c c'.

Lemma still_eq c c' : still c c' -> tunWait (c_tuns c') = tunWait (c_tuns c) /\ tunInit (c_tuns c') = tunInit (c_tuns c).
Proof. by intros [= -> ->]. Qed.

Lemma new_still s : unmoved handover s (snd (newTunnel s)).
Proof. unfold newTunnel. by destruct (tunLive s). Qed.

Lemma new_idle s s' id : newTunnel s = (Ok id, s') -> tunWait s' = tunWait s /\ tunInit s' = tunInit s.
Proof. intros E. pose proof (new_still s) as Hn. rewrite E in Hn. by injection Hn as -> ->. Qed.

Lemma tunnel_still {A} id (m : M (tstate Q) A) c : still c (snd (on_tunnel id m c)).
Proof. unfold on_tunnel. destruct (tunnels (c_tuns c) !! id) as [t|]; [|done]. by destruct (m _). Qed.

Lemma tunnel_call_still {A} id (p : prog (tstate Q) wake A) : always still (tunnel_call id p).
Proof.
  unfold tunnel_call. induction p as [o|C m k IH|k IH|C alt k IH]; simpl; [done| |done|].
  - split; [|done]. intros c. apply tunnel_still.
  - split; [|done]. intros w. destruct (tunnel_case w) as [w'|]; [|done]. intros c. apply tunnel_still.
Qed.

(** The goroutines other than the calls of [Tunnel]. *)
Lemma start_still o : opener o = false -> always still (start o).
Proof.
  intros Ho. destruct (maker o) eqn:Hm.
  - destruct o as [[]|[]| | | |]; try discriminate. rewrite accept_serving. apply serving_steady, always_bind.
    + apply always_atomic, steady_tuns, new_still.
    + intros tun. by apply accepting_steady.
  - destruct (recv_of o) as [id|] eqn:Hr; [|by apply start_steady].
    destruct o as [[]| | | | |]; try discriminate. apply always_bind; [apply tunnel_call_still|done].
Qed.

Lemma receive_still p : result_of p = None -> always still (receive p : code unit).
Proof.
  intros Hp. destruct (is_transfer p) eqn:Ht; [|by apply receive_steady]. destruct p; try discriminate. apply always_atomic.
  intros c. cbn [deliver handleTunnelTransfer conn_handlers]. unfold conn_handleTunnelTransfer. rewrite bind_eq. cbn [gets].
  destruct (is_live _ _); [apply tunnel_still|done].
Qed.

(** ** Where a call of [Tunnel] is *)

(** It has not begun, has made the tunnel, has sent the request, is in its [select],
    or is past all that. *)
Inductive stage := StIdle | StMade (id : Z) | StAsked (id : Z) | StWaiting (id : Z) | StPast.

Definition st_id (a : stage) : option Z :=
  match a with StMade id | StAsked id | StWaiting id => Some id | _ => None end.

Inductive at_stage (o : origin) : code value -> stage -> Prop :=
| as_idle : opener o = true -> at_stage o (Yield (start o)) StIdle
| as_made id x ms : opener o = true -> at_stage o
    (Yield (conclude id (atomic (on_sock (sendTunnelInit id x ms));; yield;; initTunnel_select id))) (StMade id)
| as_asked id : opener o = true -> at_stage o (Yield (conclude id (initTunnel_select id))) (StAsked id)
| as_waiting id : opener o = true -> at_stage o (conclude id (initTunnel_wait id)) (StWaiting id)
| as_past p : always still p -> at_stage o p StPast.

(** A step from one place to another. *)
Inductive moves c c' : stage -> stage -> Prop :=
| mo_past : still c c' -> moves c c' StPast StPast
| mo_refuse : still c c' -> moves c c' StIdle StPast
| mo_make id : newTunnel (c_tuns c) = (Ok id, c_tuns c') -> moves c c' StIdle (StMade id)
| mo_fail id : still c c' -> moves c c' (StMade id) StPast
| mo_ask id : still c c' -> moves c c' (StMade id) (StAsked id)
| mo_wait id : c_tuns c' = snd (tun_wait id (c_tuns c)) -> moves c c' (StAsked id) (StWaiting id)
| mo_take id : is_Some (tunInit (c_tuns c) !! id) -> still c c' -> moves c c' (StWaiting id) StPast
| mo_quit id : c_term c = true -> c_tuns c' = snd (tun_unwait id (c_tuns c)) -> moves c c' (StWaiting id) StPast.

Lemma conclude_past o id p : always still p -> at_stage o (conclude id p) StPast.
Proof. intros Hp. by apply as_past, conclude_steady. Qed.

Lemma stage_act o p c p' c' a : at_stage o p a -> resume p c (p', c') -> at_rest p' ->
  exists a', at_stage o p' a' /\ moves c c' a a'.
Proof.
  intros Ha Hr Hrest. destruct Ha as [Ho|id x ms Ho|id Ho|id Ho|p Hp].
  - destruct o as [[]| | | | |]; try discriminate. simpl in Hr. unfold conn_Tunnel, initTunnel in Hr.
    repeat (case_decide || case_test); try (injection Hr as -> ->; exists StPast; by repeat constructor).
    cbv [run_on mbind prog_bind pbind atomic] in Hr.
    destruct (newTunnel_cases c) as [(i & s' & En & E)|E]; rewrite E in Hr; injection Hr as -> ->.
    + exists (StMade i). split; [by apply as_made|by constructor].
    + exists StPast. by repeat constructor.
  - pose proof (steady_sock handover (sendTunnelInit id x ms) c) as Hs. simpl in Hr.
    destruct (on_sock (sendTunnelInit id x ms) c) as [[[]|e|y| |] c1]; simpl in Hr, Hs; injection Hr as -> ->; try done.
    + exists (StAsked id). split; [by apply as_asked|by constructor].
    + exists StPast. split; [by apply (conclude_past o id (raise e))|by apply mo_fail].
    + exists StPast. split; [by constructor|by apply mo_fail].
    + exists StPast. split; [by constructor|by apply mo_fail].
  - exists (StWaiting id). cbn in Hr. injection Hr as -> ->.
    split; [by apply as_waiting|by constructor].
  - exists StPast. destruct Hr as (w & Hb & Hr). destruct w; try (by destruct Hb); unfold initTunnel_ready in Hb, Hr;
      rewrite bind_eq in Hb, Hr; cbn [gets] in Hb, Hr.
    + destruct (tunInit (c_tuns c) !! id); [done|]. destruct (recv_term_returns _ _ Hb) as [Ht E]. rewrite E in Hr.
      unfold on_tuns in Hr. rewrite bind_eq, lift_eq in Hr. simpl in Hr. injection Hr as -> ->.
      split; [by apply (conclude_past o id (raise ErrClosed))|by apply mo_quit].
    + destruct (tunInit (c_tuns c) !! id) as [b|] eqn:Ei; [|done]. simpl in Hr.
      assert (moves c c (StWaiting id) StPast) as Hm by (constructor; [by eexists|done]).
      destruct b; simpl in Hr; injection Hr as -> ->; (split; [|done]); [|by apply (conclude_past o id (raise ErrTimeout))].
      assert (always still (yield;; atomic (on_sock (sendTunnelAllowance id defaultTunnelBuffer)) : code unit)) as Hp.
      { apply always_bind; [done|intros _]. apply always_atomic. intros d. apply steady_sock. }
      exact (conclude_past o id _ Hp).
  - exists StPast. destruct (always_resume still _ _ _ _ Hp Hr). split; [by apply as_past|by constructor].
Qed.

(** ** The hand-over and the calls *)

(** Who is constructing the tunnel [id] and can still take a result. *)
Definition asking (id : Z) (a : stage) : Prop := a = StAsked id \/ a = StWaiting id.

(** One that has not entered its [select] is not waiting and has got nothing; one that
    has is waiting until it gets its result. *)
Definition stage_ok c (a : stage) : Prop :=
  match a with
  | StMade id | StAsked id => (id ∉ tunWait (c_tuns c)) /\ tunInit (c_tuns c) !! id = None
  | StWaiting id => id ∈ tunWait (c_tuns c) <-> tunInit (c_tuns c) !! id = None
  | _ => True
  end.

(** An account of the calls: each constructs a tunnel of its own. *)
Record watch c (l : list stage) : Prop := {
  wa_ids : forall i j a b id, l !! i = Some a -> l !! j = Some b -> st_id a = Some id -> st_id b = Some id -> i = j;
  wa_stage : forall i a, l !! i = Some a -> stage_ok c a;
  wa_known : forall i a id, l !! i = Some a -> st_id a = Some id -> known id c;
  wa_others : forall id, id ∈ tunWait (c_tuns c) \/ is_Some (tunInit (c_tuns c) !! id) -> known id c
}.

(** The hand-over for a tunnel is as it was. *)
Definition undisturbed (id : Z) c c' : Prop :=
  (id ∈ tunWait (c_tuns c') <-> id ∈ tunWait (c_tuns c)) /\ tunInit (c_tuns c') !! id = tunInit (c_tuns c) !! id.

Lemma still_undisturbed c c' id : still c c' -> undisturbed id c c'.
Proof. unfold undisturbed. by intros [-> ->]%still_eq. Qed.

Lemma stage_ok_undisturbed c c' a : (forall id, st_id a = Some id -> undisturbed id c c') -> stage_ok c a -> stage_ok c' a.
Proof. destruct a as [|id|id|id|]; simpl; try done; intros Hu; destruct (Hu id eq_refl) as [Hw ->]; tauto. Qed.

(** A stage changes, to one of the same tunnel, or of a new one, or of none. *)
Lemma watch_stage c c' l i a b : l !! i = Some a -> watch c l -> (forall id, known id c -> known id c') ->
  (forall id, st_id b = Some id -> st_id a = Some id \/ ~ known id c /\ known id c') ->
  (forall id, st_id a <> Some id -> undisturbed id c c') -> stage_ok c' b -> watch c' (<[i := b]> l).
Proof.
  intros Hi Hw Hst Hb Ho Hok.
  assert (forall j x id, j <> i -> l !! j = Some x -> st_id x = Some id -> st_id a <> Some id /\ st_id b <> Some id) as Hne.
  { intros j x id Hn Hj Hx. assert (st_id a <> Some id) as Ha by (intros Ha; by destruct Hn, (wa_ids _ _ Hw j i x a id Hj Hi Hx Ha)).
    split; [done|]. intros Hid. destruct (Hb id Hid) as [?|[Hk _]]; [done|]. exact (Hk (wa_known _ _ Hw j x id Hj Hx)). }
  split.
  - intros j k x y id [(<- & <- & _)|[Hnj Hj]]%list_lookup_insert_Some [(<- & <- & _)|[Hnk Hk]]%list_lookup_insert_Some Hx Hy; [done|..].
    + by destruct (Hne k y id (not_eq_sym Hnk) Hk Hy).
    + by destruct (Hne j x id (not_eq_sym Hnj) Hj Hx).
    + by apply (wa_ids _ _ Hw j k x y id).
  - intros j x [(<- & <- & _)|[Hnj Hj]]%list_lookup_insert_Some; [done|].
    apply (stage_ok_undisturbed c); [|by apply (wa_stage _ _ Hw j)]. intros id Hx. apply Ho, (Hne j x id (not_eq_sym Hnj) Hj Hx).
  - intros j x id [(<- & <- & _)|[_ Hj]]%list_lookup_insert_Some Hx; [|by apply Hst, (wa_known _ _ Hw j x)].
    destruct (Hb id Hx) as [Ha|[_ Hk]]; [|done]. by apply Hst, (wa_known _ _ Hw i a).
  - intros id Hid. destruct (decide (st_id a = Some id)) as [Ha|Ha]; [by apply Hst, (wa_known _ _ Hw i a)|].
    destruct (Ho id Ha) as [Ew Ei]. apply Hst, (wa_others _ _ Hw). rewrite <- Ei. tauto.
Qed.

Lemma watch_elsewhere c c' l : still c c' -> (forall id, known id c -> known id c') -> watch c l -> watch c' l.
Proof.
  intros Hs Hst Hw. destruct (still_eq _ _ Hs) as [Ew Ei]. destruct Hw as [Hids Hstage Hk Ho]. split; [done| |by eauto|].
  - intros i a Hi. apply (stage_ok_undisturbed c); [|by apply (Hstage i)]. intros id _. by apply still_undisturbed.
  - intros id. rewrite Ew, Ei. auto.
Qed.

Lemma watch_moves c c' l i a b : l !! i = Some a -> moves c c' a b -> watch c l -> (forall id, known id c -> known id c') ->
  ~ known (tunIdx (c_tuns c)) c -> watch c' (<[i := b]> l).
Proof.
  intros Hi Hm Hw Hst Hf. pose proof (wa_stage _ _ Hw i a Hi) as Hok.
  eapply watch_stage; [exact Hi|exact Hw|exact Hst|..].
  - destruct Hm as [Hs|Hs|id Hn|id Hs|id Hs|id E|id Hin Hs|id Ht E]; simpl; try done; try (intros ? [= <-]; by left).
    destruct (newTunnel_made _ _ _ Hn) as [-> _]. intros ? [= <-]. right. split; [done|].
    unfold newTunnel in Hn. unfold known. destruct (tunLive (c_tuns c)); [|done]. injection Hn as <-. simpl. rewrite lookup_insert_eq. by eexists.
  - intros id' Hn'. destruct Hm as [Hs|Hs|id Hn|id Hs|id Hs|id E|id Hin Hs|id Ht E]; try by apply still_undisturbed.
    + unfold undisturbed. by destruct (new_idle _ _ _ Hn) as [-> ->].
    + unfold undisturbed. rewrite E. simpl in *. split; [set_solver|done].
    + unfold undisturbed. rewrite E. simpl in *. split; [set_solver|done].
  - destruct Hm as [Hs|Hs|id Hn|id Hs|id Hs|id E|id Hin Hs|id Ht E]; simpl in *; try done.
    + destruct (newTunnel_made _ _ _ Hn) as [-> _]. destruct (new_idle _ _ _ Hn) as [-> ->]. split; [intros Hin; apply Hf, (wa_others _ _ Hw); by left|].
      destruct (tunInit (c_tuns c) !! _) eqn:E; [|done]. destruct Hf. apply (wa_others _ _ Hw). right. by eexists.
    + by destruct (still_eq _ _ Hs) as [-> ->].
    + rewrite E. simpl. destruct Hok as [_ ->]. set_solver.
Qed.

(** ** The receiver *)

(** It is about to hand over the result of the tunnel [id]. *)
Definition handing (id : Z) (r : receiver (Q := Q) (P := P) (TH := TH)) : Prop :=
  exists init, r = Handling (Select (λ _, on_tuns (tun_sendInit id init)) Ret).

(** Handling a packet it is done or about to hand a result over. *)
Definition poised (r : receiver (Q := Q) (P := P) (TH := TH)) : Prop :=
  match r with
  | Listening => True
  | Handling q => q = Ret (Ok tt) \/ exists id, handing id r
  | Ending q => always still q
  end.

Lemma receive_poised p c q c' : in_ok p -> conn_ok c -> expected p c -> run_on (receive p) c = (q, c') ->
  still c c' /\ (q = Ret (Ok tt) \/ exists id, result_of p = Some id /\ handing id (Handling q)).
Proof.
  intros Hp Hc He Hr. destruct (result_of p) as [id|] eqn:Ep.
  - assert (exists n, receive p = (receive_result id n : code unit) /\ n < 2 ^ 62 /\ is_live id (c_tuns c) = true) as (n & E & Hn & Hl).
    { destruct p; try discriminate; injection Ep as <-; cbn in He |- *; [by exists 0|]. destruct He. by eexists. }
    rewrite E in Hr. unfold receive_result in Hr. destruct (lookup_stretch id n Hn c Hc Hl) as (Hret & _).
    pose proof (steady_tuns handover (tun_lookupResult id n) (unmoved_lookup handover (λ _ _ _ _ _ _, eq_refl) id n) c) as Hs.
    assert (forall e, fst (on_tuns (tun_lookupResult id n) c) <> Err e) as Hne.
    { intros e. unfold on_tuns. rewrite lift_eq. unfold tun_lookupResult. rewrite bind_eq. cbn [gets]. rewrite Hl.
      unfold upd_tunnel, handleInitResult. destruct (tunnels (c_tuns c) !! id); [|done]. simpl. by destruct (0 <? n). }
    destruct (on_tuns (tun_lookupResult id n) c) as [[b|e|y| |] c1] eqn:Eo; try done; [|by destruct (Hne e)].
    rewrite (run_on_do _ _ c b c1 Eo) in Hr. injection Hr as <- <-. split; [done|]. right. exists id. split; [done|by exists b].
  - destruct (always_run_on still (receive p) c (receive_still p Ep)) as [Hs _]. rewrite Hr in Hs. split; [done|left].
    assert (receive p = (atomic (deliver p) : code unit) /\ forall id n, p <> ITunTimeout id /\ p <> ITunResult id n) as [E Hn] by (by destruct p).
    rewrite E in Hr. simpl in Hr. destruct (deliver_stretch p Hp Hn c Hc He) as (Hret & _). pose proof (deliver_quiet p c) as Hq.
    destruct (deliver p c) as [[[]| | | |] c1]; try done. by injection Hr as <- <-.
Qed.

(** ** In the system *)

Definition account (s : sys) (l : list stage) : Prop :=
  Forall2 (λ x, at_stage (fst x) (snd x)) (s_threads s) l /\ watch (s_conn s) l.

(** A result for the tunnel [id] is awaited: by the account of the calls one of them
    has sent the request, and nothing has come yet. *)
Definition awaited (id : Z) (s : sys) : Prop := exists l i a, account s l /\ l !! i = Some a /\ asking id a /\
  tunInit (c_tuns (s_conn s)) !! id = None.

Lemma spawn_stage o : exists a, at_stage o (snd (spawn o)) a /\ st_id a = None.
Proof.
  destruct (opener o) eqn:Ho; [exists StIdle|exists StPast]; (split; [|done]); [by apply as_idle|by apply as_past, (start_still o)].
Qed.

Lemma watch_start c l a : st_id a = None -> watch c l -> watch c (l ++ [a]).
Proof.
  intros Ha [Hids Hs Hk Ho].
  assert (forall i x, (l ++ [a]) !! i = Some x -> l !! i = Some x \/ x = a) as Hin.
  { intros i x [Hi|[_ Hi]]%lookup_app_Some; [by left|right]. by apply list_lookup_singleton_Some in Hi as [_ <-]. }
  split; [|..|done].
  - intros i j x y id [Hi| ->]%Hin [Hj| ->]%Hin Hx Hy; [by apply (Hids i j x y id)|congruence..].
  - intros i x [Hi| ->]%Hin; [by apply (Hs i)|]. by destruct a.
  - intros i x id [Hi| ->]%Hin Hx; [by apply (Hk i x)|congruence].
Qed.

(** Handing a result over wakes the one that waits for it. *)
Lemma watch_handed c id init o c' l : on_tuns (tun_sendInit id init) c = (o, c') -> o <> Block -> watch c l ->
  o = Ok tt /\ watch c' l /\ forall i, i <> id -> tunInit (c_tuns c') !! i = tunInit (c_tuns c) !! i.
Proof.
  unfold on_tuns. rewrite lift_eq. unfold tun_sendInit. destruct (decide (id ∈ tunWait (c_tuns c))) as [Hin|]; intros [= <- <-]; [|done].
  intros _ Hw. split_and!; [done| |intros i Hn; simpl; by rewrite lookup_insert_ne].
  pose proof Hw as [Hids Hs Hk Ho]. split; [done| |by eauto|].
  - intros i a Hi. pose proof (Hs i a Hi) as Ha. destruct (decide (st_id a = Some id)) as [E|E].
    + destruct a as [|j|j|j|]; simpl in E; simplify_eq/=; [by destruct Ha..|]. rewrite lookup_insert_eq. set_solver.
    + apply (stage_ok_undisturbed c); [|done]. intros j Hj. assert (j <> id) by congruence.
      split; simpl; [set_solver|by rewrite lookup_insert_ne].
  - intros i Hi. apply Ho. destruct (decide (i = id)) as [->|Hn]; [by left|]. simpl in Hi.
    rewrite lookup_insert_ne in Hi by done. set_solver.
Qed.

Lemma moves_init c c' a b : moves c c' a b -> tunInit (c_tuns c') = tunInit (c_tuns c).
Proof.
  intros [Hs|Hs|id Hn|id Hs|id Hs|id E|id Hin Hs|id Ht E]; try apply (still_eq _ _ Hs); try by rewrite E.
  by destruct (new_idle _ _ _ Hn).
Qed.

(** Nobody has to do with a tunnel's construction any more. *)
Record unclaimed (id : Z) c (l : list stage) : Prop := {
  uc_known : known id c;
  uc_wait : id ∉ tunWait (c_tuns c);
  uc_stage : forall i a, l !! i = Some a -> st_id a <> Some id
}.

Lemma moves_unclaimed id c c' l i a b : l !! i = Some a -> moves c c' a b -> known id c' ->
  ~ known (tunIdx (c_tuns c)) c -> unclaimed id c l -> unclaimed id c' (<[i := b]> l).
Proof.
  intros Hi Hm Hk Hf [Hk0 Hw Hs]. pose proof (Hs i a Hi) as Hne. split; [done| |].
  - destruct Hm as [[-> _]%still_eq|[-> _]%still_eq|j Hn|j [-> _]%still_eq|j [-> _]%still_eq|j E|j _ [-> _]%still_eq|j _ E]; try done.
    + by destruct (new_idle _ _ _ Hn) as [-> _].
    + rewrite E. simpl in *. set_solver.
    + rewrite E. simpl. set_solver.
  - intros k x [(<- & <- & _)|[_ Hx]]%list_lookup_insert_Some; [|by eapply Hs].
    destruct Hm as [| |j Hn| | | | |]; try done. destruct (newTunnel_made _ _ _ Hn) as [-> _]. intros [= <-]. by destruct Hf.
Qed.

(** What a step does to the account. *)
Record tends (s s' : sys) (l l' : list stage) : Prop := {
  fo_account : account s' l';
  fo_poised : poised (s_recv s');
  fo_stages : forall i a, l !! i = Some a -> exists b, l' !! i = Some b /\ (a = b \/ moves (s_conn s) (s_conn s') a b);
  fo_init : forall id, tunInit (c_tuns (s_conn s')) !! id = tunInit (c_tuns (s_conn s)) !! id \/
    (handing id (s_recv s) /\ s_recv s' = Handling (Ret (Ok tt)));
  fo_unclaimed : forall id, unclaimed id (s_conn s) l -> unclaimed id (s_conn s') l'
}.

Lemma tends_still c c' r r' ts l : still c c' -> (forall id, known id c -> known id c') -> poised r' ->
  account (Sys c r ts) l -> tends (Sys c r ts) (Sys c' r' ts) l l.
Proof.
  intros Hs Hk Hr' [Hat Hw]. split; simpl; [split; [done|by eapply watch_elsewhere]|done|by eauto|..].
  - intros id. left. by destruct (still_eq _ _ Hs) as [_ ->].
  - intros id [Hid Hn ?]. split; [by apply Hk| |done]. by destruct (still_eq _ _ Hs) as [-> _].
Qed.

Lemma tends_spawn c c' r ts o l : c_tuns c' = c_tuns c -> poised r -> account (Sys c r ts) l ->
  exists l', tends (Sys c r ts) (Sys c' r (ts ++ [spawn o])) l l'.
Proof.
  intros E Hr [Hat Hw]. destruct (spawn_stage o) as (a & Ha & Hno). exists (l ++ [a]). split; simpl in *; [|done|..].
  - split; simpl; [apply Forall2_app; [done|by constructor]|]. apply watch_start; [done|].
    eapply watch_elsewhere; [by apply steady_same| |done]. unfold known. by rewrite E.
  - intros i b Hi. exists b. split; [by apply lookup_app_l_Some|by left].
  - intros id. left. by rewrite E.
  - intros id [Hid Hn Hs]. split; unfold known; rewrite ?E; [done..|].
    intros i b [Hi|[_ Hi]]%lookup_app_Some; [by eapply Hs|]. apply list_lookup_singleton_Some in Hi as [_ <-]. by rewrite Hno.
Qed.

Lemma account_act x (s s' : sys) l : sys_ok s -> ~ known (tunIdx (c_tuns (s_conn s))) (s_conn s) -> poised (s_recv s) ->
  account s l -> sys_act x s s' -> exists l', tends s s' l l'.
Proof.
  intros Hok Hf Hpo Hac Hst. pose proof (act_leads _ _ _ Hok Hst) as [Hok' Hg].
  assert (forall id, known id (s_conn s) -> known id (s_conn s')) as Hk by (intros id; apply (gr_tunnels _ _ Hg)).
  destruct Hst as [a c r ts Ha Hid|g l1 l2 c r ts Eg|job p p' c r ts Ep Ej|e job p p' c r ts Ep Ej
    |i t job p' c r ts Et Ej|i o p p' c c' r ts Ei Er
    |p q c c' ts Hp He Er|q q' c c' ts Er|c ts|err c ts|q q' c c' ts Er]; simpl in Hf, Hpo, Hk;
    try (by apply (tends_spawn c)).
  - destruct Hac as [Hat Hw]. simpl in *. destruct (Forall2_lookup_l _ _ _ _ _ Hat Ei) as (a & Ha & Hpa). simpl in Hpa.
    assert (at_rest p') as Hrest.
    { apply (Forall_lookup_1 _ _ i (o, p') (sk_threads _ Hok')). simpl. apply list_lookup_insert_eq. by eapply lookup_lt_Some. }
    destruct (stage_act _ _ _ _ _ _ Hpa Er Hrest) as (b & Hb & Hm). exists (<[i := b]> l). split; simpl; [|done|..].
    + split; simpl; [by apply Forall2_insert|]. by eapply watch_moves.
    + intros j y Hj. destruct (decide (i = j)) as [<-|Hn].
      * exists b. rewrite list_lookup_insert_eq by (by eapply lookup_lt_Some). split; [done|right]. by simplify_eq.
      * exists y. rewrite list_lookup_insert_ne by done. split; [done|by left].
    + intros id. left. by rewrite (moves_init _ _ _ _ Hm).
    + intros id Hu. apply (moves_unclaimed id c c' l i a b); try done. by apply Hk, Hu.
  - exists l. destruct (receive_poised p c q c' Hp (sk_conn _ Hok) He Er) as [Hs Hq].
    apply tends_still; [done|done| |done]. destruct Hq as [->|(id & _ & Hq)]; [by left|right; by exists id].
  - destruct Hpo as [->|(id & init & [= ->])]; [done|]. destruct Er as (w & Hb & Er).
    destruct (on_tuns (tun_sendInit id init) c) as [o c1] eqn:Eo. simpl in Hb, Er. injection Er as -> ->.
    destruct Hac as [Hat Hw]. simpl in Hat, Hw. destruct (watch_handed _ _ _ _ _ _ Eo Hb Hw) as (-> & Hw' & Ho).
    exists l. split; simpl; [done|by left|by eauto|..].
    + intros j. destruct (decide (j = id)) as [->|Hn]; [right; split; [by exists init|done]|left; by apply Ho].
    + intros j [Hj Hn Hs]. split; [by apply Hk| |done]. revert Eo. unfold on_tuns. rewrite lift_eq. unfold tun_sendInit.
      case_decide; intros [= <-]; simpl; set_solver.
  - exists l. by apply tends_still.
  - exists l. apply tends_still; [done|done|by apply go_down_steady|done].
  - exists l. destruct (always_resume still _ _ _ _ Hpo Er) as [Hs Hq]. by apply tends_still.
Qed.

(** What a call waits for it goes on waiting for, until it comes or the connection
    has ended. *)
Lemma awaited_act x (s s' : sys) id : sys_ok s -> ~ known (tunIdx (c_tuns (s_conn s))) (s_conn s) -> poised (s_recv s) ->
  awaited id s -> sys_act x s s' ->
  awaited id s' \/ c_term (s_conn s) = true \/ (handing id (s_recv s) /\ s_recv s' = Handling (Ret (Ok tt))).
Proof.
  intros Hok Hf Hpo (l & i & a & Hac & Hi & Ha & Hn) Hst. destruct (account_act x s s' l Hok Hf Hpo Hac Hst) as (l' & [Hac' _ Hs Hin _]).
  destruct (Hin id) as [E|?]; [|by auto]. destruct (Hs i a Hi) as (b & Hb & [<-|Hm]).
  - left. exists l', i, a. by rewrite E.
  - destruct Ha as [->| ->]; inversion Hm; subst; auto.
    + left. exists l', i, (StWaiting id). rewrite E. split_and!; [done|done|by right|done].
    + rewrite Hn in *. by destruct (is_Some_None (A := bool)).
Qed.

(** *** Against a polite relay *)

(** The relay sends the result of a construction only where it is awaited. *)
Definition polite (x : option InPacket) (s : sys) : Prop := forall p id, x = Some p -> result_of p = Some id -> awaited id s.
Definition polite_step (s s' : sys) : Prop := exists x, sys_act x s s' /\ polite x s.

Lemma polite_reach (s0 s : sys) : reach polite_step s0 s -> reach sys_step s0 s.
Proof. induction 1 as [|s s' _ IH (x & Hx & _)]; [constructor|]. eapply reach_step; [exact IH|by exists x]. Qed.

Lemma quietly_polite (s s' : sys) : quietly s s' -> reach polite_step s s'.
Proof. induction 1 as [|s1 s2 _ IH Hs]; [constructor|]. eapply reach_step; [exact IH|]. exists None. by split. Qed.

(** The receiver only ever holds a result that somebody awaits. *)
Record attentive (s : sys) : Prop := {
  at_account : exists l, account s l;
  at_poised : poised (s_recv s);
  at_awaited : forall q, s_recv s = Handling q -> q = Ret (Ok tt) \/ exists id, handing id (s_recv s) /\ awaited id s
}.

Lemma fresh_account (s : sys) : fresh s -> newly_made (s_conn s) -> exists l, account s l.
Proof.
  intros (_ & _ & _ & Hts) Hm. destruct s as [c r ts]. simpl in *.
  assert (account (Sys c r []) []) as Hnil.
  { split; [constructor|]. simpl. split; try by intros. intros id. rewrite (nm_tuns _ Hm). simpl. rewrite lookup_empty. 
    intros [?|[? ?]]; [set_solver|done]. }
  destruct Hts as [->|[h ->]]; [by exists []|].
  destruct (spawn_stage (OInit h)) as (a & Ha & Hno). exists [a]. split; simpl; [by repeat constructor|].
  apply (watch_start _ [] a Hno), Hnil.
Qed.

Lemma attentive_act x (s s' : sys) : sys_ok s -> ~ known (tunIdx (c_tuns (s_conn s))) (s_conn s) -> attentive s ->
  polite x s -> sys_act x s s' -> attentive s'.
Proof.
  intros Hok Hf [[l Hl] Hpo Haw] Hpol Hst. destruct (account_act x s s' l Hok Hf Hpo Hl Hst) as (l' & Hfo).
  split; [exists l'; apply Hfo|apply Hfo|]. clear Hfo l'.
  assert (forall id, awaited id s -> c_term (s_conn s) = false -> awaited id s' \/ s_recv s' = Handling (Ret (Ok tt))) as Hon.
  { intros id Hid Ht. destruct (awaited_act x s s' id Hok Hf Hpo Hid Hst) as [?|[?|[_ ?]]]; [by left|congruence|by right]. }
  assert (s_recv s' = s_recv s -> forall q, s_recv s' = Handling q ->
    q = Ret (Ok tt) \/ exists id, handing id (s_recv s') /\ awaited id s') as Hsame.
  { intros E q Hq. rewrite E in Hq. destruct (Haw q Hq) as [?|(id & Hh & Hid)]; [by left|].
    pose proof (sk_recv _ Hok) as Hrv. rewrite Hq in Hrv. destruct Hrv as [Ht _].
    destruct (Hon id Hid Ht) as [?|E']; [right; exists id; by rewrite E|left; congruence]. }
  destruct Hst as [| | | | | |p q c c' ts Hp He Er|q q' c c' ts Er| | |]; try (by apply Hsame); simpl in *; try (by intros ? [=]).
  - intros q' [= <-]. destruct (receive_poised p c q c' Hp (sk_conn _ Hok) He Er) as [_ [->|(id & Ep & Hh)]]; [by left|].
    destruct (Hon id (Hpol p id eq_refl Ep) (sk_recv _ Hok)) as [?|[= ->]]; [right; by exists id|by left].
  - intros q'' [= <-]. left. destruct Hpo as [->|(id & init & [= ->])]; [done|]. destruct Er as (w & Hb & Er).
    destruct Hl as [_ Hw]. destruct (on_tuns (tun_sendInit id init) c) as [o c1] eqn:Eo. simpl in Hb, Er, Hw. injection Er as -> ->.
    by destruct (watch_handed _ _ _ _ _ _ Eo Hb Hw) as (-> & _).
Qed.

(** Every state that a polite relay leads to. *)
Lemma attentive_reach (s0 s : sys) : fresh s0 -> newly_made (s_conn s0) -> reach polite_step s0 s ->
  Z.of_nat (length (s_threads s)) < 2 ^ 63 -> attentive s.
Proof.
  intros Hf Hm Hr. induction Hr as [|s s' Hr IH (x & Hx & Hpol)]; intros Hb.
  - pose proof Hf as (_ & _ & Hl & _). split; rewrite ?Hl; [by apply fresh_account|done|done].
  - pose proof (more_threads _ _ _ Hx). assert (Z.of_nat (length (s_threads s)) < 2 ^ 63) as Hb' by lia.
    pose proof (polite_reach _ _ Hr) as Hsr. eapply attentive_act; [exact (reach_ok _ _ Hf Hsr)| |by apply IH|exact Hpol|exact Hx].
    exact (in_account_fresh _ (accounted_reach _ _ Hf Hm Hsr Hb')).
Qed.

(** ** Properties *)

(** The same connection for those who are not in a call of [Tunnel]. *)
Record unaffected (s s' : sys) : Prop := {
  un_quit : c_quit (s_conn s') = c_quit (s_conn s);
  un_threads : forall i o p, s_threads s !! i = Some (o, p) -> opener o = false -> s_threads s' !! i = Some (o, p)
}.

(** Handing the result over and going back to the loop. *)
Lemma hands_over id (s : sys) : handing id (s_recv s) -> id ∈ tunWait (c_tuns (s_conn s)) ->
  exists s' : sys, nsteps (sys_act None) 2 s s' /\ s_recv s' = Listening /\ unaffected s s'.
Proof.
  destruct s as [c r ts]. simpl. intros (init & ->) Hin.
  exists (Sys (snd (on_tuns (tun_sendInit id init) c)) Listening ts).
  assert (on_tuns (tun_sendInit id init) c = (Ok tt, snd (on_tuns (tun_sendInit id init) c))) as E.
  { unfold on_tuns. rewrite lift_eq. unfold tun_sendInit. by rewrite decide_True. }
  split_and!; [|done|split; [|done]].
  - eapply nsteps_l; [|eapply nsteps_once, sy_handled]. apply sy_handle. exists WakeInit. by rewrite E.
  - unfold on_tuns. by rewrite lift_eq.
Qed.

Lemma attentive_returns (s : sys) q : attentive s -> s_recv s = Handling q ->
  exists n (s' : sys), (n <= 3)%nat /\ nsteps (sys_act None) n s s' /\ s_recv s' = Listening /\ unaffected s s'.
Proof.
  intros [_ _ Haw] Hq. destruct (Haw q Hq) as [->|(id & Hh & l & i & a & [Hat Hw] & Hi & Ha & Hn)].
  { exists 1%nat, (Sys (s_conn s) Listening (s_threads s)). destruct s as [c r ts]. simpl in Hq. subst r.
    split_and!; [lia|apply nsteps_once, sy_handled|done|by split]. }
  pose proof (wa_stage _ _ Hw i a Hi) as Hok. destruct Ha as [->| ->]; simpl in Hok.
  - destruct (Forall2_lookup_r _ _ _ _ _ Hat Hi) as ([o p] & Ei & Hp). simpl in Hp. inversion Hp; subst.
    set (s1 := Sys (snd (on_tuns (tun_wait id) (s_conn s))) (s_recv s) (<[i := (o, conclude id (initTunnel_wait id))]> (s_threads s))).
    destruct (hands_over id s1 Hh) as (s' & Hs' & Hl & [Hu1 Hu2]); [simpl; set_solver|].
    exists 3%nat, s'. split_and!; [lia| |done|split].
    + eapply nsteps_l; [|exact Hs']. destruct s as [c r ts]. by eapply sy_run.
    + by rewrite Hu1.
    + intros j o' p Hj Ho. apply Hu2; [|done]. simpl. rewrite list_lookup_insert_ne; [done|]. intros ->. simplify_eq. congruence.
  - destruct (hands_over id s Hh) as (s' & Hs' & Hl & Hu); [by apply Hok|]. exists 2%nat, s'. split_and!; [lia|done..].
Qed.

(** So a receiver that has not left its loop can be brought back into it. *)
Lemma attentive_listens (s : sys) : attentive s -> (forall q, s_recv s <> Ending q) ->
  exists s' : sys, reach sys_step s s' /\ s_recv s' = Listening /\ unaffected s s'.
Proof.
  intros Hat He. destruct (s_recv s) as [|q|q] eqn:Eq; [exists s; by split; [constructor|split]| |by destruct (He q)].
  destruct (attentive_returns s q Hat Eq) as (n & s1 & _ & Hn & Hl & Hu). exists s1. split; [|done]. clear -Hn.
  induction Hn as [|n x y z Hxy _ IH]; [constructor|]. eapply reach_trans; [by eapply reach_act|done].
Qed.

(** C14: the receiver is never held up for good. Against a relay that sends the result
    of a tunnel's construction only where a call of [Tunnel] has asked for it and has
    had none, the receiver is back in its loop at most three steps after any moment at
    which it handles a packet, with no further packet from the relay; so the connection
    can be ended in every state in which it has not been. And a call that awaits its
    result awaits it until the receiver hands it over or the connection ends, so that
    the relay may take its time. *)
Theorem receiver_never_stuck (s0 s : sys) : fresh s0 -> newly_made (s_conn s0) -> reach polite_step s0 s ->
  Z.of_nat (length (s_threads s)) < 2 ^ 63 ->
  (forall q, s_recv s = Handling q ->
     exists n (s' : sys), (n <= 3)%nat /\ nsteps (sys_act None) n s s' /\ s_recv s' = Listening) /\
  ((forall q, s_recv s <> Ending q) -> exists s' : sys, reach sys_step s s' /\ c_term (s_conn s') = true) /\
  (forall id x (s' : sys), awaited id s -> sys_act x s s' ->
     awaited id s' \/ c_term (s_conn s) = true \/ (handing id (s_recv s) /\ s_recv s' = Handling (Ret (Ok tt)))).
Proof.
  intros Hf Hm Hr Hb. pose proof (attentive_reach s0 s Hf Hm Hr Hb) as Hat. pose proof (polite_reach _ _ Hr) as Hsr.
  pose proof (reach_ok _ _ Hf Hsr) as Hok.
  split_and!.
  - intros q Hq. destruct (attentive_returns s q Hat Hq) as (n & s' & Hn & Hs & Hl & _). by exists n, s'.
  - intros He. destruct (attentive_listens s Hat He) as (s1 & Hs1 & Hl & _).
    destruct (can_end s1 None) as (s2 & Hs2 & Ht & _); [|done|].
    + exact (reach_ok _ _ Hf (reach_trans _ _ _ _ Hsr Hs1)).
    + exists s2. split; [by eapply reach_trans|done].
  - intros id x s' Hid. apply awaited_act; [done| |apply Hat|done].
    exact (in_account_fresh _ (accounted_reach _ _ Hf Hm Hsr Hb)).
Qed.

(** What is left of [Close] at its [select] and after that. *)
Definition closing (err : option error) : code value :=
  (yield;; atomic (on_subs sub_close);; match err with Some err => raise err | None => mret tt end);; mret VUnit.
Definition offered : code value :=
  (err ← select (λ w, match w with WakeQuit => quit_take | _ => block end);
   yield;; atomic (on_subs sub_close);; match err with Some err => raise err | None => mret tt end);; mret VUnit.

Lemma run_step i o p p' c c' r ts : ts !! i = Some (o, p) -> resume p c (p', c') ->
  reach sys_step (Sys c r ts) (Sys c' r (<[i := (o, p')]> ts)).
Proof. intros Hi Hr. by eapply reach_act, sy_run. Qed.

(** With the error channel handed over, the receiver on its way out lets [Close] return. *)
Lemma close_returns c ts i o : conn_ok c -> c_quit c = QuitWaiting -> c_term c = true -> ts !! i = Some (o, offered) ->
  exists s' : sys, reach sys_step (Sys c (Ending (yield;; select (λ _, conn_syncQuit None))) ts) s' /\
    s_threads s' !! i = Some (o, Ret (Ok VUnit)) /\ c_term (s_conn s') = true.
Proof.
  intros Hc Hq Ht Hi. pose proof (lookup_lt_Some _ _ _ Hi) as Hlt.
  set (c1 := set_quit (QuitDone None) c). set (c2 := set_quit QuitTaken c1).
  assert (conn_ok c2) as Hc2 by (by do 2 apply conn_ok_quit).
  set (c3 := snd (on_subs sub_close c2)).
  assert (on_subs sub_close c2 = (Ok tt, c3)) as E3.
  { unfold c3, on_subs. rewrite lift_eq. cbn [snd]. by rewrite (proj1 (sub_close_ok _ (co_subs _ Hc))). }
  exists (Sys c3 (Ending (Ret (Ok tt))) (<[i := (o, Ret (Ok VUnit))]> (<[i := (o, closing None)]> ts))).
  split_and!; [|simpl; by rewrite list_lookup_insert_eq by (by rewrite length_insert)|simpl; unfold c3, on_subs; by rewrite lift_eq].
  eapply reach_trans; [eapply reach_act, (sy_down _ (select (λ _, conn_syncQuit None)) c c), (resume_go (select (λ _, conn_syncQuit None))); reflexivity|].
  eapply reach_trans; [eapply reach_act, (sy_down _ (Ret (Ok tt)) c c1)|].
  { exists WakeQuit. unfold conn_syncQuit. by rewrite Hq. }
  eapply reach_trans; [apply (run_step i o offered (closing None) c1 c2); [done|by exists WakeQuit]|].
  apply (run_step i o (closing None) (Ret (Ok VUnit)) c2 c3); [by rewrite list_lookup_insert_eq|].
  cbn [resume]. unfold closing. simpl. by rewrite E3.
Qed.

(** From its start, where the receiver is in its loop and nobody else has closed. *)
Lemma close_runs (s : sys) i : sys_ok s -> s_recv s = Listening -> c_quit (s_conn s) = QuitIdle ->
  s_threads s !! i = Some (spawn (OApi AClose)) ->
  exists (s' : sys) r, reach sys_step s s' /\ s_threads s' !! i = Some (OApi AClose, Ret r) /\
    ((exists e, fst (on_sock sendClose (s_conn s)) = Err e /\ r = Err e) \/ (r = Ok VUnit /\ c_term (s_conn s') = true)).
Proof.
  destruct s as [c r ts]. intros Hok Hl Hq Hi. simpl in Hl, Hq, Hi. subst r. pose proof (lookup_lt_Some _ _ _ Hi) as Hlt.
  destruct (stretch_sock (λ _, True) sendClose sendClose_tamed c (sk_conn _ Hok) I) as (Hret & Hc1 & _).
  set (c1 := snd (on_sock sendClose c)) in *. assert (c_quit c1 = QuitIdle) as Hq1 by (unfold c1, on_sock; by rewrite lift_eq).
  destruct (fst (on_sock sendClose c)) as [[]|e|y| |] eqn:Eo; try done.
  - assert (on_sock sendClose c = (Ok tt, c1)) as E by (by rewrite (surjective_pairing (on_sock sendClose c)), Eo).
    set (c2 := set_quit QuitWaiting c1).
    set (p1 := (yield;; atomic quit_offer;; err ← select (λ w, match w with WakeQuit => quit_take | _ => block end);
      yield;; atomic (on_subs sub_close);; match err with Some err => raise err | None => mret tt end);; mret VUnit : code value).
    assert (reach sys_step (Sys c Listening ts) (Sys c2 Listening (<[i := (OApi AClose, offered)]> (<[i := (OApi AClose, p1)]> ts)))) as Hr.
    { eapply reach_trans; [apply (run_step i (OApi AClose) (Yield (start (OApi AClose))) p1 c c1); [exact Hi|]|].
      - simpl. by rewrite E.
      - apply (run_step i (OApi AClose) p1 offered c1 c2); [by rewrite list_lookup_insert_eq|]. simpl. by rewrite Hq1. }
    set (ts2 := <[i := (OApi AClose, offered)]> (<[i := (OApi AClose, p1)]> ts)) in *.
    assert (sys_ok (Sys c2 Listening ts2)) as Hok2 by (by eapply (reach_invariant _ sys_ok); [exact Hok|apply sys_ok_step|exact Hr]).
    destruct (can_end _ None Hok2 eq_refl) as ([c3 r3 ts3] & Hr3 & Ht3 & Ets & _ & Eq3 & Er3). simpl in *. subst r3 ts3.
    assert (sys_ok (Sys c3 (Ending (yield;; select (λ _, conn_syncQuit None))) ts2)) as Hok3
      by (by eapply (reach_invariant _ sys_ok); [exact Hok2|apply sys_ok_step|exact Hr3]).
    destruct (close_returns c3 ts2 i (OApi AClose)) as (s' & Hs' & Hi' & Ht'); [apply Hok3|done|done| |].
    { unfold ts2. by rewrite list_lookup_insert_eq by (by rewrite length_insert). }
    exists s', (Ok VUnit). split_and!; [|done|by right]. by eapply reach_trans; [|eapply reach_trans].
  - exists (Sys c1 Listening (<[i := (OApi AClose, Ret (Err e))]> ts)), (Err e).
    split_and!; [|by apply list_lookup_insert_eq|left; by exists e].
    apply (run_step i (OApi AClose) (Yield (start (OApi AClose)))); [exact Hi|]. simpl. rewrite (surjective_pairing (on_sock sendClose c)), Eo. done.
Qed.


(** A result that nobody has asked for, or that has been answered before, stops the
    receiver for good: it goes on waiting for somebody to take it whatever happens. *)
Lemma late_result_freezes (s0 s s' : sys) id l : fresh s0 -> newly_made (s_conn s0) -> reach sys_step s0 s ->
  handing id (s_recv s) -> account s l -> unclaimed id (s_conn s) l ->
  reach sys_step s s' -> Z.of_nat (length (s_threads s')) < 2 ^ 63 -> s_recv s' = s_recv s.
Proof.
  intros Hf Hm Hr Hh Hac Hu Hr' Hb.
  assert (poised (s_recv s)) as Hpo by (destruct Hh as [init E]; rewrite E; right; exists id; by exists init).
  assert (s_recv s' = s_recv s /\ exists l', account s' l' /\ unclaimed id (s_conn s') l') as [? _]; [|done].
  induction Hr' as [|s1 s2 Hr' IH [x Hx]]; [split; [done|by exists l]|].
  pose proof (more_threads _ _ _ Hx). assert (Z.of_nat (length (s_threads s1)) < 2 ^ 63) as Hb1 by lia.
  destruct (IH Hb1) as (E & l1 & Hac1 & Hu1). assert (reach sys_step s0 s1) as Hr1 by (by eapply reach_trans).
  destruct (account_act x s1 s2 l1 (reach_ok _ _ Hf Hr1)) as (l2 & [Hac2 _ _ _ Hu2]); [|by rewrite E|done|done|].
  { exact (in_account_fresh _ (accounted_reach _ _ Hf Hm Hr1 Hb1)). }
  split; [|exists l2; auto]. destruct Hh as [init Hh]. rewrite <- E in Hh. rewrite <- E. clear E.
  destruct Hx as [| | | | | |p q c c' ts Hp He Er|q q' c c' ts Er| | |]; simpl in *; try done. exfalso. injection Hh as ->.
  destruct Er as (w & Hbl & _). apply Hbl. unfold on_tuns. rewrite lift_eq. unfold tun_sendInit.
  rewrite decide_False; [done|]. apply (uc_wait _ _ _ Hu1).
Qed.
End listening.

(** A tunnel has been asked for; its confirmation arrives before the call has entered
    its [select]. *)
Definition sample_asking : sys (Q := list slice) (P := list_pool) (TH := nat) :=
  advance WakeInit 0%nat (advance WakeInit 0%nat (call (H := amd64) (ATunnel (str "cluster") 5000000) sample_sys)).
Definition sample_confirmed := arrive (H := amd64) (ITunResult 0 1024) sample_asking.

Lemma sample_asking_awaited : @awaited amd64 _ _ _ _ _ 0 sample_asking.
Proof.
  assert (tunWait (c_tuns (s_conn sample_asking)) = ∅ /\ tunInit (c_tuns (s_conn sample_asking)) = ∅ /\
    known 0 (s_conn sample_asking)) as (Ew & Ei & Hk) by (split; [reflexivity|split; [reflexivity|by eexists]]).
  exists [StAsked 0], 0%nat, (StAsked 0). split; [|by split_and!; [|left|rewrite Ei]]. split.
  { constructor; [|constructor]. by apply (as_asked _ 0). }
  split.
  - intros [|i] [|j]; by intros.
  - intros [|i] a [= <-]. cbn [stage_ok]. rewrite Ew, Ei. by split; [apply not_elem_of_empty|].
  - by intros [|i] a id [= <-] [= <-].
  - intros id. rewrite Ew, Ei, lookup_empty. by intros [?%not_elem_of_empty|[? ?]].
Qed.

Lemma sample_confirmed_reach : reach (@polite_step amd64 _ _ _ _ _) sample_sys sample_confirmed.
Proof.
  assert (quietly (H := amd64) sample_sys sample_asking) as Hq.
  { eapply reach_trans; [|apply advance_quietly]. eapply reach_trans; [|apply advance_quietly].
    apply call_quietly; [vm_compute; congruence|done]. }
  eapply reach_trans; [by apply (quietly_polite (H := amd64))|].
  destruct (arrive_acts (H := amd64) (ITunResult 0 1024) sample_asking) as (s & Ha & Hq'); [done|by split; vm_compute|by split; vm_compute|].
  eapply reach_trans; [|by apply (quietly_polite (H := amd64))]. apply reach_one. exists (Some (ITunResult 0 1024)).
  split; [exact Ha|]. intros p id [= <-] [= <-]. apply sample_asking_awaited.
Qed.

Lemma receiver_never_stuck_witness : exists n s,
  nsteps (@sys_act amd64 _ _ _ _ _ None) n sample_confirmed s /\ s_recv s = Listening.
Proof.
  destruct (@receiver_never_stuck amd64 _ _ _ _ _ sample_sys sample_confirmed sample_fresh sample_made
    sample_confirmed_reach ltac:(vm_compute; reflexivity)) as (Hb & _).
  destruct (Hb _ eq_refl) as (n & s & _ & Hn & Hl). exists n, s. split; [exact Hn|exact Hl].
Defined.


(** A confirmation comes twice: the second one stops the receiver. *)
Definition sample_stopped := arrive (H := amd64) (ITunResult 0 1024) sample_tunnelled.

Lemma sample_stopped_history : history (H := amd64) sample_sys [ITunResult 0 1024; ITunResult 0 1024] sample_stopped.
Proof.
  assert (s_recv sample_tunnelled = Listening) as Hl by (vm_compute; reflexivity).
  assert (@in_ok amd64 (ITunResult 0 1024)) as Hp by (split; split; first [lia|reflexivity]).
  assert (expected (H := amd64) (ITunResult 0 1024) (s_conn sample_tunnelled)) as He by (split; vm_compute; reflexivity).
  exact (arrive_history (H := amd64) sample_sys [ITunResult 0 1024] _ _ Hl Hp He sample_tunnelled_history).
Qed.

Lemma watch_over `{GoRuntime} {Q P TH} `{Queue slice Q} `{ThreadPool P} (c : Connection Q P TH) id b : tunWait (c_tuns c) = ∅ ->
  tunInit (c_tuns c) = {[id := b]} -> known id c -> watch c [StPast] /\ unclaimed id c [StPast].
Proof.
  intros Ew Ei Hk. split; (split; [..|]).
  - intros [|i] [|j]; by intros.
  - by intros [|i] a [= <-].
  - by intros [|i] a j [= <-].
  - intros j. rewrite Ew, Ei. intros [Hj|[x Hj]]; [by apply not_elem_of_empty in Hj|].
    by apply lookup_singleton_Some in Hj as [<- _].
  - done.
  - rewrite Ew. apply not_elem_of_empty.
  - by intros [|i] a [= <-].
Qed.

Example sample_stops_for_good s : reach (@sys_step amd64 _ _ _ _ _) sample_stopped s ->
  Z.of_nat (length (s_threads s)) < 2 ^ 63 -> s_recv s = s_recv sample_stopped.
Proof.
  assert (s_threads sample_stopped = [(OApi (ATunnel (str "cluster") 5000000), Ret (Ok (VTunnel 0)))]) as Ets
    by (vm_compute; reflexivity).
  destruct (watch_over (H := amd64) (s_conn sample_stopped) 0 true) as [Hw Hu];
    [vm_compute; reflexivity|vm_compute; reflexivity|vm_compute; eexists; reflexivity|].
  apply (late_result_freezes (H := amd64) sample_sys sample_stopped s 0 [StPast] sample_fresh sample_made).
  - exact (history_reach (H := amd64) _ _ _ sample_stopped_history).
  - exists true. vm_compute. reflexivity.
  - split; [rewrite Ets; constructor; [by apply as_past|constructor]|exact Hw].
  - exact Hu.
Qed.
