(* ===== verification/Receiving.v ===== *)
(** * Receiving on the tunnels of a connection

    [Recv] in the system of System.v: while one goroutine at a time receives on a
    tunnel, and the relay sends no empty chunk, it returns the messages that are
    queued, is not left asleep beside one, and never panics. *)

From Stdlib Require Import ZArith Lia Strings.Byte Strings.String.
From stdpp Require Import base gmap strings list relations.
From S2P Require Import Prelude Threads Bufio Wire Packets Receiver Tunnel TunnelFlow TunnelSync Limits Quota.
From S2P Require Import Topic Requests Tunnels Connection Events Service Safety System Footprint Making Steady Tunnelled.

Open Scope Z_scope.

Section receiving.
Context `{GoRuntime} {Q : Type} `{Queue slice Q} {P : Type -> Type} `{ThreadPool P} {TH : Type}.
Local Abbreviation Connection := (Connection Q P TH).
Local Abbreviation code := (prog Connection cwake).
Local Abbreviation origin := (origin (TH := TH)).
Local Abbreviation sys := (sys (Q := Q) (P := P) (TH := TH)).
Implicit Types (c : Connection) (s : tuns (Q := Q)) (t : Tunnel Q).

(** ** Who touches the messages *)

(** The tunnels are the same ones, with what has arrived on them. *)
Definition inboxes s : gmap Z (Q * bool) := inbox <$> tunnels s.
Definition kept c c' : Prop := steady inboxes c c'.

Lemma inboxes_put id t t' s : tunnels s !! id = Some t -> inbox t' = inbox t -> inboxes (put_tunnel id t' s) = inboxes s.
Proof. intros Ht E. unfold inboxes. simpl. rewrite fmap_insert, E. apply insert_id. by rewrite lookup_fmap, Ht. Qed.

Lemma inboxes_live s l : inboxes (Tuns (tunIdx s) l (tunnels s) (tunWait s) (tunInit s)) = inboxes s.
Proof. done. Qed.

Lemma kept_lookup c c' id t : kept c c' -> tunnels (c_tuns c) !! id = Some t ->
  exists t', tunnels (c_tuns c') !! id = Some t' /\ inbox t' = inbox t.
Proof.
  intros E Ht. pose proof (f_equal (λ m, m !! id) E) as El. unfold inboxes in El. simpl in El.
  rewrite !lookup_fmap, Ht in El. destruct (tunnels (c_tuns c') !! id) as [t'|]; [|done].
  exists t'. split; [done|]. by apply (inj Some) in El.
Qed.

Lemma kept_back c c' id t' : kept c c' -> tunnels (c_tuns c') !! id = Some t' ->
  exists t, tunnels (c_tuns c) !! id = Some t /\ inbox t' = inbox t.
Proof. intros E Ht. destruct (kept_lookup c' c id t') as (t & ? & ?); [by symmetry|done|]. by exists t. Qed.

Lemma select_kept id : always kept (initTunnel_select id : code unit).
Proof.
  apply always_bind; [by apply always_atomic, steady_tuns|intros _]. unfold initTunnel_wait.
  apply always_bind; [|intros []; [apply always_bind; [done|intros _]; apply always_atomic; intros c; apply steady_sock|done]].
  apply always_select. intros [] c; try done; unfold initTunnel_ready.
  - rewrite bind_eq. cbn [gets]. destruct (tunInit _ !! _); [done|]. unfold recv_term. rewrite bind_eq.
    destruct (c_term c); [|done]. rewrite bind_eq. pose proof (steady_tuns inboxes (tun_unwait id) ltac:(done) c) as Hk.
    by destruct (on_tuns _ c) as [[] c'].
  - rewrite bind_eq. cbn [gets]. by destruct (tunInit _ !! _).
Qed.

(** A goroutine that makes a tunnel does so at its start, if at all. *)
Lemma maker_starts o c p' c' : maker o = true -> run_on (start o) c = (p', c') -> always kept p' /\
  (c' = c \/ exists id, newTunnel (c_tuns c) = (Ok id, c_tuns c')).
Proof.
  intros Hm Hr. destruct o as [[]|[]| | | |]; try discriminate.
  - cbn [start run_api] in Hr. unfold conn_Tunnel, initTunnel in Hr.
    repeat (case_decide || case_test); try (injection Hr as <- <-; split; [done|by left]).
    cbv [run_on mbind prog_bind pbind atomic] in Hr.
    destruct (newTunnel_cases c) as [(i & s' & En & E)|E]; rewrite E in Hr; injection Hr as <- <-; (split; [|eauto]); [|done].
    assert (always kept (yield;; conclude i (atomic (on_sock (sendTunnelInit i cluster (timeout_ms timeout)));; yield;; initTunnel_select i))) as Hk.
    { apply always_bind; [done|intros _]. apply conclude_steady; [done|]. apply always_bind; [apply always_atomic; intros d; apply steady_sock|intros _].
      apply always_bind; [done|intros _]. apply select_kept. }
    exact Hk.
  - rewrite accept_serving in Hr. cbv [run_on mbind prog_bind pbind atomic serving catch] in Hr.
    destruct (newTunnel_cases c) as [(i & s' & En & E)|E]; rewrite E in Hr; injection Hr as <- <-; (split; [|eauto]); [|done].
    assert (always kept (serving (accepting id i chunkLimit) : code value)) as Hk by (by apply serving_steady, (accepting_steady inboxes inboxes_live inboxes_put)).
    exact Hk.
Qed.

Lemma receive_kept p : is_transfer p = false -> always kept (receive p : code unit).
Proof.
  intros Ht. destruct (result_of p) eqn:Hp; [|by apply (receive_steady inboxes inboxes_put)].
  assert (exists id n, receive p = (receive_result id n : code unit)) as (id & n & ->) by (destruct p; try discriminate; by do 2 eexists).
  apply always_bind; [apply always_atomic, steady_tuns; intros s; apply (unmoved_lookup inboxes inboxes_put)|intros b].
  apply always_select. intros _. apply steady_tuns. intros s. unfold tun_sendInit. by case_decide.
Qed.

(** ** A call of [Recv] *)

(** The queued messages. *)
Definition items t : list slice := queue_items (t_itoaBuf t).

Definition all_messages c : Prop := forall id t, tunnels (c_tuns c) !! id = Some t -> messages_ok t.

Lemma on_tunnel_eq {A} id (m : M (tstate Q) A) c t o x : tunnels (c_tuns c) !! id = Some t ->
  m (TS t (c_link c) []) = (o, x) ->
  exists c', on_tunnel id m c = (o, c') /\ tunnels (c_tuns c') = <[id := ts_tun x]> (tunnels (c_tuns c)).
Proof. intros Ht E. unfold on_tunnel. rewrite Ht, E. by eexists. Qed.

(** Fetching takes the first message, or clears the signal. *)
Lemma fetch_on id c t : tunnels (c_tuns c) !! id = Some t -> messages_ok t ->
  exists c' t', tunnels (c_tuns c') = <[id := t']> (tunnels (c_tuns c)) /\ messages_ok t' /\
    ((exists m, items t = Some m :: items t' /\ on_tunnel id fetchMessage c = (Ok (Some m), c')) \/
     (items t = [] /\ items t' = [] /\ t_itoaSign t' = false /\ on_tunnel id fetchMessage c = (Ok None, c'))).
Proof.
  intros Ht [Hm]. unfold items. destruct (queue_items (t_itoaBuf t)) as [|x rest] eqn:Eq.
  - destruct (on_tunnel_eq id fetchMessage c t _ _ Ht (fetchMessage_nil t (c_link c) [] Eq)) as (c' & E & Et).
    exists c'. eexists. split; [exact Et|]. simpl. rewrite Eq. split; [split; simpl; by rewrite Eq|by right].
  - destruct (fetchMessage_cons t (c_link c) [] x rest Eq) as (q & Hq & Ef).
    destruct (on_tunnel_eq id fetchMessage c t _ _ Ht Ef) as (c' & E & Et). exists c'. eexists. split; [exact Et|]. simpl.
    apply Forall_cons in Hm as [[m ->] Hm]. split; [split; simpl; by rewrite Hq|]. left. exists m. by rewrite Hq.
Qed.

(** [Recv] in its [select], and past it with the signal in hand. *)
Definition waiting (id timeout : Z) : code value := r ← tunnel_call id (Recv_wait timeout); mret (VBytes r).
Definition woken (id : Z) : code value :=
  r ← tunnel_call id
    (yield;;
     msg ← atomic fetchMessage;
     match msg with
     | Some _ => mret msg
     | None => crash "signal raised but message unavailable"
     end);
  mret (VBytes r).

(** What [Recv] may return. *)
Definition received (r : outcome value) : Prop :=
  (exists m, r = Ok (VBytes (Some m))) \/ r = Err ErrClosed \/ r = Err ErrTimeout.

(** Where a call is: waiting it has its signal exactly when there is a message, woken
    there is one. *)
Inductive at_recv c (id timeout : Z) : code value -> Prop :=
| rc_start : known id c -> at_recv c id timeout (Yield (start (OApi (ARecv id timeout))))
| rc_wait t : tunnels (c_tuns c) !! id = Some t -> t_itoaSign t = bool_decide (items t <> []) ->
    at_recv c id timeout (waiting id timeout)
| rc_woken t : tunnels (c_tuns c) !! id = Some t -> items t <> [] -> at_recv c id timeout (woken id)
| rc_done r : received r -> at_recv c id timeout (Ret r).

(** The tunnel [id] is another, the others are the same. *)
Definition changes (id : Z) c c' : Prop := exists t t', tunnels (c_tuns c) !! id = Some t /\ messages_ok t' /\
  tunnels (c_tuns c') = <[id := t']> (tunnels (c_tuns c)).

Lemma recv_act c id timeout p p' c' : at_recv c id timeout p -> all_messages c -> resume p c (p', c') ->
  at_recv c' id timeout p' /\ changes id c c'.
Proof.
  intros Hp Hm Hr. destruct Hp as [[t Ht]|t Ht Hs|t Ht Hi|r Hd]; [| | |done].
  - destruct (fetch_on id c t Ht (Hm _ _ Ht)) as (c1 & t1 & Et & Hm1 & Hc). simpl in Hr.
    destruct Hc as [(m & _ & E)|(_ & Hi & Hs & E)]; rewrite E in Hr; simpl in Hr; injection Hr as -> ->.
    + split; [apply rc_done; left; by exists m|by exists t, t1].
    + split; [|by exists t, t1]. apply (rc_wait c1 id timeout t1); [by rewrite Et, lookup_insert_eq|]. by rewrite Hs, Hi.
  - destruct Hr as (w & Hb & Hr). destruct (tunnel_case w) as [w'|] eqn:Ew; [|by destruct Hb].
    pose proof (Hm _ _ Ht) as Hmt.
    destruct (Recv_select timeout w' (TS t (c_link c) [])) as [o x] eqn:Es.
    destruct (on_tunnel_eq id (Recv_select timeout w') c t o x Ht Es) as (c1 & E & Et). rewrite E in Hb, Hr. simpl in Hb, Hr.
    assert (o = Ok tt /\ t_itoaSign t = true /\ ts_tun x = take_itoaSign t \/ (o = Err ErrClosed \/ o = Err ErrTimeout) /\ ts_tun x = t)
      as [(-> & Hsg & Ex)|[Ho Ex]].
    { revert Es Hb. destruct w'; simpl; unfold on_tun, recv_tunTerm, recv_itoaSign; rewrite ?bind_eq; cbn [ts_tun ts_link ts_go].
      - destruct (t_term t); intros [= <- <-] Hb; [right; auto|done].
      - destruct (negb _); intros [= <- <-] Hb; [right; auto|done].
      - destruct (t_itoaSign t); intros [= <- <-] Hb; [by left|done]. }
    + simpl in Hr. injection Hr as -> ->. split; [|exists t, (take_itoaSign t); rewrite Et, Ex; split_and!; [done|by destruct Hmt|done]].
      apply (rc_woken c1 id timeout (take_itoaSign t)); [by rewrite Et, Ex, lookup_insert_eq|].
      rewrite Hsg in Hs. symmetry in Hs. by apply bool_decide_eq_true in Hs.
    + assert (at_recv c1 id timeout (Ret (Err ErrClosed)) /\ at_recv c1 id timeout (Ret (Err ErrTimeout))) as [H1' H2']
        by (split; apply rc_done; right; auto).
      assert (changes id c c1) as Hch by (exists t, t; by rewrite Et, Ex).
      destruct Ho as [->| ->]; by injection Hr as -> ->.
  - destruct (fetch_on id c t Ht (Hm _ _ Ht)) as (c1 & t1 & Et & Hm1 & Hc). simpl in Hr.
    destruct Hc as [(m & _ & E)|(Hn & _)]; [|done]. rewrite E in Hr. simpl in Hr. injection Hr as -> ->.
    split; [apply rc_done; left; by exists m|by exists t, t1].
Qed.

(** ** What the others do to it *)

(** A tunnel with more on it: a message stays, and the signal exact. *)
Definition heeds t t' : Prop := (items t <> [] -> items t' <> []) /\
  (t_itoaSign t = bool_decide (items t <> []) -> t_itoaSign t' = bool_decide (items t' <> [])).

Definition proceeds c c' : Prop := (all_messages c -> all_messages c') /\
  forall id t, tunnels (c_tuns c) !! id = Some t -> exists t', tunnels (c_tuns c') !! id = Some t' /\ heeds t t'.

Lemma inbox_heeds t t' : inbox t' = inbox t -> heeds t t'.
Proof. unfold heeds, items. intros [= -> ->]. done. Qed.

Lemma kept_proceeds c c' : kept c c' -> proceeds c c'.
Proof.
  intros Hk. split.
  - intros Hm id t' Ht'. destruct (kept_back c c' id t' Hk Ht') as (t & Ht & [= E _]). destruct (Hm id t Ht) as [Hq].
    split. by rewrite E.
  - intros id t Ht. destruct (kept_lookup c c' id t Hk Ht) as (t' & Ht' & E). exists t'. split; [done|by apply inbox_heeds].
Qed.

Lemma new_proceeds id c c' : newTunnel (c_tuns c) = (Ok id, c_tuns c') -> ~ known (tunIdx (c_tuns c)) c -> proceeds c c'.
Proof.
  unfold newTunnel. destruct (tunLive (c_tuns c)) as [live|]; [|done]. intros [= <- E] Hn. unfold proceeds, all_messages.
  rewrite <- E. simpl. split.
  - intros Hm id t [[_ <-]|[_ Ht]]%lookup_insert_Some; [|by apply (Hm id)]. split. simpl. by rewrite queue_New_items.
  - intros id t Ht. exists t. rewrite lookup_insert_ne; [done|]. intros <-. by destruct Hn; eexists.
Qed.

Lemma put_proceeds id c c' t t' : tunnels (c_tuns c) !! id = Some t ->
  tunnels (c_tuns c') = <[id := t']> (tunnels (c_tuns c)) -> (messages_ok t -> messages_ok t') -> heeds t t' -> proceeds c c'.
Proof.
  intros Ht E Hmt Hh. unfold proceeds, all_messages. rewrite E. split.
  - intros Hm i ti [[_ <-]|[_ Hi]]%lookup_insert_Some; [by apply Hmt, (Hm id)|by apply (Hm i)].
  - intros i ti Hi. destruct (decide (i = id)) as [->|Hne]; [|exists ti; by rewrite lookup_insert_ne].
    rewrite Hi in Ht. injection Ht as ->. exists t'. by rewrite lookup_insert_eq.
Qed.

(** A chunk arrives. *)
Lemma transferred_heeds tag d t : d <> [] -> (messages_ok t -> messages_ok (transferred tag d t)) /\ heeds t (transferred tag d t).
Proof.
  intros Hd. unfold heeds, items.
  destruct (transferred_queue tag d t Hd) as [[Eq Es]|(m & Eq & Es)]; (split; [intros [Hq]; split|]); rewrite Eq, ?Es; try done.
  - apply Forall_app. split; [done|]. by repeat constructor.
  - assert (queue_items (t_itoaBuf t) ++ [Some m] <> []) as Hne by (by destruct (queue_items (t_itoaBuf t))).
    split; [done|]. intros _. symmetry. by apply bool_decide_eq_true_2.
Qed.

Lemma transfer_proceeds id n d c q c' : conn_ok c -> expected (ITunTransfer id n d) c -> d <> [] ->
  run_on (receive (ITunTransfer id n d)) c = (q, c') -> proceeds c c' /\ always kept q.
Proof.
  intros Hc He Hd. cbn [receive deliver handleTunnelTransfer conn_handlers].
  assert (exists c1, conn_handleTunnelTransfer id (i64 n) d c = (Ok tt, c1) /\ proceeds c c1) as (c1 & E & Hp).
  { unfold conn_handleTunnelTransfer. rewrite bind_eq. cbn [gets].
    destruct (is_live id (c_tuns c)) eqn:Hl; [|exists c; split; [done|by apply kept_proceeds]].
    destruct (to_live _ (co_tuns _ Hc) id Hl) as (t & Ht & _).
    destruct (on_tunnel_eq id (handleTransfer (i64 n) d) c t _ _ Ht (handleTransfer_eq (i64 n) d t _ _ (He Hl))) as (c1 & E & Et).
    exists c1. split; [done|]. destruct (transferred_heeds (i64 n) d t Hd). by apply (put_proceeds id c c1 t (transferred (i64 n) d t)). }
  rewrite run_on_atomic; rewrite E; [|done]. by intros [= <- <-].
Qed.

Lemma proceeds_at_recv c c' id timeout p : proceeds c c' -> at_recv c id timeout p -> at_recv c' id timeout p.
Proof.
  intros [_ Hp] [[t Ht]|t Ht Hs|t Ht Hi|r Hr]; [..|by apply rc_done]; destruct (Hp id t Ht) as (t' & Ht' & H1' & H2').
  - apply rc_start. by exists t'.
  - apply (rc_wait c' id timeout t'); auto.
  - apply (rc_woken c' id timeout t'); auto.
Qed.

Lemma changes_at_recv c c' id i timeout p : changes id c c' -> i <> id -> at_recv c i timeout p -> at_recv c' i timeout p.
Proof.
  intros (t & t' & Ht & Hm' & E) Hne Hp. destruct Hp as [[u Hu]|u Hu Hs|u Hu Hi|r Hr]; [..|by apply rc_done].
  - apply rc_start. unfold known. by rewrite E, lookup_insert_ne.
  - apply (rc_wait c' i timeout u); [by rewrite E, lookup_insert_ne|done].
  - apply (rc_woken c' i timeout u); [by rewrite E, lookup_insert_ne|done].
Qed.

Lemma changes_messages c c' id : changes id c c' -> all_messages c -> all_messages c'.
Proof.
  intros (t & t' & Ht & Hm' & E) Hm i u. rewrite E. intros [[_ <-]|[_ Hu]]%lookup_insert_Some; [done|by apply (Hm i)].
Qed.

(** ** In the system *)

(** What a goroutine is up to: receiving, or nothing that touches the messages except
    making a tunnel. *)
Definition recv_ok c (x : origin * code value) : Prop :=
  match fst x with
  | OApi (ARecv id timeout) => at_recv c id timeout (snd x)
  | o => always kept (snd x) \/ (maker o = true /\ snd x = Yield (start o))
  end.

(** Two goroutines that receive on one tunnel: one of them has returned. *)
Definition one_recv (s : sys) : Prop := forall i j id u v p q,
  s_threads s !! i = Some (OApi (ARecv id u), p) -> s_threads s !! j = Some (OApi (ARecv id v), q) ->
  i = j \/ (exists r, p = Ret r) \/ exists r, q = Ret r.

(** A step while one goroutine at a time receives on a tunnel, of a relay that sends
    no empty chunk. *)
Definition orderly_step (s s' : sys) : Prop :=
  exists l, sys_act l s s' /\ (forall id n, l <> Some (ITunTransfer id n [])) /\ one_recv s.

Definition receiver_kept (r : receiver (Q := Q) (P := P) (TH := TH)) : Prop :=
  match r with Listening => True | Handling q | Ending q => always kept q end.

Record orderly (s : sys) : Prop := {
  or_messages : all_messages (s_conn s);
  or_threads : Forall (recv_ok (s_conn s)) (s_threads s);
  or_recv : receiver_kept (s_recv s)
}.

Lemma recv_ok_other c c' x : recv_of (fst x) = None -> recv_ok c x -> recv_ok c' x.
Proof. by destruct x as [[[]| | | | |] p]. Qed.

Lemma recv_ok_proceeds c c' x : proceeds c c' -> recv_ok c x -> recv_ok c' x.
Proof.
  intros Hp. destruct x as [o p]. destruct (recv_of o) eqn:Ho; [|by apply recv_ok_other].
  destruct o as [[]| | | | |]; try discriminate. by apply proceeds_at_recv.
Qed.

Lemma spawn_recv_ok c (o : origin) : (forall id n, o = OApi (ARecv id n) -> known id c) -> recv_ok c (spawn o).
Proof.
  intros Hk. destruct (recv_of o) eqn:Hr; [destruct o as [[]| | | | |]; try discriminate; by apply rc_start, (Hk _ _ eq_refl)|].
  assert (always kept (snd (spawn o)) \/ (maker o = true /\ snd (spawn o) = Yield (start o))) as Hx.
  { destruct (maker o) eqn:Hm; [by right|left]. by apply (start_steady inboxes inboxes_live inboxes_put). }
  by destruct o as [[]| | | | |]; try discriminate.
Qed.

Lemma orderly_on c c' r r' ts : proceeds c c' -> receiver_kept r' -> orderly (Sys c r ts) -> orderly (Sys c' r' ts).
Proof.
  intros Hp Hr [Hm Ht _]. split; [by apply Hp| |done].
  eapply Forall_impl; [exact Ht|]. intros x. by apply recv_ok_proceeds.
Qed.

Lemma orderly_spawn c c' r ts (o : origin) : kept c c' -> (forall id n, o = OApi (ARecv id n) -> known id c') ->
  orderly (Sys c r ts) -> orderly (Sys c' r (ts ++ [spawn o])).
Proof.
  intros Hk Ho Hs. destruct (orderly_on c c' r r ts (kept_proceeds _ _ Hk) (or_recv _ Hs) Hs) as [Hm Ht Hr].
  split; [done| |done]. apply Forall_app. split; [done|]. constructor; [|done]. by apply spawn_recv_ok.
Qed.

(** A goroutine goes on. *)
Lemma recv_runs c r ts i id n p p' c' : orderly (Sys c r ts) -> one_recv (Sys c r ts) ->
  ts !! i = Some (OApi (ARecv id n), p) -> resume p c (p', c') ->
  orderly (Sys c' r (<[i := (OApi (ARecv id n), p')]> ts)).
Proof.
  intros [Hm Ht Hr] Hone Hi Hres. simpl in *. pose proof (Forall_lookup_1 _ _ _ _ Ht Hi) as Hp.
  destruct (recv_act c id n p p' c' Hp Hm Hres) as [Hp' Hch]. split; simpl; [by eapply changes_messages| |done].
  apply Forall_lookup. intros j x [(_ & <- & _)|[Hne Hj]]%list_lookup_insert_Some; [done|].
  pose proof (Forall_lookup_1 _ _ _ _ Ht Hj) as Hx. destruct x as [o q].
  destruct (recv_of o) eqn:Ho; [|by apply (recv_ok_other c)]. destruct o as [[]| | | | |]; try discriminate. unfold recv_ok in *. simpl in *.
  destruct (decide (id0 = id)) as [->|Hd]; [|by apply (changes_at_recv c c' id)].
  destruct (Hone i j id n timeout p q Hi Hj) as [->|[[x ->]|[x ->]]]; [done|done|]. inversion Hx; subst; try discriminate. by apply rc_done.
Qed.

Lemma other_runs c r ts i (o : origin) p p' c' : orderly (Sys c r ts) -> recv_of o = None ->
  ~ known (tunIdx (c_tuns c)) c -> ts !! i = Some (o, p) -> resume p c (p', c') ->
  orderly (Sys c' r (<[i := (o, p')]> ts)).
Proof.
  intros Hs Ho Hnew Hi Hres. pose proof (Forall_lookup_1 _ _ _ _ (or_threads _ Hs) Hi) as Hp. simpl in Hp.
  assert (proceeds c c' /\ always kept p') as [Hpr Hk].
  { assert (always kept p \/ (maker o = true /\ p = Yield (start o))) as [Hp'|[Hm ->]] by (by destruct o as [[]| | | | |]).
    - destruct (always_resume kept _ _ _ _ Hp' Hres) as [Hk Hp2]. by split; [apply kept_proceeds|].
    - simpl in Hres. symmetry in Hres. destruct (maker_starts o c p' c' Hm Hres) as [Hk [->|[id E]]]; (split; [|done]);
        [by apply kept_proceeds|by apply (new_proceeds id)]. }
  destruct (orderly_on c c' r r ts Hpr (or_recv _ Hs) Hs) as [Hm Ht Hr]. split; simpl; [done| |done].
  apply Forall_insert; [done|]. destruct o as [[]| | | | |]; try discriminate; by left.
Qed.

Lemma orderly_act (s s' : sys) : sys_ok s -> in_account s -> orderly s -> orderly_step s s' -> orderly s'.
Proof.
  intros Hok Hin Hs (l & Hst & Hl & Hone). pose proof (in_account_fresh s Hin) as Hnew.
  destruct Hst as [a c r ts Ha Hid|g l1 l2 c r ts Eg|job p p' c r ts Ep Ej|e job p p' c r ts Ep Ej
    |i t job p' c r ts Et Ej|i o p p' c c' r ts Ei Er
    |p q c c' ts Hp He Er|q q' c c' ts Er|c ts|err c ts|q q' c c' ts Er]; try (by apply (orderly_spawn c)).
  - apply (orderly_spawn c); [done| |done]. intros id n [= ->]. by apply Hid.
  - destruct (recv_of o) eqn:Ho; [destruct o as [[]| | | | |]; try discriminate; by eapply recv_runs|by eapply other_runs].
  - assert (proceeds c c' /\ always kept q) as [Hpr Hk]; [|by eapply orderly_on].
    destruct (is_transfer p) eqn:Et.
    + destruct p as [| | | | | | | | | |id n d|]; try discriminate. eapply transfer_proceeds; [apply Hok|exact He| |exact Er].
      intros ->. by apply (Hl id n).
    + destruct (always_run_on kept (receive p) c (receive_kept p Et)) as [Hk Hq]. rewrite Er in Hk, Hq.
      split; [by apply kept_proceeds|done].
  - destruct (always_resume kept _ _ _ _ (or_recv _ Hs) Er) as [Hk Hq]. eapply orderly_on; [by apply kept_proceeds|done|exact Hs].
  - by eapply orderly_on; [apply kept_proceeds| |exact Hs].
  - eapply orderly_on; [by apply kept_proceeds|apply (go_down_steady inboxes inboxes_live inboxes_put)|exact Hs].
  - destruct (always_resume kept _ _ _ _ (or_recv _ Hs) Er) as [Hk Hq]. eapply orderly_on; [by apply kept_proceeds|done|exact Hs].
Qed.

Lemma orderly_reach (s0 s : sys) : fresh s0 -> newly_made (s_conn s0) -> reach orderly_step s0 s ->
  Z.of_nat (length (s_threads s)) < 2 ^ 63 -> reach sys_step s0 s /\ orderly s.
Proof.
  intros Hf Hm. induction 1 as [|s s' _ IH Hst]; intros Hb.
  - split; [constructor|]. destruct Hf as (_ & _ & Hr & Hts). split; [|destruct Hts as [->|[h ->]]|by rewrite Hr].
    + intros id t. by rewrite (nm_tuns _ Hm).
    + constructor.
    + constructor; [by apply spawn_recv_ok|constructor].
  - pose proof Hst as (l & Hl & _). pose proof (more_threads _ _ _ Hl). destruct IH as [Hr Ho]; [lia|].
    split; [eapply reach_step; [exact Hr|by exists l]|]. apply (orderly_act s); [by eapply reach_ok| |done..].
    eapply accounted_reach; [done|done|done|lia].
Qed.

(** Beside a message a call that looks, at its start or woken, takes it; one that waits
    is woken by its signal. *)
Lemma recv_takes c id n t m rest p : tunnels (c_tuns c) !! id = Some t -> messages_ok t -> items t = Some m :: rest ->
  p = Yield (start (OApi (ARecv id n))) \/ p = woken id -> exists c', resume p c (Ret (Ok (VBytes (Some m))), c').
Proof.
  intros Ht Hm Hi Hp. destruct (fetch_on id c t Ht Hm) as (c1 & t1 & _ & _ & [(x & Ex & E)|(En & _)]); [|congruence].
  rewrite Hi in Ex. injection Ex as -> _. exists c1. destruct Hp as [->| ->]; simpl; by rewrite E.
Qed.

Lemma recv_wakes c id n t : tunnels (c_tuns c) !! id = Some t -> t_itoaSign t = true ->
  exists c', resume (waiting id n) c (woken id, c') /\ tunnels (c_tuns c') !! id = Some (take_itoaSign t).
Proof.
  intros Ht Hs. assert (Recv_select n WSignal (TS t (c_link c) []) = (Ok tt, TS (take_itoaSign t) (c_link c) [])) as Es
    by (simpl; unfold on_tun, recv_itoaSign; simpl; by rewrite Hs).
  destruct (on_tunnel_eq id _ c t _ _ Ht Es) as (c1 & E & Et). exists c1. split; [|by rewrite Et, lookup_insert_eq].
  exists (WakeTunnel WSignal). simpl in E |- *. by rewrite E.
Qed.

Lemma queued_first t : messages_ok t -> items t <> [] -> exists m rest, items t = Some m :: rest.
Proof.
  unfold items. intros [Hq] Hne. destruct (queue_items (t_itoaBuf t)) as [|x rest]; [done|].
  apply Forall_cons in Hq as [[m ->] _]. by exists m, rest.
Qed.

(** When only one goroutine has ever received on each tunnel, and no empty chunk has
    arrived, all the steps were such ones. *)
Definition recvs (id : Z) (s : sys) : Z := countb (λ o, bool_decide (recv_of o = Some id)) (fst <$> s_threads s).

Lemma recvs_one (s : sys) : (forall id, recvs id s <= 1) -> one_recv s.
Proof.
  intros Hs i j id u v p q Hi Hj. left. destruct (decide (i = j)) as [|Hn]; [done|]. specialize (Hs id).
  assert (2 <= recvs id s); [|lia]. by eapply (countb_two _ _ i j (OApi (ARecv id u)) (OApi (ARecv id v)));
    [|rewrite list_lookup_fmap, Hi|rewrite list_lookup_fmap, Hj|apply bool_decide_eq_true_2..].
Qed.

Lemma recvs_act l (s s' : sys) id : sys_act l s s' -> recvs id s <= recvs id s'.
Proof.
  unfold recvs. set (f := λ o : origin, bool_decide _).
  assert (forall (ts : list (origin * code value)) o, countb f (fst <$> ts) <= countb f (fst <$> ts ++ [spawn o])) as Hmore
    by (intros ts o; rewrite fmap_app, countb_app; pose proof (countb_nonneg f (fst <$> [spawn o])); lia).
  intros Hst. destruct Hst as [| | | | |i o p p' c c' r ts Ei _| | | | |]; cbn [s_threads]; [apply Hmore..| | | | | |]; [|done..].
  rewrite list_fmap_insert, list_insert_id; [done|]. by rewrite list_lookup_fmap, Ei.
Qed.

Lemma history_orderly (s0 s : sys) h : history s0 h s -> (forall id n, ITunTransfer id n [] ∉ h) ->
  (forall id, recvs id s <= 1) -> reach orderly_step s0 s.
Proof.
  induction 1 as [|h l s s' _ IH Hst]; intros Hh Hs; [constructor|].
  assert (forall id, recvs id s <= 1) as Hs' by (intros id; specialize (Hs id); pose proof (recvs_act l s s' id Hst); lia).
  eapply reach_step; [apply IH; [|exact Hs']|exists l; split; [done|split; [|by apply recvs_one]]].
  - intros id n Hin. apply (Hh id n), elem_of_app. by left.
  - intros id n ->. apply (Hh id n), elem_of_app. right. by constructor.
Qed.

Lemma recv_history (s0 s : sys) h id n : known id (s_conn s) -> history s0 h s -> history s0 h (call (ARecv id n) s).
Proof. intros Hk Hh. eapply hist_quiet; [exact Hh|]. destruct s as [c r ts]. apply sy_call; [done|]. by intros i [= <-]. Qed.

(** Beside a message a call can return it, from wherever it is. *)
Definition gets_it (i : nat) (x : origin) (m : list byte) (s : sys) : Prop :=
  exists s' : sys, quietly s s' /\ s_threads s' !! i = Some (x, Ret (Ok (VBytes (Some m)))).

Lemma looks_and_gets c r ts i id n t m rest p : tunnels (c_tuns c) !! id = Some t -> messages_ok t -> items t = Some m :: rest ->
  p = Yield (start (OApi (ARecv id n))) \/ p = woken id -> ts !! i = Some (OApi (ARecv id n), p) ->
  gets_it i (OApi (ARecv id n)) m (Sys c r ts).
Proof.
  intros Ht Hm Hi Hp Hts. destruct (recv_takes c id n t m rest p Ht Hm Hi Hp) as [c' Hres].
  eexists. split; [apply reach_one; by eapply sy_run|]. simpl. by eapply list_lookup_insert_eq, lookup_lt_Some.
Qed.

Lemma recv_gets c r ts i id n t m rest p : tunnels (c_tuns c) !! id = Some t -> messages_ok t -> items t = Some m :: rest ->
  at_recv c id n p -> (forall x, p <> Ret x) -> ts !! i = Some (OApi (ARecv id n), p) ->
  gets_it i (OApi (ARecv id n)) m (Sys c r ts).
Proof.
  intros Ht Hm Hi Hp Hn Hts. inversion Hp as [Hk E|t' Ht' Hs E|t' Ht' Hi' E|x Hx E]; subst p.
  - by eapply (looks_and_gets c r ts i id n t); [..|left|].
  - rewrite Ht in Ht'. injection Ht' as <-. rewrite bool_decide_eq_true_2 in Hs by by rewrite Hi.
    destruct (recv_wakes c id n t Ht Hs) as (c1 & Hres & Ht1).
    destruct (looks_and_gets c1 r (<[i := (OApi (ARecv id n), woken id)]> ts) i id n (take_itoaSign t) m rest (woken id)) as (s' & Hq & E);
      [done|by destruct Hm|done|by right|by eapply list_lookup_insert_eq, lookup_lt_Some|].
    exists s'. split; [|done]. eapply reach_trans; [|exact Hq]. apply reach_one. by eapply sy_run.
  - by eapply (looks_and_gets c r ts i id n t); [..|right|].
  - by destruct (Hn x).
Qed.

(** ** Properties *)

(** C16: [Recv] in a connection in use. While one goroutine at a time receives on a
    tunnel and the relay sends no empty chunk, every [Recv] that ends has a message or
    one of the errors [ErrClosed] and [ErrTimeout], so the panic for a signal without a
    message is out of reach; and a [Recv] that has not ended while a message is queued
    is not left asleep: whatever it was doing, it can return, with the message that has
    been queued the longest. *)
Theorem recv_in_use (s0 s : sys) (i : nat) id n p : fresh s0 -> newly_made (s_conn s0) -> reach orderly_step s0 s ->
  Z.of_nat (length (s_threads s)) < 2 ^ 63 -> s_threads s !! i = Some (OApi (ARecv id n), p) ->
  (forall r, p = Ret r -> received r) /\
  (forall t, (forall r, p <> Ret r) -> tunnels (c_tuns (s_conn s)) !! id = Some t -> items t <> [] ->
    exists m rest, items t = Some m :: rest /\ gets_it i (OApi (ARecv id n)) m s).
Proof.
  intros Hf Hm Hr Hb Hi. destruct (orderly_reach s0 s Hf Hm Hr Hb) as [_ [Hms Ht _]].
  pose proof (Forall_lookup_1 _ _ _ _ Ht Hi) as Hp. change (at_recv (s_conn s) id n p) in Hp. split.
  - intros r ->. by inversion Hp.
  - intros t Hn Hid Hne. destruct (queued_first t (Hms id t Hid) Hne) as (m & rest & Ei). exists m, rest. split; [done|].
    destruct s as [c rc ts]. by apply (recv_gets c rc ts i id n t m rest p); [|apply (Hms id)|..].
Qed.
End receiving.

(** A call waits on a tunnel, and its message arrives. *)
Definition sample_receiving : sys (Q := list slice) (P := list_pool) (TH := nat) :=
  arrive (H := amd64) (ITunTransfer 0 3 [x61; x62; x63])
    (advance WakeInit 1%nat (call (H := amd64) (ARecv 0 0) sample_tunnelled)).

Lemma sample_receiving_history : history (H := amd64) sample_sys [ITunResult 0 1024; ITunTransfer 0 3 [x61; x62; x63]] sample_receiving.
Proof.
  apply (arrive_history (H := amd64) sample_sys [ITunResult 0 1024]); [done|by split; vm_compute|by vm_compute|].
  apply advance_history, recv_history, sample_tunnelled_history. by eexists.
Qed.

Lemma sample_receiving_items : exists t, tunnels (c_tuns (s_conn sample_receiving)) !! 0 = Some t /\ items t = [Some [x61; x62; x63]].
Proof.
  assert (items <$> (tunnels (c_tuns (s_conn sample_receiving)) !! 0) = Some [Some [x61; x62; x63]]) as E by (vm_compute; reflexivity).
  destruct (tunnels (c_tuns (s_conn sample_receiving)) !! 0) as [t|]; [|discriminate E]. injection E as E. by exists t.
Qed.

Lemma recv_in_use_witness : s_threads sample_receiving !! 1%nat = Some (OApi (ARecv 0 0), waiting 0 0) /\
  gets_it (H := amd64) 1 (OApi (ARecv 0 0)) [x61; x62; x63] sample_receiving.
Proof.
  split; [reflexivity|].
  destruct (@recv_in_use amd64 _ _ _ _ _ sample_sys sample_receiving 1 0 0 (waiting 0 0) sample_fresh sample_made)
    as [_ Hg]; [|vm_compute; reflexivity|reflexivity|].
  - eapply history_orderly; [apply sample_receiving_history| |].
    + intros id n. set_solver.
    + intros id. unfold recvs. assert (fst <$> s_threads sample_receiving = [OApi (ATunnel (str "cluster") 5000000); OApi (ARecv 0 0)]) as -> by reflexivity.
      unfold countb, recv_of. case_bool_decide; [done|]. by case_bool_decide.
  - destruct sample_receiving_items as (t & Ht & Hi). assert (items t <> []) as Hne by (by rewrite Hi).
    destruct (Hg t (λ r (E : waiting 0 0 = Ret r), ltac:(vm_compute in E; discriminate E)) Ht Hne) as (m & rest & Em & Hm).
    rewrite Hi in Em. injection Em as <- _. exact Hm.
Defined.
