(* ===== verification/Served.v ===== *)
(** * What the handlers of a connection in use are called with

    Every broadcast, request, event and inbound tunnel that a handler is called with
    has arrived, and for each arrival there is at most one call: in the system of
    System.v an arrival is in one place at a time, a queue, a goroutine or a call. *)

From Stdlib Require Import ZArith Lia Strings.Byte Strings.String.
From stdpp Require Import base gmap strings list relations.
From S2P Require Import Prelude Threads Bufio Wire Packets Receiver Tunnel Limits Quota.
From S2P Require Import Topic Requests Tunnels Connection Events Service Safety System.

Open Scope Z_scope.

(** ** Arrivals *)

(** What an arrival comes to for the application: a tunnel has no content. *)
Inductive item := TheBroadcast (message : list byte) | TheRequest (request : list byte) | TheEvent (event : list byte) | ATunnelIn.

#[export] Instance item_eq_dec : EqDecision item.
Proof. solve_decision. Defined.

(** How often [x] is among what [f] finds in a list. *)
Definition due (x : item) (d : option item) : Z := Z.b2z (bool_decide (d = Some x)).
Definition times {A} (f : A -> option item) (x : item) (l : list A) : Z := zsum (λ a, due x (f a)) l.

Lemma due_nonneg x d : 0 <= due x d.
Proof. unfold due. by case_bool_decide. Qed.

Lemma times_nonneg {A} (f : A -> option item) x l : 0 <= times f x l.
Proof. apply zsum_nonneg. intros a. apply due_nonneg. Qed.

Lemma times_app {A} (f : A -> option item) x l k : times f x (l ++ k) = times f x l + times f x k.
Proof. unfold times, zsum. by rewrite map_app, sumZ_app. Qed.

Lemma times_cons {A} (f : A -> option item) x a l : times f x (a :: l) = due x (f a) + times f x l.
Proof. done. Qed.

Lemma times_perm {A} (f : A -> option item) x l k : l ≡ₚ k -> times f x l = times f x k.
Proof. intros Hp. unfold times, zsum. by rewrite Hp. Qed.

Section served.
Context `{GoRuntime} {Q : Type} `{Queue slice Q} {P : Type -> Type} `{ThreadPool P} {TH : Type}.
Local Abbreviation Connection := (Connection Q P TH).
Local Abbreviation code := (prog Connection cwake).
Local Abbreviation origin := (origin (TH := TH)).
Local Abbreviation sys := (sys (Q := Q) (P := P) (TH := TH)).
Implicit Types (c : Connection) (x : item) (d : option item).

Definition packet_item (p : InPacket) : option item :=
  match p with
  | IBroadcast m => Some (TheBroadcast m)
  | IRequest _ r _ => Some (TheRequest r)
  | IPublish _ e => Some (TheEvent e)
  | ITunInit _ _ => Some ATunnelIn
  | _ => None
  end.

Definition go_item (g : goroutine) : option item :=
  match g with GoPublish _ e => Some (TheEvent e) | GoTunnelInit _ _ => Some ATunnelIn | _ => None end.
Definition bcast_item (j : bcast_job) : option item := Some (TheBroadcast (snd j)).
Definition req_item (j : req_job) : option item := Some (TheRequest (snd (fst j))).
Definition event_item (j : event_job) : option item := Some (TheEvent (snd j)).
Definition call_item (y : Connection.call TH) : option item :=
  match y with
  | CallBroadcast m => Some (TheBroadcast m)
  | CallRequest r => Some (TheRequest r)
  | CallEvent _ e => Some (TheEvent e)
  | CallTunnel _ => Some ATunnelIn
  | _ => None
  end.

(** Where it can be: about to start, in a queue, or with the application. *)
Definition pool_times {J} (f : J -> option item) x (p : option (P J)) : Z :=
  match p with Some p => times f x (pool_queued p) | None => 0 end.
Definition topic_times x (t : topic (P := P) (TopicHandler := TH)) : Z := times event_item x (pool_queued (eventPool t)).

Definition queued x c : Z :=
  times go_item x (c_go c) + pool_times bcast_item x (bcastPool (c_qos c)) + pool_times req_item x (reqPool (c_qos c)) +
  zsum (topic_times x) (topics (c_subs c)).
Definition called x c : Z := times call_item x (c_calls c).
Definition held x c : Z := queued x c + called x c.

Lemma pool_times_nonneg {J} (f : J -> option item) x p : 0 <= pool_times f x p.
Proof. destruct p; [apply times_nonneg|done]. Qed.

Lemma queued_nonneg x c : 0 <= queued x c.
Proof.
  unfold queued. pose proof (times_nonneg go_item x (c_go c)). pose proof (pool_times_nonneg bcast_item x (bcastPool (c_qos c))).
  pose proof (pool_times_nonneg req_item x (reqPool (c_qos c))).
  assert (0 <= zsum (topic_times x) (topics (c_subs c))) by (apply zsum_nonneg; intros t; apply times_nonneg). lia.
Qed.

(** ** What a goroutine adds *)

(** No arrival more than before; at most [d] more. *)
Definition spare c c' : Prop := forall x, held x c' <= held x c.
Definition pays d c c' : Prop := forall x, held x c' <= held x c + due x d.

#[export] Instance spare_preorder : PreOrder spare.
Proof. split; [by intros c x|]. intros c1 c2 c3 H12 H23 x. specialize (H12 x). specialize (H23 x). lia. Qed.

(** A goroutine that owes [d]: it adds it at most once. *)
Fixpoint owes d {A} (p : code A) : Prop :=
  match p with
  | Ret _ => True
  | Act m k => forall c, (spare c (snd (m c)) /\ owes d (k (fst (m c)))) \/ (pays d c (snd (m c)) /\ always spare (k (fst (m c))))
  | Yield k => owes d k
  | Select alt k => forall w c, spare c (snd (alt w c)) /\ owes d (k (fst (alt w c)))
  end.

Lemma spare_owes d {A} (p : code A) : always spare p -> owes d p.
Proof. induction p as [o|C m k IH|k IH|C alt k IH]; simpl; [done|intros []; left; auto|auto|intros [Ha Hk] w c; split; [apply Ha|auto]]. Qed.

Lemma owes_bind d {A B} (p : code A) (f : A -> code B) : always spare p -> (forall a, owes d (f a)) -> owes d (x ← p; f x).
Proof.
  change (x ← p; f x) with (pbind f p). intros Hp Hf.
  induction p as [o|C m k IH|k IH|C alt k IH]; simpl in *; [|destruct Hp; left; auto|auto|destruct Hp; auto].
  destruct o; try done. apply Hf.
Qed.

Lemma owes_then d {A B} (p : code A) (f : A -> code B) : owes d p -> (forall a, always spare (f a)) -> owes d (x ← p; f x).
Proof.
  change (x ← p; f x) with (pbind f p). intros Hp Hf.
  induction p as [o|C m k IH|k IH|C alt k IH]; simpl in *; [|intros c|auto|intros w c; destruct (Hp w c); auto].
  - destruct o as [a|e|?| |]; try done. exact (spare_owes d _ (Hf a)).
  - destruct (Hp c) as [[Hm Hk]|[Hm Hk]]; [left; auto|right]. split; [done|]. by apply (always_bind _ _ f).
Qed.

Lemma owes_run d {A} (p p' : code A) c c' : owes d p -> run_on p c = (p', c') -> at_rest p' ->
  exists d', owes d' p' /\ forall x, held x c' + due x d' <= held x c + due x d.
Proof.
  revert c. induction p as [o|C m k IH|k IH|C alt k IH]; intros c Hp; simpl; [intros [= <- <-]; by exists d| |intros [= <- <-]; by exists d..].
  destruct (Hp c) as [[Hm Hk]|[Hm Hk]].
  - specialize (IH (fst (m c)) (snd (m c)) Hk). destruct (m c) as [o c1]. simpl in *.
    intros Hr Hrest. assert (run_on (k o) c1 = (p', c')) as Hr' by (by destruct o; [..|injection Hr as <- <-|]).
    destruct (IH Hr' Hrest) as (d' & Ho & Hx). exists d'. split; [done|]. intros x. specialize (Hx x). specialize (Hm x). lia.
  - destruct (m c) as [o c1]. simpl in *.
    intros Hr Hrest. assert (run_on (k o) c1 = (p', c')) as Hr' by (by destruct o; [..|injection Hr as <- <-|]).
    destruct (always_run_on spare (k o) c1 Hk) as [Hs Hal]. rewrite Hr' in Hs, Hal. exists None. split; [by apply spare_owes|].
    intros x. specialize (Hs x). specialize (Hm x). simpl in *. change (due x None) with 0. lia.
Qed.

Lemma owes_resume d {A} (p p' : code A) c c' : owes d p -> resume p c (p', c') -> at_rest p' ->
  exists d', owes d' p' /\ forall x, held x c' + due x d' <= held x c + due x d.
Proof.
  intros Hp Hr Hrest. destruct p as [o|C m k|k|C alt k]; try done; simpl in Hr, Hp.
  - by apply (owes_run d k).
  - destruct Hr as (w & _ & Hr). destruct (Hp w c) as [Hs Hk].
    destruct (owes_run d _ _ _ _ Hk (eq_sym Hr) Hrest) as (d' & Ho & Hx). exists d'. split; [done|].
    intros x. specialize (Hx x). specialize (Hs x). lia.
Qed.

(** *** Stretches *)

Definition spares {A} (m : M Connection A) : Prop := forall c, spare c (snd (m c)).

Lemma spares_bind {A B} (m : M Connection A) (k : A -> M Connection B) : spares m -> (forall a, spares (k a)) -> spares (x ← m; k x).
Proof.
  intros Hm Hk c. rewrite bind_eq. specialize (Hm c). destruct (m c) as [[a|?|?| |] c']; try done.
  etrans; [exact Hm|apply Hk].
Qed.

(** Away from the queues and the calls. *)
Lemma spare_same c c' : c_go c' = c_go c -> c_qos c' = c_qos c -> c_subs c' = c_subs c -> c_calls c' = c_calls c -> spare c c'.
Proof. intros Eg Eq Es Ec x. unfold held, queued, called. by rewrite Eg, Eq, Es, Ec. Qed.

Lemma spares_gets {A} (f : Connection -> A) : spares (gets f).
Proof. by intros c. Qed.
Lemma spares_fail {A} e : spares (fail (A := A) e).
Proof. by intros c. Qed.
Lemma spares_ret {A} (a : A) : spares (mret (M := M Connection) a).
Proof. by intros c. Qed.
Lemma spares_block {A} : spares (block (A := A)).
Proof. by intros c. Qed.
Lemma spares_recv_term : spares recv_term.
Proof. by intros c. Qed.
Lemma spares_quit : spares quit_offer /\ spares quit_take.
Proof. split; intros c; unfold quit_offer, quit_take; simpl; destruct (c_quit c); by apply spare_same. Qed.
Lemma spares_sock {A} (m : M link A) : spares (on_sock m).
Proof. intros c. unfold on_sock. rewrite lift_eq. by apply spare_same. Qed.
Lemma spares_reqs {A} (m : M reqs A) : spares (on_reqs m).
Proof. intros c. unfold on_reqs. rewrite lift_eq. by apply spare_same. Qed.
Lemma spares_set_reqs r : spares (modify (set_reqs r)).
Proof. intros c. by apply spare_same. Qed.
Lemma spares_tuns {A} (m : M tuns A) : spares (on_tuns m).
Proof. intros c. unfold on_tuns. rewrite lift_eq. by apply spare_same. Qed.

Lemma spares_tunnel {A} id (m : M (tstate Q) A) : spares (on_tunnel id m).
Proof.
  intros c x. unfold on_tunnel. destruct (tunnels (c_tuns c) !! id) as [t|]; [|done]. destruct (m _) as [o u]. simpl.
  unfold held, queued, called. simpl. rewrite times_app.
  assert (forall l : list (Z * Z), times go_item x (map (λ g, GoAllowance (fst g) (snd g)) l) = 0) as ->; [|lia].
  intros l. induction l as [|g l IH]; [done|]. cbn [map]. by rewrite times_cons, IH.
Qed.

Lemma held_call x y c : held x (add_call y c) = held x c + due x (call_item y).
Proof.
  unfold held, called. cbn [c_calls add_call]. rewrite times_app, times_cons.
  change (queued x (add_call y c)) with (queued x c). change (times call_item x []) with 0. lia.
Qed.

Lemma spares_call y : call_item y = None -> spares (modify (add_call y)).
Proof. intros Hy c x. simpl. rewrite held_call, Hy. change (due x None) with 0. lia. Qed.

Lemma call_pays y c : pays (call_item y) c (add_call y c).
Proof. intros x. by rewrite held_call. Qed.

(** On the subscriptions. *)
Definition lighter (s s' : subs (P := P) (TopicHandler := TH)) : Prop :=
  forall x, zsum (topic_times x) (topics s') <= zsum (topic_times x) (topics s).

#[export] Instance lighter_preorder : PreOrder lighter.
Proof. split; [by intros s x|]. intros s1 s2 s3 H12 H23 x. specialize (H12 x). specialize (H23 x). lia. Qed.

Lemma spares_subs {A} (m : M (subs (P := P) (TopicHandler := TH)) A) : (forall s, lighter s (snd (m s))) -> spares (on_subs m).
Proof. intros Hm c x. unfold on_subs. rewrite lift_eq. specialize (Hm (c_subs c) x). unfold held, queued, called. simpl. lia. Qed.

Lemma upd_topic_pays {A} d p (m : M (topic (P := P) (TopicHandler := TH)) A) s x :
  (forall t, topic_times x (snd (m t)) <= topic_times x t + due x d) ->
  zsum (topic_times x) (topics (snd (upd_topic p m s))) <= zsum (topic_times x) (topics s) + due x d.
Proof.
  intros Hm. destruct (topics s !! p) as [t|] eqn:Ht.
  - rewrite (upd_topic_eq _ _ _ _ Ht). simpl. rewrite (zsum_insert _ _ _ t _ Ht). specialize (Hm t). lia.
  - unfold upd_topic. rewrite Ht. pose proof (due_nonneg x d). simpl. lia.
Qed.

Lemma lighter_topic {A} p (m : M (topic (P := P) (TopicHandler := TH)) A) s :
  (forall t, pool_queued (eventPool (snd (m t))) = pool_queued (eventPool t)) -> lighter s (snd (upd_topic p m s)).
Proof.
  intros Hm x. pose proof (upd_topic_pays None p m s x) as Hp. change (due x None) with 0 in Hp. rewrite Z.add_0_r in Hp.
  apply Hp. intros t. unfold topic_times. rewrite Hm. lia.
Qed.

Lemma lighter_terminate p s : lighter s (snd (upd_topic p top_terminate s)).
Proof. apply lighter_topic. intros t. simpl. apply (Terminate_queued event_job false). Qed.

Lemma lighter_drop name p s : lighter s (snd (sub_drop name p s)).
Proof.
  pose proof (lighter_terminate p s) as Hl. unfold sub_drop. rewrite bind_eq.
  destruct (upd_topic p top_terminate s) as [[[]|?|?| |] s']; exact Hl.
Qed.

Lemma lighter_table :
  (forall name h l s, lighter s (snd (sub_insert name h l s))) /\ (forall name s, lighter s (snd (sub_undo name s))) /\
  (forall name s, lighter s (snd (sub_remove name s))) /\ forall s, lighter s (snd (sub_close s)).
Proof.
  split_and!.
  - intros name h l s x. unfold sub_insert. destruct (subLive s !! name); [done|]. simpl.
    assert (topic_times x (newTopic h l) = 0) as E.
    { unfold topic_times. cbn [eventPool newTopic]. by rewrite (Start_queued event_job), (New_queued event_job). }
    unfold zsum. rewrite map_app, sumZ_app. change (sumZ (map (topic_times x) [newTopic h l])) with (topic_times x (newTopic h l) + 0). lia.
  - intros name s. unfold sub_undo. destruct (subLive s !! name); [apply lighter_drop|done].
  - intros name s. unfold sub_remove. destruct (subLive s !! name); [apply lighter_drop|done].
  - intros s. unfold sub_close. generalize (map snd (map_to_list (subLive s))). intros ps. revert s.
    induction ps as [|p ps IH]; intros s; [done|]. cbn [terminate_all]. rewrite bind_eq.
    pose proof (lighter_terminate p s) as Hl. destruct (upd_topic p top_terminate s) as [[[]|?|?| |] s']; try exact Hl.
    etrans; [exact Hl|apply IH].
Qed.

(** On the queues of a service. *)
Lemma spares_qos (f : Connection -> Connection) :
  (forall c, exists q, f c = set_qos q c /\
    forall x, pool_times bcast_item x (bcastPool q) <= pool_times bcast_item x (bcastPool (c_qos c)) /\
      pool_times req_item x (reqPool q) <= pool_times req_item x (reqPool (c_qos c))) -> spares (modify f).
Proof.
  intros Hf c x. simpl. destruct (Hf c) as (q & -> & Hq). destruct (Hq x). unfold held, called, queued. simpl. lia.
Qed.

Lemma Schedule_times {J} (f : J -> option item) x j (p : P J) :
  times f x (pool_queued (pool_Schedule j p)) <= times f x (pool_queued p) + due x (f j).
Proof.
  rewrite Schedule_queued. pose proof (due_nonneg x (f j)). destruct (pool_live p); [|lia].
  rewrite times_app, times_cons. change (times f x []) with 0. lia.
Qed.

Lemma pool_times_Start {J} (f : J -> option item) x p : pool_times f x (option_map pool_Start p) = pool_times f x p.
Proof. destruct p as [p|]; [|done]. simpl. by rewrite Start_queued. Qed.

Lemma pool_times_drop {J} (f : J -> option item) x p : pool_times f x (option_map (pool_Terminate true) p) <= pool_times f x p.
Proof. destruct p as [p|]; [|done]. simpl. rewrite Terminate_queued. apply times_nonneg. Qed.

Lemma spares_service : spares (modify start_bcastPool) /\ spares (modify start_reqPool) /\
  spares (modify drop_requests) /\ spares (modify drop_broadcasts) /\
  (forall m, spares (modify (broadcast_started m))) /\ (forall m, spares (modify (request_started m))).
Proof.
  split_and!; intros; apply spares_qos; intros c; (eexists; split; [reflexivity|]); intros x; cbn;
    rewrite ?(pool_times_Start (J := bcast_job)), ?(pool_times_Start (J := req_job));
    pose proof (pool_times_drop bcast_item x (bcastPool (c_qos c))); pose proof (pool_times_drop req_item x (reqPool (c_qos c))); lia.
Qed.

(** ** Goroutines *)

Lemma spares_atomic {A} (m : M Connection A) : spares m -> always spare (atomic m : code A).
Proof. done. Qed.

Lemma spares_select {A} (alt : cwake -> M Connection A) : (forall w, spares (alt w)) -> always spare (select alt).
Proof. intros Ha. apply always_select. intros w c. apply Ha. Qed.

Lemma tunnel_call_spare {A} id (p : prog (tstate Q) wake A) : always spare (tunnel_call id p).
Proof.
  unfold tunnel_call. induction p as [o|C m k IH|k IH|C alt k IH]; simpl; [done| |done|].
  - split; [apply spares_tunnel|done].
  - split; [|done]. intros w. destruct (tunnel_case w) as [w'|]; [apply spares_tunnel|apply spares_block].
Qed.
End served.

Create HintDb spare.
#[export] Hint Resolve spares_gets spares_fail spares_ret spares_block spares_recv_term spares_sock spares_reqs spares_set_reqs
  spares_tuns spares_tunnel tunnel_call_spare : spare.
#[export] Hint Extern 1 (spares quit_offer) => apply spares_quit : spare.
#[export] Hint Extern 1 (spares quit_take) => apply spares_quit : spare.
#[export] Hint Extern 1 (spares (modify (add_call _))) => apply spares_call; reflexivity : spare.
#[export] Hint Extern 1 (spares (modify _)) => apply spares_service : spare.
#[export] Hint Extern 1 (spares (on_subs _)) => apply spares_subs; intros; first [apply lighter_table|by apply lighter_topic|done] : spare.

(** Go through a program, or through a stretch, that leaves the arrivals alone. *)
Ltac spare :=
  repeat (intros; first
    [ apply always_bind | apply always_catch | apply spares_atomic | apply spares_select | apply spares_bind
    | exact I | solve [eauto with spare]
    | match goal with
      | |- context [match ?x with _ => _ end] => destruct x
      end ]).

Section system.
Context `{GoRuntime} {Q : Type} `{Queue slice Q} {P : Type -> Type} `{ThreadPool P} {TH : Type}.
Local Abbreviation Connection := (Connection Q P TH).
Local Abbreviation code := (prog Connection cwake).
Local Abbreviation origin := (origin (TH := TH)).
Local Abbreviation sys := (sys (Q := Q) (P := P) (TH := TH)).
Implicit Types (c : Connection) (x : item) (d : option item).

Lemma Close_spare : always spare (conn_Close : code unit).
Proof. unfold conn_Close. spare. Qed.

Lemma acceptTunnel_spare id n : always spare (acceptTunnel id n : code Z).
Proof. unfold acceptTunnel. spare. Qed.

Lemma api_spare a : always spare (run_api a : code value).
Proof.
  destruct a as [y m|y e|y m t|y h l|y|y t| | |id m t turns|id t|id]; cbn [run_api];
    unfold Broadcast, Publish, Request, Request_select, Subscribe, Unsubscribe, conn_Tunnel, initTunnel, initTunnel_select, initTunnel_wait, initTunnel_ready, Unregister.
  all: spare.
Qed.

(** What a goroutine owes when it starts. *)
Definition debt (o : origin) : option item :=
  match o with
  | OGo g => go_item g
  | OBroadcast job => bcast_item job
  | ORequest _ job => req_item job
  | OEvent _ job => event_item job
  | OApi _ | OInit _ => None
  end.

Lemma owes_call d y : d = call_item y -> owes d (atomic (modify (add_call y)) : code unit).
Proof. intros -> c. right. split; [apply call_pays|done]. Qed.

Lemma publish_owes t e : owes (Some (TheEvent e)) (conn_handlePublish t e : code unit).
Proof.
  unfold conn_handlePublish. apply owes_bind; [spare|]. intros [p|]; [|done]. apply owes_bind; [spare|intros _].
  apply owes_bind; [spare|]. intros [id|]; [|done].
  do 3 (apply owes_bind; [spare|intros _]). intros c. right. split; [|done].
  intros x. unfold on_subs. rewrite lift_eq. cbn [snd].
  assert (forall s : subs (P := P) (TopicHandler := TH), zsum (topic_times x) (topics (snd (upd_topic p (top_schedule id e) s))) <=
    zsum (topic_times x) (topics s) + due x (Some (TheEvent e))) as Hs.
  { intros s. apply upd_topic_pays. intros u. unfold topic_times. simpl.
    exact (Schedule_times event_item x (id, e) (eventPool u)). }
  specialize (Hs (c_subs c)). unfold held, called, queued. simpl. lia.
Qed.

Lemma event_owes p job : owes (event_item job) (serve_event p job : code unit).
Proof.
  unfold serve_event. intros c. left. split; [apply spares_subs; intros s; by apply lighter_topic|].
  unfold on_subs. rewrite lift_eq. cbn [fst]. unfold upd_topic. destruct (topics (c_subs c) !! p); [|done]. cbn.
  intros c1. right. split; [apply (call_pays (CallEvent _ (snd job)))|done].
Qed.

Lemma start_owes o : owes (debt o) (start o : code value).
Proof.
  assert (forall A d (p : code A), owes d p -> owes d (p;; mret VUnit : code value)) as Hthen by (intros; by apply owes_then).
  destruct o as [a|[t e|id r|id n|id n]|job|e [[id r] t]|p job|h]; cbn [start debt go_item run_go].
  - apply spare_owes, api_spare.
  - apply Hthen, publish_owes.
  - apply spare_owes. unfold conn_handleTunnelClose. spare.
  - apply Hthen. unfold go_handleTunnelInit. apply owes_bind; [apply always_catch, acceptTunnel_spare|]. intros [e|tun]; [done|].
    apply owes_bind; [spare|intros _]. apply owes_bind; [spare|]. intros [h|]; [by apply owes_call|done].
  - apply spare_owes. spare.
  - apply Hthen. unfold run_broadcast. do 2 (apply owes_bind; [spare|intros _]). apply owes_bind; [spare|].
    intros [h|]; [by apply owes_call|done].
  - apply Hthen. unfold run_request. apply owes_bind; [spare|intros _]. destruct e; [done|].
    apply owes_bind; [spare|intros _]. apply owes_bind; [spare|]. intros [h|]; [|done].
    apply owes_then; [by apply owes_call|intros _]. spare.
  - apply Hthen, event_owes.
  - apply spare_owes. apply always_bind; [|done]. unfold Register_init. pose proof Close_spare. spare.
Qed.

(** ** The receiver *)

Lemma spare_pays d c c' : spare c c' -> pays d c c'.
Proof. intros Hs x. specialize (Hs x). pose proof (due_nonneg x d). lia. Qed.

Lemma qos_pays d c q :
  (forall x, pool_times bcast_item x (bcastPool q) + pool_times req_item x (reqPool q) <=
    pool_times bcast_item x (bcastPool (c_qos c)) + pool_times req_item x (reqPool (c_qos c)) + due x d) -> pays d c (set_qos q c).
Proof. intros Hq x. specialize (Hq x). unfold held, called, queued. simpl. lia. Qed.

Lemma broadcast_pays m c : pays (Some (TheBroadcast m)) c (snd (conn_handleBroadcast m c)).
Proof.
  unfold conn_handleBroadcast. cbv zeta. destruct (limits (c_qos c)); [destruct (quota_fits _ _ _); [destruct (bcastPool (c_qos c)) as [p|] eqn:E|]|];
    cbn [snd]; apply qos_pays; intros x; cbn; rewrite ?E; pose proof (due_nonneg x (Some (TheBroadcast m))); try (cbn; lia).
  pose proof (Schedule_times bcast_item x (i64 (u64 (bcastIdx (c_qos c) + 1)), m) p) as Hs.
  etrans; [apply Z.add_le_mono_r; exact Hs|]. rewrite Z.add_shuffle0. apply Z.le_refl.
Qed.

Lemma request_pays id r t c : pays (Some (TheRequest r)) c (snd (conn_handleRequest id r t c)).
Proof.
  unfold conn_handleRequest. cbv zeta. destruct (limits (c_qos c)); [destruct (quota_fits _ _ _); [destruct (reqPool (c_qos c)) as [p|] eqn:E|]|];
    cbn [snd]; try (apply spare_pays; done);
    apply qos_pays; intros x; cbn; rewrite ?E; pose proof (due_nonneg x (Some (TheRequest r))); try (cbn; lia).
  pose proof (Schedule_times req_item x (id, r, t) p) as Hs.
  etrans; [apply Z.add_le_mono_l; exact Hs|]. rewrite Z.add_assoc. apply Z.le_refl.
Qed.

Lemma held_go x g c : held x (add_go [g] c) = held x c + due x (go_item g).
Proof.
  unfold held, queued, called. cbn [c_go c_qos c_subs c_calls add_go]. rewrite times_app, times_cons.
  change (times go_item x []) with 0. lia.
Qed.

Lemma go_pays g c : pays (go_item g) c (snd (modify (add_go [g]) c)).
Proof. intros x. simpl. by rewrite held_go. Qed.

Lemma receive_owes p : owes (packet_item p) (receive p : code unit).
Proof.
  assert (forall i n, always spare (receive_result i n : code unit)) as Hres by (intros i n; unfold receive_result; spare).
  assert (forall (m : M Connection unit) d, (forall c, pays d c (snd (m c))) -> owes d (atomic m : code unit)) as Hpay.
  { intros m d Hm c. right. by split. }
  destruct p as [m|id r t|id|id r|id f|t e|id n|id|id n|id n|id n l|id r]; cbn [receive packet_item deliver]; try (by apply spare_owes).
  - apply Hpay. intros c. apply broadcast_pays.
  - apply Hpay. intros c. apply request_pays.
  - apply spare_owes, spares_atomic. exact (spares_reqs _).
  - apply spare_owes, spares_atomic. exact (spares_reqs _).
  - apply spare_owes, spares_atomic. exact (spares_reqs _).
  - apply Hpay. intros c. apply (go_pays (GoPublish t e)).
  - apply Hpay. intros c. apply (go_pays (GoTunnelInit id (i64 n))).
  - apply spare_owes, spares_atomic. exact (spares_tuns _).
  - apply spare_owes. cbn. unfold conn_handleTunnelTransfer. spare.
  - apply spare_owes, spares_atomic. intros c x. pose proof (go_pays (GoTunnelClose id r) c x) as Hp.
    change (due x (go_item (GoTunnelClose id r))) with 0 in Hp. by rewrite Z.add_0_r in Hp.
Qed.

Lemma go_down_spare err : always spare (go_down err : code unit).
Proof.
  unfold go_down. repeat (apply always_bind; [|intros _]); try done; try apply always_atomic.
  - intros c. by apply spare_same.
  - intros c. unfold conn_closeTerm. destruct (c_term c); by apply spare_same.
  - intros c. unfold conn_notifyDrop. rewrite bind_eq. cbn [gets modify snd].
    destruct err as [e|], (c_handler c); try done. by apply (spares_call (CallDrop e)).
  - apply spares_tuns.
  - apply always_select. intros _ c. unfold conn_syncQuit. destruct (c_quit c); by apply spare_same.
Qed.

(** ** In the system *)

(** A goroutine starts with what it takes out of a queue. *)
Lemma started_held c c' r ts o x : sys_act None (Sys c r ts) (Sys c' r (ts ++ [spawn o])) ->
  held x c' + due x (debt o) <= held x c.
Proof.
  intros Ha. inversion Ha as [a c0 r0 ts0 Hok Hid|g l1 l2 c0 r0 ts0 Eg|job p p' c0 r0 ts0 Ep Ej|e job p p' c0 r0 ts0 Ep Ej
    |i t job p' c0 r0 ts0 Et Ej|i o' p p' c0 c0' r0 ts0 Ei Er| | |c0 ts0| |]; subst.
  all: try match goal with E : _ ++ [_] = _ ++ [_] |- _ => apply app_inj_tail in E as [_ E]; injection E as <- end.
  all: try (exfalso; match goal with E : ?l = ?k |- _ => apply (f_equal length) in E; rewrite ?length_insert, length_app in E; simpl in E; lia end).
  - change (due x (debt (OApi a))) with 0. lia.
  - cbn [debt]. unfold held, queued, called. cbn [c_go c_qos c_subs c_calls set_go]. rewrite Eg, !times_app, times_cons. lia.
  - apply next_queued in Ej as [Ej _]. pose proof (times_perm bcast_item x _ _ Ej) as E. rewrite times_cons in E.
    unfold held, queued, called. cbn [c_go c_qos c_subs c_calls with_bcastPool with_reqPool set_qos bcastPool reqPool debt].
    rewrite Ep. cbn [pool_times]. lia.
  - apply next_queued in Ej as [Ej _]. pose proof (times_perm req_item x _ _ Ej) as E. rewrite times_cons in E.
    unfold held, queued, called. cbn [c_go c_qos c_subs c_calls with_bcastPool with_reqPool set_qos bcastPool reqPool debt].
    rewrite Ep. cbn [pool_times]. lia.
  - apply next_queued in Ej as [Ej _]. pose proof (times_perm event_item x _ _ Ej) as E. rewrite times_cons in E.
    unfold held, queued, called, with_eventPool, put_topic. cbn [c_go c_qos c_subs c_calls set_subs topics].
    rewrite (zsum_insert _ _ _ t _ Et). unfold topic_times. cbn [eventPool debt]. lia.
Qed.

(** Everything that has arrived is somewhere, or gone: nothing is twice. *)
Record once (h : list InPacket) (s : sys) : Prop := {
  on_recv : match s_recv s with Listening => True | Handling q | Ending q => always spare q end;
  on_all : exists ds, Forall2 (λ y d, owes d (snd y)) (s_threads s) ds /\
    forall x, held x (s_conn s) + zsum (due x) ds <= times packet_item x h
}.

Lemma zsum_snoc {A} (f : A -> Z) l a : zsum f (l ++ [a]) = zsum f l + f a.
Proof. unfold zsum. rewrite map_app, sumZ_app. unfold sumZ at 2. simpl. lia. Qed.

Lemma receive_once p c q c' x : run_on (receive p) c = (q, c') -> at_rest q ->
  always spare q /\ held x c' <= held x c + due x (packet_item p).
Proof.
  intros Er Hrest. assert (forall (q0 : code unit), q0 = receive p -> match p with ITunTimeout _ | ITunResult _ _ => always spare q0 | _ => exists o, q = Ret o end) as Hq.
  { intros q0 ->. destruct p; try (by eapply run_on_single); cbn [receive]; unfold receive_result; spare. }
  specialize (Hq _ eq_refl). destruct (owes_run _ _ _ _ _ (receive_owes p) Er Hrest) as (d & _ & Hx).
  specialize (Hx x). pose proof (due_nonneg x d). split; [|lia].
  destruct p; try (by destruct Hq as [o ->]); destruct (always_run_on spare _ c Hq) as [_ Ha]; by rewrite Er in Ha.
Qed.

Lemma once_act h l s s' : sys_ok s' -> once h s -> sys_act l s s' -> once (h ++ option_list l) s'.
Proof.
  intros Hok' [Hr (ds & Hds & Hx)] Hst.
  assert (forall c c' r ts o, s = Sys c r ts -> s' = Sys c' r (ts ++ [spawn o]) -> sys_act None s s' -> once (h ++ option_list None) s') as Hspawn.
  { intros c c' r ts o -> -> Ha. unfold option_list, option_rect. rewrite app_nil_r. simpl in *. split; [done|].
    exists (ds ++ [debt o]). split; [apply Forall2_app; [done|]; constructor; [exact (start_owes o)|constructor]|].
    intros x. rewrite zsum_snoc. pose proof (started_held c c' r ts o x Ha). specialize (Hx x). simpl. lia. }
  pose proof Hst as Hst'. destruct Hst as [a c r ts Ha Hid|g l1 l2 c r ts Eg|job p p' c r ts Ep Ej|e job p p' c r ts Ep Ej
    |i t job p' c r ts Et Ej|i o p p' c c' r ts Ei Er
    |p q c c' ts Hin He Er|q q' c c' ts Er|c ts|err c ts|q q' c c' ts Er]; try (by eapply Hspawn);
    unfold option_list, option_rect; rewrite ?app_nil_r; clear Hspawn Hst'; simpl in *.
  - destruct (Forall2_lookup_l _ _ _ _ _ Hds Ei) as (d & Ed & Hd).
    assert (at_rest p') as Hrest.
    { apply (Forall_lookup_1 _ _ i (o, p') (sk_threads _ Hok')). simpl. apply list_lookup_insert_eq. by eapply lookup_lt_Some. }
    destruct (owes_resume d p p' c c' Hd Er Hrest) as (d' & Hd' & Hx'). split; [done|].
    exists (<[i := d']> ds). split; [by apply Forall2_insert|]. intros x. rewrite (zsum_insert _ _ _ d _ Ed).
    specialize (Hx x). specialize (Hx' x). simpl. lia.
  - assert (at_rest q) as Hrest by apply (sk_recv _ Hok').
    split; [by destruct (receive_once p c q c' ATunnelIn Er Hrest)|]. exists ds. split; [done|]. intros x. simpl.
    destruct (receive_once p c q c' x Er Hrest) as [_ Hh]. rewrite times_app. specialize (Hx x).
    change (times packet_item x [p]) with (due x (packet_item p) + 0). lia.
  - destruct (always_resume spare _ _ _ _ Hr Er) as [Hs Hq]. split; [done|]. exists ds. split; [done|]. intros x.
    specialize (Hs x). specialize (Hx x). simpl. lia.
  - split; [done|]. by exists ds.
  - split; [apply go_down_spare|]. by exists ds.
  - destruct (always_resume spare _ _ _ _ Hr Er) as [Hs Hq]. split; [done|]. exists ds. split; [done|]. intros x.
    specialize (Hs x). specialize (Hx x). simpl. lia.
Qed.

Lemma once_history s0 h s : fresh s0 -> newly_made (s_conn s0) -> history s0 h s -> sys_ok s /\ once h s.
Proof.
  intros Hf Hn. induction 1 as [|h l s s' _ [Hok IH] Hst].
  - split; [by apply fresh_ok|]. destruct Hf as (_ & _ & Hr & Hts).
    assert (forall x, held x (s_conn s0) = 0) as Hz.
    { intros x. unfold held, queued, called. rewrite (nm_go _ Hn), (nm_calls _ Hn), (nm_subs _ Hn).
      assert (pool_times bcast_item x (bcastPool (c_qos (s_conn s0))) = 0) as ->.
      { pose proof (nm_bcast _ Hn) as Hb. destruct (bcastPool _) as [p|]; [|done]. cbn [pool_times]. by rewrite (Hb p). }
      assert (pool_times req_item x (reqPool (c_qos (s_conn s0))) = 0) as ->; [|done].
      pose proof (nm_req _ Hn) as Hq. destruct (reqPool _) as [p|]; [|done]. cbn [pool_times]. by rewrite (Hq p). }
    split; [by rewrite Hr|]. destruct Hts as [->|[h ->]].
    + exists []. split; [constructor|]. intros x. by rewrite Hz.
    + exists [None]. split; [constructor; [apply (start_owes (OInit h))|constructor]|]. intros x. by rewrite Hz.
  - pose proof (sys_ok_act _ _ _ Hok Hst) as Hok'. split; [done|]. by eapply once_act.
Qed.

(** C8: the handlers of a connection in use are called for what has arrived, and once.
    Of every broadcast, request and event, by its content, and of inbound tunnels,
    there have been at most as many calls as arrivals, those still queued included,
    however the receiver, the workers and the application interleave: nothing is
    made up, and nothing is served twice. *)
Theorem handlers_called_once (s0 : sys) h (s : sys) : fresh s0 -> newly_made (s_conn s0) -> history s0 h s ->
  forall x, times call_item x (c_calls (s_conn s)) + queued x (s_conn s) <= times packet_item x h.
Proof.
  intros Hf Hn Hh x. destruct (once_history s0 h s Hf Hn Hh) as [_ [_ (ds & _ & Hx)]].
  specialize (Hx x). pose proof (zsum_nonneg (due x) ds (due_nonneg x)). unfold held, called in Hx. lia.
Qed.
End system.

(** A tunnel arrives at a service and is handed to its handler. *)
Definition sample_served : sys (Q := list slice) (P := list_pool) (TH := nat) :=
  Nat.iter 6 (advance WakeInit 1%nat) (begin (H := amd64) (arrive (H := amd64) (ITunInit 7 1024) sample_service_sys)).

Lemma handlers_called_once_witness : c_calls (s_conn sample_served) = [CallTunnel 0] /\
  times call_item ATunnelIn (c_calls (s_conn sample_served)) + queued ATunnelIn (s_conn sample_served) <= 1.
Proof.
  split; [reflexivity|].
  apply (@handlers_called_once amd64 _ _ _ _ nat sample_service_sys [ITunInit 7 1024]).
  - apply sample_service_fresh.
  - apply sample_service_fresh.
  - do 6 apply advance_history. apply begin_history.
    apply (arrive_history (H := amd64) _ []); [done|repeat split; vm_compute; congruence|split; [split; vm_compute; congruence|by eexists]|constructor].
Defined.
