(* ===== verification/Log.v ===== *)
(** * Log values (logger.go)

    How message contents and timeouts appear in log lines, with the formatting of
    Go's [fmt] and [time] they rely on, and the logger's configuration. *)

From Stdlib Require Import ZArith Lia Strings.Byte Strings.String.
From stdpp Require Import base list.
From S2P Require Import Prelude.

Open Scope Z_scope.

(** ** The standard library *)

(** Decimal digits of an unsigned integer, written from the last to the first before
    what the buffer holds already; a [uint64] has at most twenty. *)
Fixpoint fmtInt_loop (fuel : nat) (v : Z) (buf : list byte) : list byte :=
  match fuel with
  | O => buf
  | S fuel => if 0 <? v then fmtInt_loop fuel (v / 10) (z2b (v mod 10 + 48) :: buf) else buf
  end.

Definition fmtInt (v : Z) (buf : list byte) : list byte :=
  if v =? 0 then x30 :: buf else fmtInt_loop 20 v buf.

(** [fmt.Sprintf("%v", data)] of a byte slice: its elements in decimal, in brackets. *)
Definition fmtElem (b : byte) : list byte := fmtInt (b2z b) [].

Definition fmtBytes (data : list byte) : list byte :=
  x5b :: match data with
         | [] => []
         | b :: data => fmtElem b ++ concat (map (λ b, x20 :: fmtElem b) data)
         end ++ [x5d].

(** [time.Duration.String]: the fraction of [v / 10^prec], without trailing zeros and
    without the point when nothing is left, and the integral part. *)
Fixpoint fmtFrac_loop (prec : nat) (print : bool) (v : Z) (buf : list byte) : bool * Z * list byte :=
  match prec with
  | O => (print, v, buf)
  | S prec =>
      let digit := v mod 10 in
      let print := print || negb (digit =? 0) in
      fmtFrac_loop prec print (v / 10) (if print then z2b (digit + 48) :: buf else buf)
  end.

Definition fmtFrac (prec : nat) (v : Z) (buf : list byte) : Z * list byte :=
  let '(print, v, buf) := fmtFrac_loop prec false v buf in
  (v, if print then x2e :: buf else buf).

Definition fmtFracInt (prec : nat) (v : Z) (buf : list byte) : list byte :=
  let '(v, buf) := fmtFrac prec v buf in fmtInt v buf.

Definition fmtDuration (d : Z) : gostring :=
  let u := u64 (if d <? 0 then - d else d) in
  let s :=
    if u <? 10 ^ 9 then
      if u =? 0 then str "0s"
      else if u <? 10 ^ 3 then fmtFracInt 0 u (str "ns")
      else if u <? 10 ^ 6 then fmtFracInt 3 u (xc2 :: xb5 :: str "s")
      else fmtFracInt 6 u (str "ms")
    else
      let '(u, buf) := fmtFrac 9 u (str "s") in
      let buf := fmtInt (u mod 60) buf in
      let u := u / 60 in
      if u =? 0 then buf else
      let buf := fmtInt (u mod 60) (x6d :: buf) in
      let u := u / 60 in
      if u =? 0 then buf else fmtInt u (x68 :: buf) in
  if d <? 0 then x2d :: s else s.

Example fmtDuration_units :
  map fmtDuration [1; 1500; 25000000; 90 * 10 ^ 9; 3600 * 10 ^ 9 + 5 * 10 ^ 8; - 10 ^ 9] =
  [str "1ns"; x31 :: x2e :: x35 :: xc2 :: xb5 :: str "s"; str "25ms"; str "1m30s"; str "1h0m0.5s"; str "-1s"].
Proof. reflexivity. Qed.

(** ** logger.go *)

(** The function of the lazy value [logLazyBlob] makes. *)
Definition logLazyBlob (data : slice) : gostring :=
  if 256 <? len (sbytes data) then fmtBytes (take 256 (sbytes data)) ++ str " ..."
  else fmtBytes (sbytes data).

(** The function of the lazy value [logLazyTimeout] makes. *)
Definition logLazyTimeout (timeout : Z) : gostring :=
  if timeout =? 0 then str "infinity" else fmtDuration timeout.

(** The loggers of log15: their handlers, and the one in force. *)
Class Log15 (Logger : Type) := {
  Handler : Type;
  Lvl : Type;
  LvlInfo : Lvl;
  DiscardHandler : Handler;
  StderrHandler : Handler;
  LvlFilterHandler : Lvl -> Handler -> Handler;
  SetHandler : Handler -> M Logger unit;
  GetHandler : Logger -> Handler;
  SetHandler_returns h l : fst (SetHandler h l) = Ok tt;
  SetHandler_handler h l : GetHandler (snd (SetHandler h l)) = h
}.

(** [init], on the package's logger. *)
Definition Log_init {Logger} `{Log15 Logger} : M Logger unit :=
  SetHandler DiscardHandler;;
  SetHandler (LvlFilterHandler LvlInfo StderrHandler).

(** ** Decimal numbers *)

Definition digit (b : byte) : bool := (48 <=? b2z b) && (b2z b <=? 57).
Definition digits (l : list byte) : Prop := Forall (λ b, digit b = true) l.

Lemma digit_z2b n : 0 <= n < 10 -> digit (z2b (n + 48)) = true.
Proof. intros H. unfold digit. rewrite b2z_z2b_small by lia. apply andb_true_iff. split; apply Z.leb_le; lia. Qed.

(** Digits are written before what is there. *)
Lemma fmtInt_loop_app fuel v buf : exists ds, digits ds /\ fmtInt_loop fuel v buf = ds ++ buf.
Proof.
  revert v buf. induction fuel as [|fuel IH]; intros v buf; cbn [fmtInt_loop]; [exists []; by split; [constructor|]|].
  destruct (0 <? v); [|exists []; by split; [constructor|]]. destruct (IH (v / 10) (z2b (v mod 10 + 48) :: buf)) as (ds & Hd & ->).
  exists (ds ++ [z2b (v mod 10 + 48)]). split; [|by rewrite <- app_assoc]. apply Forall_app.
  split; [done|]. repeat constructor. apply digit_z2b, Z.mod_pos_bound. lia.
Qed.

Lemma fmtInt_app v buf : 0 <= v -> exists ds, digits ds /\ ds <> [] /\ fmtInt v buf = ds ++ buf.
Proof.
  intros Hv. unfold fmtInt. destruct (Z.eqb_spec v 0) as [->|Hn].
  - exists [x30]. split_and!; [repeat constructor|done|done].
  - change (fmtInt_loop 20 v buf) with
      (if 0 <? v then fmtInt_loop 19 (v / 10) (z2b (v mod 10 + 48) :: buf) else buf).
    rewrite (proj2 (Z.ltb_lt 0 v)) by lia.
    destruct (fmtInt_loop_app 19 (v / 10) (z2b (v mod 10 + 48) :: buf)) as (ds & Hd & ->).
    exists (ds ++ [z2b (v mod 10 + 48)]). split_and!; [|by destruct ds|by rewrite <- app_assoc].
    apply Forall_app. split; [done|]. repeat constructor. apply digit_z2b, Z.mod_pos_bound. lia.
Qed.

Lemma fmtElem_digits b : digits (fmtElem b) /\ (1 <= length (fmtElem b) <= 3)%nat.
Proof. destruct b; (split; [repeat constructor|vm_compute; lia]). Qed.

(** The number a list of digits stands for. *)
Definition undec (l : list byte) : Z := fold_left (λ n b, 10 * n + (b2z b - 48)) l 0.

Lemma fmtElem_inj a b : fmtElem a = fmtElem b -> a = b.
Proof.
  assert (forall c, undec (fmtElem c) = b2z c) as Hu by (by intros []).
  intros E. apply b2z_inj. by rewrite <- !Hu, E.
Qed.

(** A number ends where the digits do. *)
Lemma digits_end l1 l2 x y r s : digits l1 -> digits l2 -> digit x = false -> digit y = false ->
  l1 ++ x :: r = l2 ++ y :: s -> l1 = l2 /\ x :: r = y :: s.
Proof.
  intros H1 H2 Hx Hy. revert l2 H2.
  induction H1 as [|a l1 Ha _ IH]; intros [|b l2] H2 E; cbn [app] in E.
  - done.
  - injection E as -> _. inversion H2. congruence.
  - injection E as -> _. congruence.
  - injection E as -> E. inversion H2; subst. destruct (IH l2) as [-> ?]; [done..|by split].
Qed.

(** ** Rendered blobs *)

Definition fmtRest (data : list byte) : list byte := concat (map (λ b, x20 :: fmtElem b) data) ++ [x5d].

Lemma fmtRest_head data r : exists x s, fmtRest data ++ r = x :: s /\ digit x = false.
Proof. destruct data; by eexists _, _. Qed.

Lemma fmtRest_inj d1 d2 r1 r2 : fmtRest d1 ++ r1 = fmtRest d2 ++ r2 -> d1 = d2 /\ r1 = r2.
Proof.
  revert d2. induction d1 as [|a d1 IH]; intros [|b d2]; try done.
  - cbn. by intros [= ->].
  - unfold fmtRest. cbn [map concat]. rewrite <- !app_comm_cons, <- !app_assoc.
    fold (fmtRest d1) (fmtRest d2). rewrite !(app_assoc _ [x5d]). fold (fmtRest d1) (fmtRest d2).
    destruct (fmtRest_head d1 r1) as (x & s & E1 & Hx). destruct (fmtRest_head d2 r2) as (y & t & E2 & Hy).
    rewrite E1, E2. intros [= E]. apply digits_end in E as [Ha%fmtElem_inj E]; try done; try apply fmtElem_digits.
    rewrite <- E1, <- E2 in E. apply IH in E as [-> ->]. by subst.
Qed.

Lemma fmtBytes_inj d1 d2 r1 r2 : fmtBytes d1 ++ r1 = fmtBytes d2 ++ r2 -> d1 = d2 /\ r1 = r2.
Proof.
  assert (forall d r, x20 :: tl (fmtBytes d) ++ r = match d with [] => x20 :: x5d :: r | _ => fmtRest d ++ r end) as Ht.
  { intros [|b d] r; [done|]. unfold fmtRest, fmtBytes. cbn [map concat tl]. by rewrite <- !app_assoc. }
  intros E. assert (x20 :: tl (fmtBytes d1) ++ r1 = x20 :: tl (fmtBytes d2) ++ r2) as E'.
  { unfold fmtBytes in *. cbn [tl] in *. by injection E as ->. }
  rewrite !Ht in E'. destruct d1 as [|a d1], d2 as [|b d2]; [by injection E' as ->| | |by apply fmtRest_inj].
  - exfalso. unfold fmtRest in E'. cbn [map concat] in E'. pose proof (fmtElem_digits b) as [Hd Hl].
    destruct (fmtElem b) as [|x l]; [simpl in Hl; lia|]. injection E' as <- _. by inversion Hd.
  - exfalso. unfold fmtRest in E'. cbn [map concat] in E'. pose proof (fmtElem_digits a) as [Hd Hl].
    destruct (fmtElem a) as [|x l]; [simpl in Hl; lia|]. injection E' as -> _. by inversion Hd.
Qed.

Lemma fmtBytes_length data : (length (fmtBytes data) <= 2 + 4 * length data)%nat.
Proof.
  assert (forall d, (length (concat (map (λ b, x20 :: fmtElem b) d)) <= 4 * length d)%nat) as Hc.
  { induction d as [|b d IH]; [done|]. simpl. rewrite length_app.
    destruct (fmtElem_digits b) as [_ ?]. lia. }
  unfold fmtBytes. destruct data as [|b data]; cbn [length app]; [lia|].
  rewrite !length_app. specialize (Hc data). destruct (fmtElem_digits b) as [_ ?]. simpl. lia.
Qed.

(** ** Rendered timeouts *)

(** A rendered duration starts with a sign or a digit. *)
Definition numeric (l : list byte) : Prop := exists b r, l = b :: r /\ (digit b = true \/ b = x2d).

Lemma fmtInt_numeric v buf : 0 <= v -> numeric (fmtInt v buf).
Proof.
  intros Hv. destruct (fmtInt_app v buf Hv) as (ds & Hd & Hn & ->).
  destruct Hd as [|b ds Hb _]; [done|]. exists b, (ds ++ buf). auto.
Qed.

Lemma fmtFrac_loop_nonneg prec print v buf : 0 <= v -> 0 <= snd (fst (fmtFrac_loop prec print v buf)).
Proof.
  revert print v buf. induction prec as [|prec IH]; intros print v buf Hv; [done|].
  cbn [fmtFrac_loop]. apply IH, Z.div_pos; lia.
Qed.

Lemma fmtFrac_nonneg prec v buf : 0 <= v -> 0 <= fst (fmtFrac prec v buf).
Proof.
  intros Hv. pose proof (fmtFrac_loop_nonneg prec false v buf Hv) as H. unfold fmtFrac.
  by destruct (fmtFrac_loop prec false v buf) as [[? ?] ?].
Qed.

Lemma fmtFracInt_numeric prec v buf : 0 <= v -> numeric (fmtFracInt prec v buf).
Proof.
  intros Hv. unfold fmtFracInt. pose proof (fmtFrac_nonneg prec v buf Hv).
  destruct (fmtFrac prec v buf). by apply fmtInt_numeric.
Qed.

Lemma fmtDuration_numeric d : numeric (fmtDuration d).
Proof.
  unfold fmtDuration. destruct (d <? 0); [exists x2d; eexists; split; [done|by right]|].
  pose proof (u64_range d) as [Hu _]. set (u := u64 d) in *. destruct (u <? 10 ^ 9).
  - destruct (u =? 0); [exists x30, [x73]; split; [reflexivity|by left]|]. repeat case_test; by apply fmtFracInt_numeric.
  - pose proof (fmtFrac_nonneg 9 u (str "s") Hu). destruct (fmtFrac 9 u (str "s")) as [v buf]. simpl in *.
    pose proof (Z.mod_pos_bound v 60). pose proof (Z.div_pos v 60). pose proof (Z.mod_pos_bound (v / 60) 60).
    pose proof (Z.div_pos (v / 60) 60). repeat (case_test; [apply fmtInt_numeric; lia|]). apply fmtInt_numeric. lia.
Qed.

(** ** Properties *)

(** What the log shows of data identifies it as far as it is shown: two blobs
    render to the same text exactly when they have the same bytes, or when both are
    longer than 256 bytes and agree on the first 256; a truncated one never looks
    like a whole one; no text is longer than 1030 bytes. A timeout renders as
    [infinity] exactly when it is 0. *)
Theorem log_values d1 d2 t :
  (logLazyBlob d1 = logLazyBlob d2 <->
     sbytes d1 = sbytes d2 \/
     256 < len (sbytes d1) /\ 256 < len (sbytes d2) /\ take 256 (sbytes d1) = take 256 (sbytes d2)) /\
  len (logLazyBlob d1) <= 1030 /\
  (logLazyTimeout t = str "infinity" <-> t = 0).
Proof.
  assert (forall d, fmtBytes d = fmtBytes d ++ []) as Hnil by (intros; by rewrite app_nil_r).
  split_and!.
  - unfold logLazyBlob. split.
    + destruct (Z.ltb_spec 256 (len (sbytes d1))), (Z.ltb_spec 256 (len (sbytes d2))); intros E.
      * right. by apply fmtBytes_inj in E as [? _].
      * rewrite (Hnil (sbytes d2)) in E. by apply fmtBytes_inj in E as [_ ?].
      * rewrite (Hnil (sbytes d1)) in E. by apply fmtBytes_inj in E as [_ ?].
      * left. rewrite (Hnil (sbytes d1)), (Hnil (sbytes d2)) in E. by apply fmtBytes_inj in E as [? _].
    + intros [->|(H1 & H2 & E)]; [done|]. by rewrite (proj2 (Z.ltb_lt _ _) H1), (proj2 (Z.ltb_lt _ _) H2), E.
  - unfold logLazyBlob, len. destruct (Z.ltb_spec 256 (Z.of_nat (length (sbytes d1)))).
    + rewrite length_app. pose proof (fmtBytes_length (take 256 (sbytes d1))) as Hl.
      rewrite length_take in Hl. change (length (str " ...")) with 4%nat. lia.
    + pose proof (fmtBytes_length (sbytes d1)). lia.
  - unfold logLazyTimeout. destruct (Z.eqb_spec t 0); [done|]. split; [|done]. intros E.
    destruct (fmtDuration_numeric t) as (b & r & Hb & Hd). rewrite E in Hb. injection Hb as <- _.
    by destruct Hd.
Qed.

(** The handler [init] leaves in force prints from level Info on: it replaces the one
    that discards. *)
Theorem Log_init_handler `{Log15 Logger} l :
  fst (Log_init l) = Ok tt /\ GetHandler (snd (Log_init l)) = LvlFilterHandler LvlInfo StderrHandler.
Proof.
  unfold Log_init. rewrite bind_eq. pose proof (SetHandler_returns DiscardHandler l) as Hr.
  destruct (SetHandler DiscardHandler l) as [o l1]. simpl in Hr. subst o.
  split; [apply SetHandler_returns|apply SetHandler_handler].
Qed.
